(* ===== verification/_CoqProject ===== *)
-Q . S2P
Prelude.v
GoLib.v
Utf8.v
Paths.v
Labgob.v
Labrpc.v
Harness.v
KVServer.v
KVSystem.v
Bitset.v
PorcModel.v
PorcList.v
Checker.v
CheckerSearch.v
CheckerCorrect.v
PartialOrder.v
KvModel.v
KVHistory.v
Kvraft.v
Visualization.v
Layout.v
ScanFits.v
LayoutFits.v
Drawing.v
PageUI.v
MRWorker.v
Coordinator.v
MRSystem.v
MRCorrect.v
MRLiveness.v
MRParallel.v
MRApps.v
Mains.v
Raft.v
TestUtil.v
RaftPeer.v
RaftElection.v
ElectionSafety.v
RaftTypes.v
RaftCrash.v
RaftReplication.v
RaftLive.v
LogMatching.v
CommitWorld.v
CommitPeer.v
CommitElection.v
CommitInvariant.v
CommitSafety.v
RaftNext.v
ReplicationRuns.v
RaftAvailable.v
RaftConfig.v
RaftChecks.v
RaftAccepted.v
RaftDelivers.v
KvraftConfig.v
ShardClients.v
ServiceConfigs.v
ShardkvConfig.v
