(* ===== verification/Prelude.v ===== *)
(** * MIT 6.5840 labs: a verification of the Go sources

    The repository holds the labs of a distributed-systems course: a MapReduce
    coordinator and its workers (src/src/mr, mrapps), a key/value server with
    exactly-once calls (src/src/kvsrv), a Raft peer (src/src/raft), the simulated
    network they run on (src/src/labrpc) with its encoding checks
    (src/src/labgob), the linearizability checker that the tests judge the
    key/value server with (src/src/porcupine, with the model of src/src/models),
    and the later services on Raft (kvraft, shardctrler, shardkv), whose servers
    are still skeletons but whose clerks and test configurations are not.  The
    key/value clerk and the Raft peers call each other through labrpc; the tests
    build a network from a configuration (config.go of each lab), record what
    the service does, and check it, by porcupine for the key/value server.

    ** The model

    Pure functions are functions; a Go computation that may panic (a slice
    access out of range, a nil dereference, a close of a closed channel,
    [log.Fatal]) returns an [outcome].  State is passed explicitly; what runs
    under one mutex is one step, and a handler that releases its lock is split
    there.  Goroutines, messages, losses, crashes, timeouts and restarts are the
    labelled transition systems of the concurrent files, as [Inductive] step
    relations with [run] from this file.  What the source draws at random, reads
    from a clock or receives from another goroutine is an argument; a check that
    sleeps and looks again takes the list of the states it sees.  Integers are
    [Z]: 64-bit words keep their width in [Bitset], [ihash] its 31 bits and the
    counters of operations their 32; terms, indices, call counters and sequence
    numbers are unbounded.

    ** The files

    - [Prelude]: outcomes and their tactic [inv_ok], transition systems, runs,
      invariants by rule induction, forward simulation, the hint database [lts].
    - [GoLib]: slices, maps with zero values, [sort.Sort] as an interface
      ([GoSort], with insertion sort as an instance), byte strings, [Sprintf]
      names.  [Utf8]: runes, words and what JSON makes of a string.  [Paths]:
      names of files, resolved against the working directory.
    - [Labgob] (labgob/labgob.go): the checks of types and of values that are
      decoded into.
    - [Labrpc] (labrpc/labrpc.go): [Network] and its methods, [Server],
      [Service], [MakeService], [processReq], [Call]; [fate], the interface to
      clients.  [Harness]: what all test configurations share, the tables of
      end-point names and the loops that make and switch end points.
    - [KVServer] (kvsrv): [Get], [Put], [Append], the clerk's retry loops.
      [KVSystem]: many clerks on a lossy network that may hold a reply back
      while others are served, the atomic store as specification, and the
      refinement between them, by a prophecy of which attempt returns.
    - [Bitset], [PorcModel], [PorcList], [Checker] (porcupine): bit sets, models
      and histories, the linked list on a heap of nodes, the search and the
      collection of the partitions' results.  [CheckerSearch] and
      [CheckerCorrect]: the search is exhaustive and terminates.
      [PartialOrder]: what it collects on the way respects real time.
    - [Visualization] (porcupine/visualization.go): the data shown of a check.
      [Layout], [Drawing], [PageUI]: the script of the page, its layout of time,
      its drawing and its handlers.  [ScanFits], [LayoutFits]: the layout's
      criteria.  [PageUI] has an abstract view of the page, [react], that the
      handlers implement.
    - [KvModel] (models/kv.go): the key/value model, its partition by key, and
      locality.  [KVHistory]: the histories of [KVSystem] given to porcupine.
      [Kvraft] (kvraft): the service on Raft, a skeleton, and its histories.
    - [TestUtil] (config.go and server.go of each lab, raft/util.go): random
      names, time limits, debug output.
    - [MRWorker], [Coordinator] (mr, main/mrsequential.go): the tasks on a file
      system, the coordinator's handlers, the sequential program.  [MRSystem]:
      their interleaving with timers and crashes.  [MRCorrect], [MRLiveness]:
      its invariants.  [MRApps] (mrapps): the applications.  [MRParallel]: the
      timing applications' count of the workers that run at the same time.
      [Mains] (main): what the programs do with their arguments, the parsers of
      package strconv, and the calls between the MapReduce programs.
    - [Raft] (raft/raft.go, persister.go): the peer's record, every RPC handler,
      reply handler and background step, with encoding/gob as an interface
      ([Gob]).  [RaftPeer]: what one peer guarantees.  [RaftElection]: a cluster
      that holds elections on a network that delays, reorders and loses
      messages.  [ElectionSafety], [RaftTypes]: its invariants.  [RaftCrash]: a
      crash while an election starts.  [RaftLive]: elections can be won.
      [RaftReplication]: the same cluster with the goroutines and calls that
      replicate the log and apply it, and [orderly], the rules under which it
      keeps what it commits.  [LogMatching]: its invariant, with the tree of all
      logs as a ghost.  [CommitWorld], [CommitPeer], [CommitElection],
      [CommitInvariant], [CommitSafety]: what has been acknowledged, committed
      and voted for, as ghosts as well, what one peer's steps and an election do
      to them, the invariant, and the two theorems on committed entries.
      [ReplicationRuns]: runs of it that break what Raft promises.
      [RaftNext]: a leader can always send.  [RaftAvailable]: a majority
      recovers, with everything delivered.  [RaftDelivers]: it gets a further
      command through.
    - [RaftConfig], [RaftChecks] (raft/config.go): the tester's net, the life of
      its servers, the readers of the apply channels; the checks on them.
      [RaftAccepted]: the readers against the cluster of [RaftReplication].
    - [KvraftConfig] (kvraft/config.go, kvraft/server.go), [ServiceConfigs]
      (kvsrv/config.go, shardctrler/config.go), [ShardkvConfig]
      (shardkv/config.go): the other configurations.  [ShardClients]
      (shardctrler, shardkv): the clerks and the skeletons of the servers.

    ** What is shown

    - porcupine: [checkSingle_correct], the search returns and answers [true]
      exactly on the linearizable histories; [CheckOperationsTimeout_correct],
      with or without a timeout and with the wait of the verbose mode, in every
      order of arrival, and [CheckOperations_KvModel], the same through
      partitions, in any order of arrival; [KvModel_locality]; the data structures below the search
      ([unlift_undoes_lift], [bitset_refines_set]).  Its page:
      [visualization_ok], the data; [page_readable], the boxes and strokes drawn
      of a checked history in which no operation starts when the last one
      returns ([instant_breaks]: otherwise a page may be unreadable);
      [page_consistent], what the mouse does to the marks, the linearization
      shown, the link and the tooltip.
    - kvsrv: [kvsrv_refines_spec], the server with its clerks implements an
      atomic store when Put is only called by clients the server knows, and
      [kvsrv_history_accepted], porcupine accepts its histories;
      [kvsrv_put_twice], without that restriction it does not.
    - MapReduce: [mr_done_correct], a finished job has computed what the
      sequential program computes, whatever crashed, when Map emits valid UTF-8
      and Reduce does not depend on the order of the values; [mr_can_finish], a job can
      always be finished; [mains_agree], what test-mr.sh compares of the
      programs' output; [wc_job_counts_words], the word count;
      [nparallel_counts], the timing applications count the workers that run.
    - Raft: each handler on each branch ([RequestVote_spec],
      [AppendEntries_success], [handleAppendEntries_commits],
      [InstallSnapshot_spec] and the others of [RaftPeer]); [peers_typed], the
      peers of a cluster stay well-formed; [election_safety], at most one leader
      per term when votes are only counted in the term they were given for and
      no server crashes between the requests of its election and the save of its
      term and vote ([saved_crash]); [log_matching], logs that agree on an entry
      agree up to it, when in addition [Start] only appends while the peer leads.  When in addition
      requests leave, and replies are handled, in the term they belong to, and a
      late request does not cut entries of its own term ([orderly]):
      [state_machine_safety], two services never get different commands of an
      index, [leader_completeness], a leader has what was delivered,
      [majority_recovers], any majority that is up can get such a leader,
      [majority_delivers], it can commit and deliver any further command,
      [leader_sends], a leader's heartbeat never panics, and
      [readers_accept], the tester accepts every such run.  [can_elect]: with
      any of these rules or none, a majority of servers with non-empty logs can
      elect a leader ([single_never_leads]: but not a server alone).  The source has none
      of these restrictions, and each is needed: [stale_votes_two_leaders],
      [start_after_step_down], [stale_request_loses_commit],
      [stale_reply_loses_commit] and [reordered_append_loses_commit] are runs
      of it that keep the other rules and break one of the theorems, as does,
      for elections, a crash before the vote is saved
      ([unsaved_vote_two_leaders]); [stale_heartbeat_panics] stops a peer.
    - The tests: [enabled_iff_connected] (the raft tester's net),
      [apply_all_accepts] (exactly which applied messages it accepts),
      [one_agreement] and [one_leader_never_fails] (its checks, on the protocol),
      [leader_partitioned] (kvraft's partitions), [only_three_per_group].
    - The programs: [diskvd_serves], which command lines start a server.
    - The clerks: [shardkv_Get_sound] and [shardkv_Get_returns].
    - labrpc and labgob: [Call_fate] and the connectivity theorems;
      [checkType_complains], [checkType_terminates].
    - kvraft: [skeleton_rejected], the clerk as it is fails the tests.

    ** Fuel and bounds

    The search of [Checker] iterates with fuel: [checkSingle_correct] gives a
    bound from which on the answer is the same.  [seq_loop] of [MRWorker] takes
    the length of its list, of which every turn removes an entry; the loops of
    [Raft] take the distance they walk, which their specifications show to be
    enough.  [checkType] takes the depth of its calls ([checkType_terminates]).
    The clerks of [ShardClients] loop until they are answered: one unit is one
    round, and [Query_first] and [shardkv_Get_returns] say how many are enough.

    ** What is not modelled

    Delays and clocks (labrpc's sleeps, the ten seconds of a task timer, Raft's
    timeouts and the time limits of the tests are steps that may happen at any
    time, or are left out); the encoding itself (encoding/gob; of JSON there is
    what it does to a string that is no UTF-8); symbolic links; the
    temporary files of MapReduce before they are renamed; the sockets between
    coordinator and workers; of porcupine's page the style sheet, the legend,
    scrolling and the DOM (a layer is a list of strokes, a class of an element a
    boolean), while the width of a drawn text is a parameter; the services diskv, lockservice, pbservice and viewservice of main,
    which the repository does not have, and package plugin, which are
    parameters; the sources of random numbers, which are arguments.  The
    handlers of kvraft, shardctrler and shardkv are empty in the source.  In
    [RaftReplication] the services take no snapshots, so the theorems on
    committed entries are about clusters without them, and snapshots are covered
    peer by peer.  Crashes are a parameter
    of the cluster's steps: the source's, [any_crash], may come at any moment,
    and [unsaved_vote_two_leaders] is a run with one in the middle of
    [startElection]; the theorems on election safety and on committed entries
    are about [saved_crash].  The theorems on
    what can be reached ([mr_can_finish], [can_elect], [majority_delivers]) say
    that a good continuation exists, not that a fair scheduler takes it. *)
From stdpp Require Export base gmap sets list strings list_numbers sorting.

(** ** Outcomes: a Go computation returns a value or panics. *)

Inductive outcome (A : Type) : Type :=
  | Ok (a : A)
  | Panic.
Arguments Ok {A} a.
Arguments Panic {A}.

#[export] Instance outcome_ret : MRet outcome := @Ok.
#[export] Instance outcome_bind : MBind outcome :=
  λ A B f m, match m with Ok a => f a | Panic => Panic end.
#[export] Instance outcome_fmap : FMap outcome :=
  λ A B f m, match m with Ok a => Ok (f a) | Panic => Panic end.
#[export] Instance outcome_eq_dec `{EqDecision A} : EqDecision (outcome A).
Proof. solve_decision. Defined.

Definition is_ok {A} (m : outcome A) : Prop := ∃ a, m = Ok a.

Lemma bind_Ok {A B} (m : outcome A) (f : A → outcome B) (b : B) :
  (m ≫= f) = Ok b ↔ ∃ a, m = Ok a ∧ f a = Ok b.
Proof. destruct m as [a|]; cbn; naive_solver. Qed.

Lemma fmap_Ok {A B} (m : outcome A) (f : A → B) (b : B) :
  (f <$> m) = Ok b ↔ ∃ a, m = Ok a ∧ f a = b.
Proof. destruct m as [a|]; cbn; naive_solver. Qed.

Lemma mapM_Ok {A B} (f : A → outcome B) l k :
  Forall2 (λ x y, f x = Ok y) l k → mapM f l = Ok k.
Proof. induction 1 as [|x y l k Hx Hl IH]; [done|]. cbn [mapM]. by rewrite Hx; cbn; rewrite IH. Qed.

Lemma mapM_Ok_inv {A B} (f : A → outcome B) l k :
  mapM f l = Ok k → Forall2 (λ x y, f x = Ok y) l k.
Proof.
  revert k. induction l as [|x l IH]; intros k Hm; cbn in Hm; [by injection Hm as <-|].
  apply bind_Ok in Hm as (y & Hy & Hm). apply bind_Ok in Hm as (k' & Hk' & [= <-]).
  constructor; [done|]. by apply IH.
Qed.

(** [inv_ok] turns every [_ ≫= _ = Ok _] hypothesis into its successful
    intermediate results. *)
Ltac inv_ok :=
  repeat match goal with
  | H : (_ ≫= _) = Ok _ |- _ =>
      apply bind_Ok in H; let x := fresh "x" in let Hx := fresh "Hx" in
      destruct H as (x & Hx & H)
  | H : (_ <$> _) = Ok _ |- _ =>
      apply fmap_Ok in H; let x := fresh "x" in let Hx := fresh "Hx" in
      destruct H as (x & Hx & H)
  | H : mret _ = Ok _ |- _ => injection H as H
  | H : Ok _ = Ok _ |- _ => injection H as H
  | H : Panic = Ok _ |- _ => discriminate H
  | H : Ok _ = Panic |- _ => discriminate H
  end.

(** ** Labelled transition systems

    A step carries at most one visible event; a run carries the list of the
    visible events, oldest first. *)
Section LTS.
Context {S E : Type} (step : S → option E → S → Prop).

Inductive run : S → list E → S → Prop :=
  | run_refl s : run s [] s
  | run_step s l s' tr s'' :
      step s l s' → run s' tr s'' → run s (option_list l ++ tr) s''.

Lemma run_trans s1 tr1 s2 tr2 s3 :
  run s1 tr1 s2 → run s2 tr2 s3 → run s1 (tr1 ++ tr2) s3.
Proof.
  induction 1; intros; [done|]. rewrite <-app_assoc. econstructor; eauto.
Qed.

Lemma run_one s l s' : step s l s' → run s (option_list l) s'.
Proof.
  intros Hs. rewrite <-(app_nil_r (option_list l)). econstructor; [done|constructor].
Qed.

Lemma run_tau s s' tr s'' : step s None s' → run s' tr s'' → run s tr s''.
Proof. intros Hs Hr. exact (run_step _ _ _ _ _ Hs Hr). Qed.

Lemma run_event s e s' tr s'' : step s (Some e) s' → run s' tr s'' → run s (e :: tr) s''.
Proof. intros Hs Hr. exact (run_step _ _ _ _ _ Hs Hr). Qed.

(** Runs without visible events compose. *)
Lemma run_silent s1 s2 s3 : run s1 [] s2 → run s2 [] s3 → run s1 [] s3.
Proof. intros H1 H2. exact (run_trans _ _ _ _ _ H1 H2). Qed.

Lemma run_silent_step s1 s2 s3 : run s1 [] s2 → step s2 None s3 → run s1 [] s3.
Proof. intros H1 H2. eapply run_silent; [exact H1|]. by apply (run_one s2 None). Qed.

(** Rule induction on runs: a property kept by every step holds at the end. *)
Lemma run_invariant (I : S → Prop) :
  (∀ s l s', I s → step s l s' → I s') →
  ∀ s tr s', run s tr s' → I s → I s'.
Proof. intros Hstep s tr s' Hr. induction Hr; eauto. Qed.
End LTS.

(** Reachability without visible events. *)
Declare Scope go_scope.
Notation "s =[ step ]=> s'" := (run step s [] s')
  (at level 70, step at level 200, no associativity, format "s  =[ step ]=>  s'") : go_scope.

Create HintDb lts discriminated.
#[export] Hint Resolve run_refl run_silent run_silent_step : lts.

(** Forward simulation: trace inclusion from a step-by-step correspondence. *)
Section Simulation.
Context {S T E : Type}.
Context (step : S → option E → S → Prop) (spec : T → option E → T → Prop).
Context (R : S → T → Prop).
Hypothesis sim : ∀ s l s' t, R s t → step s l s' →
  ∃ t', run spec t (option_list l) t' ∧ R s' t'.

Lemma forward_simulation s tr s' t :
  run step s tr s' → R s t → ∃ t', run spec t tr t' ∧ R s' t'.
Proof.
  intros Hr. revert t. induction Hr as [|s l s1 tr s2 Hs Hr IH]; intros t HR.
  - exists t. split; [constructor|done].
  - destruct (sim _ _ _ _ HR Hs) as (t1 & Ht1 & HR1).
    destruct (IH _ HR1) as (t2 & Ht2 & HR2).
    exists t2. split; [by eapply run_trans|done].
Qed.
End Simulation.

(** Backward simulation: the corresponding run is found from its end, which
    is how an annotation that depends on the future is chosen. *)
Section BackwardSimulation.
Context {S T E : Type}.
Context (step : S → option E → S → Prop) (spec : T → option E → T → Prop).
Context (R : S → T → Prop).
Hypothesis sim : ∀ s l s' t', R s' t' → step s l s' →
  ∃ t, run spec t (option_list l) t' ∧ R s t.

Lemma backward_simulation s tr s' t' :
  run step s tr s' → R s' t' → ∃ t, run spec t tr t' ∧ R s t.
Proof.
  intros Hr HR. induction Hr as [s|s l s1 tr s2 Hs Hr IH].
  - exists t'. split; [constructor|done].
  - destruct (IH HR) as (t1 & Ht1 & HR1).
    destruct (sim _ _ _ _ HR1 Hs) as (t0 & Ht0 & HR0).
    exists t0. split; [by eapply run_trans|done].
Qed.
End BackwardSimulation.

(** ** Finite maps built from a set of keys *)
Definition map_on {V} (f : Z → V) (ks : gset Z) : gmap Z V :=
  set_to_map (λ k, (k, f k)) ks.

Lemma lookup_map_on {V} (f : Z → V) (ks : gset Z) k :
  map_on f ks !! k = if decide (k ∈ ks) then Some (f k) else None.
Proof.
  apply option_eq. intros v. unfold map_on.
  rewrite lookup_set_to_map by done. case_decide; split.
  - by intros (y & Hy & [= -> <-]).
  - intros [= <-]. eauto.
  - by intros (y & Hy & [= -> <-]).
  - done.
Qed.
