(* ===== verification/GoLib.v ===== *)
(** * Go run-time operations the source relies on

    Slice indexing and slicing (with the bounds checks that panic), maps with
    zero values, and the contract of [sort.Sort].  Components use these instead
    of stdpp's total list operations, so that every index the program computes
    is either in range or an explicit [Panic]. *)
From Stdlib Require OrdersEx.
From stdpp Require Export pretty.
From S2P Require Import Prelude.

Declare Scope go_scope.
Delimit Scope go_scope with go.
Local Open Scope Z_scope.

(** ** Slices *)
Section Slices.
Context {A : Type}.
Implicit Types (l : list A) (i : Z).

Definition go_len l : Z := Z.of_nat (length l).

(** [l[i]] *)
Definition go_index l i : outcome A :=
  if decide (0 ≤ i) then
    match l !! Z.to_nat i with Some x => Ok x | None => Panic end
  else Panic.

(** [l[i] = x] *)
Definition go_set l i (x : A) : outcome (list A) :=
  if decide (0 ≤ i < go_len l) then Ok (<[Z.to_nat i := x]> l) else Panic.

(** [l[i:]] *)
Definition go_from l i : outcome (list A) :=
  if decide (0 ≤ i ≤ go_len l) then Ok (drop (Z.to_nat i) l) else Panic.

(** [l[:i]], for slices whose capacity is their length *)
Definition go_upto l i : outcome (list A) :=
  if decide (0 ≤ i ≤ go_len l) then Ok (take (Z.to_nat i) l) else Panic.

Lemma go_len_nonneg l : 0 ≤ go_len l.
Proof. unfold go_len; lia. Qed.

Lemma go_index_Ok l i x :
  go_index l i = Ok x ↔ 0 ≤ i ∧ l !! Z.to_nat i = Some x.
Proof.
  unfold go_index. case_decide; [|by split; [|lia]].
  destruct (l !! Z.to_nat i); split; try done; try by intros [? [= ->]].
  by intros [= ->].
Qed.

Lemma go_index_in_range l i : 0 ≤ i < go_len l → ∃ x, go_index l i = Ok x.
Proof.
  unfold go_len; intros Hi.
  destruct (lookup_lt_is_Some_2 l (Z.to_nat i)) as [x Hx]; [lia|].
  exists x. apply go_index_Ok; split; [lia|done].
Qed.

Lemma go_index_bound l i x : go_index l i = Ok x → 0 ≤ i < go_len l.
Proof.
  intros [? Hl]%go_index_Ok. apply lookup_lt_Some in Hl. unfold go_len; lia.
Qed.

Lemma go_index_Panic l i : go_index l i = Panic ↔ i < 0 ∨ go_len l ≤ i.
Proof.
  split.
  - intros Hp. destruct (decide (0 ≤ i < go_len l)) as [Hi|]; [|lia].
    destruct (go_index_in_range l i Hi); congruence.
  - intros Hi. destruct (go_index l i) eqn:Hx; [|done].
    apply go_index_bound in Hx. lia.
Qed.

Lemma go_set_Ok l i x l' :
  go_set l i x = Ok l' ↔ 0 ≤ i < go_len l ∧ l' = <[Z.to_nat i := x]> l.
Proof. unfold go_set. case_decide; split; [by intros [= <-]| |done|]; naive_solver. Qed.

(** Writing one entry keeps the length of a slice. *)
Lemma go_len_set l l' i x : go_set l i x = Ok l' → go_len l' = go_len l.
Proof. intros [Hi ->]%go_set_Ok. unfold go_len. by rewrite length_insert. Qed.

Lemma go_from_Ok l i l' :
  go_from l i = Ok l' ↔ 0 ≤ i ≤ go_len l ∧ l' = drop (Z.to_nat i) l.
Proof. unfold go_from. case_decide; split; [by intros [= <-]| |done|]; naive_solver. Qed.

Lemma go_upto_Ok l i l' :
  go_upto l i = Ok l' ↔ 0 ≤ i ≤ go_len l ∧ l' = take (Z.to_nat i) l.
Proof. unfold go_upto. case_decide; split; [by intros [= <-]| |done|]; naive_solver. Qed.
End Slices.

(** ** Loops

    [for _, j := range js { body }], where the body may panic. *)
Fixpoint go_for {S} (js : list Z) (body : Z → S → outcome S) (s : S) : outcome S :=
  match js with
  | [] => Ok s
  | j :: js => s' ← body j s; go_for js body s'
  end.

(** [for j := 0; j < n; j++] *)
Abbreviation upto n := (seqZ 0 n) (only parsing).

(** The loop invariant, on the part of the range that is done. *)
Lemma go_for_inv {S} (I : list Z → S → Prop) js body s s' :
  go_for js body s = Ok s' → I [] s →
  (∀ ds j s1 s2, I ds s1 → j ∈ js → body j s1 = Ok s2 → I (ds ++ [j]) s2) → I js s'.
Proof.
  intros Hf H0 Hstep.
  enough (∀ ds s, I ds s → go_for js body s = Ok s' → I (ds ++ js) s') as Hall by (by apply (Hall [] s)).
  clear s Hf H0. induction js as [|j js IH]; intros ds s Hs Hf; cbn in Hf.
  - injection Hf as <-. by rewrite app_nil_r.
  - apply bind_Ok in Hf as (s1 & Hb & Hf). rewrite cons_middle, app_assoc. apply IH with s1; [|eapply Hstep; [done|by left|done]|done].
    intros ds' j' s2 s3 HI Hj. apply Hstep; [done|]. by right.
Qed.

(** A loop whose body never panics reaches its end. *)
Lemma go_for_total {S} (I : list Z → S → Prop) js body s :
  I [] s →
  (∀ ds j s1, I ds s1 → j ∈ js → ∃ s2, body j s1 = Ok s2 ∧ I (ds ++ [j]) s2) →
  ∃ s', go_for js body s = Ok s' ∧ I js s'.
Proof.
  intros H0 Hstep.
  enough (∀ ds s, I ds s → ∃ s', go_for js body s = Ok s' ∧ I (ds ++ js) s') as Hall by (by apply (Hall [])).
  clear s H0. induction js as [|j js IH]; intros ds s Hs; cbn.
  - exists s. by rewrite app_nil_r.
  - destruct (Hstep ds j s) as (s1 & -> & H1); [done|by left|]. cbn.
    rewrite cons_middle, app_assoc. apply IH; [|done].
    intros ds' j' s2 HI Hj. apply Hstep; [done|]. by right.
Qed.

(** ** Maps: a missing key reads as the zero value *)
Definition map_get `{Countable K} {V} (zero : V) (m : gmap K V) (k : K) : V :=
  default zero (m !! k).

(** ** [sort.Sort]

    The library sorts in place with an algorithm that is not stable: its
    documented contract is that the result is a permutation of the input in
    which no later element is [Less] than an earlier one, when [Less] is a
    strict weak order.  Components are proved against this contract. *)
Record strict_weak {A} (less : A → A → bool) : Prop := {
  sw_irrefl x : less x x = false;
  sw_trans x y z : less x y = true → less y z = true → less x z = true;
  sw_incomp x y z : less x y = false → less y z = false → less x z = false;
}.

Class GoSort : Type := {
  go_sort : ∀ {A : Type}, (A → A → bool) → list A → list A;
  go_sort_perm : ∀ {A : Type} (less : A → A → bool) (l : list A), go_sort less l ≡ₚ l;
  go_sort_sorted : ∀ {A : Type} (less : A → A → bool) (l : list A),
    strict_weak less → StronglySorted (λ x y, less y x = false) (go_sort less l);
}.

(** Insertion sort meets the contract, so it is satisfiable. *)
Section InsertionSort.
Context {A : Type} (less : A → A → bool).

Fixpoint insert_by (x : A) (l : list A) : list A :=
  match l with
  | [] => [x]
  | y :: l' => if less y x then y :: insert_by x l' else x :: l
  end.

Definition insertion_sort (l : list A) : list A := foldr insert_by [] l.

Lemma insert_by_perm x l : insert_by x l ≡ₚ x :: l.
Proof.
  induction l as [|y l IH]; [done|]; cbn.
  case_match; [|done]. rewrite IH. constructor.
Qed.

Lemma insertion_sort_perm l : insertion_sort l ≡ₚ l.
Proof.
  induction l as [|x l IH]; [done|]; cbn.
  by rewrite insert_by_perm, IH.
Qed.

Lemma insert_by_sorted x l :
  strict_weak less →
  StronglySorted (λ x y, less y x = false) l →
  StronglySorted (λ x y, less y x = false) (insert_by x l).
Proof.
  intros [Hirr Htr Hinc] Hs.
  induction Hs as [|y l Hs IH Hy]; cbn; [by repeat constructor|].
  destruct (less y x) eqn:Hyx.
  - constructor; [done|]. rewrite (insert_by_perm x l).
    constructor; [|done]. destruct (less x y) eqn:Hxy; [|done].
    by pose proof (Htr x y x Hxy Hyx) as Hxx; rewrite Hirr in Hxx.
  - constructor; [by constructor|]. constructor; [done|].
    eapply Forall_impl; [exact Hy|]. intros z Hz; cbn in *. eauto.
Qed.
End InsertionSort.

#[export] Instance insertion_GoSort : GoSort.
Proof.
  refine {| go_sort := λ A, insertion_sort |}.
  - intros A. apply insertion_sort_perm.
  - intros A less l Hw. induction l as [|x l IH]; cbn; [constructor|].
    by apply insert_by_sorted.
Defined.

(** ** [sort.Strings]: bytewise order, a strict weak order with no ties *)
Lemma string_compare_OT a b : String.compare a b = OrdersEx.String_as_OT.compare a b.
Proof. reflexivity. Qed.

Lemma string_ltb_lt a b : String.ltb a b = true ↔ OrdersEx.String_as_OT.lt a b.
Proof.
  unfold String.ltb, OrdersEx.String_as_OT.lt. rewrite string_compare_OT.
  by destruct (OrdersEx.String_as_OT.compare a b).
Qed.

Lemma string_ltb_connected a b : String.ltb a b = false → String.ltb b a = false → a = b.
Proof.
  unfold String.ltb. rewrite (String.compare_antisym b a).
  destruct (String.compare a b) eqn:Hc; [|done..]. intros _ _. by apply String.compare_eq_iff.
Qed.

Lemma string_ltb_irrefl a : String.ltb a a = false.
Proof.
  apply not_true_iff_false. rewrite string_ltb_lt.
  apply (StrictOrder_Irreflexive (R := OrdersEx.String_as_OT.lt)).
Qed.

Lemma string_ltb_trans a b c :
  String.ltb a b = true → String.ltb b c = true → String.ltb a c = true.
Proof.
  rewrite !string_ltb_lt. apply (StrictOrder_Transitive (R := OrdersEx.String_as_OT.lt)).
Qed.

Lemma string_ltb_strict_weak : strict_weak String.ltb.
Proof.
  split; [apply string_ltb_irrefl|apply string_ltb_trans|].
  intros a b c Hab Hbc. apply not_true_iff_false. intros Hac.
  destruct (String.ltb b a) eqn:Hba.
  - rewrite (string_ltb_trans _ _ _ Hba Hac) in Hbc. done.
  - rewrite (string_ltb_connected _ _ Hab Hba), Hac in *. done.
Qed.

(** ** Names built with [Sprintf]

    [%d] and [%v] of an integer is [pretty]; the names of files put a dash
    before a number that holds none, so they can be taken apart again. *)
Definition chars (s : string) : list Ascii.ascii := String.list_ascii_of_string s.

Lemma chars_app a b : chars (a +:+ b) = chars a ++ chars b.
Proof.
  induction a as [|c a IH]; [done|].
  change (c :: chars (a +:+ b) = c :: chars a ++ chars b). by rewrite IH.
Qed.

#[export] Instance chars_inj : Inj (=) (=) chars.
Proof.
  intros a b Hab. rewrite <-(String.string_of_list_ascii_of_string a).
  unfold chars in Hab. rewrite Hab. apply String.string_of_list_ascii_of_string.
Qed.

#[export] Instance string_app_assoc : Assoc (=) String.append.
Proof. intros a b c. apply (inj chars). by rewrite !chars_app, (assoc_L (++)). Qed.

Definition dash : Ascii.ascii := Ascii.ascii_of_nat 45.
Definition no_dash (s : string) : Prop := dash ∉ chars s.

Definition digit (c : Ascii.ascii) : Prop := ∃ x, c = pretty_N_char x.

Lemma pretty_N_go_digits x s :
  Forall digit (chars s) → Forall digit (chars (pretty_N_go x s)).
Proof.
  revert s. induction (N.lt_wf_0 x) as [x _ IH]; intros s Hs.
  assert (x = 0 ∨ 0 < x)%N as [->|?] by lia; [by rewrite pretty_N_go_0|].
  rewrite pretty_N_go_step by done. apply IH; [by apply N.div_lt|].
  constructor; [by eexists|done].
Qed.

Lemma pretty_digits (z : Z) : 0 ≤ z → Forall digit (chars (pretty z)).
Proof.
  intros Hz. destruct z as [|p|p]; [| |lia].
  - constructor; [by exists 0%N|constructor].
  - apply pretty_N_go_digits. constructor.
Qed.

Lemma pretty_not_digit (z : Z) c : 0 ≤ z → (∀ x, c ≠ pretty_N_char x) → c ∉ chars (pretty z).
Proof.
  intros Hz Hc Hin. pose proof (pretty_digits z Hz) as Hd. rewrite Forall_forall in Hd.
  destruct (Hd _ Hin) as [x ->]. by destruct (Hc x).
Qed.

Lemma pretty_no_dash (z : Z) : 0 ≤ z → no_dash (pretty z).
Proof.
  intros Hz. apply pretty_not_digit; [done|]. intros x. unfold pretty_N_char. by repeat case_match.
Qed.

Lemma split_right {A} (x : A) l1 l2 l1' l2' :
  x ∉ l2 → x ∉ l2' → l1 ++ x :: l2 = l1' ++ x :: l2' → l1 = l1' ∧ l2 = l2'.
Proof.
  revert l1'. induction l1 as [|y l1 IH]; intros [|y' l1'] H2 H2' Heq; cbn in Heq; simplify_eq.
  - done.
  - destruct H2. set_solver.
  - destruct H2'. set_solver.
  - destruct (IH l1' H2 H2') as [-> ->]; done.
Qed.

(** The last dash splits a name in one way. *)
Lemma dash_split a b a' b' :
  no_dash b → no_dash b' → a +:+ "-" +:+ b = a' +:+ "-" +:+ b' → a = a' ∧ b = b'.
Proof.
  intros Hb Hb' Heq. apply (f_equal chars) in Heq. rewrite !chars_app in Heq. cbn in Heq.
  apply (split_right dash) in Heq as [Ha%(inj chars) Hb2%(inj chars)]; done.
Qed.
