(* ===== verification/Utf8.v ===== *)
(** * UTF-8: what the source uses of unicode/utf8, strings and encoding/json

    [DecodeRune] reads one character; a byte that starts none is [RuneError],
    of width one.  [runes] is what [range] over a string visits.  [FieldsFunc]
    cuts a string into words with a predicate on runes, and [json_string] is
    what a string has become when [encoding/json] has written and read it: each
    byte that starts no character is now the character U+FFFD. *)
From Stdlib Require Import Ascii.
From S2P Require Import Prelude GoLib.
Local Open Scope Z_scope.

Definition byte (c : ascii) : Z := Z.of_nat (nat_of_ascii c).

(** [utf8.RuneError], U+FFFD, and its three bytes *)
Definition RuneError : Z := 0xFFFD.
Definition replacement : list ascii := ascii_of_nat <$> [0xEF; 0xBF; 0xBD]%nat.

Definition between (lo hi : Z) (c : ascii) : Prop := lo ≤ byte c ≤ hi.
#[export] Instance between_dec lo hi c : Decision (between lo hi c).
Proof. unfold between. apply _. Defined.

(** The second bytes that may follow a first one: no overlong form, no
    surrogate, nothing above U+10FFFF. *)
Definition accept (b0 : Z) : Z * Z :=
  if decide (b0 = 0xE0) then (0xA0, 0xBF)
  else if decide (b0 = 0xED) then (0x80, 0x9F)
  else if decide (b0 = 0xF0) then (0x90, 0xBF)
  else if decide (b0 = 0xF4) then (0x80, 0x8F)
  else (0x80, 0xBF).

(** The six bits of a continuation byte, behind those read so far. *)
Definition more (r : Z) (c : ascii) : Z := Z.lor (Z.shiftl r 6) (Z.land (byte c) 0x3F).

(** [utf8.DecodeRune]: the rune and its width *)
Definition DecodeRune (p : list ascii) : Z * nat :=
  match p with
  | [] => (RuneError, 0%nat)
  | c0 :: p =>
      let b0 := byte c0 in
      if decide (b0 < 0x80) then (b0, 1%nat)
      else if decide (b0 < 0xC2 ∨ 0xF5 ≤ b0) then (RuneError, 1%nat)
      else
        match p with
        | [] => (RuneError, 1%nat)
        | c1 :: p =>
            if decide (¬ between (accept b0).1 (accept b0).2 c1) then (RuneError, 1%nat)
            else if decide (b0 < 0xE0) then (more (Z.land b0 0x1F) c1, 2%nat)
            else
              match p with
              | [] => (RuneError, 1%nat)
              | c2 :: p =>
                  if decide (¬ between 0x80 0xBF c2) then (RuneError, 1%nat)
                  else if decide (b0 < 0xF0) then (more (more (Z.land b0 0x0F) c1) c2, 3%nat)
                  else
                    match p with
                    | [] => (RuneError, 1%nat)
                    | c3 :: _ =>
                        if decide (¬ between 0x80 0xBF c3) then (RuneError, 1%nat)
                        else (more (more (more (Z.land b0 0x07) c1) c2) c3, 4%nat)
                    end
              end
        end
  end.

(** ** [range] over a string: every rune, with the bytes it was read from *)
Fixpoint runes_loop (fuel : nat) (p : list ascii) : list (Z * list ascii) :=
  match fuel, p with
  | S fuel, _ :: _ =>
      let '(r, width) := DecodeRune p in (r, take width p) :: runes_loop fuel (drop width p)
  | _, _ => []
  end.

Definition runes (p : list ascii) : list (Z * list ascii) := runes_loop (length p) p.

(** A byte that starts no character. *)
Definition invalid (x : Z * list ascii) : Prop := x.1 = RuneError ∧ length x.2 = 1%nat.
#[export] Instance invalid_dec x : Decision (invalid x).
Proof. unfold invalid. apply _. Defined.

(** [utf8.ValidString] *)
Definition ValidString (s : string) : Prop := Forall (λ x, ¬ invalid x) (runes (chars s)).
#[export] Instance ValidString_dec s : Decision (ValidString s).
Proof. unfold ValidString. apply _. Defined.

(** ** [strings.FieldsFunc]

    [word] are the bytes since the last separator. *)
Definition flush (word : list ascii) : list (list ascii) := if decide (word = []) then [] else [word].

Fixpoint fields_loop (f : Z → bool) (word : list ascii) (rs : list (Z * list ascii)) : list (list ascii) :=
  match rs with
  | [] => flush word
  | (r, bs) :: rs =>
      if f r then flush word ++ fields_loop f [] rs else fields_loop f (word ++ bs) rs
  end.

Definition FieldsFunc (s : string) (f : Z → bool) : list string :=
  String.string_of_list_ascii <$> fields_loop f [] (runes (chars s)).

(** ** A string that [json.Encoder] has written and [json.Decoder] has read *)
Definition json_bytes (p : list ascii) : list ascii :=
  runes p ≫= λ x, if decide (invalid x) then replacement else x.2.

Definition json_string (s : string) : string := String.string_of_list_ascii (json_bytes (chars s)).

(** ** Characters are read one by one *)
Lemma chars_of l : chars (String.string_of_list_ascii l) = l.
Proof. apply String.list_ascii_of_string_of_list_ascii. Qed.

Lemma of_chars s : String.string_of_list_ascii (chars s) = s.
Proof. apply String.string_of_list_ascii_of_string. Qed.

Ltac decode_cases :=
  repeat (case_decide || match goal with |- context [match ?p with [] => _ | _ :: _ => _ end] => destruct p end).

Lemma DecodeRune_width c p : (1 ≤ (DecodeRune (c :: p)).2 ≤ length (c :: p))%nat.
Proof. unfold DecodeRune. decode_cases; cbn; lia. Qed.

(** What follows a character does not matter. *)
Lemma DecodeRune_local p rest r w :
  DecodeRune p = (r, w) → p ≠ [] → ¬ invalid (r, take w p) → DecodeRune (take w p ++ rest) = (r, w).
Proof.
  unfold invalid; cbn [fst snd]. unfold DecodeRune at 1. destruct p as [|c0 p]; [done|]. intros Hd _ Hv.
  revert Hd Hv. decode_cases; intros [= <- <-] Hv; cbn in Hv; try (by destruct Hv);
    cbn; repeat first [rewrite decide_True by assumption|rewrite decide_False by tauto]; done.
Qed.

#[local] Arguments DecodeRune : simpl never.

Lemma runes_loop_fuel n : ∀ m p, (length p ≤ n)%nat → (length p ≤ m)%nat → runes_loop n p = runes_loop m p.
Proof.
  induction n as [|n IH]; intros [|m] [|c p] Hn Hm; cbn in Hn, Hm; try lia; try done.
  cbn [runes_loop]. pose proof (DecodeRune_width c p) as Hw. cbn in Hw.
  destruct (DecodeRune (c :: p)) as [r w] eqn:Hd. cbn [snd] in Hw. f_equal.
  apply IH; rewrite length_drop; cbn; lia.
Qed.

Lemma runes_cons c p :
  runes (c :: p) =
    ((DecodeRune (c :: p)).1, take (DecodeRune (c :: p)).2 (c :: p)) :: runes (drop (DecodeRune (c :: p)).2 (c :: p)).
Proof.
  unfold runes. cbn [length runes_loop]. pose proof (DecodeRune_width c p) as Hw. cbn in Hw.
  destruct (DecodeRune (c :: p)) as [r w]. cbn [fst snd] in *. f_equal.
  apply runes_loop_fuel; [|done]. rewrite length_drop; cbn; lia.
Qed.

(** An induction over the characters of a string. *)
Lemma runes_ind (P : list ascii → Prop) :
  P [] → (∀ c p, P (drop (DecodeRune (c :: p)).2 (c :: p)) → P (c :: p)) → ∀ p, P p.
Proof.
  intros H0 Hs p. induction p as [[|c p] IH] using (induction_ltof1 _ length); [done|].
  apply Hs, IH. unfold ltof. pose proof (DecodeRune_width c p). rewrite length_drop. cbn in *. lia.
Qed.

Lemma runes_concat p : concat (runes p).*2 = p.
Proof.
  induction p as [|c p IH] using runes_ind; [done|]. rewrite runes_cons, fmap_cons. cbn [snd concat].
  by rewrite IH, take_drop.
Qed.

(** A character with its bytes. *)
Definition character (x : Z * list ascii) : Prop :=
  x.2 ≠ [] ∧ ¬ invalid x ∧ ∀ rest, DecodeRune (x.2 ++ rest) = (x.1, length x.2).

Lemma runes_character p x : x ∈ runes p → ¬ invalid x → character x.
Proof.
  induction p as [|c p IH] using runes_ind; [by intros ?%elem_of_nil|].
  rewrite runes_cons. intros [->|Hx]%elem_of_cons Hv; [|by apply IH].
  destruct (DecodeRune (c :: p)) as [r w] eqn:Hd. pose proof (DecodeRune_width c p) as Hw.
  rewrite Hd in Hw. cbn [fst snd] in *. split; [|split]; cbn [fst snd].
  - destruct w; [lia|done].
  - done.
  - intros rest. rewrite (DecodeRune_local _ _ _ _ Hd) by done. by rewrite length_take, Nat.min_l by lia.
Qed.

Lemma runes_of_characters xs : Forall character xs → runes (concat xs.*2) = xs.
Proof.
  induction 1 as [|[r bs] xs (Hne & Hv & Hd) _ IH]; [done|]. rewrite fmap_cons. cbn [fst snd concat] in *.
  specialize (Hd (concat xs.*2)). destruct bs as [|b bs]; [done|].
  rewrite <-app_comm_cons in *. rewrite runes_cons, Hd. cbn [fst snd]. rewrite app_comm_cons.
  by rewrite take_app_length, drop_app_length, IH.
Qed.

Lemma replacement_character : character (RuneError, replacement).
Proof. split; [done|]. split; [by intros [_ ?]|]. intros rest. reflexivity. Qed.

Lemma Valid_of_characters xs : Forall character xs → ValidString (String.string_of_list_ascii (concat xs.*2)).
Proof.
  intros Hxs. unfold ValidString. rewrite chars_of, runes_of_characters by done.
  eapply Forall_impl; [exact Hxs|]. by intros x (_ & ? & _).
Qed.

(** ** The JSON round trip *)
Definition json_rune (x : Z * list ascii) : Z * list ascii :=
  if decide (invalid x) then (RuneError, replacement) else x.

Lemma json_bytes_runes p : json_bytes p = concat (json_rune <$> runes p).*2.
Proof.
  unfold json_bytes. induction (runes p) as [|x xs IH]; [done|]. rewrite bind_cons, !fmap_cons. cbn [concat].
  rewrite IH. unfold json_rune at 2. by case_decide.
Qed.

(** What comes back is valid, and valid strings come back as they were. *)
Lemma json_string_valid s : ValidString (json_string s).
Proof.
  unfold json_string. rewrite json_bytes_runes. apply Valid_of_characters, Forall_fmap, Forall_forall.
  intros x Hx. cbn. unfold json_rune. case_decide; [apply replacement_character|by eapply runes_character].
Qed.

Lemma json_string_id s : ValidString s ↔ json_string s = s.
Proof.
  split; [|intros <-; apply json_string_valid]. intros Hv. unfold json_string. rewrite json_bytes_runes.
  replace (json_rune <$> runes (chars s)) with (runes (chars s)); [by rewrite runes_concat, of_chars|].
  symmetry. unfold ValidString in Hv. induction Hv as [|x xs Hx _ IH]; [done|].
  rewrite fmap_cons, IH. unfold json_rune. by rewrite decide_False.
Qed.

(** ** The words of [FieldsFunc] *)
Lemma fields_loop_word f rs : ∀ xs w,
  Forall (λ x : Z * list ascii, x.2 ≠ []) rs → Forall (λ x : Z * list ascii, x.2 ≠ [] ∧ f x.1 = false) xs →
  w ∈ fields_loop f (concat xs.*2) rs →
  ∃ ys, w = concat ys.*2 ∧ ys ≠ [] ∧ Forall (λ x, f x.1 = false) ys ∧ ys ⊆ xs ++ rs.
Proof.
  assert (∀ xs w, Forall (λ x : Z * list ascii, x.2 ≠ [] ∧ f x.1 = false) xs → w ∈ flush (concat xs.*2) →
    w = concat xs.*2 ∧ xs ≠ [] ∧ Forall (λ x, f x.1 = false) xs) as Hflush.
  { intros xs w Hxs. unfold flush. case_decide as Hn; [by intros ?%elem_of_nil|].
    intros ->%list_elem_of_singleton. split_and!; [done|by intros ->|]. eapply Forall_impl; [done|]. by intros x []. }
  induction rs as [|[r bs] rs IH]; intros xs w Hrs Hxs; cbn [fields_loop].
  { intros Hw. apply Hflush in Hw as (? & ? & ?); [|done]. exists xs. split_and!; [done..|]. by rewrite app_nil_r. }
  apply Forall_cons in Hrs as [Hr Hrs]. destruct (f r) eqn:Hf.
  - rewrite elem_of_app. intros [Hw|Hw].
    + apply Hflush in Hw as (? & ? & ?); [|done]. exists xs. split_and!; [done..|]. set_solver.
    + destruct (IH [] w Hrs (Forall_nil_2 _) Hw) as (ys & ? & ? & ? & Hys). exists ys. split_and!; [done..|].
      set_solver.
  - intros Hw. destruct (IH (xs ++ [(r, bs)]) w Hrs) as (ys & ? & ? & ? & Hys).
    + apply Forall_app. split; [done|]. by apply Forall_singleton.
    + rewrite fmap_app, concat_app. cbn. by rewrite app_nil_r.
    + exists ys. split_and!; [done..|]. set_solver.
Qed.

Lemma runes_nonempty p : Forall (λ x, x.2 ≠ []) (runes p).
Proof.
  induction p as [|c p IH] using runes_ind; [constructor|]. rewrite runes_cons. constructor; [|done].
  cbn [snd]. pose proof (DecodeRune_width c p). by destruct (DecodeRune (c :: p)) as [r [|w]]; [cbn in *; lia|].
Qed.

(** A word is valid if bytes that start no character separate, and then its
    characters are none of the separators. *)
Lemma FieldsFunc_word s f w :
  f RuneError = true → w ∈ FieldsFunc s f →
  ValidString w ∧ w ≠ EmptyString ∧ Forall (λ x, f x.1 = false) (runes (chars w)).
Proof.
  intros Hf Hw. unfold FieldsFunc in Hw. apply list_elem_of_fmap in Hw as (bs & -> & Hw).
  destruct (fields_loop_word f _ [] bs (runes_nonempty _) (Forall_nil_2 _) Hw) as (ys & -> & Hne & Hys & Hsub).
  assert (Forall character ys) as Hch.
  { apply Forall_forall. intros x Hx. eapply runes_character; [by apply Hsub|]. intros [Hr _].
    rewrite Forall_forall in Hys. specialize (Hys x Hx). cbn in Hys. congruence. }
  split_and!; [by apply Valid_of_characters| |by rewrite chars_of, runes_of_characters].
  intros He. apply (f_equal chars) in He. rewrite chars_of in He.
  apply (f_equal runes) in He. rewrite runes_of_characters in He by done. done.
Qed.

Example FieldsFunc_mixed :
  FieldsFunc "one,two  3rd" (λ r, negb (bool_decide (97 ≤ r ≤ 122))) = ["one"; "two"; "rd"].
Proof. vm_compute. reflexivity. Qed.

(** Characters of one to four bytes, a surrogate, and a byte that starts none. *)
Example runes_mixed :
  (runes (ascii_of_nat <$> [0x61; 0xC3; 0xA9; 0xE2; 0x82; 0xAC; 0xF0; 0x9F; 0x98; 0x80; 0xED; 0xA0; 0x80; 0xFF]%nat)).*1 =
    [0x61; 0xE9; 0x20AC; 0x1F600; RuneError; RuneError; RuneError; RuneError].
Proof. vm_compute. reflexivity. Qed.
