(* ===== verification/Paths.v ===== *)
(** * Names of files

    A name is resolved against the working directory of the process, which no
    program of the repository changes: [./mr-out-0] and [mr-out-0] are one
    file.  Resolution is lexical: there are no symbolic links, and the
    directories that a name passes through exist. *)
From Stdlib Require Import Ascii.
From S2P Require Import Prelude GoLib.
Local Open Scope Z_scope.

(** The components from the root. *)
Abbreviation path := (list string) (only parsing).

Class Cwd := cwd : path.

Definition slash : ascii := ascii_of_nat 47.

(** [strings.Split(name, "/")] *)
Fixpoint components (name : string) : list string :=
  match name with
  | EmptyString => [EmptyString]
  | String c name =>
      if decide (c = slash) then EmptyString :: components name
      else match components name with
           | w :: ws => String c w :: ws
           | [] => [String c EmptyString]
           end
  end.

(** Nothing and [.] stay, [..] goes up. *)
Definition walk (p : path) (c : string) : path :=
  if decide (c = EmptyString ∨ c = ".") then p
  else if decide (c = "..") then removelast p
  else p ++ [c].

Definition resolve `{Cwd} (name : string) : path :=
  foldl walk (if String.prefix "/" name then [] else cwd) (components name).

(** What is left of a path below a directory. *)
Fixpoint below (dir p : path) : option path :=
  match dir, p with
  | [], _ => Some p
  | d :: dir, c :: p => if decide (d = c) then below dir p else None
  | _ :: _, [] => None
  end.

(** The names in a directory, of files and directories. *)
Definition entries {F} (f : gmap path F) (dir : path) : list string :=
  remove_dups (omap (λ p, r ← below dir p; head r) (map_to_list f).*1).

(** ** Facts *)
Definition no_slash (s : string) : Prop := slash ∉ chars s.

Lemma components_one a : no_slash a → components a = [a].
Proof.
  unfold no_slash. induction a as [|c a IH]; [done|]. intros [Hc Ha]%not_elem_of_cons.
  cbn [components]. rewrite decide_False by done. by rewrite IH.
Qed.

Lemma components_slash a b : no_slash a → components (a +:+ "/" +:+ b) = a :: components b.
Proof.
  unfold no_slash. induction a as [|c a IH]; [done|]. intros [Hc Ha]%not_elem_of_cons.
  change (components (String c (a +:+ "/" +:+ b)) = String c a :: components b).
  cbn [components]. rewrite decide_False by done. by rewrite IH.
Qed.

Lemma no_slash_app a b : no_slash a → no_slash b → no_slash (a +:+ b).
Proof. unfold no_slash. rewrite chars_app, elem_of_app. tauto. Qed.

Lemma pretty_no_slash (z : Z) : no_slash (pretty z).
Proof.
  assert (∀ z : Z, 0 ≤ z → no_slash (pretty z)) as Hpos.
  { intros z' Hz. apply pretty_not_digit; [done|]. intros x. unfold pretty_N_char. by repeat case_match. }
  destruct z as [|p|p]; [by apply Hpos..|].
  change (no_slash ("-" +:+ pretty (Zpos p))). apply no_slash_app; [|by apply Hpos].
  unfold no_slash. set_solver.
Qed.

Lemma walk_name p c : c ∉ [EmptyString; "."; ".."]%string → walk p c = p ++ [c].
Proof. intros Hc. unfold walk. rewrite !decide_False by set_solver. done. Qed.

Lemma below_Some dir p r : below dir p = Some r ↔ p = dir ++ r.
Proof.
  revert p. induction dir as [|d dir IH]; intros p; cbn; [split; congruence|].
  destruct p as [|c p]; [done|]. case_decide as Hd.
  - rewrite IH. subst. split; [by intros ->|by intros [= ->]].
  - split; [done|]. by intros [= -> _].
Qed.

Lemma elem_of_entries {F} (f : gmap path F) dir e :
  e ∈ entries f dir ↔ ∃ r, is_Some (f !! (dir ++ e :: r)).
Proof.
  unfold entries. rewrite elem_of_remove_dups, list_elem_of_omap. setoid_rewrite list_elem_of_fmap. split.
  - intros (p & ([p' x] & -> & Hx%elem_of_map_to_list) & Hh). cbn in Hh.
    apply bind_Some in Hh as (r & ->%below_Some & Hh). destruct r as [|e' r]; [done|].
    injection Hh as ->. exists r. by exists x.
  - intros (r & x & Hx). exists (dir ++ e :: r). split.
    + exists (dir ++ e :: r, x). split; [done|]. by apply elem_of_map_to_list.
    + by rewrite (proj2 (below_Some _ _ _) eq_refl).
Qed.

Lemma NoDup_entries {F} (f : gmap path F) dir : NoDup (entries f dir).
Proof. apply NoDup_remove_dups. Qed.

Example one_file :
  let H : Cwd := ["home"; "mr-tmp"] in
  resolve "mr-out-0" = resolve ".//x/../mr-out-0" ∧ resolve "mr-out-0" = resolve "/home/mr-tmp/mr-out-0".
Proof. by vm_compute. Qed.
