(* ===== verification/Labgob.v ===== *)
(** * labgob: the checks before encoding (src/src/labgob/labgob.go)

    [encoding/gob] is an interface ([Gob] in [Raft]); what labgob adds are two
    checks by reflection.  [checkType] walks the types of a value and
    complains about field names that are not capitalized, once per type; types
    may be recursive, so the table [checked] is also what makes it end.
    [checkDefault] warns when a value that is decoded into is not zero.

    A [reflect.Type] is a number; [typ] gives its kind.  [IsUpper] is
    [unicode.IsUpper] on the first rune.  [checkType_terminates]: on any finite
    set of types that is closed under components the walk ends.
    [checkType_complains]: the walk returns, the errors it counts are the
    lower-case fields of the types it adds to the table, and the table then
    holds the type and, with each new type, its components.
    [checkDefault_counts]: the warnings are the non-zero basic values at depth
    at most three. *)
From S2P Require Import Prelude.
Local Open Scope Z_scope.

#[local] Set Warnings "-register-all".

Abbreviation tid := positive (only parsing).

Inductive kind :=
  | KStruct (fields : list (string * tid))
  | KSeq (elem : tid)            (* Slice, Array, Ptr *)
  | KMap (key elem : tid)
  | KOther.

Record gobstate := { errorCount : Z; checked : gset tid }.

Section Types.
Context (IsUpper : string → bool) (typ : tid → kind).
Implicit Types (st : gobstate) (U : gset tid).

Definition mark (t : tid) st : gobstate :=
  {| errorCount := errorCount st; checked := {[t]} ∪ checked st |}.

Definition complain st : gobstate :=
  {| errorCount := errorCount st + 1; checked := checked st |}.

(** The loop over the fields, [check] being the recursive call. *)
Fixpoint check_fields (check : tid → gobstate → option gobstate) (fields : list (string * tid)) st
    : option gobstate :=
  match fields with
  | [] => Some st
  | (name, ft) :: fields =>
      let st := if IsUpper name then st else complain st in
      st ← check ft st;
      check_fields check fields st
  end.

(** [None] is out of fuel. *)
Fixpoint checkType (fuel : nat) (t : tid) st : option gobstate :=
  match fuel with
  | O => None
  | S fuel =>
      if decide (t ∈ checked st) then Some st
      else
        let st := mark t st in
        match typ t with
        | KStruct fields => check_fields (checkType fuel) fields st
        | KSeq elem => checkType fuel elem st
        | KMap key elem => st ← checkType fuel elem st; checkType fuel key st
        | KOther => Some st
        end
  end.

(** ** Types reached and fields counted *)
Definition components (t : tid) : list tid :=
  match typ t with
  | KStruct fields => fields.*2
  | KSeq elem => [elem]
  | KMap key elem => [elem; key]
  | KOther => []
  end.

Definition lower_fields (fields : list (string * tid)) : Z :=
  Z.of_nat (length (filter (λ f, IsUpper f.1 = false) fields)).

Definition lower (t : tid) : Z :=
  match typ t with KStruct fields => lower_fields fields | _ => 0 end.

Definition total (X : gset tid) : Z := foldr Z.add 0 (lower <$> elements X).

Lemma foldr_add_perm (l l' : list Z) : l ≡ₚ l' → foldr Z.add 0 l = foldr Z.add 0 l'.
Proof. induction 1; cbn; lia. Qed.

Lemma total_mark t X : t ∉ X → total ({[t]} ∪ X) = lower t + total X.
Proof.
  intros Ht. unfold total. rewrite (foldr_add_perm _ (lower <$> (t :: elements X))); [done|].
  by rewrite elements_union_singleton.
Qed.

(** What one walk does: the table grows, by types whose components it also
    holds, and each new type's fields are counted. *)
Record walked st st' : Prop := {
  wk_mono : checked st ⊆ checked st';
  wk_closed : ∀ u, u ∈ checked st' → u ∉ checked st → ∀ v, v ∈ components u → v ∈ checked st';
  wk_count : errorCount st' - total (checked st') = errorCount st - total (checked st);
}.

Lemma walked_refl st : walked st st.
Proof. split; [done|done|lia]. Qed.

Lemma walked_trans st1 st2 st3 : walked st1 st2 → walked st2 st3 → walked st1 st3.
Proof.
  intros [M1 C1 E1] [M2 C2 E2]. split; [set_solver| |lia].
  intros u Hu Hn v Hv. destruct (decide (u ∈ checked st2)) as [H2|H2].
  - apply M2. by apply (C1 u).
  - by apply (C2 u).
Qed.

(** Complaints shift the count only. *)
Definition shift (k : Z) st : gobstate := {| errorCount := errorCount st + k; checked := checked st |}.

Lemma walked_shift k st st' : walked st st' → walked (shift k st) (shift k st').
Proof. intros [M C E]. split; [done|done|cbn; lia]. Qed.

Lemma check_fields_walked (check : tid → gobstate → option gobstate) fields st st' :
  (∀ t s s', check t s = Some s' → walked s s' ∧ t ∈ checked s') →
  check_fields check fields st = Some st' →
  walked (shift (lower_fields fields) st) st' ∧ ∀ v, v ∈ fields.*2 → v ∈ checked st'.
Proof.
  intros Hcheck. revert st. induction fields as [|[name ft] fields IH]; intros st Hf; cbn in Hf.
  - injection Hf as <-. split; [|by intros v ?%not_elem_of_nil].
    unfold shift, lower_fields. cbn. rewrite Z.add_0_r. destruct st. apply walked_refl.
  - apply bind_Some in Hf as (st1 & Hc & Hf). destruct (Hcheck _ _ _ Hc) as [Hw Hin].
    destruct (IH _ Hf) as [Hw' Hall]. split.
    + eapply walked_trans; [|exact Hw'].
      replace (shift (lower_fields ((name, ft) :: fields)) st)
        with (shift (lower_fields fields) (if IsUpper name then st else complain st)).
      { by apply walked_shift. }
      unfold shift, complain, lower_fields. destruct (IsUpper name) eqn:Hup.
      * by rewrite (filter_cons_False _ (name, ft)) by (cbn; congruence).
      * rewrite (filter_cons_True _ (name, ft)) by done. cbn. f_equal. lia.
    + intros v [->|Hv]%elem_of_cons; [|by apply Hall]. apply (wk_mono _ _ Hw'). done.
Qed.

(** The type itself, once its components are walked. *)
Lemma marked_walked t st st' :
  t ∉ checked st → walked (shift (lower t) (mark t st)) st' →
  (∀ v, v ∈ components t → v ∈ checked st') → walked st st' ∧ t ∈ checked st'.
Proof.
  intros Ht [M C E] Hcomp. cbn in *. rewrite total_mark in E by done.
  split; [|set_solver]. split; [set_solver| |lia].
  intros u Hu Hn v Hv. destruct (decide (u = t)) as [->|Hne]; [by apply Hcomp|].
  apply (C u); [done|set_solver|done].
Qed.

Lemma shift_0 st : shift 0 st = st.
Proof. destruct st. unfold shift; cbn. by rewrite Z.add_0_r. Qed.

Lemma checkType_walked fuel t st st' :
  checkType fuel t st = Some st' → walked st st' ∧ t ∈ checked st'.
Proof.
  revert t st st'. induction fuel as [|fuel IH]; intros t st st'; cbn; [done|].
  case_decide as Ht; [intros [= <-]; split; [apply walked_refl|done]|].
  intros Hc. apply marked_walked; [done|..]; unfold lower, components.
  - destruct (typ t) as [fields|elem|key elem|]; [by eapply check_fields_walked| | |]; rewrite shift_0.
    + by apply IH in Hc as [? _].
    + apply bind_Some in Hc as (st1 & H1 & H2). apply IH in H1 as [? _]. apply IH in H2 as [? _].
      by eapply walked_trans.
    + injection Hc as <-. apply walked_refl.
  - destruct (typ t) as [fields|elem|key elem|].
    + by apply check_fields_walked in Hc as [_ ?].
    + intros v ->%list_elem_of_singleton. by apply IH in Hc as [_ ?].
    + apply bind_Some in Hc as (st1 & H1 & H2). apply IH in H1 as [_ ?]. apply IH in H2 as [[M _ _] ?].
      intros v [->|[->|?%not_elem_of_nil]%elem_of_cons]%elem_of_cons; [by apply M|done|done].
    + by intros v ?%not_elem_of_nil.
Qed.

(** The complaints of two disjoint parts of the table add up. *)
Lemma total_difference X Y : X ⊆ Y → total Y = total (Y ∖ X) + total X.
Proof.
  intros H. unfold total. rewrite (foldr_add_perm (lower <$> elements Y)
    ((lower <$> elements (Y ∖ X)) ++ (lower <$> elements X))).
  - induction (lower <$> elements (Y ∖ X)); cbn; lia.
  - rewrite <- fmap_app, <- elements_disj_union by set_solver.
    f_equiv. apply elements_proper. rewrite (union_comm (Y ∖ X)).
    intros x. destruct (decide (x ∈ X)); set_solver.
Qed.

(** ** Termination *)
Lemma check_fields_total U (check : tid → gobstate → option gobstate) fields st :
  (∀ t s, t ∈ U → checked st ⊆ checked s →
    ∃ s', check t s = Some s' ∧ checked s ⊆ checked s' ∧ checked s' ⊆ checked s ∪ U) →
  (∀ v, v ∈ fields.*2 → v ∈ U) →
  ∃ st', check_fields check fields st = Some st' ∧ checked st' ⊆ checked st ∪ U.
Proof.
  intros Hcheck Hin. assert (checked st ⊆ checked st) as Hst by done. revert Hst.
  generalize st at 2 3 4. induction fields as [|[name ft] fields IH]; intros s Hs; cbn; [set_solver|].
  destruct (Hcheck ft (if IsUpper name then s else complain s)) as (s1 & -> & H1 & H1').
  - apply Hin. by left.
  - by destruct (IsUpper name).
  - cbn. edestruct (IH) as (s2 & -> & H2).
    + intros v Hv. apply Hin. by right.
    + by destruct (IsUpper name); cbn in *; set_solver.
    + exists s2. split; [done|]. destruct (IsUpper name); cbn in *; set_solver.
Qed.

Lemma checkType_total U fuel t st :
  (∀ u v, u ∈ U → v ∈ components u → v ∈ U) → t ∈ U → (size (U ∖ checked st) < fuel)%nat →
  ∃ st', checkType fuel t st = Some st' ∧ checked st' ⊆ checked st ∪ U.
Proof.
  intros HU. revert t st. induction fuel as [|fuel IH]; intros t st Ht Hf; [lia|]. cbn.
  case_decide as Hc; [set_solver|].
  assert (∀ u s, u ∈ U → checked (mark t st) ⊆ checked s →
    ∃ s', checkType fuel u s = Some s' ∧ checked s ⊆ checked s' ∧ checked s' ⊆ checked s ∪ U) as Hrec.
  { intros u s Hu Hs. destruct (IH u s Hu) as (s' & Hs' & Hw).
    - assert (size (U ∖ checked s) < size (U ∖ checked st))%nat; [|lia].
      apply subset_size. cbn in Hs. split; [set_solver|]. intros Hsub.
      assert (t ∈ U ∖ checked s) by (apply Hsub; set_solver). set_solver.
    - exists s'. split; [done|]. split; [|done]. by apply checkType_walked in Hs' as [[? _ _] _]. }
  assert (∀ v, v ∈ components t → v ∈ U) as Hcomp by eauto. unfold components in Hcomp.
  assert (∀ s', checked s' ⊆ checked (mark t st) ∪ U → checked s' ⊆ checked st ∪ U) as Hmark
    by (cbn; set_solver).
  destruct (typ t) as [fields|elem|key elem|].
  - destruct (check_fields_total U (checkType fuel) fields (mark t st)) as (s' & Hs' & Hw); eauto.
  - destruct (Hrec elem (mark t st)) as (s' & Hs' & _ & Hw); [set_solver|done|]. eauto.
  - destruct (Hrec elem (mark t st)) as (s1 & H1 & M1 & W1); [set_solver|done|]. rewrite H1; cbn.
    destruct (Hrec key s1) as (s2 & H2 & _ & W2); [set_solver|done|]. exists s2. split; [done|]. set_solver.
  - exists (mark t st). split; [done|]. cbn. set_solver.
Qed.

(** C37. One walk over the types of a value returns, with as many calls deep
    as there are types not yet in the table and one more, on any finite set
    [U] of types that holds the value's type and is closed under components.
    The type is in the table afterwards, with each new type its components
    are; only types of [U] are added; and the walk counts one error for each
    lower-case field name of the types it adds, whatever was counted before,
    so no type is complained about twice. *)
Theorem checkType_complains U fuel t st :
  (∀ u v, u ∈ U → v ∈ components u → v ∈ U) → t ∈ U → (size (U ∖ checked st) < fuel)%nat →
  ∃ st', checkType fuel t st = Some st' ∧
    t ∈ checked st' ∧ checked st ⊆ checked st' ∧ checked st' ⊆ checked st ∪ U ∧
    (∀ u, u ∈ checked st' → u ∉ checked st → ∀ v, v ∈ components u → v ∈ checked st') ∧
    errorCount st' = errorCount st + total (checked st' ∖ checked st).
Proof.
  intros HU Ht Hf. destruct (checkType_total U fuel t st HU Ht Hf) as (st' & Hc & Hw).
  exists st'. destruct (checkType_walked _ _ _ _ Hc) as [[M C E] Hin].
  split_and!; [done..|]. pose proof (total_difference _ _ M). lia.
Qed.

(** The walk ends, for recursive types too: on a finite set of types
    closed under components, as many calls deep as there are types not yet in
    the table, plus one, are enough. *)
Theorem checkType_terminates U t st :
  (∀ u v, u ∈ U → v ∈ components u → v ∈ U) → t ∈ U →
  ∃ st', checkType (S (size (U ∖ checked st))) t st = Some st'.
Proof.
  intros HU Ht. destruct (checkType_total U (S (size (U ∖ checked st))) t st) as (st' & ? & _);
    [done|done|lia|eauto].
Qed.
End Types.

(** ** Values decoded into *)
Inductive gval :=
  | VStruct (fields : list (string * gval))
  | VPtr (elem : option gval)
  | VBasic (zero : bool)   (* whether the value is its type's zero value *)
  | VOther.                (* slices, maps, interfaces: not looked into *)

Definition warn (zero : bool) (errs : Z) : Z := if zero then errs else errs + 1.

(** Names only serve the message. *)
Fixpoint checkDefault1 (value : gval) (depth : Z) (errs : Z) : Z :=
  if decide (3 < depth) then errs
  else
    match value with
    | VStruct fields =>
        (fix loop (fields : list (string * gval)) (errs : Z) : Z :=
           match fields with
           | [] => errs
           | (_, vv) :: fields => loop fields (checkDefault1 vv (depth + 1) errs)
           end) fields errs
    | VPtr None => errs
    | VPtr (Some elem) => checkDefault1 elem (depth + 1) errs
    | VBasic zero => warn zero errs
    | VOther => errs
    end.

(** [None] is the nil interface. *)
Definition checkDefault (value : option gval) (errs : Z) : Z :=
  match value with None => errs | Some v => checkDefault1 v 1 errs end.

(** ** The encoder and the decoder

    [gob_Encode], [gob_Decode], [gob_Register] and the two next to them are
    encoding/gob's own, [Interface] is a [reflect.Value]'s; the
    checks come first and change nothing but the state of labgob. *)
Section Codec.
Context (IsUpper : string → bool) (typ : tid → kind).
Context {Val Bytes Result : Type} (TypeOf : Val → tid) (ValueOf : Val → option gval).
Context (gob_Encode : Val → Result) (gob_Decode : Bytes → Val → Result) (gob_Register : Val → Result).
Context {RVal : Type} (Interface : RVal → Val) (gob_EncodeValue : RVal → Result)
  (gob_RegisterName : string → Val → Result).

Definition checkValue (fuel : nat) (value : Val) (st : gobstate) : option gobstate :=
  checkType IsUpper typ fuel (TypeOf value) st.

Definition Encode (fuel : nat) (e : Val) (st : gobstate) : option (gobstate * Result) :=
  st ← checkValue fuel e st; Some (st, gob_Encode e).

Definition EncodeValue (fuel : nat) (value : RVal) (st : gobstate) : option (gobstate * Result) :=
  st ← checkValue fuel (Interface value) st; Some (st, gob_EncodeValue value).

Definition Decode (fuel : nat) (r : Bytes) (e : Val) (st : gobstate) : option (gobstate * Result) :=
  st ← checkValue fuel e st;
  let st := {| errorCount := checkDefault (ValueOf e) (errorCount st); checked := checked st |} in
  Some (st, gob_Decode r e).

Definition Register (fuel : nat) (value : Val) (st : gobstate) : option (gobstate * Result) :=
  st ← checkValue fuel value st; Some (st, gob_Register value).

Definition RegisterName (fuel : nat) (name : string) (value : Val) (st : gobstate) : option (gobstate * Result) :=
  st ← checkValue fuel value st; Some (st, gob_RegisterName name value).
End Codec.

(** The basic values of a value, with their depths. *)
Fixpoint leaves (value : gval) (depth : Z) : list (Z * bool) :=
  match value with
  | VStruct fields =>
      (fix loop (fields : list (string * gval)) : list (Z * bool) :=
         match fields with [] => [] | (_, vv) :: fields => leaves vv (depth + 1) ++ loop fields end) fields
  | VPtr None => []
  | VPtr (Some elem) => leaves elem (depth + 1)
  | VBasic zero => [(depth, zero)]
  | VOther => []
  end.

Definition bad_leaves (ls : list (Z * bool)) : Z :=
  Z.of_nat (length (filter (λ '(d, zero), d ≤ 3 ∧ zero = false) ls)).

Lemma bad_leaves_app l1 l2 : bad_leaves (l1 ++ l2) = bad_leaves l1 + bad_leaves l2.
Proof. unfold bad_leaves. rewrite filter_app, length_app. lia. Qed.

(** Induction on values, with the fields of a struct. *)
Fixpoint gval_ind' (P : gval → Prop)
    (HS : ∀ fields, Forall (λ f, P f.2) fields → P (VStruct fields))
    (HN : P (VPtr None)) (HP : ∀ v, P v → P (VPtr (Some v)))
    (HB : ∀ z, P (VBasic z)) (HO : P VOther) (v : gval) : P v :=
  match v with
  | VStruct fields =>
      HS fields ((fix loop (fs : list (string * gval)) : Forall (λ f, P f.2) fs :=
        match fs with
        | [] => Forall_nil_2 _
        | f :: fs => Forall_cons_2 _ f fs (gval_ind' P HS HN HP HB HO f.2) (loop fs)
        end) fields)
  | VPtr None => HN
  | VPtr (Some v) => HP v (gval_ind' P HS HN HP HB HO v)
  | VBasic z => HB z
  | VOther => HO
  end.

(** Below depth three nothing counts. *)
Lemma deep_leaves v : ∀ d, 3 < d → bad_leaves (leaves v d) = 0.
Proof.
  induction v as [fields IH| |v IH|z|] using gval_ind'; intros d Hd; cbn [leaves]; try done.
  - induction IH as [|[name f] fields Hf Hfs IHfs]; [done|]. rewrite bad_leaves_app, IHfs.
    cbn in Hf. rewrite Hf by lia. done.
  - apply IH. lia.
  - unfold bad_leaves. rewrite filter_cons_False; [done|]. lia.
Qed.

Lemma bad_leaves_nil : bad_leaves [] = 0.
Proof. done. Qed.

Lemma checkDefault1_leaves v : ∀ d errs, checkDefault1 v d errs = errs + bad_leaves (leaves v d).
Proof.
  induction v as [fields IH| |v IH|z|] using gval_ind'; intros d errs;
    destruct (decide (3 < d)) as [Hd|Hd].
  all: try (rewrite deep_leaves by done; cbn [checkDefault1]; rewrite decide_True by done; lia).
  all: cbn [checkDefault1 leaves]; rewrite decide_False by done.
  - revert errs. induction IH as [|[name f] fields Hf Hfs IHfs]; intros errs; [rewrite bad_leaves_nil; lia|].
    rewrite IHfs, bad_leaves_app. cbn in Hf. rewrite Hf. lia.
  - rewrite bad_leaves_nil; lia.
  - apply IH.
  - unfold warn, bad_leaves. destruct z.
    + rewrite filter_cons_False; [cbn; lia|]. by intros [_ ?].
    + rewrite filter_cons_True; [cbn; lia|]. split; [lia|done].
  - rewrite bad_leaves_nil; lia.
Qed.

(** [checkDefault] counts one error for each non-zero basic value at depth
    at most three, and none for the nil interface. *)
Theorem checkDefault_counts v errs :
  checkDefault v errs = errs + match v with None => 0 | Some v => bad_leaves (leaves v 1) end.
Proof. destruct v; cbn; [apply checkDefault1_leaves|lia]. Qed.

(** ** A recursive type *)

(** [type T struct { Next *T; val int }]: 1 is [T], 2 is [*T], 3 is [int]. *)
Definition list_typ (t : tid) : kind :=
  match t with
  | 1%positive => KStruct [("Next", 2%positive); ("val", 3%positive)]
  | 2%positive => KSeq 1%positive
  | _ => KOther
  end.

(** [unicode.IsUpper] on names that begin with an ASCII character. *)
Definition ascii_upper (name : string) : bool :=
  match name with
  | EmptyString => false
  | String c _ => bool_decide (65 ≤ Z.of_nat (Ascii.nat_of_ascii c) ≤ 90)
  end.

Definition nothing_checked : gobstate := {| errorCount := 0; checked := ∅ |}.

Lemma checkType_terminates_witness :
  ∃ st', checkType ascii_upper list_typ 4 1%positive nothing_checked = Some st'.
Proof.
  refine (checkType_terminates ascii_upper list_typ {[1%positive; 2%positive; 3%positive]} 1%positive
            nothing_checked _ _); [|set_solver].
  intros u v Hu. assert (u = 1 ∨ u = 2 ∨ u = 3)%positive as [->|[->| ->]] by set_solver; cbn; set_solver.
Defined.

Lemma checkType_complains_witness :
  ∃ st', checkType ascii_upper list_typ 4 1%positive {| errorCount := 5; checked := {[3%positive]} |} = Some st' ∧
    errorCount st' = 6.
Proof.
  destruct (checkType_complains ascii_upper list_typ {[1%positive; 2%positive; 3%positive]} 4 1%positive
    {| errorCount := 5; checked := {[3%positive]} |}) as (st' & Hc & _).
  - intros u v Hu. assert (u = 1 ∨ u = 2 ∨ u = 3)%positive as [->|[->| ->]] by set_solver; cbn; set_solver.
  - set_solver.
  - vm_compute. lia.
  - exists st'. split; [exact Hc|]. vm_compute in Hc. by injection Hc as <-.
Defined.
