(* ===== verification/Labrpc.v ===== *)
(** * labrpc: the simulated network (src/src/labrpc/labrpc.go)

    [Network] is the record of the same name, its maps as [gmap]s, with servers
    held by pointer because [isServerDead] compares pointers.  Each method is
    one definition.  [processReq] is the whole request path: what is random in
    the source (the two drop draws), what other goroutines decide (the network
    at the time of the reply check, whether the handler finished before the
    server was found dead) are its arguments.  Delays change no state and are
    left out.  [fate] names the three ways a request can end, and
    [Call_fate] shows that every [Call] is one of them: this is the interface the key/value client is verified against. *)
From Stdlib Require Import Ascii.
From S2P Require Import Prelude GoLib.
Local Open Scope Z_scope.

(** End-point names are the random strings, and server names the integers or
    strings, that the source's configurations pass as [interface{}]. *)
Abbreviation endname := string (only parsing).
Inductive servername := SInt (i : Z) | SStr (s : string).

#[export] Instance servername_eq_dec : EqDecision servername.
Proof. solve_decision. Defined.
#[export] Instance servername_countable : Countable servername.
Proof.
  apply (inj_countable' (λ n, match n with SInt i => inl i | SStr s => inr s end)
           (λ x, match x with inl i => SInt i | inr s => SStr s end)).
  by intros [].
Defined.
(** A [*Server]. *)
Abbreviation sptr := positive (only parsing).

(** Its two channels are the network's own. *)
Record ClientEnd := { ce_endname : endname }.

Record Network := {
  reliable : bool;
  longDelays : bool;
  longReordering : bool;
  ends : gmap endname ClientEnd;
  enabled : gmap endname bool;
  servers : gmap servername (option sptr);       (* [None] after DeleteServer *)
  connections : gmap endname (option servername); (* [None] until Connect *)
  rn_done : bool;
  rn_count : Z;
  rn_bytes : Z;
}.

Definition MakeNetwork : Network := {|
  reliable := true; longDelays := false; longReordering := false;
  ends := ∅; enabled := ∅; servers := ∅; connections := ∅;
  rn_done := false; rn_count := 0; rn_bytes := 0 |}.

Definition Cleanup (rn : Network) : outcome Network :=
  if rn_done rn then Panic (* close of closed channel *) else
  Ok {| reliable := reliable rn; longDelays := longDelays rn;
        longReordering := longReordering rn; ends := ends rn; enabled := enabled rn;
        servers := servers rn; connections := connections rn; rn_done := true;
        rn_count := rn_count rn; rn_bytes := rn_bytes rn |}.

Definition Reliable (yes : bool) (rn : Network) : Network :=
  {| reliable := yes; longDelays := longDelays rn;
     longReordering := longReordering rn; ends := ends rn; enabled := enabled rn;
     servers := servers rn; connections := connections rn; rn_done := rn_done rn;
     rn_count := rn_count rn; rn_bytes := rn_bytes rn |}.

Definition LongReordering (yes : bool) (rn : Network) : Network :=
  {| reliable := reliable rn; longDelays := longDelays rn;
     longReordering := yes; ends := ends rn; enabled := enabled rn;
     servers := servers rn; connections := connections rn; rn_done := rn_done rn;
     rn_count := rn_count rn; rn_bytes := rn_bytes rn |}.

Definition LongDelays (yes : bool) (rn : Network) : Network :=
  {| reliable := reliable rn; longDelays := yes;
     longReordering := longReordering rn; ends := ends rn; enabled := enabled rn;
     servers := servers rn; connections := connections rn; rn_done := rn_done rn;
     rn_count := rn_count rn; rn_bytes := rn_bytes rn |}.

Definition GetTotalCount (rn : Network) : Z := rn_count rn.
Definition GetTotalBytes (rn : Network) : Z := rn_bytes rn.

(** [count_of] is each server's own counter ([Server.GetCount]); a server that
    is gone is a nil pointer. *)
Definition GetCount (sn : servername) (count_of : sptr → Z) (rn : Network) : outcome Z :=
  match servers rn !! sn with
  | Some (Some svr) => Ok (count_of svr)
  | _ => Panic
  end.

(** The registries: [ends], [enabled], [servers] and [connections]. *)
Definition with_maps (rn : Network) e en sv co : Network :=
  {| reliable := reliable rn; longDelays := longDelays rn;
     longReordering := longReordering rn; ends := e; enabled := en;
     servers := sv; connections := co; rn_done := rn_done rn;
     rn_count := rn_count rn; rn_bytes := rn_bytes rn |}.

(** [log.Fatalf] ends the process: [Panic]. *)
Definition MakeEnd (n : endname) (rn : Network) : outcome (Network * ClientEnd) :=
  match ends rn !! n with
  | Some _ => Panic
  | None =>
      let e := {| ce_endname := n |} in
      Ok (with_maps rn (<[n := e]> (ends rn)) (<[n := false]> (enabled rn))
            (servers rn) (<[n := None]> (connections rn)), e)
  end.

Definition DeleteEnd (n : endname) (rn : Network) : outcome Network :=
  match ends rn !! n with
  | None => Panic
  | Some _ => Ok (with_maps rn (delete n (ends rn)) (delete n (enabled rn))
                    (servers rn) (delete n (connections rn)))
  end.

Definition AddServer (sn : servername) (rs : sptr) (rn : Network) : Network :=
  with_maps rn (ends rn) (enabled rn) (<[sn := Some rs]> (servers rn)) (connections rn).

Definition DeleteServer (sn : servername) (rn : Network) : Network :=
  with_maps rn (ends rn) (enabled rn) (<[sn := None]> (servers rn)) (connections rn).

Definition Connect (n : endname) (sn : servername) (rn : Network) : Network :=
  with_maps rn (ends rn) (enabled rn) (servers rn) (<[n := Some sn]> (connections rn)).

Definition Enable (n : endname) (yes : bool) (rn : Network) : Network :=
  with_maps rn (ends rn) (<[n := yes]> (enabled rn)) (servers rn) (connections rn).

Record endInfo := {
  ei_enabled : bool;
  ei_servername : option servername;
  ei_server : option sptr;
  ei_reliable : bool;
  ei_longreordering : bool;
}.

Definition readEndnameInfo (n : endname) (rn : Network) : endInfo :=
  let servername := map_get None (connections rn) n in
  {| ei_enabled := map_get false (enabled rn) n;
     ei_servername := servername;
     ei_server := match servername with
                  | Some sn => map_get None (servers rn) sn
                  | None => None
                  end;
     ei_reliable := reliable rn;
     ei_longreordering := longReordering rn |}.

Definition isServerDead (n : endname) (sn : servername) (server : sptr) (rn : Network) : bool :=
  negb (map_get false (enabled rn) n)
  || negb (bool_decide (map_get None (servers rn) sn = Some server)).

(** ** Servers and services *)
Definition dot : Ascii.ascii := "."%char.

(** [strings.LastIndex(s, ".")], as the text before and after the last dot. *)
Fixpoint split_last_dot (s : string) : option (string * string) :=
  match s with
  | EmptyString => None
  | String c s' =>
      match split_last_dot s' with
      | Some (a, b) => Some (String c a, b)
      | None => if Ascii.eqb c dot then Some (EmptyString, s') else None
      end
  end.

Section Server.
(** The state of the service objects, the encoded arguments and replies, and
    their lengths in bytes. *)
Context {St Args Reply : Type} (args_len : Args → Z) (reply_len : Reply → Z).

(** A handler as [Service.dispatch] calls it: decoded arguments in, encoded
    reply out, the receiver mutated. *)
Abbreviation handler := (St → Args → St * Reply) (only parsing).

Record Service := { svc_name : string; methods : gmap string handler }.
Record Server := { services : gmap string Service; sv_count : Z }.
Record reqMsg := { rq_endname : endname; svcMeth : string; rq_args : Args }.
Record replyMsg := { ok : bool; reply : option Reply }.

(** What [MakeService] looks at in a method; [ms_In2_Ptr] is only asked of a
    method with three parameters, the receiver among them. *)
Record method_sig := {
  ms_Name : string;
  ms_exported : bool;      (* PkgPath is empty *)
  ms_NumIn : Z;
  ms_In2_Ptr : bool;
  ms_NumOut : Z;
}.

Definition suitable (m : method_sig) : bool :=
  ms_exported m && bool_decide (ms_NumIn m = 3) && ms_In2_Ptr m && bool_decide (ms_NumOut m = 0).

(** The suitable methods of an object become the service's handlers. *)
Definition MakeService (name : string) (typ_methods : list (method_sig * handler)) : Service :=
  {| svc_name := name;
     methods := foldl (λ ms '(m, h), if suitable m then <[ms_Name m := h]> ms else ms) ∅ typ_methods |}.

Definition failed : replyMsg := {| ok := false; reply := None |}.

Definition MakeServer : Server := {| services := ∅; sv_count := 0 |}.

Definition AddService (svc : Service) (rs : Server) : Server :=
  {| services := <[svc_name svc := svc]> (services rs); sv_count := sv_count rs |}.

Definition Server_GetCount (rs : Server) : Z := sv_count rs.

Definition Service_dispatch (svc : Service) (methname : string) (req : reqMsg) (st : St)
    : outcome (St * replyMsg) :=
  match (methods svc !! methname : option (St → Args → St * Reply)) with
  | Some method =>
      let (st', r) := method st (rq_args req) in
      Ok (st', {| ok := true; reply := Some r |})
  | None => Panic
  end.

Definition Server_dispatch (rs : Server) (req : reqMsg) (st : St)
    : outcome (Server * St * replyMsg) :=
  let rs' := {| services := services rs; sv_count := sv_count rs + 1 |} in
  match split_last_dot (svcMeth req) with
  | None => Panic  (* req.svcMeth[:-1] *)
  | Some (serviceName, methodName) =>
      match (services rs !! serviceName : option Service) with
      | Some service =>
          '(st', r) ← Service_dispatch service methodName req st; mret (rs', st', r)
      | None => Panic
      end
  end.

(** [rand.Int()%1000 < 100] *)
Definition drops (draw : Z) : bool := bool_decide (draw `mod` 1000 < 100).

(** The statistics: [rn.count] and [rn.bytes]. *)
Definition add_stats (calls bytes : Z) (rn : Network) : Network :=
  {| reliable := reliable rn; longDelays := longDelays rn;
     longReordering := longReordering rn; ends := ends rn; enabled := enabled rn;
     servers := servers rn; connections := connections rn; rn_done := rn_done rn;
     rn_count := rn_count rn + calls; rn_bytes := rn_bytes rn + bytes |}.

(** [rn] is the network when the request arrives; [others] is what the other
    goroutines do to it until the reply is checked, so the network is then
    [others rn], with the statistics of this call among the rest; [replyOK] is
    false when the waiting loop ended because the server was found dead (the
    handler still runs in its own goroutine). *)
Definition processReq (rn : Network) (req : reqMsg) (rs : Server) (st : St)
    (dropReq dropReply : Z) (replyOK : bool) (others : Network → Network)
    : outcome (Network * Server * St * replyMsg) :=
  let info := readEndnameInfo (rq_endname req) rn in
  let rn' := others rn in
  match ei_enabled info, ei_servername info, ei_server info with
  | true, Some servername, Some server =>
      if negb (ei_reliable info) && drops dropReq then Ok (rn', rs, st, failed)
      else
        '(rs', st', r) ← Server_dispatch rs req st;
        if negb replyOK || isServerDead (rq_endname req) servername server rn'
        then mret (rn', rs', st', failed)
        else if negb (ei_reliable info) && drops dropReply then mret (rn', rs', st', failed)
        else mret (add_stats 0 (from_option reply_len 0 (reply r)) rn', rs', st', r)
  | _, _, _ => Ok (rn', rs, st, failed)
  end.

(** [ClientEnd.Call], with the goroutine of [MakeNetwork] that receives the
    request; [sent] is how the [select] goes when the network is already
    cleaned up. *)
Definition Call (rn : Network) (e : ClientEnd) (meth : string) (args : Args) (sent : bool)
    (rs : Server) (st : St) (dropReq dropReply : Z) (replyOK : bool)
    (others : Network → Network)
    : outcome (Network * Server * St * option Reply) :=
  if rn_done rn && negb sent then Ok (others rn, rs, st, None)
  else
    let req := {| rq_endname := ce_endname e; svcMeth := meth; rq_args := args |} in
    '(rn'', rs', st', r) ←
      processReq (add_stats 1 (args_len args) rn) req rs st dropReq dropReply replyOK others;
    mret (rn'', rs', st', if ok r then reply r else None).

End Server.
Arguments Service : clear implicits.
Arguments Server : clear implicits.
Arguments reqMsg : clear implicits.
Arguments replyMsg : clear implicits.

(** ** The client's view *)

(** How one [Call] can end. *)
Inductive fate :=
  | DropRequest  (* the handler did not run; Call returns false *)
  | DropReply    (* the handler ran; Call returns false *)
  | Deliver.     (* the handler ran; Call returns true with its reply *)

#[export] Instance fate_eq_dec : EqDecision fate.
Proof. solve_decision. Defined.

Definition executed (f : fate) : bool :=
  match f with DropRequest => false | _ => true end.
Definition answered (f : fate) : bool :=
  match f with Deliver => true | _ => false end.

Definition fate_of (rn : Network) (n : endname) (dropReq dropReply : Z)
    (replyOK : bool) (rn' : Network) : fate :=
  let info := readEndnameInfo n rn in
  match ei_enabled info, ei_servername info, ei_server info with
  | true, Some servername, Some server =>
      if negb (ei_reliable info) && drops dropReq then DropRequest
      else if negb replyOK || isServerDead n servername server rn' then DropReply
      else if negb (ei_reliable info) && drops dropReply then DropReply
      else Deliver
  | _, _, _ => DropRequest
  end.

Section ServerFacts.
Context {St Args Reply : Type} (args_len : Args → Z) (reply_len : Reply → Z).
Implicit Types (rs : Server St Args Reply) (req : reqMsg Args) (st : St).

(** A dispatched request counts once, and leaves the services alone. *)
Lemma Server_dispatch_count rs req st rs' st' r :
  Server_dispatch rs req st = Ok (rs', st', r) →
  sv_count rs' = sv_count rs + 1 ∧ services rs' = services rs ∧ ok r = true.
Proof.
  unfold Server_dispatch, Service_dispatch. intros Hd.
  destruct (split_last_dot _) as [[sv meth]|]; [|done].
  destruct (services rs !! sv) as [svc|]; [|done].
  destruct (methods svc !! meth) as [f|]; [|done].
  destruct (f st (rq_args req)) as [st1 r1]; cbn in Hd.
  injection Hd as <- <- <-. done.
Qed.

(** C39. Every [Call] has one of three fates, decided by the network and the two
    draws: the handler is not run and the call fails, or it is run exactly
    once and the call fails, or it is run exactly once and the call returns
    its reply, which is also when its bytes are counted.  The request and its
    bytes are counted in every case, before the other goroutines' steps
    [others]; nothing else of the network changes. *)
Theorem Call_fate rn e meth args rs st d1 d2 replyOK others :
  let req := {| rq_endname := ce_endname e; svcMeth := meth; rq_args := args |} in
  let rn' := others (add_stats 1 (args_len args) rn) in
  rn_done rn = false →
  Call args_len reply_len rn e meth args true rs st d1 d2 replyOK others =
  match fate_of rn (ce_endname e) d1 d2 replyOK rn' with
  | DropRequest => Ok (rn', rs, st, None)
  | DropReply => '(rs', st', _) ← Server_dispatch rs req st; Ok (rn', rs', st', None)
  | Deliver =>
      '(rs', st', r) ← Server_dispatch rs req st;
      Ok (add_stats 0 (from_option reply_len 0 (reply r)) rn', rs', st', reply r)
  end.
Proof.
  intros req rn' Hdone. unfold Call. rewrite Hdone; cbn [andb]. fold req. unfold processReq, fate_of. cbv zeta.
  fold rn'.
  change (readEndnameInfo (rq_endname req) (add_stats 1 (args_len args) rn))
    with (readEndnameInfo (ce_endname e) rn).
  destruct (readEndnameInfo (ce_endname e) rn) as [[] [sn|] [sv|] rel lr]; cbn; try done.
  destruct (negb rel && drops d1); [done|].
  destruct (Server_dispatch rs req st) as [[[rs' st'] r]|] eqn:Hd; cbn; [|by repeat case_match].
  pose proof (Server_dispatch_count _ _ _ _ _ _ Hd) as (_ & _ & Hok).
  repeat case_match; cbn; by rewrite ?Hok.
Qed.
End ServerFacts.

(** [split_last_dot] finds the last dot: the method name holds none. *)
Definition has_dot (s : string) : bool := bool_decide (is_Some (split_last_dot s)).

Lemma split_last_dot_app a b :
  has_dot b = false → split_last_dot (a +:+ String dot b) = Some (a, b).
Proof.
  intros Hb%bool_decide_eq_false. induction a as [|c a IH].
  - change (EmptyString +:+ String dot b) with (String dot b); cbn.
    destruct (split_last_dot b); [destruct Hb; eauto|done].
  - change (String c a +:+ String dot b) with (String c (a +:+ String dot b)); cbn.
    by rewrite IH.
Qed.

(** ** Connectivity *)

(** The end point can reach the server [rs] by name [sn]. *)
Definition connected (n : endname) (sn : servername) (rs : sptr) (rn : Network) : Prop :=
  map_get false (enabled rn) n = true ∧
  map_get None (connections rn) n = Some sn ∧
  map_get None (servers rn) sn = Some rs.

Lemma connected_readEndnameInfo n sn rs rn :
  connected n sn rs rn →
  ei_enabled (readEndnameInfo n rn) = true ∧
  ei_servername (readEndnameInfo n rn) = Some sn ∧
  ei_server (readEndnameInfo n rn) = Some rs.
Proof. intros (He & Hc & Hs). unfold readEndnameInfo; cbn. by rewrite He, Hc, Hs. Qed.

Lemma connected_not_dead n sn rs rn :
  connected n sn rs rn → isServerDead n sn rs rn = false.
Proof.
  intros (He & _ & Hs). unfold isServerDead. rewrite He, Hs.
  by rewrite bool_decide_eq_true_2.
Qed.

(** On a reliable network, a request to a connected server that stays
    connected is always answered. *)
Theorem reliable_delivers n sn rs rn rn' d1 d2 :
  connected n sn rs rn → reliable rn = true → connected n sn rs rn' →
  fate_of rn n d1 d2 true rn' = Deliver.
Proof.
  intros Hc Hr Hc'. unfold fate_of; cbv zeta.
  destruct (connected_readEndnameInfo _ _ _ _ Hc) as (-> & -> & ->).
  rewrite (connected_not_dead _ _ _ _ Hc'). cbn. by rewrite Hr.
Qed.

(** An end point that is disabled, not connected, or connected to a server that
    is gone, executes nothing: no handler runs and the call fails. *)
Theorem disconnected_never_executes n rn rn' d1 d2 b :
  (¬ ∃ sn rs, connected n sn rs rn) → fate_of rn n d1 d2 b rn' = DropRequest.
Proof.
  intros Hn. unfold fate_of, readEndnameInfo; cbn.
  destruct (map_get false (enabled rn) n) eqn:He; [|done].
  destruct (map_get None (connections rn) n) as [sn|] eqn:Hc; [|done].
  destruct (map_get None (servers rn) sn) as [rs|] eqn:Hs; [|done].
  destruct Hn. exists sn, rs. done.
Qed.

(** A server deleted while the handler runs never gets a positive reply out,
    whatever the handler did. *)
Theorem deleted_server_never_answers n sn rn rn1 d1 d2 b :
  map_get None (connections rn) n = Some sn →
  fate_of rn n d1 d2 b (DeleteServer sn rn1) ≠ Deliver.
Proof.
  intros Hc. unfold fate_of, readEndnameInfo; cbn. rewrite Hc.
  destruct (map_get false (enabled rn) n); [|done].
  destruct (map_get None (servers rn) sn) as [rs|]; [|done].
  case_match; [done|].
  assert (isServerDead n sn rs (DeleteServer sn rn1) = true) as ->.
  { unfold isServerDead, map_get; cbn. rewrite lookup_insert_eq; cbn.
    by rewrite bool_decide_eq_false_2, orb_true_r. }
  by rewrite orb_true_r.
Qed.

(** The set-up every configuration performs, [MakeEnd], [Connect], [AddServer],
    [Enable], connects the end point to the server; before [Enable] it reaches
    nothing. *)
Theorem setup_connected n sn rs rn rn1 e :
  MakeEnd n rn = Ok (rn1, e) →
  connected n sn rs (Enable n true (AddServer sn rs (Connect n sn rn1))) ∧
  (¬ ∃ sn' rs', connected n sn' rs' (AddServer sn rs (Connect n sn rn1))).
Proof.
  unfold MakeEnd. case_match; [done|]. intros [= <- <-].
  unfold connected, map_get; cbn. split.
  - by rewrite !lookup_insert_eq.
  - intros (sn' & rs' & He & _). by rewrite lookup_insert_eq in He.
Qed.

(** ** A network to apply the theorems to *)
Definition one_server : Network :=
  {| reliable := true; longDelays := false; longReordering := false;
     ends := {["e" := {| ce_endname := "e" |}]};
     enabled := {["e" := true]}; servers := {[SInt 0 := Some 1%positive]};
     connections := {["e" := Some (SInt 0)]}; rn_done := false; rn_count := 0; rn_bytes := 0 |}.

Lemma one_server_connected : connected "e" (SInt 0) 1%positive one_server.
Proof. by vm_compute. Qed.

Lemma reliable_delivers_witness : fate_of one_server "e" 5 7 true one_server = Deliver.
Proof. apply (reliable_delivers "e" (SInt 0) 1%positive); [apply one_server_connected|reflexivity|apply one_server_connected]. Defined.

Lemma disconnected_never_executes_witness : fate_of one_server "f" 5 7 true one_server = DropRequest.
Proof.
  apply disconnected_never_executes. intros (sn & rs & He & _). discriminate He.
Defined.

Lemma deleted_server_never_answers_witness :
  fate_of one_server "e" 5 7 true (DeleteServer (SInt 0) one_server) ≠ Deliver.
Proof. apply deleted_server_never_answers. reflexivity. Defined.

Lemma setup_connected_witness :
  ∃ rn1 e, MakeEnd "f" one_server = Ok (rn1, e) ∧
    connected "f" (SInt 3) 2%positive (Enable "f" true (AddServer (SInt 3) 2%positive (Connect "f" (SInt 3) rn1))).
Proof.
  destruct (MakeEnd "f" one_server) as [[rn1 e]|] eqn:Hm; [|by vm_compute in Hm].
  exists rn1, e. split; [reflexivity|]. exact (proj1 (setup_connected "f" (SInt 3) 2%positive one_server rn1 e Hm)).
Defined.

(** A server with one service, a counter. *)
Definition counter_server : Server Z unit Z :=
  AddService {| svc_name := "C"; methods := {["Inc" := λ st _, (st + 1, st)]} |} MakeServer.

Lemma Call_fate_witness :
  Call (λ _, 0) (λ _, 8) one_server {| ce_endname := "e" |} "C.Inc" tt true counter_server 4 5 7 true
    (Enable "f" false)
  = Ok (add_stats 1 8 (Enable "f" false one_server), {| services := services counter_server; sv_count := 1 |}, 5, Some 4).
Proof.
  exact (Call_fate (λ _, 0) (λ _, 8) one_server {| ce_endname := "e" |} "C.Inc" tt counter_server 4 5 7 true
           (Enable "f" false) eq_refl).
Defined.
