(* ===== verification/Harness.v ===== *)
(** * The test configurations: what they share

    The configurations of raft, kvraft, shardctrler and shardkv
    (src/src/*/config.go) keep a table of end-point names, [endnames], whose
    row is nil until the server is first started, and switch end points on and
    off with [Enable].  Here are that table, the loops over it and what they
    do to the network. *)
From S2P Require Import Prelude GoLib Labrpc.
Local Open Scope Z_scope.

(** ** Slices after an assignment *)
Lemma go_index_set {A} (l l' : list A) i j x :
  go_set l i x = Ok l' → go_index l' j = if decide (j = i) then Ok x else go_index l j.
Proof.
  intros [Hi ->]%go_set_Ok. unfold go_index, go_len in *. case_decide as Hj; case_decide as He; subst; try done.
  - rewrite list_lookup_insert_eq by lia. done.
  - rewrite list_lookup_insert_ne by lia. done.
  - lia.
Qed.

(** An addition to an [int32] counter, which wraps. *)
Definition wrap32 (x : Z) : Z := (x + 2147483648) `mod` 4294967296 - 2147483648.

(** ** End-point names *)
Abbreviation name_table := (list (option (list string))).

(** [cfg.endnames[i][j]]: a nil row panics. *)
Definition endname_of (tbl : name_table) (i j : Z) : outcome string :=
  row ← go_index tbl i;
  match row with Some names => go_index names j | None => Panic end.

(** [cfg.endnames[i] != nil] *)
Definition has_row (tbl : name_table) (i : Z) : outcome bool :=
  row ← go_index tbl i; Ok (bool_decide (is_Some row)).

(** Whether an end point is switched on. *)
Definition is_enabled (rn : Network) (nm : string) : bool := map_get false (enabled rn) nm.

(** A loop that switches the end points [name j] on or off, skipping those
    that are [None]. *)
Definition enable_each (yes : bool) (js : list Z) (name : Z → outcome (option string))
    (rn : Network) : outcome Network :=
  go_for js (λ j rn, o ← name j;
                     Ok (match o with Some nm => Enable nm yes rn | None => rn end)) rn.

(** A fresh end point per server, connected to it but not switched on. *)
Definition make_ends (names : list string) (server : Z → servername) (js : list Z) (rn : Network)
    : outcome Network :=
  go_for js (λ j rn, nm ← go_index names j;
                     '(rn, _) ← MakeEnd nm rn;
                     Ok (Connect nm (server j) rn)) rn.

(** ** The network after a loop *)
Definition same_but_enabled (rn rn' : Network) : Prop :=
  rn' = with_maps rn (ends rn) (enabled rn') (servers rn) (connections rn).

Lemma same_but_enabled_refl rn : same_but_enabled rn rn.
Proof. by destruct rn. Qed.

Lemma same_but_enabled_trans rn1 rn2 rn3 :
  same_but_enabled rn1 rn2 → same_but_enabled rn2 rn3 → same_but_enabled rn1 rn3.
Proof. unfold same_but_enabled. intros -> ->. done. Qed.

Lemma same_but_enabled_fields rn rn' :
  same_but_enabled rn rn' →
  ends rn' = ends rn ∧ servers rn' = servers rn ∧ connections rn' = connections rn ∧
  reliable rn' = reliable rn ∧ longReordering rn' = longReordering rn.
Proof. intros ->. done. Qed.

Lemma is_enabled_Enable nm yes rn nm' :
  is_enabled (Enable nm yes rn) nm' = if decide (nm' = nm) then yes else is_enabled rn nm'.
Proof.
  unfold is_enabled, map_get; cbn. case_decide as Hd.
  - subst. by rewrite lookup_insert_eq.
  - by rewrite lookup_insert_ne.
Qed.

Definition named (js : list Z) (name : Z → outcome (option string)) (nm : string) : Prop :=
  ∃ j, j ∈ js ∧ name j = Ok (Some nm).

Lemma enable_each_spec yes js name rn rn' :
  enable_each yes js name rn = Ok rn' →
  same_but_enabled rn rn' ∧
  (∀ nm, named js name nm → is_enabled rn' nm = yes) ∧
  (∀ nm, ¬ named js name nm → is_enabled rn' nm = is_enabled rn nm).
Proof.
  intros Hf.
  apply (go_for_inv (λ ds rn1, same_but_enabled rn rn1 ∧
    (∀ nm, named ds name nm → is_enabled rn1 nm = yes) ∧
    (∀ nm, ¬ named ds name nm → is_enabled rn1 nm = is_enabled rn nm))) in Hf; [done| |].
  - split; [apply same_but_enabled_refl|]. split; [|done].
    by intros nm (j & Hj%not_elem_of_nil & _).
  - intros ds j rn1 rn2 (Hs & Hon & Hoff) _ Hb. apply bind_Ok in Hb as (o & Hn & [= <-]).
    assert (∀ nm, named (ds ++ [j]) name nm ↔ named ds name nm ∨ o = Some nm) as Hnm.
    { intros nm. unfold named. setoid_rewrite elem_of_app. setoid_rewrite list_elem_of_singleton.
      split; [intros (j' & [Hj'| ->] & Hj)|intros [(j' & Hj' & Hj)| ->]]; eauto.
      right. congruence. }
    destruct o as [nm0|]; cbn.
    + split; [by eapply same_but_enabled_trans|]. split; intros nm.
      * intros [Hd|[= ->]]%Hnm; rewrite is_enabled_Enable; case_decide; auto; done.
      * intros Hd. rewrite is_enabled_Enable, decide_False; [|by intros ->; apply Hd, Hnm; right].
        apply Hoff. contradict Hd. apply Hnm. by left.
    + split; [done|]. split; intros nm Hd.
      * apply Hnm in Hd as [Hd|]; [by apply Hon|done].
      * apply Hoff. contradict Hd. apply Hnm. by left.
Qed.

#[export] Instance named_dec js name nm : Decision (named js name nm).
Proof.
  destruct (decide (Exists (λ j, name j = Ok (Some nm)) js)) as [He|He]; [left|right];
    rewrite Exists_exists in He; exact He.
Defined.

Lemma enabled_each_on js name rn rn' nm :
  enable_each true js name rn = Ok rn' →
  is_enabled rn' nm = true ↔ named js name nm ∨ is_enabled rn nm = true.
Proof.
  intros (_ & Hon & Hoff)%enable_each_spec. destruct (decide (named js name nm)) as [Hn|Hn].
  - rewrite Hon by done. naive_solver.
  - rewrite Hoff by done. naive_solver.
Qed.

Lemma enabled_each_off js name rn rn' nm :
  enable_each false js name rn = Ok rn' →
  is_enabled rn' nm = true ↔ ¬ named js name nm ∧ is_enabled rn nm = true.
Proof.
  intros (_ & Hon & Hoff)%enable_each_spec. destruct (decide (named js name nm)) as [Hn|Hn].
  - rewrite Hon by done. naive_solver.
  - rewrite Hoff by done. naive_solver.
Qed.

Lemma enable_each_total yes js name rn :
  (∀ j, j ∈ js → ∃ o, name j = Ok o) → ∃ rn', enable_each yes js name rn = Ok rn'.
Proof.
  intros Hn. destruct (go_for_total (λ _ _, True) js
    (λ j rn, o ← name j; Ok (match o with Some nm => Enable nm yes rn | None => rn end)) rn)
    as (rn' & Hf & _); [done| |by exists rn'].
  intros ds j rn1 _ Hj. destruct (Hn j Hj) as [o ->]. cbn. eauto.
Qed.

(** Fresh end points are new, distinct, connected and switched off. *)
Record fresh_ends (names : list string) (server : Z → servername) (js : list Z) (rn rn' : Network)
    : Prop := {
  fe_ends : ∀ nm, is_Some (ends rn' !! nm) ↔
    is_Some (ends rn !! nm) ∨ ∃ j, j ∈ js ∧ go_index names j = Ok nm;
  fe_new : ∀ j nm, j ∈ js → go_index names j = Ok nm → ends rn !! nm = None;
  fe_off : ∀ j nm, j ∈ js → go_index names j = Ok nm → is_enabled rn' nm = false;
  fe_conn : ∀ j nm, j ∈ js → go_index names j = Ok nm →
    map_get None (connections rn') nm = Some (server j);
  fe_old : ∀ nm, (∀ j, j ∈ js → go_index names j ≠ Ok nm) →
    is_enabled rn' nm = is_enabled rn nm ∧ connections rn' !! nm = connections rn !! nm;
  fe_servers : servers rn' = servers rn;
  fe_reliable : reliable rn' = reliable rn;
  fe_inj : ∀ j j' nm, j ∈ js → j' ∈ js → go_index names j = Ok nm → go_index names j' = Ok nm → j = j';
}.

Lemma make_ends_spec names server js rn rn' :
  make_ends names server js rn = Ok rn' → fresh_ends names server js rn rn'.
Proof.
  intros Hf. apply (go_for_inv (λ ds, fresh_ends names server ds rn)) in Hf; [done| |].
  { split; try done.
    - intros nm. split; [by left|]. by intros [|(j & ?%not_elem_of_nil & _)].
    - by intros j nm ?%not_elem_of_nil.
    - by intros j nm ?%not_elem_of_nil.
    - by intros j nm ?%not_elem_of_nil.
    - by intros j j' nm ?%not_elem_of_nil. }
  clear Hf. intros ds j rn1 rn2 HI _ Hb.
  apply bind_Ok in Hb as (nm & Hnm & Hb). apply bind_Ok in Hb as ([rn1' e] & Hm & [= <-]).
  revert Hm. unfold MakeEnd. destruct (ends rn1 !! nm) eqn:Hnone; [done|]. intros [= <- <-].
  assert (∀ j' nm', j' ∈ ds ++ [j] → go_index names j' = Ok nm' →
    nm' ≠ nm ∧ j' ∈ ds ∨ nm' = nm ∧ j' = j) as Hcase.
  { intros j' nm' Hj' Hn'. apply elem_of_app in Hj' as [Hj'|Hj'%list_elem_of_singleton].
    - left. split; [|done]. intros ->.
      assert (is_Some (ends rn1 !! nm)) as [? ?] by (apply (fe_ends _ _ _ _ _ HI); eauto). congruence.
    - right. subst. split; [congruence|done]. }
  assert (ends rn !! nm = None) as Hrn.
  { apply eq_None_not_Some. intros Hs. apply eq_None_not_Some in Hnone. apply Hnone.
    apply (fe_ends _ _ _ _ _ HI). by left. }
  split; cbn; unfold is_enabled, map_get; cbn.
  - intros nm'. rewrite lookup_insert_is_Some, (fe_ends _ _ _ _ _ HI).
    setoid_rewrite elem_of_app. setoid_rewrite list_elem_of_singleton.
    split; [intros [<-|[_ [?|(j' & ? & ?)]]]; eauto 10|].
    destruct (decide (nm = nm')) as [|Hne]; [by left|]. intros [?|(j' & [?| ->] & ?)]; [by eauto 10..|congruence].
  - intros j' nm' Hj' Hn'. destruct (Hcase j' nm' Hj' Hn') as [[_ ?]|[-> _]]; [by eapply fe_new|done].
  - intros j' nm' Hj' Hn'. destruct (Hcase j' nm' Hj' Hn') as [[? ?]|[-> _]].
    + rewrite lookup_insert_ne by done. by eapply (fe_off _ _ _ _ _ HI).
    + by rewrite lookup_insert_eq.
  - intros j' nm' Hj' Hn'. destruct (Hcase j' nm' Hj' Hn') as [[? ?]|[-> ->]].
    + rewrite !lookup_insert_ne by done. by eapply (fe_conn _ _ _ _ _ HI).
    + by rewrite lookup_insert_eq.
  - intros nm' Hno. assert (nm' ≠ nm) by (intros ->; apply (Hno j); [set_solver|done]).
    rewrite !lookup_insert_ne by done. apply (fe_old _ _ _ _ _ HI). intros j' Hj'. apply Hno. set_solver.
  - apply HI.
  - apply HI.
  - intros j1 j2 nm' H1 H2 Hn1 Hn2.
    destruct (Hcase j1 nm' H1 Hn1) as [[? ?]|[? ->]], (Hcase j2 nm' H2 Hn2) as [[? ?]|[? ->]]; try done.
    by eapply (fe_inj _ _ _ _ _ HI).
Qed.

(** New names give new end points. *)
Lemma make_ends_total names server js rn :
  NoDup js →
  (∀ j, j ∈ js → ∃ nm, go_index names j = Ok nm ∧ ends rn !! nm = None) →
  (∀ j j' nm, j ∈ js → j' ∈ js → go_index names j = Ok nm → go_index names j' = Ok nm → j = j') →
  ∃ rn', make_ends names server js rn = Ok rn'.
Proof.
  unfold make_ends. revert rn. induction js as [|j js IH]; intros rn Hnd Hnew Hinj; cbn [go_for]; [by exists rn|].
  apply NoDup_cons in Hnd as [Hj Hnd].
  destruct (Hnew j) as (nm & Hnm & Hfresh); [by left|]. rewrite Hnm; cbn.
  unfold MakeEnd. rewrite Hfresh; cbn. apply IH; [done| |].
  - intros j' Hj'. destruct (Hnew j') as (nm' & Hnm' & Hfresh'); [by right|]. exists nm'. split; [done|]. cbn.
    rewrite lookup_insert_ne; [done|]. intros ->. apply Hj.
    rewrite (Hinj j j' nm'); [done|by left|by right|done..].
  - intros j1 j2 nm1 H1 H2. apply Hinj; by right.
Qed.

(** A loop whose body may depend on how far it has come. *)
Lemma go_for_prefix {S} (I : list Z → S → Prop) js body s :
  I [] s →
  (∀ ds j rest s1, js = ds ++ j :: rest → I ds s1 → ∃ s2, body j s1 = Ok s2 ∧ I (ds ++ [j]) s2) →
  ∃ s', go_for js body s = Ok s' ∧ I js s'.
Proof.
  intros H0 Hstep.
  enough (∀ todo ds s, js = ds ++ todo → I ds s → ∃ s', go_for todo body s = Ok s' ∧ I js s') as Hall
    by (by apply (Hall js [] s)).
  clear s H0. induction todo as [|j todo IH]; intros ds s Hjs Hs; cbn.
  - rewrite app_nil_r in Hjs. subst. eauto.
  - destruct (Hstep ds j todo s Hjs Hs) as (s1 & -> & H1). cbn. apply (IH (ds ++ [j])); [|done].
    by rewrite <-app_assoc.
Qed.
