(* ===== verification/KVServer.v ===== *)
(** * kvsrv: the key/value server and its clerk
    (src/src/kvsrv/{common,server,client}.go)

    [KVServer] is the server record; [Get], [Put] and [Append] are its RPC
    handlers, each run under the server's mutex, hence atomic.  [clientTable]
    maps a client id to a [*dupTable] that no one else holds, so a mutation
    through the pointer is an update of the map.  [Clerk_Get] and
    [Clerk_PutAppend] are the retry loops, run against a server that no other
    client touches and a list of network fates. *)
From S2P Require Import Prelude GoLib Labrpc.
Local Open Scope Z_scope.

(** ** Messages *)
Record PutAppendArgs := {
  pa_Key : string; pa_Value : string; pa_ClientId : Z; pa_Seq : Z }.
Record PutAppendReply := { pr_Value : string }.
Record GetArgs := { ga_Key : string; ga_ClientId : Z; ga_Seq : Z }.
Record GetReply := { gr_Value : string }.

(** ** Server *)
Record dupTable := { dt_seq : Z; dt_value : string }.

Record KVServer := {
  data : gmap string string;
  clientTable : gmap Z dupTable;
}.

Definition StartKVServer : KVServer := {| data := ∅; clientTable := ∅ |}.

(** [kv.data[key]] *)
Definition read (kv : KVServer) (key : string) : string :=
  map_get EmptyString (data kv) key.

Definition Get (args : GetArgs) (kv : KVServer) : KVServer * GetReply :=
  match clientTable kv !! ga_ClientId args with
  | None => (kv, {| gr_Value := read kv (ga_Key args) |})
  | Some dt =>
      if decide (dt_seq dt = ga_Seq args) then (kv, {| gr_Value := dt_value dt |})
      else
        let v := read kv (ga_Key args) in
        ({| data := data kv;
            clientTable := <[ga_ClientId args := {| dt_seq := ga_Seq args; dt_value := v |}]>
                             (clientTable kv) |},
         {| gr_Value := v |})
  end.

Definition Put (args : PutAppendArgs) (kv : KVServer) : KVServer * PutAppendReply :=
  match clientTable kv !! pa_ClientId args with
  | None =>
      ({| data := <[pa_Key args := pa_Value args]> (data kv);
          clientTable := clientTable kv |}, {| pr_Value := EmptyString |})
  | Some dt =>
      if decide (dt_seq dt = pa_Seq args) then (kv, {| pr_Value := EmptyString |})
      else
        ({| data := <[pa_Key args := pa_Value args]> (data kv);
            clientTable := <[pa_ClientId args := {| dt_seq := pa_Seq args; dt_value := EmptyString |}]>
                             (clientTable kv) |},
         {| pr_Value := EmptyString |})
  end.

Definition Append (args : PutAppendArgs) (kv : KVServer) : KVServer * PutAppendReply :=
  let dt := default {| dt_seq := -1; dt_value := EmptyString |}
                    (clientTable kv !! pa_ClientId args) in
  (* the table entry exists from here on *)
  let kv := {| data := data kv;
               clientTable := <[pa_ClientId args := dt]> (clientTable kv) |} in
  if decide (dt_seq dt = pa_Seq args) then (kv, {| pr_Value := dt_value dt |})
  else
    let old := read kv (pa_Key args) in
    ({| data := <[pa_Key args := old +:+ pa_Value args]> (data kv);
        clientTable := <[pa_ClientId args := {| dt_seq := pa_Seq args; dt_value := old |}]>
                         (clientTable kv) |},
     {| pr_Value := old |}).

(** ** Clerk *)
Record Clerk := { clientId : Z; ck_seq : Z }.

(** [id] is the value drawn by [nrand]. *)
Definition MakeClerk (id : Z) : Clerk := {| clientId := id; ck_seq := 0 |}.

Definition next_seq (ck : Clerk) : Clerk :=
  {| clientId := clientId ck; ck_seq := ck_seq ck + 1 |}.

(** The operations a clerk offers, by the handler they call. *)
Inductive op :=
  | OpGet (key : string)
  | OpPut (key value : string)
  | OpAppend (key value : string).

#[export] Instance op_eq_dec : EqDecision op.
Proof. solve_decision. Defined.

Definition op_key (o : op) : string :=
  match o with OpGet k | OpPut k _ | OpAppend k _ => k end.

(** The request the clerk sends for [o], handled by the server. *)
Definition serve (ck : Clerk) (o : op) (kv : KVServer) : KVServer * string :=
  match o with
  | OpGet k =>
      let '(kv', r) := Get {| ga_Key := k; ga_ClientId := clientId ck; ga_Seq := ck_seq ck |} kv
      in (kv', gr_Value r)
  | OpPut k v =>
      let '(kv', r) := Put {| pa_Key := k; pa_Value := v;
                              pa_ClientId := clientId ck; pa_Seq := ck_seq ck |} kv
      in (kv', pr_Value r)
  | OpAppend k v =>
      let '(kv', r) := Append {| pa_Key := k; pa_Value := v;
                                 pa_ClientId := clientId ck; pa_Seq := ck_seq ck |} kv
      in (kv', pr_Value r)
  end.

(** One [ck.server.Call]: what the server becomes, and the reply if one came. *)
Definition attempt (f : fate) (ck : Clerk) (o : op) (kv : KVServer)
    : KVServer * option string :=
  if executed f then
    let '(kv', r) := serve ck o kv in
    (kv', if answered f then Some r else None)
  else (kv, None).

(** [for !ok { ... }]: [None] when the given fates end before an answer. *)
Fixpoint call_until_ok (fates : list fate) (ck : Clerk) (o : op) (kv : KVServer)
    : KVServer * option string :=
  match fates with
  | [] => (kv, None)
  | f :: fates' =>
      match attempt f ck o kv with
      | (kv', Some r) => (kv', Some r)
      | (kv', None) => call_until_ok fates' ck o kv'
      end
  end.

Definition Clerk_Get (key : string) (fates : list fate) (ck : Clerk) (kv : KVServer)
    : Clerk * KVServer * option string :=
  let ck := next_seq ck in
  let '(kv', r) := call_until_ok fates ck (OpGet key) kv in (ck, kv', r).

(** The third argument of [PutAppend], which names the handler. *)
Inductive rpc_name := RPut | RAppend.

Definition op_of (key value : string) (name : rpc_name) : op :=
  match name with RPut => OpPut key value | RAppend => OpAppend key value end.

Definition Clerk_PutAppend (key value : string) (name : rpc_name)
    (fates : list fate) (ck : Clerk) (kv : KVServer) : Clerk * KVServer * option string :=
  let ck := next_seq ck in
  let '(kv', r) := call_until_ok fates ck (op_of key value name) kv in (ck, kv', r).

Definition Clerk_Put (key value : string) (fates : list fate) (ck : Clerk) (kv : KVServer)
    : Clerk * KVServer * option unit :=
  let '(ck', kv', r) := Clerk_PutAppend key value RPut fates ck kv in
  (ck', kv', (λ _, tt) <$> r).

Definition Clerk_Append (key value : string) := Clerk_PutAppend key value RAppend.

(** ** The sequential specification *)

(** What one operation does to the store when it takes effect once. *)
Definition apply_op (o : op) (st : gmap string string) : gmap string string * string :=
  match o with
  | OpGet k => (st, map_get EmptyString st k)
  | OpPut k v => (<[k := v]> st, EmptyString)
  | OpAppend k v =>
      let old := map_get EmptyString st k in (<[k := old +:+ v]> st, old)
  end.

(** ** One request *)
Definition registered (kv : KVServer) (id : Z) : Prop := is_Some (clientTable kv !! id).

Definition is_put (o : op) : bool := match o with OpPut _ _ => true | _ => false end.
Definition is_append (o : op) : bool := match o with OpAppend _ _ => true | _ => false end.

(** The table entry [dt] remembers request [seq] with reply [r]. *)
Definition remembers (kv : KVServer) (ck : Clerk) (r : string) : Prop :=
  clientTable kv !! clientId ck = Some {| dt_seq := ck_seq ck; dt_value := r |}.

(** The request is not the last one the server saw from this client. *)
Definition unseen (kv : KVServer) (ck : Clerk) : Prop :=
  ∀ dt, clientTable kv !! clientId ck = Some dt → dt_seq dt ≠ ck_seq ck.

(** A new request of a registered client, or any new Append, takes effect
    exactly as the specification says, and is remembered with its reply. *)
Lemma serve_new kv ck o kv' r :
  registered kv (clientId ck) ∨ (is_append o = true ∧ ck_seq ck ≠ -1) →
  unseen kv ck →
  serve ck o kv = (kv', r) →
  apply_op o (data kv) = (data kv', r) ∧ remembers kv' ck r ∧
  (∀ c, c ≠ clientId ck → clientTable kv' !! c = clientTable kv !! c).
Proof.
  unfold unseen, remembers, registered. intros Hreg Hnew Hs.
  destruct o as [k|k v|k v]; cbn in *; unfold Get, Put, Append in Hs; cbn in Hs.
  1,2: destruct Hreg as [[dt Hdt]|[? _]]; [|done];
    rewrite Hdt, decide_False in Hs by eauto; simplify_eq/=;
    (split; [done|split; [apply lookup_insert_eq|by intros; rewrite lookup_insert_ne]]).
  rewrite decide_False in Hs; cbn in *.
  - simplify_eq/=. split; [done|]. split; [by rewrite lookup_insert_eq|].
    intros c Hc. by rewrite !lookup_insert_ne.
  - destruct (clientTable kv !! clientId ck) as [dt|] eqn:Hdt; cbn; [eauto|].
    destruct Hreg as [[? ?]|[_ ?]]; [done|]. lia.
Qed.

(** A request that is remembered changes nothing and repeats its reply. *)
Lemma serve_again kv ck o r :
  remembers kv ck r → (is_put o = true → r = EmptyString) →
  (serve ck o kv).2 = r ∧ data (serve ck o kv).1 = data kv ∧
  clientTable (serve ck o kv).1 = clientTable kv.
Proof.
  unfold remembers. intros Hdt Hput.
  destruct o; cbn; unfold Get, Put, Append; cbn; rewrite Hdt; cbn;
    rewrite decide_True by done; cbn; auto.
  - by rewrite (Hput eq_refl).
  - by rewrite insert_id.
Qed.

(** A Get of a client the server does not know reads the store and leaves the
    server alone. *)
Lemma serve_unregistered_get kv ck k :
  clientTable kv !! clientId ck = None →
  serve ck (OpGet k) kv = (kv, read kv k).
Proof. intros Hn. cbn. unfold Get; cbn. by rewrite Hn. Qed.

(** The reply of a Put is empty. *)
Lemma serve_put_reply kv ck k v : (serve ck (OpPut k v) kv).2 = EmptyString.
Proof.
  cbn. unfold Put; cbn. destruct (clientTable kv !! clientId ck); cbn; [|done].
  by case_decide.
Qed.

Lemma apply_put_reply o st : is_put o = true → (apply_op o st).2 = EmptyString.
Proof. by destruct o. Qed.
