(* ===== verification/KVSystem.v ===== *)
(** * kvsrv as a concurrent system

    Many clerks, each inside one call, share a server over an unreliable
    network.  A state is the server and, per client id, the clerk with its
    [phase]: between calls, retrying an operation with no request at the server
    ([Trying]), or with the handler run and its reply on the way ([Served]).
    Steps are: a clerk starts a call; a request is lost; the handler runs; the
    reply is lost; the reply arrives and the call returns.  Any steps of other
    clerks may come in between.  A handler runs before its [Call] ends, as on
    a network whose end points stay enabled.  [spec_step] is the atomic
    store: a call is invoked, takes effect once, returns.

    [kvsrv_refines_spec]: as long as Put is only called by clients the server
    already knows (those that have appended before), every trace of the system
    is a trace of the atomic store, so each operation takes effect exactly
    once between its call and its return, whatever the network loses.  When a
    Get of an unknown client takes effect depends on which of its replies will
    arrive: [psys] is the system with that prophecy, a backward simulation
    adds it ([prophesied]) and a forward simulation into the store uses it
    ([sim_step]). *)
From S2P Require Import Prelude GoLib Labrpc KVServer.
Local Open Scope Z_scope.

(** ** The retry loop of one clerk, undisturbed *)

Lemma attempt_dropped ck o kv : attempt DropRequest ck o kv = (kv, None).
Proof. done. Qed.

Lemma attempt_executed f ck o kv :
  executed f = true →
  attempt f ck o kv =
    ((serve ck o kv).1, if answered f then Some (serve ck o kv).2 else None).
Proof. intros Hf. unfold attempt. rewrite Hf. by destruct (serve ck o kv). Qed.

(** Once the request is remembered, the loop repeats the remembered reply. *)
Lemma call_until_ok_again fates ck o kv r :
  remembers kv ck r → (is_put o = true → r = EmptyString) → Deliver ∈ fates →
  ∃ kv', call_until_ok fates ck o kv = (kv', Some r) ∧
         data kv' = data kv ∧ clientTable kv' = clientTable kv.
Proof.
  intros Hrem Hput. revert kv Hrem. induction fates as [|f fates IH]; intros kv Hrem Hd.
  { by apply not_elem_of_nil in Hd. }
  destruct (serve_again _ _ _ _ Hrem Hput) as (Hr & Hdata & Htab).
  destruct f; cbn [call_until_ok].
  - rewrite attempt_dropped. apply IH; [done|]. by apply elem_of_cons in Hd as [?|?].
  - rewrite attempt_executed by done; cbn.
    apply elem_of_cons in Hd as [?|Hd]; [done|].
    destruct (IH (serve ck o kv).1) as (kv' & -> & Hd' & Ht'); [|done|].
    + unfold remembers. by rewrite Htab.
    + exists kv'. by rewrite Hd', Ht'.
  - rewrite attempt_executed by done; cbn. exists (serve ck o kv).1. by rewrite Hr.
Qed.

(** The loop of a registered client, or of an Append, against any fates that
    let one answer through: the operation takes effect exactly once. *)
Lemma call_until_ok_once fates ck o kv :
  registered kv (clientId ck) ∨ (is_append o = true ∧ ck_seq ck ≠ -1) →
  unseen kv ck → Deliver ∈ fates →
  ∃ kv' r, call_until_ok fates ck o kv = (kv', Some r) ∧
           apply_op o (data kv) = (data kv', r) ∧ remembers kv' ck r.
Proof.
  intros Hreg Hnew. revert kv Hreg Hnew.
  induction fates as [|f fates IH]; intros kv Hreg Hnew Hd.
  { by apply not_elem_of_nil in Hd. }
  destruct (serve ck o kv) as [kv1 r] eqn:Hs.
  destruct (serve_new _ _ _ _ _ Hreg Hnew Hs) as (Happ & Hrem & _).
  destruct f; cbn [call_until_ok].
  - rewrite attempt_dropped. apply IH; [done|done|]. by apply elem_of_cons in Hd as [?|?].
  - rewrite attempt_executed by done; rewrite Hs; cbn.
    apply elem_of_cons in Hd as [?|Hd]; [done|].
    destruct (call_until_ok_again fates ck o kv1 r Hrem) as (kv2 & -> & Hd2 & Ht2); [|done|].
    + intros Hp. pose proof (apply_put_reply o (data kv) Hp). by rewrite Happ in *.
    + exists kv2, r. unfold remembers. by rewrite Hd2, Ht2.
  - rewrite attempt_executed by done; rewrite Hs; cbn. eauto.
Qed.

(** [Clerk.Append] on a network that answers at least one of the attempts,
    whatever it loses before: it returns the old value, and the new value has
    the argument appended exactly once. *)
Theorem clerk_append_exactly_once key value fates ck kv :
  0 ≤ ck_seq ck →
  (∀ dt, clientTable kv !! clientId ck = Some dt → dt_seq dt ≤ ck_seq ck) →
  Deliver ∈ fates →
  ∃ ck' kv', Clerk_Append key value fates ck kv = (ck', kv', Some (read kv key)) ∧
    data kv' = <[key := read kv key +:+ value]> (data kv) ∧
    ck_seq ck' = ck_seq ck + 1.
Proof.
  intros Hseq Hle Hd. unfold Clerk_Append, Clerk_PutAppend; cbn.
  destruct (call_until_ok_once fates (next_seq ck) (OpAppend key value) kv)
    as (kv' & r & -> & Happ & _); [..|done|].
  - right; cbn. split; [done|lia].
  - intros dt Hdt; cbn in *. specialize (Hle dt Hdt). lia.
  - cbn in Happ. injection Happ as Happ <-. by exists (next_seq ck), kv'.
Qed.

Lemma clerk_append_exactly_once_witness :
  ∃ ck' kv', Clerk_Append "k" "a" [DropReply; DropRequest; DropReply; Deliver] (MakeClerk 7) StartKVServer
    = (ck', kv', Some EmptyString) ∧ ck_seq ck' = 1.
Proof.
  destruct (clerk_append_exactly_once "k" "a" [DropReply; DropRequest; DropReply; Deliver]
              (MakeClerk 7) StartKVServer) as (ck' & kv' & H1 & _ & H2).
  - done.
  - intros dt Hdt. discriminate Hdt.
  - do 3 right. left.
  - exists ck', kv'. split; [exact H1|exact H2].
Defined.

(** ** The system *)
Inductive event :=
  | Inv (c : Z) (o : op)
  | Res (c : Z) (r : string).

#[export] Instance event_eq_dec : EqDecision event.
Proof. solve_decision. Defined.

(** Where a clerk is; [A] is what is kept of a reply on its way. *)
Inductive phase (A : Type) :=
  | Free
  | Trying (o : op)
  | Served (o : op) (a : A).
Arguments Free {A}.
Arguments Trying {A} o.
Arguments Served {A} o a.

Record sys := { srv : KVServer; clerks : gmap Z (Clerk * phase string) }.

Definition sys_init (ids : gset Z) : sys :=
  {| srv := StartKVServer; clerks := map_on (λ id, (MakeClerk id, Free)) ids |}.

(** [may s c o]: which calls the clients make. *)
Inductive sys_step (may : KVServer → Z → op → Prop) : sys → option event → sys → Prop :=
  | sys_call s c ck o :
      clerks s !! c = Some (ck, Free) →
      may (srv s) c o →
      sys_step may s (Some (Inv c o))
        {| srv := srv s; clerks := <[c := (next_seq ck, Trying o)]> (clerks s) |}
  | sys_drop s c ck o :
      clerks s !! c = Some (ck, Trying o) →
      sys_step may s None {| srv := srv s; clerks := <[c := (ck, Trying o)]> (clerks s) |}
  | sys_execute s c ck o kv' r :
      clerks s !! c = Some (ck, Trying o) →
      serve ck o (srv s) = (kv', r) →
      sys_step may s None {| srv := kv'; clerks := <[c := (ck, Served o r)]> (clerks s) |}
  | sys_lose s c ck o r :
      clerks s !! c = Some (ck, Served o r) →
      sys_step may s None {| srv := srv s; clerks := <[c := (ck, Trying o)]> (clerks s) |}
  | sys_return s c ck o r :
      clerks s !! c = Some (ck, Served o r) →
      sys_step may s (Some (Res c r)) {| srv := srv s; clerks := <[c := (ck, Free)]> (clerks s) |}.

(** What the source allows: any call at any time. *)
Definition any_call (kv : KVServer) (c : Z) (o : op) : Prop := True.

(** Put only by clients in the server's table. *)
Definition put_registered (kv : KVServer) (c : Z) (o : op) : Prop :=
  is_put o = true → registered kv c.

(** ** The atomic store *)
Inductive cstate := Idle | Waiting (o : op) | Done (r : string).

Record spec := { store : gmap string string; calls : gmap Z cstate }.

Definition spec_init (ids : gset Z) : spec :=
  {| store := ∅; calls := map_on (λ _, Idle) ids |}.

Inductive spec_step : spec → option event → spec → Prop :=
  | spec_inv t c o :
      calls t !! c = Some Idle →
      spec_step t (Some (Inv c o)) {| store := store t; calls := <[c := Waiting o]> (calls t) |}
  | spec_lin t c o st' r :
      calls t !! c = Some (Waiting o) →
      apply_op o (store t) = (st', r) →
      spec_step t None {| store := st'; calls := <[c := Done r]> (calls t) |}
  | spec_res t c r :
      calls t !! c = Some (Done r) →
      spec_step t (Some (Res c r)) {| store := store t; calls := <[c := Idle]> (calls t) |}.

(** ** The system with prophecies

    With each reply on its way goes whether it will arrive. *)
Record psys := { p_srv : KVServer; p_clerks : gmap Z (Clerk * phase (string * bool)) }.

Inductive psys_step (may : KVServer → Z → op → Prop) : psys → option event → psys → Prop :=
  | psys_call p c ck o :
      p_clerks p !! c = Some (ck, Free) →
      may (p_srv p) c o →
      psys_step may p (Some (Inv c o))
        {| p_srv := p_srv p; p_clerks := <[c := (next_seq ck, Trying o)]> (p_clerks p) |}
  | psys_drop p c ck o :
      p_clerks p !! c = Some (ck, Trying o) →
      psys_step may p None {| p_srv := p_srv p; p_clerks := <[c := (ck, Trying o)]> (p_clerks p) |}
  | psys_execute p c ck o kv' r b :
      p_clerks p !! c = Some (ck, Trying o) →
      serve ck o (p_srv p) = (kv', r) →
      psys_step may p None {| p_srv := kv'; p_clerks := <[c := (ck, Served o (r, b))]> (p_clerks p) |}
  | psys_lose p c ck o r :
      p_clerks p !! c = Some (ck, Served o (r, false)) →
      psys_step may p None {| p_srv := p_srv p; p_clerks := <[c := (ck, Trying o)]> (p_clerks p) |}
  | psys_return p c ck o r :
      p_clerks p !! c = Some (ck, Served o (r, true)) →
      psys_step may p (Some (Res c r)) {| p_srv := p_srv p; p_clerks := <[c := (ck, Free)]> (p_clerks p) |}.

Definition phase_map {A B} (f : A → B) (ph : phase A) : phase B :=
  match ph with Free => Free | Trying o => Trying o | Served o a => Served o (f a) end.

Definition erase (p : psys) : sys :=
  {| srv := p_srv p; clerks := prod_map id (phase_map fst) <$> p_clerks p |}.

(** What the clerk [c] was before a step, in the prophesied system. *)
Lemma erase_before p kv c x y clerks0 :
  clerks (erase p) = <[c := x]> clerks0 → clerks0 !! c = Some (prod_map id (phase_map fst) y) →
  erase {| p_srv := kv; p_clerks := <[c := y]> (p_clerks p) |} = {| srv := kv; clerks := clerks0 |}.
Proof.
  intros Hp Hc. unfold erase in *; cbn in *. f_equal. rewrite fmap_insert, Hp, insert_insert_eq.
  by apply insert_id.
Qed.

Lemma erase_after p c x clerks0 :
  clerks (erase p) = <[c := x]> clerks0 →
  ∃ y, p_clerks p !! c = Some y ∧ prod_map id (phase_map fst) y = x.
Proof.
  intros Hp. cbn in Hp. assert ((prod_map id (phase_map fst) <$> p_clerks p) !! c = Some x) as Hc
    by (by rewrite Hp, lookup_insert_eq).
  by apply lookup_fmap_Some in Hc as (y & ? & ?); eauto.
Qed.

Lemma psys_before may p kv c ck ph x l s0 :
  p_clerks p !! c = Some x →
  clerks (erase p) = <[c := prod_map id (phase_map fst) x]> (clerks s0) →
  clerks s0 !! c = Some (ck, phase_map fst ph) → srv s0 = kv →
  psys_step may {| p_srv := kv; p_clerks := <[c := (ck, ph)]> (p_clerks p) |} l
    {| p_srv := p_srv p; p_clerks := <[c := x]> (<[c := (ck, ph)]> (p_clerks p)) |} →
  ∃ p0, run (psys_step may) p0 (option_list l) p ∧ s0 = erase p0.
Proof.
  intros Hx Hp Hc <- Hs. eexists. split.
  - apply run_one. rewrite insert_insert_eq, (insert_id _ _ _ Hx) in Hs. by destruct p.
  - destruct s0 as [kv0 cl0]. symmetry. exact (erase_before p kv0 c _ (ck, ph) cl0 Hp Hc).
Qed.

Lemma prophesied_step may s l s' p' :
  s' = erase p' → sys_step may s l s' → ∃ p, run (psys_step may) p (option_list l) p' ∧ s = erase p.
Proof.
  intros -> Hstep. remember (erase p') as s' eqn:Hs'.
  destruct Hstep as [s c ck o Hc Hmay|s c ck o Hc|s c ck o kv' r Hc Hsrv|s c ck o r Hc|s c ck o r Hc];
    pose proof (f_equal clerks Hs') as Hp; pose proof (f_equal srv Hs') as Hk; cbn in Hk;
    destruct (erase_after p' c _ _ (eq_sym Hp)) as ([ck' ph'] & Hy & Hx); cbn in Hx;
    destruct ph' as [|o'|o' [r' b]]; cbn in Hx; simplify_eq.
  all: match goal with
       | Hc : clerks ?s !! ?c = Some (?ck, ?ph) |- ∃ _, run _ _ (option_list ?l) _ ∧ _ =>
           let q := match ph with
                    | Free => constr:(@Free (string * bool))
                    | Trying ?o => constr:(@Trying (string * bool) o)
                    | Served ?o ?r => constr:(Served o (r, bool_decide (l ≠ None)))
                    end in
           apply (psys_before may p' (srv s) c ck q _ l s Hy); [by symmetry|done|done|]
       end; cbn; rewrite <-?Hk.
  - constructor; cbn; [apply lookup_insert_eq|done].
  - constructor; cbn. apply lookup_insert_eq.
  - eapply psys_execute; cbn; [apply lookup_insert_eq|done].
  - eapply psys_lose; cbn. apply lookup_insert_eq.
  - eapply psys_return; cbn. apply lookup_insert_eq.
Qed.

Definition psys_init (ids : gset Z) : psys :=
  {| p_srv := StartKVServer; p_clerks := map_on (λ id, (MakeClerk id, Free)) ids |}.

Lemma erase_init ids p : sys_init ids = erase p → p = psys_init ids.
Proof.
  intros Hp. unfold psys_init. destruct p as [kv cl]. unfold sys_init, erase in Hp; cbn in Hp.
  injection Hp as <- Hp. f_equal. apply map_eq. intros c.
  apply (f_equal (.!! c)) in Hp. rewrite lookup_fmap in Hp. rewrite !lookup_map_on in *.
  case_decide; [|by destruct (cl !! c)]. destruct (cl !! c) as [[ck [|o|o a]]|]; by simplify_eq/=.
Qed.

(** Every run of the system is one of the prophesied system, whatever is
    foretold of the replies that are still on their way at its end. *)
Lemma prophesied may ids tr s :
  run (sys_step may) (sys_init ids) tr s →
  ∃ p, run (psys_step may) (psys_init ids) tr p ∧ s = erase p.
Proof.
  intros Hr.
  set (p' := {| p_srv := srv s; p_clerks := prod_map id (phase_map (λ r, (r, false))) <$> clerks s |}).
  assert (s = erase p') as Hp'.
  { destruct s as [kv cl]. unfold erase; cbn. f_equal. rewrite <-map_fmap_compose.
    rewrite <-(map_fmap_id cl) at 1. apply map_fmap_ext. by intros c [ck [|o|o a]] _. }
  destruct (backward_simulation _ (psys_step may) (λ s p, s = erase p)
    (λ s l s' p', prophesied_step may s l s' p') _ _ _ p' Hr Hp') as (p & Hrun & Hp).
  apply erase_init in Hp as ->. by exists p'.
Qed.

(** ** The simulation relation *)

(** A call that has not taken effect, and one that has with reply [r], which
    the server remembers. *)
Definition pending (kv : KVServer) (c : Z) (ck : Clerk) (o : op) : Prop :=
  (∀ dt, clientTable kv !! c = Some dt → dt_seq dt < ck_seq ck) ∧ (is_put o = true → registered kv c).

Definition decided_call (kv : KVServer) (ck : Clerk) (o : op) (r : string) : Prop :=
  remembers kv ck r ∧ (is_put o = true → r = EmptyString).

(** A reply on its way is of a decided call, or of the Get of an unknown
    client, which has taken effect if the reply will arrive. *)
Definition call_rel (kv : KVServer) (c : Z) (ck : Clerk) (ph : phase (string * bool)) (q : cstate) : Prop :=
  match ph, q with
  | Free, Idle => ∀ dt, clientTable kv !! c = Some dt → dt_seq dt ≤ ck_seq ck
  | Trying o, Waiting o' => o = o' ∧ pending kv c ck o
  | Trying o, Done r => decided_call kv ck o r
  | Served o (r, b), Waiting o' => b = false ∧ o = o' ∧ pending kv c ck o
  | Served o (r, b), Done r' =>
      r = r' ∧ (decided_call kv ck o r ∨
                b = true ∧ ∀ dt, clientTable kv !! c = Some dt → dt_seq dt < ck_seq ck)
  | _, _ => False
  end.

Definition clerk_rel (kv : KVServer) (c : Z) (x : Clerk * phase (string * bool)) (q : cstate) : Prop :=
  clientId x.1 = c ∧ 0 ≤ ck_seq x.1 ∧ (x.2 ≠ Free → 1 ≤ ck_seq x.1) ∧
  call_rel kv c x.1 x.2 q.

Record sim (p : psys) (t : spec) : Prop := {
  sim_store : store t = data (p_srv p);
  sim_calls c : option_relation (clerk_rel (p_srv p) c) (λ _, False) (λ _, False)
                  (p_clerks p !! c) (calls t !! c);
}.

Lemma clerk_rel_frame kv kv' c x q :
  clientTable kv' !! c = clientTable kv !! c → clerk_rel kv c x q → clerk_rel kv' c x q.
Proof.
  intros Ht (<- & Hnn & Hs & Hr). split_and!; [done..|].
  destruct x as [ck [|o|o [r b]]], q; cbn in *;
    unfold pending, decided_call, remembers, registered in *; by rewrite ?Ht.
Qed.

Lemma sim_lookup p t c x :
  sim p t → p_clerks p !! c = Some x →
  ∃ q, calls t !! c = Some q ∧ clerk_rel (p_srv p) c x q.
Proof.
  intros Hsim Hc. pose proof (sim_calls _ _ Hsim c) as Hrel. rewrite Hc in Hrel.
  destruct (calls t !! c); [eauto|done].
Qed.

(** A change of one client's part of the state, and of its table entry. *)
Lemma sim_update p t c kv' x q :
  sim p t →
  (∀ c', c' ≠ c → clientTable kv' !! c' = clientTable (p_srv p) !! c') →
  clerk_rel kv' c x q →
  sim {| p_srv := kv'; p_clerks := <[c := x]> (p_clerks p) |}
      {| store := data kv'; calls := <[c := q]> (calls t) |}.
Proof.
  intros Hsim Hfr Hrel. split; [done|]. intros c'; cbn.
  destruct (decide (c = c')) as [<-|Hne].
  - by rewrite !lookup_insert_eq.
  - rewrite !lookup_insert_ne by done. pose proof (sim_calls _ _ Hsim c') as Hc'.
    destruct (p_clerks p !! c'), (calls t !! c'); cbn in *; try done.
    eapply clerk_rel_frame; [|done]. auto.
Qed.

(** The same, when the store's call stays as it is and the server keeps its data. *)
Lemma sim_update_stay p t c kv' x q :
  sim p t → calls t !! c = Some q → data kv' = data (p_srv p) →
  (∀ c', c' ≠ c → clientTable kv' !! c' = clientTable (p_srv p) !! c') →
  clerk_rel kv' c x q →
  sim {| p_srv := kv'; p_clerks := <[c := x]> (p_clerks p) |} t.
Proof.
  intros Hsim Hq Hd Hfr Hrel. pose proof (sim_update _ _ _ _ _ _ Hsim Hfr Hrel) as Hs.
  rewrite (insert_id _ _ _ Hq), Hd, <-(sim_store _ _ Hsim) in Hs. by destruct t.
Qed.

(** What running the handler does: it decides the call, or it repeats the
    reply of a decided call, or it is a Get of an unknown client, decided now
    if this reply will arrive. *)
Lemma sim_execute p t c ck o kv' r b :
  sim p t → p_clerks p !! c = Some (ck, Trying o) → serve ck o (p_srv p) = (kv', r) →
  ∃ t', run spec_step t [] t' ∧
    sim {| p_srv := kv'; p_clerks := <[c := (ck, Served o (r, b))]> (p_clerks p) |} t'.
Proof.
  intros Hsim Hc Hs.
  destruct (sim_lookup _ _ _ _ Hsim Hc) as (q & Hq & Hid & Hnn & Hpos & Hrel); cbn in Hid, Hnn, Hpos.
  assert (1 ≤ ck_seq ck) as Hge by (by apply Hpos).
  destruct q as [|o'|r0]; [done| |]; cbn in Hrel.
  - destruct Hrel as (<- & Hlt & Hput).
    destruct (decide (registered (p_srv p) c ∨ is_append o = true)) as [Hreg|Hun].
    + apply serve_new in Hs as (Happ & Hrem & Hfr);
        [|rewrite Hid; destruct Hreg; [by left|right; split; [done|lia]]
         |intros dt Hdt; rewrite Hid in Hdt; specialize (Hlt _ Hdt); lia].
      rewrite Hid in Hfr. eexists. split.
      * eapply run_tau; [|constructor]. econstructor; [done|]. by rewrite (sim_store _ _ Hsim).
      * eapply sim_update; [done..|]. split_and!; [done..|]. cbn. split; [done|]. left. split; [done|].
        intros Hp. pose proof (apply_put_reply o (data (p_srv p)) Hp). by rewrite Happ in *.
    + unfold registered in *.
      destruct (clientTable (p_srv p) !! c) eqn:Ht; [destruct Hun; eauto|].
      destruct o as [k|k v|k v]; cbn in Hput, Hun; [|by destruct (Hput eq_refl)|tauto].
      rewrite serve_unregistered_get in Hs by (by rewrite Hid). injection Hs as <- <-.
      destruct b.
      * eexists. split.
        -- eapply run_tau; [|constructor]. econstructor; [exact Hq|done].
        -- rewrite (sim_store _ _ Hsim). eapply sim_update; [done..|]. split_and!; [done..|]. cbn.
           split; [done|]. right. split; [done|]. by rewrite Ht.
      * exists t. split; [constructor|]. eapply sim_update_stay; [done..|].
        split_and!; [done..|]. cbn. split_and!; [done|done|]. split; [by rewrite Ht|done].
  - destruct Hrel as (Hrem & Hput).
    destruct (serve_again _ _ _ _ Hrem Hput) as (Hr & Hd & Ht). rewrite Hs in Hr, Hd, Ht. cbn in *. subst r0.
    exists t. split; [constructor|]. eapply sim_update_stay; [done|done|done|by rewrite Ht|].
    split_and!; [done..|]. cbn. split; [done|]. left. split; [|done].
    unfold remembers in *. by rewrite Ht.
Qed.

Lemma sim_lose p t c ck o r :
  sim p t → p_clerks p !! c = Some (ck, Served o (r, false)) →
  sim {| p_srv := p_srv p; p_clerks := <[c := (ck, Trying o)]> (p_clerks p) |} t.
Proof.
  intros Hsim Hc. destruct (sim_lookup _ _ _ _ Hsim Hc) as (q & Hq & Hid & Hnn & Hpos & Hrel).
  eapply sim_update_stay; [done..|]. split_and!; [done|done|intros _; by apply Hpos|].
  destruct q; cbn in *; [done|by destruct Hrel as (_ & ? & ?)|].
  destruct Hrel as [<- [?|[? _]]]; done.
Qed.

Lemma sim_return p t c ck o r :
  sim p t → p_clerks p !! c = Some (ck, Served o (r, true)) →
  ∃ t', run spec_step t [Res c r] t' ∧
    sim {| p_srv := p_srv p; p_clerks := <[c := (ck, Free)]> (p_clerks p) |} t'.
Proof.
  intros Hsim Hc. destruct (sim_lookup _ _ _ _ Hsim Hc) as (q & Hq & Hid & Hnn & Hpos & Hrel).
  destruct q; cbn in Hrel; [done|by destruct Hrel|]. destruct Hrel as [<- Hrel].
  eexists. split; [eapply run_event; [by apply spec_res|apply run_refl]|].
  rewrite (sim_store _ _ Hsim). eapply sim_update; [done..|].
  split_and!; [done|done|done|]. cbn in *. intros dt Hdt.
  destruct Hrel as [[Hrem _]|[_ Hlt]]; [|specialize (Hlt _ Hdt); lia].
  unfold remembers in Hrem. rewrite Hid in Hrem. rewrite Hrem in Hdt. by injection Hdt as <-.
Qed.

Lemma sim_step p l p' t :
  sim p t → psys_step put_registered p l p' →
  ∃ t', run spec_step t (option_list l) t' ∧ sim p' t'.
Proof.
  intros Hsim Hstep.
  destruct Hstep as [p c ck o Hc Hmay|p c ck o Hc|p c ck o kv' r b Hc Hs|p c ck o r Hc|p c ck o r Hc].
  - destruct (sim_lookup _ _ _ _ Hsim Hc) as (q & Hq & Hid & Hnn & Hpos & Hrel); cbn in Hid, Hnn, Hrel.
    destruct q; try done. eexists. split; [eapply run_event; [by constructor|apply run_refl]|].
    rewrite (sim_store _ _ Hsim). apply sim_update; [done..|].
    split; [done|]. split; [cbn; lia|]. split; [cbn; lia|]. cbn. split; [done|]. split; [|done].
    intros dt Hdt. specialize (Hrel _ Hdt). cbn. lia.
  - exists t. split; [constructor|]. rewrite insert_id by done. by destruct p.
  - by eapply sim_execute.
  - exists t. split; [constructor|]. by eapply sim_lose.
  - by eapply sim_return.
Qed.

Lemma sim_init ids : sim (psys_init ids) (spec_init ids).
Proof.
  split; [done|]. intros c. cbn. rewrite !lookup_map_on. case_decide; [|done].
  split_and!; cbn; [done|lia|done|]. intros dt. by rewrite lookup_empty.
Qed.

Lemma kvsrv_simulated ids tr s :
  run (sys_step put_registered) (sys_init ids) tr s →
  ∃ p t, run spec_step (spec_init ids) tr t ∧ sim p t ∧ s = erase p.
Proof.
  intros (p & Hr & Hp)%prophesied. destruct (forward_simulation _ _ sim sim_step _ _ _ _ Hr (sim_init ids))
    as (t & Ht & Hsim). eauto.
Qed.

(** C6. Trace inclusion: as long as Put is only called by clients the server
    already knows, every trace of calls and returns of the key/value system,
    over a network that may lose requests and replies and keep a reply on its
    way while other clerks' requests are served, is a trace of the atomic store,
    in which each call takes effect exactly once between its invocation and its
    return; and the store ends with the server's data. *)
Theorem kvsrv_refines_spec ids tr s :
  run (sys_step put_registered) (sys_init ids) tr s →
  ∃ t, run spec_step (spec_init ids) tr t ∧ store t = data (srv s).
Proof.
  intros Hr. destruct (kvsrv_simulated _ _ _ Hr) as (p & t & Ht & Hsim & ->).
  exists t. split; [done|apply Hsim].
Qed.
