(* ===== verification/Bitset.v ===== *)
(** * porcupine: bit sets (src/src/porcupine/bitset.go)

    A [bitset] is a slice of 64-bit words; [set], [clear] and [get] index it
    and panic out of range.  [member] is the abstract view, a set of positions:
    the theorems say that the operations are set insertion, removal and
    membership, that [equals] is equality of sets, and that [popcnt] is the
    cardinality. *)
From S2P Require Import Prelude GoLib.
Local Open Scope Z_scope.

Abbreviation bitset := (list Z) (only parsing).

Definition newBitset (bits : Z) : bitset :=
  let extra := if decide (bits `mod` 64 ≠ 0) then 1 else 0 in
  let chunks := bits `div` 64 + extra in
  replicate (Z.to_nat chunks) 0.

Definition clone (b : bitset) : bitset := b.

Definition bitsetIndex (pos : Z) : Z * Z := (pos `div` 64, pos `mod` 64).

Definition set (b : bitset) (pos : Z) : outcome bitset :=
  let '(major, minor) := bitsetIndex pos in
  w ← go_index b major; go_set b major (Z.lor w (Z.shiftl 1 minor)).

Definition clear (b : bitset) (pos : Z) : outcome bitset :=
  let '(major, minor) := bitsetIndex pos in
  w ← go_index b major; go_set b major (Z.ldiff w (Z.shiftl 1 minor)).

Definition get (b : bitset) (pos : Z) : outcome bool :=
  let '(major, minor) := bitsetIndex pos in
  w ← go_index b major; mret (bool_decide (Z.land w (Z.shiftl 1 minor) ≠ 0)).

(** [bits.OnesCount64] *)
Definition OnesCount64 (v : Z) : Z :=
  Z.of_nat (length (filter (λ i, Z.testbit v i = true) (seqZ 0 64))).

Definition popcnt (b : bitset) : Z :=
  foldl (λ total v, total + OnesCount64 v) 0 b.

Definition hash (b : bitset) : Z := foldl Z.lxor (popcnt b) b.

Definition equals (b b2 : bitset) : bool :=
  if decide (length b ≠ length b2) then false
  else forallb (λ '(v, v2), v =? v2) (zip b b2).

(** ** The abstract view *)
Definition member (b : bitset) (pos : Z) : bool :=
  match b !! Z.to_nat (pos `div` 64) with
  | Some w => Z.testbit w (pos `mod` 64)
  | None => false
  end.

(** Every word is a [uint64]. *)
Definition words (b : bitset) : Prop := Forall (λ w, 0 ≤ w < 2 ^ 64) b.

(** The positions the set has room for. *)
Definition capacity (b : bitset) : Z := 64 * go_len b.

Lemma index_bounds pos (b : bitset) :
  0 ≤ pos < capacity b → 0 ≤ pos `div` 64 < go_len b ∧ 0 ≤ pos `mod` 64 < 64.
Proof. unfold capacity. intros Hp. pose proof (go_len_nonneg b). split; Z.to_euclidean_division_equations; lia. Qed.

Lemma index_inj i j : i `div` 64 = j `div` 64 → i `mod` 64 = j `mod` 64 → i = j.
Proof. intros Hd Hm. rewrite (Z.div_mod i 64), (Z.div_mod j 64) by lia. lia. Qed.

(** The word at [pos] and the update of that word. *)
Lemma update_word b pos f :
  0 ≤ pos < capacity b →
  ∃ w, b !! Z.to_nat (pos `div` 64) = Some w ∧
    (w ← go_index b (pos `div` 64); go_set b (pos `div` 64) (f w)) =
      Ok (<[Z.to_nat (pos `div` 64) := f w]> b).
Proof.
  intros [Hd _]%index_bounds.
  destruct (go_index_in_range _ _ Hd) as [w Hw]. exists w.
  rewrite Hw; cbn. apply go_index_Ok in Hw as [? Hw]. split; [done|].
  by apply go_set_Ok.
Qed.

Lemma member_update b pos w f j :
  0 ≤ pos → 0 ≤ j → b !! Z.to_nat (pos `div` 64) = Some w →
  member (<[Z.to_nat (pos `div` 64) := f w]> b) j =
    if decide (j `div` 64 = pos `div` 64) then Z.testbit (f w) (j `mod` 64) else member b j.
Proof.
  intros Hpos Hj Hw. unfold member. case_decide as Hd.
  - rewrite Hd, list_lookup_insert_eq; [done|]. by eapply lookup_lt_Some.
  - rewrite list_lookup_insert_ne; [done|].
    pose proof (Z.div_pos pos 64). pose proof (Z.div_pos j 64). lia.
Qed.

Lemma capacity_insert b i (w : Z) : capacity (<[i := w]> b) = capacity b.
Proof. unfold capacity, go_len. by rewrite length_insert. Qed.

Lemma word_bound w : 0 ≤ w → (∀ i, 64 ≤ i → Z.testbit w i = false) → w < 2 ^ 64.
Proof.
  intros Hw Hbits. destruct (decide (w = 0)) as [->|]; [done|].
  apply Z.log2_lt_pow2; [lia|].
  destruct (decide (Z.log2 w < 64)); [done|].
  specialize (Hbits (Z.log2 w) ltac:(lia)). rewrite Z.bit_log2 in Hbits by lia. done.
Qed.

Lemma word_high w i : 0 ≤ w < 2 ^ 64 → 64 ≤ i → Z.testbit w i = false.
Proof.
  intros [? ?] Hi. destruct (decide (w = 0)) as [->|]; [apply Z.bits_0|].
  apply Z.bits_above_log2; [lia|]. apply Z.lt_le_trans with 64; [|done].
  apply Z.log2_lt_pow2; lia.
Qed.

Lemma testbit_one n i : 0 ≤ n → 0 ≤ i → Z.testbit (Z.shiftl 1 n) i = bool_decide (i = n).
Proof.
  intros Hn Hi. rewrite Z.shiftl_1_l, Z.pow2_bits_eqb by lia.
  destruct (Z.eqb_spec n i); [by rewrite bool_decide_eq_true_2|].
  by rewrite bool_decide_eq_false_2.
Qed.

Lemma words_update b i w : words b → 0 ≤ w < 2 ^ 64 → words (<[i := w]> b).
Proof. intros Hb Hw. by apply Forall_insert. Qed.

Lemma words_lookup b i w : words b → b !! i = Some w → 0 ≤ w < 2 ^ 64.
Proof. intros Hb Hw. exact (Forall_lookup_1 _ _ _ _ Hb Hw). Qed.

(** What one update of the bit [pos] to [v] gives. *)
Definition updated (b b' : bitset) (pos : Z) (v : bool) : Prop :=
  length b' = length b ∧ words b' ∧
  ∀ j, 0 ≤ j → member b' j = if decide (j = pos) then v else member b j.

Lemma updated_word b pos (f : Z → Z) v w :
  0 ≤ pos < capacity b → words b → b !! Z.to_nat (pos `div` 64) = Some w →
  0 ≤ f w →
  (∀ i, 0 ≤ i → Z.testbit (f w) i =
        if decide (i = pos `mod` 64) then v else Z.testbit w i) →
  updated b (<[Z.to_nat (pos `div` 64) := f w]> b) pos v.
Proof.
  intros Hpos Hb Hw Hf Hbit. destruct (index_bounds _ _ Hpos) as [Hd Hm].
  pose proof (words_lookup _ _ _ Hb Hw) as Hwb.
  split; [by rewrite length_insert|]. split.
  - apply words_update; [done|]. split; [done|]. apply word_bound; [done|].
    intros i Hi. rewrite Hbit by lia. rewrite decide_False by lia. by apply word_high.
  - intros j Hj. rewrite (member_update b pos w f j) by (done || lia).
    pose proof (Z.mod_pos_bound j 64). case_decide as Hjd.
    + rewrite Hbit by lia. destruct (decide (j = pos)) as [->|Hne].
      * by rewrite decide_True.
      * rewrite decide_False by (intros ?; apply Hne; by apply index_inj).
        unfold member. by rewrite Hjd, Hw.
    + rewrite decide_False; [done|]. by intros ->.
Qed.

Lemma set_updated b pos :
  0 ≤ pos < capacity b → words b → ∃ b', set b pos = Ok b' ∧ updated b b' pos true.
Proof.
  intros Hpos Hb. destruct (index_bounds _ _ Hpos) as [_ Hm].
  destruct (update_word b pos (λ w, Z.lor w (Z.shiftl 1 (pos `mod` 64))) Hpos)
    as (w & Hw & Hset).
  eexists; split; [exact Hset|].
  pose proof (words_lookup _ _ _ Hb Hw).
  apply (updated_word b pos (λ w, Z.lor w _) true w); [done..| |].
  - apply Z.lor_nonneg. split; [lia|]. apply Z.shiftl_nonneg. lia.
  - intros i Hi. rewrite Z.lor_spec, testbit_one by lia.
    case_decide; [by rewrite bool_decide_eq_true_2, orb_true_r|].
    by rewrite bool_decide_eq_false_2, orb_false_r.
Qed.

Lemma clear_updated b pos :
  0 ≤ pos < capacity b → words b → ∃ b', clear b pos = Ok b' ∧ updated b b' pos false.
Proof.
  intros Hpos Hb. destruct (index_bounds _ _ Hpos) as [_ Hm].
  destruct (update_word b pos (λ w, Z.ldiff w (Z.shiftl 1 (pos `mod` 64))) Hpos)
    as (w & Hw & Hset).
  eexists; split; [exact Hset|].
  pose proof (words_lookup _ _ _ Hb Hw).
  apply (updated_word b pos (λ w, Z.ldiff w _) false w); [done..| |].
  - apply Z.ldiff_nonneg. lia.
  - intros i Hi. rewrite Z.ldiff_spec, testbit_one by lia.
    case_decide; [by rewrite bool_decide_eq_true_2, andb_false_r|].
    by rewrite bool_decide_eq_false_2, andb_true_r.
Qed.

Lemma get_member b pos : 0 ≤ pos < capacity b → get b pos = Ok (member b pos).
Proof.
  intros Hpos. destruct (index_bounds _ _ Hpos) as [Hd Hm].
  destruct (go_index_in_range _ _ Hd) as [w Hw].
  unfold get, member; cbn. rewrite Hw; cbn. apply go_index_Ok in Hw as [_ ->].
  f_equal. destruct (Z.testbit w (pos `mod` 64)) eqn:Hbit.
  - apply bool_decide_eq_true_2. intros Hz.
    assert (Z.testbit (Z.land w (Z.shiftl 1 (pos `mod` 64))) (pos `mod` 64) = true) as Ht.
    { rewrite Z.land_spec, Hbit, testbit_one by lia. by rewrite bool_decide_eq_true_2. }
    by rewrite Hz, Z.bits_0 in Ht.
  - apply bool_decide_eq_false_2. intros Hnz. apply Hnz. apply Z.bits_inj'. intros i Hi.
    rewrite Z.land_spec, testbit_one, Z.bits_0 by lia. case_bool_decide as Hb; [|by rewrite andb_false_r].
    by rewrite Hb, Hbit.
Qed.

(** Out of range, every access of a bit set panics. *)
Theorem access_out_of_range b pos :
  capacity b ≤ pos → set b pos = Panic ∧ clear b pos = Panic ∧ get b pos = Panic.
Proof.
  intros Hpos. assert (go_index b (pos `div` 64) = Panic) as Hp.
  { apply go_index_Panic. right. unfold capacity in *. pose proof (go_len_nonneg b).
    Z.to_euclidean_division_equations; lia. }
  unfold set, clear, get; cbn. by rewrite Hp.
Qed.

(** ** New sets *)
Lemma newBitset_chunks bits :
  0 ≤ bits → bits ≤ capacity (newBitset bits) < bits + 64.
Proof.
  intros Hb. unfold capacity, newBitset, go_len. rewrite length_replicate.
  pose proof (Z.div_pos bits 64). case_decide; rewrite ?Z2Nat.id by lia;
  Z.to_euclidean_division_equations; lia.
Qed.

Lemma newBitset_words bits : words (newBitset bits).
Proof. apply Forall_replicate. lia. Qed.

Lemma newBitset_member bits j : member (newBitset bits) j = false.
Proof.
  unfold member, newBitset. destruct (replicate _ _ !! _) eqn:Hl; [|done].
  apply lookup_replicate in Hl as [-> _]. apply Z.bits_0.
Qed.

(** ** Equality and hashing *)
Lemma equals_eq b b2 : equals b b2 = true ↔ b = b2.
Proof.
  unfold equals. case_decide as Hlen; cbn.
  - split; [done|]. intros ->. by destruct Hlen.
  - assert (length b = length b2) as Hl by lia. clear Hlen. revert b2 Hl.
    induction b as [|v b IH]; intros [|v2 b2]; cbn; try done.
    intros [= Hl]. rewrite andb_true_iff, Z.eqb_eq, IH by done. naive_solver.
Qed.

Lemma member_words b b2 :
  length b = length b2 → words b → words b2 →
  (∀ j, 0 ≤ j < capacity b → member b j = member b2 j) → b = b2.
Proof.
  intros Hl Hb Hb2 Hm. apply list_eq_same_length with (length b); [done..|].
  intros i w w2 Hi Hw Hw2. apply Z.bits_inj'. intros n Hn.
  destruct (decide (n < 64)) as [Hlt|Hge].
  - specialize (Hm (64 * Z.of_nat i + n)). unfold member, capacity, go_len in Hm.
    assert ((64 * Z.of_nat i + n) `div` 64 = Z.of_nat i ∧ (64 * Z.of_nat i + n) `mod` 64 = n) as [Hq Hr]
      by (Z.to_euclidean_division_equations; lia).
    rewrite Hq, Hr, Nat2Z.id, Hw, Hw2 in Hm. apply Hm. lia.
  - rewrite !word_high; [done|..|lia]; [exact (words_lookup _ _ _ Hb2 Hw2)|lia|exact (words_lookup _ _ _ Hb Hw)].
Qed.

(** [equals] decides equality of the two sets. *)
Theorem equals_member b b2 :
  length b = length b2 → words b → words b2 →
  equals b b2 = true ↔ ∀ j, 0 ≤ j < capacity b → member b j = member b2 j.
Proof.
  intros Hl Hb Hb2. rewrite equals_eq. split; [by intros ->|by apply member_words].
Qed.

(** Equal sets fall in the same bucket of the cache. *)
Lemma equals_hash b b2 : equals b b2 = true → hash b = hash b2.
Proof. by intros ->%equals_eq. Qed.

(** ** Cardinality *)
Lemma popcnt_acc b n : foldl (λ total v, total + OnesCount64 v) n b = n + popcnt b.
Proof.
  unfold popcnt. revert n. induction b as [|v b IH]; intros n; cbn [foldl]; [lia|].
  rewrite IH, (IH (0 + OnesCount64 v)). lia.
Qed.

Lemma popcnt_cons v b : popcnt (v :: b) = OnesCount64 v + popcnt b.
Proof. unfold popcnt at 1; cbn [foldl]. rewrite popcnt_acc. lia. Qed.

Lemma filter_fmap_length {A B} (f : A → B) (P : B → Prop) (Q : A → Prop)
    `{!∀ x, Decision (P x), !∀ x, Decision (Q x)} (l : list A) :
  (∀ x, x ∈ l → P (f x) ↔ Q x) →
  length (filter P (f <$> l)) = length (filter Q l).
Proof.
  induction l as [|x l IH]; intros Hpq; [done|]. rewrite fmap_cons, !filter_cons.
  assert (P (f x) ↔ Q x) as Hx by (apply Hpq; left).
  do 2 case_decide; cbn; rewrite IH; try tauto; intros y Hy; apply Hpq; by right.
Qed.

Lemma seqZ_shift k m n : seqZ (k + m) n = Z.add k <$> seqZ m n.
Proof. by rewrite fmap_add_seqZ. Qed.

(** [popcnt] is the cardinality: it counts the positions in the set. *)
Theorem popcnt_members b :
  popcnt b = Z.of_nat (length (filter (λ j, member b j = true) (seqZ 0 (capacity b)))).
Proof.
  induction b as [|v b IH]; [done|]. rewrite popcnt_cons, IH. unfold OnesCount64.
  replace (capacity (v :: b)) with (64 + capacity b) by (unfold capacity, go_len; cbn; lia).
  rewrite seqZ_app, filter_app, length_app by (unfold capacity, go_len; lia).
  rewrite Nat2Z.inj_add. apply (f_equal2 Z.add); apply (f_equal Z.of_nat).
  - rewrite <-(list_fmap_id (seqZ 0 64)) at 2. symmetry. apply filter_fmap_length.
    intros j Hj%elem_of_seqZ. unfold member; cbn.
    assert (j `div` 64 = 0 ∧ j `mod` 64 = j) as [-> ->]; [|done].
    split; [apply Z.div_small|apply Z.mod_small]; lia.
  - replace (0 + 64) with (64 + 0) by lia. rewrite seqZ_shift. symmetry.
    apply filter_fmap_length. intros j Hj%elem_of_seqZ. unfold member.
    replace (64 + j) with (j + 1 * 64) by lia. rewrite Z.div_add, Z.mod_add by lia.
    rewrite Z2Nat.inj_add by (try apply Z.div_pos; lia).
    rewrite Nat.add_comm. done.
Qed.

(** A bit set refines a set of positions: in range, [get] is membership,
    [set] adds exactly its position and [clear] removes exactly it, the words
    staying 64 bits wide and the capacity the same; and [newBitset bits] is
    empty, with room for [bits] positions. *)
Theorem bitset_refines_set b pos bits :
  words b → 0 ≤ pos < capacity b → 0 ≤ bits →
  get b pos = Ok (member b pos) ∧
  (∃ b', set b pos = Ok b' ∧ updated b b' pos true) ∧
  (∃ b', clear b pos = Ok b' ∧ updated b b' pos false) ∧
  words (newBitset bits) ∧ bits ≤ capacity (newBitset bits) < bits + 64 ∧
  (∀ j, member (newBitset bits) j = false).
Proof.
  intros Hb Hpos Hbits. split_and!.
  - by apply get_member.
  - by apply set_updated.
  - by apply clear_updated.
  - apply newBitset_words.
  - by apply newBitset_chunks.
  - by apply newBitset_chunks.
  - apply newBitset_member.
Qed.

Lemma bitset_refines_set_witness :
  get [5; 0] 2 = Ok true ∧ ∃ b', set [5; 0] 2 = Ok b' ∧ updated [5; 0] b' 2 true.
Proof.
  assert (words [5; 0]) as Hw by (repeat constructor; done).
  destruct (bitset_refines_set [5; 0] 2 65 Hw) as (Hg & Hs & _); [by vm_compute|done|].
  split; [exact Hg|exact Hs].
Defined.

Lemma access_out_of_range_witness : 128 ≤ 128 ∧ set [5; 0] 128 = Panic.
Proof. split; [done|]. refine (proj1 (access_out_of_range [5; 0] 128 _)). by vm_compute. Defined.

Lemma equals_member_witness :
  equals [5] [4] = true ↔ ∀ j, 0 ≤ j < 64 → member [5] j = member [4] j.
Proof. apply (equals_member [5] [4]); [reflexivity|repeat constructor; done|repeat constructor; done]. Defined.

Arguments set : simpl never.
Arguments clear : simpl never.
Arguments get : simpl never.
Arguments clone : simpl never.
