(* ===== verification/PorcModel.v ===== *)
(** * porcupine: models, histories and entries
    (src/src/porcupine/model.go, and the first part of checker.go)

    A [Model] is generic in its states, inputs and outputs (the source's
    [interface{}]); a value of either kind is a [value], and reading it at the
    wrong kind is the failed type assertion of the source ([Panic]).
    [makeEntries] turns timed operations into the call and return entries the
    checker walks over; [linearizable] is the specification. *)
From S2P Require Import Prelude GoLib.
Local Open Scope Z_scope.

(** [EventKind] and [entryKind]: [false] for a call, [true] for a return. *)
Abbreviation callEntry := false (only parsing).
Abbreviation returnEntry := true (only parsing).

Section Model.
Context {State Input Output : Type}.

Record Operation := {
  op_ClientId : Z;
  op_Input : Input;
  op_Call : Z;
  op_Output : Output;
  op_Return : Z;
}.

Inductive value := VIn (i : Input) | VOut (o : Output).

Definition as_input (v : value) : outcome Input :=
  match v with VIn i => Ok i | VOut _ => Panic end.
Definition as_output (v : value) : outcome Output :=
  match v with VOut o => Ok o | VIn _ => Panic end.

Record Event := { ev_ClientId : Z; ev_Kind : bool; ev_Value : value; ev_Id : Z }.

Record Model := {
  Partition : option (list Operation → list (list Operation));
  PartitionEvent : option (list Event → list (list Event));
  Init : State;
  Step : State → Input → Output → bool * State;
  Equal : option (State → State → bool);
}.

Definition NoPartition (history : list Operation) : list (list Operation) := [history].
Definition NoPartitionEvent (history : list Event) : list (list Event) := [history].
Definition ShallowEqual `{EqDecision State} (state1 state2 : State) : bool :=
  bool_decide (state1 = state2).

Definition fillDefault `{EqDecision State} (model : Model) : Model := {|
  Partition := Some (default NoPartition (Partition model));
  PartitionEvent := Some (default NoPartitionEvent (PartitionEvent model));
  Init := Init model;
  Step := Step model;
  Equal := Some (default ShallowEqual (Equal model));
|}.

(** The functions of a model after [fillDefault]. *)
Definition model_partition (model : Model) := default NoPartition (Partition model).
Definition model_partition_event (model : Model) :=
  default NoPartitionEvent (PartitionEvent model).
Definition model_equal `{EqDecision State} (model : Model) :=
  default ShallowEqual (Equal model).

(** ** Entries *)
Record entry := {
  kind : bool;
  e_value : value;
  e_id : Z;
  e_time : Z;
  e_clientId : Z;
}.

(** [byTime.Less] *)
Definition byTime_Less (a b : entry) : bool :=
  if decide (e_time a ≠ e_time b) then bool_decide (e_time a < e_time b)
  else negb (kind a) && kind b.

(** The loop of [makeEntries], with [id] its counter. *)
Fixpoint operation_entries (id : Z) (history : list Operation) : list entry :=
  match history with
  | [] => []
  | elem :: rest =>
      {| kind := callEntry; e_value := VIn (op_Input elem); e_id := id;
         e_time := op_Call elem; e_clientId := op_ClientId elem |} ::
      {| kind := returnEntry; e_value := VOut (op_Output elem); e_id := id;
         e_time := op_Return elem; e_clientId := op_ClientId elem |} ::
      operation_entries (id + 1) rest
  end.

Definition makeEntries `{GoSort} (history : list Operation) : list entry :=
  go_sort byTime_Less (operation_entries 0 history).

(** [renumber]: ids by first occurrence. *)
Fixpoint renumber_from (m : gmap Z Z) (id : Z) (events : list Event) : list Event :=
  match events with
  | [] => []
  | v :: rest =>
      match m !! ev_Id v with
      | Some r =>
          {| ev_ClientId := ev_ClientId v; ev_Kind := ev_Kind v;
             ev_Value := ev_Value v; ev_Id := r |} :: renumber_from m id rest
      | None =>
          {| ev_ClientId := ev_ClientId v; ev_Kind := ev_Kind v;
             ev_Value := ev_Value v; ev_Id := id |}
          :: renumber_from (<[ev_Id v := id]> m) (id + 1) rest
      end
  end.

Definition renumber (events : list Event) : list Event := renumber_from ∅ 0 events.

Definition convertEntries (events : list Event) : list entry :=
  imap (λ i elem,
    {| kind := ev_Kind elem; e_value := ev_Value elem; e_id := ev_Id elem;
       e_time := Z.of_nat i; e_clientId := ev_ClientId elem |}) events.

(** ** Linearizability

    [ord] lists every operation of [history] once; an operation that returned
    before another was called comes first; and the model accepts the
    operations in that order, from its initial state. *)
Fixpoint legal (model : Model) (s : State) (ops : list Operation) : Prop :=
  match ops with
  | [] => True
  | o :: ops' =>
      (Step model s (op_Input o) (op_Output o)).1 = true ∧
      legal model (Step model s (op_Input o) (op_Output o)).2 ops'
  end.

Definition real_time (history : list Operation) : Prop :=
  ∀ i j a b, (i < j)%nat → history !! i = Some a → history !! j = Some b →
    ¬ op_Return b < op_Call a.

Definition linearizable (model : Model) (history : list Operation) : Prop :=
  ∃ ord, ord ≡ₚ history ∧ real_time ord ∧ legal model (Init model) ord.

(** Every operation returns no earlier than it is called. *)
Definition timed (history : list Operation) : Prop :=
  Forall (λ o, op_Call o ≤ op_Return o) history.
Lemma real_time_cons (o : Operation) l :
  real_time (o :: l) ↔ (∀ b, b ∈ l → ¬ op_Return b < op_Call o) ∧ real_time l.
Proof.
  split.
  - intros Hr. split.
    + intros b [j Hj]%list_elem_of_lookup. by apply (Hr 0%nat (S j) o b); [lia|..].
    + intros i j a b Hij Ha Hb. by apply (Hr (S i) (S j) a b); [lia|..].
  - intros [Ho Hl] [|i] [|j] a b Hij Ha Hb; try lia; cbn in *; simplify_eq.
    + apply Ho. by eapply list_elem_of_lookup_2.
    + by apply (Hl i j a b); [lia|..].
Qed.

End Model.
Arguments Operation : clear implicits.
Arguments Event : clear implicits.
Arguments Model : clear implicits.
Arguments entry : clear implicits.
Arguments value : clear implicits.
