(* ===== verification/PorcList.v ===== *)
(** * porcupine: the linked list of entries (src/src/porcupine/checker.go)

    A [node] lives in a heap and is reached by pointers, [nil] being [None];
    [insertBefore], [makeLinkedEntries], [lift] and [unlift] mutate it as the
    source does.  [dseg] says that a run of nodes is doubly linked; [lift]
    takes a call and its return out of the list, and [unlift] puts the heap
    back exactly as it was. *)
From S2P Require Import Prelude GoLib PorcModel.
Local Open Scope Z_scope.

Abbreviation ptr := nat (only parsing).

Section List.
Context {Input Output : Type}.
Local Abbreviation value := (value Input Output).
Local Abbreviation entry := (entry Input Output).

Record node := {
  n_value : option value;
  n_match : option ptr;  (* call if match is nil, otherwise return *)
  n_id : Z;
  n_next : option ptr;
  n_prev : option ptr;
}.

(** The heap of nodes; [fresh] is the next unused address. *)
Record heap := { cells : gmap ptr node; fresh : ptr }.

Definition empty_heap : heap := {| cells := ∅; fresh := 0%nat |}.

Definition alloc (nd : node) (h : heap) : heap * ptr :=
  ({| cells := <[fresh h := nd]> (cells h); fresh := S (fresh h) |}, fresh h).

(** Dereferencing [nil] panics. *)
Definition deref (p : option ptr) : outcome ptr :=
  match p with Some x => Ok x | None => Panic end.

Definition load (h : heap) (p : option ptr) : outcome node :=
  x ← deref p;
  match cells h !! x with Some nd => Ok nd | None => Panic end.

Definition upd (f : node → node) (p : option ptr) (h : heap) : outcome heap :=
  x ← deref p;
  match cells h !! x with
  | Some nd => Ok {| cells := <[x := f nd]> (cells h); fresh := fresh h |}
  | None => Panic
  end.

Definition with_next (q : option ptr) (nd : node) : node :=
  {| n_value := n_value nd; n_match := n_match nd; n_id := n_id nd;
     n_next := q; n_prev := n_prev nd |}.
Definition with_prev (q : option ptr) (nd : node) : node :=
  {| n_value := n_value nd; n_match := n_match nd; n_id := n_id nd;
     n_next := n_next nd; n_prev := q |}.

(** [p.next = q] and [p.prev = q] *)
Definition set_next (p q : option ptr) (h : heap) : outcome heap := upd (with_next q) p h.
Definition set_prev (p q : option ptr) (h : heap) : outcome heap := upd (with_prev q) p h.

Arguments set_next : simpl never.
Arguments set_prev : simpl never.
Arguments load : simpl never.

Definition insertBefore (n : ptr) (mark : option ptr) (h : heap) : outcome heap :=
  match mark with
  | None => Ok h
  | Some _ =>
      m ← load h mark;
      let beforeMark := n_prev m in
      h ← set_prev mark (Some n) h;
      h ← set_next (Some n) mark h;
      match beforeMark with
      | None => mret h
      | Some _ =>
          h ← set_prev (Some n) beforeMark h;
          set_next beforeMark (Some n) h
      end
  end.

(** [length]; [fuel] bounds the walk, which may not end on a cyclic list. *)
Fixpoint list_length (fuel : nat) (h : heap) (n : option ptr) : outcome (option Z) :=
  match n with
  | None => Ok (Some 0)
  | Some _ =>
      match fuel with
      | O => Ok None
      | S fuel =>
          nd ← load h n;
          l ← list_length fuel h (n_next nd);
          Ok (option_map (Z.add 1) l)
      end
  end.

(** The loop of [makeLinkedEntries] runs from the last entry to the first. *)
Fixpoint makeLinkedEntries_from (entries : list entry) (h : heap)
    : outcome (heap * option ptr * gmap Z ptr) :=
  match entries with
  | [] => Ok (h, None, ∅)
  | elem :: rest =>
      '(h, root, mtch) ← makeLinkedEntries_from rest h;
      if kind elem then
        let '(h, entry) := alloc {| n_value := Some (e_value elem); n_match := None;
                                    n_id := e_id elem; n_next := None; n_prev := None |} h in
        h ← insertBefore entry root h;
        mret (h, Some entry, <[e_id elem := entry]> mtch)
      else
        let '(h, entry) := alloc {| n_value := Some (e_value elem);
                                    n_match := mtch !! e_id elem;
                                    n_id := e_id elem; n_next := None; n_prev := None |} h in
        h ← insertBefore entry root h;
        mret (h, Some entry, mtch)
  end.

Definition makeLinkedEntries (entries : list entry) : outcome (heap * option ptr) :=
  '(h, root, _) ← makeLinkedEntries_from entries empty_heap; mret (h, root).

Definition lift (entry : option ptr) (h : heap) : outcome heap :=
  e ← load h entry;
  h ← set_next (n_prev e) (n_next e) h;
  e ← load h entry;
  h ← set_prev (n_next e) (n_prev e) h;
  e ← load h entry;
  let mtch := n_match e in
  m ← load h mtch;
  h ← set_next (n_prev m) (n_next m) h;
  m ← load h mtch;
  match n_next m with
  | None => mret h
  | Some _ => set_prev (n_next m) (n_prev m) h
  end.

Definition unlift (entry : option ptr) (h : heap) : outcome heap :=
  e ← load h entry;
  let mtch := n_match e in
  m ← load h mtch;
  h ← set_next (n_prev m) mtch h;
  m ← load h mtch;
  h ← (match n_next m with
       | None => mret h
       | Some _ => set_prev (n_next m) mtch h
       end);
  e ← load h entry;
  h ← set_next (n_prev e) entry h;
  e ← load h entry;
  set_prev (n_next e) entry h.

(** ** Doubly linked segments

    [dseg c p l q]: the nodes [l] are linked in order; the first has
    predecessor [p] and the last has successor [q]. *)
Fixpoint dseg (c : gmap ptr node) (p : option ptr) (l : list ptr) (q : option ptr) : Prop :=
  match l with
  | [] => True
  | x :: l' =>
      ∃ nd, c !! x = Some nd ∧ n_prev nd = p ∧
            n_next nd = default q (Some <$> head l') ∧ dseg c (Some x) l' q
  end.

(** What [lift] and [unlift] never change. *)
Definition payload (nd : node) : option value * option ptr * Z :=
  (n_value nd, n_match nd, n_id nd).

Definition same_payload (c c' : gmap ptr node) : Prop :=
  ∀ x, payload <$> c !! x = payload <$> c' !! x.

#[export] Instance same_payload_equiv : Equivalence same_payload.
Proof.
  split; unfold same_payload; [done|intros c c' Hc x; by rewrite Hc|].
  intros c1 c2 c3 H1 H2 x. by rewrite H1.
Qed.

Lemma dseg_app c p l1 l2 q :
  dseg c p (l1 ++ l2) q ↔
  dseg c p l1 (default q (Some <$> head l2)) ∧
  dseg c (default p (Some <$> last l1)) l2 q.
Proof.
  revert p. induction l1 as [|x l1 IH]; intros p; cbn [app dseg].
  - cbn. tauto.
  - assert (default p (Some <$> last (x :: l1)) = default (Some x) (Some <$> last l1)) as ->.
    { rewrite last_cons. by destruct (last l1). }
    assert (default q (Some <$> head (l1 ++ l2))
            = default (default q (Some <$> head l2)) (Some <$> head l1)) as ->.
    { by destruct l1. }
    setoid_rewrite IH. naive_solver.
Qed.

Lemma dseg_frame c c' p l q :
  (∀ x, x ∈ l → c' !! x = c !! x) → dseg c p l q → dseg c' p l q.
Proof.
  revert p. induction l as [|x l IH]; intros p Hfr; [done|].
  intros (nd & Hx & Hp & Hn & Hl). exists nd. split_and!; [|done..|].
  - rewrite Hfr; [done|left].
  - apply IH; [|done]. intros y Hy. apply Hfr. by right.
Qed.

Lemma dseg_cell c p l q x : dseg c p l q → x ∈ l → is_Some (c !! x).
Proof.
  revert p. induction l as [|y l IH]; intros p Hd Hx; [by apply not_elem_of_nil in Hx|].
  destruct Hd as (nd & Hy & _ & _ & Hl).
  apply elem_of_cons in Hx as [->|Hx]; eauto.
Qed.

(** ** Unlinking one node *)
Definition relink_next (a : ptr) (q : option ptr) (c : gmap ptr node) : gmap ptr node :=
  alter (with_next q) a c.
Definition relink_prev (ob : option ptr) (q : option ptr) (c : gmap ptr node) : gmap ptr node :=
  match ob with Some b => alter (with_prev q) b c | None => c end.

(** [a] and [ob] are the neighbours of the node that goes, or comes back. *)
Definition unlink (a : ptr) (ob : option ptr) (c : gmap ptr node) : gmap ptr node :=
  relink_prev ob (Some a) (relink_next a ob c).
Definition link (a x : ptr) (ob : option ptr) (c : gmap ptr node) : gmap ptr node :=
  relink_prev ob (Some x) (relink_next a (Some x) c).

Arguments relink_next : simpl never.
Arguments unlink : simpl never.
Arguments link : simpl never.

Definition with_cells (h : heap) (c : gmap ptr node) : heap :=
  {| cells := c; fresh := fresh h |}.

Lemma load_Ok h x nd : cells h !! x = Some nd → load h (Some x) = Ok nd.
Proof. intros Hx. unfold load; cbn. by rewrite Hx. Qed.

Lemma set_next_Ok h a q :
  is_Some (cells h !! a) → set_next (Some a) q h = Ok (with_cells h (relink_next a q (cells h))).
Proof.
  intros [nd Hx]. unfold set_next, upd, with_cells, relink_next; cbn. rewrite Hx.
  do 2 f_equal. apply map_eq; intros y. rewrite lookup_alter, lookup_insert.
  case_decide; [by subst; rewrite Hx|done].
Qed.

Lemma set_prev_Ok h b q :
  is_Some (cells h !! b) →
  set_prev (Some b) q h = Ok (with_cells h (relink_prev (Some b) q (cells h))).
Proof.
  intros [nd Hx]. unfold set_prev, upd, with_cells, relink_prev; cbn. rewrite Hx.
  do 2 f_equal. apply map_eq; intros y. rewrite lookup_alter, lookup_insert.
  case_decide; [by subst; rewrite Hx|done].
Qed.

Lemma lookup_unlink a ob c y :
  unlink a ob c !! y =
    (if decide (ob = Some y) then with_prev (Some a) <$> (relink_next a ob c) !! y
     else (relink_next a ob c) !! y).
Proof.
  unfold unlink, relink_prev. destruct ob as [b|]; [|by rewrite decide_False].
  rewrite lookup_alter. repeat case_decide; congruence.
Qed.

Lemma lookup_relink_next a q c y :
  relink_next a q c !! y = if decide (a = y) then with_next q <$> c !! y else c !! y.
Proof. unfold relink_next. rewrite lookup_alter. by case_decide; subst. Qed.

Lemma lookup_unlink_ne a ob c y : a ≠ y → ob ≠ Some y → unlink a ob c !! y = c !! y.
Proof.
  intros Ha Hb. by rewrite lookup_unlink, decide_False, lookup_relink_next, decide_False.
Qed.

Lemma lookup_unlink_a a ob c : ob ≠ Some a → unlink a ob c !! a = with_next ob <$> c !! a.
Proof.
  intros Hb. rewrite lookup_unlink, decide_False by done.
  by rewrite lookup_relink_next, decide_True.
Qed.

Lemma lookup_unlink_b a b c : a ≠ b → unlink a (Some b) c !! b = with_prev (Some a) <$> c !! b.
Proof.
  intros Hab. rewrite lookup_unlink, decide_True by done.
  by rewrite lookup_relink_next, decide_False.
Qed.

Lemma lookup_link a x ob c y :
  ob ≠ Some a →
  link a x ob c !! y =
    (if decide (ob = Some y) then with_prev (Some x) <$> c !! y
     else if decide (a = y) then with_next (Some x) <$> c !! y else c !! y).
Proof.
  intros Hb. unfold link, relink_prev. destruct ob as [b|].
  - rewrite lookup_alter, !lookup_relink_next. repeat case_decide; congruence.
  - by rewrite lookup_relink_next.
Qed.

Lemma payload_unlink a ob c : same_payload c (unlink a ob c).
Proof.
  intros y. rewrite lookup_unlink, lookup_relink_next.
  repeat case_decide; by destruct (c !! y).
Qed.

Lemma same_payload_is_Some c c' x : same_payload c c' → is_Some (c !! x) → is_Some (c' !! x).
Proof.
  intros Hp [nd Hx]. specialize (Hp x). rewrite Hx in Hp. by destruct (c' !! x).
Qed.

Lemma is_Some_unlink a ob c y : is_Some (c !! y) → is_Some (unlink a ob c !! y).
Proof. apply same_payload_is_Some, payload_unlink. Qed.

Lemma dseg_unlink c p l1 a x l2 :
  NoDup (l1 ++ a :: x :: l2) →
  dseg c p (l1 ++ a :: x :: l2) None →
  dseg (unlink a (head l2) c) p (l1 ++ a :: l2) None.
Proof.
  intros (Hnd1 & Hdisj & Hnd2)%NoDup_app [H1 H2]%dseg_app. cbn in H2.
  apply NoDup_cons in Hnd2 as [Ha Hnd2]. apply NoDup_cons in Hnd2 as [Hx Hnd2].
  destruct H2 as (na & Hna & Hpa & _ & nx & Hnx & _ & Hqx & H2).
  apply dseg_app; split.
  - eapply dseg_frame; [|exact H1]. intros y Hy. apply lookup_unlink_ne.
    + intros ->. apply (Hdisj y Hy). left.
    + intros Hb. apply (Hdisj y Hy). do 2 right. apply head_Some_elem_of in Hb. done.
  - cbn [dseg]. exists (with_next (head l2) na). split_and!; [|done| |].
    + rewrite lookup_unlink_a, Hna; [done|]. intros Hb%head_Some_elem_of; set_solver.
    + cbn. by destruct l2.
    + destruct l2 as [|b l2]; [done|]. destruct H2 as (nb & Hnb & _ & Hqb & H2).
      apply NoDup_cons in Hnd2 as [Hb Hnd2].
      exists (with_prev (Some a) nb). split_and!; [|done|done|].
      * cbn. by rewrite lookup_unlink_b, Hnb by set_solver.
      * eapply dseg_frame; [|exact H2]. intros y Hy. apply lookup_unlink_ne; cbn; set_solver.
Qed.

(** Putting an unlinked node back restores the heap. *)
Lemma link_unlink c p l1 a x l2 :
  NoDup (l1 ++ a :: x :: l2) →
  dseg c p (l1 ++ a :: x :: l2) None →
  link a x (head l2) (unlink a (head l2) c) = c.
Proof.
  intros (_ & _ & Hnd)%NoDup_app [_ H2]%dseg_app. cbn in H2.
  apply NoDup_cons in Hnd as [Ha _].
  destruct H2 as (na & Hna & _ & Hqa & nx & Hnx & _ & _ & H2).
  assert (head l2 ≠ Some a) as Hb by (intros Hb%head_Some_elem_of; set_solver).
  apply map_eq. intros y. rewrite lookup_link by done.
  case_decide as Hy; [|case_decide as Hay].
  - destruct l2 as [|b l2]; [done|]. injection Hy as <-.
    destruct H2 as (nb & Hnb & Hpb & _).
    rewrite lookup_unlink_b, Hnb by set_solver. destruct nb; cbn in *. by subst.
  - subst y. rewrite lookup_unlink_a, Hna by done. destruct na; cbn in *. by subst.
  - by rewrite lookup_unlink_ne.
Qed.

(** ** [lift] and [unlift]

    [linked_at c a x ob nx]: the node [nx] at [x] sits between [a] and [ob],
    which are in the heap and differ from [x]. *)
Record linked_at (c : gmap ptr node) (a x : ptr) (ob : option ptr) (nx : node) : Prop := {
  la_node : c !! x = Some nx;
  la_prev : n_prev nx = Some a;
  la_next : n_next nx = ob;
  la_pred : is_Some (c !! a);
  la_succ : ∀ b, ob = Some b → is_Some (c !! b);
  la_ne_pred : a ≠ x;
  la_ne_succ : ob ≠ Some x;
  la_distinct : ob ≠ Some a;
}.

Lemma dseg_linked_at c p l1 a x l2 :
  NoDup (l1 ++ a :: x :: l2) →
  dseg c p (l1 ++ a :: x :: l2) None →
  ∃ nx, linked_at c a x (head l2) nx.
Proof.
  intros (_ & _ & Hnd)%NoDup_app [_ H]%dseg_app. cbn in H.
  destruct H as (na & Hna & _ & _ & nx & Hnx & Hp & Hq & H2).
  apply NoDup_cons in Hnd as [Ha Hnd]. apply NoDup_cons in Hnd as [Hx _].
  exists nx. split; [done|done|rewrite Hq; by destruct l2|by eexists| |set_solver| |].
  - intros b Hb. destruct l2 as [|b' l2]; [done|]. injection Hb as <-.
    destruct H2 as (nb & Hnb & _). eauto.
  - intros Hb%head_Some_elem_of. done.
  - intros Hb%head_Some_elem_of. set_solver.
Qed.

(** The second half of taking a node out: its successor's back pointer. *)
Definition set_succ (ob q : option ptr) (h : heap) : outcome heap :=
  match ob with None => mret h | Some _ => set_prev ob q h end.

Lemma unlink_steps h c a x ob nx :
  linked_at c a x ob nx →
  let h1 := with_cells h (relink_next a ob c) in
  set_next (n_prev nx) (n_next nx) (with_cells h c) = Ok h1 ∧
  load h1 (Some x) = Ok nx ∧
  set_succ (n_next nx) (n_prev nx) h1 = Ok (with_cells h (unlink a ob c)) ∧
  load (with_cells h (unlink a ob c)) (Some x) = Ok nx.
Proof.
  intros [Hx Hp Hq Ha Hb Hne Hne' Hd] h1; subst h1. rewrite Hp, Hq. split_and!.
  - by rewrite set_next_Ok.
  - apply load_Ok; cbn. by rewrite lookup_relink_next, decide_False.
  - destruct ob as [b|]; cbn; [|done]. rewrite set_prev_Ok; [done|]. cbn.
    rewrite lookup_relink_next, decide_False by congruence. eauto.
  - apply load_Ok; cbn. by rewrite lookup_unlink_ne.
Qed.

Lemma link_steps h c a x ob nx :
  linked_at c a x ob nx →
  let h1 := with_cells h (relink_next a (Some x) c) in
  set_next (n_prev nx) (Some x) (with_cells h c) = Ok h1 ∧
  load h1 (Some x) = Ok nx ∧
  set_succ (n_next nx) (Some x) h1 = Ok (with_cells h (link a x ob c)).
Proof.
  intros [Hx Hp Hq Ha Hb Hne Hne' Hd] h1; subst h1. rewrite Hp, Hq. split_and!.
  - by rewrite set_next_Ok.
  - apply load_Ok; cbn. by rewrite lookup_relink_next, decide_False.
  - destruct ob as [b|]; cbn; [|done]. rewrite set_prev_Ok; [done|]. cbn.
    rewrite lookup_relink_next, decide_False by congruence. eauto.
Qed.

(** [linked_at] survives in the heap without the node. *)
Lemma linked_at_unlink c a x ob nx a' ob' :
  linked_at c a x ob nx → a' ≠ x → ob' ≠ Some x →
  linked_at (unlink a' ob' c) a x ob nx.
Proof.
  intros [Hx Hp Hq Ha Hb Hne Hne' Hd] Ha' Hob'.
  split; auto using is_Some_unlink. by rewrite lookup_unlink_ne.
Qed.

Lemma linked_at_link c a x ob nx a' x' ob' :
  linked_at c a x ob nx → a' ≠ x → ob' ≠ Some x → ob' ≠ Some a' →
  linked_at (link a' x' ob' c) a x ob nx.
Proof.
  intros [Hx Hp Hq Ha Hb Hne Hne' Hd] Ha' Hob' Hd'.
  assert (∀ y, is_Some (c !! y) → is_Some (link a' x' ob' c !! y)) as Hsome.
  { intros y [ny Hy]. rewrite lookup_link by done. rewrite Hy. repeat case_decide; eauto. }
  split; auto. rewrite lookup_link by done. by rewrite !decide_False.
Qed.

Lemma lift_eval h c a e b ne a' m ob nm :
  linked_at c a e (Some b) ne → n_match ne = Some m →
  linked_at (unlink a (Some b) c) a' m ob nm →
  lift (Some e) (with_cells h c) =
    Ok (with_cells h (unlink a' ob (unlink a (Some b) c))).
Proof.
  intros He Hm Hnm. unfold lift.
  destruct (unlink_steps h _ _ _ _ _ He) as (E1 & E2 & E3 & E4).
  destruct (unlink_steps h _ _ _ _ _ Hnm) as (M1 & M2 & M3 & _).
  rewrite (load_Ok (with_cells h c) e ne) by apply He; cbn.
  rewrite E1; cbn. rewrite E2; cbn.
  rewrite (la_next _ _ _ _ _ He) in *; cbn in E3. rewrite E3; cbn.
  rewrite E4; cbn. rewrite Hm.
  rewrite (load_Ok _ m nm) by apply Hnm; cbn. rewrite M1; cbn. rewrite M2; cbn.
  exact M3.
Qed.

Lemma unlift_eval h c a e b ne a' m ob nm :
  linked_at c a' m ob nm → n_match ne = Some m → c !! e = Some ne →
  linked_at (link a' m ob c) a e (Some b) ne →
  unlift (Some e) (with_cells h c) =
    Ok (with_cells h (link a e (Some b) (link a' m ob c))).
Proof.
  intros Hnm Hm Hc He. unfold unlift.
  destruct (link_steps h _ _ _ _ _ Hnm) as (M1 & M2 & M3).
  destruct (link_steps h _ _ _ _ _ He) as (E1 & E2 & E3).
  rewrite (load_Ok (with_cells h c) e ne) by done; cbn. rewrite Hm.
  rewrite (load_Ok _ m nm) by apply Hnm; cbn. rewrite M1; cbn. rewrite M2; cbn.
  unfold set_succ in M3. rewrite M3; cbn.
  rewrite (load_Ok _ e ne) by apply He; cbn. rewrite E1; cbn. rewrite E2; cbn.
  rewrite (la_next _ _ _ _ _ He) in *. exact E3.
Qed.

(** Taking the call [e] and its return [m] out of a list, and back. *)
Lemma lift_unlift h l1 a e l2 m l3 ne :
  NoDup (l1 ++ a :: e :: l2 ++ m :: l3) →
  dseg (cells h) None (l1 ++ a :: e :: l2 ++ m :: l3) None →
  cells h !! e = Some ne → n_match ne = Some m →
  ∃ h', lift (Some e) h = Ok h' ∧
    dseg (cells h') None (l1 ++ a :: l2 ++ l3) None ∧
    same_payload (cells h) (cells h') ∧ fresh h' = fresh h ∧
    unlift (Some e) h' = Ok h.
Proof.
  intros Hnd Hd He Hm. destruct h as [c fr]. cbn [cells] in *.
  change {| cells := c; fresh := fr |} with (with_cells {| cells := c; fresh := fr |} c).
  set (r := l2 ++ m :: l3) in *.
  assert (∃ b, head r = Some b) as [b Hb] by (destruct l2; cbn; eauto).
  destruct (dseg_linked_at _ _ _ _ _ _ Hnd Hd) as [ne' Hle].
  assert (ne' = ne) as -> by (apply (inj Some); rewrite <-He; symmetry; apply Hle).
  pose proof (dseg_unlink _ _ _ _ _ _ Hnd Hd) as Hd1.
  pose proof (link_unlink _ _ _ _ _ _ Hnd Hd) as Hback1.
  rewrite Hb in *. set (c1 := unlink a (Some b) c) in *.
  assert (NoDup (l1 ++ a :: r)) as Hnd1.
  { eapply sublist_NoDup; [exact Hnd|]. apply sublist_app; [done|].
    apply sublist_skip, sublist_cons. done. }
  assert (∃ l0 a', l1 ++ a :: l2 = l0 ++ [a']) as (l0 & a' & Hl0).
  { destruct (exists_last (l := l1 ++ a :: l2)) as (l0 & a' & ->); [by destruct l1|eauto]. }
  assert (∀ k, l1 ++ a :: l2 ++ k = l0 ++ a' :: k) as Hsplit.
  { intros k. change (a :: l2 ++ k) with ((a :: l2) ++ k).
    by rewrite (assoc_L (++)), Hl0, <-(assoc_L (++)). }
  unfold r in Hd1, Hnd1. rewrite (Hsplit (m :: l3)) in Hd1, Hnd1. rewrite (Hsplit l3).
  destruct (dseg_linked_at _ _ _ _ _ _ Hnd1 Hd1) as [nm Hlm].
  pose proof (dseg_unlink _ _ _ _ _ _ Hnd1 Hd1) as Hd2.
  pose proof (link_unlink _ _ _ _ _ _ Hnd1 Hd1) as Hback2.
  assert (e ∉ l0 ++ a' :: m :: l3) as Hein.
  { rewrite <-Hsplit. fold r. intros Hin. apply NoDup_app in Hnd as (_ & Hx & Hnd).
    apply NoDup_cons in Hnd as [Hae Hnd]. apply NoDup_cons in Hnd as [Her _].
    apply elem_of_app in Hin as [Hin|Hin]; [apply (Hx _ Hin)|]; set_solver. }
  assert (head l3 ≠ Some e) by (intros ?%head_Some_elem_of; set_solver).
  exists (with_cells {| cells := c; fresh := fr |} (unlink a' (head l3) c1)). split_and!.
  - by eapply lift_eval.
  - done.
  - cbn. etrans; apply payload_unlink.
  - done.
  - erewrite unlift_eval; [by rewrite Hback2, Hback1| | | |].
    + apply linked_at_unlink; [done|apply Hlm|apply Hlm].
    + done.
    + rewrite lookup_unlink_ne by set_solver. subst c1.
      rewrite lookup_unlink_ne by apply Hle. done.
    + rewrite Hback2. apply linked_at_unlink; [done|apply Hle|apply Hle].
Qed.

(** C38. Lifting a call [e] whose return is [m] out of a doubly linked list takes
    exactly these two nodes out, whatever is between and behind them, and
    [unlift] then restores the heap exactly as it was. *)
Theorem unlift_undoes_lift h l1 a e l2 m l3 ne :
  NoDup (l1 ++ a :: e :: l2 ++ m :: l3) →
  dseg (cells h) None (l1 ++ a :: e :: l2 ++ m :: l3) None →
  cells h !! e = Some ne → n_match ne = Some m →
  ∃ h', lift (Some e) h = Ok h' ∧
    dseg (cells h') None (l1 ++ a :: l2 ++ l3) None ∧
    same_payload (cells h) (cells h') ∧ fresh h' = fresh h ∧
    unlift (Some e) h' = Ok h.
Proof. apply lift_unlift. Qed.

(** ** Building the list

    The entries are allocated from the last one, at addresses [0], [1], ...;
    the list is therefore [locs n], in decreasing order. *)
Fixpoint locs (n : nat) : list ptr :=
  match n with O => [] | S n => n :: locs n end.

Lemma elem_of_locs n x : x ∈ locs n ↔ (x < n)%nat.
Proof.
  induction n as [|n IH]; cbn; [by rewrite elem_of_nil; lia|].
  rewrite elem_of_cons, IH. lia.
Qed.

Lemma NoDup_locs n : NoDup (locs n).
Proof. induction n; cbn; constructor; [rewrite elem_of_locs; lia|done]. Qed.

(** A heap whose used cells are exactly those of the list [locs n]. *)
Record list_heap (h : heap) (n : nat) : Prop := {
  lh_fresh : fresh h = n;
  lh_dom x : is_Some (cells h !! x) ↔ (x < n)%nat;
  lh_dseg : dseg (cells h) None (locs n) None;
}.

Definition fresh_node (nd : node) : Prop := n_next nd = None ∧ n_prev nd = None.

(** Allocating a node and inserting it before the first one. *)
Lemma insert_front h n nd :
  list_heap h n → fresh_node nd →
  ∃ h', insertBefore n (head (locs n)) (alloc nd h).1 = Ok h' ∧
    (alloc nd h).2 = n ∧ list_heap h' (S n) ∧
    payload <$> cells h' !! n = Some (payload nd) ∧
    (∀ x, (x < n)%nat → payload <$> cells h' !! x = payload <$> cells h !! x).
Proof.
  intros [Hf Hdom Hd] [Hq Hp]. unfold alloc; cbn [fst snd]. rewrite Hf.
  assert (∀ x, is_Some (<[n:=nd]> (cells h) !! x) ↔ (x < S n)%nat) as Hdom'.
  { intros x. rewrite lookup_insert_is_Some, Hdom. lia. }
  destruct n as [|r]; cbn [locs head insertBefore].
  { eexists. split; [done|]. cbn [cells fresh]. rewrite lookup_insert_eq.
    split_and!; [done| |done|lia].
    split; [done|done|]. exists nd. cbn [cells]. by rewrite lookup_insert_eq. }
  cbn [locs] in Hd. destruct Hd as (nr & Hr & Hpr & Hqr & Hl).
  assert (<[S r:=nd]> (cells h) !! r = Some nr) as Hr' by (rewrite lookup_insert_ne; [done|lia]).
  rewrite (load_Ok _ r nr) by done; cbn [mbind outcome_bind]. rewrite Hpr.
  rewrite set_prev_Ok by (cbn; eauto); cbn [mbind outcome_bind].
  unfold with_cells, relink_prev; cbn [cells fresh].
  rewrite set_next_Ok; cbn [mbind outcome_bind cells];
    [|rewrite lookup_alter_ne, lookup_insert_eq by lia; eauto].
  eexists. split; [done|]. unfold with_cells, relink_next; cbn [cells fresh].
  set (c := alter (with_next (Some r)) (S r) (alter (with_prev (Some (S r))) r (<[S r:=nd]> (cells h)))).
  assert (∀ x, (x < r)%nat → c !! x = cells h !! x) as Hlt.
  { intros x Hx. subst c. by rewrite !lookup_alter_ne, lookup_insert_ne by lia. }
  assert (c !! r = Some (with_prev (Some (S r)) nr)) as Hcr.
  { subst c. by rewrite lookup_alter_ne, lookup_alter_eq, Hr' by lia. }
  assert (c !! S r = Some (with_next (Some r) nd)) as Hcn.
  { subst c. by rewrite lookup_alter_eq, lookup_alter_ne, lookup_insert_eq by lia. }
  split_and!; [done| | |].
  - split; [done| |].
    + intros x. subst c; cbn. by rewrite !lookup_alter_is_Some.
    + cbn. exists (with_next (Some r) nd). split_and!; [done|done|done|].
      exists (with_prev (Some (S r)) nr). split_and!; [done|done|done|].
      eapply dseg_frame; [|done]. intros x Hx%elem_of_locs. by apply Hlt.
  - cbn. rewrite Hcn. done.
  - cbn. intros x Hx. destruct (decide (x = r)) as [->|]; [by rewrite Hcr, Hr|].
    rewrite Hlt; [done|lia].
Qed.

(** The first return entry of [id], by address. *)
Fixpoint find_return (id : Z) (entries : list entry) : option ptr :=
  match entries with
  | [] => None
  | e :: rest =>
      if kind e && bool_decide (e_id e = id) then Some (length rest)
      else find_return id rest
  end.

(** The node built for [e], with [rest] the entries behind it. *)
Definition entry_payload (e : entry) (rest : list entry) : option value * option ptr * Z :=
  (Some (e_value e), if kind e then None else find_return (e_id e) rest, e_id e).

Lemma makeLinkedEntries_from_spec entries :
  ∃ h mtch,
    makeLinkedEntries_from entries empty_heap = Ok (h, head (locs (length entries)), mtch) ∧
    list_heap h (length entries) ∧
    (∀ id, mtch !! id = find_return id entries) ∧
    (∀ es1 e es2, entries = es1 ++ e :: es2 →
      payload <$> cells h !! length es2 = Some (entry_payload e es2)).
Proof.
  induction entries as [|e rest (h & mtch & IH & Hlh & Hm & Hpay)].
  { exists empty_heap, ∅. split_and!; [done| |done|by intros []].
    split; [done| |done]. intros x; cbn. rewrite lookup_empty, is_Some_alt. lia. }
  cbn [makeLinkedEntries_from]. rewrite IH; cbn [mbind outcome_bind].
  set (nd := {| n_value := Some (e_value e);
                n_match := if kind e then None else mtch !! e_id e;
                n_id := e_id e; n_next := None; n_prev := None |}).
  destruct (insert_front h _ nd Hlh) as (h' & Hins & Hal & Hlh' & Hnew & Hold); [done|].
  assert (∀ es1 e' es2, e :: rest = es1 ++ e' :: es2 →
    payload <$> cells h' !! length es2 = Some (entry_payload e' es2)) as Hpay'.
  { intros [|e1 es1] e' es2 Heq; injection Heq as <- Heq.
    - subst rest. rewrite Hnew. subst nd. unfold payload, entry_payload; cbn. by rewrite Hm.
    - rewrite Hold; [by eapply Hpay|]. rewrite Heq, length_app; cbn. lia. }
  exists h', (if kind e then <[e_id e := length rest]> mtch else mtch).
  split_and!; [|done| |done].
  - subst nd. unfold alloc in *. cbn [fst snd] in *. rewrite Hal in *.
    destruct (kind e); rewrite Hins; done.
  - intros id. cbn. destruct (kind e); cbn; [|done].
    rewrite lookup_insert. case_decide as Hid; case_bool_decide; congruence || apply Hm.
Qed.
End List.
Arguments node : clear implicits.
Arguments heap : clear implicits.
Arguments load : simpl never.
Arguments set_next : simpl never.
Arguments set_prev : simpl never.
Arguments lift : simpl never.
Arguments unlift : simpl never.
Arguments insertBefore : simpl never.

(** A list with a head, a call and its return. *)
Definition three_nodes : heap unit unit :=
  {| cells := {[ 0%nat := {| n_value := None; n_match := None; n_id := -1;
                             n_next := Some 1%nat; n_prev := None |};
                 1%nat := {| n_value := Some (VIn tt); n_match := Some 2%nat; n_id := 0;
                             n_next := Some 2%nat; n_prev := Some 0%nat |};
                 2%nat := {| n_value := Some (VOut tt); n_match := None; n_id := 0;
                             n_next := None; n_prev := Some 1%nat |} ]};
     fresh := 3 |}.

Lemma unlift_undoes_lift_witness :
  ∃ h', lift (Some 1%nat) three_nodes = Ok h' ∧ unlift (Some 1%nat) h' = Ok three_nodes.
Proof.
  destruct (unlift_undoes_lift three_nodes [] 0 1 [] 2 []
    {| n_value := Some (VIn tt); n_match := Some 2%nat; n_id := 0;
       n_next := Some 2%nat; n_prev := Some 0%nat |}) as (h' & H1 & _ & _ & _ & H2).
  - apply (bool_decide_unpack (NoDup [0; 1; 2]%nat)). by vm_compute.
  - cbn. repeat (eexists; split_and!; [by vm_compute|reflexivity|reflexivity|]). done.
  - reflexivity.
  - reflexivity.
  - exists h'. split; [exact H1|exact H2].
Defined.
