(* ===== verification/Checker.v ===== *)
(** * porcupine: the linearizability checker
    (src/src/porcupine/checker.go and porcupine.go)

    [checkSingle] is the source's loop as a small-step function on a
    [config]: the heap of nodes, the cursor [entry], the state, the bit set of
    linearized ids, the cache, the stack of calls and the longest partial
    linearizations.  [loop] iterates it with fuel; [killed i] is what
    [atomic.LoadInt32(kill)] reads at iteration [i].  The stack is kept with
    its top first. *)
From S2P Require Import Prelude GoLib Bitset PorcModel PorcList.
Local Open Scope Z_scope.

Section Checker.
Context {State Input Output : Type} `{EqDecision State}.
Context (model : Model State Input Output).
Local Abbreviation entry := (entry Input Output).
Local Abbreviation heap := (heap Input Output).
Local Abbreviation Operation := (Operation Input Output).
Local Abbreviation Event := (Event Input Output).

(** ** The cache *)
Record cacheEntry := { ce_linearized : bitset; ce_state : State }.

Definition cacheContains (cache : gmap Z (list cacheEntry)) (e : cacheEntry) : bool :=
  existsb (λ elem, equals (ce_linearized e) (ce_linearized elem)
                   && model_equal model (ce_state e) (ce_state elem))
    (map_get [] cache (hash (ce_linearized e))).

Definition cacheAdd (cache : gmap Z (list cacheEntry)) (e : cacheEntry)
    : gmap Z (list cacheEntry) :=
  let h := hash (ce_linearized e) in <[h := map_get [] cache h ++ [e]]> cache.

(** ** The search *)
Record callsEntry := { c_entry : ptr; c_state : State }.

(** A [*[]int]: the identity of the slice variable, and its contents. *)
Abbreviation longest_t := (list (option (nat * list Z))).

Record config := {
  cf_heap : heap;
  cf_head : ptr;
  cf_entry : option ptr;
  cf_state : State;
  cf_linearized : bitset;
  cf_cache : gmap Z (list cacheEntry);
  cf_calls : list callsEntry;
  cf_longest : longest_t;
  cf_nseq : nat;   (* slice variables allocated so far *)
}.

(** The interface values handed to [model.Step]. *)
Definition call_value (v : option (value Input Output)) : outcome Input :=
  match v with Some v => as_input v | None => Panic end.
Definition return_value (v : option (value Input Output)) : outcome Output :=
  match v with Some v => as_output v | None => Panic end.

(** The ids on the stack, oldest first. *)
Definition call_ids (h : heap) (calls : list callsEntry) : outcome (list Z) :=
  mapM (λ v, n_id <$> load h (Some (c_entry v))) (reverse calls).

(** One turn of [for _, v := range calls] over [longest]. *)
Definition longer (callsLen : Z) (l : option (nat * list Z)) : bool :=
  match l with None => true | Some (_, seq) => bool_decide (callsLen > go_len seq) end.

Definition update_longest (id_ : nat) (seq : list Z) (longest : longest_t)
    : outcome longest_t :=
  foldl (λ acc id,
      longest ← acc;
      l ← go_index longest id;
      if longer (go_len seq) l then go_set longest id (Some (id_, seq))
      else mret longest)
    (Ok longest) seq.

Definition goto (c : config) (entry : option ptr) : config :=
  {| cf_heap := cf_heap c; cf_head := cf_head c; cf_entry := entry;
     cf_state := cf_state c; cf_linearized := cf_linearized c; cf_cache := cf_cache c;
     cf_calls := cf_calls c; cf_longest := cf_longest c; cf_nseq := cf_nseq c |}.

(** The branch [entry.match != nil]. *)
Definition try_call (c : config) (e : node Input Output) : outcome config :=
  let cursor := cf_entry c in
  p ← deref cursor;
  matching ← load (cf_heap c) (n_match e);
  inp ← call_value (n_value e);
  out ← return_value (n_value matching);
  let '(ok, newState) := Step model (cf_state c) inp out in
  if ok then
    newLinearized ← set (clone (cf_linearized c)) (n_id e);
    let newCacheEntry := {| ce_linearized := newLinearized; ce_state := newState |} in
    if negb (cacheContains (cf_cache c) newCacheEntry) then
      linearized ← set (cf_linearized c) (n_id e);
      h ← lift cursor (cf_heap c);
      hd ← load h (Some (cf_head c));
      mret {| cf_heap := h; cf_head := cf_head c; cf_entry := n_next hd;
              cf_state := newState; cf_linearized := linearized;
              cf_cache := cacheAdd (cf_cache c) newCacheEntry;
              cf_calls := {| c_entry := p; c_state := cf_state c |} :: cf_calls c;
              cf_longest := cf_longest c; cf_nseq := cf_nseq c |}
    else mret (goto c (n_next e))
  else mret (goto c (n_next e)).

(** The branch [entry.match == nil]: [None] when the stack is empty. *)
Definition backtrack (computePartial : bool) (c : config) : outcome (option config) :=
  match cf_calls c with
  | [] => Ok None
  | callsTop :: calls =>
      longest ← (if computePartial then
                   seq ← call_ids (cf_heap c) (cf_calls c);
                   update_longest (cf_nseq c) seq (cf_longest c)
                 else mret (cf_longest c));
      let entry := Some (c_entry callsTop) in
      e ← load (cf_heap c) entry;
      linearized ← clear (cf_linearized c) (n_id e);
      h ← unlift entry (cf_heap c);
      e ← load h entry;
      Ok (Some {| cf_heap := h; cf_head := cf_head c; cf_entry := n_next e;
                  cf_state := c_state callsTop; cf_linearized := linearized;
                  cf_cache := cf_cache c; cf_calls := calls;
                  cf_longest := longest; cf_nseq := S (cf_nseq c) |})
  end.

(** One iteration of the loop body: the next configuration, or [return false]. *)
Definition step (computePartial : bool) (c : config) : outcome (option config) :=
  e ← load (cf_heap c) (cf_entry c);
  match n_match e with
  | Some _ => Some <$> try_call c e
  | None => backtrack computePartial c
  end.

(** The complete linearization, when the list is empty. *)
Definition finish (c : config) : outcome (bool * longest_t) :=
  seq ← call_ids (cf_heap c) (cf_calls c);
  mret (true, (λ _, Some (cf_nseq c, seq)) <$> cf_longest c).

(** [Ok None]: out of fuel. *)
Fixpoint loop (computePartial : bool) (killed : nat → bool) (fuel i : nat) (c : config)
    : outcome (option (bool * longest_t)) :=
  match fuel with
  | O => Ok None
  | S fuel =>
      hd ← load (cf_heap c) (Some (cf_head c));
      match n_next hd with
      | None => r ← finish c; Ok (Some r)
      | Some _ =>
          if killed i then Ok (Some (false, cf_longest c))
          else
            r ← step computePartial c;
            match r with
            | None => Ok (Some (false, cf_longest c))
            | Some c' => loop computePartial killed fuel (S i) c'
            end
      end
  end.

(** The code before the loop. *)
Definition start (history : list entry) : outcome config :=
  '(h, entry) ← makeLinkedEntries history;
  len ← list_length (S (fresh h)) h entry;
  let n := default 0 len `quot` 2 in
  let '(h, headEntry) := alloc {| n_value := None; n_match := None; n_id := -1;
                                  n_next := None; n_prev := None |} h in
  h ← insertBefore headEntry entry h;
  mret {| cf_heap := h; cf_head := headEntry; cf_entry := entry;
          cf_state := Init model; cf_linearized := newBitset n; cf_cache := ∅;
          cf_calls := []; cf_longest := replicate (Z.to_nat n) None; cf_nseq := 0 |}.

Definition checkSingle (history : list entry) (computePartial : bool)
    (killed : nat → bool) (fuel : nat) : outcome (option (bool * longest_t)) :=
  c ← start history; loop computePartial killed fuel 0 c.

(** ** Collecting the partitions' results *)
Inductive CheckResult := Unknown | CheckOk | Illegal.

(** What the [select] of [checkParallel] receives. *)
Inductive arrival := Result (ok : bool) | TimedOut.

(** The receiving loop over [parts] partitions: the final [ok], [timedOut]
    and [count], with what is still to arrive, or [None] when it waits forever
    after the given arrivals. *)
Fixpoint collect (computeInfo : bool) (parts : nat) (count : nat) (ok : bool)
    (arrivals : list arrival) : option (bool * bool * nat * list arrival) :=
  match arrivals with
  | [] => None
  | TimedOut :: rest => Some (ok, true, count, rest)
  | Result result :: rest =>
      let count := S count in
      let ok := ok && result in
      if negb ok && negb computeInfo then Some (ok, false, count, rest)
      else if decide (parts ≤ count)%nat then Some (ok, false, count, rest)
      else collect computeInfo parts count ok rest
  end.

(** [for count < len(history) { <-results; count++ }]: [None] when a result
    never arrives.  The timer's channel is not received from any more. *)
Fixpoint wait_all (parts : nat) (count : nat) (arrivals : list arrival) : option () :=
  if decide (parts ≤ count)%nat then Some ()
  else
    match arrivals with
    | [] => None
    | TimedOut :: rest => wait_all parts count rest
    | Result _ :: rest => wait_all parts (S count) rest
    end.

Definition verdict (ok timedOut : bool) : CheckResult :=
  if negb ok then Illegal else if timedOut then Unknown else CheckOk.

(** [partialLinearizations[i]]: one copy of each slice that [longest[i]]
    points to. *)
Definition partials (longest : longest_t) : list (list Z) :=
  (map_to_list (list_to_map (omap id longest) : gmap nat (list Z))).*2.

Definition checkParallel (history : list (list entry)) (computeInfo : bool)
    (arrivals : list arrival) : option CheckResult :=
  '(ok, timedOut, count, rest) ← collect computeInfo (length history) 0 true arrivals;
  _ ← (if computeInfo then wait_all (length history) count rest else Some ());
  Some (verdict ok timedOut).

Definition event_partitions (history : list Event) : list (list entry) :=
  (λ subhistory, convertEntries (renumber subhistory))
    <$> model_partition_event model history.

Definition operation_partitions `{GoSort} (history : list Operation) : list (list entry) :=
  makeEntries <$> model_partition model history.

Definition checkEvents (history : list Event) (verbose : bool) (arrivals : list arrival)
    : option CheckResult :=
  checkParallel (event_partitions history) verbose arrivals.

Definition checkOperations `{GoSort} (history : list Operation) (verbose : bool)
    (arrivals : list arrival) : option CheckResult :=
  checkParallel (operation_partitions history) verbose arrivals.

(** [res == Ok] *)
Definition CheckOperations `{GoSort} (history : list Operation) (arrivals : list arrival)
    : option bool :=
  (λ r, match r with CheckOk => true | _ => false end)
    <$> checkOperations history false arrivals.

Definition CheckEvents (history : list Event) (arrivals : list arrival) : option bool :=
  (λ r, match r with CheckOk => true | _ => false end)
    <$> checkEvents history false arrivals.

(** With a timeout the three-valued result is what the caller gets. *)
Definition CheckOperationsTimeout `{GoSort} (history : list Operation) (arrivals : list arrival)
    : option CheckResult := checkOperations history false arrivals.

Definition CheckEventsTimeout (history : list Event) (arrivals : list arrival) : option CheckResult :=
  checkEvents history false arrivals.

(** What can arrive when no timeout is set: the result of every partition,
    in some order, each from a goroutine that no one kills before the loop
    ends. *)
Definition arrivals_of (history : list (list entry)) (arrivals : list arrival) : Prop :=
  ∃ results, arrivals ≡ₚ Result <$> results ∧
    Forall2 (λ h b, ∃ fuel l, checkSingle h false (λ _, false) fuel = Ok (Some (b, l)))
      history results.

(** What can arrive when the timer may go off.  [kills] says of each
    partition whether its goroutine is done before the timer ([None]) or still
    searching then ([Some killed]: [killed i] is what it reads from the kill flag
    at iteration [i]).  The results sent before the timer come first, in any order; then
    the timeout, and the results of the searches that were killed (a search that
    is done, but whose result is received after the timeout, is one that never
    sees the flag, [Some (λ _, false)]).  Without
    searches of the second kind the timer need not go off. *)
Definition sent (computeInfo : bool) (h : list entry) (kill : option (nat → bool)) (b : bool) : Prop :=
  ∃ fuel l, checkSingle h computeInfo (default (λ _, false) kill) fuel = Ok (Some (b, l)).

Definition early (kills : list (option (nat → bool))) (results : list bool) : list bool :=
  omap (λ '(kill, b), match kill with None => Some b | Some _ => None end) (zip kills results).

Definition late (kills : list (option (nat → bool))) (results : list bool) : list bool :=
  omap (λ '(kill, b), match kill with None => None | Some _ => Some b end) (zip kills results).

Definition arrivals_until (computeInfo : bool) (history : list (list entry))
    (kills : list (option (nat → bool))) (arrivals : list arrival) : Prop :=
  ∃ results before after, Forall3 (sent computeInfo) history kills results ∧
    before ≡ₚ early kills results ∧ after ≡ₚ late kills results ∧
    (arrivals = (Result <$> before) ++ TimedOut :: (Result <$> after) ∨
     after = [] ∧ arrivals = Result <$> before).
End Checker.
Arguments config : clear implicits.
Arguments cacheEntry : clear implicits.
Arguments callsEntry : clear implicits.
