(* ===== verification/CheckerSearch.v ===== *)
(** * porcupine: the search of [checkSingle] is complete and sound

    The entries of a history are the addresses [locs N], in decreasing order;
    [mt], [idn] and [val] are the fields of the nodes that the search never
    changes.  [Comp l s ord] says that the remaining entries [l] can be
    completed from state [s] by linearizing the calls [ord] in turn, each of
    them before any remaining return.  [explore] runs the loop from any
    configuration: either it ends with [true] and a completion exists, or it
    comes back to the return entry that blocks, everything but the cache
    restored, and no completion starts at the calls it went through. *)
From S2P Require Import Prelude GoLib Bitset PorcModel PorcList Checker.
Local Open Scope Z_scope.

(** [model.Equal] may only identify states that behave the same. *)
Class EqualOk {State Input Output} `{EqDecision State} (model : Model State Input Output) : Prop :=
  equal_ok a b : model_equal model a b = true → ∀ i o,
    (Step model a i o).1 = (Step model b i o).1 ∧
    ((Step model a i o).1 = true →
     model_equal model (Step model a i o).2 (Step model b i o).2 = true).

(** [ShallowEqual], the default, does. *)
Lemma shallow_equal_ok {State Input Output} `{EqDecision State}
    (model : Model State Input Output) :
  Equal model = None → EqualOk model.
Proof.
  intros Heq a b. unfold model_equal. rewrite Heq; cbn.
  unfold ShallowEqual. intros ->%bool_decide_eq_true i o.
  split; [done|]. intros _. by apply bool_decide_eq_true.
Qed.

(** What holds of the sequences that [longest] points to. *)
Definition longest_all (P : list Z → Prop) (longest : list (option (nat * list Z))) : Prop :=
  Forall (λ l, match l with Some (_, seq) => P seq | None => True end) longest.

Lemma update_longest_all (P : list Z → Prop) id_ seq longest longest' :
  P seq → longest_all P longest → update_longest id_ seq longest = Ok longest' → longest_all P longest'.
Proof.
  intros Hseq. unfold update_longest. set (len := go_len seq). generalize seq at 2.
  intros ids. revert longest. induction ids as [|id ids IH]; intros l1 Hl Hf; cbn [foldl] in Hf; [by injection Hf as <-|].
  cbn [mbind outcome_bind] in Hf. destruct (go_index l1 id) as [l|]; cbn [mbind outcome_bind] in Hf.
  - destruct (longer len l); [|by apply IH in Hf].
    destruct (go_set l1 id (Some (id_, seq))) as [l2|] eqn:Hset.
    + apply IH in Hf; [done|]. apply go_set_Ok in Hset as [_ ->]. by apply Forall_insert.
    + exfalso. clear -Hf. induction ids; cbn in Hf; done.
  - exfalso. clear -Hf. induction ids; cbn in Hf; done.
Qed.

Lemma longest_all_partials P longest : longest_all P longest → Forall P (partials longest).
Proof.
  intros Hl. apply Forall_forall. intros seq Hseq. unfold partials in Hseq.
  apply list_elem_of_fmap in Hseq as ([k seq'] & -> & Hk%elem_of_map_to_list).
  apply elem_of_list_to_map_2 in Hk. apply list_elem_of_omap in Hk as (l & Hin & Hl').
  unfold longest_all in Hl. rewrite Forall_forall in Hl. specialize (Hl _ Hin).
  unfold id in Hl'. by subst l.
Qed.

Section Search.
Context {State Input Output : Type} `{EqDecision State}.
Context (model : Model State Input Output) `{!EqualOk model}.
Local Abbreviation value := (value Input Output).
Local Abbreviation config := (config State Input Output).
Context (N : nat) (n : Z).
Context (mt : ptr → option ptr) (idn : ptr → Z) (val : ptr → option value).

(** ** Well-formed histories *)
Record wf_layout : Prop := {
  wf_call x m : (x < N)%nat → mt x = Some m →
    (m < x)%nat ∧ mt m = None ∧ idn m = idn x ∧
    ∃ i o, val x = Some (VIn i) ∧ val m = Some (VOut o);
  wf_return r : (r < N)%nat → mt r = None → ∃ x, (x < N)%nat ∧ mt x = Some r;
  wf_unique x y : (x < N)%nat → (y < N)%nat → is_Some (mt x) → is_Some (mt y) →
    idn x = idn y → x = y;
  wf_id x : (x < N)%nat → 0 ≤ idn x < n;
}.
Hypothesis wf : wf_layout.

(** The entries of the operations that [b] does not hold. *)
Definition rem (b : list Z) : list ptr :=
  filter (λ x, member b (idn x) = false) (locs N).

(** [l] without the operation of [x]. *)
Definition drop_op (x : ptr) (l : list ptr) : list ptr :=
  filter (λ y, idn y ≠ idn x) l.

(** What the operation called at [x] does. *)
Definition step_at (s : State) (x m : ptr) : bool * State :=
  match val x, val m with
  | Some (VIn i), Some (VOut o) => Step model s i o
  | _, _ => (false, s)
  end.

Inductive Comp : list ptr → State → list ptr → Prop :=
  | comp_nil s : Comp [] s []
  | comp_cons l s x m ord :
      x ∈ l → mt x = Some m →
      (∀ r, r ∈ l → mt r = None → (r < x)%nat) →
      (step_at s x m).1 = true →
      Comp (drop_op x l) (step_at s x m).2 ord →
      Comp l s (x :: ord).

Definition dead (b : list Z) (s : State) : Prop := ∀ ord, ¬ Comp (rem b) s ord.

Lemma comp_equal l s s' ord :
  model_equal model s s' = true → Comp l s ord → Comp l s' ord.
Proof.
  intros Heq Hc. revert s' Heq. induction Hc as [|l s x m ord Hx Hm Hr Hs Hc IH]; intros s' Heq.
  - constructor.
  - assert ((step_at s' x m).1 = true ∧
      model_equal model (step_at s x m).2 (step_at s' x m).2 = true) as [Hs' Heq'].
    { unfold step_at in *. destruct (val x) as [[i|ox]|], (val m) as [[im|o]|]; try done.
      destruct (equal_ok _ _ Heq i o) as [H1 H2]. rewrite <-H1. auto. }
    econstructor; eauto.
Qed.

(** ** Lists of entries *)
Definition decreasing (l : list ptr) : Prop := StronglySorted (λ x y, (y < x)%nat) l.

Lemma decreasing_locs k : decreasing (locs k).
Proof.
  induction k; cbn; constructor; [done|]. apply Forall_forall. intros x.
  by rewrite elem_of_locs.
Qed.

Lemma decreasing_filter P `{!∀ x, Decision (P x)} l : decreasing l → decreasing (filter P l).
Proof.
  induction 1 as [|x l Hs IH Hx]; [constructor|]. rewrite filter_cons. case_decide; [|done].
  constructor; [done|]. apply Forall_forall. intros y [_ Hy]%list_elem_of_filter.
  rewrite Forall_forall in Hx. by apply Hx.
Qed.

Lemma decreasing_app l1 x l2 y : decreasing (l1 ++ x :: l2) → y ∈ l2 → (y < x)%nat.
Proof.
  induction l1 as [|z l1 IH]; cbn; intros [Hx Hs]%StronglySorted_cons Hy; [|by apply IH].
  rewrite Forall_forall in Hx. by apply Hx.
Qed.

Lemma decreasing_NoDup l : decreasing l → NoDup l.
Proof.
  induction 1 as [|x l Hs IH Hx]; constructor; [|done]. intros Hin.
  rewrite Forall_forall in Hx. specialize (Hx _ Hin). lia.
Qed.

(** Two decreasing lists with the same elements are equal. *)
Lemma decreasing_unique l l' :
  decreasing l → decreasing l' → (∀ x, x ∈ l ↔ x ∈ l') → l = l'.
Proof.
  intros Hd Hd' Hel.
  apply (StronglySorted_unique_strong (λ x y, (y < x)%nat)); [|done..|].
  - intros; lia.
  - apply NoDup_Permutation; [by apply decreasing_NoDup..|done].
Qed.

Lemma elem_of_rem b x : x ∈ rem b ↔ (x < N)%nat ∧ member b (idn x) = false.
Proof. unfold rem. rewrite list_elem_of_filter, elem_of_locs. tauto. Qed.

Lemma elem_of_drop_op x l y : y ∈ drop_op x l ↔ y ∈ l ∧ idn y ≠ idn x.
Proof. unfold drop_op. rewrite list_elem_of_filter. tauto. Qed.

Lemma decreasing_rem b : decreasing (rem b).
Proof. apply decreasing_filter, decreasing_locs. Qed.

(** In what remains, a call has its return, and a return its call. *)
Lemma rem_match b x m :
  x ∈ rem b → mt x = Some m → m ∈ rem b ∧ (m < x)%nat ∧ mt m = None ∧ idn m = idn x.
Proof.
  rewrite !elem_of_rem. intros [Hx Hb] Hm.
  destruct (wf_call wf x m Hx Hm) as (Hlt & Hmm & Hid & _).
  rewrite Hid. split_and!; auto. lia.
Qed.

Lemma rem_call b r : r ∈ rem b → mt r = None → ∃ x, x ∈ rem b ∧ mt x = Some r.
Proof.
  rewrite elem_of_rem. intros [Hr Hb] Hm.
  destruct (wf_return wf r Hr Hm) as (x & Hx & Hxr). exists x. split; [|done].
  rewrite elem_of_rem. destruct (wf_call wf x r Hx Hxr) as (_ & _ & Hid & _).
  by rewrite <-Hid.
Qed.

(** The entries of one operation. *)
Lemma same_id x m y :
  (x < N)%nat → mt x = Some m → (y < N)%nat → idn y = idn x → y = x ∨ y = m.
Proof.
  intros Hx Hm Hy Hid. destruct (mt y) as [m'|] eqn:Hmy.
  - left. apply (wf_unique wf); eauto.
  - right. destruct (wf_return wf y Hy Hmy) as (z & Hz & Hzy).
    destruct (wf_call wf z y Hz Hzy) as (_ & _ & Hzid & _).
    assert (z = x) as -> by (apply (wf_unique wf); eauto; congruence). congruence.
Qed.

(** Setting the bit of an operation drops its two entries. *)
Lemma rem_updated b b' x :
  (x < N)%nat → updated b b' (idn x) true → rem b' = drop_op x (rem b).
Proof.
  intros Hx (_ & _ & Hmem). apply decreasing_unique.
  - apply decreasing_rem.
  - apply decreasing_filter, decreasing_rem.
  - intros y. rewrite elem_of_drop_op, !elem_of_rem.
    split.
    + intros [Hy Hb]. pose proof (wf_id wf y Hy). rewrite Hmem in Hb by lia.
      case_decide; [done|]. auto.
    + intros [[Hy Hb] Hne]. pose proof (wf_id wf y Hy). rewrite Hmem by lia.
      by rewrite decide_False.
Qed.

Lemma drop_op_split l1 x l2 m l3 :
  NoDup (l1 ++ x :: l2 ++ m :: l3) →
  (∀ y, y ∈ l1 ++ x :: l2 ++ m :: l3 → idn y = idn x ↔ y = x ∨ y = m) →
  drop_op x (l1 ++ x :: l2 ++ m :: l3) = l1 ++ l2 ++ l3.
Proof using Input N Output idn mt val.
  clear EqualOk0 wf. intros Hnd Hid. unfold drop_op.
  assert (∀ k : list ptr, (∀ y, y ∈ k → y ∈ l1 ++ x :: l2 ++ m :: l3 ∧ y ≠ x ∧ y ≠ m) →
            filter (λ y, idn y ≠ idn x) k = k) as Hkeep.
  { intros k Hk. induction k as [|y k IH]; [done|]. rewrite filter_cons_True.
    - f_equal. apply IH. intros z Hz. apply Hk. by right.
    - destruct (Hk y) as (Hy & ? & ?); [left|]. rewrite Hid by done. tauto. }
  apply NoDup_app in Hnd as (Hn1 & Hd1 & Hnd).
  apply NoDup_cons in Hnd as [Hx Hnd]. apply NoDup_app in Hnd as (Hn2 & Hd2 & Hnd).
  apply NoDup_cons in Hnd as [Hm Hn3].
  rewrite !filter_app, filter_cons_False, filter_app, filter_cons_False
    by (rewrite Hid by set_solver; tauto).
  rewrite !Hkeep; [done|..]; intros y Hy; (split; [set_solver|]);
    split; intros ->; set_solver.
Qed.

(** ** Configurations *)

(** The heap holds the history's values, matches and ids. *)
Definition agrees (c : gmap ptr (node Input Output)) : Prop :=
  ∀ x, (x < N)%nat → payload <$> c !! x = Some (val x, mt x, idn x).

(** A cached configuration is a dead end, or lies on the current path. *)
Definition cache_ok (cache : gmap Z (list (cacheEntry State))) (lin : list Z) : Prop :=
  ∀ hk es e, cache !! hk = Some es → e ∈ es →
    dead (ce_linearized e) (ce_state e) ∨
    (∀ j, 0 ≤ j → member (ce_linearized e) j = true → member lin j = true).

(** The structure of a configuration, and its cache. *)
Record sound (c : config) : Prop := {
  g_head : cf_head c = N;
  g_list : dseg (cells (cf_heap c)) None (N :: rem (cf_linearized c)) None;
  g_agrees : agrees (cells (cf_heap c));
  g_words : words (cf_linearized c);
  g_length : length (cf_linearized c) = length (newBitset n);
  g_longest : go_len (cf_longest c) = n;
  g_calls : Forall (λ v, (c_entry v < N)%nat) (cf_calls c);
}.
Record good (c : config) : Prop := {
  g_sound :> sound c;
  g_cache : cache_ok (cf_cache c) (cf_linearized c);
}.

Lemma agrees_cell c x :
  agrees c → (x < N)%nat →
  ∃ nd, c !! x = Some nd ∧ n_value nd = val x ∧ n_match nd = mt x ∧ n_id nd = idn x.
Proof.
  intros Ha Hx. specialize (Ha x Hx). destruct (c !! x) as [nd|]; [|done].
  exists nd. unfold payload in Ha; cbn in Ha. by simplify_eq.
Qed.

Lemma agrees_same_payload c c' : same_payload c c' → agrees c → agrees c'.
Proof. intros Hp Ha x Hx. rewrite <-(Hp x). by apply Ha. Qed.

Lemma capacity_same b b' : length b = length b' → capacity b = capacity b'.
Proof. unfold capacity, go_len. by intros ->. Qed.

Lemma good_id_range c x :
  sound c → (x < N)%nat → 0 ≤ idn x < capacity (cf_linearized c).
Proof.
  intros Hg Hx. pose proof (wf_id wf x Hx).
  rewrite (capacity_same _ _ (g_length _ Hg)).
  pose proof (newBitset_chunks n). lia.
Qed.

(** The node under the cursor. *)
Lemma dseg_node (c : gmap ptr (node Input Output)) p l1 x l2 :
  dseg c p (l1 ++ x :: l2) None → ∃ nd, c !! x = Some nd ∧ n_next nd = head l2.
Proof.
  intros [_ H]%dseg_app. destruct H as (nd & Hx & _ & Hq & _).
  exists nd. split; [done|]. rewrite Hq. by destruct l2.
Qed.

Lemma good_node c pre x suf :
  sound c → rem (cf_linearized c) = pre ++ x :: suf →
  ∃ nd, load (cf_heap c) (Some x) = Ok nd ∧ n_value nd = val x ∧ n_match nd = mt x ∧
        n_id nd = idn x ∧ n_next nd = head suf ∧ (x < N)%nat.
Proof using Type.
  intros Hg Hrem. pose proof (g_list _ Hg) as Hd. rewrite Hrem in Hd.
  destruct (dseg_node _ None (N :: pre) x suf Hd) as (nd & Hx & Hq).
  assert (x < N)%nat as Hlt.
  { assert (x ∈ rem (cf_linearized c)) as Hin by (rewrite Hrem; clear; set_solver).
    by apply elem_of_rem in Hin as [? _]. }
  destruct (agrees_cell _ _ (g_agrees _ Hg) Hlt) as (nd' & Hx' & Hv & Hm & Hi).
  rewrite Hx in Hx'. injection Hx' as <-. exists nd. rewrite (load_Ok _ x nd Hx). done.
Qed.

Lemma good_head c :
  sound c → ∃ nd, load (cf_heap c) (Some (cf_head c)) = Ok nd ∧
                 n_next nd = head (rem (cf_linearized c)).
Proof.
  intros Hg. rewrite (g_head _ Hg).
  destruct (dseg_node _ None [] N _ (g_list _ Hg)) as (nd & Hx & Hq).
  exists nd. by rewrite (load_Ok _ N nd Hx).
Qed.

(** The return entry is behind its call. *)
Lemma match_behind b pre x suf m :
  rem b = pre ++ x :: suf → mt x = Some m → m ∈ suf.
Proof using wf.
  intros Hrem Hm. assert (x ∈ rem b) as Hx by (rewrite Hrem; clear; set_solver).
  destruct (rem_match _ _ _ Hx Hm) as (Hin & Hlt & _). rewrite Hrem in Hin.
  apply elem_of_app in Hin as [Hin|[->|Hin]%elem_of_cons]; [|lia|done].
  pose proof (decreasing_rem b) as Hdec. rewrite Hrem in Hdec.
  assert (x < m)%nat; [|lia].
  apply (StronglySorted_app_1_elem_of _ _ _ m x Hdec Hin). left.
Qed.

Lemma lift_rem c pre x suf m :
  sound c → rem (cf_linearized c) = pre ++ x :: suf → mt x = Some m →
  ∃ h', lift (Some x) (cf_heap c) = Ok h' ∧
    dseg (cells h') None (N :: drop_op x (rem (cf_linearized c))) None ∧
    same_payload (cells (cf_heap c)) (cells h') ∧
    unlift (Some x) h' = Ok (cf_heap c).
Proof using wf.
  intros Hg Hrem Hm.
  destruct (good_node _ _ _ _ Hg Hrem) as (nd & Hl & _ & Hnm & _ & _ & Hlt).
  pose proof (match_behind _ _ _ _ _ Hrem Hm) as Hin.
  apply list_elem_of_split in Hin as (s1 & s2 & ->).
  pose proof (g_list _ Hg) as Hd. pose proof (decreasing_NoDup _ (decreasing_rem (cf_linearized c))) as Hnd.
  assert (N ∉ rem (cf_linearized c)) as HN by (rewrite elem_of_rem; lia).
  assert (∀ y, y ∈ rem (cf_linearized c) → idn y = idn x ↔ y = x ∨ y = m) as Hid.
  { intros y [Hy _]%elem_of_rem. split; [by apply same_id|].
    intros [->| ->]; [done|]. by destruct (wf_call wf x m Hlt Hm) as (_ & _ & ? & _). }
  rewrite Hrem in *. rewrite drop_op_split by done.
  destruct (exists_last (l := N :: pre)) as (l1 & a & Hla); [done|].
  assert (∀ k, N :: pre ++ k = l1 ++ a :: k) as Hsplit.
  { intros k. change (N :: pre ++ k) with ((N :: pre) ++ k). by rewrite Hla, <-(assoc_L (++)). }
  rewrite Hsplit in Hd. rewrite Hsplit.
  assert (NoDup (l1 ++ a :: x :: s1 ++ m :: s2)) as Hnd'.
  { rewrite <-Hsplit. by constructor. }
  assert (cells (cf_heap c) !! x = Some nd) as Hx.
  { unfold load in Hl; cbn in Hl. by destruct (cells (cf_heap c) !! x); simplify_eq. }
  destruct (lift_unlift (cf_heap c) l1 a x s1 m s2 nd Hnd' Hd Hx) as (h' & H1 & H2 & H3 & _ & H4);
    [by rewrite Hnm|]. eauto 6.
Qed.

(** ** Runs of the loop that is never killed *)
Context (cp : bool).
Local Abbreviation run_loop := (loop model cp (λ _, false)) (only parsing).

Lemma loop_index fuel i i' c : run_loop fuel i c = run_loop fuel i' c.
Proof.
  revert i i' c. induction fuel as [|fuel IH]; intros i i' c; [done|]. cbn.
  destruct (load (cf_heap c) (Some (cf_head c))) as [nd|]; cbn; [|done].
  destruct (n_next nd); [|done]. destruct (step model cp c) as [[c'|]|]; cbn; [apply IH|done|done].
Qed.

Definition reaches (c c' : config) : Prop :=
  ∃ j, ∀ fuel, run_loop (j + fuel) 0 c = run_loop fuel 0 c'.

Definition returns (c : config) (b : bool) : Prop :=
  ∃ j lg, ∀ fuel, run_loop (j + fuel) 0 c = Ok (Some (b, lg)).

Lemma reaches_refl c : reaches c c.
Proof. by exists 0%nat. Qed.

Lemma reaches_trans c1 c2 c3 : reaches c1 c2 → reaches c2 c3 → reaches c1 c3.
Proof.
  intros [j1 H1] [j2 H2]. exists (j1 + j2)%nat. intros fuel.
  by rewrite <-Nat.add_assoc, H1, H2.
Qed.

Lemma reaches_returns c c' b : reaches c c' → returns c' b → returns c b.
Proof.
  intros [j1 H1] (j2 & lg & H2). exists (j1 + j2)%nat, lg. intros fuel.
  by rewrite <-Nat.add_assoc, H1, H2.
Qed.

(** One iteration, while entries remain. *)
Lemma loop_step c r :
  sound c → rem (cf_linearized c) ≠ [] → step model cp c = Ok r →
  ∀ fuel, run_loop (S fuel) 0 c =
    match r with
    | Some c' => run_loop fuel 0 c'
    | None => Ok (Some (false, cf_longest c))
    end.
Proof.
  intros Hg Hne Hs fuel. destruct (good_head _ Hg) as (nd & Hl & Hq). cbn.
  rewrite Hl; cbn. rewrite Hq. destruct (rem (cf_linearized c)) as [|x l]; [done|]; cbn.
  rewrite Hs; cbn. destruct r; [apply loop_index|done].
Qed.

Lemma step_reaches c c' :
  sound c → rem (cf_linearized c) ≠ [] → step model cp c = Ok (Some c') → reaches c c'.
Proof. intros Hg Hne Hs. exists 1%nat. exact (loop_step _ _ Hg Hne Hs). Qed.

(** The ids on the stack can be read, and are indices of [longest]. *)
Lemma call_ids_Ok c :
  sound c → ∃ ids, call_ids (cf_heap c) (cf_calls c) = Ok ids ∧
                  Forall (λ id, 0 ≤ id < n) ids.
Proof.
  intros Hg. unfold call_ids. pose proof (g_calls _ Hg) as Hc.
  rewrite <-Forall_reverse in Hc.
  induction Hc as [|v l Hv Hl (ids & IH & Hids)]; [by exists []|].
  destruct (agrees_cell _ _ (g_agrees _ Hg) Hv) as (nd & Hx & _ & _ & Hi).
  exists (n_id nd :: ids). cbn [mapM]. rewrite (load_Ok _ _ nd Hx); cbn. rewrite IH; cbn.
  split; [done|]. constructor; [|done]. rewrite Hi. by apply (wf_id wf).
Qed.

Lemma update_longest_Ok k seq lg :
  Forall (λ id, 0 ≤ id < go_len lg) seq →
  ∃ lg', update_longest k seq lg = Ok lg' ∧ go_len lg' = go_len lg.
Proof.
  unfold update_longest.
  assert (∀ (v : nat * list Z) len ids lg, Forall (λ id, 0 ≤ id < go_len lg) ids →
    ∃ lg', foldl (λ acc id, longest ← acc; l ← go_index longest id;
             if longer len l then go_set longest id (Some v) else mret longest)
             (Ok lg) ids = Ok lg' ∧ go_len lg' = go_len lg) as Hgen; [|by apply Hgen].
  clear. intros v len ids. induction ids as [|id ids IH]; intros lg Hf; [eauto|].
  apply Forall_cons in Hf as [Hid Hf]. cbn.
  destruct (go_index_in_range _ _ Hid) as [l Hl]. rewrite Hl; cbn.
  destruct (longer len l); [|by apply IH].
  unfold go_set. rewrite decide_True by done.
  assert (go_len (<[Z.to_nat id := Some v]> lg) = go_len lg) as Hlen
    by (unfold go_len; by rewrite length_insert).
  rewrite <-Hlen in Hf. destruct (IH _ Hf) as (lg' & Hfold & Hl').
  exists lg'. split; [exact Hfold|congruence].
Qed.

Lemma finish_returns c : sound c → rem (cf_linearized c) = [] → returns c true.
Proof.
  intros Hg He. destruct (good_head _ Hg) as (nd & Hl & Hq).
  destruct (call_ids_Ok _ Hg) as (ids & Hids & _).
  exists 1%nat, ((λ _, Some (cf_nseq c, ids)) <$> cf_longest c). intros fuel. cbn.
  rewrite Hl; cbn. rewrite Hq, He; cbn. unfold finish. by rewrite Hids.
Qed.

(** ** One step of the search *)

Lemma sound_goto c e : sound c → sound (goto c e).
Proof. by intros [? ? ? ? ? ? ?]. Qed.

Lemma good_goto c e : good c → good (goto c e).
Proof. intros [? ?]. split; [by apply sound_goto|done]. Qed.

(** The configuration after linearizing the call at [x]. *)
Definition child (c : config) (x : ptr) (b : list Z) (h : heap Input Output) (s : State)
    : config := {|
  cf_heap := h; cf_head := cf_head c; cf_entry := head (rem b);
  cf_state := s; cf_linearized := b;
  cf_cache := cacheAdd (cf_cache c) {| ce_linearized := b; ce_state := s |};
  cf_calls := {| c_entry := x; c_state := cf_state c |} :: cf_calls c;
  cf_longest := cf_longest c; cf_nseq := cf_nseq c |}.

(** What linearizing the call at [x] prepares: the new bit set and heap. *)
Record lifted (c : config) (x : ptr) (b : list Z) (h : heap Input Output) : Prop := {
  lf_set : set (cf_linearized c) (idn x) = Ok b;
  lf_updated : updated (cf_linearized c) b (idn x) true;
  lf_rem : rem b = drop_op x (rem (cf_linearized c));
  lf_lift : lift (Some x) (cf_heap c) = Ok h;
  lf_unlift : unlift (Some x) h = Ok (cf_heap c);
  lf_list : dseg (cells h) None (N :: rem b) None;
  lf_payload : same_payload (cells (cf_heap c)) (cells h);
}.

Lemma lifted_exists c pre x suf m :
  sound c → rem (cf_linearized c) = pre ++ x :: suf → mt x = Some m →
  ∃ b h, lifted c x b h.
Proof using wf.
  intros Hg Hrem Hm.
  destruct (good_node _ _ _ _ Hg Hrem) as (nd & _ & _ & _ & _ & _ & Hlt).
  destruct (set_updated (cf_linearized c) (idn x)) as (b & Hb & Hu).
  { by apply good_id_range. } { apply (g_words _ Hg). }
  destruct (lift_rem _ _ _ _ _ Hg Hrem Hm) as (h & H1 & H2 & H3 & H4).
  pose proof (rem_updated _ _ _ Hlt Hu) as Hr.
  exists b, h. by split; rewrite ?Hr.
Qed.

Lemma step_call c pre x suf m b h :
  sound c → rem (cf_linearized c) = pre ++ x :: suf → cf_entry c = Some x →
  mt x = Some m → lifted c x b h →
  step model cp c = Ok (Some (
    let '(ok, s) := step_at (cf_state c) x m in
    if ok && negb (cacheContains model (cf_cache c) {| ce_linearized := b; ce_state := s |})
    then child c x b h s else goto c (head suf))).
Proof using wf.
  intros Hg Hrem Hc Hm [Hset Hu Hr Hlift _ Hlist _].
  destruct (good_node _ _ _ _ Hg Hrem) as (nd & Hl & Hv & Hnm & Hi & Hq & Hlt).
  destruct (wf_call wf x m Hlt Hm) as (Hmx & _ & _ & i & o & Hvi & Hvo).
  destruct (agrees_cell _ m (g_agrees _ Hg)) as (ndm & Hxm & Hvm & _); [lia|].
  unfold step. rewrite Hc, Hl; cbn. rewrite Hnm, Hm.
  unfold try_call. rewrite Hc; cbn. rewrite Hnm, Hm, (load_Ok _ m ndm Hxm); cbn.
  rewrite Hv, Hvi; cbn. rewrite Hvm, Hvo; cbn.
  unfold step_at. rewrite Hvi, Hvo. destruct (Step model (cf_state c) i o) as [ok s].
  destruct ok; cbn; [|by rewrite Hq]. unfold clone. rewrite Hi, Hset; cbn.
  destruct (cacheContains _ _ _); cbn; [by rewrite Hq|].
  rewrite Hlift; cbn. rewrite (g_head _ Hg).
  destruct (dseg_node _ None [] N _ Hlist) as (nh & Hh & Hqh).
  rewrite (load_Ok _ N nh Hh); cbn. rewrite Hqh.
  unfold child. by rewrite (g_head _ Hg).
Qed.

Lemma elem_of_cacheAdd cache (e e' : cacheEntry State) hk es :
  cacheAdd cache e !! hk = Some es → e' ∈ es →
  e' = e ∨ ∃ es0, cache !! hk = Some es0 ∧ e' ∈ es0.
Proof.
  unfold cacheAdd, map_get. rewrite lookup_insert. case_decide as Hh; [|eauto].
  intros [= <-] [He|He%list_elem_of_singleton]%elem_of_app; [|auto].
  right. rewrite <-Hh. destruct (cache !! _); [eauto|]. by apply not_elem_of_nil in He.
Qed.

Lemma sound_child c x b h s : sound c → (x < N)%nat → lifted c x b h → sound (child c x b h s).
Proof.
  intros Hg Hx [Hset (Hlen & Hw & Hmem) Hr _ _ Hlist Hpay].
  split; cbn; [apply Hg|done| |done|by rewrite Hlen; apply Hg|apply Hg|].
  - eapply agrees_same_payload; [done|apply Hg].
  - constructor; [done|apply Hg].
Qed.

Lemma good_child c x b h s : good c → (x < N)%nat → lifted c x b h → good (child c x b h s).
Proof.
  intros Hg Hx Hl. split; [by apply sound_child; [apply Hg|..]|]. cbn.
  destruct Hl as [_ (_ & _ & Hmem) _ _ _ _ _].
  intros hk es e Hes He. destruct (elem_of_cacheAdd _ _ _ _ _ Hes He) as [->|(es0 & H0 & He0)]; [by right|].
  destruct (g_cache _ Hg _ _ _ H0 He0) as [Hd|Hsub]; [by left|right].
  intros j Hj Hm. rewrite Hmem by done. case_decide; [done|]. by apply Hsub.
Qed.

(** A cache hit is a dead end. *)
Lemma cache_hit c x b h s :
  good c → x ∈ rem (cf_linearized c) → lifted c x b h →
  cacheContains model (cf_cache c) {| ce_linearized := b; ce_state := s |} = true →
  dead b s.
Proof.
  intros Hg Hx [_ (_ & _ & Hmem) _ _ _ _ _] Hc ord Hcomp.
  apply elem_of_rem in Hx as [Hlt Hfree]. pose proof (wf_id wf x Hlt).
  unfold cacheContains, map_get in Hc; cbn [ce_linearized ce_state] in Hc.
  apply existsb_exists in Hc as (e & He & [Heq Hst]%andb_true_iff).
  apply equals_eq in Heq. destruct (cf_cache c !! hash b) as [es|] eqn:Hes; [|by destruct He].
  destruct (g_cache _ Hg _ _ e Hes) as [Hd|Hsub]; [by apply list_elem_of_In|..].
  - apply (Hd ord). rewrite <-Heq. by eapply comp_equal.
  - rewrite <-Heq in Hsub. specialize (Hsub (idn x)). rewrite Hfree in Hsub.
    rewrite Hmem, decide_True in Hsub by (done || lia).
    by specialize (Hsub ltac:(lia) eq_refl).
Qed.

(** ** Backtracking undoes a child *)

(** [c'] is [c] but for the cursor, the cache and the longest partial. *)
Record restored (c c' : config) : Prop := {
  rs_heap : cf_heap c' = cf_heap c;
  rs_head : cf_head c' = cf_head c;
  rs_state : cf_state c' = cf_state c;
  rs_lin : cf_linearized c' = cf_linearized c;
  rs_calls : cf_calls c' = cf_calls c;
  rs_cache hk es e : cf_cache c' !! hk = Some es → e ∈ es →
    dead (ce_linearized e) (ce_state e) ∨
    ∃ es0, cf_cache c !! hk = Some es0 ∧ e ∈ es0;
}.

Lemma restored_refl c e : restored c (goto c e).
Proof. split; [done..|]. cbn. eauto. Qed.

Lemma restored_trans c1 c2 c3 : restored c1 c2 → restored c2 c3 → restored c1 c3.
Proof.
  intros [? ? ? ? ? H1] [? ? ? ? ? H2]. split; [congruence..|].
  intros hk es e Hes He. destruct (H2 _ _ _ Hes He) as [|(es0 & H0 & He0)]; eauto.
Qed.

(** Clearing the bit of [x] gives the old set back. *)
Lemma clear_lifted c x b h :
  sound c → x ∈ rem (cf_linearized c) → lifted c x b h →
  clear b (idn x) = Ok (cf_linearized c).
Proof.
  intros Hg [Hx Hfree]%elem_of_rem [_ (Hlen & Hw & Hmem) _ _ _ _ _].
  pose proof (good_id_range _ _ Hg Hx) as Hid. pose proof (capacity_same _ _ Hlen) as Hcap.
  destruct (clear_updated b (idn x)) as (b2 & -> & Hlen2 & Hw2 & Hmem2); [lia|done|].
  f_equal. apply member_words; [congruence|done|apply Hg|]. intros j Hj.
  rewrite Hmem2, Hmem by lia. case_decide; congruence.
Qed.

Lemma backtrack_longest c :
  sound c → ∃ lg, (if cp then seq ← call_ids (cf_heap c) (cf_calls c);
                    update_longest (cf_nseq c) seq (cf_longest c)
                  else mret (cf_longest c)) = Ok lg ∧ go_len lg = n.
Proof.
  intros Hg. pose proof (g_longest _ Hg) as Hn. destruct cp; [|by exists (cf_longest c)].
  destruct (call_ids_Ok _ Hg) as (ids & -> & Hids); cbn. rewrite <-Hn in *.
  by apply update_longest_Ok.
Qed.

(** A child that comes back blocked is undone, and its entry is dead. *)
Lemma backtrack_child c pre x suf m b h s c1 r :
  good c → rem (cf_linearized c) = pre ++ x :: suf → mt x = Some m → lifted c x b h →
  good c1 → restored (child c x b h s) c1 → cf_entry c1 = Some r → r ∈ rem b →
  mt r = None → dead b s →
  ∃ c2, step model cp c1 = Ok (Some c2) ∧ good c2 ∧ restored c c2 ∧ cf_entry c2 = head suf.
Proof.
  intros Hg Hrem Hm Hl Hg1 [Hh Hhd Hst Hlin Hcalls Hcache] Hcur Hr Hmr Hdead.
  assert (x ∈ rem (cf_linearized c)) as Hx by (rewrite Hrem; set_solver).
  destruct (good_node _ _ _ _ Hg Hrem) as (nd & Hload & _ & _ & Hi & Hq & Hlt).
  destruct (agrees_cell _ r (g_agrees _ Hg1)) as (nr & Hxr & _ & Hnr & _).
  { by apply elem_of_rem in Hr as [? _]. }
  destruct (agrees_cell _ x (g_agrees _ Hg1) Hlt) as (nx & Hxx & _ & _ & Hix).
  destruct (backtrack_longest _ Hg1) as (lg & Hlg & Hlen).
  pose proof (clear_lifted _ _ _ _ Hg Hx Hl) as Hclr. destruct Hl as [_ _ _ _ Hun _ _].
  cbn [child cf_heap cf_head cf_state cf_linearized cf_calls cf_cache] in *.
  eexists. split; [|split; [|split]].
  - unfold step. rewrite Hcur, (load_Ok _ r nr Hxr); cbn [mbind outcome_bind].
    rewrite Hnr, Hmr. unfold backtrack. rewrite Hcalls at 1. rewrite Hlg.
    cbn [mbind outcome_bind c_entry]. rewrite (load_Ok _ x nx Hxx); cbn [mbind outcome_bind].
    rewrite Hix, Hlin, Hclr; cbn [mbind outcome_bind].
    rewrite Hh, Hun; cbn [mbind outcome_bind]. rewrite Hload; cbn. reflexivity.
  - split; [split|]; cbn [cf_heap cf_head cf_state cf_linearized cf_calls cf_cache cf_longest];
      [rewrite Hhd; apply Hg|apply Hg|apply Hg|apply Hg|apply Hg|done|apply Hg|].
    intros hk es e Hes He. destruct (Hcache _ _ _ Hes He) as [|(es0 & H0 & He0)]; [by left|].
    destruct (elem_of_cacheAdd _ _ _ _ _ H0 He0) as [->|(es1 & H1 & He1)]; [by left|].
    by eapply (g_cache _ Hg).
  - split; cbn [cf_heap cf_head cf_state cf_linearized cf_calls cf_cache c_state]; [done..|].
    intros hk es e Hes He. destruct (Hcache _ _ _ Hes He) as [|(es0 & H0 & He0)]; [by left|].
    destruct (elem_of_cacheAdd _ _ _ _ _ H0 He0) as [->|?]; [by left|by right].
  - cbn. by rewrite Hq.
Qed.

(** ** The whole exploration *)

(** No completion linearizes a call of [suf] first. *)
Definition no_start (b : list Z) (s : State) (suf : list ptr) : Prop :=
  ∀ x ord, x ∈ suf → ¬ Comp (rem b) s (x :: ord).

Inductive explored (c : config) (suf : list ptr) : Prop :=
  | ex_found ord : Comp (rem (cf_linearized c)) (cf_state c) ord → returns c true →
      explored c suf
  | ex_blocked c' r : reaches c c' → restored c c' → good c' → cf_entry c' = Some r →
      r ∈ rem (cf_linearized c) → mt r = None →
      no_start (cf_linearized c) (cf_state c) suf → explored c suf.

(** Skipping [x], which starts no completion. *)
Lemma explored_skip c c' x suf :
  reaches c c' → restored c c' → no_start (cf_linearized c) (cf_state c) [x] →
  explored c' suf → explored c (x :: suf).
Proof.
  intros Hre Hrs Hx Hex. pose proof (rs_lin _ _ Hrs) as Hlin. pose proof (rs_state _ _ Hrs) as Hst.
  destruct Hex as [ord Ho Hret|c2 r Hre2 Hrs2 Hg2 Hcur Hr Hmr Hno]; rewrite ?Hlin, ?Hst in *.
  - eapply ex_found; [done|]. by eapply reaches_returns.
  - eapply ex_blocked; [by eapply reaches_trans|by eapply restored_trans|done..|].
    intros y ord [->|Hy]%elem_of_cons; [apply Hx; left|by apply Hno].
Qed.

Lemma no_start_call c x m b h :
  mt x = Some m → lifted c x b h →
  ((step_at (cf_state c) x m).1 = true → dead b (step_at (cf_state c) x m).2) →
  no_start (cf_linearized c) (cf_state c) [x].
Proof.
  intros Hm Hl Hd y ord ->%list_elem_of_singleton Hc. inversion Hc; simplify_eq.
  apply (Hd ltac:(done) ord). rewrite (lf_rem _ _ _ _ Hl). done.
Qed.

Lemma no_start_return b s pre r suf :
  rem b = pre ++ r :: suf → mt r = None → no_start b s (r :: suf).
Proof.
  intros Hrem Hmr x ord Hx Hc. inversion Hc as [|? ? ? m ? _ Hm Hret _ _]; simplify_eq.
  assert (r < x)%nat as Hlt by (apply Hret; [rewrite Hrem; set_solver|done]).
  apply elem_of_cons in Hx as [->|Hx]; [congruence|].
  pose proof (decreasing_rem b) as Hdec. rewrite Hrem in Hdec.
  pose proof (decreasing_app _ _ _ _ Hdec Hx). lia.
Qed.

Lemma rem_has_return b : rem b ≠ [] → ∃ r, r ∈ rem b ∧ mt r = None.
Proof.
  destruct (rem b) as [|x l] eqn:Hb; [done|]. intros _.
  assert (x ∈ rem b) as Hx by (rewrite Hb; left). rewrite <-Hb.
  destruct (mt x) as [m|] eqn:Hm; [|eauto].
  destruct (rem_match _ _ _ Hx Hm) as (? & _ & ? & _). eauto.
Qed.

(** A call in front of every return, linearized first. *)
Lemma comp_call c pre x suf m b h ord :
  rem (cf_linearized c) = pre ++ x :: suf → Forall (λ y, mt y ≠ None) pre →
  mt x = Some m → lifted c x b h → (step_at (cf_state c) x m).1 = true →
  Comp (rem b) (step_at (cf_state c) x m).2 ord →
  Comp (rem (cf_linearized c)) (cf_state c) (x :: ord).
Proof.
  intros Hrem Hpre Hm Hl Hs Hc. rewrite (lf_rem _ _ _ _ Hl) in Hc.
  pose proof (decreasing_rem (cf_linearized c)) as Hdec. rewrite Hrem in *.
  econstructor; [set_solver|done| |done|done].
  intros r Hr Hmr. rewrite Forall_forall in Hpre.
  apply elem_of_app in Hr as [Hr|[->|Hr]%elem_of_cons]; [by destruct (Hpre r Hr)|congruence|].
  by eapply decreasing_app.
Qed.

Definition at_front (c : config) : Prop :=
  good c ∧ cf_entry c = head (rem (cf_linearized c)).

Lemma drop_op_shorter x l : x ∈ l → (length (drop_op x l) < length l)%nat.
Proof. intros Hx. apply (length_filter_lt _ l x); [done|]. tauto. Qed.

(** One call, given that every smaller search is explored. *)
Lemma explore_call c pre x suf m :
  (∀ c1, at_front c1 →
    (length (rem (cf_linearized c1)) < length (rem (cf_linearized c)))%nat →
    explored c1 (rem (cf_linearized c1))) →
  good c → rem (cf_linearized c) = pre ++ x :: suf → Forall (λ y, mt y ≠ None) pre →
  cf_entry c = Some x → mt x = Some m →
  (∃ ord, Comp (rem (cf_linearized c)) (cf_state c) ord ∧ returns c true) ∨
  ∃ c', reaches c c' ∧ good c' ∧ restored c c' ∧ cf_entry c' = head suf ∧
        no_start (cf_linearized c) (cf_state c) [x].
Proof.
  intros IH Hg Hrem Hpre Hcur Hm.
  assert (x ∈ rem (cf_linearized c)) as Hx by (rewrite Hrem; set_solver).
  assert (rem (cf_linearized c) ≠ []) as Hne by (intros He; rewrite He in Hx; set_solver).
  pose proof (g_sound _ Hg) as Hg0. destruct (lifted_exists _ _ _ _ _ Hg Hrem Hm) as (b & h & Hl).
  pose proof (step_call _ _ _ _ _ _ _ Hg Hrem Hcur Hm Hl) as Hstep.
  destruct (step_at (cf_state c) x m) as [ok s] eqn:Hat.
  pose proof (no_start_call _ _ _ _ _ Hm Hl) as Hns. rewrite Hat in Hns; cbn in Hns.
  destruct ok; cbn in Hstep.
  2: { right. eexists. split; [by eapply step_reaches|].
       split_and!; [by apply good_goto|apply restored_refl|done|by apply Hns]. }
  destruct (cacheContains _ _ _) eqn:Hhit; cbn in Hstep.
  { right. eexists. split; [by eapply step_reaches|].
    split_and!; [by apply good_goto|apply restored_refl|done|].
    apply Hns. intros _. by eapply cache_hit. }
  pose proof (step_reaches _ _ Hg Hne Hstep) as Hre.
  apply elem_of_rem in Hx as Hx'. destruct Hx' as [Hlt _].
  pose proof (good_child _ _ _ _ s Hg Hlt Hl) as Hgc.
  destruct (IH (child c x b h s)) as [ord Hc Hret|c1 r Hre1 Hrs1 Hg1 Hcur1 Hr Hmr Hno].
  - by split.
  - cbn. rewrite (lf_rem _ _ _ _ Hl). by apply drop_op_shorter.
  - left. exists (x :: ord). split; [|by eapply reaches_returns].
    eapply comp_call; [done..| |]; by rewrite Hat.
  - right. cbn in Hr, Hno.
    assert (dead b s) as Hdead.
    { intros [|y ord] Hc; [|by inversion Hc; subst; eapply Hno].
      inversion Hc as [? He|]; subst. rewrite <-He in Hr. by apply not_elem_of_nil in Hr. }
    destruct (backtrack_child _ _ _ _ _ _ _ _ _ _ Hg Hrem Hm Hl Hg1 Hrs1 Hcur1 Hr Hmr Hdead)
      as (c2 & Hs2 & Hg2 & Hrs2 & Hcur2).
    exists c2. split_and!; [|done|done|done|by apply Hns].
    eapply reaches_trans; [done|]. eapply reaches_trans; [done|].
    apply step_reaches; [apply Hg1| |done]. rewrite (rs_lin _ _ Hrs1); cbn.
    intros He. rewrite He in Hr. by apply not_elem_of_nil in Hr.
Qed.

Lemma explore_suffix suf : ∀ c pre,
  (∀ c1, at_front c1 →
    (length (rem (cf_linearized c1)) < length (rem (cf_linearized c)))%nat →
    explored c1 (rem (cf_linearized c1))) →
  good c → rem (cf_linearized c) = pre ++ suf → Forall (λ y, mt y ≠ None) pre →
  cf_entry c = head suf → explored c suf.
Proof.
  induction suf as [|x suf IHs]; intros c pre IH Hg Hrem Hpre Hcur.
  - rewrite app_nil_r in Hrem. destruct (decide (rem (cf_linearized c) = [])) as [He|Hne].
    + eapply ex_found; [rewrite He; constructor|by apply finish_returns; [apply Hg|]].
    + destruct (rem_has_return _ Hne) as (r & Hr & Hmr). rewrite Hrem in Hr.
      rewrite Forall_forall in Hpre. by destruct (Hpre r Hr).
  - destruct (mt x) as [m|] eqn:Hm.
    + destruct (explore_call _ _ _ _ _ IH Hg Hrem Hpre Hcur Hm)
        as [(ord & Hc & Hret)|(c' & Hre & Hg' & Hrs & Hcur' & Hns)]; [by eapply ex_found|].
      apply (explored_skip _ _ _ _ Hre Hrs Hns).
      pose proof (rs_lin _ _ Hrs) as Hlin.
      apply (IHs c' (pre ++ [x])); rewrite ?Hlin; [done|done| | |done].
      * by rewrite <-(assoc_L (++)).
      * apply Forall_app. split; [done|]. constructor; [congruence|done].
    + apply (ex_blocked _ _ c x); [apply reaches_refl| |done|done|rewrite Hrem; set_solver|done|].
      * split; eauto.
      * by eapply no_start_return.
Qed.

Lemma explore c : at_front c → explored c (rem (cf_linearized c)).
Proof.
  induction c as [c IH] using (induction_ltof1 _ (λ c, length (rem (cf_linearized c)))).
  intros [Hg Hcur]. apply (explore_suffix _ _ []); [|done|done|done|done].
  intros c1 H1 Hlt. by apply IH.
Qed.

(** From an empty stack the search ends, with [true] exactly when there is a
    completion. *)
Lemma explore_returns c :
  at_front c → cf_calls c = [] →
  ∃ b, returns c b ∧ (b = true ↔ ∃ ord, Comp (rem (cf_linearized c)) (cf_state c) ord).
Proof.
  intros Hf Hcalls. destruct (explore c Hf) as [ord Hc Hret|c' r Hre Hrs Hg' Hcur Hr Hmr Hno].
  - exists true. split; [done|]. split; eauto.
  - exists false. split.
    + eapply reaches_returns; [done|].
      assert (rem (cf_linearized c') ≠ []) as Hne.
      { rewrite (rs_lin _ _ Hrs). intros He. rewrite He in Hr. by apply not_elem_of_nil in Hr. }
      exists 1%nat, (cf_longest c'). apply (loop_step _ None Hg' Hne).
      destruct (agrees_cell _ r (g_agrees _ Hg')) as (nr & Hxr & _ & Hnr & _).
      { by apply elem_of_rem in Hr as [? _]. }
      unfold step. rewrite Hcur, (load_Ok _ r nr Hxr); cbn [mbind outcome_bind].
      rewrite Hnr, Hmr. unfold backtrack. by rewrite (rs_calls _ _ Hrs), Hcalls.
    + split; [done|]. intros [[|x ord] Hc]; exfalso; [|eapply Hno; [|done]].
      * inversion Hc as [? He|]; subst. rewrite <-He in Hr. by apply not_elem_of_nil in Hr.
      * by inversion Hc.
Qed.
End Search.
