(* ===== verification/CheckerCorrect.v ===== *)
(** * porcupine: the checker decides linearizability

    The entries of a timed history, sorted by time, are laid out by
    [makeLinkedEntries] so that the search of [CheckerSearch] applies, and its
    completions are the linearizations of the history.  [checkSingle] therefore
    always returns, and returns [true] exactly for linearizable histories;
    [CheckOperations] combines the partitions. *)
From S2P Require Import Prelude GoLib Bitset PorcModel PorcList Checker CheckerSearch.
Local Open Scope Z_scope.

(** ** Completions are linearizations *)
Section Order.
Context {State Input Output : Type} `{EqDecision State}.
Context (model : Model State Input Output).
Local Abbreviation Operation := (Operation Input Output).
Context (N : nat) (n : Z).
Context (mt : ptr → option ptr) (idn : ptr → Z) (val : ptr → option (value Input Output)).
Context (call_at ret_at : Z → ptr).

(** The numbered operations [ops] are laid out at [call_at] and [ret_at]. *)
Record placed (ops : list (Z * Operation)) : Prop := {
  pl_call i o : (i, o) ∈ ops →
    mt (call_at i) = Some (ret_at i) ∧ idn (call_at i) = i ∧
    val (call_at i) = Some (VIn (op_Input o));
  pl_ret i o : (i, o) ∈ ops →
    mt (ret_at i) = None ∧ idn (ret_at i) = i ∧ val (ret_at i) = Some (VOut (op_Output o));
  pl_order i o j o' : (i, o) ∈ ops → (j, o') ∈ ops →
    (ret_at j < call_at i)%nat ↔ ¬ op_Return o' < op_Call o;
}.

(** The entries [l] are those of the operations [p]. *)
Definition covers (l : list ptr) (p : list (Z * Operation)) : Prop :=
  ∀ x, x ∈ l ↔ ∃ i o, (i, o) ∈ p ∧ (x = call_at i ∨ x = ret_at i).

Context (ops : list (Z * Operation)) (pl : placed ops).

Lemma covers_drop l p i o :
  NoDup (i :: p.*1) → (i, o) :: p ⊆ ops → covers l ((i, o) :: p) →
  covers (drop_op idn (call_at i) l) p.
Proof.
  intros [Hi Hnd]%NoDup_cons Hsub Hc x. rewrite elem_of_drop_op, (Hc x).
  destruct (pl_call _ pl i o) as (_ & -> & _); [set_solver|].
  assert (∀ j o', (j, o') ∈ p → idn (call_at j) = j ∧ idn (ret_at j) = j ∧ j ≠ i) as Hid.
  { intros j o' Hj. destruct (pl_call _ pl j o') as (_ & ? & _); [set_solver|].
    destruct (pl_ret _ pl j o') as (_ & ? & _); [set_solver|]. split_and!; [done..|].
    intros ->. apply Hi, list_elem_of_fmap. by exists (i, o'). }
  split.
  - intros [(j & o' & [[= -> ->]|Hj]%elem_of_cons & Hx) Hne]; [|eauto].
    destruct (pl_call _ pl i o) as (_ & ? & _); [set_solver|].
    destruct (pl_ret _ pl i o) as (_ & ? & _); [set_solver|]. destruct Hx; congruence.
  - intros (j & o' & Hj & Hx). destruct (Hid _ _ Hj) as (? & ? & ?). split.
    + exists j, o'. split; [by right|done].
    + destruct Hx; congruence.
Qed.

Lemma legal_cons s o (l : list Operation) x m :
  val x = Some (VIn (op_Input o)) → val m = Some (VOut (op_Output o)) →
  legal model s (o :: l) ↔
  (step_at model val s x m).1 = true ∧ legal model (step_at model val s x m).2 l.
Proof. unfold step_at. by intros -> ->. Qed.

Lemma completion_linearizes l s ord :
  Comp model mt idn val l s ord → ∀ p, p ⊆ ops → NoDup p.*1 → covers l p →
  ∃ q, q ≡ₚ p ∧ real_time q.*2 ∧ legal model s q.*2.
Proof.
  induction 1 as [s|l s x m ord Hx Hm Hfirst Hs Hc IH]; intros p Hsub Hnd Hcov.
  { exists []. split; [|done]. destruct p as [|[i o] p]; [done|].
    exfalso. apply (not_elem_of_nil (call_at i)), Hcov. exists i, o. set_solver. }
  apply Hcov in Hx as (i & o & Hio & Hx).
  destruct (pl_call _ pl i o) as (Hmi & Hidi & Hvi); [set_solver|].
  destruct (pl_ret _ pl i o) as (Hmr & Hidr & Hvr); [set_solver|].
  assert (x = call_at i) as -> by (destruct Hx; congruence). simplify_eq.
  destruct (proj1 (elem_of_Permutation _ _) Hio) as (p' & Hp). rewrite Hp in Hnd, Hsub.
  assert (covers l ((i, o) :: p')) as Hcov' by (intros y; rewrite (Hcov y); by setoid_rewrite Hp).
  destruct (IH p') as (q & Hq & Hrt & Hleg).
  { set_solver. } { by apply NoDup_cons in Hnd as [_ ?]. } { by eapply covers_drop. }
  exists ((i, o) :: q). split; [by rewrite Hq|]. cbn [fmap list_fmap snd]. split.
  - apply real_time_cons. split; [|done]. intros b [[j o'] [-> Hj]]%list_elem_of_fmap; cbn.
    rewrite Hq in Hj. assert ((j, o') ∈ ops) as Hj' by set_solver.
    apply (pl_order _ pl i o j o'); [set_solver|done|]. apply Hfirst.
    + apply Hcov'. exists j, o'. set_solver.
    + by destruct (pl_ret _ pl j o').
  - rewrite (legal_cons _ _ _ (call_at i) (ret_at i)) by done. done.
Qed.

Lemma linearization_completes q : ∀ l s,
  Forall (λ io, op_Call io.2 ≤ op_Return io.2) q →
  q ⊆ ops → NoDup q.*1 → covers l q → real_time q.*2 → legal model s q.*2 →
  ∃ ord, Comp model mt idn val l s ord.
Proof.
  induction q as [|[i o] q IH]; intros l s Ht Hsub Hnd Hcov Hrt Hleg.
  { exists []. destruct l as [|x l]; [constructor|].
    destruct (proj1 (Hcov x)) as (? & ? & He%not_elem_of_nil & _); [left|done]. }
  destruct (pl_call _ pl i o) as (Hmi & Hidi & Hvi); [set_solver|].
  destruct (pl_ret _ pl i o) as (Hmr & Hidr & Hvr); [set_solver|].
  cbn [fmap list_fmap snd fst] in *. apply real_time_cons in Hrt as [Hfirst Hrt].
  apply Forall_cons in Ht as [Hto Ht].
  rewrite (legal_cons _ _ _ (call_at i) (ret_at i)) in Hleg by done. destruct Hleg as [Hs Hleg].
  destruct (IH (drop_op idn (call_at i) l) (step_at model val s (call_at i) (ret_at i)).2)
    as (ord & Hc).
  { done. } { set_solver. } { by apply NoDup_cons in Hnd as [_ ?]. }
  { by eapply covers_drop. } { done. } { done. }
  exists (call_at i :: ord). econstructor; [|done| |done|done].
  - apply Hcov. exists i, o. set_solver.
  - intros r Hr Hmr'. apply Hcov in Hr as (j & o' & Hj & Hr).
    assert ((j, o') ∈ ops) as Hj' by set_solver.
    destruct (pl_call _ pl j o' Hj') as (? & _). assert (r = ret_at j) as -> by (destruct Hr; congruence).
    apply (pl_order _ pl i o j o'); [set_solver|done|].
    apply elem_of_cons in Hj as [[= -> ->]|Hj]; [cbn in Hto; lia|].
    apply Hfirst, list_elem_of_fmap. by exists (j, o').
Qed.

(** The layout the search needs. *)
Lemma placed_layout :
  Forall (λ io, op_Call io.2 ≤ op_Return io.2) ops →
  Forall (λ io, 0 ≤ io.1 < n) ops → covers (locs N) ops → wf_layout N n mt idn val.
Proof.
  rewrite !Forall_forall. intros Ht Hn Hcov.
  assert (∀ x, (x < N)%nat → ∃ i o, (i, o) ∈ ops ∧ (x = call_at i ∨ x = ret_at i)) as Hx.
  { intros x Hx. by apply Hcov, elem_of_locs. }
  assert (∀ x m, (x < N)%nat → mt x = Some m →
    ∃ i o, (i, o) ∈ ops ∧ x = call_at i ∧ m = ret_at i) as Hcall.
  { intros x m Hlt Hm. destruct (Hx x Hlt) as (i & o & Hio & Hxi). exists i, o.
    destruct (pl_call _ pl i o Hio) as (? & _). destruct (pl_ret _ pl i o Hio) as (? & _).
    destruct Hxi; subst; split_and!; congruence. }
  split.
  - intros x m Hlt Hm. destruct (Hcall x m Hlt Hm) as (i & o & Hio & -> & ->).
    destruct (pl_call _ pl i o Hio) as (? & -> & ?). destruct (pl_ret _ pl i o Hio) as (? & -> & ?).
    split_and!; [|done|done|eauto]. apply (pl_order _ pl i o i o Hio Hio).
    specialize (Ht _ Hio); cbn in Ht. lia.
  - intros r Hlt Hm. destruct (Hx r Hlt) as (i & o & Hio & Hr).
    destruct (pl_call _ pl i o Hio) as (? & _). exists (call_at i).
    assert (r = ret_at i) as -> by (destruct Hr; congruence). split; [|done].
    apply elem_of_locs, Hcov. eauto.
  - intros x y Hx' Hy' [m Hm] [m' Hm'] Hid.
    destruct (Hcall x m Hx' Hm) as (i & o & Hio & -> & ->).
    destruct (Hcall y m' Hy' Hm') as (j & o' & Hjo & -> & ->).
    destruct (pl_call _ pl i o Hio) as (_ & Hi & _). destruct (pl_call _ pl j o' Hjo) as (_ & Hj & _).
    congruence.
  - intros x Hlt. destruct (Hx x Hlt) as (i & o & Hio & Hr).
    destruct (pl_call _ pl i o Hio) as (_ & Hi & _). destruct (pl_ret _ pl i o Hio) as (_ & Hj & _).
    specialize (Hn _ Hio); cbn in Hn. destruct Hr; congruence.
Qed.
End Order.

(** ** The sorted entries of a timed history *)
Section Entries.
Context {Input Output : Type}.
Local Abbreviation Operation := (Operation Input Output).
Local Abbreviation entry := (entry Input Output).
Implicit Types (es : list entry) (o : Operation).

Lemma byTime_strict_weak : strict_weak (@byTime_Less Input Output).
Proof.
  unfold byTime_Less. split; intros *;
    repeat case_decide; repeat case_bool_decide; try lia;
    repeat match goal with |- context [kind ?e] => destruct (kind e) end; done.
Qed.

Definition indexed (h : list Operation) : list (Z * Operation) :=
  imap (λ i o, (Z.of_nat i, o)) h.

Lemma elem_of_indexed h i o :
  (i, o) ∈ indexed h ↔ 0 ≤ i ∧ h !! Z.to_nat i = Some o.
Proof.
  unfold indexed. rewrite elem_of_lookup_imap. split.
  - intros (j & o' & [= -> ->] & Hj). rewrite Nat2Z.id. split; [lia|done].
  - intros [Hi Ho]. exists (Z.to_nat i), o. split; [f_equal; lia|done].
Qed.

Lemma indexed_snd h : (indexed h).*2 = h.
Proof.
  unfold indexed. apply list_eq. intros i. rewrite list_lookup_fmap, list_lookup_imap.
  by destruct (h !! i).
Qed.

Lemma indexed_NoDup h : NoDup (indexed h).*1.
Proof.
  apply NoDup_alt. intros i j x. unfold indexed. rewrite !list_lookup_fmap, !list_lookup_imap.
  destruct (h !! i), (h !! j); cbn; try done. intros [= <-] [= ?]. lia.
Qed.

Definition call_entry (i : Z) o : entry :=
  {| kind := callEntry; e_value := VIn (op_Input o); e_id := i;
     e_time := op_Call o; e_clientId := op_ClientId o |}.
Definition return_entry (i : Z) o : entry :=
  {| kind := returnEntry; e_value := VOut (op_Output o); e_id := i;
     e_time := op_Return o; e_clientId := op_ClientId o |}.

Lemma elem_of_operation_entries h : ∀ k e,
  e ∈ operation_entries k h ↔
  ∃ i o, h !! i = Some o ∧ (e = call_entry (k + Z.of_nat i) o ∨ e = return_entry (k + Z.of_nat i) o).
Proof.
  induction h as [|o h IH]; intros k e; cbn [operation_entries].
  { split; [by intros ?%not_elem_of_nil|]. by intros (i & o & ? & _). }
  rewrite !elem_of_cons, IH. split.
  - intros [->|[->|(i & o' & Hi & He)]].
    + exists 0%nat, o. rewrite Z.add_0_r. auto.
    + exists 0%nat, o. rewrite Z.add_0_r. auto.
    + exists (S i), o'. split; [done|]. by replace (k + Z.of_nat (S i)) with (k + 1 + Z.of_nat i) by lia.
  - intros ([|i] & o' & Hi & He).
    + injection Hi as ->. rewrite Z.add_0_r in He. destruct He as [-> | ->]; auto.
    + do 2 right. exists i, o'. split; [done|].
      by replace (k + 1 + Z.of_nat i) with (k + Z.of_nat (S i)) by lia.
Qed.

Definition key (e : entry) : bool * Z := (kind e, e_id e).

Lemma operation_entries_keys (h : list Operation) : ∀ k, NoDup (key <$> operation_entries k h).
Proof.
  induction h as [|o h IH]; intros k; cbn; [constructor|].
  assert (∀ b, (b, k) ∉ key <$> operation_entries (k + 1) h) as Hk.
  { intros b (e & He & (i & o' & _ & [-> | ->])%elem_of_operation_entries)%list_elem_of_fmap;
      injection He; lia. }
  constructor; [|constructor; [apply Hk|apply IH]].
  intros [He|He]%elem_of_cons; [done|by apply Hk in He].
Qed.

Lemma operation_entries_length (h : list Operation) : ∀ k, length (operation_entries k h) = (2 * length h)%nat.
Proof. induction h as [|o h IH]; intros k; cbn; [done|]. rewrite IH. lia. Qed.

(** ** Addresses of entries *)
Definition at_addr es (e : entry) (x : ptr) : Prop :=
  ∃ es1 es2, es = es1 ++ e :: es2 ∧ length es2 = x.

Lemma at_addr_lookup es e x :
  at_addr es e x ↔ (x < length es)%nat ∧ es !! (length es - S x)%nat = Some e.
Proof.
  split.
  - intros (es1 & es2 & -> & <-). rewrite length_app; cbn. split; [lia|].
    apply list_lookup_middle. lia.
  - intros [Hx He]. apply list_elem_of_split_length in He as (es1 & es2 & -> & Hl).
    exists es1, es2. split; [done|]. rewrite length_app in *; cbn in *. lia.
Qed.

Lemma at_addr_total es x : (x < length es)%nat → ∃ e, at_addr es e x.
Proof.
  intros Hx. destruct (lookup_lt_is_Some_2 es (length es - S x)) as [e He]; [lia|].
  exists e. by apply at_addr_lookup.
Qed.

Lemma at_addr_elem es e x : at_addr es e x → e ∈ es.
Proof. intros (es1 & es2 & -> & _). set_solver. Qed.

Lemma elem_at_addr es e : e ∈ es → ∃ x, at_addr es e x.
Proof. intros (es1 & es2 & ->)%list_elem_of_split. by exists (length es2), es1, es2. Qed.

Lemma at_addr_behind es e x e' y :
  at_addr es e x → at_addr es e' y → (y < x)%nat →
  ∃ es1 es2, es = es1 ++ e :: es2 ∧ e' ∈ es2.
Proof.
  intros (es1 & es2 & -> & <-) [Hy He']%at_addr_lookup Hlt. exists es1, es2. split; [done|].
  rewrite length_app in *; cbn in *. rewrite lookup_app_r in He' by lia.
  replace (length es1 + S (length es2) - S y - length es1)%nat
    with (S (length es2 - S y)) in He' by lia. cbn in He'. by eapply list_elem_of_lookup_2.
Qed.

Lemma at_addr_key es e e' x y :
  NoDup (key <$> es) → at_addr es e x → at_addr es e' y → key e = key e' → e = e' ∧ x = y.
Proof.
  rewrite NoDup_alt, !at_addr_lookup. intros Hnd [Hx He] [Hy He'] Hk.
  specialize (Hnd (length es - S x) (length es - S y) (key e'))%nat.
  rewrite !list_lookup_fmap, He, He' in Hnd; cbn in Hnd. rewrite Hk in Hnd.
  specialize (Hnd eq_refl eq_refl). rewrite Hnd, He' in He. split; [congruence|lia].
Qed.

(** In a sorted list, an entry behind another is not [Less]. *)
Lemma sorted_behind es e x e' y :
  StronglySorted (λ a b, byTime_Less b a = false) es →
  at_addr es e x → at_addr es e' y → (y < x)%nat → byTime_Less e' e = false.
Proof.
  intros Hs Hx Hy Hlt. destruct (at_addr_behind _ _ _ _ _ Hx Hy Hlt) as (es1 & es2 & -> & He').
  clear -Hs He'. induction es1 as [|e1 es1 IH]; cbn in Hs; apply StronglySorted_cons in Hs as [Hf Hs].
  - rewrite Forall_forall in Hf. by apply Hf.
  - by apply IH.
Qed.

Lemma call_before_return es i o x j o' y :
  StronglySorted (λ a b, byTime_Less b a = false) es →
  at_addr es (call_entry i o) x → at_addr es (return_entry j o') y → x ≠ y →
  (y < x)%nat ↔ ¬ op_Return o' < op_Call o.
Proof.
  intros Hs Hx Hy Hne. split.
  - intros Hlt. pose proof (sorted_behind _ _ _ _ _ Hs Hx Hy Hlt) as Hl.
    unfold byTime_Less in Hl; cbn in Hl. case_decide; [by case_bool_decide|lia].
  - intros Hnot. destruct (decide (y < x)%nat) as [|Hge]; [done|].
    assert (x < y)%nat as Hlt by lia.
    pose proof (sorted_behind _ _ _ _ _ Hs Hy Hx Hlt) as Hl.
    unfold byTime_Less in Hl; cbn in Hl. case_decide; [case_bool_decide; [done|lia]|done].
Qed.

(** The first return entry with an id, when it is the only one. *)
Lemma find_return_at es i o y :
  NoDup (key <$> es) → at_addr es (return_entry i o) y → find_return i es = Some y.
Proof.
  intros Hnd (es1 & es2 & -> & <-). induction es1 as [|e es1 IH]; cbn.
  - by rewrite bool_decide_eq_true_2.
  - cbn in Hnd. apply NoDup_cons in Hnd as [He Hnd].
    destruct (kind e && bool_decide (e_id e = i)) eqn:Hk; [|by apply IH].
    apply andb_true_iff in Hk as [Hk Hid%bool_decide_eq_true]. destruct He.
    apply list_elem_of_fmap. exists (return_entry i o). split; [|set_solver].
    unfold key. by rewrite Hk, Hid.
Qed.

Fixpoint find_call (id : Z) (entries : list entry) : option ptr :=
  match entries with
  | [] => None
  | e :: rest =>
      if negb (kind e) && bool_decide (e_id e = id) then Some (length rest)
      else find_call id rest
  end.

Lemma find_call_at es i o x :
  NoDup (key <$> es) → at_addr es (call_entry i o) x → find_call i es = Some x.
Proof.
  intros Hnd (es1 & es2 & -> & <-). induction es1 as [|e es1 IH]; cbn.
  - by rewrite bool_decide_eq_true_2.
  - cbn in Hnd. apply NoDup_cons in Hnd as [He Hnd].
    destruct (negb (kind e) && bool_decide (e_id e = i)) eqn:Hk; [|by apply IH].
    apply andb_true_iff in Hk as [Hk%negb_true_iff Hid%bool_decide_eq_true]. destruct He.
    apply list_elem_of_fmap. exists (call_entry i o). split; [|set_solver].
    unfold key. by rewrite Hk, Hid.
Qed.
End Entries.

(** ** The configuration the loop starts from *)
Section Start.
Context {State Input Output : Type} `{EqDecision State}.
Context (model : Model State Input Output).
Local Abbreviation Operation := (Operation Input Output).
Local Abbreviation entry := (entry Input Output).
Local Abbreviation heap := (heap Input Output).

(** The fields of the nodes of a heap. *)
Definition h_val (h : heap) (x : ptr) : option (value Input Output) :=
  cells h !! x ≫= n_value.
Definition h_mt (h : heap) (x : ptr) : option ptr := cells h !! x ≫= n_match.
Definition h_idn (h : heap) (x : ptr) : Z := default 0 (n_id <$> cells h !! x).

Definition holds (h : heap) (es : list entry) : Prop :=
  ∀ es1 e es2, es = es1 ++ e :: es2 →
    payload <$> cells h !! length es2 = Some (entry_payload e es2).

Lemma holds_fields h es es1 e es2 :
  holds h es → es = es1 ++ e :: es2 →
  h_val h (length es2) = Some (e_value e) ∧ h_idn h (length es2) = e_id e ∧
  h_mt h (length es2) = if kind e then None else find_return (e_id e) es2.
Proof.
  intros Hh He. specialize (Hh _ _ _ He). unfold h_val, h_idn, h_mt.
  destruct (cells h !! length es2) as [nd|]; [|done]. cbn in *.
  unfold payload, entry_payload in Hh. by simplify_eq.
Qed.

Definition call_at (es : list entry) (i : Z) : ptr := default 0%nat (find_call i es).
Definition ret_at (es : list entry) (i : Z) : ptr := default 0%nat (find_return i es).

Section Layout.
Context (history : list Operation) (es : list entry) (h : heap).
Hypothesis Htimed : timed history.
Hypothesis Hperm : es ≡ₚ operation_entries 0 history.
Hypothesis Hsorted : StronglySorted (λ a b, byTime_Less b a = false) es.
Hypothesis Hholds : holds h es.

Lemma entries_keys : NoDup (key <$> es).
Proof using Hperm. rewrite Hperm. apply operation_entries_keys. Qed.

Lemma entries_of i o :
  (i, o) ∈ indexed history →
  at_addr es (call_entry i o) (call_at es i) ∧ at_addr es (return_entry i o) (ret_at es i).
Proof using Hperm.
  intros [Hi Ho]%elem_of_indexed. pose proof entries_keys as Hk.
  assert (∀ e, e = call_entry i o ∨ e = return_entry i o → e ∈ es) as Hin.
  { intros e He. rewrite Hperm. apply elem_of_operation_entries. exists (Z.to_nat i), o.
    split; [done|]. by rewrite Z.add_0_l, Z2Nat.id. }
  destruct (elem_at_addr es (call_entry i o)) as [x Hx]; [auto|].
  destruct (elem_at_addr es (return_entry i o)) as [y Hy]; [auto|].
  unfold call_at, ret_at. rewrite (find_call_at _ _ _ _ Hk Hx), (find_return_at _ _ _ _ Hk Hy).
  done.
Qed.

Lemma entries_order i o j o' :
  (i, o) ∈ indexed history → (j, o') ∈ indexed history →
  (ret_at es j < call_at es i)%nat ↔ ¬ op_Return o' < op_Call o.
Proof using Hperm Hsorted.
  intros Hi Hj. destruct (entries_of i o Hi) as [Hx _]. destruct (entries_of j o' Hj) as [_ Hy].
  apply (call_before_return _ _ _ _ _ _ _ Hsorted Hx Hy). intros Heq.
  apply at_addr_lookup in Hx as [_ Hx]. apply at_addr_lookup in Hy as [_ Hy].
  rewrite Heq, Hy in Hx. discriminate Hx.
Qed.

Lemma entries_placed : placed (h_mt h) (h_idn h) (h_val h) (call_at es) (ret_at es) (indexed history).
Proof using Htimed Hperm Hsorted Hholds.
  split.
  - intros i o Hi. destruct (entries_of i o Hi) as [Hx Hy].
    assert (ret_at es i < call_at es i)%nat as Hlt.
    { apply (entries_order i o i o Hi Hi). apply elem_of_indexed in Hi as [_ Ho].
      unfold timed in Htimed. rewrite Forall_lookup in Htimed. specialize (Htimed _ _ Ho). lia. }
    pose proof (at_addr_behind _ _ _ _ _ Hx Hy Hlt) as (es1 & es2 & Hes & Hin).
    assert (length es2 = call_at es i) as Hl.
    { apply (at_addr_key es (call_entry i o) (call_entry i o)); [apply entries_keys| |done|done].
      by exists es1, es2. }
    destruct (holds_fields _ _ _ _ _ Hholds Hes) as (Hv & Hid & Hm). rewrite Hl in *.
    split_and!; [|done|done]. rewrite Hm; cbn.
    destruct (elem_at_addr _ _ Hin) as [y Hy2]. rewrite (find_return_at es2 i o y); [|..|done].
    + f_equal. eapply (at_addr_key es); [apply entries_keys| |exact Hy|done].
      destruct Hy2 as (k1 & k2 & -> & <-). exists (es1 ++ call_entry i o :: k1), k2.
      by rewrite Hes, <-(assoc_L (++)).
    + pose proof entries_keys as Hk. rewrite Hes, fmap_app, fmap_cons in Hk.
      apply NoDup_app in Hk as (_ & _ & Hk). by apply NoDup_cons in Hk as [_ ?].
  - intros i o Hi. destruct (entries_of i o Hi) as [_ (es1 & es2 & Hes & Hl)].
    destruct (holds_fields _ _ _ _ _ Hholds Hes) as (Hv & Hid & Hm). by rewrite Hl in *.
  - apply entries_order.
Qed.

Lemma entries_covers : covers (call_at es) (ret_at es) (locs (length es)) (indexed history).
Proof using Hperm.
  intros x. rewrite elem_of_locs. split.
  - intros Hx. destruct (at_addr_total es x Hx) as [e He].
    pose proof (at_addr_elem _ _ _ He) as Hin. rewrite Hperm in Hin.
    apply elem_of_operation_entries in Hin as (i & o & Ho & Hcase). rewrite Z.add_0_l in Hcase.
    assert ((Z.of_nat i, o) ∈ indexed history) as Hio.
    { apply elem_of_indexed. rewrite Nat2Z.id. split; [lia|done]. }
    destruct (entries_of _ _ Hio) as [Hc Hr]. exists (Z.of_nat i), o. split; [done|].
    destruct Hcase as [-> | ->]; [left|right];
      eapply (at_addr_key es); (apply entries_keys || done).
  - intros (i & o & Hio & Hx). destruct (entries_of _ _ Hio) as [Hc Hr].
    apply at_addr_lookup in Hc as [? _]. apply at_addr_lookup in Hr as [? _].
    by destruct Hx as [-> | ->].
Qed.

Lemma entries_length : Z.of_nat (length es) = 2 * go_len history.
Proof using Hperm. rewrite Hperm, operation_entries_length. unfold go_len. lia. Qed.

Lemma entries_layout :
  wf_layout (length es) (go_len history) (h_mt h) (h_idn h) (h_val h).
Proof using Htimed Hperm Hsorted Hholds.
  apply (placed_layout _ _ _ _ _ _ _ _ entries_placed); [| |apply entries_covers].
  - apply Forall_forall. intros [i o] [_ Ho]%elem_of_indexed.
    unfold timed in Htimed. rewrite Forall_lookup in Htimed. eauto.
  - apply Forall_forall. intros [i o] [Hi Ho]%elem_of_indexed; cbn.
    apply lookup_lt_Some in Ho. unfold go_len. lia.
Qed.
End Layout.

Lemma list_length_dseg (h : heap) l : ∀ p fuel,
  dseg (cells h) p l None → (length l ≤ fuel)%nat →
  list_length fuel h (head l) = Ok (Some (Z.of_nat (length l))).
Proof.
  induction l as [|x l IH]; intros p fuel Hd Hf; [by destruct fuel|].
  destruct fuel as [|fuel]; cbn in Hf; [lia|]. destruct Hd as (nd & Hx & _ & Hq & Hl).
  cbn [list_length head]. rewrite (load_Ok _ x nd Hx); cbn [mbind outcome_bind].
  assert (n_next nd = head l) as -> by (rewrite Hq; by destruct l).
  rewrite (IH (Some x)) by (done || lia). cbn [mbind outcome_bind option_map].
  do 2 f_equal. cbn [length]. lia.
Qed.

Lemma rem_empty N idn n : rem N idn (newBitset n) = locs N.
Proof.
  unfold rem. induction (locs N) as [|x l IH]; [done|].
  rewrite filter_cons_True by apply newBitset_member. by rewrite IH.
Qed.

(** [start] succeeds, on a good configuration at the front of the list. *)
Lemma start_at_front (es : list entry) (n : Z) :
  Z.of_nat (length es) = 2 * n →
  ∃ h c, holds h es ∧ start model es = Ok c ∧
    (wf_layout (length es) n (h_mt h) (h_idn h) (h_val h) →
     at_front model (length es) n (h_mt h) (h_idn h) (h_val h) c) ∧
    cf_calls c = [] ∧ cf_linearized c = newBitset n ∧ cf_state c = Init model.
Proof.
  intros Hlen. destruct (makeLinkedEntries_from_spec es) as (h & mtch & Hmk & Hlh & _ & Hpay).
  set (nd := {| n_value := None; n_match := None; n_id := -1; n_next := None; n_prev := None |}
             : node Input Output).
  destruct (insert_front h _ nd Hlh) as (h' & Hins & Hal & Hlh' & _ & Hold); [done|].
  exists h. eexists. split; [exact Hpay|]. split.
  { unfold start, makeLinkedEntries. rewrite Hmk; cbn [mbind outcome_bind mret outcome_ret].
    rewrite (list_length_dseg h _ None); [|apply Hlh|rewrite (lh_fresh _ _ Hlh)]; cycle 1.
    { clear. induction (length es); cbn; lia. }
    cbn [mbind outcome_bind]. fold nd. unfold alloc in *; cbn [fst snd] in *.
    rewrite Hal in Hins |- *. rewrite Hins; cbn [mbind outcome_bind]. reflexivity. }
  cbn [cf_calls cf_linearized cf_state default].
  assert (length (locs (length es)) = length es) as Hll by (clear; induction (length es); cbn; lia).
  assert (Z.of_nat (length (locs (length es))) `quot` 2 = n) as Hn.
  { rewrite Hll, Hlen, Z.mul_comm. by apply Z.quot_mul. }
  unfold id. rewrite Hn. split; [|done]. intros wf.
  assert (∀ x, (x < length es)%nat → payload <$> cells h' !! x = Some (h_val h x, h_mt h x, h_idn h x))
    as Hpay'.
  { intros x Hx. rewrite (Hold x Hx). destruct (proj2 (lh_dom _ _ Hlh x) Hx) as [ndx Hx'].
    unfold h_val, h_mt, h_idn, payload. by rewrite Hx'. }
  split; [split; [split|]|]; cbn [cf_head cf_heap cf_linearized cf_cache cf_longest cf_calls cf_entry];
    rewrite ?rem_empty.
  - done.
  - apply Hlh'.
  - exact Hpay'.
  - apply newBitset_words.
  - done.
  - unfold go_len. rewrite length_replicate. lia.
  - constructor.
  - intros hk es' e Hes. by rewrite lookup_empty in Hes.
  - done.
Qed.
End Start.

(** ** The checker *)
Section Correct.
Context {State Input Output : Type} `{EqDecision State} `{GoSort}.
Context (model : Model State Input Output) `{!EqualOk model}.
Implicit Types (history : list (Operation Input Output)) (cp : bool).

(** More fuel does not change a result. *)
Lemma loop_more_fuel cp killed fuel fuel' i c r :
  (fuel ≤ fuel')%nat → loop model cp killed fuel i c = Ok (Some r) →
  loop model cp killed fuel' i c = Ok (Some r).
Proof.
  revert fuel' i c. induction fuel as [|fuel IH]; intros [|fuel'] i c Hle; try done; [lia|].
  cbn. destruct (load (cf_heap c) (Some (cf_head c))) as [nd|]; cbn; [|done].
  destruct (n_next nd); [|done]. destruct (killed i); [done|].
  destruct (step model cp c) as [[c'|]|]; cbn; [|done..]. apply IH. lia.
Qed.

(** A loop that says [true] was not killed. *)
Lemma loop_not_killed cp killed fuel i c lg :
  loop model cp killed fuel i c = Ok (Some (true, lg)) →
  loop model cp (λ _, false) fuel i c = Ok (Some (true, lg)).
Proof.
  revert i c. induction fuel as [|fuel IH]; intros i c; cbn; [done|].
  destruct (load (cf_heap c) (Some (cf_head c))) as [nd|]; cbn; [|done].
  destruct (n_next nd); [|done]. destruct (killed i); [done|].
  destruct (step model cp c) as [[c'|]|]; cbn; [|done..]. apply IH.
Qed.

(** A killed loop ends where the loop would, or earlier, without a panic. *)
Lemma loop_killed_ends cp killed fuel i c r :
  loop model cp (λ _, false) fuel i c = Ok (Some r) →
  ∃ r', loop model cp killed fuel i c = Ok (Some r').
Proof.
  revert i c. induction fuel as [|fuel IH]; intros i c; cbn; [done|].
  destruct (load (cf_heap c) (Some (cf_head c))) as [nd|]; cbn; [|done].
  destruct (n_next nd); [|eauto]. destruct (killed i); [eauto|].
  destruct (step model cp c) as [[c'|]|]; cbn; [|eauto|done]. apply IH.
Qed.

Lemma checkSingle_more_fuel es cp killed fuel fuel' r :
  (fuel ≤ fuel')%nat → checkSingle model es cp killed fuel = Ok (Some r) →
  checkSingle model es cp killed fuel' = Ok (Some r).
Proof.
  intros Hle. unfold checkSingle. destruct (start model es); cbn; [|done].
  by apply loop_more_fuel.
Qed.

Lemma checkSingle_decides history cp :
  timed history →
  ∃ b F lg, checkSingle model (makeEntries history) cp (λ _, false) F = Ok (Some (b, lg)) ∧
    (b = true ↔ linearizable model history).
Proof using EqualOk0.
  intros Ht. set (es := makeEntries history).
  assert (es ≡ₚ operation_entries 0 history) as Hperm by apply go_sort_perm.
  assert (StronglySorted (λ a b, byTime_Less b a = false) es) as Hsorted.
  { apply go_sort_sorted, byTime_strict_weak. }
  destruct (start_at_front model es (go_len history)) as (h & c & Hh & Hst & Hfr & Hc & Hl & Hs).
  { by apply entries_length. }
  pose proof (entries_placed _ _ _ Ht Hperm Hsorted Hh) as Hpl.
  pose proof (entries_layout _ _ _ Ht Hperm Hsorted Hh) as Hwf.
  pose proof (entries_covers _ _ Hperm) as Hcov.
  destruct (explore_returns model _ _ _ _ _ Hwf cp c (Hfr Hwf) Hc) as (b & (j & lg & Hret) & Hb).
  exists b, (j + 0)%nat, lg. split; [unfold checkSingle; rewrite Hst; apply Hret|].
  rewrite Hl, Hs, rem_empty in Hb. rewrite Hb. split.
  - intros [ord Hord].
    destruct (completion_linearizes _ _ _ _ _ _ _ Hpl _ _ _ Hord (indexed history))
      as (q & Hq & Hrt & Hleg); [done|apply indexed_NoDup|done|].
    exists q.*2. split; [|done]. by rewrite Hq, indexed_snd.
  - intros (ord & Hord & Hrt & Hleg). rewrite <-(indexed_snd history) in Hord.
    apply Permutation_map_inv in Hord as (q & -> & Hq).
    apply (linearization_completes _ _ _ _ _ _ _ Hpl q); [| | | |done|done].
    + rewrite <-Hq. apply Forall_forall. intros [i o] [_ Ho]%elem_of_indexed.
      unfold timed in Ht. rewrite Forall_lookup in Ht. eauto.
    + by rewrite <-Hq.
    + rewrite <-Hq. apply indexed_NoDup.
    + intros x. rewrite (Hcov x). by setoid_rewrite Hq.
Qed.

(** C1. On a history whose operations return no earlier than they are called,
    [checkSingle], when it is not killed, always returns (given enough
    iterations), without a panic, and the answer it returns is [true] exactly
    when the history is linearizable. *)
Theorem checkSingle_correct history cp :
  timed history →
  ∃ b F lg,
    (∀ fuel, (F ≤ fuel)%nat →
       checkSingle model (makeEntries history) cp (λ _, false) fuel = Ok (Some (b, lg))) ∧
    (b = true ↔ linearizable model history).
Proof using EqualOk0.
  intros Ht. destruct (checkSingle_decides history cp Ht) as (b & F & lg & HF & Hb).
  exists b, F, lg. split; [|done]. intros fuel Hle. by eapply checkSingle_more_fuel.
Qed.

Lemma checkSingle_answer history cp fuel b lg :
  timed history →
  checkSingle model (makeEntries history) cp (λ _, false) fuel = Ok (Some (b, lg)) →
  b = true ↔ linearizable model history.
Proof using EqualOk0.
  intros Ht Hr. destruct (checkSingle_decides history cp Ht) as (b' & F & lg' & HF & Hb).
  pose proof (checkSingle_more_fuel _ _ _ _ (fuel `max` F) _ (Nat.le_max_l _ _) Hr) as H1.
  pose proof (checkSingle_more_fuel _ _ _ _ (fuel `max` F) _ (Nat.le_max_r _ _) HF) as H2.
  congruence.
Qed.

(** Whenever another goroutine kills the search (the [kill] flag), an
    answer [true] can still be trusted: the history is linearizable. *)
Theorem checkSingle_killed_sound history cp killed fuel lg :
  timed history →
  checkSingle model (makeEntries history) cp killed fuel = Ok (Some (true, lg)) →
  linearizable model history.
Proof using EqualOk0.
  intros Ht Hr. apply (checkSingle_answer history cp fuel true lg Ht); [|done].
  revert Hr. unfold checkSingle. destruct (start _ _); cbn; [|done]. apply loop_not_killed.
Qed.

(** ** Partitions *)
Lemma collect_results parts rs : ∀ count,
  (count + length rs = parts)%nat → rs ≠ [] →
  ∃ n rest, collect false parts count true (Result <$> rs) = Some (forallb id rs, false, n, rest).
Proof.
  induction rs as [|r rs IH]; intros count Hlen Hne; [done|]. cbn in *.
  destruct r; cbn; [|eauto]. case_decide as Hc.
  - destruct rs; cbn in *; [eauto|lia].
  - apply IH; [lia|]. intros ->. cbn in *. lia.
Qed.

Lemma arrivals_exist history :
  Forall timed (model_partition model history) →
  ∃ arr, arrivals_of model (operation_partitions model history) arr.
Proof using EqualOk0.
  unfold operation_partitions, arrivals_of. induction 1 as [|h l Ht Hl (arr & rs & Ha & Hrs)].
  - exists [], []. by split; [|constructor].
  - destruct (checkSingle_decides h false Ht) as (b & F & lg & HF & _).
    exists (Result b :: arr), (b :: rs). rewrite Ha. split; [done|].
    constructor; [by exists F, lg|done].
Qed.

Lemma results_correct cp parts rs :
  Forall timed parts →
  Forall2 (λ h b, ∃ fuel l, checkSingle model h cp (λ _, false) fuel = Ok (Some (b, l)))
    (makeEntries <$> parts) rs →
  forallb id rs = true ↔ Forall (linearizable model) parts.
Proof using EqualOk0.
  intros Ht. revert rs. induction Ht as [|h l Ht Hl IH]; intros rs Hrs; cbn in Hrs.
  - apply Forall2_nil_inv_l in Hrs as ->. cbn. split; [constructor|done].
  - apply Forall2_cons_inv_l in Hrs as (b & rs' & (fuel & lg & Hb) & Hrs & ->). cbn.
    rewrite andb_true_iff, (IH _ Hrs), Forall_cons. unfold id.
    by rewrite (checkSingle_answer _ _ _ _ _ Ht Hb).
Qed.

Lemma operations_decided history :
  Forall timed (model_partition model history) →
  model_partition model history ≠ [] →
  (∃ arr, arrivals_of model (operation_partitions model history) arr) ∧
  ∀ arr, arrivals_of model (operation_partitions model history) arr →
    ∃ b, CheckOperations model history arr = Some b ∧
         (b = true ↔ Forall (linearizable model) (model_partition model history)).
Proof using EqualOk0.
  intros Ht Hne. split; [by apply arrivals_exist|].
  intros arr (rs & Harr & Hrs). pose proof (Forall2_length _ _ _ Hrs) as Hlen.
  apply Permutation_map_inv in Harr as (rs' & -> & Hperm).
  unfold CheckOperations, checkOperations, checkParallel. change (map Result rs') with (Result <$> rs').
  destruct (collect_results (length (operation_partitions model history)) rs' 0) as (n & rest & ->).
  - by rewrite <-Hperm.
  - intros ->. rewrite Hperm in Hlen. unfold operation_partitions in Hlen.
    rewrite length_fmap in Hlen. by destruct (model_partition model history).
  - cbn. eexists. split; [done|]. rewrite <-(results_correct _ _ _ Ht Hrs).
    assert (forallb id rs' = forallb id rs) as ->.
    { apply eq_true_iff_eq. rewrite !forallb_forall. setoid_rewrite <-list_elem_of_In.
      by setoid_rewrite Hperm. }
    unfold verdict. by destruct (forallb id rs).
Qed.

(** [CheckOperations] without a timeout, on a history whose partitions are
    timed and not none: every partition's goroutine sends a result, in any
    order, and once they have, the answer is [true] exactly when every
    partition is linearizable, whatever the order of arrival. *)
Theorem CheckOperations_correct history :
  Forall timed (model_partition model history) →
  model_partition model history ≠ [] →
  (∃ arr, arrivals_of model (operation_partitions model history) arr) ∧
  ∀ arr, arrivals_of model (operation_partitions model history) arr →
    ∃ b, CheckOperations model history arr = Some b ∧
         (b = true ↔ Forall (linearizable model) (model_partition model history)).
Proof using EqualOk0. apply operations_decided. Qed.

(** Enough results behind the loop end the wait for the others. *)
Lemma wait_all_results parts rs rest : ∀ count,
  (parts ≤ count + length rs)%nat → wait_all parts count ((Result <$> rs) ++ rest) = Some ().
Proof.
  induction rs as [|r rs IH]; intros count Hle; cbn in *.
  - destruct rest; cbn; rewrite decide_True by lia; done.
  - case_decide; [done|]. apply IH. lia.
Qed.

(** The loop over results [rs] of some partitions, with the timeout and the
    results [lt] of the others behind them when they are not all: it ends,
    [false] comes from a result, [true] without a timeout needs all of
    them, and the wait behind it ends when it is entered. *)
Lemma collect_arrived ci parts rs lt tl : ∀ count ok,
  (count + length rs + length lt = parts)%nat →
  (tl = [] ∧ lt = [] ∧ rs ≠ []) ∨ tl = TimedOut :: (Result <$> lt) →
  ∃ ok' out n rest, collect ci parts count ok ((Result <$> rs) ++ tl) = Some (ok', out, n, rest) ∧
    (ok' = false → ok = false ∨ false ∈ rs) ∧
    (ok' = true → out = false → ok = true ∧ Forall (eq true) rs ∧ lt = [] ∧ rs ≠ []) ∧
    (out = true → TimedOut ∈ tl) ∧
    (ci = true → wait_all parts n rest = Some ()).
Proof.
  induction rs as [|r rs IH]; intros count ok Hlen Htl; cbn in Hlen.
  { destruct Htl as [(_ & _ & ?)| ->]; [done|]. exists ok, true, count, (Result <$> lt). cbn.
    split_and!; [done|auto|done|by left|]. intros _.
    rewrite <-(app_nil_r (Result <$> lt)). apply wait_all_results. lia. }
  cbn. destruct (negb (ok && r) && negb ci) eqn:Hstop.
  { apply andb_true_iff in Hstop as [Hok%negb_true_iff Hci%negb_true_iff].
    exists (ok && r), false, (S count), ((Result <$> rs) ++ tl).
    split_and!; [done| |congruence|done|congruence]. destruct ok, r; try done; set_solver. }
  case_decide as Hlast.
  { destruct rs; [|cbn in Hlen; lia]. destruct lt; [|cbn in Hlen; lia]. cbn in Hlen |- *.
    exists (ok && r), false, (S count), tl. split_and!; [done| | |done|].
    - destruct ok, r; try done; set_solver.
    - intros Hb _. apply andb_true_iff in Hb as [-> ->]. split_and!; [done|by repeat constructor|done|done].
    - intros _. destruct tl; cbn; by rewrite decide_True by lia. }
  destruct (IH (S count) (ok && r)) as (ok' & out & n & rest & Hc & Hf & Ht & Hout & Hw); [lia| |].
  { destruct Htl as [(-> & -> & _)| ->]; [left|by right]. split_and!; [done|done|].
    intros ->. cbn in Hlen. lia. }
  exists ok', out, n, rest. split_and!; [done| | |done|done].
  - intros H'. destruct (Hf H') as [Hor|?]; [|set_solver]. destruct ok, r; try done; set_solver.
  - intros H' Ho. destruct (Ht H' Ho) as (Hb & Hall & Heq & Hne). apply andb_true_iff in Hb as [-> ->].
    split_and!; [done|by constructor|done|done].
Qed.

(** A search that ended before the timer and said [false] has found a
    partition that is not linearizable. *)
Lemma early_false cp parts kills results :
  Forall timed parts → Forall3 (sent model cp) (makeEntries <$> parts) kills results →
  false ∈ early kills results → ¬ Forall (linearizable model) parts.
Proof using EqualOk0.
  intros Ht. revert kills results. induction Ht as [|h l Ht Hl IH]; intros kills results H3 Hin; cbn in H3.
  - inversion H3; subst. by apply not_elem_of_nil in Hin.
  - inversion H3 as [|? k b ? ks bs (fuel & lg & Hs) H3']; subst. clear H3; rename H3' into H3.
    rewrite Forall_cons. intros [Hlin Hrest]. destruct k as [k|]; cbn in *.
    + by eapply IH.
    + apply elem_of_cons in Hin as [<-|Hin]; [|by eapply IH].
      by apply (checkSingle_answer _ _ _ _ _ Ht Hs) in Hlin.
Qed.

(** When none was late and all said [true], every partition is linearizable. *)
Lemma early_all cp parts kills results :
  Forall timed parts → Forall3 (sent model cp) (makeEntries <$> parts) kills results →
  late kills results = [] → Forall (eq true) (early kills results) → Forall (linearizable model) parts.
Proof using EqualOk0.
  intros Ht. revert kills results. induction Ht as [|h l Ht Hl IH]; intros kills results H3 Hlate Hall; cbn in H3.
  - done.
  - inversion H3 as [|? k b ? ks bs (fuel & lg & Hs) H3']; subst. clear H3; rename H3' into H3.
    destruct k as [k|]; cbn in *; [done|]. apply Forall_cons in Hall as [<- Hall].
    constructor; [by apply (checkSingle_answer _ _ _ _ _ Ht Hs)|by eapply IH].
Qed.

Lemma early_late cp hs kills results :
  Forall3 (sent model cp) hs kills results →
  (length (early kills results) + length (late kills results) = length hs)%nat.
Proof. induction 1 as [|h [k|] b hs ks bs _ _ IH]; cbn; unfold early, late in *; lia. Qed.

(** Every goroutine sends its result, killed or not. *)
Lemma sent_exist cp parts kills :
  Forall timed parts → length kills = length parts →
  ∃ results, Forall3 (sent model cp) (makeEntries <$> parts) kills results.
Proof using EqualOk0.
  intros Ht. revert kills. induction Ht as [|h l Ht Hl IH]; intros [|k kills] Hlen; try done.
  - exists []. constructor.
  - destruct (IH kills) as [rs Hrs]; [by injection Hlen|].
    destruct (checkSingle_decides h cp Ht) as (b & F & lg & HF & _).
    unfold checkSingle in HF. destruct (start model (makeEntries h)) as [c|] eqn:Hs; [|done].
    destruct (loop_killed_ends cp (default (λ _, false) k) F 0 c _ HF) as [[b' lg'] Hb'].
    exists (b' :: rs). constructor; [|done]. exists F, lg'. unfold checkSingle. by rewrite Hs.
Qed.

(** C9. The search with a timeout, verbose or not, on a history whose
    partitions are timed: whichever searches the timer finds unfinished and
    whenever each of them sees the kill flag, every goroutine sends its
    result; and whatever order the results arrive in, it returns, in verbose
    mode after the wait for the killed searches too, unless there is no
    partition and no timeout, when it waits forever.  It says that the history
    is fine only if every partition is linearizable, that it is illegal only if
    one is not, and that it does not know only after the timeout. *)
Theorem CheckOperationsTimeout_correct history verbose :
  let parts := model_partition model history in
  Forall timed parts →
  (∀ kills, length kills = length parts →
    ∃ arr, TimedOut ∈ arr ∧ arrivals_until model verbose (operation_partitions model history) kills arr) ∧
  ∀ kills arr, arrivals_until model verbose (operation_partitions model history) kills arr →
    match checkOperations model history verbose arr with
    | Some CheckOk => parts ≠ [] ∧ Forall (linearizable model) parts
    | Some Illegal => ¬ Forall (linearizable model) parts
    | Some Unknown => TimedOut ∈ arr
    | None => parts = [] ∧ TimedOut ∉ arr
    end.
Proof using EqualOk0.
  intros parts Ht. subst parts. unfold operation_partitions. split.
  { intros kills Hlen. destruct (sent_exist verbose _ kills Ht Hlen) as [rs Hrs].
    exists ((Result <$> early kills rs) ++ TimedOut :: (Result <$> late kills rs)).
    split; [set_solver|]. exists rs, (early kills rs), (late kills rs). auto. }
  intros kills arr (results & rs & lt & H3 & Hearly & Hlate & Harr).
  pose proof (early_late _ _ _ _ H3) as Hlen. rewrite <-Hearly, <-Hlate, length_fmap in Hlen.
  unfold checkOperations, checkParallel, operation_partitions. rewrite length_fmap.
  destruct (decide (arr = [])) as [->|Hne].
  { destruct Harr as [Harr|[-> Harr]]; [by destruct rs|]. destruct rs; [|done]. cbn.
    split; [by destruct (model_partition model history)|apply not_elem_of_nil]. }
  assert (∃ tl, arr = (Result <$> rs) ++ tl ∧
    (tl = [] ∧ lt = [] ∧ rs ≠ [] ∨ tl = TimedOut :: (Result <$> lt))) as (tl & -> & Htl).
  { destruct Harr as [->|[-> ->]]; [by eauto|]. exists []. rewrite app_nil_r. split; [done|left].
    split_and!; [done..|]. by intros ->. }
  destruct (collect_arrived verbose (length (model_partition model history)) rs lt tl 0 true)
    as (ok & out & n & rest & -> & Hfalse & Htrue & Hout & Hw); [lia|done|]. cbn.
  assert ((if verbose then wait_all (length (model_partition model history)) n rest else Some ()) = Some ()) as ->
    by (destruct verbose; auto).
  cbn. unfold verdict. destruct ok; cbn; [destruct out; cbn|].
  - set_solver.
  - destruct (Htrue eq_refl eq_refl) as (_ & Hall & -> & Hrs). split.
    + intros Hnil. rewrite Hnil in Hlen. by destruct rs; cbn in Hlen; [|lia].
    + eapply early_all; [done|exact H3|by apply Permutation_nil_l in Hlate|by rewrite <-Hearly].
  - eapply early_false; [done|exact H3|]. rewrite <-Hearly. by destruct (Hfalse eq_refl).
Qed.

Lemma no_partition_waits history arr :
  model_partition model history = [] →
  arrivals_of model (operation_partitions model history) arr →
  arr = [] ∧ CheckOperations model history arr = None.
Proof.
  intros Hnone (rs & Harr & Hrs). unfold operation_partitions in Hrs. rewrite Hnone in Hrs.
  apply Forall2_nil_inv_l in Hrs as ->. apply Permutation_nil_r in Harr as ->.
  unfold CheckOperations, checkOperations, checkParallel, operation_partitions.
  by rewrite Hnone.
Qed.

(** A model that splits a history into no partition at all makes
    [CheckOperations] without a timeout wait forever: nothing ever arrives. *)
Theorem CheckOperations_no_partition history arr :
  model_partition model history = [] →
  arrivals_of model (operation_partitions model history) arr →
  arr = [] ∧ CheckOperations model history arr = None.
Proof. apply no_partition_waits. Qed.
End Correct.
