(* ===== verification/PartialOrder.v ===== *)
(** * porcupine: partial linearizations respect real time

    [checkSingle] collects partial linearizations, the stacks of its search.
    An operation is pushed only while no return of an operation outside the
    stack is before its call, whatever the cache says and whenever the search
    is killed: [checkSingle_respects]. *)
From S2P Require Import Prelude GoLib Bitset PorcModel PorcList Checker CheckerSearch CheckerCorrect.
Local Open Scope Z_scope.

Section Walk.
Context {State Input Output : Type} `{EqDecision State} (model : Model State Input Output).
Context (N : nat) (n : Z).
Context (mt : ptr → option ptr) (idn : ptr → Z) (val : ptr → option (value Input Output)).
Context (wf : wf_layout N n mt idn val) (two_each : Z.of_nat N = 2 * n).
Local Abbreviation heap := (heap Input Output).
Local Abbreviation config := (config State Input Output).
Local Abbreviation sound := (sound N n mt idn val).
Local Abbreviation rem := (rem N idn).

(** The call entries [xs] are linearized in turn, each before the returns of
    the operations that are not linearized yet. *)
Definition in_time (xs : list ptr) : Prop := ∀ k x, xs !! k = Some x →
  (x < N)%nat ∧ is_Some (mt x) ∧ (∀ y, y ∈ take k xs → idn y ≠ idn x) ∧
  ∀ r, (r < N)%nat → mt r = None → (∀ y, y ∈ take k xs → idn y ≠ idn r) → (r < x)%nat.

(** The ids of such a sequence. *)
Definition timely (ids : list Z) : Prop := ∃ xs, ids = idn <$> xs ∧ xs ≠ [] ∧ in_time xs.

Lemma in_time_snoc xs x :
  in_time xs → (x < N)%nat → is_Some (mt x) → (∀ y, y ∈ xs → idn y ≠ idn x) →
  (∀ r, (r < N)%nat → mt r = None → (∀ y, y ∈ xs → idn y ≠ idn r) → (r < x)%nat) → in_time (xs ++ [x]).
Proof.
  intros Hxs Hx Hm Hnew Hr k y Hk. apply lookup_app_Some in Hk as [Hk|[Hlen Hk]].
  - rewrite take_app_le by (apply lookup_lt_Some in Hk; lia). by apply Hxs.
  - apply list_lookup_singleton_Some in Hk as [Hk <-]. replace k with (length xs) by lia. by rewrite take_app_length.
Qed.

(** The list and the bits of a configuration that is gone back to. *)
Record base (h : heap) (lin : list Z) : Prop := {
  b_list : dseg (cells h) None (N :: rem lin) None;
  b_agrees : agrees N mt idn val (cells h);
  b_words : words lin;
  b_length : length lin = length (newBitset n);
}.

(** The stack: under each call the list and the bits from before it was
    linearized, with only calls in front of it. *)
Inductive frames : heap → list Z → list (callsEntry State) → Prop :=
  | frames_nil h lin : rem lin = locs N → frames h lin []
  | frames_cons h lin x s calls h0 lin0 pre suf m :
      rem lin0 = pre ++ x :: suf → Forall (λ y, mt y ≠ None) pre → mt x = Some m →
      rem lin = drop_op idn x (rem lin0) → clear lin (idn x) = Ok lin0 → unlift (Some x) h = Ok h0 →
      base h0 lin0 → frames h0 lin0 calls →
      frames h lin ({| c_entry := x; c_state := s |} :: calls).

Lemma frames_rem h lin calls : frames h lin calls →
  ∀ y, y ∈ rem lin ↔ (y < N)%nat ∧ ∀ v, v ∈ calls → idn y ≠ idn (c_entry v).
Proof.
  induction 1 as [h lin Hl|h lin x s calls h0 lin0 pre suf m _ _ _ Hl _ _ _ _ IH]; intros y.
  - rewrite Hl, elem_of_locs. set_solver.
  - rewrite Hl, elem_of_drop_op, IH. setoid_rewrite elem_of_cons. naive_solver.
Qed.

Lemma frames_in_time h lin calls : frames h lin calls → in_time (c_entry <$> reverse calls).
Proof.
  induction 1 as [h lin _|h lin x s calls h0 lin0 pre suf m Hrem Hpre Hm _ _ _ _ Hf IH]; [done|].
  rewrite reverse_cons, fmap_app. assert (∀ r, r ∈ rem lin0 ↔ (r < N)%nat ∧ ∀ y, y ∈ c_entry <$> reverse calls → idn y ≠ idn r) as Hnew.
  { intros r. rewrite (frames_rem _ _ _ Hf). setoid_rewrite list_elem_of_fmap. setoid_rewrite elem_of_reverse.
    naive_solver. }
  destruct (proj1 (Hnew x)) as [Hx Hnx]; [rewrite Hrem; clear; set_solver|].
  apply in_time_snoc; [done|done|by exists m|done|]. cbn. intros r Hr Hmr Hn.
  assert (r ∈ rem lin0) as Hin by (by apply Hnew).
  pose proof (decreasing_rem N idn lin0) as Hdec. rewrite Hrem in Hin, Hdec. rewrite Forall_forall in Hpre.
  apply elem_of_app in Hin as [Hin|[->|Hin]%elem_of_cons]; [by apply Hpre in Hin|congruence|].
  by eapply decreasing_app.
Qed.

(** The search on its way. *)
Record walk (c : config) : Prop := {
  w_sound : sound c;
  w_frames : frames (cf_heap c) (cf_linearized c) (cf_calls c);
  w_cursor : ∃ pre suf, rem (cf_linearized c) = pre ++ suf ∧ Forall (λ y, mt y ≠ None) pre ∧
    cf_entry c = head suf;
  w_longest : longest_all timely (cf_longest c);
}.

Lemma walk_stack c seq :
  walk c → cf_calls c ≠ [] → call_ids (cf_heap c) (cf_calls c) = Ok seq → timely seq.
Proof.
  intros Hw Hne Hids. exists (c_entry <$> reverse (cf_calls c)). split_and!.
  - apply mapM_Ok_inv in Hids. pose proof (g_calls _ _ _ _ _ _ (w_sound _ Hw)) as Hlt.
    apply Forall_reverse in Hlt. clear Hne. induction Hids as [|v id l k Hv _ IH]; [done|].
    apply Forall_cons in Hlt as [Hlt Hl]. cbn. rewrite <-(IH Hl). f_equal.
    destruct (agrees_cell _ _ _ _ _ _ (g_agrees _ _ _ _ _ _ (w_sound _ Hw)) Hlt) as (nd & Hnd & _ & _ & Hid).
    rewrite (load_Ok _ _ nd Hnd) in Hv. by injection Hv as <-.
  - intros Hnil%fmap_nil_inv. apply Hne. by rewrite <-(reverse_involutive (cf_calls c)), Hnil.
  - eapply frames_in_time, Hw.
Qed.

Lemma walk_goto c pre x suf :
  walk c → rem (cf_linearized c) = pre ++ x :: suf → Forall (λ y, mt y ≠ None) pre → mt x ≠ None →
  walk (goto c (head suf)).
Proof.
  intros [Hs Hf _ Hl] Hrem Hpre Hx. split; [by apply sound_goto|done| |done].
  exists (pre ++ [x]), suf. split_and!; [by rewrite <-(assoc_L (++))| |done].
  apply Forall_app. by repeat constructor.
Qed.

Lemma walk_call cp c c' pre x suf m :
  walk c → rem (cf_linearized c) = pre ++ x :: suf → Forall (λ y, mt y ≠ None) pre → cf_entry c = Some x →
  mt x = Some m → step model cp c = Ok (Some c') → walk c'.
Proof.
  intros Hw Hrem Hpre Hcur Hm Hstep. pose proof Hw as [Hs Hf _ Hl].
  destruct (lifted_exists _ _ _ _ _ wf _ _ _ _ _ Hs Hrem Hm) as (b & h & Hlift).
  rewrite (step_call model _ _ _ _ _ wf cp _ _ _ _ _ _ _ Hs Hrem Hcur Hm Hlift) in Hstep. injection Hstep as <-.
  assert (x ∈ rem (cf_linearized c)) as Hx by (rewrite Hrem; clear; set_solver).
  destruct (step_at model val (cf_state c) x m) as [ok s]. destruct (_ && _); [|eapply walk_goto; [done..|congruence]].
  split; [|cbn|by exists [], (rem b)|done].
  - eapply sound_child; [done| |done]. by apply elem_of_rem in Hx as [? _].
  - econstructor; [done..|exact (lf_rem _ _ _ _ _ _ Hlift)|by eapply clear_lifted|exact (lf_unlift _ _ _ _ _ _ Hlift)| |done].
    split; apply Hs.
Qed.

Lemma walk_back cp c c' pre r suf :
  walk c → rem (cf_linearized c) = pre ++ r :: suf → cf_entry c = Some r → mt r = None →
  step model cp c = Ok (Some c') → walk c'.
Proof.
  intros Hw Hrem Hcur Hm Hstep. pose proof Hw as [Hs Hf _ Hl].
  destruct (good_node _ _ _ _ _ _ _ _ _ Hs Hrem) as (nd & Hload & _ & Hnm & _ & _ & _).
  unfold step in Hstep. rewrite Hcur, Hload in Hstep. cbn [mbind outcome_bind] in Hstep. rewrite Hnm, Hm in Hstep.
  unfold backtrack in Hstep. destruct (cf_calls c) as [|v calls] eqn:Hcalls; [done|].
  destruct (backtrack_longest _ _ _ _ _ wf cp c Hs) as (lg & Hlg & Hlen). rewrite Hcalls in Hlg.
  inversion Hf as [|h lin x s calls' h0 lin0 pre0 suf0 m Hrem0 Hpre0 Hmx _ Hclr Hun [Hb1 Hb2 Hb3 Hb4] Hf0]; subst.
  destruct (agrees_cell _ _ _ _ _ x (g_agrees _ _ _ _ _ _ Hs)) as (nx & Hnx & _ & _ & Hidx).
  { pose proof (g_calls _ _ _ _ _ _ Hs) as Hc. rewrite Hcalls in Hc. by apply Forall_cons in Hc as [? _]. }
  destruct (dseg_node (cells h0) None (N :: pre0) x suf0) as (nx0 & Hnx0 & Hnext); [by rewrite Hrem0 in Hb1|].
  rewrite Hlg in Hstep. cbn [mbind outcome_bind c_entry] in Hstep.
  rewrite (load_Ok _ x nx Hnx) in Hstep. cbn [mbind outcome_bind] in Hstep. rewrite Hidx, Hclr in Hstep.
  cbn [mbind outcome_bind] in Hstep. rewrite Hun in Hstep. cbn [mbind outcome_bind] in Hstep.
  rewrite (load_Ok _ x nx0 Hnx0) in Hstep. injection Hstep as <-. split; cbn.
  - pose proof (g_calls _ _ _ _ _ _ Hs) as Hc. rewrite Hcalls in Hc. apply Forall_cons in Hc as [_ Hc].
    split; [apply Hs|done..].
  - done.
  - exists (pre0 ++ [x]), suf0. split_and!; [by rewrite <-(assoc_L (++))| |done].
    apply Forall_app. split; [done|]. constructor; [congruence|done].
  - destruct cp; [|by injection Hlg as <-]. apply bind_Ok in Hlg as (seq & Hseq & Hlg).
    eapply update_longest_all; [|done|done]. eapply walk_stack; [done|by rewrite Hcalls|by rewrite Hcalls].
Qed.

Lemma walk_step cp c c' : walk c → step model cp c = Ok (Some c') → walk c'.
Proof.
  intros Hw Hstep. destruct (w_cursor _ Hw) as (pre & [|x suf] & Hrem & Hpre & Hcur); cbn in Hcur.
  - unfold step in Hstep. by rewrite Hcur in Hstep.
  - destruct (mt x) as [m|] eqn:Hm; [by eapply walk_call|by eapply walk_back].
Qed.

Lemma walk_loop cp killed fuel : ∀ i c b longest,
  walk c → loop model cp killed fuel i c = Ok (Some (b, longest)) → longest_all timely longest.
Proof.
  induction fuel as [|fuel IH]; intros i c b longest Hw Hl; [done|]. cbn in Hl.
  pose proof Hw as [Hs Hf _ Hlong]. destruct (good_head _ _ _ _ _ _ Hs) as (hd & Hhd & Hnext).
  rewrite Hhd in Hl. cbn in Hl. rewrite Hnext in Hl. destruct (rem (cf_linearized c)) as [|x l] eqn:Hrem; cbn in Hl.
  - apply bind_Ok in Hl as (r & Hfin & [= ->]). unfold finish in Hfin.
    apply bind_Ok in Hfin as (seq & Hids & [= <- <-]).
    destruct (decide (cf_calls c = [])) as [Hnil|Hne].
    + inversion Hf as [h lin Hlin|]; [|congruence]. subst. rewrite Hrem in Hlin.
      assert (N = 0%nat) as HN by (by destruct N). pose proof (g_longest _ _ _ _ _ _ Hs) as Hlen.
      unfold go_len in Hlen. destruct (cf_longest c); [constructor|cbn in Hlen; lia].
    + apply Forall_fmap, Forall_true. intros x. by eapply walk_stack.
  - destruct (killed i); [by injection Hl as _ <-|].
    apply bind_Ok in Hl as (r & Hstep & Hl). destruct r as [c'|]; [|by injection Hl as _ <-].
    eapply IH; [|done]. by eapply walk_step.
Qed.

Lemma walk_start c : at_front model N n mt idn val c → cf_calls c = [] → rem (cf_linearized c) = locs N →
  longest_all timely (cf_longest c) → walk c.
Proof.
  intros [[Hs _] Hcur] Hcalls Hrem Hl. split; [done| | |done].
  - rewrite Hcalls. by constructor.
  - by exists [], (rem (cf_linearized c)).
Qed.
End Walk.

(** ** On a history *)
Section Respects.
Context {State Input Output : Type} `{EqDecision State} `{GoSort} (model : Model State Input Output).
Local Abbreviation Operation := (Operation Input Output).

(** No operation is twice in [ids], and each is called before any operation
    that is not earlier in [ids] returns. *)
Definition respects (ops : list Operation) (ids : list Z) : Prop :=
  ids ≠ [] ∧ ∀ k i, ids !! k = Some i → (i ∉ take k ids) ∧
    ∀ o j o', (i, o) ∈ indexed ops → (j, o') ∈ indexed ops → j ∉ take k ids → op_Call o ≤ op_Return o'.

Lemma timely_respects (ops : list Operation) (N : nat) mt idn val call_at ret_at ids :
  placed mt idn val call_at ret_at (indexed ops) → covers call_at ret_at (locs N) (indexed ops) →
  timely N mt idn ids → respects ops ids.
Proof.
  intros Hpl Hcov (xs & -> & Hne & Hin). split; [by intros ->%fmap_nil_inv|].
  intros k i Hi. rewrite list_lookup_fmap in Hi. apply fmap_Some in Hi as (x & Hx & ->).
  destruct (Hin _ _ Hx) as (Hlt & [m Hm] & Hnew & Hbefore). split.
  { rewrite <-fmap_take. intros (y & Heq & Hy)%list_elem_of_fmap. by apply (Hnew y). }
  intros o j o' Hio Hjo Hnot.
  apply elem_of_locs, Hcov in Hlt as (i' & o1 & Hi' & Hcase).
  destruct (pl_call _ _ _ _ _ _ Hpl _ _ Hi') as (Hmc & Hidc & _).
  destruct (pl_ret _ _ _ _ _ _ Hpl _ _ Hi') as (Hmr & _).
  assert (x = call_at i') as -> by (destruct Hcase; congruence). rewrite Hidc in Hio.
  destruct (pl_ret _ _ _ _ _ _ Hpl _ _ Hjo) as (Hmj & Hidj & _).
  enough (¬ op_Return o' < op_Call o) by lia. apply (pl_order _ _ _ _ _ _ Hpl i' o j o' Hio Hjo).
  apply Hbefore; [apply elem_of_locs, Hcov; eauto|done|]. intros y Hy Heq. apply Hnot.
  rewrite <-fmap_take. apply list_elem_of_fmap. exists y. split; [congruence|done].
Qed.

Lemma start_longest (es : list (entry Input Output)) c P : start model es = Ok c → longest_all P (cf_longest c).
Proof.
  unfold start. intros Hst. apply bind_Ok in Hst as ([h e] & _ & Hst). apply bind_Ok in Hst as (len & _ & Hst).
  destruct (alloc _ h) as [h1 hd]. apply bind_Ok in Hst as (h2 & _ & [= <-]).
  by apply Forall_replicate.
Qed.

Lemma checkSingle_respects (ops : list Operation) cp killed fuel b longest :
  timed ops → checkSingle model (makeEntries ops) cp killed fuel = Ok (Some (b, longest)) →
  Forall (respects ops) (partials longest).
Proof.
  intros Ht Hc. set (es := makeEntries ops) in *.
  assert (es ≡ₚ operation_entries 0 ops) as Hperm by apply go_sort_perm.
  assert (StronglySorted (λ a b, byTime_Less b a = false) es) as Hsorted by apply go_sort_sorted, byTime_strict_weak.
  pose proof (entries_length _ _ Hperm) as Hlen.
  destruct (start_at_front model es (go_len ops) Hlen) as (h & c & Hh & Hst & Hfr & Hcalls & Hlin & _).
  pose proof (entries_placed _ _ _ Ht Hperm Hsorted Hh) as Hpl.
  pose proof (entries_layout _ _ _ Ht Hperm Hsorted Hh) as Hwf.
  pose proof (entries_covers _ _ Hperm) as Hcov.
  unfold checkSingle in Hc. rewrite Hst in Hc. cbn [mbind outcome_bind] in Hc.
  eapply Forall_impl; [eapply longest_all_partials, walk_loop; [exact Hwf|exact Hlen| |exact Hc]|].
  - apply (walk_start model); [by apply Hfr|done|by rewrite Hlin, rem_empty|].
    by eapply start_longest.
  - intros ids. by apply timely_respects with (val := h_val h) (call_at := call_at es) (ret_at := ret_at es).
Qed.
End Respects.
