(* ===== verification/KvModel.v ===== *)
(** * The key/value model handed to porcupine (src/src/models/kv.go)

    [KvModel] checks one key at a time; [Partition] splits a history by key.
    [StoreModel] is the specification of the whole store.  The locality
    theorem says that a history is linearizable for the whole store exactly
    when each key's part is, so [CheckOperations] on [KvModel] decides
    linearizability of the store. *)
From S2P Require Import Prelude GoLib PorcModel Checker CheckerSearch CheckerCorrect.
Local Open Scope Z_scope.

Record KvInput := {
  Op : Z;  (* uint8: 0 get, 1 put, 2 append, otherwise append with return value *)
  Key : string;
  Value : string;
}.
Record KvOutput := { o_Value : string }.

Abbreviation KvOperation := (Operation KvInput KvOutput).

(** [KvModel.Partition] *)
Definition by_key (history : list KvOperation) : gmap string (list KvOperation) :=
  foldl (λ m v, let key := Key (op_Input v) in <[key := map_get [] m key ++ [v]]> m)
    ∅ history.

Definition Partition_kv `{GoSort} (history : list KvOperation) : list (list KvOperation) :=
  let m := by_key history in
  let keys := go_sort String.ltb (map_to_list m).*1 in
  map_get [] m <$> keys.

(** [KvModel.Step] *)
Definition Step_kv (st : string) (inp : KvInput) (out : KvOutput) : bool * string :=
  if decide (Op inp = 0) then (bool_decide (o_Value out = st), st)
  else if decide (Op inp = 1) then (true, Value inp)
  else if decide (Op inp = 2) then (true, st +:+ Value inp)
  else (bool_decide (o_Value out = st), st +:+ Value inp).

(** [KvModel.DescribeOperation] *)
Definition DescribeOperation_kv (inp : KvInput) (out : KvOutput) : string :=
  if decide (Op inp = 0) then
    "get('" +:+ Key inp +:+ "') -> '" +:+ o_Value out +:+ "'"
  else if decide (Op inp = 1) then
    "put('" +:+ Key inp +:+ "', '" +:+ Value inp +:+ "')"
  else if decide (Op inp = 2) then
    "append('" +:+ Key inp +:+ "', '" +:+ Value inp +:+ "')"
  else "<invalid>".

Definition KvModel `{GoSort} : Model string KvInput KvOutput := {|
  Partition := Some Partition_kv;
  PartitionEvent := None;
  Init := EmptyString;
  Step := Step_kv;
  Equal := None;
|}.

#[export] Instance KvModel_equal_ok `{GoSort} : EqualOk KvModel.
Proof. by apply shallow_equal_ok. Qed.

(** ** The whole store *)
Definition Step_store (st : gmap string string) (inp : KvInput) (out : KvOutput)
    : bool * gmap string string :=
  let '(ok, v) := Step_kv (map_get EmptyString st (Key inp)) inp out in
  (ok, <[Key inp := v]> st).

Definition StoreModel : Model (gmap string string) KvInput KvOutput := {|
  Partition := None;
  PartitionEvent := None;
  Init := ∅;
  Step := Step_store;
  Equal := None;
|}.

(** The operations on one key. *)
Definition on_key (k : string) (history : list KvOperation) : list KvOperation :=
  filter (λ v, Key (op_Input v) = k) history.

(** ** [Partition] *)
Lemma by_key_snoc history v :
  by_key (history ++ [v]) =
    <[Key (op_Input v) := map_get [] (by_key history) (Key (op_Input v)) ++ [v]]> (by_key history).
Proof. unfold by_key. by rewrite foldl_app. Qed.

Lemma by_key_lookup history k :
  by_key history !! k = if decide (on_key k history = []) then None else Some (on_key k history).
Proof.
  induction history as [|v history IH] using rev_ind; [done|].
  rewrite by_key_snoc. unfold on_key in *. rewrite filter_app.
  destruct (decide (Key (op_Input v) = k)) as [<-|Hk].
  - rewrite (filter_cons_True _ v) by done. unfold map_get. rewrite lookup_insert_eq, IH.
    rewrite (decide_False (P := _ ++ _ = [])) by (by destruct (filter _ history)).
    case_decide as He; cbn; [by rewrite He|done].
  - rewrite lookup_insert_ne by done. by rewrite filter_cons_False, app_nil_r.
Qed.

Lemma Partition_kv_keys `{GoSort} history :
  ∃ keys, NoDup keys ∧ (∀ k, k ∈ keys ↔ on_key k history ≠ []) ∧
          Partition_kv history = (λ k, on_key k history) <$> keys.
Proof.
  set (keys := go_sort String.ltb (map_to_list (by_key history)).*1).
  assert (keys ≡ₚ (map_to_list (by_key history)).*1) as Hk by apply go_sort_perm.
  assert (∀ k, k ∈ keys ↔ on_key k history ≠ []) as Hel.
  { intros k. rewrite Hk, list_elem_of_fmap. split.
    - intros ([k' l] & -> & Hl%elem_of_map_to_list). rewrite by_key_lookup in Hl.
      by case_decide.
    - intros Hne. exists (k, on_key k history). split; [done|].
      apply elem_of_map_to_list. by rewrite by_key_lookup, decide_False. }
  exists keys. split_and!; [rewrite Hk; apply NoDup_fst_map_to_list|done|].
  unfold Partition_kv. fold keys. apply list_fmap_ext. intros i k Hi.
  apply list_elem_of_lookup_2, Hel in Hi. unfold map_get.
  by rewrite by_key_lookup, decide_False.
Qed.

(** [KvModel.Partition] splits a history by key: it lists, for every key
    that occurs and for nothing else, the operations on that key in their
    original order. *)
Theorem Partition_kv_by_key `{GoSort} history :
  ∃ keys, NoDup keys ∧ (∀ k, k ∈ keys ↔ on_key k history ≠ []) ∧
          Partition_kv history = (λ k, on_key k history) <$> keys.
Proof. apply Partition_kv_keys. Qed.

Lemma Forall_partition `{GoSort} (P : list KvOperation → Prop) history :
  P [] → Forall P (Partition_kv history) ↔ ∀ k, P (on_key k history).
Proof.
  intros Hnil. destruct (Partition_kv_keys history) as (keys & _ & Hel & ->).
  rewrite Forall_fmap, Forall_forall. split.
  - intros HP k. destruct (decide (on_key k history = [])) as [->|Hne]; [done|].
    by apply HP, Hel.
  - intros HP k _. apply HP.
Qed.

Lemma Partition_kv_empty `{GoSort} history : Partition_kv history = [] ↔ history = [].
Proof.
  destruct (Partition_kv_keys history) as (keys & _ & Hel & ->). split.
  - intros He%fmap_nil_inv. destruct history as [|v history]; [done|].
    assert (Key (op_Input v) ∈ keys) as Hin.
    { apply Hel. unfold on_key. by rewrite filter_cons_True. }
    rewrite He in Hin. by apply not_elem_of_nil in Hin.
  - intros ->. destruct keys as [|k keys]; [done|]. destruct (proj1 (Hel k)); [left|done].
Qed.

(** ** Locality *)

(** The store's legality, key by key. *)
Lemma legal_store_keys `{GoSort} ops : ∀ st,
  legal StoreModel st ops ↔
  ∀ k, legal KvModel (map_get EmptyString st k) (on_key k ops).
Proof.
  induction ops as [|o ops IH]; intros st; [done|]. cbn [legal].
  change (Step StoreModel) with Step_store. unfold Step_store.
  destruct (Step_kv (map_get EmptyString st (Key (op_Input o))) (op_Input o) (op_Output o))
    as [ok v] eqn:Hs; cbn [fst snd]. rewrite IH. unfold on_key. split.
  - intros [-> Hk] k. specialize (Hk k). destruct (decide (Key (op_Input o) = k)) as [<-|Hne].
    + rewrite filter_cons_True by done. cbn. rewrite Hs; cbn. split; [done|].
      unfold map_get in *. by rewrite lookup_insert_eq in Hk.
    + rewrite filter_cons_False by done. unfold map_get in *. by rewrite lookup_insert_ne in Hk.
  - intros Hk. split.
    + specialize (Hk (Key (op_Input o))). rewrite filter_cons_True in Hk by done.
      cbn in Hk. rewrite Hs in Hk. by destruct Hk.
    + intros k. specialize (Hk k). destruct (decide (Key (op_Input o) = k)) as [<-|Hne].
      * rewrite filter_cons_True in Hk by done. cbn in Hk. rewrite Hs in Hk.
        unfold map_get in *. rewrite lookup_insert_eq. by destruct Hk.
      * rewrite filter_cons_False in Hk by done. unfold map_get in *. by rewrite lookup_insert_ne.
Qed.

Lemma real_time_filter P `{!∀ x, Decision (P x)} (l : list KvOperation) :
  real_time l → real_time (filter P l).
Proof.
  induction l as [|o l IH]; [done|]. intros [Ho Hl]%real_time_cons.
  rewrite filter_cons. case_decide; [|by apply IH]. apply real_time_cons. split; [|by apply IH].
  intros b [_ Hb]%list_elem_of_filter. by apply Ho.
Qed.

(** The operation that returns first. *)
Lemma first_return (l : list KvOperation) :
  l ≠ [] → ∃ b, b ∈ l ∧ ∀ x, x ∈ l → op_Return b ≤ op_Return x.
Proof.
  induction l as [|o l IH]; [done|]. intros _.
  destruct (decide (l = [])) as [->|Hne].
  - exists o. split; [left|]. by intros x ->%list_elem_of_singleton.
  - destruct (IH Hne) as (b & Hb & Hmin). destruct (decide (op_Return o ≤ op_Return b)).
    + exists o. split; [left|]. intros x [->|Hx]%elem_of_cons; [done|].
      specialize (Hmin x Hx). lia.
    + exists b. split; [by right|]. intros x [->|Hx]%elem_of_cons; [lia|]. auto.
Qed.

(** Linearizations of the keys merge into one of the store. *)
Lemma merge_keys `{GoSort} history : ∀ st,
  timed history →
  (∀ k, ∃ ord, ord ≡ₚ on_key k history ∧ real_time ord ∧
     legal KvModel (map_get EmptyString st k) ord) →
  ∃ ord, ord ≡ₚ history ∧ real_time ord ∧ legal StoreModel st ord.
Proof.
  induction history as [history IH] using (induction_ltof1 _ length). intros st Ht Hk.
  destruct (decide (history = [])) as [->|Hne].
  { exists []. split_and!; [done| |done]. intros i j a b _ Ha. done. }
  destruct (first_return history Hne) as (b & Hb & Hmin).
  destruct (Hk (Key (op_Input b))) as (ord & Hord & Hrt & Hleg).
  destruct ord as [|o ord].
  { assert (b ∈ on_key (Key (op_Input b)) history) as Hin by (by apply list_elem_of_filter).
    rewrite <-Hord in Hin. by apply not_elem_of_nil in Hin. }
  assert (o ∈ history ∧ Key (op_Input o) = Key (op_Input b)) as [Ho Hkey].
  { assert (o ∈ on_key (Key (op_Input b)) history) as Hin by (rewrite <-Hord; left).
    apply list_elem_of_filter in Hin as [? ?]. done. }
  apply real_time_cons in Hrt as [Hfirst Hrt].
  assert (op_Call o ≤ op_Return b) as Hearly.
  { assert (b ∈ o :: ord) as Hin by (rewrite Hord; by apply list_elem_of_filter).
    apply elem_of_cons in Hin as [->|Hin].
    - unfold timed in Ht. rewrite Forall_forall in Ht. by apply Ht.
    - specialize (Hfirst _ Hin). lia. }
  destruct (proj1 (elem_of_Permutation _ _) Ho) as (history' & Hh).
  rewrite <-Hkey in *. cbn in Hleg.
  set (v := (Step_kv (map_get EmptyString st (Key (op_Input o))) (op_Input o) (op_Output o))) in *.
  destruct (IH history' ltac:(unfold ltof; by rewrite Hh; cbn; lia) (<[Key (op_Input o) := v.2]> st))
    as (ord' & Hord' & Hrt' & Hleg').
  { unfold timed in *. rewrite Hh in Ht. by apply Forall_cons in Ht as [_ ?]. }
  { intros k. unfold on_key in *. destruct (decide (Key (op_Input o) = k)) as [<-|Hne'].
    - exists ord. split_and!; [|done|].
      + rewrite Hh, filter_cons_True in Hord by done. by apply (inj (cons o)) in Hord.
      + unfold map_get. rewrite lookup_insert_eq. by destruct Hleg.
    - destruct (Hk k) as (ordk & Hordk & ? & ?). exists ordk. split_and!; [|done|].
      + by rewrite Hordk, Hh, filter_cons_False.
      + unfold map_get in *. by rewrite lookup_insert_ne. }
  exists (o :: ord'). split_and!.
  - by rewrite Hord', Hh.
  - apply real_time_cons. split; [|done]. intros x Hx. rewrite Hord' in Hx.
    specialize (Hmin x ltac:(rewrite Hh; by right)). lia.
  - cbn [legal]. change (Step StoreModel) with Step_store. unfold Step_store. fold v.
    destruct v as [ok v']; cbn [fst snd] in *. by destruct Hleg.
Qed.

Lemma KvModel_local `{GoSort} history :
  timed history →
  Forall (linearizable KvModel) (model_partition KvModel history) ↔
  linearizable StoreModel history.
Proof.
  intros Ht. change (model_partition KvModel) with Partition_kv.
  rewrite Forall_partition; cycle 1.
  { exists []. split_and!; [done| |done]. intros i j a b _ Ha. done. }
  split.
  - intros Hk. destruct (merge_keys history ∅ Ht) as (ord & Hord & Hrt & Hleg); [|by exists ord].
    intros k. destruct (Hk k) as (ord & ? & ? & Hleg). by exists ord.
  - intros (ord & Hord & Hrt & Hleg) k. exists (on_key k ord). split_and!.
    + unfold on_key. by rewrite Hord.
    + by apply real_time_filter.
    + by apply (proj1 (legal_store_keys _ _) Hleg).
Qed.

Lemma linearizable_nil {State Input Output} (model : Model State Input Output) :
  linearizable model [].
Proof. exists []. split_and!; [done| |done]. intros i j a b _ Ha. done. Qed.

(** C20. Locality: a timed history of the key/value store is linearizable as a
    whole exactly when its part on each key is, so checking the partitions of
    [KvModel] one by one is sound and complete. *)
Theorem KvModel_locality `{GoSort} history :
  timed history →
  Forall (linearizable KvModel) (model_partition KvModel history) ↔
  linearizable StoreModel history.
Proof. apply KvModel_local. Qed.

Lemma timed_on_key k history : timed history → timed (on_key k history).
Proof.
  unfold timed, on_key. rewrite !Forall_forall. intros Ht o [_ Ho]%list_elem_of_filter. auto.
Qed.

Lemma timed_partition `{GoSort} history :
  timed history → Forall timed (model_partition KvModel history).
Proof.
  intros Ht. change (model_partition KvModel) with Partition_kv. apply Forall_partition; [constructor|].
  intros k. by apply timed_on_key.
Qed.

Lemma KvModel_decided `{GoSort} history :
  timed history → history ≠ [] →
  (∃ arr, arrivals_of KvModel (operation_partitions KvModel history) arr) ∧
  ∀ arr, arrivals_of KvModel (operation_partitions KvModel history) arr →
    ∃ b, CheckOperations KvModel history arr = Some b ∧
         (b = true ↔ linearizable StoreModel history).
Proof.
  intros Ht Hne. destruct (operations_decided KvModel history) as [Hex Hall].
  - by apply timed_partition.
  - by intros Hp%Partition_kv_empty.
  - split; [done|]. intros arr Harr. destruct (Hall arr Harr) as (b & Hb & Hiff).
    exists b. split; [done|]. by rewrite Hiff, KvModel_local.
Qed.

(** [CheckOperations] on [KvModel], for a timed history that is not empty
    and without a timeout: an answer is always reached, and it says whether
    the history is linearizable as a history of the whole store. *)
Theorem CheckOperations_KvModel `{GoSort} history :
  timed history → history ≠ [] →
  (∃ arr, arrivals_of KvModel (operation_partitions KvModel history) arr) ∧
  ∀ arr, arrivals_of KvModel (operation_partitions KvModel history) arr →
    ∃ b, CheckOperations KvModel history arr = Some b ∧
         (b = true ↔ linearizable StoreModel history).
Proof. apply KvModel_decided. Qed.

(** ** A history to apply the theorems to *)
Section Scenario.
Local Instance kv_sort : GoSort := insertion_GoSort.

Definition kv_op (c o : Z) (k v : string) (t0 : Z) (r : string) (t1 : Z) : KvOperation :=
  {| op_ClientId := c; op_Input := {| Op := o; Key := k; Value := v |}; op_Call := t0;
     op_Output := {| o_Value := r |}; op_Return := t1 |}.

(** Two appends overlap; a later get sees both. *)
Definition kv_history : list KvOperation :=
  [kv_op 1 3 "x" "a" 0 "b" 4; kv_op 2 3 "x" "b" 1 "" 3; kv_op 1 0 "x" "" 5 "ba" 6;
   kv_op 2 1 "y" "c" 7 "" 8].

Lemma kv_history_timed : timed kv_history.
Proof. unfold timed, kv_history, kv_op. repeat constructor; cbn; lia. Defined.

Lemma kv_partition_timed : Forall timed (model_partition KvModel kv_history).
Proof. vm_compute. repeat constructor; by intros. Defined.

Lemma checkSingle_correct_witness :
  timed kv_history ∧
  ∃ b F lg,
    (∀ fuel, (F ≤ fuel)%nat →
       checkSingle KvModel (makeEntries kv_history) true (λ _, false) fuel = Ok (Some (b, lg))) ∧
    (b = true ↔ linearizable KvModel kv_history).
Proof.
  split; [apply kv_history_timed|].
  apply (checkSingle_correct KvModel kv_history true). apply kv_history_timed.
Defined.

Lemma checkSingle_killed_sound_witness :
  timed (on_key "x" kv_history) ∧ linearizable KvModel (on_key "x" kv_history).
Proof.
  split; [vm_compute; repeat constructor; by intros|].
  refine (checkSingle_killed_sound KvModel (on_key "x" kv_history) true (λ i, bool_decide (40 ≤ i)%nat)
            50 _ _ _); [vm_compute; repeat constructor; by intros|].
  vm_compute. reflexivity.
Defined.

Lemma CheckOperations_correct_witness :
  Forall timed (model_partition KvModel kv_history) ∧
  ∃ arr, arrivals_of KvModel (operation_partitions KvModel kv_history) arr.
Proof.
  split; [apply kv_partition_timed|].
  refine (proj1 (CheckOperations_correct KvModel kv_history _ _)); [apply kv_partition_timed|].
  by vm_compute.
Defined.

(** The result of one partition arrives before the timer goes off; the
    other search reads the kill flag at its first iteration. *)
Definition one_late : list (option (nat → bool)) := [None; Some (λ _, true)].

Lemma CheckOperationsTimeout_correct_witness :
  Forall timed (model_partition KvModel kv_history) ∧
  (∃ arr, TimedOut ∈ arr ∧ arrivals_until KvModel true (operation_partitions KvModel kv_history) one_late arr) ∧
  match checkOperations KvModel kv_history true [Result true; TimedOut; Result false] with
  | Some CheckOk => model_partition KvModel kv_history ≠ [] ∧
      Forall (linearizable KvModel) (model_partition KvModel kv_history)
  | Some Illegal => ¬ Forall (linearizable KvModel) (model_partition KvModel kv_history)
  | Some Unknown => TimedOut ∈ [Result true; TimedOut; Result false]
  | None => model_partition KvModel kv_history = [] ∧ TimedOut ∉ [Result true; TimedOut; Result false]
  end.
Proof.
  split; [apply kv_partition_timed|].
  destruct (CheckOperationsTimeout_correct KvModel kv_history true kv_partition_timed) as [Hex Hall].
  split; [apply Hex; by vm_compute|]. apply (Hall one_late).
  exists [true; false], [true], [false]. split; [|by vm_compute; auto].
  let ps := eval vm_compute in (operation_partitions KvModel kv_history) in
  assert (operation_partitions KvModel kv_history = ps) as -> by (vm_compute; reflexivity).
  apply Forall3_cons; [|apply Forall3_cons; [|apply Forall3_nil]];
    (exists 60%nat; eexists; vm_compute; reflexivity).
Defined.

Lemma CheckOperations_no_partition_witness :
  model_partition KvModel [] = [] ∧ CheckOperations KvModel [] [] = None.
Proof.
  split; [reflexivity|].
  refine (proj2 (CheckOperations_no_partition KvModel [] [] _ _)); [reflexivity|].
  exists []. split; [done|constructor].
Defined.

Lemma KvModel_locality_witness :
  timed kv_history ∧
  (Forall (linearizable KvModel) (model_partition KvModel kv_history) ↔
   linearizable StoreModel kv_history).
Proof. split; [apply kv_history_timed|]. apply KvModel_locality. apply kv_history_timed. Defined.

Lemma CheckOperations_KvModel_witness :
  timed kv_history ∧ kv_history ≠ [] ∧
  ∃ arr, arrivals_of KvModel (operation_partitions KvModel kv_history) arr.
Proof.
  split; [apply kv_history_timed|]. split; [done|].
  refine (proj1 (CheckOperations_KvModel kv_history _ _)); [apply kv_history_timed|done].
Defined.

Lemma Partition_kv_by_key_witness :
  ∃ keys, NoDup keys ∧ (∀ k, k ∈ keys ↔ on_key k kv_history ≠ []) ∧
    Partition_kv kv_history = (λ k, on_key k kv_history) <$> keys.
Proof. exact (Partition_kv_by_key kv_history). Defined.
End Scenario.
