(* ===== verification/KVHistory.v ===== *)
(** * kvsrv against its own test: histories of the system and porcupine

    A complete trace of the key/value system gives the history that the lab's
    tests record (each call with the times of its invocation and return).
    [kvsrv_history_accepted]: when Put is only called by clients the server
    knows, [CheckOperations] on [KvModel] answers [true] for it.
    [kvsrv_put_twice]: without that restriction the source has a run, with one
    lost reply, whose history is not linearizable. *)
From S2P Require Import Prelude GoLib Labrpc KVServer KVSystem.
From S2P Require Import PorcModel Checker CheckerSearch CheckerCorrect KvModel.
Local Open Scope Z_scope.

(** The input recorded for a call. *)
Definition kv_input (o : op) : KvInput :=
  match o with
  | OpGet k => {| Op := 0; Key := k; Value := EmptyString |}
  | OpPut k v => {| Op := 1; Key := k; Value := v |}
  | OpAppend k v => {| Op := 3; Key := k; Value := v |}
  end.

Definition operation (c : Z) (o : op) (t0 : Z) (r : string) (t1 : Z) : KvOperation :=
  {| op_ClientId := c; op_Input := kv_input o; op_Call := t0;
     op_Output := {| o_Value := r |}; op_Return := t1 |}.

(** The completed operations of a trace; an event's time is its position. *)
Fixpoint history_from (pend : gmap Z (op * Z)) (now : Z) (tr : list event) : list KvOperation :=
  match tr with
  | [] => []
  | Inv c o :: tr => history_from (<[c := (o, now)]> pend) (now + 1) tr
  | Res c r :: tr =>
      match pend !! c with
      | Some (o, t0) => operation c o t0 r now :: history_from (delete c pend) (now + 1) tr
      | None => history_from pend (now + 1) tr
      end
  end.

Definition history (tr : list event) : list KvOperation := history_from ∅ 0 tr.

(** ** Times *)
Definition started_before (now : Z) (pend : gmap Z (op * Z)) : Prop :=
  map_Forall (λ _ p, p.2 < now) pend.

Lemma started_before_insert now pend c o :
  started_before now pend → started_before (now + 1) (<[c := (o, now)]> pend).
Proof.
  intros Hp. apply map_Forall_insert_2; cbn; [lia|].
  eapply map_Forall_impl; [done|]. cbn. lia.
Qed.

Lemma started_before_delete now pend c :
  started_before now pend → started_before (now + 1) (delete c pend).
Proof. intros Hp. apply map_Forall_delete. eapply map_Forall_impl; [done|]. cbn. lia. Qed.

Lemma history_from_times tr : ∀ pend now,
  started_before now pend →
  Forall (λ x, op_Call x ≤ op_Return x ∧ now ≤ op_Return x) (history_from pend now tr).
Proof.
  induction tr as [|[c o|c r] tr IH]; intros pend now Hp; cbn [history_from]; [constructor|..].
  - eapply Forall_impl; [apply IH, started_before_insert, Hp|]. cbn. lia.
  - destruct (pend !! c) as [[o t0]|] eqn:Hc.
    + constructor; cbn; [specialize (Hp _ _ Hc); cbn in Hp; lia|].
      eapply Forall_impl; [apply IH, started_before_delete, Hp|]. cbn. lia.
    + eapply Forall_impl; [apply IH|cbn; lia]. eapply map_Forall_impl; [done|]. cbn. lia.
Qed.

Lemma history_timed tr : timed (history tr).
Proof.
  eapply Forall_impl; [apply history_from_times, map_Forall_empty|]. by intros x [? _].
Qed.

(** ** The store's legality, up to missing keys *)
Definition same_store (st st' : gmap string string) : Prop :=
  ∀ k, map_get EmptyString st k = map_get EmptyString st' k.

#[export] Instance same_store_equiv : Equivalence same_store.
Proof.
  split; unfold same_store; [done|intros ?? Hs k; by rewrite Hs|].
  intros s1 s2 s3 H1 H2 k. by rewrite H1.
Qed.

#[export] Instance map_get_same_store : Proper (same_store ==> eq ==> eq) (map_get EmptyString).
Proof. intros st st' Hs k ? <-. apply Hs. Qed.

#[export] Instance legal_same_store : Proper (same_store ==> eq ==> iff) (legal StoreModel).
Proof.
  intros st st' Hs ops ? <-. rewrite !(legal_store_keys (H:=insertion_GoSort)).
  by setoid_rewrite Hs.
Qed.

(** The model's step is the store's operation. *)
Lemma legal_apply o st st' r c t0 t1 ops :
  apply_op o st = (st', r) → legal StoreModel st' ops →
  legal StoreModel st (operation c o t0 r t1 :: ops).
Proof.
  intros Ho Hl. cbn. destruct o as [k|k v|k v]; cbn in *; injection Ho as <- <-;
    (split; [|]); try done; try by apply bool_decide_eq_true_2.
  revert Hl. apply legal_same_store; [|done]. intros k'. unfold Step_store, Step_kv; cbn.
  rewrite decide_True by done; cbn. unfold map_get.
  destruct (decide (k = k')) as [<-|]; [by rewrite lookup_insert_eq|by rewrite lookup_insert_ne].
Qed.

(** ** Traces of the atomic store are linearizable

    [started t pend]: the calls in progress have their start recorded.
    [decided t pend D]: [D] holds, for exactly the calls that took effect and
    have not returned, the operation the history will record. *)
Record started (t : spec) (pend : gmap Z (op * Z)) : Prop := {
  st_waiting c o : calls t !! c = Some (Waiting o) → ∃ t0, pend !! c = Some (o, t0);
  st_done c r : calls t !! c = Some (Done r) → is_Some (pend !! c);
}.

Record decided (t : spec) (pend : gmap Z (op * Z)) (D : gmap Z KvOperation) : Prop := {
  dc_done c r o t0 : calls t !! c = Some (Done r) → pend !! c = Some (o, t0) →
    ∃ t1, D !! c = Some (operation c o t0 r t1);
  dc_only c x : D !! c = Some x → ∃ r, calls t !! c = Some (Done r);
}.

Definition all_idle (t : spec) : Prop := map_Forall (λ _ q, q = Idle) (calls t).

(** The history still to come: the decided calls, then a linearization of the
    others from the present store. *)
Definition linearizes (t : spec) (pend : gmap Z (op * Z)) (h : list KvOperation) : Prop :=
  ∃ D ord, h ≡ₚ (map_to_list D).*2 ++ ord ∧ decided t pend D ∧
           real_time ord ∧ legal StoreModel (store t) ord.

Lemma linearizes_inv t c o pend now h :
  calls t !! c = Some Idle →
  linearizes {| store := store t; calls := <[c := Waiting o]> (calls t) |}
    (<[c := (o, now)]> pend) h →
  linearizes t pend h.
Proof.
  intros Hc (D & ord & Hh & [Hd Ho] & Hrt & Hl). exists D, ord. split_and!; [done| |done|done].
  cbn in *. split.
  - intros c' r o' t0 Hr Hp. assert (c ≠ c') by congruence.
    apply (Hd c' r o' t0); by rewrite lookup_insert_ne.
  - intros c' x Hx. destruct (Ho _ _ Hx) as [r Hr].
    destruct (decide (c = c')) as [<-|]; [by rewrite lookup_insert_eq in Hr|].
    rewrite lookup_insert_ne in Hr by done. eauto.
Qed.

Lemma linearizes_lin t c o st' r t0 pend now h :
  calls t !! c = Some (Waiting o) → apply_op o (store t) = (st', r) →
  pend !! c = Some (o, t0) → t0 < now → Forall (λ x, now ≤ op_Return x) h →
  linearizes {| store := st'; calls := <[c := Done r]> (calls t) |} pend h →
  linearizes t pend h.
Proof.
  intros Hc Ho Hp Ht Hlate (D & ord & Hh & [Hd Hon] & Hrt & Hl). cbn in *.
  destruct (Hd c r o t0) as [t1 Hx]; [apply lookup_insert_eq|done|].
  exists (delete c D), (operation c o t0 r t1 :: ord). split_and!.
  - rewrite Hh, <-(map_to_list_delete D c _ Hx). cbn. by rewrite Permutation_middle.
  - split.
    + intros c' r' o' t0' Hr Hp'. assert (c ≠ c') by congruence. rewrite lookup_delete_ne by done.
      apply (Hd c' r' o' t0'); [by rewrite lookup_insert_ne|done].
    + intros c' x' [Hne Hx']%lookup_delete_Some. destruct (Hon _ _ Hx') as [r' Hr'].
      rewrite lookup_insert_ne in Hr' by done. eauto.
  - apply real_time_cons. split; [|done]. intros b Hb. cbn.
    rewrite Forall_forall in Hlate. specialize (Hlate b). rewrite Hh in Hlate.
    specialize (Hlate ltac:(set_solver)). lia.
  - by eapply legal_apply.
Qed.

Lemma linearizes_res t c r o t0 now pend h :
  calls t !! c = Some (Done r) → pend !! c = Some (o, t0) →
  linearizes {| store := store t; calls := <[c := Idle]> (calls t) |} (delete c pend) h →
  linearizes t pend (operation c o t0 r now :: h).
Proof.
  intros Hc Hp (D & ord & Hh & [Hd Hon] & Hrt & Hl). cbn in *.
  assert (D !! c = None) as Hnone.
  { apply eq_None_not_Some. intros [x Hx]. destruct (Hon _ _ Hx) as [r' Hr'].
    by rewrite lookup_insert_eq in Hr'. }
  exists (<[c := operation c o t0 r now]> D), ord. split_and!; [| |done|done].
  - rewrite Hh, (map_to_list_insert D c _ Hnone). done.
  - split.
    + intros c' r' o' t0' Hr Hp'. destruct (decide (c = c')) as [<-|Hne].
      * exists now. rewrite lookup_insert_eq. by simplify_eq.
      * rewrite lookup_insert_ne by done.
        apply (Hd c' r' o' t0'); [by rewrite lookup_insert_ne|by rewrite lookup_delete_ne].
    + intros c' x [[<- _]|[Hne Hx]]%lookup_insert_Some; [eauto|].
      destruct (Hon _ _ Hx) as [r' Hr']. rewrite lookup_insert_ne in Hr' by done. eauto.
Qed.

Lemma started_step t l t' pend now :
  spec_step t l t' → started t pend →
  started t' match l with
             | Some (Inv c o) => <[c := (o, now)]> pend
             | Some (Res c _) => delete c pend
             | None => pend
             end.
Proof.
  intros Hs [Hw Hd]. inversion Hs as [? c o Hc|? c o st' r Hc Ho|? c r Hc]; subst;
    (split; cbn; intros c' y; (destruct (decide (c = c')) as [<-|Hne];
      [rewrite lookup_insert_eq|rewrite lookup_insert_ne by done])).
  - intros [= ->]. rewrite lookup_insert_eq. eauto.
  - rewrite lookup_insert_ne by done. apply Hw.
  - done.
  - rewrite lookup_insert_ne by done. apply Hd.
  - done.
  - apply Hw.
  - intros _. destruct (Hw _ _ Hc) as [t0 ->]. eauto.
  - apply Hd.
  - done.
  - rewrite lookup_delete_ne by done. apply Hw.
  - done.
  - rewrite lookup_delete_ne by done. apply Hd.
Qed.

Lemma spec_trace_linearizes t tr t' :
  run spec_step t tr t' → all_idle t' → ∀ pend now,
  started_before now pend → started t pend → linearizes t pend (history_from pend now tr).
Proof.
  intros Hr Hidle. induction Hr as [t|t l t1 tr t' Hs Hr IH]; intros pend now Hb Hst.
  - exists ∅, []. split_and!; [done| |by intros i j a b _ Ha|done].
    split; [|by intros c x; rewrite lookup_empty].
    intros c r o t0 Hc. by specialize (Hidle _ _ Hc).
  - specialize (IH Hidle). pose proof (started_step _ _ _ _ now Hs Hst) as Hst1.
    inversion Hs as [? c o Hc|? c o st' r Hc Ho|? c r Hc]; subst; cbn [option_list app history_from].
    + eapply linearizes_inv; [done|]. apply IH; [by apply started_before_insert|done].
    + destruct (st_waiting _ _ Hst _ _ Hc) as [t0 Hp].
      eapply linearizes_lin; [done..|exact (Hb _ _ Hp)| |by apply IH].
      eapply Forall_impl; [by apply history_from_times|]. by intros x [_ ?].
    + destruct (st_done _ _ Hst _ _ Hc) as [[o t0] Hp]. cbn. rewrite Hp.
      eapply linearizes_res; [done..|]. apply IH; [by apply started_before_delete|done].
Qed.

Lemma spec_history_linearizable ids tr t :
  run spec_step (spec_init ids) tr t → all_idle t → linearizable StoreModel (history tr).
Proof.
  intros Hr Hidle. destruct (spec_trace_linearizes _ _ _ Hr Hidle ∅ 0) as (D & ord & Hh & [_ Hon] & Hrt & Hl).
  - apply map_Forall_empty.
  - split; intros c y; cbn; rewrite lookup_map_on; by case_decide.
  - exists ord. split_and!; [|done|done]. unfold history. rewrite Hh.
    replace D with (∅ : gmap Z KvOperation); [by rewrite map_to_list_empty|].
    symmetry. apply map_empty. intros c. apply eq_None_not_Some. intros [x Hx].
    destruct (Hon _ _ Hx) as [r Hc]. cbn in Hc. rewrite lookup_map_on in Hc. by case_decide.
Qed.

(** ** The key/value system passes the check *)

(** Every call has returned. *)
Definition is_free (ph : phase string) : bool := match ph with Free => true | _ => false end.

Definition quiescent (s : sys) : Prop := map_Forall (λ _ x, is_free x.2 = true) (clerks s).

#[export] Instance quiescent_dec s : Decision (quiescent s).
Proof. unfold quiescent. apply _. Defined.

Lemma quiescent_idle p t : sim p t → quiescent (erase p) → all_idle t.
Proof.
  intros Hsim Hq c q Hc. pose proof (sim_calls _ _ Hsim c) as Hrel. rewrite Hc in Hrel.
  destruct (p_clerks p !! c) as [[ck ph]|] eqn:Hck; [|done].
  assert (is_free (phase_map fst ph) = true) as Hf.
  { apply (Hq c (ck, phase_map fst ph)). cbn. by rewrite lookup_fmap, Hck. }
  destruct Hrel as (_ & _ & _ & Hrel). cbn in Hrel. by destruct ph, q.
Qed.

Lemma kvsrv_history_linearizable ids tr s :
  run (sys_step put_registered) (sys_init ids) tr s → quiescent s →
  linearizable StoreModel (history tr).
Proof.
  intros Hr Hq. destruct (kvsrv_simulated _ _ _ Hr) as (p & t & Ht & Hsim & ->).
  eapply spec_history_linearizable; [done|]. by eapply quiescent_idle.
Qed.

(** C19. The history of every quiescent run of the key/value system, with Put
    only called by clients the server knows, is accepted by porcupine when it
    holds an operation: once the results have arrived, [CheckOperations] on
    [KvModel] answers [true].  On the empty history it waits forever. *)
Theorem kvsrv_history_accepted `{GoSort} ids tr s arr :
  run (sys_step put_registered) (sys_init ids) tr s → quiescent s →
  arrivals_of KvModel (operation_partitions KvModel (history tr)) arr →
  CheckOperations KvModel (history tr) arr = match history tr with [] => None | _ => Some true end.
Proof.
  intros Hr Hq Harr. pose proof (kvsrv_history_linearizable _ _ _ Hr Hq) as Hlin.
  destruct (decide (history tr = [])) as [Hnil|Hne].
  - rewrite Hnil in *. by destruct (no_partition_waits KvModel [] arr (proj2 (Partition_kv_empty []) eq_refl) Harr).
  - destruct (KvModel_decided (history tr) (history_timed tr) Hne) as [_ Hall].
    destruct (Hall arr Harr) as (b & -> & Hb).
    assert (b = true) as -> by (by apply Hb). by destruct (history tr).
Qed.

(** ** Running the system on a script *)
Inductive action :=
  | Invoke (c : Z) (o : op)
  | Drop (c : Z)      (* the request is lost *)
  | Execute (c : Z)   (* the handler runs *)
  | Lose (c : Z)      (* the reply is lost *)
  | Return (c : Z).   (* the reply arrives *)

Definition act (allowed : KVServer → Z → op → bool) (s : sys) (a : action)
    : option (option event * sys) :=
  let move c kv x := {| srv := kv; clerks := <[c := x]> (clerks s) |} in
  match a with
  | Invoke c o =>
      match clerks s !! c with
      | Some (ck, Free) =>
          if allowed (srv s) c o then Some (Some (Inv c o), move c (srv s) (next_seq ck, Trying o)) else None
      | _ => None
      end
  | Drop c =>
      match clerks s !! c with
      | Some (ck, Trying o) => Some (None, move c (srv s) (ck, Trying o))
      | _ => None
      end
  | Execute c =>
      match clerks s !! c with
      | Some (ck, Trying o) =>
          let '(kv', r) := serve ck o (srv s) in Some (None, move c kv' (ck, Served o r))
      | _ => None
      end
  | Lose c =>
      match clerks s !! c with
      | Some (ck, Served o r) => Some (None, move c (srv s) (ck, Trying o))
      | _ => None
      end
  | Return c =>
      match clerks s !! c with
      | Some (ck, Served o r) => Some (Some (Res c r), move c (srv s) (ck, Free))
      | _ => None
      end
  end.

Fixpoint script (allowed : KVServer → Z → op → bool) (s : sys) (acts : list action)
    : option (list event * sys) :=
  match acts with
  | [] => Some ([], s)
  | a :: acts =>
      '(l, s) ← act allowed s a; '(tr, s) ← script allowed s acts;
      Some (option_list l ++ tr, s)
  end.

Lemma act_step allowed (may : KVServer → Z → op → Prop) a s l s' :
  (∀ kv c o, allowed kv c o = true → may kv c o) →
  act allowed s a = Some (l, s') → sys_step may s l s'.
Proof.
  intros Hok Ha. destruct a as [c o|c|c|c|c]; cbn in Ha;
    destruct (clerks s !! c) as [[ck [|o'|o' r]]|] eqn:Hc; try done.
  - destruct (allowed (srv s) c o) eqn:Hal; [|done]. injection Ha as <- <-. apply sys_call; auto.
  - injection Ha as <- <-. by apply sys_drop.
  - destruct (serve ck o' (srv s)) as [kv' r] eqn:Hs. injection Ha as <- <-. by apply sys_execute.
  - injection Ha as <- <-. by eapply sys_lose.
  - injection Ha as <- <-. by eapply sys_return.
Qed.

Lemma script_run allowed (may : KVServer → Z → op → Prop) acts : ∀ s tr s',
  (∀ kv c o, allowed kv c o = true → may kv c o) →
  script allowed s acts = Some (tr, s') → run (sys_step may) s tr s'.
Proof.
  induction acts as [|a acts IH]; intros s tr s' Hok Hs; cbn in Hs.
  { injection Hs as <- <-. constructor. }
  destruct (act allowed s a) as [[l s1]|] eqn:Ha; cbn in Hs; [|done].
  destruct (script allowed s1 acts) as [[tr1 s2]|] eqn:Hs1; cbn in Hs; [|done].
  injection Hs as <- <-. econstructor; [by eapply act_step|by apply IH].
Qed.

(** Two clients; the first Put of client 1 is executed, its reply is lost, and
    the retry comes after client 2 has read the value and overwritten it. *)
Definition put_twice : list action :=
  [Invoke 1 (OpPut "k" "a"); Execute 1; Lose 1;
   Invoke 2 (OpGet "k"); Execute 2; Return 2;
   Invoke 2 (OpPut "k" "b"); Execute 2; Return 2;
   Execute 1; Return 1;
   Invoke 2 (OpGet "k"); Execute 2; Return 2].

(** Its trace. *)
Definition put_twice_trace : list event :=
  [Inv 1 (OpPut "k" "a"); Inv 2 (OpGet "k"); Res 2 "a"; Inv 2 (OpPut "k" "b"); Res 2 "";
   Res 1 ""; Inv 2 (OpGet "k"); Res 2 "a"].

Lemma put_twice_rejected :
  ∃ lg, checkSingle (KvModel (H:=insertion_GoSort))
          (makeEntries (H:=insertion_GoSort) (on_key "k" (history put_twice_trace)))
          false (λ _, false) 60 = Ok (Some (false, lg)).
Proof. eexists. vm_compute. reflexivity. Qed.

(** C29. The server does not recognise a repeated Put of a client that has never
    appended: with one lost reply, a run of two clients ends with a history
    that is not linearizable, the same Put having taken effect twice. *)
Theorem kvsrv_put_twice :
  ∃ tr s, run (sys_step any_call) (sys_init {[1; 2]}) tr s ∧ quiescent s ∧
          ¬ linearizable StoreModel (history tr).
Proof.
  destruct (script (λ _ _ _, true) (sys_init {[1; 2]}) put_twice) as [[tr s]|] eqn:Hs; [|by vm_compute in Hs].
  exists tr, s. split_and!.
  - by eapply script_run.
  - vm_compute in Hs. injection Hs as _ <-. apply (bool_decide_unpack (quiescent _)). by vm_compute.
  - intros Hlin. rewrite <-(KvModel_local (H:=insertion_GoSort)) in Hlin by apply history_timed.
    assert (tr = put_twice_trace) as -> by (vm_compute in Hs; injection Hs as <- _; done).
    pose proof (proj1 (Forall_partition (H:=insertion_GoSort) _ _ (linearizable_nil _)) Hlin "k") as Hk.
    destruct put_twice_rejected as [lg Hr].
    pose proof (checkSingle_answer _ _ _ _ _ _ (timed_on_key "k" _ (history_timed _)) Hr) as Hiff.
    destruct Hiff as [_ Hiff]. discriminate (Hiff Hk).
Qed.

(** ** A run to apply the theorems to *)

(** Client 2, not known, reads; while the reply is on its way client 1
    appends; that reply is lost, and so is the first one to client 1.  Both
    retry. *)
Definition append_retried : list action :=
  [Invoke 2 (OpGet "k"); Execute 2; Invoke 1 (OpAppend "k" "a"); Drop 1; Execute 1; Lose 2; Lose 1;
   Execute 2; Execute 1; Return 2; Return 1; Invoke 1 (OpPut "k" "b"); Execute 1; Return 1].

Definition append_retried_trace : list event :=
  [Inv 2 (OpGet "k"); Inv 1 (OpAppend "k" "a"); Res 2 "a"; Res 1 ""; Inv 1 (OpPut "k" "b"); Res 1 ""].

Definition put_registered_b (kv : KVServer) (c : Z) (o : op) : bool :=
  negb (is_put o) || bool_decide (is_Some (clientTable kv !! c)).

Lemma put_registered_b_sound kv c o : put_registered_b kv c o = true → put_registered kv c o.
Proof.
  unfold put_registered_b, put_registered, registered. intros H Hp. rewrite Hp in H. cbn in H.
  by apply bool_decide_eq_true in H.
Qed.

Lemma append_retried_run :
  ∃ s, run (sys_step put_registered) (sys_init {[1; 2]}) append_retried_trace s ∧ quiescent s.
Proof.
  destruct (script put_registered_b (sys_init {[1; 2]}) append_retried) as [[tr s]|] eqn:Hs;
    [|by vm_compute in Hs].
  exists s. pose proof (script_run _ put_registered _ _ _ _ put_registered_b_sound Hs) as Hrun.
  vm_compute in Hs. injection Hs as <- <-. split; [exact Hrun|].
  apply (bool_decide_unpack (quiescent _)). by vm_compute.
Qed.

Lemma kvsrv_refines_spec_witness :
  ∃ s t, run spec_step (spec_init {[1; 2]}) append_retried_trace t ∧ store t = data (srv s).
Proof.
  destruct append_retried_run as (s & Hr & _). exists s.
  exact (kvsrv_refines_spec {[1; 2]} append_retried_trace s Hr).
Defined.

Lemma kvsrv_history_accepted_witness :
  ∃ arr, CheckOperations (KvModel (H := insertion_GoSort)) (history append_retried_trace) arr = Some true.
Proof.
  destruct append_retried_run as (s & Hr & Hq).
  destruct (KvModel_decided (H := insertion_GoSort) (history append_retried_trace)
              (history_timed append_retried_trace)) as [[arr Harr] _]; [by vm_compute|].
  exists arr. exact (kvsrv_history_accepted (H := insertion_GoSort) {[1; 2]} append_retried_trace s arr Hr Hq Harr).
Defined.
