(* ===== verification/Kvraft.v ===== *)
(** * The replicated key/value service as it is (src/src/kvraft)

    The service is a skeleton: its handlers leave the reply as it came, the
    clerk calls no server, and [Op], the command of its log, has no fields.
    What is there is modelled: the data, the handlers, the clerk; [StartKVServer]
    and [Kill] are in [KvraftConfig] with the tests' configuration.
    [skeleton_rejected]: any client that puts a value and then gets its key
    makes a history that is not linearizable, so porcupine rejects it. *)
From S2P Require Import Prelude GoLib Labrpc PorcModel KvModel.
Local Open Scope Z_scope.

(** ** [common.go] *)
Definition kvraft_Err := string.
Definition kvraft_OK : kvraft_Err := "OK".
Definition kvraft_ErrNoKey : kvraft_Err := "ErrNoKey".
Definition kvraft_ErrWrongLeader : kvraft_Err := "ErrWrongLeader".

Record KPutAppendArgs := { kpa_Key : string; kpa_Value : string; kpa_Op : string }.
Record KPutAppendReply := { kpr_Err : kvraft_Err }.
Record KGetArgs := { kga_Key : string }.
Record KGetReply := { kgr_Err : kvraft_Err; kgr_Value : string }.

(** ** [server.go]: the command and the handlers *)
Inductive kvraft_Op := KOp.

Definition kvraft_Get_handler (args : KGetArgs) (reply : KGetReply) : KGetReply := reply.
Definition kvraft_PutAppend_handler (args : KPutAppendArgs) (reply : KPutAppendReply) : KPutAppendReply := reply.

(** ** [client.go]: the clerk, which keeps its servers and calls none *)
Record KClerk := { kck_servers : list ClientEnd }.

Definition kvraft_MakeClerk (servers : list ClientEnd) : KClerk := {| kck_servers := servers |}.
Definition kvraft_Get (ck : KClerk) (key : string) : KClerk * string := (ck, EmptyString).
Definition kvraft_PutAppend (ck : KClerk) (key value op : string) : KClerk := ck.
Definition kvraft_Put (ck : KClerk) (key value : string) : KClerk := kvraft_PutAppend ck key value "Put".
Definition kvraft_Append (ck : KClerk) (key value : string) : KClerk := kvraft_PutAppend ck key value "Append".

(** ** What the tests see *)

(** A client's Put of [value] and then its Get, as the tests record them. *)
Definition put_then_get (ck : KClerk) (client : Z) (key value : string) (t : Z) : list KvOperation :=
  let ck := kvraft_Put ck key value in
  let '(_, got) := kvraft_Get ck key in
  [ {| op_ClientId := client; op_Input := {| Op := 1; Key := key; Value := value |};
       op_Call := t; op_Output := {| o_Value := EmptyString |}; op_Return := t + 1 |};
    {| op_ClientId := client; op_Input := {| Op := 0; Key := key; Value := EmptyString |};
       op_Call := t + 2; op_Output := {| o_Value := got |}; op_Return := t + 3 |} ].

(** A Put of a value that is not empty, and a Get after it, is not a history
    of the store. *)
Theorem skeleton_rejected ck client key value t :
  value ≠ EmptyString → ¬ linearizable StoreModel (put_then_get ck client key value t).
Proof.
  intros Hv (ord & Hp & Hrt & Hleg). unfold put_then_get in Hp. cbn in Hp.
  symmetry in Hp. apply Permutation_length_2_inv in Hp as [->| ->].
  - destruct Hleg as [_ [Hg _]].
    change (bool_decide (EmptyString = map_get EmptyString (<[key:=value]> (∅ : gmap string string)) key) = true) in Hg.
    unfold map_get in Hg. rewrite lookup_insert_eq in Hg. by apply bool_decide_eq_true in Hg.
  - apply (Hrt 0%nat 1%nat _ _ ltac:(lia) eq_refl eq_refl). cbn. lia.
Qed.
