(* ===== verification/Visualization.v ===== *)
(** * porcupine: the data of a visualization (src/src/porcupine/visualization.go)

    [computeVisualizationData] turns the histories and partial linearizations
    of a check into what the page shows: one element per operation, the states
    along every partial linearization, and for each operation the largest
    partial linearization that holds it.  It replays each partial
    linearization through the model and panics when a step is refused.
    [visualization_ok]: on what the checker computes it never panics, and the
    data is right.  [VisualizePath] writes the page of the data to a file; the
    HTML around it and [json.Marshal] are arguments.  What the script in the
    HTML does with the data is in [Layout], [Drawing] and [PageUI].

    [DescribeOperation] and [DescribeState] of a model are arguments here.
    As in [Checker], a missing or ill-typed value given to a function of the
    model is a failed type assertion. *)
From S2P Require Import Prelude GoLib Bitset PorcModel PorcList Checker CheckerSearch CheckerCorrect KvModel.
Local Open Scope Z_scope.

Record historyElement := {
  he_ClientId : Z;
  he_Start : Z;
  he_End : Z;
  he_Description : string;
}.
Record linearizationStep := { ls_Index : Z; ls_StateDescription : string }.
Abbreviation partialLinearization := (list linearizationStep).
Record partitionVisualizationData := {
  pv_History : list historyElement;
  pv_PartialLinearizations : list partialLinearization;
  pv_Largest : gmap Z Z;
}.

Section Visualization.
Context {State Input Output : Type} `{EqDecision State} `{GoSort}.
Context (model : Model State Input Output).
Context (DescribeOperation : Input → Output → string) (DescribeState : State → string).
Local Abbreviation Operation := (Operation Input Output).
Local Abbreviation entry := (entry Input Output).
Local Abbreviation value := (value Input Output).

(** [linearizationInfo] *)
Record linearizationInfo := {
  li_history : list (list entry);
  li_partialLinearizations : list (list (list Z));
}.

(** ** The history of a partition *)
Record scan := {
  sn_history : list historyElement;
  sn_callValue : gmap Z value;
  sn_returnValue : gmap Z value;
}.

Definition scan_entry (acc : outcome scan) (elem : entry) : outcome scan :=
  sn ← acc;
  old ← go_index (sn_history sn) (e_id elem);
  if kind elem then
    inp ← call_value (sn_callValue sn !! e_id elem);
    out ← return_value (Some (e_value elem));
    history ← go_set (sn_history sn) (e_id elem)
      {| he_ClientId := he_ClientId old; he_Start := he_Start old;
         he_End := e_time elem; he_Description := DescribeOperation inp out |};
    mret {| sn_history := history; sn_callValue := sn_callValue sn;
            sn_returnValue := <[e_id elem := e_value elem]> (sn_returnValue sn) |}
  else
    history ← go_set (sn_history sn) (e_id elem)
      {| he_ClientId := e_clientId elem; he_Start := e_time elem;
         he_End := he_End old; he_Description := he_Description old |};
    mret {| sn_history := history; sn_callValue := <[e_id elem := e_value elem]> (sn_callValue sn);
            sn_returnValue := sn_returnValue sn |}.

Definition no_element : historyElement :=
  {| he_ClientId := 0; he_Start := 0; he_End := 0; he_Description := "" |}.

Definition scan_history (entries : list entry) : outcome scan :=
  foldl scan_entry
    (Ok {| sn_history := replicate (length entries / 2) no_element;
           sn_callValue := ∅; sn_returnValue := ∅ |}) entries.

(** ** The partial linearizations *)

(** The two maps [largestIndex] and [largestSize]. *)
Record largest := { lg_Index : gmap Z Z; lg_Size : gmap Z Z }.

Definition note_largest (i len histId : Z) (lg : largest) : largest :=
  if decide (map_get 0 (lg_Size lg) histId < len)
  then {| lg_Index := <[histId := i]> (lg_Index lg); lg_Size := <[histId := len]> (lg_Size lg) |}
  else lg.

(** The loop over a partial linearization, which is number [i] and has length
    [len]. *)
Fixpoint replay (sn : scan) (i len : Z) (partial : list Z) (state : State) (lg : largest)
    : outcome (partialLinearization * largest) :=
  match partial with
  | [] => Ok ([], lg)
  | histId :: partial =>
      inp ← call_value (sn_callValue sn !! histId);
      out ← return_value (sn_returnValue sn !! histId);
      let '(ok, state) := Step model state inp out in
      if negb ok then Panic
      else
        '(lin, lg) ← replay sn i len partial state (note_largest i len histId lg);
        Ok ({| ls_Index := histId; ls_StateDescription := DescribeState state |} :: lin, lg)
  end.

Fixpoint replay_all (sn : scan) (i : Z) (partials : list (list Z)) (lg : largest)
    : outcome (list partialLinearization * largest) :=
  match partials with
  | [] => Ok ([], lg)
  | partial :: partials =>
      '(lin, lg) ← replay sn i (go_len partial) partial (Init model) lg;
      '(lins, lg) ← replay_all sn (i + 1) partials lg;
      Ok (lin :: lins, lg)
  end.

(** [sort.Slice] with the longer linearizations first. *)
Definition longer_first (a b : list Z) : bool := bool_decide (go_len b < go_len a).

Definition visualize_partition (entries : list entry) (partials : list (list Z))
    : outcome partitionVisualizationData :=
  sn ← scan_history entries;
  let partials := go_sort longer_first partials in
  '(lins, lg) ← replay_all sn 0 partials {| lg_Index := ∅; lg_Size := ∅ |};
  Ok {| pv_History := sn_history sn; pv_PartialLinearizations := lins; pv_Largest := lg_Index lg |}.

Definition computeVisualizationData (info : linearizationInfo) : outcome (list partitionVisualizationData) :=
  mapM (λ partition,
      entries ← go_index (li_history info) partition;
      partials ← go_index (li_partialLinearizations info) partition;
      visualize_partition entries partials)
    (upto (go_len (li_history info))).

(** What [checkParallel] collects from the goroutines of the partitions. *)
Definition make_info (history : list (list entry)) (longest : list (list (option (nat * list Z)))) : linearizationInfo :=
  {| li_history := history; li_partialLinearizations := partials <$> longest |}.

(** [CheckOperationsVerbose] of porcupine.go: the verdict and what was
    collected; [longest] is what the partitions' searches leave. *)
Definition CheckOperationsVerbose (history : list Operation) (longest : list (list (option (nat * list Z))))
    (arrivals : list arrival) : option (CheckResult * linearizationInfo) :=
  r ← checkOperations model history true arrivals;
  Some (r, make_info (operation_partitions model history) longest).

(** The same for a history of events. *)
Definition CheckEventsVerbose (history : list (Event Input Output)) (longest : list (list (option (nat * list Z))))
    (arrivals : list arrival) : option (CheckResult * linearizationInfo) :=
  r ← checkEvents model history true arrivals;
  Some (r, make_info (event_partitions model history) longest).

(** ** The page

    [Marshal] is [json.Marshal] on the data, [page] the constant [html] with a
    text in the place of its verb.  A file takes from a write the text
    [accept] answers, all of it unless there is an error; [Create] empties it. *)
Section Page.
Context {Error : Type}.
Context (Marshal : list partitionVisualizationData → Error + string) (page : string → string).
Context (accept : string → string * option Error) (Create : string → option Error).

Definition Visualize (info : linearizationInfo) (output : string) : outcome (string * option Error) :=
  data ← computeVisualizationData info;
  match Marshal data with
  | inl err => Ok (output, Some err)
  | inr jsonData => let '(text, err) := accept (page jsonData) in Ok (output +:+ text, err)
  end.

Definition VisualizePath (info : linearizationInfo) (path : string) (files : gmap string string)
    : outcome (gmap string string * option Error) :=
  match Create path with
  | Some err => Ok (files, Some err)
  | None =>
      '(text, err) ← Visualize info EmptyString;
      Ok (<[path := text]> files, err)
  end.

(** A call that reports no error has left the page of the data in the file,
    and nothing else has changed; without errors of the file and of [Marshal]
    there is none. *)
Theorem VisualizePath_writes info path files data :
  (∀ text, (accept text).2 = None → (accept text).1 = text) →
  computeVisualizationData info = Ok data →
  ∃ files' err, VisualizePath info path files = Ok (files', err) ∧
    (∀ f, f ≠ path → files' !! f = files !! f) ∧
    (err = None → ∃ json, Marshal data = inr json ∧ files' !! path = Some (page json)) ∧
    (∀ json, Create path = None → Marshal data = inr json → (accept (page json)).2 = None → err = None).
Proof.
  intros Hacc Hd. unfold VisualizePath, Visualize. rewrite Hd. cbn.
  destruct (Create path) as [e|]; [by exists files, (Some e)|].
  destruct (Marshal data) as [e|json]; cbn.
  - eexists _, _. split_and!; [done| |done|done]. intros f Hf. by rewrite lookup_insert_ne.
  - destruct (accept (page json)) as [text err] eqn:Ha. cbn. eexists _, _. split_and!; [done| | |].
    + intros f Hf. by rewrite lookup_insert_ne.
    + intros ->. exists json. split; [done|]. rewrite lookup_insert_eq.
      specialize (Hacc (page json)). rewrite Ha in Hacc. cbn in Hacc. by rewrite Hacc.
    + intros json' _ [= <-]. by rewrite Ha.
Qed.
End Page.

(** ** What the data should be *)
Definition element_of (o : Operation) : historyElement :=
  {| he_ClientId := op_ClientId o; he_Start := op_Call o; he_End := op_Return o;
     he_Description := DescribeOperation (op_Input o) (op_Output o) |}.

(** The ids [ids] name the operations [sel] of [ops]. *)
Definition names (ops : list Operation) (ids : list Z) (sel : list Operation) : Prop :=
  Forall2 (λ i o, (i, o) ∈ indexed ops) ids sel.

(** [ids] is a sequence of operations that the model accepts in this order. *)
Definition accepted (ops : list Operation) (ids : list Z) : Prop :=
  ∃ sel, names ops ids sel ∧ legal model (Init model) sel.

(** The states along the operations [sel]. *)
Fixpoint states_along (s : State) (sel : list Operation) : list State :=
  match sel with
  | [] => []
  | o :: sel => let s' := (Step model s (op_Input o) (op_Output o)).2 in s' :: states_along s' sel
  end.

Definition shows (ops : list Operation) (ids : list Z) (lin : partialLinearization) : Prop :=
  ∃ sel, names ops ids sel ∧ ls_Index <$> lin = ids ∧
    ls_StateDescription <$> lin = DescribeState <$> states_along (Init model) sel.

(** [idx] maps each id to a longest list that holds it. *)
Definition largest_of (partials : list (list Z)) (idx : gmap Z Z) : Prop :=
  ∀ id, match idx !! id with
        | Some j => ∃ p, 0 ≤ j ∧ partials !! Z.to_nat j = Some p ∧ id ∈ p ∧
            ∀ p', p' ∈ partials → id ∈ p' → (length p' ≤ length p)%nat
        | None => ∀ p, p ∈ partials → id ∉ p
        end.

Record depicts (ops : list Operation) (partials : list (list Z)) (d : partitionVisualizationData)
    : Prop := {
  dp_History : pv_History d = element_of <$> ops;
  dp_Linearizations : ∃ sorted, sorted ≡ₚ partials ∧
    StronglySorted (λ p q, (length q ≤ length p)%nat) sorted ∧
    Forall2 (shows ops) sorted (pv_PartialLinearizations d) ∧
    largest_of sorted (pv_Largest d);
}.

(** ** The history *)
Record scanned (ops : list Operation) (pre : list entry) (sn : scan) : Prop := {
  sc_len : length (sn_history sn) = length ops;
  sc_call i o : (i, o) ∈ indexed ops → call_entry i o ∈ pre →
    sn_callValue sn !! i = Some (VIn (op_Input o)) ∧
    ∃ he, sn_history sn !! Z.to_nat i = Some he ∧ he_ClientId he = op_ClientId o ∧ he_Start he = op_Call o;
  sc_return i o : (i, o) ∈ indexed ops → return_entry i o ∈ pre →
    sn_returnValue sn !! i = Some (VOut (op_Output o)) ∧
    ∃ he, sn_history sn !! Z.to_nat i = Some he ∧ he_End he = op_Return o ∧
      he_Description he = DescribeOperation (op_Input o) (op_Output o);
}.

Lemma indexed_range (ops : list Operation) i o : (i, o) ∈ indexed ops → 0 ≤ i < go_len ops.
Proof.
  intros [Hi Ho%lookup_lt_Some]%elem_of_indexed. unfold go_len. lia.
Qed.

Lemma indexed_fun (ops : list Operation) i o o' :
  (i, o) ∈ indexed ops → (i, o') ∈ indexed ops → o = o'.
Proof. intros [_ H1]%elem_of_indexed [_ H2]%elem_of_indexed. congruence. Qed.

(** Another operation's element is not touched. *)
Lemma lookup_set_other (l : list historyElement) i j x :
  0 ≤ i → 0 ≤ j → i ≠ j → <[Z.to_nat j := x]> l !! Z.to_nat i = l !! Z.to_nat i.
Proof. intros. apply list_lookup_insert_ne. lia. Qed.

Lemma scan_step ops pre sn e i o :
  scanned ops pre sn → (i, o) ∈ indexed ops →
  e = call_entry i o ∨ e = return_entry i o ∧ call_entry i o ∈ pre →
  ∃ sn', scan_entry (Ok sn) e = Ok sn' ∧ scanned ops (pre ++ [e]) sn'.
Proof.
  intros Hsn Hio He. pose proof (indexed_range _ _ _ Hio) as Hr.
  assert (0 ≤ i < go_len (sn_history sn)) as Hr' by (unfold go_len in *; rewrite (sc_len _ _ _ Hsn); lia).
  destruct (go_index_in_range (sn_history sn) i Hr') as [old Hold].
  assert (∀ x, go_set (sn_history sn) i x = Ok (<[Z.to_nat i := x]> (sn_history sn))) as Hset
    by (intros x; by apply go_set_Ok).
  pose proof (proj2 (proj1 (go_index_Ok _ _ _) Hold)) as Hold'.
  assert (∀ x, <[Z.to_nat i := x]> (sn_history sn) !! Z.to_nat i = Some x) as Hnew.
  { intros x. apply list_lookup_insert_eq. unfold go_len in Hr'. lia. }
  unfold scan_entry; cbn [mbind outcome_bind].
  assert (∀ j o', (j, o') ∈ indexed ops → j ≠ i → call_entry j o' ∈ pre ++ [e] → call_entry j o' ∈ pre) as Hcne.
  { intros j o' _ Hne [Hin|Hin%list_elem_of_singleton]%elem_of_app; [done|].
    destruct He as [-> |[-> _]]; by injection Hin. }
  assert (∀ j o', (j, o') ∈ indexed ops → j ≠ i → return_entry j o' ∈ pre ++ [e] → return_entry j o' ∈ pre) as Hrne.
  { intros j o' _ Hne [Hin|Hin%list_elem_of_singleton]%elem_of_app; [done|].
    destruct He as [-> |[-> _]]; by injection Hin. }
  destruct He as [-> |[-> Hpre]]; cbn [e_id kind call_entry return_entry e_value e_time e_clientId];
    rewrite Hold; cbn [mbind outcome_bind].
  - rewrite Hset; cbn. eexists. split; [done|]. split; cbn.
    + by rewrite length_insert, (sc_len _ _ _ Hsn).
    + intros j o' Hj Hin. destruct (decide (j = i)) as [->|Hne].
      * rewrite (indexed_fun _ _ _ _ Hj Hio), lookup_insert_eq, Hnew. eauto.
      * pose proof (indexed_range _ _ _ Hj). rewrite lookup_insert_ne, lookup_set_other by (done || lia).
        by apply (sc_call _ _ _ Hsn), Hcne.
    + intros j o' Hj Hin. destruct (decide (j = i)) as [->|Hne].
      * apply elem_of_app in Hin as [Hin|Hin%list_elem_of_singleton]; [|done].
        destruct (sc_return _ _ _ Hsn i o' Hj Hin) as (? & he & Hhe & ? & ?). rewrite Hold' in Hhe.
        injection Hhe as <-. rewrite Hnew. eauto.
      * pose proof (indexed_range _ _ _ Hj). rewrite lookup_set_other by (done || lia).
        by apply (sc_return _ _ _ Hsn), Hrne.
  - destruct (sc_call _ _ _ Hsn i o Hio Hpre) as (Hcv & he & Hhe & Hcl & Hst).
    rewrite Hold' in Hhe. injection Hhe as <-.
    rewrite Hcv; cbn. rewrite Hset; cbn. eexists. split; [done|]. split; cbn.
    + by rewrite length_insert, (sc_len _ _ _ Hsn).
    + intros j o' Hj Hin. destruct (decide (j = i)) as [->|Hne].
      * rewrite (indexed_fun _ _ _ _ Hj Hio), Hnew. eauto.
      * pose proof (indexed_range _ _ _ Hj). rewrite lookup_set_other by (done || lia).
        by apply (sc_call _ _ _ Hsn), Hcne.
    + intros j o' Hj Hin. destruct (decide (j = i)) as [->|Hne].
      * rewrite (indexed_fun _ _ _ _ Hj Hio), lookup_insert_eq, Hnew. eauto.
      * pose proof (indexed_range _ _ _ Hj). rewrite lookup_insert_ne, lookup_set_other by (done || lia).
        by apply (sc_return _ _ _ Hsn), Hrne.
Qed.

(** In the sorted entries of a timed history a call precedes its return. *)
Lemma call_precedes ops (es pre post : list entry) i o :
  timed ops → es ≡ₚ operation_entries 0 ops →
  StronglySorted (λ a b, byTime_Less b a = false) es → (i, o) ∈ indexed ops →
  es = pre ++ return_entry i o :: post → call_entry i o ∈ pre.
Proof.
  intros Ht Hp Hs Hio ->. assert (op_Call o ≤ op_Return o) as Hle.
  { apply elem_of_indexed in Hio as [_ Ho]. by eapply (proj1 (Forall_lookup _ _) Ht). }
  destruct (entries_of ops _ Hp i o Hio) as [Hin%at_addr_elem _].
  apply elem_of_app in Hin as [Hin|[Hin|Hin]%elem_of_cons]; [done|done|exfalso].
  apply StronglySorted_app in Hs as (_ & _ & Hs). apply StronglySorted_cons in Hs as [Hf _].
  rewrite Forall_forall in Hf. specialize (Hf _ Hin). unfold byTime_Less in Hf; cbn in Hf.
  case_decide; [|done]. apply bool_decide_eq_false in Hf. lia.
Qed.

Lemma scan_history_spec ops (es : list entry) :
  timed ops → es ≡ₚ operation_entries 0 ops →
  StronglySorted (λ a b, byTime_Less b a = false) es →
  ∃ sn, scan_history es = Ok sn ∧ scanned ops es sn.
Proof.
  intros Ht Hp Hs. unfold scan_history.
  assert (∀ post pre sn, es = pre ++ post → scanned ops pre sn →
    ∃ sn', foldl scan_entry (Ok sn) post = Ok sn' ∧ scanned ops es sn') as Hall.
  { induction post as [|e post IH]; intros pre sn Hes Hsn.
    { rewrite app_nil_r in Hes. subst. eauto. }
    assert (e ∈ es) as He by (rewrite Hes; set_solver). rewrite Hp in He.
    apply elem_of_operation_entries in He as (k & o & Hk & Hcase). rewrite Z.add_0_l in Hcase.
    assert ((Z.of_nat k, o) ∈ indexed ops) as Hio by (apply elem_of_indexed; rewrite Nat2Z.id; split; [lia|done]).
    destruct (scan_step ops pre sn e (Z.of_nat k) o Hsn Hio) as (sn' & Hsn' & Hinv).
    { destruct Hcase as [->| ->]; [by left|right]. split; [done|]. by eapply call_precedes. }
    cbn [foldl]. rewrite Hsn'. apply (IH (pre ++ [e])); [|done]. by rewrite <-(assoc_L (++)). }
  apply (Hall es []); [done|]. split; cbn [sn_history].
  - rewrite length_replicate, Hp, operation_entries_length, Nat.mul_comm. by apply Nat.div_mul.
  - by intros i o _ ?%not_elem_of_nil.
  - by intros i o _ ?%not_elem_of_nil.
Qed.

(** When all entries are read, every element is complete. *)
Lemma scanned_history ops (es : list entry) sn :
  es ≡ₚ operation_entries 0 ops → scanned ops es sn → sn_history sn = element_of <$> ops.
Proof.
  intros Hp Hsn. apply list_eq. intros k. rewrite list_lookup_fmap.
  destruct (ops !! k) as [o|] eqn:Ho; cbn; cycle 1.
  { apply lookup_ge_None. rewrite (sc_len _ _ _ Hsn). by apply lookup_ge_None. }
  assert ((Z.of_nat k, o) ∈ indexed ops) as Hio by (apply elem_of_indexed; rewrite Nat2Z.id; split; [lia|done]).
  destruct (entries_of ops es Hp _ o Hio) as [Hc%at_addr_elem Hr%at_addr_elem].
  destruct (sc_call _ _ _ Hsn _ _ Hio Hc) as (_ & he & Hhe & H1 & H2).
  destruct (sc_return _ _ _ Hsn _ _ Hio Hr) as (_ & he' & Hhe' & H3 & H4).
  rewrite Nat2Z.id in *. rewrite Hhe in *. injection Hhe' as <-. f_equal.
  destruct he; cbn in *. unfold element_of. congruence.
Qed.

Lemma scanned_values ops (es : list entry) sn i o :
  es ≡ₚ operation_entries 0 ops → scanned ops es sn → (i, o) ∈ indexed ops →
  sn_callValue sn !! i = Some (VIn (op_Input o)) ∧ sn_returnValue sn !! i = Some (VOut (op_Output o)).
Proof.
  intros Hp Hsn Hio. destruct (entries_of ops es Hp _ o Hio) as [Hc%at_addr_elem Hr%at_addr_elem].
  split; [apply (sc_call _ _ _ Hsn i o Hio Hc)|apply (sc_return _ _ _ Hsn i o Hio Hr)].
Qed.

(** ** Replaying *)

(** [lg] is right for the lists [ps]. *)
Record largest_ok (ps : list (list Z)) (lg : largest) : Prop := {
  lo_index : largest_of ps (lg_Index lg);
  lo_size id : map_get 0 (lg_Size lg) id =
    match lg_Index lg !! id with
    | Some j => match ps !! Z.to_nat j with Some p => go_len p | None => 0 end
    | None => 0
    end;
}.

(** While the ids [ds] of the next list [p] have been noted. *)
Definition noting (ps : list (list Z)) (p ds : list Z) (lg : largest) : Prop :=
  ∀ id,
    match lg_Index lg !! id with
    | Some j => ∃ q, 0 ≤ j ∧ (ps ++ [p]) !! Z.to_nat j = Some q ∧ id ∈ q ∧
        map_get 0 (lg_Size lg) id = go_len q ∧
        (∀ p', p' ∈ ps → id ∈ p' → (length p' ≤ length q)%nat) ∧
        (id ∈ ds → (length p ≤ length q)%nat)
    | None => map_get 0 (lg_Size lg) id = 0 ∧ (∀ p', p' ∈ ps → id ∉ p') ∧ id ∉ ds
    end.

Lemma noting_start ps p lg : largest_ok ps lg → noting ps p [] lg.
Proof.
  intros Hok id. pose proof (lo_index _ _ Hok id) as Hid. rewrite (lo_size _ _ Hok id).
  destruct (lg_Index lg !! id) as [j|].
  - destruct Hid as (q & Hj & Hq & Hin & Hmax). exists q. rewrite Hq. split_and!; try done.
    + by apply lookup_app_l_Some.
    + by intros ?%not_elem_of_nil.
  - split_and!; [done..|apply not_elem_of_nil].
Qed.

Lemma noting_end ps p lg : noting ps p p lg → largest_ok (ps ++ [p]) lg.
Proof.
  intros Hn. split.
  - intros id. specialize (Hn id). destruct (lg_Index lg !! id) as [j|].
    + destruct Hn as (q & Hj & Hq & Hin & _ & Hmax & Hp). exists q. split_and!; [done..|].
      intros p' [Hp'|Hp'%list_elem_of_singleton]%elem_of_app Hid; [by apply Hmax|subst; by apply Hp].
    + destruct Hn as (_ & Hno & Hp).
      intros p' [Hp'|Hp'%list_elem_of_singleton]%elem_of_app; [by apply Hno|by subst].
  - intros id. specialize (Hn id). destruct (lg_Index lg !! id) as [j|].
    + destruct Hn as (q & _ & Hq & _ & Hs & _). by rewrite Hq.
    + by destruct Hn.
Qed.

Lemma noting_step ps p ds x lg :
  x ∈ p → noting ps p ds lg → noting ps p (ds ++ [x]) (note_largest (go_len ps) (go_len p) x lg).
Proof.
  intros Hx Hn id. specialize (Hn id). unfold note_largest.
  assert (0 < go_len p) as Hpos by (unfold go_len; destruct p; [by apply not_elem_of_nil in Hx|cbn; lia]).
  assert ((ps ++ [p]) !! Z.to_nat (go_len ps) = Some p) as Hlast.
  { unfold go_len. rewrite Nat2Z.id. by apply list_lookup_middle. }
  destruct (decide (id = x)) as [->|Hne].
  - case_decide as Hlt; cbn.
    + rewrite lookup_insert_eq. unfold map_get at 1. rewrite lookup_insert_eq. cbn.
      exists p. split_and!; [apply go_len_nonneg|done|done|done| |done].
      destruct (lg_Index lg !! x) as [j|]; [|naive_solver].
      destruct Hn as (q & _ & _ & _ & Hs & Hmax & _). rewrite Hs in Hlt. unfold go_len in Hlt.
      intros p' Hp' Hin. specialize (Hmax p' Hp' Hin). lia.
    + destruct (lg_Index lg !! x) as [j|].
      * destruct Hn as (q & Hj & Hq & Hin & Hs & Hmax & _). exists q. split_and!; [done..|].
        intros _. rewrite Hs in Hlt. unfold go_len in Hlt. lia.
      * destruct Hn as [Hz _]. lia.
  - assert (id ∈ ds ++ [x] ↔ id ∈ ds) as Hds.
    { rewrite elem_of_app, list_elem_of_singleton. naive_solver. }
    assert (∀ A (m : gmap Z A) v, <[x := v]> m !! id = m !! id) as Hskip
      by (intros A m v; by apply lookup_insert_ne).
    case_decide as Hlt; cbn; unfold map_get in *; rewrite ?Hskip;
      destruct (lg_Index lg !! id); setoid_rewrite Hds; done.
Qed.

Lemma replay_spec ops (es : list entry) sn ps p :
  es ≡ₚ operation_entries 0 ops → scanned ops es sn →
  ∀ sel ids ds s lg, p = ds ++ ids → names ops ids sel → legal model s sel → noting ps p ds lg →
  ∃ lin lg', replay sn (go_len ps) (go_len p) ids s lg = Ok (lin, lg') ∧
    ls_Index <$> lin = ids ∧ ls_StateDescription <$> lin = DescribeState <$> states_along s sel ∧
    noting ps p p lg'.
Proof.
  intros Hp Hsn sel. induction sel as [|o sel IH]; intros ids ds s lg Hds Hnames Hleg Hn.
  { apply Forall2_nil_inv_r in Hnames as ->. rewrite app_nil_r in Hds. subst ds.
    exists [], lg. done. }
  apply Forall2_cons_inv_r in Hnames as (i & ids' & Hio & Hnames & ->). destruct Hleg as [Hok Hleg].
  destruct (scanned_values ops es sn i o Hp Hsn Hio) as [Hc Hr].
  cbn [replay]. rewrite Hc, Hr. cbn [call_value as_input return_value as_output mbind outcome_bind].
  destruct (Step model s (op_Input o) (op_Output o)) as [ok s'] eqn:Hst. cbn in Hok, Hleg. subst ok. cbn [negb].
  destruct (IH ids' (ds ++ [i]) s' (note_largest (go_len ps) (go_len p) i lg)) as (lin & lg' & Hrep & Hix & Hde & Hn').
  - by rewrite <-(assoc_L (++)).
  - done.
  - done.
  - apply noting_step; [rewrite Hds; set_solver|done].
  - rewrite Hrep. cbn. eexists _, lg'. split; [done|]. cbn. rewrite Hix, Hde, Hst. done.
Qed.

Lemma replay_all_spec ops (es : list entry) sn :
  es ≡ₚ operation_entries 0 ops → scanned ops es sn →
  ∀ todo ps lg, Forall (accepted ops) todo → largest_ok ps lg →
  ∃ lins lg', replay_all sn (go_len ps) todo lg = Ok (lins, lg') ∧
    Forall2 (shows ops) todo lins ∧ largest_ok (ps ++ todo) lg'.
Proof.
  intros Hp Hsn todo. induction todo as [|p todo IH]; intros ps lg Hacc Hlg.
  { exists [], lg. by rewrite app_nil_r. }
  apply Forall_cons in Hacc as [(sel & Hnames & Hleg) Hacc].
  destruct (replay_spec ops es sn ps p Hp Hsn sel p [] (Init model) lg)
    as (lin & lg1 & Hrep & Hix & Hde & Hn); [done|done|done|by apply noting_start|].
  destruct (IH (ps ++ [p]) lg1 Hacc (noting_end _ _ _ Hn)) as (lins & lg2 & Hall & Hsh & Hok).
  cbn [replay_all]. rewrite Hrep; cbn.
  replace (go_len ps + 1) with (go_len (ps ++ [p])) by (unfold go_len; rewrite length_app; cbn; lia).
  rewrite Hall; cbn. eexists _, lg2. split; [done|]. rewrite <-(assoc_L (++)) in Hok. split; [|done].
  constructor; [|done]. by exists sel.
Qed.

Lemma longer_first_weak : strict_weak longer_first.
Proof. unfold longer_first. split; intros *; repeat case_bool_decide; done || lia. Qed.

Lemma sorted_lengths ps :
  StronglySorted (λ p q, longer_first q p = false) ps →
  StronglySorted (λ p q : list Z, (length q ≤ length p)%nat) ps.
Proof.
  induction 1 as [|p ps _ IH Hp]; constructor; [done|]. eapply Forall_impl; [exact Hp|].
  intros q Hq%bool_decide_eq_false. unfold go_len in Hq. lia.
Qed.

(** One partition: no panic, and the right data. *)
Lemma visualize_partition_spec ops ps :
  timed ops → Forall (accepted ops) ps →
  ∃ d, visualize_partition (makeEntries ops) ps = Ok d ∧ depicts ops ps d.
Proof.
  intros Ht Hacc. unfold visualize_partition.
  assert (makeEntries ops ≡ₚ operation_entries 0 ops) as Hp by apply go_sort_perm.
  destruct (scan_history_spec ops (makeEntries ops) Ht Hp) as (sn & Hscan & Hsn).
  { apply go_sort_sorted, byTime_strict_weak. }
  pose proof (go_sort_perm longer_first ps) as Hperm.
  destruct (replay_all_spec ops _ sn Hp Hsn (go_sort longer_first ps) [] {| lg_Index := ∅; lg_Size := ∅ |})
    as (lins & lg & Hrep & Hsh & Hok).
  { by rewrite Hperm. }
  { split; cbn; intros id; unfold map_get; rewrite ?lookup_empty; [by intros p ?%not_elem_of_nil|done]. }
  change (go_len []) with 0 in Hrep. rewrite Hscan; cbn. rewrite Hrep; cbn.
  eexists. split; [done|]. split; cbn; [by eapply scanned_history|].
  exists (go_sort longer_first ps). split_and!; [done| |done|apply Hok].
  apply sorted_lengths, go_sort_sorted, longer_first_weak.
Qed.

(** ** The checker's partial linearizations are accepted *)
Local Abbreviation heap := (heap Input Output).
Local Abbreviation config := (config State Input Output).

Lemma upd_payload f p (h h' : heap) :
  (∀ nd, payload (f nd) = payload nd) → upd f p h = Ok h' → same_payload (cells h) (cells h').
Proof.
  intros Hf Hu. unfold upd in Hu. apply bind_Ok in Hu as (x & _ & Hu).
  destruct (cells h !! x) as [nd|] eqn:Hx; [|done]. injection Hu as <-. intros y. cbn.
  rewrite lookup_insert. case_decide; [|done]. subst. by rewrite Hx; cbn; rewrite Hf.
Qed.

Lemma set_next_payload p q (h h' : heap) : set_next p q h = Ok h' → same_payload (cells h) (cells h').
Proof. by apply upd_payload. Qed.
Lemma set_prev_payload p q (h h' : heap) : set_prev p q h = Ok h' → same_payload (cells h) (cells h').
Proof. by apply upd_payload. Qed.

Lemma lift_payload e (h h' : heap) : lift e h = Ok h' → same_payload (cells h) (cells h').
Proof.
  unfold lift. intros Hl. apply bind_Ok in Hl as (e1 & _ & Hl). apply bind_Ok in Hl as (h1 & ->%set_next_payload & Hl).
  apply bind_Ok in Hl as (e2 & _ & Hl). apply bind_Ok in Hl as (h2 & ->%set_prev_payload & Hl).
  apply bind_Ok in Hl as (e3 & _ & Hl). apply bind_Ok in Hl as (m1 & _ & Hl).
  apply bind_Ok in Hl as (h3 & ->%set_next_payload & Hl). apply bind_Ok in Hl as (m2 & _ & Hl).
  destruct (n_next m2); [by eapply set_prev_payload|]. by injection Hl as <-.
Qed.

Lemma unlift_payload e (h h' : heap) : unlift e h = Ok h' → same_payload (cells h) (cells h').
Proof.
  unfold unlift. intros Hl. apply bind_Ok in Hl as (e1 & _ & Hl). apply bind_Ok in Hl as (m1 & _ & Hl).
  apply bind_Ok in Hl as (h1 & ->%set_next_payload & Hl). apply bind_Ok in Hl as (m2 & _ & Hl).
  apply bind_Ok in Hl as (h2 & Hh2 & Hl).
  assert (same_payload (cells h1) (cells h2)) as ->
    by (destruct (n_next m2); [by eapply set_prev_payload|by injection Hh2 as <-]).
  apply bind_Ok in Hl as (e2 & _ & Hl). apply bind_Ok in Hl as (h3 & ->%set_next_payload & Hl).
  apply bind_Ok in Hl as (e3 & _ & Hl). by eapply set_prev_payload.
Qed.

(** A node of a heap with the payloads of [h0]. *)
Lemma load_payload (h0 h : heap) x nd :
  same_payload (cells h0) (cells h) → load h (Some x) = Ok nd →
  h_val h0 x = n_value nd ∧ h_mt h0 x = n_match nd ∧ h_idn h0 x = n_id nd.
Proof.
  intros Hp Hl. unfold load in Hl; cbn in Hl. destruct (cells h !! x) as [nd'|] eqn:Hx; [|done].
  injection Hl as ->. specialize (Hp x). rewrite Hx in Hp. unfold h_val, h_mt, h_idn.
  destruct (cells h0 !! x) as [nd0|]; [|done]. cbn in *. unfold payload in Hp. by simplify_eq.
Qed.

Section Paths.
Context (h0 : heap).

(** The stack [calls], top first, leads from the initial state to [s]. *)
Fixpoint calls_path (calls : list (callsEntry State)) (s : State) : Prop :=
  match calls with
  | [] => s = Init model
  | v :: calls =>
      (∃ m, h_mt h0 (c_entry v) = Some m ∧
            step_at model (h_val h0) (c_state v) (c_entry v) m = (true, s)) ∧
      calls_path calls (c_state v)
  end.

Definition on_path (seq : list Z) : Prop :=
  ∃ calls s, calls_path calls s ∧ seq = (λ v, h_idn h0 (c_entry v)) <$> reverse calls.

Definition longest_on_path : list (option (nat * list Z)) → Prop := longest_all on_path.

Record path_inv (c : config) : Prop := {
  pi_heap : same_payload (cells h0) (cells (cf_heap c));
  pi_calls : calls_path (cf_calls c) (cf_state c);
  pi_longest : longest_on_path (cf_longest c);
}.

Lemma call_ids_path (h : heap) calls s seq :
  same_payload (cells h0) (cells h) → calls_path calls s → call_ids h calls = Ok seq → on_path seq.
Proof.
  intros Hp Hc Hids. exists calls, s. split; [done|]. unfold call_ids in Hids. apply mapM_Ok_inv in Hids.
  induction Hids as [|v id l k Hv _ IH]; [done|]. cbn. rewrite <-IH. f_equal.
  apply fmap_Ok in Hv as (nd & Hl & <-). by destruct (load_payload h0 h _ nd Hp Hl) as (_ & _ & ->).
Qed.

Lemma goto_inv c e : path_inv c → path_inv (goto c e).
Proof. intros [? ? ?]. by split. Qed.

Lemma try_call_inv c nd c' :
  path_inv c → load (cf_heap c) (cf_entry c) = Ok nd → try_call model c nd = Ok c' → path_inv c'.
Proof.
  intros Hc Hnd Ht. unfold try_call in Ht. apply bind_Ok in Ht as (p & Hp & Ht).
  destruct (cf_entry c) as [p'|]; [|done]. injection Hp as ->.
  destruct (load_payload h0 _ _ _ (pi_heap _ Hc) Hnd) as (Hv & Hm & Hi).
  apply bind_Ok in Ht as (matching & Hmat & Ht). destruct (n_match nd) as [m|]; [|done].
  destruct (load_payload h0 _ _ _ (pi_heap _ Hc) Hmat) as (Hmv & _).
  apply bind_Ok in Ht as (inp & Hinp & Ht). apply bind_Ok in Ht as (out & Hout & Ht).
  destruct (n_value nd) as [[i|]|]; [|done..]. injection Hinp as ->.
  destruct (n_value matching) as [[|o]|]; [done| |done]. injection Hout as ->.
  assert (step_at model (h_val h0) (cf_state c) p m = Step model (cf_state c) inp out) as Hstep
    by (unfold step_at; by rewrite Hv, Hmv).
  destruct (Step model (cf_state c) inp out) as [[] s'].
  - apply bind_Ok in Ht as (nl & _ & Ht).
    destruct (negb _); [|injection Ht as <-; by apply goto_inv].
    apply bind_Ok in Ht as (lin & _ & Ht). apply bind_Ok in Ht as (h & Hlift%lift_payload & Ht).
    apply bind_Ok in Ht as (hd & _ & [= <-]). destruct Hc as [Hh Hca Hlo]. split; cbn.
    + by rewrite Hh.
    + split; [by exists m|done].
    + done.
  - injection Ht as <-. by apply goto_inv.
Qed.

Lemma backtrack_inv cp c c' : path_inv c → backtrack cp c = Ok (Some c') → path_inv c'.
Proof.
  intros Hc Hb. unfold backtrack in Hb. destruct (cf_calls c) as [|top calls] eqn:Hcalls; [done|].
  apply bind_Ok in Hb as (longest & Hlong & Hb). apply bind_Ok in Hb as (e & _ & Hb).
  apply bind_Ok in Hb as (lin & _ & Hb). apply bind_Ok in Hb as (h & Hun%unlift_payload & Hb).
  apply bind_Ok in Hb as (e2 & _ & [= <-]). destruct Hc as [Hh Hca Hlo].
  split; cbn.
  - by rewrite Hh.
  - rewrite Hcalls in Hca. apply Hca.
  - destruct cp; [|by injection Hlong as <-].
    apply bind_Ok in Hlong as (seq & Hids & Hupd).
    eapply update_longest_all; [|done|done]. eapply call_ids_path; [done| |done]. by rewrite <-Hcalls.
Qed.

Lemma loop_path cp killed fuel : ∀ i c b longest,
  path_inv c → loop model cp killed fuel i c = Ok (Some (b, longest)) → longest_on_path longest.
Proof.
  induction fuel as [|fuel IH]; intros i c b longest Hc Hl; [done|]. cbn in Hl.
  apply bind_Ok in Hl as (hd & _ & Hl). destruct (n_next hd).
  - destruct (killed i); [injection Hl as _ <-; apply Hc|].
    apply bind_Ok in Hl as (r & Hs & Hl). destruct r as [c'|]; [|injection Hl as _ <-; apply Hc].
    apply (IH (S i) c' b longest); [|done]. unfold step in Hs. apply bind_Ok in Hs as (e & He & Hs).
    destruct (n_match e).
    + apply fmap_Ok in Hs as (c1 & Ht & [= ->]). by eapply try_call_inv.
    + by eapply backtrack_inv.
  - apply bind_Ok in Hl as (r & Hf & [= ->]). unfold finish in Hf.
    apply bind_Ok in Hf as (seq & Hids & [= <- <-]). apply Forall_fmap, Forall_true. intros x. cbn.
    eapply call_ids_path; [apply Hc|apply Hc|done].
Qed.
End Paths.

(** The nodes of the list that [checkSingle] builds. *)
Lemma find_return_split id (es : list entry) m :
  find_return id es = Some m →
  ∃ k1 r k2, es = k1 ++ r :: k2 ∧ m = length k2 ∧ kind r = returnEntry ∧ e_id r = id.
Proof.
  induction es as [|e es IH]; cbn; [done|]. destruct (_ && _) eqn:He.
  - intros [= <-]. apply andb_true_iff in He as [? ?%bool_decide_eq_true]. by exists [], e, es.
  - intros (k1 & r & k2 & -> & ?)%IH. by exists (e :: k1), r, k2.
Qed.

Lemma start_spec (es : list entry) c :
  start model es = Ok c →
  path_inv (cf_heap c) c ∧
  ∀ x m, h_mt (cf_heap c) x = Some m →
    ∃ e r, e ∈ es ∧ r ∈ es ∧ kind e = callEntry ∧ kind r = returnEntry ∧ e_id e = e_id r ∧
      h_idn (cf_heap c) x = e_id e ∧ h_val (cf_heap c) x = Some (e_value e) ∧
      h_val (cf_heap c) m = Some (e_value r).
Proof.
  intros Hst. destruct (makeLinkedEntries_from_spec es) as (h & mtch & Hmk & Hlh & _ & Hpay).
  set (nd := {| n_value := None; n_match := None; n_id := -1; n_next := None; n_prev := None |}
             : node Input Output).
  destruct (insert_front h _ nd Hlh) as (h' & Hins & Hal & Hlh' & Hnew & Hold); [done|].
  unfold start, makeLinkedEntries in Hst. rewrite Hmk in Hst.
  cbn [mbind outcome_bind mret outcome_ret] in Hst. apply bind_Ok in Hst as (len & _ & Hst).
  unfold alloc in *. cbn [fst snd] in *. rewrite Hal in Hins, Hst. fold nd in Hst.
  rewrite Hins in Hst. cbn [mbind outcome_bind] in Hst. injection Hst as <-.
  split.
  { split; cbn; [done|done|]. apply Forall_replicate. done. }
  cbn [cf_heap].
  assert (∀ es1 e es2, es = es1 ++ e :: es2 →
    payload <$> cells h' !! length es2 = Some (entry_payload e es2)) as Hholds.
  { intros es1 e es2 Hes. rewrite Hold; [by eapply Hpay|]. rewrite Hes, length_app; cbn. lia. }
  intros x m Hm. assert (x < S (length es))%nat as Hx.
  { apply (lh_dom _ _ Hlh'). unfold h_mt in Hm. destruct (cells h' !! x); [done|done]. }
  destruct (decide (x = length es)) as [->|Hne].
  { exfalso. unfold h_mt in Hm. destruct (cells h' !! length es) as [ndx|]; [|done].
    unfold payload in Hnew. cbn in Hm, Hnew. congruence. }
  destruct (at_addr_total es x) as [e (es1 & es2 & Hes & <-)]; [lia|].
  destruct (holds_fields h' es es1 e es2 Hholds Hes) as (Hv & Hid & Hmt). rewrite Hm in Hmt.
  destruct (kind e) eqn:Hk; [done|].
  destruct (find_return_split (e_id e) es2 m) as (k1 & r & k2 & Hes2 & -> & Hkr & Hidr); [done|].
  assert (es = (es1 ++ e :: k1) ++ r :: k2) as Hes' by (by rewrite Hes, Hes2, <-(assoc_L (++))).
  destruct (holds_fields h' es _ r k2 Hholds Hes') as (Hvr & _ & _).
  exists e, r. split_and!; try done; rewrite ?Hes'; set_solver.
Qed.

Lemma legal_snoc l : ∀ s o,
  legal model s (l ++ [o]) ↔
  legal model s l ∧
  (Step model (foldl (λ s o, (Step model s (op_Input o) (op_Output o)).2) s l) (op_Input o) (op_Output o)).1 = true.
Proof. induction l as [|o' l IH]; intros s o; cbn; [tauto|]. rewrite IH. tauto. Qed.

(** What lies on a path of the search is accepted by the model. *)
Lemma on_path_accepted ops (es : list entry) c seq :
  es ≡ₚ operation_entries 0 ops → start model es = Ok c → on_path (cf_heap c) seq → accepted ops seq.
Proof.
  intros Hp Hst (calls & s & Hpath & ->). destruct (start_spec es c Hst) as [_ Hnodes].
  enough (∃ sel, names ops ((λ v, h_idn (cf_heap c) (c_entry v)) <$> reverse calls) sel ∧
    legal model (Init model) sel ∧
    foldl (λ s o, (Step model s (op_Input o) (op_Output o)).2) (Init model) sel = s) as (sel & ? & ? & _)
    by (by exists sel).
  revert s Hpath. induction calls as [|v calls IH]; intros s Hpath; cbn in Hpath.
  { exists []. subst. rewrite reverse_nil. split_and!; [constructor|done|done]. }
  destruct Hpath as [(m & Hm & Hstep) Hpath]. destruct (IH _ Hpath) as (sel & Hnames & Hleg & Hfold).
  destruct (Hnodes _ _ Hm) as (e & r & He & Hr & Hke & Hkr & Hid & Hidn & Hv & Hvm).
  rewrite Hp in He, Hr. apply elem_of_operation_entries in He as (k & o & Hk & He).
  apply elem_of_operation_entries in Hr as (k' & o' & Hk' & Hr).
  rewrite Z.add_0_l in He, Hr.
  destruct He as [-> | ->]; [|done]. destruct Hr as [-> | ->]; [done|]. cbn in Hid.
  assert (k' = k) as -> by lia. rewrite Hk in Hk'. injection Hk' as <-.
  unfold step_at in Hstep. rewrite Hv, Hvm in Hstep. cbn in Hstep.
  exists (sel ++ [o]). split_and!.
  - rewrite reverse_cons, fmap_app. apply Forall2_app; [done|]. constructor; [|constructor].
    rewrite Hidn. cbn. apply elem_of_indexed. split; [lia|]. by rewrite Nat2Z.id.
  - apply legal_snoc. split; [done|]. by rewrite Hfold, Hstep.
  - rewrite foldl_app, Hfold. cbn. by rewrite Hstep.
Qed.

Lemma checkSingle_partials ops killed fuel b longest :
  checkSingle model (makeEntries ops) true killed fuel = Ok (Some (b, longest)) →
  Forall (accepted ops) (partials longest).
Proof.
  intros Hc. unfold checkSingle in Hc. apply bind_Ok in Hc as (c & Hst & Hl).
  destruct (start_spec _ _ Hst) as [Hinv _]. apply loop_path with (h0 := cf_heap c) in Hl; [|done].
  eapply Forall_impl; [by apply longest_all_partials|]. intros seq Hl'.
  eapply on_path_accepted; [|done|done]. apply go_sort_perm.
Qed.

(** On what the checker collects from a timed history, whichever searches
    are killed and whatever they answer, [computeVisualizationData] does not
    panic: each partition shows its operations, replays every partial
    linearization, longest first, and names for each operation the longest
    partial linearization that holds it. *)
Theorem visualization_ok (parts : list (list Operation)) longest :
  Forall timed parts →
  Forall2 (λ ops l, ∃ killed fuel b, checkSingle model (makeEntries ops) true killed fuel = Ok (Some (b, l)))
    parts longest →
  ∃ data, computeVisualizationData (make_info (makeEntries <$> parts) longest) = Ok data ∧
    Forall2 (λ '(ops, l) d, depicts ops (partials l) d) (zip parts longest) data.
Proof.
  intros Ht Hl. pose proof (Forall2_length _ _ _ Hl) as Hlen.
  assert (∃ data, Forall2 (λ '(ops, l) d, visualize_partition (makeEntries ops) (partials l) = Ok d ∧
    depicts ops (partials l) d) (zip parts longest) data) as (data & Hdata).
  { clear Hlen. induction Hl as [|ops l parts longest (killed & fuel & b & Hc) Hl IH]; [by exists []|].
    apply Forall_cons in Ht as [Hops Ht]. destruct (IH Ht) as (data & Hdata).
    destruct (visualize_partition_spec ops (partials l) Hops (checkSingle_partials _ _ _ _ _ Hc)) as (d & ? & ?).
    exists (d :: data). by constructor. }
  exists data. split; [|eapply Forall2_impl; [exact Hdata|]; by intros [ops l] d [_ ?]].
  unfold computeVisualizationData, make_info; cbn [li_history li_partialLinearizations].
  apply mapM_Ok, Forall2_same_length_lookup. split.
  { apply Forall2_length in Hdata. rewrite length_zip in Hdata. rewrite length_seqZ. unfold go_len.
    rewrite length_fmap. lia. }
  intros k i d Hi Hd. apply lookup_seqZ in Hi as [-> Hk]. unfold go_len in Hk. rewrite length_fmap in Hk.
  destruct (lookup_lt_is_Some_2 parts k) as [ops Hops]; [lia|].
  destruct (lookup_lt_is_Some_2 longest k) as [l Hlk]; [lia|].
  assert (go_index (makeEntries <$> parts) (0 + Z.of_nat k) = Ok (makeEntries ops)) as ->.
  { apply go_index_Ok. rewrite list_lookup_fmap. unfold go_len.
    split; [lia|]. replace (Z.to_nat (0 + Z.of_nat k)) with k by lia. by rewrite Hops. }
  assert (go_index (partials <$> longest) (0 + Z.of_nat k) = Ok (partials l)) as ->.
  { apply go_index_Ok. rewrite list_lookup_fmap. unfold go_len.
    split; [lia|]. replace (Z.to_nat (0 + Z.of_nat k)) with k by lia. by rewrite Hlk. }
  cbn. rewrite Forall2_lookup in Hdata. specialize (Hdata k). rewrite Hd in Hdata.
  assert (zip parts longest !! k = Some (ops, l)) as Hz by (apply lookup_zip_with_Some; eauto).
  rewrite Hz in Hdata. inversion_clear Hdata as [? ? Hv|]. by destruct Hv.
Qed.
End Visualization.

(** ** Two appends that both answer that the value was empty *)
Section Example.
Local Instance vis_sort : GoSort := insertion_GoSort.

Definition bad_history : list KvOperation :=
  [kv_op 1 3 "x" "a" 0 "" 4; kv_op 2 3 "x" "b" 1 "" 3; kv_op 1 0 "x" "" 5 "ab" 6].

Definition bad_longest : list (option (nat * list Z)) :=
  [Some (0%nat, [0]); Some (1%nat, [1]); None].

Lemma visualization_ok_witness :
  computeVisualizationData KvModel DescribeOperation_kv id
    (make_info [makeEntries bad_history] [bad_longest]) =
  Ok [{| pv_History := element_of DescribeOperation_kv <$> bad_history;
         pv_PartialLinearizations :=
           [[{| ls_Index := 1; ls_StateDescription := "b" |}];
            [{| ls_Index := 0; ls_StateDescription := "a" |}]];
         pv_Largest := {[0 := 1; 1 := 0]} |}] ∧
  ∃ data, computeVisualizationData KvModel DescribeOperation_kv id
      (make_info (makeEntries <$> [bad_history]) [bad_longest]) = Ok data ∧
    Forall2 (λ '(ops, l) d, depicts KvModel DescribeOperation_kv id ops (partials l) d)
      (zip [bad_history] [bad_longest]) data.
Proof.
  split; [vm_compute; reflexivity|].
  apply (visualization_ok KvModel DescribeOperation_kv id [bad_history] [bad_longest]).
  - vm_compute. repeat constructor; by intros.
  - constructor; [|constructor]. exists (λ _, false), 60%nat, false. vm_compute. reflexivity.
Defined.
End Example.
