(* ===== verification/Layout.v ===== *)
(** * porcupine: the layout of a visualization (the script in
    src/src/porcupine/visualization.go)

    The page that [VisualizePath] writes holds a script, a constant of the Go
    file, whose [render] draws the data.  Before it draws, it warps time: a
    greedy scan over the time stamps, [scan_all], finds their positions, and on
    the way the positions of the points of every partial linearization.  The
    comments in the script say what the positions should satisfy;
    [ScanFits] and [LayoutFits] show that they do, when no operation starts at
    the last time stamp ([instant_breaks] of [Drawing]: and otherwise they may
    not be numbers).

    A number of the script is a [num]: [None] is [undefined] or [NaN].
    Positions are whole pixels, as is [textWidth], the width of the drawn
    text.  Times are counted in halves, so that the average of two is one; the
    numbers of the script hold them exactly up to 2^53. *)
From S2P Require Import Prelude GoLib Visualization.
Local Open Scope Z_scope.

Abbreviation num := (option Z).

(** [Math.max] and [+] *)
Definition js_max (a b : num) : num := x ← a; y ← b; Some (x `max` y).
Definition js_add (a : num) (n : Z) : num := x ← a; Some (x + n).

Definition EPSILON : Z := 20.
Definition BOX_GAP : Z := 20.
Definition BOX_TEXT_PADDING : Z := 10.

(** ** Events

    The elements of the history, with the fields that the script adds. *)
Record event := {
  ev_Start : Z;
  ev_End : Z;
  ev_OriginalEnd : Z;
  ev_Gid : nat;
  ev_ClientId : Z;
  ev_Description : string;
}.

Definition make_event (gid : nat) (el : historyElement) : event :=
  {| ev_Start := 2 * he_Start el; ev_End := 2 * he_End el; ev_OriginalEnd := 2 * he_End el;
     ev_Gid := gid; ev_ClientId := he_ClientId el; ev_Description := he_Description el |}.

(** The first loop: each event gets the next number. *)
Fixpoint give_gids (gid : nat) (histories : list (list historyElement)) : list (list event) :=
  match histories with
  | [] => []
  | h :: histories =>
      imap (λ k el, make_event (gid + k) el) h :: give_gids (gid + length h) histories
  end.

Definition allTimestamps (evs : list event) : gset Z :=
  list_to_set (ev_Start <$> evs) ∪ list_to_set (ev_End <$> evs).
Definition startTimestamps (evs : list event) : gset Z := list_to_set (ev_Start <$> evs).

(** [Array.from(set).sort((a, b) => a - b)] *)
Definition ascending (a b : Z) : bool := bool_decide (a < b).
Definition sort_numbers (X : gset Z) : list Z := insertion_sort ascending (elements X).

Fixpoint nextTs (sorted : list Z) : gmap Z Z :=
  match sorted with
  | a :: (b :: _) as rest => <[a := b]> (nextTs rest)
  | _ => ∅
  end.

(** Events that end where another starts end a little later. *)
Definition tweak (starts : gset Z) (next : gmap Z Z) (ev : event) : event :=
  let fin := ev_End ev in
  match next !! fin with
  | Some nx =>
      if decide (fin ∈ starts) then
        {| ev_Start := ev_Start ev; ev_End := (fin + nx) / 2; ev_OriginalEnd := fin;
           ev_Gid := ev_Gid ev; ev_ClientId := ev_ClientId ev; ev_Description := ev_Description ev |}
      else ev
  | None => ev
  end.

Definition tweak_all (partitions : list (list event)) : list (list event) :=
  let evs := concat partitions in
  let sorted := sort_numbers (allTimestamps evs) in
  (λ h : list event, tweak (startTimestamps evs) (nextTs sorted) <$> h) <$> partitions.

(** The time stamps of the scan: the old ones and the ends after the tweaks. *)
Definition sortedTimestamps (partitions : list (list event)) : list Z :=
  let evs := concat partitions in
  sort_numbers (allTimestamps evs ∪ list_to_set (ev_End <$> concat (tweak_all partitions))).

(** ** Linearizations

    In global numbers, with the events that could come next but are not legal:
    those that start before every event that is not included ends. *)
Record linearization := { ln_events : list nat; ln_illegal : list nat }.

Definition minEnd (evs : list event) : option Z :=
  foldr (λ ev m, Some (from_option (Z.min (ev_End ev)) (ev_End ev) m)) None evs.

Definition starts_before (m : option Z) (ev : event) : bool :=
  match m with Some m => bool_decide (ev_Start ev < m) | None => true end.

(** The events that are not included, with their indices. *)
Definition left_out (history : list event) (lin : partialLinearization) : list (nat * event) :=
  filter (λ '(index, _), Z.of_nat index ∉ ls_Index <$> lin) (imap pair history).

Definition illegal_next (history : list event) (lin : partialLinearization) : list (nat * event) :=
  let rest := left_out history lin in
  filter (λ '(_, ev), starts_before (minEnd (snd <$> rest)) ev) rest.

Definition globalize (history : list event) (lin : partialLinearization) : outcome linearization :=
  evs ← mapM (λ id, go_index history (ls_Index id)) lin;
  Ok {| ln_events := ev_Gid <$> evs; ln_illegal := ev_Gid <$> (illegal_next history lin).*2 |}.

Definition allLinearizations (partitions : list (list event)) (lins : list (list partialLinearization))
    : outcome (list linearization) :=
  lss ← mapM (λ '(h, ls), mapM (globalize h) ls) (zip partitions lins);
  Ok (concat lss).

(** The elements of [byEnd]. *)
Record box := { bx_start : Z; bx_end : Z; bx_width : Z; bx_gid : nat }.

(** ** The scan *)
Section Scan.
Context (textWidth : string → Z).

Definition make_box (ev : event) : box :=
  {| bx_start := ev_Start ev; bx_end := ev_End ev;
     bx_width := textWidth (ev_Description ev) + 2 * BOX_TEXT_PADDING; bx_gid := ev_Gid ev |}.

Definition earlier_end (a b : box) : bool := bool_decide (bx_end a < bx_end b).
Definition byEnd (evs : list event) : list box := insertion_sort earlier_end (make_box <$> evs).

Context (evs : list event) (lins : list linearization).

(** An element that is there, a property of [undefined] is an error. *)
Definition js_index {A} (l : list A) (i : nat) : outcome A := from_option Ok Panic (l !! i).
(** A number of an array or of an object, [undefined] when it is not there. *)
Definition js_num (l : list num) (i : Z) : num := if decide (0 ≤ i) then mjoin (l !! Z.to_nat i) else None.
Definition pos_of (xPos : gmap Z num) (t : Z) : num := mjoin (xPos !! t).

(** [eventToLinearizations[g]] and [eventIllegalLast[g]] *)
Definition eventToLinearizations (g : nat) : list (nat * Z) :=
  concat (imap (λ index ln,
    (λ position : nat, (index, Z.of_nat position)) <$>
      filter (λ position, ln_events ln !! position = Some g) (seq 0 (length (ln_events ln)))) lins).
Definition eventIllegalLast (g : nat) : list nat :=
  concat (imap (λ index ln, if decide (g ∈ ln_illegal ln) then [index] else []) lins).

(** The position of the next point, the [i]-th. *)
Definition nextPos (xPos : gmap Z num) (lin : list nat) (points : list num) (i : nat) : outcome num :=
  nextGid ← js_index lin i;
  ev ← js_index evs nextGid;
  let here := pos_of xPos (ev_Start ev) in
  Ok (match points with
      | [] => here
      | _ => js_max here (js_add (js_num points (Z.of_nat i - 1)) EPSILON)
      end).

(** The loop from the [i]-th point, for [n] points. *)
Fixpoint push_points (xPos : gmap Z num) (lin : list nat) (points : list num) (i n : nat) : outcome (list num) :=
  match n with
  | O => Ok points
  | S n => p ← nextPos xPos lin points i; push_points xPos lin (points ++ [p]) (S i) n
  end.

(** The position so far and [linearizationPositions] *)
Abbreviation progress := (num * list (list num))%type.

Definition fit_point (xPos : gmap Z num) (li : nat * Z) (acc : progress) : outcome progress :=
  let '(index, position) := li in
  let '(pos, linearizationPositions) := acc in
  lin ← js_index lins index;
  points ← js_index linearizationPositions index;
  points ← push_points xPos (ln_events lin) points (length points)
             (Z.to_nat (position + 1 - Z.of_nat (length points)));
  Ok (js_max pos (js_num points position), <[index := points]> linearizationPositions).

Definition fit_illegal (index : nat) (acc : progress) : outcome progress :=
  let '(pos, linearizationPositions) := acc in
  lin ← js_index linearizationPositions index;
  Ok (js_max pos (js_add (js_num lin (Z.of_nat (length lin) - 1)) EPSILON), linearizationPositions).

Fixpoint js_forEach {A B} (f : A → B → outcome B) (l : list A) (b : B) : outcome B :=
  match l with [] => Ok b | x :: l => b ← f x b; js_forEach f l b end.

(** The last of the points of the linearizations where [g] is illegal. *)
Definition last_points (g : nat) : outcome (list (nat * Z)) :=
  mapM (λ index, lin ← js_index lins index; Ok (index, Z.of_nat (length (ln_events lin)) - 1))
    (eventIllegalLast g).

Definition fit_box (xPos : gmap Z num) (b : box) (acc : progress) : outcome progress :=
  let '(pos, linearizationPositions) := acc in
  let pos := js_max pos (js_add (pos_of xPos (bx_start b)) (bx_width b)) in
  lasts ← last_points (bx_gid b);
  acc ← js_forEach (fit_point xPos) (eventToLinearizations (bx_gid b) ++ lasts) (pos, linearizationPositions);
  js_forEach fit_illegal (eventIllegalLast (bx_gid b)) acc.

(** The boxes that end by [ts]; what is left of them comes back. *)
Fixpoint fit_boxes (xPos : gmap Z num) (ts : Z) (boxes : list box) (acc : progress)
    : outcome (progress * list box) :=
  match boxes with
  | b :: rest =>
      if decide (bx_end b ≤ ts) then acc ← fit_box xPos b acc; fit_boxes xPos ts rest acc
      else Ok (acc, boxes)
  | [] => Ok (acc, [])
  end.

Fixpoint scan_stamps (xPos : gmap Z num) (linearizationPositions : list (list num)) (boxes : list box)
    (last : Z) (stamps : list Z) : outcome (gmap Z num * list (list num)) :=
  match stamps with
  | [] => Ok (xPos, linearizationPositions)
  | ts :: stamps =>
      let pos := js_add (pos_of xPos last) BOX_GAP in
      '((pos, linearizationPositions), boxes) ← fit_boxes xPos ts boxes (pos, linearizationPositions);
      scan_stamps (<[ts := pos]> xPos) linearizationPositions boxes ts stamps
  end.

Definition scan_all (sortedTimestamps : list Z) : outcome (gmap Z num * list (list num)) :=
  let linearizationPositions := replicate (length lins) [] in
  match sortedTimestamps with
  | [] => Ok (∅, linearizationPositions)
  | t0 :: stamps => scan_stamps {[t0 := Some 0]} linearizationPositions (byEnd evs) t0 stamps
  end.
End Scan.

(** What [render] has computed when it begins to draw. *)
Record layout := {
  ly_partitions : list (list event);
  ly_lins : list linearization;
  ly_stamps : list Z;
  ly_xPos : gmap Z num;
  ly_points : list (list num);
}.

Definition compute_layout (textWidth : string → Z) (data : list partitionVisualizationData) : outcome layout :=
  let given := give_gids 0 (pv_History <$> data) in
  let partitions := tweak_all given in
  let stamps := sortedTimestamps given in
  lins ← allLinearizations partitions (pv_PartialLinearizations <$> data);
  '(xPos, points) ← scan_all textWidth (concat partitions) lins stamps;
  Ok {| ly_partitions := partitions; ly_lins := lins; ly_stamps := stamps; ly_xPos := xPos; ly_points := points |}.
