(* ===== verification/ScanFits.v ===== *)
(** * porcupine: the greedy scan fits

    [scan_all] of [Layout] meets the criteria that the comments in the script
    give, when operations take time and the linearizations are in order
    ([in_order]): time stamps are distinguishable, the text of every operation
    fits in its box, the points of every partial linearization are apart and
    inside the boxes of their operations ([scan_all_fits]). *)
From S2P Require Import Prelude GoLib Layout.
Local Open Scope Z_scope.

Lemma js_max_Some a b x y : a = Some x → b = Some y → js_max a b = Some (x `max` y).
Proof. by intros -> ->. Qed.

Lemma elem_of_concat {A} (x : A) ls : x ∈ concat ls ↔ ∃ l, x ∈ l ∧ l ∈ ls.
Proof. rewrite list_elem_of_In, in_concat. setoid_rewrite list_elem_of_In. naive_solver. Qed.

Lemma StronglySorted_weaken {A} (R R' : A → A → Prop) l :
  (∀ x y, R x y → R' x y) → StronglySorted R l → StronglySorted R' l.
Proof. intros HR. induction 1; constructor; [done|]. eapply Forall_impl; eauto. Qed.

Lemma insertion_sort_sorted {A} (less : A → A → bool) l :
  strict_weak less → StronglySorted (λ x y, less y x = false) (insertion_sort less l).
Proof. intros Hw. exact (go_sort_sorted (GoSort := insertion_GoSort) less l Hw). Qed.

Lemma js_num_nat (l : list num) k : js_num l (Z.of_nat k) = mjoin (l !! k).
Proof. unfold js_num. rewrite decide_True by lia. by rewrite Nat2Z.id. Qed.

Lemma js_forEach_step {A B} (f : A → B → outcome B) x l b b' :
  f x b = Ok b' → js_forEach f (x :: l) b = js_forEach f l b'.
Proof. intros Hf. cbn. by rewrite Hf. Qed.

(** ** The scan *)
Section ScanFits.
Context (textWidth : string → Z) (evs : list event) (lins : list linearization).

Definition starts_at (xPos : gmap Z num) (g : nat) (x : Z) : Prop :=
  ∃ ev, evs !! g = Some ev ∧ pos_of xPos (ev_Start ev) = Some x.

(** The points found so far: the first is at the start of its operation, each
    of the others there or [EPSILON] after the point before it. *)
Record points_ok (xPos : gmap Z num) (ln : linearization) (points : list num) : Prop := {
  po_len : (length points ≤ length (ln_events ln))%nat;
  po_point k p : points !! k = Some p → ∃ v g x, p = Some v ∧ ln_events ln !! k = Some g ∧
    starts_at xPos g x ∧ x ≤ v;
  po_apart k v w : points !! k = Some (Some v) → points !! S k = Some (Some w) → v + EPSILON ≤ w;
  po_exact k v g x : points !! k = Some (Some v) → ln_events ln !! k = Some g → starts_at xPos g x →
    (k = 0%nat → v = x) ∧ (∀ j u, k = S j → points !! j = Some (Some u) → v = x `max` (u + EPSILON));
}.

(** The operations up to the [position]-th have a position. *)
Definition placed_upto (xPos : gmap Z num) (ln : linearization) (position : nat) : Prop :=
  ∀ k g, (k ≤ position)%nat → ln_events ln !! k = Some g → ∃ x, starts_at xPos g x.

Lemma nextPos_ok xPos ln points :
  points_ok xPos ln points → (length points < length (ln_events ln))%nat →
  placed_upto xPos ln (length points) →
  ∃ p, nextPos evs xPos (ln_events ln) points (length points) = Ok p ∧ points_ok xPos ln (points ++ [p]).
Proof.
  intros Hok Hlt Hpl. destruct (lookup_lt_is_Some_2 _ _ Hlt) as [g Hg].
  destruct (Hpl _ g (le_n _) Hg) as (x & ev & Hev & Hx). pose proof Hok as [Hlen Hpt Hap Hex].
  unfold nextPos, js_index. rewrite Hg. cbn. rewrite Hev. cbn. rewrite Hx.
  assert (∃ v, match points with [] => Some x
      | _ => js_max (Some x) (js_add (js_num points (Z.of_nat (length points) - 1)) EPSILON) end = Some v ∧
      (points = [] → v = x) ∧ ∀ u, last points = Some (Some u) → v = x `max` (u + EPSILON)) as (v & Hv & Hfirst & Hlast).
  { destruct points as [|p0 points'] using rev_ind; [by exists x|].
    clear IHpoints'. destruct (Hpt (length points') p0) as (u & ? & ? & -> & _).
    { by rewrite lookup_app_r, Nat.sub_diag by lia. }
    rewrite length_app; cbn [length]. replace (Z.of_nat (length points' + 1) - 1) with (Z.of_nat (length points')) by lia.
    rewrite js_num_nat, lookup_app_r, Nat.sub_diag, last_snoc by lia. cbn.
    exists (x `max` (u + EPSILON)). split_and!; [by destruct points'|by destruct points'|].
    by intros u' [= ->]. }
  assert (x ≤ v ∧ ∀ u, last points = Some (Some u) → u + EPSILON ≤ v) as [Hxv Hge].
  { split; [|intros u Hu; rewrite (Hlast _ Hu); lia]. destruct points as [|p0 points'] using rev_ind; [by rewrite Hfirst|].
    destruct (Hpt (length points') p0) as (u & ? & ? & -> & _); [by rewrite lookup_app_r, Nat.sub_diag by lia|].
    rewrite (Hlast u); [lia|by rewrite last_snoc]. }
  exists (Some v). split; [by rewrite <-Hv; destruct points|]. constructor.
  - rewrite length_app. cbn. lia.
  - intros k p [Hk|[? Hk]]%lookup_app_Some; [by apply Hpt|].
    apply list_lookup_singleton_Some in Hk as [? <-]. assert (k = length points) as -> by lia.
    exists v, g, x. split_and!; [done|done|by exists ev|done].
  - intros k a b Ha Hb. apply lookup_app_Some in Hb as [Hb|[? Hb]].
    { apply (Hap k); [|done]. apply lookup_app_Some in Ha as [?|[? _]]; [done|].
      apply lookup_lt_Some in Hb. lia. }
    apply list_lookup_singleton_Some in Hb as [? [= <-]]. apply Hge.
    rewrite last_lookup. rewrite lookup_app_l in Ha by lia. by replace (pred (length points)) with k by lia.
  - intros k w g' x' [Hk|[Hlk Hk]]%lookup_app_Some Hg' Hx'.
    { destruct (Hex _ _ _ _ Hk Hg' Hx') as [H0 HS]. split; [done|]. intros j u -> Hj.
      rewrite lookup_app_l in Hj by (apply lookup_lt_Some in Hk; lia). by eapply HS. }
    apply list_lookup_singleton_Some in Hk as [Hk [= <-]]. assert (k = length points) as -> by lia.
    destruct Hx' as (ev' & Hev' & Hx'). assert (x' = x) as -> by congruence. split.
    + intros Hnil. by apply Hfirst, nil_length_inv.
    + intros j u Hj Hu. apply Hlast. rewrite last_lookup, Hj. rewrite lookup_app_l in Hu by lia. done.
Qed.

Lemma push_points_ok xPos ln n : ∀ points,
  points_ok xPos ln points → (length points + n ≤ length (ln_events ln))%nat →
  (∀ position, (length points ≤ position < length points + n)%nat → placed_upto xPos ln position) →
  ∃ added, push_points evs xPos (ln_events ln) points (length points) n = Ok (points ++ added) ∧
    length added = n ∧ points_ok xPos ln (points ++ added).
Proof.
  induction n as [|n IH]; intros points Hok Hn Hpl.
  { exists []. by rewrite app_nil_r. }
  destruct (nextPos_ok _ _ _ Hok) as (p & Hp & Hok'); [lia|apply Hpl; lia|].
  destruct (IH _ Hok') as (added & Hadd & Hlen & Hok'');
    rewrite ?length_app in *; cbn [length] in *; [lia|intros; apply Hpl; lia|].
  exists (p :: added). cbn [push_points]. rewrite Hp. cbn.
  rewrite (Nat.add_1_r (length points)) in Hadd. rewrite Hadd, <-app_assoc. cbn. rewrite <-app_assoc in Hok''.
  split_and!; [done|lia|done].
Qed.

(** ** Fitting one box *)
Definition grown : relation (list (list num)) := Forall2 (@prefix num).

#[local] Instance grown_preorder : PreOrder grown := _.

Definition has_point (points : list (list num)) (index position : nat) (p : Z) : Prop :=
  ∃ ps v, points !! index = Some ps ∧ ps !! position = Some (Some v) ∧ v ≤ p.

Lemma has_point_grown points points' index position p p' :
  p ≤ p' → grown points points' → has_point points index position p → has_point points' index position p'.
Proof.
  intros Hp Hg (ps & v & Hps & Hv & Hle). destruct (Forall2_lookup_l _ _ _ _ _ Hg Hps) as (ps' & Hps' & Hpre).
  exists ps', v. split_and!; [done|by eapply prefix_lookup_Some|lia].
Qed.

Definition all_ok (xPos : gmap Z num) (points : list (list num)) : Prop := Forall2 (points_ok xPos) lins points.

(** What stays true as the position and the points grow. *)
Definition lasting (Q : Z → list (list num) → Prop) : Prop :=
  ∀ p p' points points', p ≤ p' → grown points points' → Q p points → Q p' points'.

(** What a step of the fitting does to the position and the points. *)
Definition fitted (xPos : gmap Z num) (P Q : Z → list (list num) → Prop)
    (m : Z → list (list num) → outcome (num * list (list num))) : Prop :=
  ∀ p points, all_ok xPos points → P p points →
    ∃ p' points', m p points = Ok (Some p', points') ∧ p ≤ p' ∧ grown points points' ∧
      all_ok xPos points' ∧ Q p' points'.

Lemma grown_insert points index ps ps' :
  points !! index = Some ps → ps `prefix_of` ps' → grown points (<[index := ps']> points).
Proof.
  intros Hps Hpre. apply Forall2_same_length_lookup. split; [by rewrite length_insert|].
  intros i a b Ha Hb. destruct (decide (i = index)) as [->|Hne].
  - rewrite list_lookup_insert_eq in Hb by (by eapply lookup_lt_Some). by simplify_eq.
  - rewrite list_lookup_insert_ne in Hb by done. by simplify_eq.
Qed.

Lemma fit_point_ok xPos index ln position :
  lins !! index = Some ln → (position < length (ln_events ln))%nat → placed_upto xPos ln position →
  fitted xPos (λ _ _, True) (λ p points, has_point points index position p)
    (λ p points, fit_point evs lins xPos (index, Z.of_nat position) (Some p, points)).
Proof.
  intros Hln Hpos Hpl p points Hall _.
  destruct (Forall2_lookup_l _ _ _ _ _ Hall Hln) as (ps & Hps & Hok).
  destruct (push_points_ok xPos ln (Z.to_nat (Z.of_nat position + 1 - Z.of_nat (length ps))) ps Hok)
    as (added & Hadd & Hlen & Hok'); [pose proof (po_len _ _ _ Hok); lia| |].
  { intros k Hk j g Hj. apply Hpl. lia. }
  destruct (lookup_lt_is_Some_2 (ps ++ added) position) as [q Hq]; [rewrite length_app; lia|].
  destruct (po_point _ _ _ Hok' _ _ Hq) as (v & _ & _ & -> & _).
  exists (p `max` v), (<[index := ps ++ added]> points). split_and!.
  - unfold fit_point, js_index. rewrite Hln. cbn. rewrite Hps. cbn. rewrite Hadd. cbn.
    by rewrite js_num_nat, Hq.
  - lia.
  - eapply grown_insert; [done|]. by exists added.
  - unfold all_ok. rewrite <-(list_insert_id _ _ _ Hln). by apply Forall2_insert.
  - exists (ps ++ added), v. rewrite list_lookup_insert_eq by (by eapply lookup_lt_Some).
    split_and!; [done|done|lia].
Qed.

Lemma fit_illegal_ok xPos index ln :
  lins !! index = Some ln → ln_events ln ≠ [] →
  fitted xPos (λ p points, has_point points index (pred (length (ln_events ln))) p)
    (λ p points, has_point points index (pred (length (ln_events ln))) (p - EPSILON))
    (λ p points, fit_illegal index (Some p, points)).
Proof.
  intros Hln Hne p points Hall (ps & v & Hps & Hv & Hle).
  pose proof (Forall2_lookup_lr _ _ _ _ _ _ Hall Hln Hps) as Hok.
  pose proof (po_len _ _ _ Hok). pose proof (lookup_lt_Some _ _ _ Hv).
  assert (Z.of_nat (length ps) - 1 = Z.of_nat (pred (length (ln_events ln)))) as Hl.
  { destruct (ln_events ln); [done|]. cbn in *. lia. }
  exists (p `max` (v + EPSILON)), points. unfold fit_illegal, js_index. rewrite Hps. cbn.
  rewrite Hl, js_num_nat, Hv. cbn. split_and!; [done|lia|done|done|].
  exists ps, v. split_and!; [done|done|lia].
Qed.

(** A loop of steps, each with something to establish that lasts. *)
Lemma forEach_fitted {A} xPos P (f : A → num * list (list num) → outcome (num * list (list num)))
    (Q : A → Z → list (list num) → Prop) l :
  lasting P → (∀ a, lasting (Q a)) →
  (∀ a, a ∈ l → fitted xPos P (Q a) (λ p points, f a (Some p, points))) →
  fitted xPos P (λ p points, ∀ a, a ∈ l → Q a p points) (λ p points, js_forEach f l (Some p, points)).
Proof.
  intros HP HQ Hf. induction l as [|a l IH]; intros p points Hall Hp.
  { exists p, points. split_and!; [done|lia|done|done|set_solver]. }
  destruct (Hf a ltac:(set_solver) p points Hall Hp) as (p1 & points1 & Hf1 & Hp1 & Hg1 & Hall1 & Hq1).
  destruct (IH ltac:(intros; apply Hf; set_solver) p1 points1 Hall1) as (p2 & points2 & Hf2 & Hp2 & Hg2 & Hall2 & Hq2);
    [by eapply HP|].
  exists p2, points2. erewrite js_forEach_step by exact Hf1. split_and!; [done|lia|by etrans|done|].
  intros a' [->|Ha']%elem_of_cons; [by eapply HQ|by apply Hq2].
Qed.

(** *** The points that a box must hold *)
Lemma elem_of_eventToLinearizations g index position :
  (index, position) ∈ eventToLinearizations lins g ↔
  ∃ ln k, lins !! index = Some ln ∧ ln_events ln !! k = Some g ∧ position = Z.of_nat k.
Proof.
  unfold eventToLinearizations. rewrite elem_of_concat. split.
  - intros (l & Hin & Hl). apply list_elem_of_lookup in Hl as [i Hi]. rewrite list_lookup_imap in Hi.
    apply fmap_Some in Hi as (ln & Hln & ->). apply list_elem_of_fmap in Hin as (k & [= -> ->] & Hk).
    apply list_elem_of_filter in Hk as [Hk _]. by exists ln, k.
  - intros (ln & k & Hln & Hk & ->). eexists. split.
    2:{ apply list_elem_of_lookup. exists index. by rewrite list_lookup_imap, Hln. }
    apply list_elem_of_fmap. exists k. split; [done|]. apply list_elem_of_filter. split; [done|].
    apply elem_of_seq. apply lookup_lt_Some in Hk. lia.
Qed.

Lemma elem_of_eventIllegalLast g index :
  index ∈ eventIllegalLast lins g ↔ ∃ ln, lins !! index = Some ln ∧ g ∈ ln_illegal ln.
Proof.
  unfold eventIllegalLast. rewrite elem_of_concat. split.
  - intros (l & Hin & Hl). apply list_elem_of_lookup in Hl as [i Hi]. rewrite list_lookup_imap in Hi.
    apply fmap_Some in Hi as (ln & Hln & ->). case_decide; [|set_solver]. exists ln. set_solver.
  - intros (ln & Hln & Hg). exists [index]. split; [set_solver|].
    apply list_elem_of_lookup. exists index. rewrite list_lookup_imap, Hln. cbn. by rewrite decide_True.
Qed.

Lemma last_points_ok g : ∃ lasts, last_points lins g = Ok lasts ∧
  ∀ index position, (index, position) ∈ lasts ↔
    ∃ ln, lins !! index = Some ln ∧ g ∈ ln_illegal ln ∧ position = Z.of_nat (length (ln_events ln)) - 1.
Proof.
  exists ((λ index, (index, Z.of_nat (length (default [] (ln_events <$> lins !! index))) - 1)) <$> eventIllegalLast lins g).
  split.
  - apply mapM_Ok, Forall2_same_length_lookup. split; [by rewrite length_fmap|].
    intros i index a Hi Ha. rewrite list_lookup_fmap, Hi in Ha. cbn in Ha. injection Ha as <-.
    apply list_elem_of_lookup_2, elem_of_eventIllegalLast in Hi as (ln & Hln & _).
    unfold js_index. by rewrite Hln.
  - intros index position. rewrite list_elem_of_fmap. setoid_rewrite elem_of_eventIllegalLast. split.
    + intros (i & [= -> ->] & ln & Hln & Hg). exists ln. by rewrite Hln.
    + intros (ln & Hln & Hg & ->). exists index. rewrite Hln. split; [done|by exists ln].
Qed.

(** Everything that the scan looks up for the box [b] has a position. *)
Record ready (xPos : gmap Z num) (b : box) : Prop := {
  rd_start : is_Some (pos_of xPos (bx_start b));
  rd_upto index ln k : lins !! index = Some ln → ln_events ln !! k = Some (bx_gid b) → placed_upto xPos ln k;
  rd_illegal index ln : lins !! index = Some ln → bx_gid b ∈ ln_illegal ln →
    ln_events ln ≠ [] ∧ placed_upto xPos ln (pred (length (ln_events ln)));
}.

(** The box [b] may end at [p]: the text fits, so do the points of its
    operation, and another after each linearization where it is illegal. *)
Record box_fits (xPos : gmap Z num) (b : box) (p : Z) (points : list (list num)) : Prop := {
  bf_text : ∃ x, pos_of xPos (bx_start b) = Some x ∧ x + bx_width b ≤ p;
  bf_points index ln k : lins !! index = Some ln → ln_events ln !! k = Some (bx_gid b) →
    has_point points index k p;
  bf_illegal index ln : lins !! index = Some ln → bx_gid b ∈ ln_illegal ln →
    has_point points index (pred (length (ln_events ln))) (p - EPSILON);
}.

Lemma box_fits_lasting xPos b : lasting (box_fits xPos b).
Proof.
  intros p p' points points' Hp Hg [(x & Hx & Hw) Hpts Hill]. constructor.
  - exists x. split; [done|lia].
  - intros. eapply has_point_grown; eauto.
  - intros. eapply has_point_grown; [|done|by eapply Hill]. lia.
Qed.

Lemma fit_points_ok xPos b lasts :
  ready xPos b →
  (∀ index position, (index, position) ∈ lasts ↔
    ∃ ln, lins !! index = Some ln ∧ bx_gid b ∈ ln_illegal ln ∧ position = Z.of_nat (length (ln_events ln)) - 1) →
  fitted xPos (λ _ _, True)
    (λ p points, ∀ li, li ∈ eventToLinearizations lins (bx_gid b) ++ lasts →
      has_point points li.1 (Z.to_nat li.2) p)
    (λ p points, js_forEach (fit_point evs lins xPos) (eventToLinearizations lins (bx_gid b) ++ lasts) (Some p, points)).
Proof.
  intros Hr Hlasts. apply forEach_fitted; [done|intros ?????; apply has_point_grown|].
  intros [index position] [Hin|Hin]%elem_of_app.
  - apply elem_of_eventToLinearizations in Hin as (ln & k & Hln & Hk & ->). cbn. rewrite Nat2Z.id.
    eapply fit_point_ok; [done|by eapply lookup_lt_Some|by eapply rd_upto].
  - apply Hlasts in Hin as (ln & Hln & Hg & ->). destruct (rd_illegal _ _ Hr _ _ Hln Hg) as [Hne Hpl].
    assert (Z.of_nat (length (ln_events ln)) - 1 = Z.of_nat (pred (length (ln_events ln)))) as ->.
    { destruct (ln_events ln); [done|]. cbn. lia. }
    cbn. rewrite Nat2Z.id. eapply fit_point_ok; [done| |done]. destruct (ln_events ln); [done|]. cbn. lia.
Qed.

Lemma fit_illegals_ok xPos b :
  ready xPos b →
  fitted xPos
    (λ p points, ∀ index ln, lins !! index = Some ln → bx_gid b ∈ ln_illegal ln →
      has_point points index (pred (length (ln_events ln))) p)
    (λ p points, ∀ index, index ∈ eventIllegalLast lins (bx_gid b) → ∀ ln, lins !! index = Some ln →
      has_point points index (pred (length (ln_events ln))) (p - EPSILON))
    (λ p points, js_forEach fit_illegal (eventIllegalLast lins (bx_gid b)) (Some p, points)).
Proof.
  intros Hr. apply forEach_fitted.
  - intros p p' points points' Hp Hg Hh index ln Hln Hin. eapply has_point_grown; eauto.
  - intros index p p' points points' Hp Hg Hh ln Hln. eapply has_point_grown; [|done|by apply Hh]. lia.
  - intros index Hin. apply elem_of_eventIllegalLast in Hin as (ln & Hln & Hg).
    destruct (rd_illegal _ _ Hr _ _ Hln Hg) as [Hne _]. intros p points Hall Hh.
    destruct (fit_illegal_ok xPos index ln Hln Hne p points Hall (Hh _ _ Hln Hg))
      as (p' & points' & Hf & Hp & Hgr & Hall' & Hq).
    exists p', points'. split_and!; [done..|]. intros ln' Hln'. by simplify_eq.
Qed.

Lemma fit_box_ok xPos b :
  ready xPos b →
  fitted xPos (λ _ _, True) (box_fits xPos b) (λ p points, fit_box evs lins xPos b (Some p, points)).
Proof.
  intros Hr p points Hall _. destruct (rd_start _ _ Hr) as [x Hx].
  destruct (last_points_ok (bx_gid b)) as (lasts & Hlasts & Hin).
  destruct (fit_points_ok xPos b lasts Hr Hin (p `max` (x + bx_width b)) points Hall I)
    as (p1 & points1 & Hf1 & Hp1 & Hg1 & Hall1 & Hq1).
  destruct (fit_illegals_ok xPos b Hr p1 points1 Hall1) as (p2 & points2 & Hf2 & Hp2 & Hg2 & Hall2 & Hq2).
  { intros index ln Hln Hg. pose proof (rd_illegal _ _ Hr _ _ Hln Hg) as [Hne _].
    replace (pred (length (ln_events ln))) with (Z.to_nat (Z.of_nat (length (ln_events ln)) - 1)) by lia.
    eapply (Hq1 (index, _)). apply elem_of_app. right. apply Hin. by exists ln. }
  exists p2, points2. unfold fit_box. rewrite Hx, Hlasts. cbn [js_max js_add mbind option_bind outcome_bind].
  rewrite Hf1. cbn [mbind outcome_bind]. split_and!; [done|lia|by etrans|done|]. constructor.
  - exists x. split; [done|lia].
  - intros index ln k Hln Hk. eapply has_point_grown; [exact Hp2|exact Hg2|].
    rewrite <-(Nat2Z.id k). apply (Hq1 (index, Z.of_nat k)), elem_of_app. left.
    apply elem_of_eventToLinearizations. eauto.
  - intros index ln Hln Hg. apply Hq2; [|done]. apply elem_of_eventIllegalLast. by exists ln.
Qed.

Lemma fit_boxes_ok xPos ts boxes :
  StronglySorted (λ a b, bx_end a ≤ bx_end b) boxes →
  (∀ b, b ∈ boxes → bx_end b ≤ ts → ready xPos b) →
  ∀ p points, all_ok xPos points →
  ∃ p' points' fit rest, fit_boxes evs lins xPos ts boxes (Some p, points) = Ok ((Some p', points'), rest) ∧
    p ≤ p' ∧ grown points points' ∧ all_ok xPos points' ∧ boxes = fit ++ rest ∧
    (∀ b, b ∈ fit → bx_end b ≤ ts ∧ box_fits xPos b p' points') ∧ (∀ b, b ∈ rest → ts < bx_end b).
Proof.
  induction 1 as [|b boxes Hs IH Hb]; intros Hr p points Hall.
  { exists p, points, [], []. split_and!; [done|lia|done|done|done|set_solver|set_solver]. }
  cbn [fit_boxes]. rewrite Forall_forall in Hb. case_decide as Hts.
  - destruct (fit_box_ok xPos b (Hr b ltac:(set_solver) Hts) p points Hall I) as (p1 & points1 & -> & Hp1 & Hg1 & Hall1 & Hq1).
    destruct (IH ltac:(intros; apply Hr; set_solver) p1 points1 Hall1)
      as (p2 & points2 & fit & rest & Hf2 & Hp2 & Hg2 & Hall2 & -> & Hfit & Hrest).
    exists p2, points2, (b :: fit), rest. split_and!; [done|lia|by etrans|done|done| |done].
    intros b' [->|Hb']%elem_of_cons; [|by apply Hfit]. split; [done|]. by eapply box_fits_lasting.
  - exists p, points, [], (b :: boxes). split_and!; [done|lia|done|done|done|set_solver|].
    intros b' [->|Hb']%elem_of_cons; [lia|]. specialize (Hb _ Hb'). lia.
Qed.

(** ** From left to right

    Operations take time, the time stamps are theirs in order, and no operation
    starts after an operation has ended that comes later in a linearization or
    is illegal after it. *)
Record in_order (stamps : list Z) : Prop := {
  io_sorted : StronglySorted Z.lt stamps;
  io_event g ev : evs !! g = Some ev →
    ev_Gid ev = g ∧ ev_Start ev ∈ stamps ∧ ev_End ev ∈ stamps ∧ ev_Start ev < ev_End ev;
  io_lin index ln : lins !! index = Some ln → ln_events ln ≠ [] ∧ ∀ g, g ∈ ln_events ln → is_Some (evs !! g);
  io_before index ln j k g ev g' ev' : lins !! index = Some ln → (j ≤ k)%nat →
    ln_events ln !! j = Some g → evs !! g = Some ev → ln_events ln !! k = Some g' → evs !! g' = Some ev' →
    ev_Start ev < ev_End ev';
  io_illegal index ln g ev g' ev' : lins !! index = Some ln →
    g ∈ ln_events ln → evs !! g = Some ev → g' ∈ ln_illegal ln → evs !! g' = Some ev' →
    ev_Start ev < ev_End ev';
}.

(** The stamps of [done] have positions, apart from each other; what ends there
    fits, and the boxes left are those of the others. *)
Record scanned_to (done : list Z) (xPos : gmap Z num) (points : list (list num)) (boxes : list box) : Prop := {
  st_dom t : is_Some (pos_of xPos t) ↔ t ∈ done;
  st_gap t t' x x' : t < t' → pos_of xPos t = Some x → pos_of xPos t' = Some x' → x + BOX_GAP ≤ x';
  st_points : all_ok xPos points;
  st_fits g ev : evs !! g = Some ev → ev_End ev ∈ done →
    ∃ p, pos_of xPos (ev_End ev) = Some p ∧ box_fits xPos (make_box textWidth ev) p points;
  st_sorted : StronglySorted (λ a b, bx_end a ≤ bx_end b) boxes;
  st_boxes b : b ∈ boxes ↔ ∃ g ev, evs !! g = Some ev ∧ b = make_box textWidth ev ∧ ev_End ev ∉ done;
}.

Lemma pos_of_insert xPos t p t' : pos_of (<[t := p]> xPos) t' = if decide (t = t') then p else pos_of xPos t'.
Proof. unfold pos_of. by rewrite lookup_insert; case_decide. Qed.

(** Positions that are there stay. *)
Definition same_pos (xPos xPos' : gmap Z num) : Prop :=
  ∀ t x, pos_of xPos t = Some x → pos_of xPos' t = Some x.

Lemma points_ok_same xPos xPos' ln ps : same_pos xPos xPos' → points_ok xPos ln ps → points_ok xPos' ln ps.
Proof.
  intros Hx [Hlen Hpt Hap Hex]. constructor; [done| |done|]; cycle 1.
  { intros k v g x Hv Hg Hx'. destruct (Hpt _ _ Hv) as (? & g' & y & [= <-] & Hg' & (ev & Hev & Hpos) & _).
    assert (g' = g) as -> by congruence. apply (Hex k v g x Hv Hg). destruct Hx' as (ev' & Hev' & Hx').
    assert (ev' = ev) as -> by congruence. exists ev. split; [done|]. rewrite Hpos. rewrite (Hx _ _ Hpos) in Hx'. done. }
  intros k p Hp.
  destruct (Hpt _ _ Hp) as (v & g & x & -> & Hg & (ev & Hev & Hpos) & Hle).
  exists v, g, x. split_and!; [done|done| |done]. exists ev. auto.
Qed.

Lemma box_fits_same xPos xPos' b p points : same_pos xPos xPos' → box_fits xPos b p points → box_fits xPos' b p points.
Proof. intros Hx [(x & Hpos & Hw) ? ?]. constructor; [|done|done]. exists x. auto. Qed.

Lemma scanned_ready stamps done xPos points boxes b ts rest :
  in_order stamps → scanned_to done xPos points boxes → stamps = done ++ ts :: rest →
  b ∈ boxes → bx_end b ≤ ts → ready xPos b.
Proof.
  intros [Hs Hev Hlin Hbef Hill] Hsc Hst Hb Hts.
  apply (st_boxes _ _ _ _ Hsc) in Hb as (g & ev & Hg & -> & Hend). cbn in Hts.
  assert (∀ t, t ∈ stamps → t < ts → is_Some (pos_of xPos t)) as Hpos.
  { intros t Ht Hlt. apply (st_dom _ _ _ _ Hsc). rewrite Hst in Ht, Hs. apply elem_of_app in Ht as [?|Ht]; [done|].
    apply StronglySorted_app in Hs as (_ & _ & Hs). apply StronglySorted_inv in Hs as [_ Hf].
    rewrite Forall_forall in Hf. apply elem_of_cons in Ht as [->|Ht]; [lia|]. specialize (Hf _ Ht). lia. }
  assert (∀ g', (∃ index ln, lins !! index = Some ln ∧ g' ∈ ln_events ln) →
    (∀ ev', evs !! g' = Some ev' → ev_Start ev' < ev_End ev) → ∃ x, starts_at xPos g' x) as Hplaced.
  { intros g' (index & ln & Hln & Hin) Hlt. destruct (Hlin _ _ Hln) as [_ Hk]. destruct (Hk _ Hin) as [ev' Hev'].
    destruct (Hev _ _ Hev') as (_ & Hst' & _). destruct (Hpos _ Hst') as [x Hx].
    { specialize (Hlt _ Hev'). lia. }
    by exists x, ev'. }
  destruct (Hev _ _ Hg) as (Hgid & Hstart & _ & Hlt). constructor; cbn [make_box bx_start bx_gid].
  - apply Hpos; [done|lia].
  - intros index ln k Hln Hk j g' Hj Hg'. rewrite Hgid in Hk. apply Hplaced.
    + exists index, ln. split; [done|by eapply list_elem_of_lookup_2].
    + intros ev' Hev'. by eapply Hbef.
  - intros index ln Hln Hin. rewrite Hgid in Hin. split; [by eapply Hlin|]. intros j g' _ Hg'.
    apply list_elem_of_lookup_2 in Hg'. apply Hplaced; [by exists index, ln|]. intros ev' Hev'. by eapply Hill.
Qed.

Lemma stamps_split stamps done last ts rest :
  StronglySorted Z.lt stamps → stamps = (done ++ [last]) ++ ts :: rest →
  last < ts ∧ (∀ t, t ∈ done ++ [last] → t ≤ last) ∧
  ∀ t, t ∈ stamps → t ∈ done ++ [last] ∨ t = ts ∨ ts < t.
Proof.
  intros Hs ->. apply StronglySorted_app in Hs as (Hx & Hd & [_ Hr]%StronglySorted_inv).
  rewrite Forall_forall in Hr. apply StronglySorted_app in Hd as (Hdl & _ & _). split_and!.
  - apply Hx; set_solver.
  - intros t [Ht|Ht]%elem_of_app; [specialize (Hdl t last Ht ltac:(set_solver)); lia|set_solver by lia].
  - intros t [?|[->|Ht]%elem_of_cons]%elem_of_app; [by left|by right; left|]. right. right. by apply Hr.
Qed.

Section Step.
Context (stamps done : list Z) (last ts : Z) (rest : list Z).
Context (Hio : in_order stamps) (Hst : stamps = (done ++ [last]) ++ ts :: rest).

Lemma not_done t : t ∈ done ++ [last] → t < ts.
Proof. destruct (stamps_split _ _ _ _ _ (io_sorted _ Hio) Hst) as (Hlt & Hle & _). intros Ht%Hle. lia. Qed.

Lemma step_gap xPos points boxes x p t t' y y' :
  scanned_to (done ++ [last]) xPos points boxes → pos_of xPos last = Some x → x + BOX_GAP ≤ p → t < t' →
  pos_of (<[ts := Some p]> xPos) t = Some y → pos_of (<[ts := Some p]> xPos) t' = Some y' → y + BOX_GAP ≤ y'.
Proof.
  intros Hsc Hx Hp Htt. destruct (stamps_split _ _ _ _ _ (io_sorted _ Hio) Hst) as (_ & Hle & _).
  assert (∀ t y, pos_of xPos t = Some y → t ∈ done ++ [last]) as Hin.
  { intros u z Hu. apply (st_dom _ _ _ _ Hsc). by rewrite Hu. }
  rewrite !pos_of_insert. destruct (decide (ts = t)) as [<-|_], (decide (ts = t')) as [<-|_]; intros Hy Hy'.
  - lia.
  - apply Hin, not_done in Hy'. lia.
  - injection Hy' as <-. pose proof (Hle _ (Hin _ _ Hy)).
    destruct (decide (t = last)) as [->|Hne]; [rewrite Hx in Hy; injection Hy as ->; lia|].
    assert (y + BOX_GAP ≤ x) by (eapply (st_gap _ _ _ _ Hsc t last); [lia|done|done]). unfold BOX_GAP in *. lia.
  - by eapply (st_gap _ _ _ _ Hsc t t').
Qed.

Lemma step_boxes xPos points fit boxes b :
  scanned_to (done ++ [last]) xPos points (fit ++ boxes) →
  (∀ b, b ∈ fit → bx_end b ≤ ts) → (∀ b, b ∈ boxes → ts < bx_end b) →
  b ∈ boxes ↔ ∃ g ev, evs !! g = Some ev ∧ b = make_box textWidth ev ∧ ev_End ev ∉ (done ++ [last]) ++ [ts].
Proof.
  intros Hsc Hfit Hrest. destruct (stamps_split _ _ _ _ _ (io_sorted _ Hio) Hst) as (_ & _ & Hcases).
  setoid_rewrite (elem_of_app (done ++ [last])). setoid_rewrite list_elem_of_singleton. split.
  - intros Hb. destruct (proj1 (st_boxes _ _ _ _ Hsc b)) as (g & ev & Hg & -> & Hend); [set_solver|].
    exists g, ev. split_and!; [done|done|]. apply Hrest in Hb. cbn in Hb. intros [?|?]; [done|lia].
  - intros (g & ev & Hg & -> & Hend). assert (make_box textWidth ev ∈ fit ++ boxes) as [Hb|Hb]%elem_of_app; [|
      apply Hfit in Hb; cbn in Hb|done].
    + apply (st_boxes _ _ _ _ Hsc). exists g, ev. tauto.
    + destruct (io_event _ Hio _ _ Hg) as (_ & _ & [?|[?|?]]%Hcases & _); [tauto|tauto|lia].
Qed.

Lemma stamp_step xPos points boxes :
  scanned_to (done ++ [last]) xPos points boxes →
  ∃ p points' boxes',
    fit_boxes evs lins xPos ts boxes (js_add (pos_of xPos last) BOX_GAP, points) = Ok ((Some p, points'), boxes') ∧
    scanned_to ((done ++ [last]) ++ [ts]) (<[ts := Some p]> xPos) points' boxes'.
Proof.
  intros Hsc. pose proof Hsc as [Hdom _ Hpts Hfits Hsort Hboxes].
  destruct (proj2 (Hdom last)) as [x Hx]; [set_solver|]. rewrite Hx. cbn [js_add mbind option_bind].
  destruct (fit_boxes_ok xPos ts boxes Hsort) with (p := x + BOX_GAP) (points := points)
    as (p & points' & fit & boxes' & Hfb & Hp & Hgr & Hall & -> & Hfit & Hrest); [|done|].
  { intros b Hb Hts. by eapply scanned_ready. }
  exists p, points', boxes'. split; [done|].
  assert (same_pos xPos (<[ts := Some p]> xPos)) as Hsame.
  { intros t y Hy. rewrite pos_of_insert, decide_False; [done|]. intros <-.
    assert (ts ∈ done ++ [last]) as Hin%not_done by (apply Hdom; by rewrite Hy). lia. }
  constructor.
  - intros t. rewrite pos_of_insert, elem_of_app, list_elem_of_singleton, <-Hdom. case_decide; naive_solver.
  - intros t t' y y' Htt. by eapply step_gap.
  - eapply Forall2_impl; [exact Hall|]. intros ln ps. by apply points_ok_same.
  - intros g ev Hg Hd. destruct (decide (ev_End ev = ts)) as [Hts|Hne].
    + exists p. rewrite pos_of_insert, decide_True by done. split; [done|]. eapply box_fits_same; [done|].
      assert (make_box textWidth ev ∈ fit ++ boxes') as [Hb|Hb]%elem_of_app; [|by apply Hfit|].
      { apply Hboxes. exists g, ev. split_and!; [done|done|]. intros Hin%not_done. lia. }
      apply Hrest in Hb. cbn in Hb. lia.
    + destruct (Hfits g ev Hg) as (q & Hq & Hbf); [set_solver|]. exists q. split; [by apply Hsame|].
      eapply box_fits_same; [done|]. eapply box_fits_lasting; [|done|done]. lia.
  - by apply StronglySorted_app in Hsort as (_ & _ & ?).
  - intros b. eapply step_boxes; [done| |done]. intros b' Hb'. by apply Hfit.
Qed.
End Step.

Lemma scan_stamps_ok stamps : in_order stamps → ∀ rest done last xPos points boxes,
  stamps = (done ++ [last]) ++ rest → scanned_to (done ++ [last]) xPos points boxes →
  ∃ xPos' points' boxes', scan_stamps evs lins xPos points boxes last rest = Ok (xPos', points') ∧
    scanned_to stamps xPos' points' boxes'.
Proof.
  intros Hio rest. induction rest as [|ts rest IH]; intros done last xPos points boxes Hst Hsc.
  { rewrite app_nil_r in Hst. subst. by exists xPos, points, boxes. }
  destruct (stamp_step stamps done last ts rest Hio Hst _ _ _ Hsc) as (p & points' & boxes' & Hfb & Hsc').
  cbn [scan_stamps]. rewrite Hfb. cbn [mbind outcome_bind]. eapply IH; [|done]. by rewrite Hst, <-!app_assoc.
Qed.

Lemma earlier_end_weak : strict_weak earlier_end.
Proof.
  unfold earlier_end. split; intros *; rewrite ?bool_decide_eq_true, ?bool_decide_eq_false; lia.
Qed.

Lemma byEnd_sorted : StronglySorted (λ a b, bx_end a ≤ bx_end b) (byEnd textWidth evs).
Proof.
  eapply StronglySorted_weaken; [|apply insertion_sort_sorted, earlier_end_weak].
  unfold earlier_end. intros a b Hab%bool_decide_eq_false. lia.
Qed.

Lemma scanned_first stamps t0 rest :
  in_order stamps → stamps = t0 :: rest →
  scanned_to [t0] {[t0 := Some 0]} (replicate (length lins) []) (byEnd textWidth evs).
Proof.
  intros Hio Hst. assert (∀ g ev, evs !! g = Some ev → t0 < ev_End ev) as Hend.
  { intros g ev Hg. destruct (io_event _ Hio _ _ Hg) as (_ & Hs & _ & Hlt). pose proof (io_sorted _ Hio) as Hsort.
    rewrite Hst in Hs, Hsort. apply StronglySorted_inv in Hsort as [_ Hf]. rewrite Forall_forall in Hf.
    apply elem_of_cons in Hs as [Heq|Hs]; [lia|]. specialize (Hf _ Hs). lia. }
  assert (∀ t, pos_of {[t0 := Some 0]} t = if decide (t0 = t) then Some 0 else None) as Hpos.
  { intros t. unfold pos_of. rewrite lookup_singleton. by case_decide. }
  constructor.
  - intros t. rewrite Hpos, list_elem_of_singleton. case_decide; [naive_solver|].
    split; [by intros [? [=]]|congruence].
  - intros t t' x x' Hlt. rewrite !Hpos. do 2 case_decide; intros; simplify_eq. lia.
  - apply Forall2_same_length_lookup. split; [by rewrite length_replicate|].
    intros i ln ps _ [-> _]%lookup_replicate. constructor; [cbn; lia|done|done|done].
  - intros g ev Hg Hin%list_elem_of_singleton. specialize (Hend _ _ Hg). lia.
  - apply byEnd_sorted.
  - intros b. unfold byEnd. rewrite (insertion_sort_perm earlier_end), list_elem_of_fmap. split.
    + intros (ev & -> & [g Hg]%list_elem_of_lookup). exists g, ev. split_and!; [done|done|].
      intros Hin%list_elem_of_singleton. specialize (Hend _ _ Hg). lia.
    + intros (g & ev & Hg & -> & _). exists ev. split; [done|by eapply list_elem_of_lookup_2].
Qed.

(** ** What the positions are good for *)
Record fits (stamps : list Z) (xPos : gmap Z num) (points : list (list num)) : Prop := {
  ft_apart t t' : t ∈ stamps → t' ∈ stamps → t < t' →
    ∃ x x', pos_of xPos t = Some x ∧ pos_of xPos t' = Some x' ∧ x + BOX_GAP ≤ x';
  ft_text ev : ev ∈ evs → ∃ x x', pos_of xPos (ev_Start ev) = Some x ∧ pos_of xPos (ev_End ev) = Some x' ∧
    x + BOX_GAP ≤ x' ∧ x + (textWidth (ev_Description ev) + 2 * BOX_TEXT_PADDING) ≤ x';
  ft_lin index ln : lins !! index = Some ln → ∃ vs, points !! index = Some (Some <$> vs) ∧
    length vs = length (ln_events ln) ∧
    (∀ k v w, vs !! k = Some v → vs !! S k = Some w → v + EPSILON ≤ w) ∧
    (∀ k v g ev x, vs !! k = Some v → ln_events ln !! k = Some g → evs !! g = Some ev →
      pos_of xPos (ev_Start ev) = Some x →
      (k = 0%nat → v = x) ∧ (∀ j u, k = S j → vs !! j = Some u → v = x `max` (u + EPSILON))) ∧
    (∀ k v g ev, vs !! k = Some v → ln_events ln !! k = Some g → evs !! g = Some ev →
      ∃ x x', pos_of xPos (ev_Start ev) = Some x ∧ pos_of xPos (ev_End ev) = Some x' ∧ x ≤ v ≤ x') ∧
    (∀ v g ev, last vs = Some v → g ∈ ln_illegal ln → evs !! g = Some ev →
      ∃ x', pos_of xPos (ev_End ev) = Some x' ∧ v + EPSILON ≤ x');
}.

Lemma points_values xPos ln ps : points_ok xPos ln ps → ∃ vs, ps = Some <$> vs.
Proof.
  intros [_ Hpt _ _]. exists (omap id ps). apply list_eq. intros k.
  enough (Forall is_Some ps) as Hf.
  { clear Hpt. revert k. induction Hf as [|p ps [v ->] Hf IH]; intros k; [done|]. cbn. by destruct k; cbn. }
  apply Forall_forall. intros p [k' Hk]%list_elem_of_lookup. destruct (Hpt _ _ Hk) as (v & _ & _ & -> & _). by eexists.
Qed.

(** Every point of a linearization is there, in its box. *)
Lemma all_points stamps xPos points boxes index ln vs :
  in_order stamps → scanned_to stamps xPos points boxes → lins !! index = Some ln →
  points !! index = Some (Some <$> vs) → ∀ k g ev, ln_events ln !! k = Some g → evs !! g = Some ev →
    ∃ v x', vs !! k = Some v ∧ pos_of xPos (ev_End ev) = Some x' ∧ v ≤ x'.
Proof.
  intros Hio Hsc Hln Hps k g ev Hk Hg. destruct (io_event _ Hio _ _ Hg) as (Hgid & _ & Hend & _).
  destruct (st_fits _ _ _ _ Hsc _ _ Hg Hend) as (x' & Hx' & [_ Hp _]).
  destruct (Hp index ln k Hln) as (ps & v & Hps' & Hv & Hle); [by cbn; rewrite Hgid|].
  simplify_eq. rewrite list_lookup_fmap in Hv. apply fmap_Some in Hv as (v' & Hv' & [= ->]). eauto.
Qed.

(** There is room for each operation that is illegal after a linearization. *)
Lemma room_for_illegal stamps xPos points boxes index ln vs g ev v :
  in_order stamps → scanned_to stamps xPos points boxes → lins !! index = Some ln →
  points !! index = Some (Some <$> vs) → length vs = length (ln_events ln) →
  last vs = Some v → g ∈ ln_illegal ln → evs !! g = Some ev →
  ∃ x', pos_of xPos (ev_End ev) = Some x' ∧ v + EPSILON ≤ x'.
Proof.
  intros Hio Hsc Hln Hps Hlen Hlast Hg Hev. destruct (io_event _ Hio _ _ Hev) as (Hgid & _ & Hend & _).
  destruct (st_fits _ _ _ _ Hsc _ _ Hev Hend) as (x' & Hx' & [_ _ Hi]). exists x'. split; [done|].
  destruct (Hi index ln Hln) as (ps & w & Hps' & Hw & Hle); [by cbn; rewrite Hgid|].
  rewrite last_lookup, Hlen in Hlast. simplify_eq. rewrite list_lookup_fmap, Hlast in Hw. injection Hw as ->. lia.
Qed.

Lemma scanned_fits stamps xPos points boxes :
  in_order stamps → scanned_to stamps xPos points boxes → fits stamps xPos points.
Proof.
  intros Hio Hsc. pose proof Hsc as [Hdom Hgap Hpts Hfits _ _]. constructor.
  - intros t t' [x Hx]%Hdom [x' Hx']%Hdom Hlt. exists x, x'. eauto.
  - intros ev [g Hg]%list_elem_of_lookup. destruct (io_event _ Hio _ _ Hg) as (_ & _ & Hend & Hlt).
    destruct (Hfits _ _ Hg Hend) as (x' & Hx' & [(x & Hx & Hw) _ _]). exists x, x'. split_and!; [done|done|by eapply Hgap|done].
  - intros index ln Hln. destruct (Forall2_lookup_l _ _ _ _ _ Hpts Hln) as (ps & Hps & Hok).
    destruct (points_values _ _ _ Hok) as [vs ->]. destruct (io_lin _ Hio _ _ Hln) as [_ Hknown].
    pose proof Hok as [Hlen Hpt Hap Hex]. rewrite length_fmap in Hlen.
    pose proof (all_points _ _ _ _ _ _ _ Hio Hsc Hln Hps) as Hin.
    assert (length vs = length (ln_events ln)) as Hvs.
    { destruct (decide (length vs < length (ln_events ln))%nat) as [Hlt|]; [|lia].
      destruct (lookup_lt_is_Some_2 _ _ Hlt) as [g Hg]. destruct (Hknown g) as [ev Hev]; [by eapply list_elem_of_lookup_2|].
      destruct (Hin _ _ _ Hg Hev) as (v & _ & Hv & _). apply lookup_lt_Some in Hv. lia. }
    exists vs. split_and!; [done|done| | | |].
    + intros k v w Hv Hw. apply (Hap k); by rewrite list_lookup_fmap, ?Hv, ?Hw.
    + intros k v g ev x Hv Hg Hev Hx. destruct (Hex k v g x) as [H0 HS]; [by rewrite list_lookup_fmap, Hv|done|by exists ev|].
      split; [done|]. intros j u Hj Hu. eapply HS; [done|]. by rewrite list_lookup_fmap, Hu.
    + intros k v g ev Hv Hg Hev. destruct (Hin _ _ _ Hg Hev) as (v' & x' & Hv' & Hx' & Hle).
      destruct (Hpt k (Some v)) as (v'' & g' & x & [= <-] & Hg' & (ev' & Hev' & Hx) & Hxv);
        [by rewrite list_lookup_fmap, Hv|]. simplify_eq. by exists x, x'.
    + intros v g ev. by eapply room_for_illegal.
Qed.

Lemma scan_all_fits stamps : in_order stamps →
  ∃ xPos points, scan_all textWidth evs lins stamps = Ok (xPos, points) ∧ fits stamps xPos points.
Proof.
  intros Hio. destruct stamps as [|t0 rest].
  - eexists _, _. split; [done|]. constructor; [set_solver| |].
    + intros ev [g Hg]%list_elem_of_lookup. destruct (io_event _ Hio _ _ Hg) as (_ & ? & _). set_solver.
    + intros index ln Hln. destruct (io_lin _ Hio _ _ Hln) as [Hne Hk]. destruct (ln_events ln) as [|g l]; [done|].
      destruct (Hk g) as [ev Hev]; [set_solver|]. destruct (io_event _ Hio _ _ Hev) as (_ & ? & _). set_solver.
  - destruct (scan_stamps_ok _ Hio rest [] t0 _ _ _ eq_refl (scanned_first _ _ _ Hio eq_refl))
      as (xPos & points & boxes & Hs & Hsc). exists xPos, points. split; [done|]. by eapply scanned_fits.
Qed.
End ScanFits.
