(* ===== verification/LayoutFits.v ===== *)
(** * porcupine: the layout of a checked history fits

    The events and linearizations of [render]'s data are in order for the scan,
    when no operation starts at the last time stamp and the partial
    linearizations respect real time ([layout_fits]); so is what the checker
    collects from histories in which no operation starts when the last one
    returns ([checked_page_ok]). *)
From S2P Require Import Prelude GoLib Bitset PorcModel PorcList Checker CheckerSearch CheckerCorrect PartialOrder KvModel KVHistory Visualization Layout ScanFits.
Local Open Scope Z_scope.

(** ** From the data

    The events and the linearizations of the scan, in global numbers. *)
Lemma give_gids_concat histories : ∀ g,
  concat (give_gids g histories) = imap (λ k el, make_event (g + k) el) (concat histories).
Proof.
  induction histories as [|h histories IH]; intros g; [done|]. cbn. rewrite IH, imap_app. f_equal.
  apply imap_ext. intros k el _. unfold compose. f_equal. lia.
Qed.

Lemma give_gids_lookup histories p h : histories !! p = Some h → ∀ g, ∃ off,
  give_gids g histories !! p = Some (imap (λ k el, make_event (g + (off + k)) el) h) ∧
  ∀ k el, h !! k = Some el → concat histories !! (off + k)%nat = Some el.
Proof.
  revert p. induction histories as [|h0 histories IH]; intros [|p] Hp g; cbn in Hp; [done|done| |].
  - injection Hp as ->. exists 0%nat. split; [done|]. intros k el Hk. cbn.
    by apply lookup_app_l_Some.
  - destruct (IH _ Hp (g + length h0)%nat) as (off & Hoff & Hel). exists (length h0 + off)%nat. split.
    + etrans; [exact Hoff|]. f_equal. apply imap_ext. intros k el _. f_equal. lia.
    + intros k el Hk. cbn [concat]. rewrite lookup_app_r by lia. rewrite <-(Hel _ _ Hk). f_equal. lia.
Qed.

Lemma sort_numbers_sorted X : StronglySorted Z.lt (sort_numbers X).
Proof.
  assert (strict_weak ascending) as Hw.
  { unfold ascending. split; intros *; rewrite ?bool_decide_eq_true, ?bool_decide_eq_false; lia. }
  assert (NoDup (sort_numbers X)) as Hnd.
  { unfold sort_numbers. rewrite insertion_sort_perm. apply NoDup_elements. }
  pose proof (insertion_sort_sorted ascending (elements X) Hw) as Hs. fold (sort_numbers X) in Hs.
  induction Hs as [|x l Hs IH Hx]; constructor; apply NoDup_cons in Hnd as [Hnx Hnd]; [by apply IH|].
  rewrite Forall_forall in Hx |- *. intros y Hy. specialize (Hx _ Hy).
  apply bool_decide_eq_false in Hx. assert (x ≠ y) by (by intros ->). lia.
Qed.

Lemma elem_of_sort_numbers X t : t ∈ sort_numbers X ↔ t ∈ X.
Proof. unfold sort_numbers. by rewrite insertion_sort_perm, elem_of_elements. Qed.

Lemma nextTs_sound l a b : StronglySorted Z.lt l → nextTs l !! a = Some b → a < b ∧ b ∈ l.
Proof.
  induction 1 as [|x l Hs IH Hx]; [done|]. destruct l as [|y l]; [done|]. cbn [nextTs].
  apply Forall_cons in Hx as [Hxy _]. rewrite lookup_insert_Some. intros [[<- <-]|[_ H]]; [set_solver|].
  apply IH in H as [? ?]. set_solver.
Qed.

Lemma nextTs_complete l a c : StronglySorted Z.lt l → a ∈ l → c ∈ l → a < c → is_Some (nextTs l !! a).
Proof.
  induction 1 as [|x l Hs IH Hx]; [set_solver|]. rewrite Forall_forall in Hx.
  destruct l as [|y l]; [set_solver by lia|]. cbn [nextTs]. intros Ha Hc Hac.
  rewrite lookup_insert. case_decide as Hxa; [done|]. apply elem_of_cons in Ha as [->|Ha]; [done|].
  apply IH; [done| |done]. apply elem_of_cons in Hc as [->|Hc]; [|done]. specialize (Hx _ Ha). lia.
Qed.

(** After the tweaks an operation ends after all that started before its end. *)
Section Tweak.
Context (evs : list event).
Hypothesis even_stamps : ∀ t, t ∈ allTimestamps evs → (2 | t).
Hypothesis later_stamp : ∀ s, s ∈ startTimestamps evs → ∃ t, t ∈ allTimestamps evs ∧ s < t.
Local Abbreviation tweaked := (tweak (startTimestamps evs) (nextTs (sort_numbers (allTimestamps evs)))).

Lemma tweak_after ev s :
  ev ∈ evs → s ∈ startTimestamps evs → s ≤ ev_End ev → s < ev_End (tweaked ev).
Proof.
  intros Hev Hs Hle. pose proof (sort_numbers_sorted (allTimestamps evs)) as Hsort.
  assert (ev_End ev ∈ allTimestamps evs) as Hend by (unfold allTimestamps; set_solver).
  unfold tweak. destruct (decide (ev_End ev ∈ startTimestamps evs)) as [Hin|Hin].
  - destruct (later_stamp _ Hin) as (t & Ht & Hlt).
    destruct (nextTs_complete (sort_numbers (allTimestamps evs)) (ev_End ev) t) as [nx Hnx];
      [done|by apply elem_of_sort_numbers..|done|].
    rewrite Hnx. cbn. destruct (nextTs_sound _ _ _ Hsort Hnx) as [Hlt' Hnxin%elem_of_sort_numbers].
    destruct (even_stamps _ Hend) as [a Ha], (even_stamps _ Hnxin) as [b Hb].
    rewrite Ha, Hb in *. replace (a * 2 + b * 2) with ((a + b) * 2) by ring. rewrite Z.div_mul by done. lia.
  - assert (s ≠ ev_End ev) by (by intros ->). case_match; cbn; lia.
Qed.

Lemma tweak_fields ev :
  ev_Start (tweaked ev) = ev_Start ev ∧ ev_Gid (tweaked ev) = ev_Gid ev ∧
  ev_ClientId (tweaked ev) = ev_ClientId ev ∧ ev_Description (tweaked ev) = ev_Description ev ∧
  (ev_OriginalEnd ev = ev_End ev → ev_OriginalEnd (tweaked ev) = ev_OriginalEnd ev).
Proof. unfold tweak. repeat case_match; by cbn. Qed.
End Tweak.

(** ** Data that can be shown

    [not_after h i j]: the [i]-th operation starts before the [j]-th ends. *)
Definition not_after (h : list historyElement) (i j : Z) : Prop :=
  match h !! Z.to_nat i, h !! Z.to_nat j with Some a, Some b => he_Start a ≤ he_End b | _, _ => False end.

(** A partial linearization: it respects real time, and so do the operations
    that are left out. *)
Record lin_ok (h : list historyElement) (ids : list Z) : Prop := {
  lk_some : ids ≠ [];
  lk_range i : i ∈ ids → 0 ≤ i < go_len h;
  lk_order j k i i' : (j ≤ k)%nat → ids !! j = Some i → ids !! k = Some i' → not_after h i i';
  lk_left i i' : i ∈ ids → 0 ≤ i' < go_len h → i' ∉ ids → not_after h i i';
}.

(** No operation starts at the last time stamp. *)
Record page_ok (data : list partitionVisualizationData) : Prop := {
  pg_time el : el ∈ concat (pv_History <$> data) → he_Start el ≤ he_End el;
  pg_last el : el ∈ concat (pv_History <$> data) →
    ∃ el', el' ∈ concat (pv_History <$> data) ∧ he_Start el < he_End el';
  pg_lins d lin : d ∈ data → lin ∈ pv_PartialLinearizations d → lin_ok (pv_History d) (ls_Index <$> lin);
}.

Lemma mapM_exists {A B} (f : A → outcome B) (P : B → Prop) l :
  (∀ x, x ∈ l → ∃ y, f x = Ok y ∧ P y) → ∃ k, mapM f l = Ok k ∧ Forall P k.
Proof.
  induction l as [|x l IH]; intros Hf; [by exists []|].
  destruct (Hf x) as (y & Hy & HP); [set_solver|]. destruct IH as (k & Hk & HPk); [set_solver|].
  exists (y :: k). cbn. rewrite Hy. cbn. rewrite Hk. cbn. split; [done|by constructor].
Qed.

(** The linearization [ln] is [ids], of the history [h] whose numbers begin at [off]. *)
Record from_ids (off : nat) (h : list historyElement) (ids : list Z) (ln : linearization) : Prop := {
  fi_events : ln_events ln = (λ i, off + Z.to_nat i)%nat <$> ids;
  fi_illegal g : g ∈ ln_illegal ln → ∃ i, g = (off + i)%nat ∧ (i < length h)%nat ∧ Z.of_nat i ∉ ids;
}.

Lemma elem_of_illegal_next h lin i ev :
  (i, ev) ∈ illegal_next h lin → h !! i = Some ev ∧ (Z.of_nat i ∉ ls_Index <$> lin).
Proof.
  unfold illegal_next, left_out. rewrite !list_elem_of_filter. intros (_ & Hni & [k Hk]%list_elem_of_lookup).
  split; [|done]. rewrite list_lookup_imap in Hk. by apply fmap_Some in Hk as (ev' & Hev & [= -> ->]).
Qed.

Lemma globalize_ok off h h' lin :
  (∀ i, i ∈ ls_Index <$> lin → 0 ≤ i < go_len h) → length h' = length h →
  (∀ k ev, h' !! k = Some ev → ev_Gid ev = (off + k)%nat) →
  ∃ ln, globalize h' lin = Ok ln ∧ from_ids off h (ls_Index <$> lin) ln.
Proof.
  intros Hr Hlen Hgid.
  assert (∃ evs, mapM (λ id, go_index h' (ls_Index id)) lin = Ok evs ∧
    ev_Gid <$> evs = (λ i, off + Z.to_nat i)%nat <$> (ls_Index <$> lin)) as (evs & Hm & Hevs).
  { clear -Hr Hlen Hgid. induction lin as [|id lin IH]; [by exists []|]. cbn in Hr.
    destruct IH as (evs & Hm & Hevs); [set_solver|].
    destruct (Hr (ls_Index id) ltac:(set_solver)) as [H0 Hlt]. unfold go_len in Hlt.
    destruct (lookup_lt_is_Some_2 h' (Z.to_nat (ls_Index id))) as [ev Hev]; [lia|].
    exists (ev :: evs). cbn. rewrite (proj2 (go_index_Ok _ _ _) (conj H0 Hev)). cbn. rewrite Hm. cbn.
    split; [done|]. by rewrite Hevs, (Hgid _ _ Hev). }
  eexists. split; [unfold globalize; rewrite Hm; reflexivity|]. constructor; [done|]. cbn [ln_illegal].
  intros g (ev & -> & ([i ev'] & -> & Hin)%list_elem_of_fmap)%list_elem_of_fmap.
  destruct (elem_of_illegal_next _ _ _ _ Hin) as [Hk Hni]. exists i. split_and!; [by apply Hgid| |done].
  apply lookup_lt_Some in Hk. lia.
Qed.

Section Data.
Context (data : list partitionVisualizationData) (Hdata : page_ok data).

Local Abbreviation elements_of := (concat (pv_History <$> data)).
Local Abbreviation given := (give_gids 0 (pv_History <$> data)).
Local Abbreviation tweaked :=
  (tweak (startTimestamps (concat given)) (nextTs (sort_numbers (allTimestamps (concat given))))).

Lemma tweaked_concat : concat (tweak_all given) = tweaked <$> concat given.
Proof.
  unfold tweak_all. generalize tweaked. intros f. clear Hdata. induction given as [|h l IH]; [done|]. cbn.
  by rewrite fmap_app, IH.
Qed.

Lemma events_lookup g ev :
  concat (tweak_all given) !! g = Some ev ↔ ∃ el, elements_of !! g = Some el ∧ ev = tweaked (make_event g el).
Proof.
  rewrite tweaked_concat, give_gids_concat, list_lookup_fmap, list_lookup_imap.
  destruct (elements_of !! g) as [el|]; cbn; naive_solver.
Qed.

Lemma given_in ev : ev ∈ concat given ↔ ∃ g el, elements_of !! g = Some el ∧ ev = make_event g el.
Proof.
  rewrite give_gids_concat, list_elem_of_lookup. setoid_rewrite list_lookup_imap.
  setoid_rewrite fmap_Some. naive_solver.
Qed.

Lemma given_start s : s ∈ startTimestamps (concat given) ↔ ∃ el, el ∈ elements_of ∧ s = 2 * he_Start el.
Proof.
  unfold startTimestamps. rewrite elem_of_list_to_set, list_elem_of_fmap. setoid_rewrite given_in. split.
  - intros (ev & -> & g & el & Hel & ->). exists el. split; [by eapply list_elem_of_lookup_2|done].
  - intros (el & [g Hg]%list_elem_of_lookup & ->). exists (make_event g el). split; [done|]. eauto.
Qed.

Lemma given_stamp t : t ∈ allTimestamps (concat given) ↔
  ∃ el, el ∈ elements_of ∧ (t = 2 * he_Start el ∨ t = 2 * he_End el).
Proof.
  unfold allTimestamps. rewrite elem_of_union, !elem_of_list_to_set, !list_elem_of_fmap. setoid_rewrite given_in.
  split.
  - intros [(ev & -> & g & el & Hel & ->)|(ev & -> & g & el & Hel & ->)]; exists el;
      (split; [by eapply list_elem_of_lookup_2|cbn; auto]).
  - intros (el & [g Hg]%list_elem_of_lookup & [-> | ->]); [left|right]; exists (make_event g el); split; eauto.
Qed.

Lemma data_after g el s :
  elements_of !! g = Some el → (∃ el', el' ∈ elements_of ∧ s = he_Start el') → s ≤ he_End el →
  2 * s < ev_End (tweaked (make_event g el)).
Proof.
  intros Hg Hs Hle. apply tweak_after.
  - intros t (el' & _ & [-> | ->])%given_stamp; by apply Z.divide_factor_l.
  - intros t (el' & Hel' & ->)%given_start. destruct (pg_last _ Hdata _ Hel') as (el'' & Hin & Hlt).
    exists (2 * he_End el''). split; [|lia]. apply given_stamp. eauto.
  - apply given_in. eauto.
  - destruct Hs as (el' & Hel' & ->). apply given_start. eauto.
  - cbn. lia.
Qed.

(** [ln] comes from the data. *)
Definition from_data (ln : linearization) : Prop := ∃ off h ids,
  lin_ok h ids ∧ (∀ k el, h !! k = Some el → elements_of !! (off + k)%nat = Some el) ∧ from_ids off h ids ln.

Lemma data_linearizations : ∃ lns,
  allLinearizations (tweak_all given) (pv_PartialLinearizations <$> data) = Ok lns ∧ Forall from_data lns.
Proof.
  destruct (mapM_exists (λ '(h, ls), mapM (globalize h) ls) (Forall from_data)
    (zip (tweak_all given) (pv_PartialLinearizations <$> data))) as (lss & Hm & Hall).
  2:{ exists (concat lss). split; [unfold allLinearizations; by rewrite Hm|]. clear -Hall.
      induction Hall; cbn; [done|]. by apply Forall_app. }
  intros [h' ls] [p Hp]%list_elem_of_lookup. apply lookup_zip_with_Some in Hp as (h1 & ls1 & [= <- <-] & Hh & Hls).
  rewrite list_lookup_fmap in Hls. apply fmap_Some in Hls as (d & Hd & ->).
  destruct (give_gids_lookup (pv_History <$> data) p (pv_History d)) with (g := 0%nat) as (off & Hoff & Hel).
  { by rewrite list_lookup_fmap, Hd. }
  unfold tweak_all in Hh. rewrite list_lookup_fmap, Hoff in Hh. injection Hh as <-.
  apply mapM_exists. intros lin Hlin.
  pose proof (pg_lins _ Hdata d lin ltac:(by eapply list_elem_of_lookup_2) Hlin) as Hok.
  edestruct (globalize_ok off (pv_History d)) as (ln & Hln & Hfrom); [exact (lk_range _ _ Hok)|..|
    exists ln; split; [exact Hln|by exists off, (pv_History d), (ls_Index <$> lin)]].
  - by rewrite length_fmap, length_imap.
  - intros k ev Hk. rewrite list_lookup_fmap, list_lookup_imap in Hk.
    destruct (pv_History d !! k) as [el|]; [|done]. injection Hk as <-.
    apply (tweak_fields (concat given)).
Qed.

(** The operation that follows in a linearization, or is left out of it, ends later. *)
Lemma data_before off h i i' g g' ev ev' :
  (∀ k el, h !! k = Some el → elements_of !! (off + k)%nat = Some el) → not_after h i i' →
  g = (off + Z.to_nat i)%nat → g' = (off + Z.to_nat i')%nat →
  concat (tweak_all given) !! g = Some ev → concat (tweak_all given) !! g' = Some ev' →
  ev_Start ev < ev_End ev'.
Proof.
  unfold not_after. intros Hh Hna -> ->. destruct (h !! Z.to_nat i) as [a|] eqn:Ha; [|done].
  destruct (h !! Z.to_nat i') as [b|] eqn:Hb; [|done]. apply Hh in Ha, Hb.
  intros (el & Hel & ->)%events_lookup (el' & Hel' & ->)%events_lookup.
  assert (el = a) as -> by congruence. assert (el' = b) as -> by congruence.
  destruct (tweak_fields (concat given) (make_event (off + Z.to_nat i) a)) as (-> & _).
  apply data_after; [done|exists a; split; [by eapply list_elem_of_lookup_2|done]|done].
Qed.

Lemma data_event g ev : concat (tweak_all given) !! g = Some ev →
  ev_Gid ev = g ∧ ev_Start ev ∈ sortedTimestamps given ∧ ev_End ev ∈ sortedTimestamps given ∧
  ev_Start ev < ev_End ev.
Proof.
  intros Hg. pose proof Hg as (el & Hel & Hev)%events_lookup. pose proof (list_elem_of_lookup_2 _ _ _ Hel) as Hin.
  destruct (tweak_fields (concat given) (make_event g el)) as (Hs & Hgid & _). rewrite <-Hev in Hs, Hgid.
  split_and!.
  - done.
  - apply elem_of_sort_numbers, elem_of_union_l, given_stamp. eauto.
  - apply elem_of_sort_numbers, elem_of_union_r, elem_of_list_to_set, list_elem_of_fmap.
    exists ev. split; [done|by eapply list_elem_of_lookup_2].
  - rewrite Hs, Hev. apply data_after; [done|by exists el|]. by apply (pg_time _ Hdata).
Qed.

Lemma data_in_order lns : Forall from_data lns → in_order (concat (tweak_all given)) lns (sortedTimestamps given).
Proof.
  intros Hall. rewrite Forall_lookup in Hall. constructor.
  - apply sort_numbers_sorted.
  - apply data_event.
  - intros index ln Hln. destruct (Hall _ _ Hln) as (off & h & ids & Hok & Hh & [Hev _]). rewrite Hev. split.
    + intros [=]%fmap_nil_inv. by apply (lk_some _ _ Hok).
    + intros g (i & -> & Hi)%list_elem_of_fmap. pose proof (lk_range _ _ Hok _ Hi) as Hr. unfold go_len in Hr.
      destruct (lookup_lt_is_Some_2 h (Z.to_nat i)) as [el Hel]; [lia|]. apply Hh in Hel.
      eexists. apply events_lookup. eauto.
  - intros index ln j k g ev g' ev' Hln Hjk Hg Hev Hg' Hev'.
    destruct (Hall _ _ Hln) as (off & h & ids & Hok & Hh & [Hevs _]). rewrite Hevs, list_lookup_fmap in Hg, Hg'.
    apply fmap_Some in Hg as (i & Hi & ->), Hg' as (i' & Hi' & ->).
    eapply data_before; [done|by eapply lk_order|done..].
  - intros index ln g ev g' ev' Hln Hg Hev Hg' Hev'.
    destruct (Hall _ _ Hln) as (off & h & ids & Hok & Hh & [Hevs Hill]). rewrite Hevs in Hg.
    apply list_elem_of_fmap in Hg as (i & -> & Hi). destruct (Hill _ Hg') as (i' & -> & Hlt & Hni).
    eapply (data_before off h i (Z.of_nat i')); [done| |done|by rewrite Nat2Z.id|done..].
    apply (lk_left _ _ Hok); [done|unfold go_len; lia|done].
Qed.
End Data.

(** The layout of the page is found, and it fits: later time stamps are at least [BOX_GAP]
    to the right; every box is wide enough for its text; the points of a
    partial linearization are at least [EPSILON] apart, each inside the box of
    its operation; and the box of an operation that cannot legally come next has
    room for a point after the last one. *)
Lemma layout_fits (textWidth : string → Z) (data : list partitionVisualizationData) :
  page_ok data →
  ∃ ly, compute_layout textWidth data = Ok ly ∧
    Forall2 (λ el ev, ev_Start ev = 2 * he_Start el ∧ ev_OriginalEnd ev = 2 * he_End el ∧
        ev_ClientId ev = he_ClientId el ∧ ev_Description ev = he_Description el)
      (concat (pv_History <$> data)) (concat (ly_partitions ly)) ∧
    (∀ g ev, concat (ly_partitions ly) !! g = Some ev → ev_Gid ev = g) ∧
    fits textWidth (concat (ly_partitions ly)) (ly_lins ly) (ly_stamps ly) (ly_xPos ly) (ly_points ly).
Proof.
  intros Hdata. destruct (data_linearizations data Hdata) as (lns & Hlns & Hfrom).
  pose proof (data_in_order data Hdata lns Hfrom) as Hio.
  destruct (scan_all_fits textWidth _ _ _ Hio) as (xPos & points & Hscan & Hfits).
  eexists. unfold compute_layout. rewrite Hlns. cbn [mbind outcome_bind]. rewrite Hscan. cbn [mbind outcome_bind].
  split; [done|]. split_and!; [|by intros g ev Hg%data_event; [apply Hg|]|done].
  cbn. apply Forall2_same_length_lookup. split.
  - by rewrite tweaked_concat, give_gids_concat, length_fmap, length_imap.
  - intros g el ev Hel (el' & Hel' & ->)%events_lookup. rewrite Hel in Hel'. injection Hel' as <-.
    destruct (tweak_fields (concat (give_gids 0 (pv_History <$> data))) (make_event g el)) as (-> & _ & -> & -> & Ho).
    by rewrite Ho.
Qed.

(** ** From the checker *)
Section Shown.
Context {State Input Output : Type} `{EqDecision State} `{GoSort} (model : Model State Input Output).
Context (DescribeOperation : Input → Output → string) (DescribeState : State → string).
Local Abbreviation Operation := (Operation Input Output).
Local Abbreviation element_of := (element_of DescribeOperation).

(** No operation returns before it is called, and none starts when the last
    one returns: the layout moves an end behind a start of the same time, which
    needs a later time stamp. *)
Definition drawable (parts : list (list Operation)) : Prop :=
  Forall timed parts ∧
  ∀ o, o ∈ concat parts → ∃ o', o' ∈ concat parts ∧ op_Call o < op_Return o'.

(** Enough, for instance, that every operation takes time. *)
Lemma takes_time_drawable (parts : list (list Operation)) :
  Forall (Forall (λ o, op_Call o < op_Return o)) parts → drawable parts.
Proof.
  intros Ht. split.
  - eapply Forall_impl; [exact Ht|]. intros ops Hops. eapply Forall_impl; [exact Hops|]. cbn. lia.
  - intros o Ho. exists o. split; [done|]. apply elem_of_concat in Ho as (ops & Ho & Hops).
    rewrite Forall_forall in Ht. specialize (Ht _ Hops). rewrite Forall_forall in Ht. by apply Ht.
Qed.

Lemma element_lookup (ops : list Operation) i el : 0 ≤ i →
  (element_of <$> ops) !! Z.to_nat i = Some el ↔ ∃ o, (i, o) ∈ indexed ops ∧ el = element_of o.
Proof.
  intros Hi. rewrite list_lookup_fmap, fmap_Some. setoid_rewrite elem_of_indexed. naive_solver.
Qed.

Lemma respects_lin_ok (ops : list Operation) ids :
  respects ops ids → (∀ i, i ∈ ids → ∃ o, (i, o) ∈ indexed ops) → lin_ok (element_of <$> ops) ids.
Proof.
  intros [Hne Hr] Hnames.
  assert (∀ k i j, ids !! k = Some i → 0 ≤ j < go_len ops → j ∉ take k ids → not_after (element_of <$> ops) i j) as Hna.
  { intros k i j Hi Hj Hnot. destruct (Hnames i) as [o Ho]; [by eapply list_elem_of_lookup_2|].
    unfold go_len in Hj. destruct (lookup_lt_is_Some_2 ops (Z.to_nat j)) as [o' Ho']; [lia|].
    destruct (Hr _ _ Hi) as [_ Hle]. unfold not_after. apply elem_of_indexed in Ho as Ho2. destruct Ho2 as [_ Ho2].
    rewrite !list_lookup_fmap, Ho2, Ho'. cbn. apply (Hle o j o' Ho); [|done]. apply elem_of_indexed. split; [lia|done]. }
  assert (∀ i, i ∈ ids → 0 ≤ i < go_len ops) as Hrange.
  { intros i [o [H0 Hi]%elem_of_indexed]%Hnames. apply lookup_lt_Some in Hi. unfold go_len. lia. }
  constructor; [done|unfold go_len in *; by setoid_rewrite length_fmap| |].
  - intros j k i i' Hjk Hi Hi'. eapply Hna; [done|by eapply Hrange, list_elem_of_lookup_2|]. intros Hin.
    destruct (Hr _ _ Hi') as [Hnot _]. apply Hnot.
    apply elem_of_take in Hin as (a & Ha & Hlt). apply elem_of_take. exists a. split; [done|lia].
  - intros i i' [k Hk]%list_elem_of_lookup Hi' Hnot. unfold go_len in *. rewrite length_fmap in Hi'.
    eapply Hna; [done|done|]. intros Hin. apply Hnot.
    apply elem_of_take in Hin as (a & Ha & _). by eapply list_elem_of_lookup_2.
Qed.

(** The events are those of the partitions. *)
Lemma depicted_history (parts : list (list Operation)) (longest : list (list (option (nat * list Z)))) data :
  length parts = length longest →
  Forall2 (λ '(ops, l) d, depicts model DescribeOperation DescribeState ops (partials l) d) (zip parts longest) data →
  concat (pv_History <$> data) = element_of <$> concat parts.
Proof.
  revert longest data. induction parts as [|ops parts IH]; intros [|l longest] data Hlen Hdep; try done;
    cbn in Hdep; [by inversion Hdep|].
  apply Forall2_cons_inv_l in Hdep as (d & data' & Hd & Hdep & ->). cbn. rewrite fmap_app, (dp_History _ _ _ _ _ _ Hd).
  f_equal. eapply IH; [|exact Hdep]. by injection Hlen.
Qed.

Lemma depicts_page_ok (parts : list (list Operation)) longest data :
  drawable parts → length parts = length longest →
  Forall2 (λ ops l, Forall (respects ops) (partials l)) parts longest →
  Forall2 (λ '(ops, l) d, depicts model DescribeOperation DescribeState ops (partials l) d) (zip parts longest) data →
  page_ok data.
Proof.
  intros [Htime Hlast] Hlen Hresp Hdep. pose proof (depicted_history _ _ _ Hlen Hdep) as Hevs.
  assert (∀ d, d ∈ data → ∃ ops l, ops ∈ parts ∧ Forall (respects ops) (partials l) ∧
    depicts model DescribeOperation DescribeState ops (partials l) d) as Hd.
  { intros d [p Hp]%list_elem_of_lookup. destruct (Forall2_lookup_r _ _ _ _ _ Hdep Hp) as ([ops l] & Hz & Hdp).
    apply lookup_zip_with_Some in Hz as (ops' & l' & [= <- <-] & Hops & Hl). exists ops, l.
    split_and!; [by eapply list_elem_of_lookup_2| |done]. by apply (Forall2_lookup_lr _ _ _ _ _ _ Hresp Hops Hl). }
  constructor.
  - rewrite Hevs. intros el (o & -> & (ops & Ho & Hops)%elem_of_concat)%list_elem_of_fmap.
    rewrite Forall_forall in Htime. specialize (Htime _ Hops). unfold timed in Htime.
    rewrite Forall_forall in Htime. by apply Htime.
  - rewrite Hevs. intros el (o & -> & (o' & Ho' & Hlt)%Hlast)%list_elem_of_fmap.
    exists (element_of o'). split; [|done]. by apply list_elem_of_fmap_2.
  - intros d lin (ops & l & Hops & Hres & [Hhist (sorted & Hperm & _ & Hshows & _)])%Hd Hlin. rewrite Hhist.
    apply list_elem_of_lookup in Hlin as [k Hk].
    destruct (Forall2_lookup_r _ _ _ _ _ Hshows Hk) as (ids & Hids & sel & Hnames & -> & _).
    apply respects_lin_ok.
    + rewrite Forall_forall in Hres. apply Hres. rewrite <-Hperm. by eapply list_elem_of_lookup_2.
    + intros i [j Hj]%list_elem_of_lookup. destruct (Forall2_lookup_l _ _ _ _ _ Hnames Hj) as (o & _ & Ho). eauto.
Qed.

(** The data for a checked history can be shown, if it is drawable. *)
Lemma checked_page_ok (parts : list (list Operation)) longest :
  drawable parts →
  Forall2 (λ ops l, ∃ killed fuel b, checkSingle model (makeEntries ops) true killed fuel = Ok (Some (b, l)))
    parts longest →
  ∃ data,
    computeVisualizationData model DescribeOperation DescribeState
      (make_info (makeEntries <$> parts) longest) = Ok data ∧
    Forall2 (λ '(ops, l) d, depicts model DescribeOperation DescribeState ops (partials l) d)
      (zip parts longest) data ∧
    page_ok data.
Proof.
  intros Htime Hl. pose proof (proj1 Htime) as Htimed.
  destruct (visualization_ok model DescribeOperation DescribeState parts longest Htimed Hl) as (data & Hdata & Hdep).
  exists data. split_and!; [done|done|]. eapply depicts_page_ok; [done|by eapply Forall2_length| |done].
  apply Forall2_same_length_lookup. split; [by eapply Forall2_length|].
  intros p ops l Hops Hlp. destruct (Forall2_lookup_lr _ _ _ _ _ _ Hl Hops Hlp) as (killed & fuel & b & Hc).
  eapply checkSingle_respects; [|done]. rewrite Forall_lookup in Htimed. by eapply Htimed.
Qed.
End Shown.

