(* ===== verification/Drawing.v ===== *)
(** * porcupine: the drawing of a visualization (the script in
    src/src/porcupine/visualization.go)

    What [render] draws at the positions of [Layout]: a rectangle for each
    operation, and for each partial linearization a stroke through the box of
    every operation, each linked to the one before it; then strokes for the
    operations that could come next but are not legal.  The drawing finds the
    positions of the strokes again; [page_readable]: on what the checker
    collects they are those of the scan, so that every stroke crosses the box of
    its operation, and every link goes to the right.

    [maxClient] and the sizes are whole pixels.  The text of a box is drawn in
    the middle of its rectangle, not modelled; what the mouse does is in
    [PageUI]. *)
From S2P Require Import Prelude GoLib Bitset PorcModel PorcList Checker CheckerSearch CheckerCorrect PartialOrder KvModel KVHistory Visualization Layout ScanFits LayoutFits.
Local Open Scope Z_scope.

Definition PADDING : Z := 10.
Definition BOX_HEIGHT : Z := 30.
Definition BOX_SPACE : Z := 15.
Definition XOFF : Z := 20.
Definition LINE_BLEED : Z := 5.

(** ** The page and its rectangles *)
Definition nClient (data : list partitionVisualizationData) : Z :=
  foldl Z.max (-1) (he_ClientId <$> concat (pv_History <$> data)) + 1.

Definition page_height (data : list partitionVisualizationData) : Z :=
  2 * PADDING + BOX_HEIGHT * nClient data + BOX_SPACE * (nClient data - 1).

(** Without operations, [xPos] has 0 for the time stamp [undefined]. *)
Definition page_width (ly : layout) : num :=
  js_add (match last (ly_stamps ly) with Some t => pos_of (ly_xPos ly) t | None => Some 0 end) (2 * PADDING + XOFF).

Record rect := { rc_x : num; rc_y : Z; rc_width : num }.

Definition js_sub (a b : num) : num := x ← a; y ← b; Some (x - y).

Definition client_y (ev : event) : Z := PADDING + ev_ClientId ev * (BOX_HEIGHT + BOX_SPACE).

Definition history_rect (xPos : gmap Z num) (ev : event) : rect :=
  let rx := pos_of xPos (ev_Start ev) in
  {| rc_x := js_add rx (XOFF + PADDING); rc_y := client_y ev; rc_width := js_sub (pos_of xPos (ev_End ev)) rx |}.

(** ** Linearizations *)
Record line := { ln_x1 : num; ln_x2 : num; ln_y1 : Z; ln_y2 : Z; ln_invalid : bool }.

(** What is drawn for an operation: the line from the one before it, and the
    line at its point. *)
Record stroke := { sk_link : option line; sk_point : line }.

(** [prevX], [prevY] and the client of [prevEl] *)
Record pen := { pn_x : num; pn_y : Z; pn_client : Z }.

Definition draw_point (xPos : gmap Z num) (prev : option pen) (invalid : bool) (el : event) : stroke * pen :=
  let hereX := js_add (pos_of xPos (ev_Start el)) (PADDING + XOFF) in
  let x := match prev with Some p => js_max hereX (js_add (pn_x p) EPSILON) | None => hereX end in
  let y := client_y el - LINE_BLEED in
  let bottom := y + BOX_HEIGHT + 2 * LINE_BLEED in
  ({| sk_link := (λ p, {|
        ln_x1 := pn_x p; ln_x2 := x;
        ln_y1 := if decide (pn_client p >= ev_ClientId el) then pn_y p else pn_y p + BOX_HEIGHT + 2 * LINE_BLEED;
        ln_y2 := if decide (pn_client p <= ev_ClientId el) then y else bottom;
        ln_invalid := invalid |}) <$> prev;
      sk_point := {| ln_x1 := x; ln_x2 := x; ln_y1 := y; ln_y2 := bottom; ln_invalid := invalid |} |},
   {| pn_x := x; pn_y := y; pn_client := ev_ClientId el |}).

Fixpoint draw_lin (xPos : gmap Z num) (history : list event) (prev : option pen) (lin : partialLinearization)
    : outcome (list stroke * option pen) :=
  match lin with
  | [] => Ok ([], prev)
  | id :: lin =>
      el ← go_index history (ls_Index id);
      let '(sk, p) := draw_point xPos prev false el in
      '(sks, prev) ← draw_lin xPos history (Some p) lin;
      Ok (sk :: sks, prev)
  end.

(** The drawing of a linearization: its strokes, and those of the operations
    that are illegal after it, with their indices. *)
Record drawn := { dr_strokes : list stroke; dr_illegal : list (nat * stroke) }.

Definition draw_linearization (xPos : gmap Z num) (history : list event) (lin : partialLinearization) : outcome drawn :=
  '(strokes, prev) ← draw_lin xPos history None lin;
  illegal ← mapM (λ '(index, el),
      match prev with
      | Some p => Ok (index, (draw_point xPos (Some p) true el).1)
      | None => Panic
      end) (illegal_next history lin);
  Ok {| dr_strokes := strokes; dr_illegal := illegal |}.

(** [partialLayers] *)
Definition draw_layers (ly : layout) (data : list partitionVisualizationData) : outcome (list (list drawn)) :=
  mapM (λ '(h, d), mapM (draw_linearization (ly_xPos ly) h) (pv_PartialLinearizations d))
    (zip (ly_partitions ly) data).

(** ** Strokes in boxes *)
Definition crosses (sk : stroke) (r : rect) : Prop := ∃ rx w x,
  rc_x r = Some rx ∧ rc_width r = Some w ∧ rx ≤ x ≤ rx + w ∧
  ln_x1 (sk_point sk) = Some x ∧ ln_x2 (sk_point sk) = Some x ∧
  ln_y1 (sk_point sk) = rc_y r - LINE_BLEED ∧ ln_y2 (sk_point sk) = rc_y r + BOX_HEIGHT + LINE_BLEED.

(** The line to a stroke ends there and comes from [EPSILON] or more to the left. *)
Definition to_the_right (sk : stroke) : Prop := ∀ l, sk_link sk = Some l → ∃ a b,
  ln_x1 l = Some a ∧ ln_x2 l = Some b ∧ ln_x2 (sk_point sk) = Some b ∧ a + EPSILON ≤ b.

(** The drawing [d] of the linearization [lin]. *)
Record readable (xPos : gmap Z num) (history : list event) (lin : partialLinearization) (d : drawn) : Prop := {
  rd_valid : Forall2 (λ id sk, ∃ el, history !! Z.to_nat (ls_Index id) = Some el ∧ crosses sk (history_rect xPos el))
    lin (dr_strokes d);
  rd_invalid : Forall2 (λ '(i, el) '(i', sk), i' = i ∧ crosses sk (history_rect xPos el))
    (illegal_next history lin) (dr_illegal d);
  rd_links : Forall to_the_right (dr_strokes d ++ (dr_illegal d).*2);
}.

(** ** The positions are found again *)
Definition after (prev : option Z) (x : Z) : Z := match prev with Some u => x `max` (u + EPSILON) | None => x end.

Inductive chain (xPos : gmap Z num) : option Z → list event → list Z → Prop :=
  | chain_nil prev : chain xPos prev [] []
  | chain_cons prev el x evs vs :
      pos_of xPos (ev_Start el) = Some x → chain xPos (Some (after prev x)) evs vs →
      chain xPos prev (el :: evs) (after prev x :: vs).

Definition pen_at (prev : option pen) (u : option Z) : Prop := (pn_x <$> prev) = (λ u, Some (u + (PADDING + XOFF))) <$> u.

(** The stroke of [el], at [v] of the scan. *)
Record stroke_at (el : event) (v : Z) (sk : stroke) : Prop := {
  sa_x1 : ln_x1 (sk_point sk) = Some (v + (PADDING + XOFF));
  sa_x2 : ln_x2 (sk_point sk) = Some (v + (PADDING + XOFF));
  sa_y1 : ln_y1 (sk_point sk) = client_y el - LINE_BLEED;
  sa_y2 : ln_y2 (sk_point sk) = client_y el + BOX_HEIGHT + LINE_BLEED;
  sa_link : to_the_right sk;
}.

Lemma draw_point_at xPos prev u invalid el x :
  pen_at prev u → pos_of xPos (ev_Start el) = Some x →
  stroke_at el (after u x) (draw_point xPos prev invalid el).1 ∧
  pen_at (Some (draw_point xPos prev invalid el).2) (Some (after u x)).
Proof.
  unfold pen_at, draw_point. intros Hp Hx. rewrite Hx. cbn [js_add mbind option_bind].
  assert (match prev with Some p => js_max (Some (x + (PADDING + XOFF))) (js_add (pn_x p) EPSILON)
    | None => Some (x + (PADDING + XOFF)) end = Some (after u x + (PADDING + XOFF))) as Hv.
  { destruct prev as [p|], u as [u|]; try done. cbn in Hp. injection Hp as Hp. rewrite Hp. cbn. f_equal. lia. }
  rewrite Hv. split; [|done]. split; cbn; [done|done|done|unfold LINE_BLEED; lia|].
  intros l Hl. cbn in Hl. destruct prev as [p|]; [|done]. injection Hl as <-. destruct u as [u|]; [|done].
  cbn in Hp. injection Hp as Hp. cbn. eexists _, _. split_and!; [done..|]. cbn. lia.
Qed.

Lemma draw_lin_at xPos history lin : ∀ evs prev u vs,
  mapM (λ id, go_index history (ls_Index id)) lin = Ok evs → chain xPos u evs vs → pen_at prev u →
  ∃ strokes prev', draw_lin xPos history prev lin = Ok (strokes, prev') ∧
    Forall2 (λ '(el, v) sk, stroke_at el v sk) (zip evs vs) strokes ∧
    pen_at prev' (from_option Some u (last vs)).
Proof.
  induction lin as [|id lin IH]; intros evs prev u vs Hm Hc Hp; cbn in Hm.
  { injection Hm as <-. inversion Hc; subst. exists [], prev. by repeat constructor. }
  apply bind_Ok in Hm as (el & Hel & Hm). apply bind_Ok in Hm as (evs' & Hm & [= <-]).
  inversion Hc as [|? ? x ? vs' Hx Hc']; subst.
  destruct (draw_point_at xPos prev u false el x Hp Hx) as [Hat Hpen].
  cbn [draw_lin]. rewrite Hel. cbn [mbind outcome_bind].
  destruct (draw_point xPos prev false el) as [sk p]. cbn [fst snd] in *.
  destruct (IH _ _ _ _ Hm Hc' Hpen) as (strokes & prev' & Hd & Hall & Hlast).
  exists (sk :: strokes), prev'. rewrite Hd. split; [done|]. split; [by constructor|].
  by destruct vs' as [|? ? _] using rev_ind; [|rewrite last_snoc in *; rewrite app_comm_cons, last_snoc].
Qed.

(** The values of the scan are such a chain. *)
Lemma exact_chain xPos evs : ∀ prev vs,
  length vs = length evs →
  (∀ k ev, evs !! k = Some ev → is_Some (pos_of xPos (ev_Start ev))) →
  (∀ k v ev x, vs !! k = Some v → evs !! k = Some ev → pos_of xPos (ev_Start ev) = Some x →
    (k = 0%nat → v = after prev x) ∧ (∀ j u, k = S j → vs !! j = Some u → v = after (Some u) x)) →
  chain xPos prev evs vs.
Proof.
  induction evs as [|ev evs IH]; intros prev [|v vs] Hlen Hpos Hex; try done; [constructor|].
  destruct (Hpos 0%nat ev eq_refl) as [x Hx]. destruct (Hex 0%nat v ev x eq_refl eq_refl Hx) as [H0 _]. rewrite (H0 eq_refl) in *.
  constructor; [done|]. apply IH; [by injection Hlen|intros k; apply (Hpos (S k))|].
  intros k w ev' x' Hw Hev Hx'. destruct (Hex (S k) w ev' x' Hw Hev Hx') as [_ HS]. split.
  - intros ->. by apply (HS 0%nat).
  - intros j u -> Hu. by apply (HS (S j)).
Qed.

(** Every linearization of the data has its number. *)
Lemma numbered textWidth data ly p h d lin :
  compute_layout textWidth data = Ok ly →
  ly_partitions ly !! p = Some h → data !! p = Some d → lin ∈ pv_PartialLinearizations d →
  ∃ index ln, ly_lins ly !! index = Some ln ∧ globalize h lin = Ok ln.
Proof.
  intros Hly Hh Hd Hlin. unfold compute_layout in Hly. apply bind_Ok in Hly as (lns & Hlns & Hrest).
  apply bind_Ok in Hrest as ([xp pts] & _ & Hrest). injection Hrest as <-. cbn [ly_partitions ly_lins] in *.
  unfold allLinearizations in Hlns. apply bind_Ok in Hlns as (lss & Hm & [= <-]). apply mapM_Ok_inv in Hm.
  destruct (Forall2_lookup_l _ _ _ p (h, pv_PartialLinearizations d) Hm) as (ls & Hls & Hg).
  { apply lookup_zip_with_Some. eexists _, _. split_and!; [done|done|]. by rewrite list_lookup_fmap, Hd. }
  apply mapM_Ok_inv in Hg. apply list_elem_of_lookup in Hlin as [k Hk].
  destruct (Forall2_lookup_l _ _ _ _ _ Hg Hk) as (ln & Hln & Hgl).
  assert (ln ∈ concat lss) as [index Hi]%list_elem_of_lookup; [|by exists index, ln].
  apply elem_of_concat. exists ls. split; by eapply list_elem_of_lookup_2.
Qed.
Section Readable.
Context (textWidth : string → Z) (ly : layout).
Context (Hfits : fits textWidth (concat (ly_partitions ly)) (ly_lins ly) (ly_stamps ly) (ly_xPos ly) (ly_points ly)).
Context (Hgids : ∀ g ev, concat (ly_partitions ly) !! g = Some ev → ev_Gid ev = g).
Local Abbreviation xPos := (ly_xPos ly).

Lemma event_gid h ev : h ∈ ly_partitions ly → ev ∈ h → concat (ly_partitions ly) !! ev_Gid ev = Some ev.
Proof.
  intros Hh Hev. assert (ev ∈ concat (ly_partitions ly)) as [g Hg]%list_elem_of_lookup by (apply elem_of_concat; eauto).
  by rewrite (Hgids _ _ Hg).
Qed.

(** A stroke between the ends of its box crosses it. *)
Lemma stroke_crosses ev sk x x' v :
  pos_of xPos (ev_Start ev) = Some x → pos_of xPos (ev_End ev) = Some x' → x ≤ v ≤ x' →
  stroke_at ev v sk → crosses sk (history_rect xPos ev).
Proof.
  intros Hx Hx' Hv [H1 H2 H3 H4 _]. exists (x + (XOFF + PADDING)), (x' - x), (v + (PADDING + XOFF)).
  cbn. rewrite Hx, Hx'. split_and!; try done; unfold XOFF, PADDING; lia.
Qed.

Definition in_box (ev : event) (v : Z) : Prop := ∃ x x',
  pos_of xPos (ev_Start ev) = Some x ∧ pos_of xPos (ev_End ev) = Some x' ∧ x ≤ v ≤ x'.

(** What the scan found for a linearization, and beside it. *)
Lemma linearization_values index ln h lin :
  h ∈ ly_partitions ly → ly_lins ly !! index = Some ln → globalize h lin = Ok ln →
  ∃ evs vs, mapM (λ id, go_index h (ls_Index id)) lin = Ok evs ∧ chain xPos None evs vs ∧
    Forall2 in_box evs vs ∧
    ∀ u i el, last vs = Some u → (i, el) ∈ illegal_next h lin →
      ∃ x, pos_of xPos (ev_Start el) = Some x ∧ in_box el (after (Some u) x).
Proof.
  intros Hh Hln Hg. unfold globalize in Hg. apply bind_Ok in Hg as (evs & Hevs & [= <-]).
  destruct (ft_lin _ _ _ _ _ _ Hfits _ _ Hln) as (vs & _ & Hlen & _ & Hex & Hin & Hill). cbn [ln_events ln_illegal] in *.
  rewrite length_fmap in Hlen. exists evs, vs.
  assert (∀ k ev, evs !! k = Some ev → ((ev_Gid <$> evs) !! k = Some (ev_Gid ev)) ∧
    concat (ly_partitions ly) !! ev_Gid ev = Some ev) as Hgid.
  { intros k ev Hk. split; [by rewrite list_lookup_fmap, Hk|]. apply (event_gid h); [done|].
    destruct (Forall2_lookup_r _ _ _ _ _ (mapM_Ok_inv _ _ _ Hevs) Hk) as (id & _ & [_ Hi]%go_index_Ok).
    by eapply list_elem_of_lookup_2. }
  assert (Forall2 in_box evs vs) as Hbox.
  { apply Forall2_same_length_lookup. split; [done|]. intros k ev v Hk Hv. destruct (Hgid _ _ Hk). by eapply Hin. }
  split_and!; [done| |done|].
  - apply exact_chain; [done| |].
    + intros k ev Hk. destruct (Forall2_lookup_l _ _ _ _ _ Hbox Hk) as (v & _ & x & _ & Hx & _). by exists x.
    + intros k v ev x Hv Hk Hx. destruct (Hgid _ _ Hk). by eapply Hex.
  - intros u i el Hu Hi. destruct (elem_of_illegal_next _ _ _ _ Hi) as [Hel%list_elem_of_lookup_2 _].
    pose proof (event_gid _ _ Hh Hel) as Hge.
    destruct (ft_text _ _ _ _ _ _ Hfits el) as (x & x' & Hx & Hx' & Hxx & _); [by eapply list_elem_of_lookup_2|].
    destruct (Hill u (ev_Gid el) el Hu) as (x'' & Hx'' & Hle); [|done|].
    { apply list_elem_of_fmap. exists el. split; [done|]. apply list_elem_of_fmap. by exists (i, el). }
    exists x. split; [done|]. exists x, x'. unfold BOX_GAP in Hxx. assert (x'' = x') as -> by congruence. cbn.
    split_and!; [done|done|lia..].
Qed.

Lemma in_box_crosses ev sk v : in_box ev v → stroke_at ev v sk → crosses sk (history_rect xPos ev).
Proof. intros (x & x' & Hx & Hx' & Hv) Hsk. by eapply stroke_crosses. Qed.

Lemma valid_strokes h lin evs vs strokes :
  Forall2 (λ id ev, go_index h (ls_Index id) = Ok ev) lin evs → Forall2 in_box evs vs →
  Forall2 (λ '(el, v) sk, stroke_at el v sk) (zip evs vs) strokes →
  Forall2 (λ id sk, ∃ el, h !! Z.to_nat (ls_Index id) = Some el ∧ crosses sk (history_rect xPos el)) lin strokes ∧
  Forall to_the_right strokes.
Proof.
  intros Hidx. revert vs strokes. induction Hidx as [|id ev lin evs [_ Hi]%go_index_Ok Hidx IH]; intros vs strokes Hbox Hall.
  { by inversion Hall. }
  apply Forall2_cons_inv_l in Hbox as (v & vs' & Hv & Hbox & ->). cbn in Hall.
  apply Forall2_cons_inv_l in Hall as (sk & strokes' & Hsk & Hall & ->). destruct (IH _ _ Hbox Hall) as [Hc Hr].
  split; constructor; [|done|apply Hsk|done]. exists ev. split; [done|]. by eapply in_box_crosses.
Qed.

Lemma draw_linearization_readable index ln h lin :
  h ∈ ly_partitions ly → ly_lins ly !! index = Some ln → globalize h lin = Ok ln → lin ≠ [] →
  ∃ d, draw_linearization xPos h lin = Ok d ∧ readable xPos h lin d.
Proof.
  intros Hh Hln Hg Hne. destruct (linearization_values _ _ _ _ Hh Hln Hg) as (evs & vs & Hevs & Hchain & Hbox & Hnext).
  pose proof (mapM_Ok_inv _ _ _ Hevs) as Hidx.
  destruct (draw_lin_at xPos h lin evs None None vs Hevs Hchain eq_refl) as (strokes & prev & Hd & Hall & Hpen).
  destruct (last vs) as [u|] eqn:Hlast.
  2:{ apply last_None in Hlast. subst vs. apply Forall2_nil_inv_r in Hbox. subst evs. by apply Forall2_nil_inv_r in Hidx. }
  cbn in Hpen. destruct prev as [p|]; [|done]. set (sk el := (draw_point xPos (Some p) true el).1).
  assert (∀ i el, (i, el) ∈ illegal_next h lin → crosses (sk el) (history_rect xPos el) ∧ to_the_right (sk el)) as Hsk.
  { intros i el Hi. destruct (Hnext _ _ _ eq_refl Hi) as (x & Hx & Hin).
    destruct (draw_point_at xPos (Some p) (Some u) true el x Hpen Hx) as [Hat _].
    split; [by eapply in_box_crosses|apply Hat]. }
  exists {| dr_strokes := strokes; dr_illegal := (λ '(i, el), (i, sk el)) <$> illegal_next h lin |}. split.
  { unfold draw_linearization. rewrite Hd. cbn [mbind outcome_bind].
    rewrite (mapM_Ok _ _ ((λ '(i, el), (i, sk el)) <$> illegal_next h lin)); [done|].
    apply Forall2_fmap_r, Forall_Forall2_diag, Forall_true. by intros [i el]. }
  destruct (valid_strokes _ _ _ _ _ Hidx Hbox Hall) as [Hvalid Hright].
  constructor; cbn [dr_strokes dr_illegal]; [done| |].
  - apply Forall2_fmap_r, Forall_Forall2_diag, Forall_forall. intros [i el] Hi. split; [done|]. by apply (Hsk i).
  - apply Forall_app. split; [done|]. apply Forall_fmap, Forall_fmap, Forall_forall. intros [i el] Hi. by apply (Hsk i).
Qed.

End Readable.

Lemma Forall2_exists {A B} (R : A → B → Prop) l : (∀ x, x ∈ l → ∃ y, R x y) → ∃ k, Forall2 R l k.
Proof.
  induction l as [|x l IH]; intros HR; [by exists []|]. destruct (HR x) as [y Hy]; [set_solver|].
  destruct IH as [k Hk]; [set_solver|]. exists (y :: k). by constructor.
Qed.

(** The pictures of the data. *)
Lemma data_readable (textWidth : string → Z) (data : list partitionVisualizationData) ly :
  page_ok data → compute_layout textWidth data = Ok ly →
  fits textWidth (concat (ly_partitions ly)) (ly_lins ly) (ly_stamps ly) (ly_xPos ly) (ly_points ly) →
  (∀ g ev, concat (ly_partitions ly) !! g = Some ev → ev_Gid ev = g) →
  ∃ layers, draw_layers ly data = Ok layers ∧
    Forall2 (λ '(h, d) ls, Forall2 (readable (ly_xPos ly) h) (pv_PartialLinearizations d) ls)
      (zip (ly_partitions ly) data) layers.
Proof.
  intros Hpage Hly Hfits Hgid.
  assert (∀ h d, (h, d) ∈ zip (ly_partitions ly) data → ∃ ls,
    Forall2 (λ lin dr, draw_linearization (ly_xPos ly) h lin = Ok dr ∧ readable (ly_xPos ly) h lin dr)
      (pv_PartialLinearizations d) ls) as Hone.
  { intros h d [p Hp]%list_elem_of_lookup. apply lookup_zip_with_Some in Hp as (? & ? & [= <- <-] & Hh & Hd).
    apply Forall2_exists. intros lin Hlin. destruct (numbered _ _ _ _ _ _ _ Hly Hh Hd Hlin) as (index & ln & Hln & Hg).
    eapply draw_linearization_readable; [done..|by eapply list_elem_of_lookup_2|done|done|].
    intros ->. eapply lk_some; [eapply (pg_lins _ Hpage d []); [by eapply list_elem_of_lookup_2|done]|done]. }
  destruct (Forall2_exists (λ '(h, d) ls, Forall2 (λ lin dr, draw_linearization (ly_xPos ly) h lin = Ok dr ∧
    readable (ly_xPos ly) h lin dr) (pv_PartialLinearizations d) ls) (zip (ly_partitions ly) data)) as (layers & Hall).
  { intros [h d] Hin. by apply Hone. }
  exists layers. split.
  - apply mapM_Ok. eapply Forall2_impl; [exact Hall|]. intros [h d] ls Hls. apply mapM_Ok.
    eapply Forall2_impl; [exact Hls|]. by intros lin dr [? _].
  - eapply Forall2_impl; [exact Hall|]. intros [h d] ls Hls. eapply Forall2_impl; [exact Hls|]. by intros lin dr [_ ?].
Qed.

(** *** From the checker to the page *)
Section Page.
Context {State Input Output : Type} `{EqDecision State} `{GoSort} (model : Model State Input Output).
Context (DescribeOperation : Input → Output → string) (DescribeState : State → string).
Local Abbreviation Operation := (Operation Input Output).

(** [ev] is the event of the operation [o]; its rectangle holds its text. *)
Definition boxed (textWidth : string → Z) (xPos : gmap Z num) (o : Operation) (ev : event) : Prop :=
  ev_Start ev = 2 * op_Call o ∧ ev_OriginalEnd ev = 2 * op_Return o ∧ ev_ClientId ev = op_ClientId o ∧
  ev_Description ev = DescribeOperation (op_Input o) (op_Output o) ∧
  ∃ x w, rc_x (history_rect xPos ev) = Some x ∧ rc_width (history_rect xPos ev) = Some w ∧
    textWidth (ev_Description ev) + 2 * BOX_TEXT_PADDING ≤ w.

Lemma checked_drawing (textWidth : string → Z) (parts : list (list Operation)) longest :
  drawable parts →
  Forall2 (λ ops l, ∃ killed fuel b, checkSingle model (makeEntries ops) true killed fuel = Ok (Some (b, l)))
    parts longest →
  ∃ data ly layers,
    computeVisualizationData model DescribeOperation DescribeState
      (make_info (makeEntries <$> parts) longest) = Ok data ∧
    Forall2 (λ '(ops, l) d, depicts model DescribeOperation DescribeState ops (partials l) d)
      (zip parts longest) data ∧
    page_ok data ∧ compute_layout textWidth data = Ok ly ∧ draw_layers ly data = Ok layers ∧
    Forall2 (boxed textWidth (ly_xPos ly)) (concat parts) (concat (ly_partitions ly)) ∧
    Forall2 (λ '(h, d) ls, Forall2 (readable (ly_xPos ly) h) (pv_PartialLinearizations d) ls)
      (zip (ly_partitions ly) data) layers.
Proof.
  intros Htime Hl.
  destruct (checked_page_ok model DescribeOperation DescribeState parts longest Htime Hl) as (data & Hdata & Hdep & Hpage).
  destruct (layout_fits textWidth data Hpage) as (ly & Hly & Hevs & Hgid & Hfits).
  destruct (data_readable textWidth data ly Hpage Hly Hfits Hgid) as (layers & Hdraw & Hread).
  exists data, ly, layers. split_and!; [done..| |done].
  rewrite (depicted_history _ _ _ _ _ _ (Forall2_length _ _ _ Hl) Hdep), Forall2_fmap_l in Hevs.
  apply Forall2_same_length_lookup. split; [by eapply Forall2_length|]. intros k o ev Ho Hev.
  destruct (Forall2_lookup_lr _ _ _ _ _ _ Hevs Ho Hev) as (Hs & He & Hc & Hd). repeat split; [done..|].
  destruct (ft_text _ _ _ _ _ _ Hfits ev) as (x & x' & Hx & Hx' & _ & Hw); [by eapply list_elem_of_lookup_2|].
  unfold history_rect. cbn. rewrite Hx, Hx'. eexists _, _. split_and!; [done..|]. lia.
Qed.

(** C21. The page of a checked history can be read: if no operation returns before
    it is called and none starts at the time at which the last one returns
    ([drawable]; otherwise [instant_breaks]), then whatever the searches of the partitions left when they
    ended or were killed, the data is computed and right, the scan of the
    layout finds positions, and the drawing has a box for every operation, wide
    enough for its text, and a stroke for every step of every partial
    linearization that crosses the box of its operation, as do the strokes of
    the operations that are illegal next; every link between strokes goes to
    the right by at least [EPSILON]. *)
Theorem page_readable (textWidth : string → Z) (parts : list (list Operation)) longest :
  drawable parts →
  Forall2 (λ ops l, ∃ killed fuel b, checkSingle model (makeEntries ops) true killed fuel = Ok (Some (b, l)))
    parts longest →
  ∃ data ly layers,
    computeVisualizationData model DescribeOperation DescribeState
      (make_info (makeEntries <$> parts) longest) = Ok data ∧
    Forall2 (λ '(ops, l) d, depicts model DescribeOperation DescribeState ops (partials l) d)
      (zip parts longest) data ∧
    compute_layout textWidth data = Ok ly ∧ draw_layers ly data = Ok layers ∧
    Forall2 (boxed textWidth (ly_xPos ly)) (concat parts) (concat (ly_partitions ly)) ∧
    Forall2 (λ '(h, d) ls, Forall2 (readable (ly_xPos ly) h) (pv_PartialLinearizations d) ls)
      (zip (ly_partitions ly) data) layers.
Proof.
  intros Htime Hl. destruct (checked_drawing textWidth parts longest Htime Hl)
    as (data & ly & layers & ? & ? & _ & ? & ? & ? & ?). exists data, ly, layers. done.
Qed.
End Page.
(** ** Two appends that both answer that the value was empty, then a get *)
Section Example.
Local Instance drawing_sort : GoSort := insertion_GoSort.

(** Six pixels for a character *)
Definition sixPixels (text : string) : Z := 6 * Z.of_nat (String.length text).

Definition points_of (ls : list drawn) : list (list num * list (nat * num)) :=
  (λ d, ((λ sk, ln_x1 (sk_point sk)) <$> dr_strokes d, prod_map id (λ sk, ln_x1 (sk_point sk)) <$> dr_illegal d)) <$> ls.

(** The rectangles and the points of what is drawn. *)
Definition picture (data : outcome (list partitionVisualizationData))
    : outcome (list (list rect) * list (list (list num * list (nat * num)))) :=
  data ← data; ly ← compute_layout sixPixels data; layers ← draw_layers ly data;
  Ok ((λ h : list event, history_rect (ly_xPos ly) <$> h) <$> ly_partitions ly, (λ ls : list drawn, points_of ls) <$> (layers : list (list drawn))).

Lemma page_readable_witness :
  picture (computeVisualizationData KvModel DescribeOperation_kv id
    (make_info (makeEntries <$> [bad_history]) [bad_longest])) =
  Ok ([[{| rc_x := Some 30; rc_y := 55; rc_width := Some 114 |};
        {| rc_x := Some 50; rc_y := 100; rc_width := Some 74 |};
        {| rc_x := Some 164; rc_y := 55; rc_width := Some 116 |}]],
      [[([Some 50], [(0%nat, Some 70)]); ([Some 30], [(1%nat, Some 50)])]]) ∧
  ∃ data ly layers,
    computeVisualizationData KvModel DescribeOperation_kv id
      (make_info (makeEntries <$> [bad_history]) [bad_longest]) = Ok data ∧
    Forall2 (λ '(ops, l) d, depicts KvModel DescribeOperation_kv id ops (partials l) d)
      (zip [bad_history] [bad_longest]) data ∧
    compute_layout sixPixels data = Ok ly ∧ draw_layers ly data = Ok layers ∧
    Forall2 (boxed DescribeOperation_kv sixPixels (ly_xPos ly)) (concat [bad_history]) (concat (ly_partitions ly)) ∧
    Forall2 (λ '(h, d) ls, Forall2 (readable (ly_xPos ly) h) (pv_PartialLinearizations d) ls)
      (zip (ly_partitions ly) data) layers.
Proof.
  split; [vm_compute; reflexivity|].
  apply (page_readable KvModel DescribeOperation_kv id sixPixels [bad_history] [bad_longest]).
  - apply takes_time_drawable. repeat constructor.
  - constructor; [|constructor]. exists (λ _, false), 60%nat, false. vm_compute. reflexivity.
Defined.

(** Not drawable: a put and, when it returns, a get that takes no time: nothing is after it,
    so its end is not moved, and it has no position where it should start. *)
Definition instant_history : list KvOperation :=
  [kv_op 1 0 "x" "a" 0 "" 5; kv_op 0 1 "x" "" 5 "a" 5].

Lemma instant_breaks : ∃ b longest,
  checkSingle KvModel (makeEntries instant_history) true (λ _, false) 60 = Ok (Some (b, longest)) ∧
  picture (computeVisualizationData KvModel DescribeOperation_kv id
    (make_info [makeEntries instant_history] [longest])) =
  Ok ([[{| rc_x := Some 30; rc_y := 55; rc_width := None |}; {| rc_x := None; rc_y := 10; rc_width := None |}]],
      [[([Some 30; None], [])]]).
Proof. eexists _, _. split; vm_compute; reflexivity. Qed.
End Example.
