(* ===== verification/PageUI.v ===== *)
(** * porcupine: the page of a visualization reacts (the script in
    src/src/porcupine/visualization.go)

    The state that the handlers of [render] share, and the handlers: pointing
    at an operation shows the linearization that matters for it and a tooltip,
    a click keeps it.  A layer is hidden or not, a rectangle is marked as
    selected or not; an operation is named by the numbers of its partition and
    of its place in the history, as in the attributes of its target.
    The specification is a [view], what is selected, shown and told of, with an
    abstract reaction to each event ([react]).  [page_consistent]: for the data
    of a checked history no sequence of events runs into an error, and the page
    represents the view after it: its marks, hidden layers, link and tooltip.

    Scrolling and the place of the tooltip are not modelled. *)
From stdpp Require Import pretty.
From S2P Require Import Prelude GoLib Bitset PorcModel PorcList Checker CheckerSearch CheckerCorrect PartialOrder KvModel KVHistory Visualization Layout ScanFits LayoutFits Drawing.
Local Open Scope Z_scope.

(** ** What the drawing notes for the handlers *)
Record error_point := { er_x : num; er_partition : nat; er_index : Z; er_layer : nat }.

(** The errors of the [linIndex]-th linearization of a partition, each with the
    last operation of the linearization. *)
Definition lin_errors (partition linIndex : nat) (lin : partialLinearization) (d : drawn) : list error_point :=
  match last lin with
  | Some id => (λ '(_, sk), {| er_x := ln_x1 (sk_point sk); er_partition := partition;
                              er_index := ls_Index id; er_layer := linIndex |}) <$> dr_illegal d
  | None => []
  end.

Definition partition_errors (partition : nat) (lins : list partialLinearization) (ds : list drawn) : list error_point :=
  concat (imap (λ linIndex '(lin, d), lin_errors partition linIndex lin d) (zip lins ds)).

(** [errorPoints], sorted; a comparison with [NaN] finds no order. *)
Definition further_left (a b : error_point) : bool :=
  match er_x a, er_x b with Some x, Some y => bool_decide (x < y) | _, _ => false end.

Definition errorPoints (data : list partitionVisualizationData) (layers : list (list drawn)) : list error_point :=
  insertion_sort further_left
    (concat (imap (λ partition '(d, ds), partition_errors partition (pv_PartialLinearizations d) ds) (zip data layers))).

(** [largestIllegal] and [largestIllegalLength] of a partition *)
Record marks := { mk_largest : gmap nat Z; mk_length : gmap nat nat }.

Definition note_illegal (linIndex len : nat) (m : marks) (index : nat) : marks :=
  if from_option (λ len', bool_decide (len' < len)%nat) true (mk_length m !! index)
  then {| mk_largest := <[index := Z.of_nat linIndex]> (mk_largest m); mk_length := <[index := len]> (mk_length m) |}
  else m.

Fixpoint note_lins (linIndex : nat) (lins : list partialLinearization) (ds : list drawn) (m : marks) : marks :=
  match lins, ds with
  | lin :: lins, d :: ds => note_lins (S linIndex) lins ds (foldl (note_illegal linIndex (length lin)) m (dr_illegal d).*1)
  | _, _ => m
  end.

Definition largestIllegal (lins : list partialLinearization) (ds : list drawn) : gmap nat Z :=
  mk_largest (note_lins 0 lins ds {| mk_largest := ∅; mk_length := ∅ |}).

(** ** The state *)
Record page := {
  selected : bool;
  selectedIndex : option (nat * nat);
  historyHidden : list bool;
  partialHidden : list (list bool);
  rectSelected : list (list bool);
  opacity : bool;
  innerHTML : string;
  lastTooltip : option (nat * nat * bool * option (nat * nat));
  jumpInactive : bool;
  jumpTo : option error_point;
}.

Section Handlers.
Context (data : list partitionVisualizationData) (layers : list (list drawn)).

(** Nothing hidden, nothing marked: the page before its first handler. *)
Definition drawn_page : page := {|
  selected := false; selectedIndex := None;
  historyHidden := (λ _, false) <$> data;
  partialHidden := (λ d, (λ _, false) <$> pv_PartialLinearizations d) <$> data;
  rectSelected := (λ d, (λ _, false) <$> pv_History d) <$> data;
  opacity := false; innerHTML := ""; lastTooltip := None; jumpInactive := false; jumpTo := None |}.

Definition js_set {A} (l : list A) (i : nat) (x : A) : outcome (list A) :=
  if decide (i < length l)%nat then Ok (<[i := x]> l) else Panic.

Definition set_flag (m : list (list bool)) (p i : nat) (b : bool) : outcome (list (list bool)) :=
  row ← js_index m p; row ← js_set row i b; Ok (<[p := row]> m).

Definition linearizationIndex (p i : nat) : outcome (option Z) :=
  d ← js_index data p;
  match pv_Largest d !! Z.of_nat i with
  | Some j => Ok (Some j)
  | None => ds ← js_index layers p; Ok (largestIllegal (pv_PartialLinearizations d) ds !! i)
  end.

(** The first error that is not hidden. *)
Definition visible (hidden : list (list bool)) (pt : error_point) : bool :=
  bool_decide ((hidden !! er_partition pt ≫= lookup (er_layer pt)) = Some false).
Definition first_visible (hidden : list (list bool)) : option error_point :=
  head (filter (λ pt, visible hidden pt) (errorPoints data layers)).

Definition updateJump (u : page) : page :=
  let point := first_visible (partialHidden u) in
  {| selected := selected u; selectedIndex := selectedIndex u; historyHidden := historyHidden u;
     partialHidden := partialHidden u; rectSelected := rectSelected u; opacity := opacity u;
     innerHTML := innerHTML u; lastTooltip := lastTooltip u;
     jumpInactive := bool_decide (point = None); jumpTo := match point with Some pt => Some pt | None => jumpTo u end |}.

Definition with_layers (hh : list bool) (ph : list (list bool)) (u : page) : page :=
  {| selected := selected u; selectedIndex := selectedIndex u; historyHidden := hh;
     partialHidden := ph; rectSelected := rectSelected u; opacity := opacity u;
     innerHTML := innerHTML u; lastTooltip := lastTooltip u; jumpInactive := jumpInactive u; jumpTo := jumpTo u |}.

Definition with_selection (s : bool) (si : option (nat * nat)) (rects : list (list bool)) (u : page) : page :=
  {| selected := s; selectedIndex := si; historyHidden := historyHidden u;
     partialHidden := partialHidden u; rectSelected := rects; opacity := opacity u;
     innerHTML := innerHTML u; lastTooltip := lastTooltip u; jumpInactive := jumpInactive u; jumpTo := jumpTo u |}.

Definition with_tooltip (o : bool) (text : string) (last : option (nat * nat * bool * option (nat * nat))) (u : page) : page :=
  {| selected := selected u; selectedIndex := selectedIndex u; historyHidden := historyHidden u;
     partialHidden := partialHidden u; rectSelected := rectSelected u; opacity := o;
     innerHTML := text; lastTooltip := last; jumpInactive := jumpInactive u; jumpTo := jumpTo u |}.

Definition highlight (p i : nat) (u : page) : outcome page :=
  let hh := imap (λ k _, bool_decide (k ≠ p)) (historyHidden u) in
  let ph := (λ row : list bool, (λ _, true) <$> row) <$> partialHidden u in
  maxIndex ← linearizationIndex p i;
  ph ← match maxIndex with
       | Some j => row ← js_index ph p; row ← go_set row j false; Ok (<[p := row]> ph)
       | None => Ok ph
       end;
  Ok (updateJump (with_layers hh ph u)).

Definition resetHighlight (u : page) : page :=
  updateJump (with_layers ((λ _, false) <$> historyHidden u)
    ((λ row : list bool, imap (λ j _, bool_decide (j ≠ 0%nat)) row) <$> partialHidden u) u).

(** Selecting marks the rectangle last, and deselecting unmarks it last. *)
Definition select (p i : nat) (u : page) : outcome page :=
  u ← highlight p i (with_selection true (Some (p, i)) (rectSelected u) u);
  rects ← set_flag (rectSelected u) p i true;
  Ok (with_selection (selected u) (selectedIndex u) rects u).

Definition unmark (u : page) : outcome page :=
  match selectedIndex u with
  | Some (sp, si) =>
      rects ← set_flag (rectSelected u) sp si false;
      Ok (with_selection (selected u) (selectedIndex u) rects u)
  | None => Panic
  end.

Definition deselect (u : page) : outcome page :=
  if selected u then unmark (resetHighlight (with_selection false (selectedIndex u) (rectSelected u) u)) else Ok u.

(** *** The handlers *)
Definition handleMouseOver (p i : nat) (u : page) : outcome page :=
  u ← if selected u then Ok u else highlight p i u;
  Ok (with_tooltip true (innerHTML u) (lastTooltip u) u).

Definition handleMouseOut (u : page) : page :=
  let u := if selected u then u else resetHighlight u in
  with_tooltip false (innerHTML u) None u.

Definition handleClick (p i : nat) (u : page) : outcome page :=
  if selected u then
    if decide (selectedIndex u = Some (p, i)) then deselect u
    else u ← unmark u; select p i u
  else select p i u.

(** The link is not displayed when it is inactive. *)
Definition handleJump (u : page) : outcome page :=
  match jumpInactive u, jumpTo u with
  | false, Some pt => if selected u then Ok u else select (er_partition pt) (Z.to_nat (er_index pt)) u
  | _, _ => Ok u
  end.

(** *** The tooltip *)
Fixpoint find_step (index : Z) (prev : option linearizationStep) (lin : partialLinearization)
    : option (option linearizationStep * linearizationStep) :=
  match lin with
  | [] => None
  | curr :: lin => if decide (ls_Index curr = index) then Some (prev, curr) else find_step index (Some curr) lin
  end.

Definition call_and_return (el : historyElement) : string :=
  "<br><br>Call: " +:+ pretty (he_Start el) +:+ "<br><br>Return: " +:+ pretty (he_End el).

(** The message for an operation of the linearization, and for one that is
    illegal after it. *)
Definition step_text (prev : option linearizationStep) (curr : linearizationStep) (el : historyElement) : string :=
  match prev with
  | Some s => "<strong>Previous state:</strong><br>" +:+ ls_StateDescription s +:+ "<br><br>"
  | None => ""
  end +:+ "<strong>New state:</strong><br>" +:+ ls_StateDescription curr +:+ call_and_return el.

Definition illegal_text (s : linearizationStep) (el : historyElement) : string :=
  "<strong>Previous state:</strong><br>" +:+ ls_StateDescription s +:+
  "<br><br><strong>New state:</strong><br>&langle;invalid op&rangle;" +:+ call_and_return el.

Definition lin_message (p i : nat) (j : Z) : outcome string :=
  d ← js_index data p;
  lin ← go_index (pv_PartialLinearizations d) j;
  el ← js_index (pv_History d) i;
  match find_step (Z.of_nat i) None lin with
  | Some (prev, curr) => Ok (step_text prev curr el)
  | None =>
      ds ← js_index layers p; dr ← go_index ds j;
      if decide (i ∈ (dr_illegal dr).*1) then s ← from_option Ok Panic (last lin); Ok (illegal_text s el)
      else Ok "Not part of selected element's partial linearization."
  end.

Definition tooltip_message (p i : nat) (u : page) : outcome string :=
  maxIndex ← match selected u, selectedIndex u with
             | false, _ => linearizationIndex p i
             | true, Some (sp, si) => linearizationIndex sp si
             | true, None => Panic
             end;
  if selected u && bool_decide (fst <$> selectedIndex u ≠ Some p) then Ok "Not part of selected partition."
  else match maxIndex with
       | None => Ok (if selected u then "Selected element is not part of any partial linearization."
                     else "Not part of any partial linearization.")
       | Some j => lin_message p i j
       end.

Definition handleMouseMove (p i : nat) (u : page) : outcome page :=
  let thisTooltip := Some (p, i, selected u, selectedIndex u) in
  if decide (lastTooltip u = thisTooltip) then Ok u
  else text ← tooltip_message p i u; Ok (with_tooltip (opacity u) text thisTooltip u).

(** ** Events *)
Inductive ui_event :=
  | MouseOver (p i : nat) | MouseMove (p i : nat) | MouseOut | Click (p i : nat) | BgClick | JumpClick.

Definition handle (e : ui_event) (u : page) : outcome page :=
  match e with
  | MouseOver p i => handleMouseOver p i u
  | MouseMove p i => handleMouseMove p i u
  | MouseOut => Ok (handleMouseOut u)
  | Click p i => handleClick p i u
  | BgClick => deselect u
  | JumpClick => handleJump u
  end.

(** The page is initialized as when the mouse leaves. *)
Definition first_page : page := handleMouseOut drawn_page.

Fixpoint handle_all (es : list ui_event) (u : page) : outcome page :=
  match es with [] => Ok u | e :: es => u ← handle e u; handle_all es u end.
End Handlers.

(** ** The illegal marks *)
Definition illegal_in (ds : list drawn) (i : nat) (k : nat) : Prop := ∃ d, ds !! k = Some d ∧ i ∈ (dr_illegal d).*1.

(** What [note_lins] has noted for the operation [i] after [n] of the
    linearizations: the first longest after which it is illegal. *)
Definition noted (lins : list partialLinearization) (ds : list drawn) (n : nat) (m : marks) : Prop := ∀ i,
  match mk_largest m !! i with
  | Some j => ∃ k lin, j = Z.of_nat k ∧ (k < n)%nat ∧ illegal_in ds i k ∧ lins !! k = Some lin ∧
      mk_length m !! i = Some (length lin) ∧
      ∀ k' lin', (k' < n)%nat → illegal_in ds i k' → lins !! k' = Some lin' → (length lin' ≤ length lin)%nat
  | None => mk_length m !! i = None ∧ ∀ k, (k < n)%nat → ¬ illegal_in ds i k
  end.

Lemma note_illegal_fold n len ks : ∀ m i,
  let m' := foldl (note_illegal n len) m ks in
  if decide (i ∈ ks ∧ from_option (λ len', bool_decide (len' < len)%nat) true (mk_length m !! i) = true)
  then mk_largest m' !! i = Some (Z.of_nat n) ∧ mk_length m' !! i = Some len
  else mk_largest m' !! i = mk_largest m !! i ∧ mk_length m' !! i = mk_length m !! i.
Proof.
  induction ks as [|i0 ks IH]; intros m i; cbn; [rewrite decide_False; [done|set_solver]|].
  remember (note_illegal n len m i0) as m1 eqn:Hm1. specialize (IH m1 i). cbn zeta in IH. unfold note_illegal in Hm1.
  destruct (from_option (λ len', bool_decide (len' < len)%nat) true (mk_length m !! i0)) eqn:Hnew; subst m1; cbn [mk_length mk_largest] in IH.
  - destruct (decide (i0 = i)) as [->|Hne].
    + rewrite !lookup_insert_eq in IH. rewrite decide_False in IH.
      2:{ cbn. intros [_ Hlt%bool_decide_eq_true]. lia. }
      rewrite decide_True; [done|]. by split; [left|].
    + rewrite !lookup_insert_ne in IH by done.
      rewrite (decide_ext _ (i ∈ ks ∧ from_option (λ len', bool_decide (len' < len)%nat) true (mk_length m !! i) = true));
        [exact IH|set_solver].
  - rewrite (decide_ext _ (i ∈ ks ∧ from_option (λ len', bool_decide (len' < len)%nat) true (mk_length m !! i) = true));
      [exact IH|]. split; intros [Hi Ht]; (split; [|done]); [|by right]. apply elem_of_cons in Hi as [->|?]; [congruence|done].
Qed.

Lemma illegal_lt ds i k d n : (k < S n)%nat → illegal_in ds i k → ds !! n = Some d →
  (k < n)%nat ∨ k = n ∧ i ∈ (dr_illegal d).*1.
Proof.
  intros Hk (d' & Hd' & Hi) Hd. destruct (decide (k = n)) as [->|]; [right|left; lia].
  split; [done|]. congruence.
Qed.

Lemma noted_step lins ds n m lin d :
  noted lins ds n m → lins !! n = Some lin → ds !! n = Some d →
  noted lins ds (S n) (foldl (note_illegal n (length lin)) m (dr_illegal d).*1).
Proof.
  intros Hm Hlin Hd i. pose proof (note_illegal_fold n (length lin) (dr_illegal d).*1 m i) as Hf.
  cbn in Hf. specialize (Hm i). case_decide as Hnew; destruct Hf as [-> Hlen].
  - destruct Hnew as [Hi Hlt]. exists n, lin. split_and!; [done|lia|by exists d|done|done|].
    intros k' lin' Hk' Hill Hlin'. destruct (illegal_lt _ _ _ _ _ Hk' Hill Hd) as [Hk|[-> _]]; [|naive_solver].
    destruct (mk_largest m !! i) as [j|].
    + destruct Hm as (k & lin0 & -> & _ & _ & _ & Hl0 & Hmax). rewrite Hl0 in Hlt. cbn in Hlt. apply bool_decide_eq_true in Hlt.
      specialize (Hmax _ _ Hk Hill Hlin'). lia.
    + by destruct (proj2 Hm k').
  - rewrite Hlen. destruct (mk_largest m !! i) as [j|].
    + destruct Hm as (k & lin0 & -> & Hk & Hill & Hlin0 & Hl0 & Hmax).
      exists k, lin0. split_and!; [done|lia|done..|]. intros k' lin' Hk' Hill' Hlin'.
      destruct (illegal_lt _ _ _ _ _ Hk' Hill' Hd) as [?|[-> Hi]]; [by eapply Hmax|].
      rewrite Hl0 in Hnew. cbn in Hnew. assert (lin' = lin) as -> by congruence.
      destruct (decide (length lin0 < length lin)%nat); [|lia]. destruct Hnew. split; [done|by apply bool_decide_eq_true].
    + destruct Hm as [Hl0 Hno]. rewrite Hl0 in Hnew. cbn in Hnew. split; [done|]. intros k' Hk' Hill'.
      destruct (illegal_lt _ _ _ _ _ Hk' Hill' Hd) as [?|[-> Hi]]; [by eapply Hno|]. by destruct Hnew.
Qed.

Lemma note_lins_noted lins ds : length lins = length ds → ∀ n m, (n ≤ length lins)%nat → noted lins ds n m →
  noted lins ds (length lins) (note_lins n (drop n lins) (drop n ds) m).
Proof.
  intros Hlen n. remember (length lins - n)%nat as left eqn:Hleft. revert n Hleft.
  induction left as [|left IH]; intros n Hleft m Hn Hm.
  - rewrite !drop_ge by lia. cbn. by replace (length lins) with n by lia.
  - destruct (lookup_lt_is_Some_2 lins n) as [lin Hlin]; [lia|].
    destruct (lookup_lt_is_Some_2 ds n) as [d Hd]; [lia|].
    rewrite (drop_S lins _ _ Hlin), (drop_S ds _ _ Hd). cbn. apply IH; [lia..|]. by apply noted_step.
Qed.

Lemma largestIllegal_noted lins ds i : length lins = length ds →
  match largestIllegal lins ds !! i with
  | Some j => ∃ k lin, j = Z.of_nat k ∧ illegal_in ds i k ∧ lins !! k = Some lin ∧
      ∀ k' lin', illegal_in ds i k' → lins !! k' = Some lin' → (length lin' ≤ length lin)%nat
  | None => ∀ k, ¬ illegal_in ds i k
  end.
Proof.
  intros Hlen. unfold largestIllegal. set (m0 := {| mk_largest := ∅; mk_length := ∅ |}).
  assert (noted lins ds 0 m0) as H0 by (intros j; cbn; rewrite !lookup_empty; split; [done|lia]).
  pose proof (note_lins_noted lins ds Hlen 0 m0 ltac:(lia) H0 i) as Hn. rewrite !drop_0 in Hn.
  assert (∀ k, illegal_in ds i k → (k < length lins)%nat) as Hlt.
  { intros k (d & Hd%lookup_lt_Some & _). lia. }
  destruct (mk_largest _ !! i) as [j|].
  - destruct Hn as (k & lin & -> & _ & Hill & Hlin & _ & Hmax). exists k, lin. split_and!; eauto.
  - intros k Hk. eapply (proj2 Hn); eauto.
Qed.

(** ** The page stays consistent *)
Section Consistent.
Context (data : list partitionVisualizationData) (layers : list (list drawn)).

(** Every linearization is drawn, is in the range of its history, and
    [Largest] points to linearizations that hold the operation. *)
Record showable : Prop := {
  sh_layers : Forall2 (λ d ds, length (pv_PartialLinearizations d) = length ds) data layers;
  sh_lins d lin : d ∈ data → lin ∈ pv_PartialLinearizations d →
    lin ≠ [] ∧ ∀ i, i ∈ ls_Index <$> lin → 0 ≤ i < go_len (pv_History d);
  sh_largest d i j : d ∈ data → pv_Largest d !! i = Some j →
    ∃ lin, 0 ≤ j ∧ pv_PartialLinearizations d !! Z.to_nat j = Some lin ∧ i ∈ ls_Index <$> lin ∧
      ∀ lin', lin' ∈ pv_PartialLinearizations d → i ∈ ls_Index <$> lin' → (length lin' ≤ length lin)%nat;
  sh_none d i lin : d ∈ data → pv_Largest d !! i = None → lin ∈ pv_PartialLinearizations d → i ∉ ls_Index <$> lin;
}.
Hypothesis Hsh : showable.

Definition valid (p i : nat) : Prop := ∃ d, data !! p = Some d ∧ (i < length (pv_History d))%nat.

Definition event_ok (e : ui_event) : Prop :=
  match e with MouseOver p i | MouseMove p i | Click p i => valid p i | _ => True end.

Local Abbreviation linearizationIndex := (linearizationIndex data layers).
Local Abbreviation first_visible := (first_visible data layers).

(** *** What the page should do

    The view that a reader has: the operation selected, the operation whose
    linearization is shown or nothing in particular, whether the tooltip is visible,
    and the operation it was asked about, with the selection at that time. *)
Record view := {
  vw_selected : option (nat * nat);
  vw_shown : option (nat * nat);
  vw_tip : bool;
  vw_asked : option (nat * nat * option (nat * nat));
}.

Definition first_view : view := {| vw_selected := None; vw_shown := None; vw_tip := false; vw_asked := None |}.

(** Is the [j]-th linearization of the partition [q] displayed: the one of the
    operation shown, or else the first of every partition. *)
Definition displayed (shown : option (nat * nat)) (q j : nat) : bool :=
  match shown with
  | Some (p, i) => bool_decide (q = p ∧ linearizationIndex p i = Ok (Some (Z.of_nat j)))
  | None => bool_decide (j = 0%nat)
  end.

Definition first_error (shown : option (nat * nat)) : option error_point :=
  head (filter (λ pt, displayed shown (er_partition pt) (er_layer pt) = true) (errorPoints data layers)).

Definition choose (p i : nat) (v : view) : view :=
  {| vw_selected := Some (p, i); vw_shown := Some (p, i); vw_tip := vw_tip v; vw_asked := vw_asked v |}.

Definition release (v : view) : view :=
  {| vw_selected := None; vw_shown := None; vw_tip := vw_tip v; vw_asked := vw_asked v |}.

(** The reaction to an event. *)
Definition react (e : ui_event) (v : view) : view :=
  match e with
  | MouseOver p i =>
      {| vw_selected := vw_selected v;
         vw_shown := match vw_selected v with Some _ => vw_shown v | None => Some (p, i) end;
         vw_tip := true; vw_asked := vw_asked v |}
  | MouseMove p i =>
      {| vw_selected := vw_selected v; vw_shown := vw_shown v; vw_tip := vw_tip v;
         vw_asked := Some (p, i, vw_selected v) |}
  | MouseOut =>
      {| vw_selected := vw_selected v;
         vw_shown := match vw_selected v with Some _ => vw_shown v | None => None end;
         vw_tip := false; vw_asked := None |}
  | Click p i => if decide (vw_selected v = Some (p, i)) then release v else choose p i v
  | BgClick => match vw_selected v with Some _ => release v | None => v end
  | JumpClick =>
      match vw_selected v, first_error (vw_shown v) with
      | None, Some pt => choose (er_partition pt) (Z.to_nat (er_index pt)) v
      | _, _ => v
      end
  end.

Definition view_after (es : list ui_event) : view := foldl (λ v e, react e v) first_view es.

Definition holds (i : nat) (lin : partialLinearization) : Prop := Z.of_nat i ∈ ls_Index <$> lin.

(** The linearization that matters for an operation: a longest that holds it,
    or, when none does, a longest after which it is illegal, or none. *)
Definition relevant (p i : nat) (m : option Z) : Prop := ∃ d ds, data !! p = Some d ∧ layers !! p = Some ds ∧
  match m with
  | Some j => ∃ lin, 0 ≤ j ∧ pv_PartialLinearizations d !! Z.to_nat j = Some lin ∧
      ((holds i lin ∧ ∀ lin', lin' ∈ pv_PartialLinearizations d → holds i lin' → (length lin' ≤ length lin)%nat) ∨
       ((∀ lin', lin' ∈ pv_PartialLinearizations d → ¬ holds i lin') ∧ illegal_in ds i (Z.to_nat j) ∧
        ∀ k lin', illegal_in ds i k → pv_PartialLinearizations d !! k = Some lin' → (length lin' ≤ length lin)%nat))
  | None => (∀ lin', lin' ∈ pv_PartialLinearizations d → ¬ holds i lin') ∧ ∀ k, ¬ illegal_in ds i k
  end.

(** What a tooltip tells of the operation [i] of the partition [p] while [sel]
    is selected: that it is in another partition than [sel]; or, of the
    linearization that matters for [sel], or for the operation itself, that
    there is none, or the step of the operation in it, or that the operation is
    illegal after it, or (of the one for [sel]) that it is neither. *)
Definition says (p i : nat) (sel : option (nat * nat)) (text : string) : Prop := ∃ d ds el,
  data !! p = Some d ∧ layers !! p = Some ds ∧ pv_History d !! i = Some el ∧
  let (sp, si) := default (p, i) sel in
  if decide (sp = p) then ∃ m, linearizationIndex p si = Ok m ∧
    match m with
    | None => text = if sel is Some _ then "Selected element is not part of any partial linearization."
                     else "Not part of any partial linearization."
    | Some j => ∃ lin, pv_PartialLinearizations d !! Z.to_nat j = Some lin ∧
        ((∃ k curr, lin !! k = Some curr ∧ ls_Index curr = Z.of_nat i ∧
            text = step_text (match k with O => None | S k => lin !! k end) curr el) ∨
         (¬ holds i lin ∧ illegal_in ds i (Z.to_nat j) ∧ ∃ s, last lin = Some s ∧ text = illegal_text s el) ∨
         (¬ holds i lin ∧ ¬ illegal_in ds i (Z.to_nat j) ∧ is_Some sel ∧
            text = "Not part of selected element's partial linearization."))
    end
  else text = "Not part of selected partition.".

(** *** What the page is like *)

(** Only the partition of the operation shown is not hidden. *)
Definition hides (shown : option (nat * nat)) (q : nat) : bool :=
  match shown with Some (p, _) => bool_decide (q ≠ p) | None => false end.

Definition shows (shown : option (nat * nat)) (u : page) : Prop :=
  (∀ q b, historyHidden u !! q = Some b → b = hides shown q) ∧
  (∀ q row j b, partialHidden u !! q = Some row → row !! j = Some b → b = negb (displayed shown q j)).

Record shaped (u : page) : Prop := {
  sp_history : length (historyHidden u) = length data;
  sp_partial : Forall2 (λ d row, length row = length (pv_PartialLinearizations d)) data (partialHidden u);
  sp_rects : Forall2 (λ d row, length row = length (pv_History d)) data (rectSelected u);
}.

(** The marks of the rectangles: only [sel]. *)
Definition marked (sel : option (nat * nat)) (rects : list (list bool)) : Prop :=
  ∀ p i row b, rects !! p = Some row → row !! i = Some b → b = true ↔ sel = Some (p, i).

(** The link goes to the first error that is displayed. *)
Definition jumps (shown : option (nat * nat)) (u : page) : Prop :=
  match first_error shown with
  | Some pt => jumpInactive u = false ∧ jumpTo u = Some pt
  | None => jumpInactive u = true
  end.

(** Visibility and text of the tooltip. *)
Definition tip (u : page) := (opacity u, innerHTML u, lastTooltip u).

Definition tip_right (visible : bool) (asked : option (nat * nat * option (nat * nat)))
    (t : bool * string * option (nat * nat * bool * option (nat * nat))) : Prop :=
  t.1.1 = visible ∧
  match asked with
  | Some (p, i, sel) => (∃ si, t.2 = Some (p, i, bool_decide (is_Some sel), si) ∧ (is_Some sel → si = sel)) ∧
      says p i sel t.1.2
  | None => t.2 = None
  end.

(** The page [u] is what a reader with the view [v] should see. *)
Record represents (v : view) (u : page) : Prop := {
  rp_shaped : shaped u;
  rp_selected : selected u = bool_decide (is_Some (vw_selected v));
  rp_index p i : vw_selected v = Some (p, i) → selectedIndex u = Some (p, i) ∧ valid p i;
  rp_marked : marked (vw_selected v) (rectSelected u);
  rp_shows : shows (vw_shown v) u;
  rp_jumps : jumps (vw_shown v) u;
  rp_tip : tip_right (vw_tip v) (vw_asked v) (tip u);
}.

(** *** The operations on the page *)

(** The errors are at operations and linearizations of the page. *)
Lemma errors_valid pt : pt ∈ errorPoints data layers →
  valid (er_partition pt) (Z.to_nat (er_index pt)) ∧
  ∃ d, data !! er_partition pt = Some d ∧ (er_layer pt < length (pv_PartialLinearizations d))%nat.
Proof.
  unfold errorPoints. rewrite (insertion_sort_perm further_left), elem_of_concat.
  intros (l & Hpt & [p Hp]%list_elem_of_lookup). rewrite list_lookup_imap in Hp.
  apply fmap_Some in Hp as ([d ds] & Hp & ->). apply lookup_zip_with_Some in Hp as (? & ? & [= <- <-] & Hd & Hds).
  unfold partition_errors in Hpt. apply elem_of_concat in Hpt as (l & Hpt & [k Hk]%list_elem_of_lookup).
  rewrite list_lookup_imap in Hk. apply fmap_Some in Hk as ([lin dr] & Hk & ->).
  apply lookup_zip_with_Some in Hk as (? & ? & [= <- <-] & Hlin & Hdr). unfold lin_errors in Hpt.
  destruct (last lin) as [id|] eqn:Hlast; [|by apply not_elem_of_nil in Hpt].
  apply list_elem_of_fmap in Hpt as ([k' sk] & -> & _). cbn.
  split; [|exists d; split; [done|by eapply lookup_lt_Some]]. exists d. split; [done|].
  destruct (sh_lins Hsh d lin) as [_ Hr]; [by eapply list_elem_of_lookup_2..|].
  destruct (Hr (ls_Index id)) as [H0 Hlt]; [|unfold go_len in Hlt; lia].
  apply list_elem_of_fmap. exists id. split; [done|]. by apply last_Some_elem_of.
Qed.

Lemma filter_ext_in {A} (P Q : A → Prop) `{∀ x, Decision (P x), ∀ x, Decision (Q x)} (l : list A) :
  (∀ x, x ∈ l → P x ↔ Q x) → filter P l = filter Q l.
Proof.
  induction l as [|x l IH]; intros HPQ; [done|]. rewrite !filter_cons.
  rewrite (decide_ext (P x) (Q x)) by (apply HPQ; by left). rewrite IH; [done|]. intros y Hy. apply HPQ. by right.
Qed.

Lemma updateJump_jumps shown u : shaped u → shows shown u → jumps shown (updateJump data layers u).
Proof.
  intros Hs Hshow. unfold jumps, updateJump. cbn.
  assert (first_visible (partialHidden u) = first_error shown) as ->; [|destruct (first_error shown); [done|by rewrite bool_decide_true]].
  unfold PageUI.first_visible, first_error. f_equal. apply filter_ext_in. intros pt [_ (d & Hd & Hl)]%errors_valid.
  destruct (Forall2_lookup_l _ _ _ _ _ (sp_partial _ Hs) Hd) as (row & Hrow & Hlen).
  destruct (lookup_lt_is_Some_2 row (er_layer pt)) as [b Hb]; [lia|].
  unfold visible. rewrite Hrow. cbn. rewrite Hb, (proj2 Hshow _ _ _ _ Hrow Hb).
  destruct (displayed _ _ _); by vm_compute.
Qed.

Lemma linearizationIndex_ok p i : valid p i → ∃ m, linearizationIndex p i = Ok m ∧ relevant p i m.
Proof.
  intros (d & Hd & Hi). destruct (Forall2_lookup_l _ _ _ _ _ (sh_layers Hsh) Hd) as (ds & Hds & Hlen).
  assert (d ∈ data) as Hin by (by eapply list_elem_of_lookup_2).
  unfold PageUI.linearizationIndex, js_index. rewrite Hd, Hds. cbn.
  destruct (pv_Largest d !! Z.of_nat i) as [j|] eqn:Hj.
  { exists (Some j). split; [done|]. destruct (sh_largest Hsh d _ _ Hin Hj) as (lin & ? & ? & ? & ?).
    exists d, ds. split_and!; [done..|]. exists lin. split_and!; [done..|]. by left. }
  assert (∀ lin', lin' ∈ pv_PartialLinearizations d → ¬ holds i lin') as Hnone.
  { intros lin' Hlin'. by eapply (sh_none Hsh). }
  pose proof (largestIllegal_noted (pv_PartialLinearizations d) ds i Hlen) as Hill.
  eexists. split; [done|]. exists d, ds. split_and!; [done..|].
  destruct (largestIllegal _ _ !! i) as [j|]; [|done].
  destruct Hill as (k & lin & -> & Hk & Hlin & Hmax). exists lin. rewrite Nat2Z.id. split_and!; [lia|done|].
  right. done.
Qed.

(** Hiding everything but one linearization. *)
Lemma show_one (hidden : list (list bool)) p d m :
  Forall2 (λ d row, length row = length (pv_PartialLinearizations d)) data hidden → data !! p = Some d →
  (∀ j, m = Some j → 0 ≤ j < go_len (pv_PartialLinearizations d)) →
  let all := (λ row : list bool, (λ _, true) <$> row) <$> hidden in
  ∃ ph, match m with
        | Some j => row ← js_index all p; row ← go_set row j false; Ok (<[p := row]> all)
        | None => Ok all
        end = Ok ph ∧ Forall2 (λ d row, length row = length (pv_PartialLinearizations d)) data ph ∧
    ∀ q row j b, ph !! q = Some row → row !! j = Some b → b = false ↔ q = p ∧ m = Some (Z.of_nat j).
Proof.
  intros Hlen Hd Hm all.
  assert (Forall2 (λ d row, length row = length (pv_PartialLinearizations d)) data all) as Hall.
  { apply Forall2_fmap_r. eapply Forall2_impl; [exact Hlen|]. intros d' row Hrow. cbn. by rewrite length_fmap. }
  assert (∀ q row j b, all !! q = Some row → row !! j = Some b → b = true) as Htrue.
  { intros q row j b Hq Hj. unfold all in Hq. rewrite list_lookup_fmap in Hq.
    apply fmap_Some in Hq as (row' & _ & ->). rewrite list_lookup_fmap in Hj. by apply fmap_Some in Hj as (? & _ & ->). }
  destruct m as [j|]; [|exists all; split_and!; [done|done|]; intros q row j b Hq Hj; rewrite (Htrue _ _ _ _ Hq Hj); naive_solver].
  destruct (Forall2_lookup_l _ _ _ _ _ Hall Hd) as (row & Hrow & Hrl). specialize (Hm j eq_refl).
  exists (<[p := <[Z.to_nat j := false]> row]> all). unfold js_index. rewrite Hrow. cbn.
  unfold go_set. rewrite decide_True by (unfold go_len in *; lia). split_and!; [done| |].
  - rewrite <-(list_insert_id _ _ _ Hd). apply Forall2_insert; [done|]. by rewrite length_insert.
  - intros q row' k b Hq Hk. apply list_lookup_insert_Some in Hq as [(-> & <- & _)|(Hne & Hq)].
    + apply list_lookup_insert_Some in Hk as [(<- & <- & _)|(Hne & Hk)].
      * split; [|done]. intros _. split; [done|]. f_equal. lia.
      * rewrite (Htrue _ _ _ _ Hrow Hk). split; [done|]. intros [_ [= ->]]. by rewrite Nat2Z.id in Hne.
    + rewrite (Htrue _ _ _ _ Hq Hk). split; [done|]. by intros [-> _].
Qed.

Lemma highlight_ok p i u : valid p i → shaped u →
  ∃ u', highlight data layers p i u = Ok u' ∧ shaped u' ∧ shows (Some (p, i)) u' ∧ jumps (Some (p, i)) u' ∧
    selected u' = selected u ∧ selectedIndex u' = selectedIndex u ∧ rectSelected u' = rectSelected u ∧ tip u' = tip u.
Proof.
  intros Hv [Hh Hp Hr]. destruct (linearizationIndex_ok p i Hv) as (m & Hm & d & ds & Hd & Hds & Hcase).
  destruct (show_one (partialHidden u) p d m Hp Hd) as (ph & Hph & Hlen & Hvis).
  { intros j ->. destruct Hcase as (lin & ? & Hlin & _). apply lookup_lt_Some in Hlin. unfold go_len. lia. }
  set (u1 := with_layers (imap (λ k _, bool_decide (k ≠ p)) (historyHidden u)) ph u).
  assert (shaped u1) as Hs1 by (constructor; cbn; [by rewrite length_imap|done|done]).
  assert (shows (Some (p, i)) u1) as Hw1.
  { split; cbn.
    - intros q b Hq. rewrite list_lookup_imap in Hq. apply fmap_Some in Hq as (? & _ & ->).
      done.
    - intros q row j b Hq Hj. pose proof (Hvis _ _ _ _ Hq Hj) as Hb. rewrite Hm. case_bool_decide; destruct b; naive_solver. }
  exists (updateJump data layers u1). unfold highlight. rewrite Hm. cbn [mbind outcome_bind]. rewrite Hph. cbn [mbind outcome_bind].
  split_and!; [done|by destruct Hs1|done|by apply updateJump_jumps|done..].
Qed.

Lemma resetHighlight_ok u : shaped u →
  shaped (resetHighlight data layers u) ∧ shows None (resetHighlight data layers u) ∧
  jumps None (resetHighlight data layers u).
Proof.
  intros [Hh Hp Hr]. unfold resetHighlight. set (u1 := with_layers _ _ u).
  assert (shaped u1) as Hs1.
  { constructor; cbn; [by rewrite length_fmap| |done].
    apply Forall2_fmap_r. eapply Forall2_impl; [exact Hp|]. intros d row Hrow. cbn. by rewrite length_imap. }
  assert (shows None u1) as Hw1.
  { split; cbn.
    - intros q b Hq. rewrite list_lookup_fmap in Hq. apply fmap_Some in Hq as (? & _ & ->).
      done.
    - intros q row j b Hq Hj. rewrite list_lookup_fmap in Hq. apply fmap_Some in Hq as (row' & _ & ->).
      rewrite list_lookup_imap in Hj. apply fmap_Some in Hj as (? & _ & ->). by rewrite bool_decide_not. }
  split_and!; [by destruct Hs1|done|by apply updateJump_jumps].
Qed.

Lemma set_flag_ok (rects : list (list bool)) p i b : valid p i →
  Forall2 (λ d row, length row = length (pv_History d)) data rects →
  ∃ rects', set_flag rects p i b = Ok rects' ∧
    Forall2 (λ d row, length row = length (pv_History d)) data rects' ∧
    ∀ q row k c, rects' !! q = Some row → row !! k = Some c →
      if decide ((q, k) = (p, i)) then c = b else ∃ row', rects !! q = Some row' ∧ row' !! k = Some c.
Proof.
  intros (d & Hd & Hi) Hr. destruct (Forall2_lookup_l _ _ _ _ _ Hr Hd) as (row & Hrow & Hlen).
  exists (<[p := <[i := b]> row]> rects). unfold set_flag, js_index, js_set. rewrite Hrow. cbn.
  rewrite decide_True by lia. split_and!; [done| |].
  - rewrite <-(list_insert_id _ _ _ Hd). apply Forall2_insert; [done|]. by rewrite length_insert.
  - intros q row' k c Hq Hk. apply list_lookup_insert_Some in Hq as [(-> & <- & _)|(Hne & Hq)].
    + apply list_lookup_insert_Some in Hk as [(<- & <- & _)|(Hne & Hk)]; [by rewrite decide_True|].
      rewrite decide_False by naive_solver. eauto.
    + rewrite decide_False by naive_solver. eauto.
Qed.

Lemma select_ok p i v u : valid p i → shaped u → marked None (rectSelected u) →
  tip_right (vw_tip v) (vw_asked v) (tip u) →
  ∃ u', select data layers p i u = Ok u' ∧ represents (choose p i v) u'.
Proof.
  intros Hv [Hh Hp Hr] Hm Ht. unfold select.
  destruct (highlight_ok p i (with_selection true (Some (p, i)) (rectSelected u) u) Hv)
    as (u1 & -> & [Hh1 Hp1 Hr1] & Hs & Hj & Hsel & Hsi & Hre & Htip); [by constructor|].
  cbn [mbind outcome_bind]. destruct (set_flag_ok (rectSelected u1) p i true Hv Hr1) as (rects & Hset & Hlen & Hflag).
  rewrite Hset. cbn [mbind outcome_bind]. eexists. split; [done|]. rewrite Hsel, Hsi. constructor; cbn.
  - by constructor.
  - done.
  - intros q k [= <- <-]. done.
  - intros q k row b Hq Hk. specialize (Hflag _ _ _ _ Hq Hk). case_decide as Heq; [naive_solver|].
    destruct Hflag as (row' & Hq' & Hk'). rewrite Hre in Hq'. specialize (Hm _ _ _ _ Hq' Hk'). naive_solver.
  - done.
  - done.
  - change (tip_right (vw_tip v) (vw_asked v) (tip u1)). by rewrite Htip.
Qed.

Lemma unmark_ok p i u : valid p i → shaped u → marked (Some (p, i)) (rectSelected u) → selectedIndex u = Some (p, i) →
  ∃ rects, unmark u = Ok (with_selection (selected u) (selectedIndex u) rects u) ∧
    Forall2 (λ d row, length row = length (pv_History d)) data rects ∧ marked None rects.
Proof.
  intros Hv [Hh Hp Hr] Hm Hsi. unfold unmark. rewrite Hsi.
  destruct (set_flag_ok (rectSelected u) p i false Hv Hr) as (rects & Hset & Hlen & Hflag). rewrite Hset.
  exists rects. split_and!; [done|done|]. intros q k row b Hq Hk. specialize (Hflag _ _ _ _ Hq Hk).
  case_decide as Heq; [by subst|]. destruct Hflag as (row' & Hq' & Hk'). specialize (Hm _ _ _ _ Hq' Hk'). naive_solver.
Qed.

Lemma selected_true v u p i : represents v u → vw_selected v = Some (p, i) →
  selected u = true ∧ selectedIndex u = Some (p, i) ∧ valid p i.
Proof.
  intros Hrep Hv. destruct (rp_index _ _ Hrep _ _ Hv). rewrite (rp_selected _ _ Hrep), Hv. done.
Qed.

Lemma selected_false v u : represents v u → vw_selected v = None → selected u = false.
Proof. intros Hrep Hv. by rewrite (rp_selected _ _ Hrep), Hv. Qed.

Lemma deselect_ok v u p i : represents v u → vw_selected v = Some (p, i) →
  ∃ u', deselect data layers u = Ok u' ∧ represents (release v) u'.
Proof.
  intros Hrep Hv. destruct (selected_true _ _ _ _ Hrep Hv) as (Hsel & Hsi & Hval). unfold deselect. rewrite Hsel.
  pose proof (rp_marked _ _ Hrep) as Hm. rewrite Hv in Hm.
  set (u1 := with_selection false (selectedIndex u) (rectSelected u) u).
  destruct (resetHighlight_ok u1) as (Hs & Hall & Hj); [destruct (rp_shaped _ _ Hrep); by constructor|].
  destruct (unmark_ok p i (resetHighlight data layers u1) Hval Hs Hm Hsi) as (rects & -> & Hlen & Hm').
  eexists. split; [done|]. destruct Hs as [Hh Hp _].
  constructor; cbn; [by constructor|done|done|done|done|done|]. apply (rp_tip _ _ Hrep).
Qed.

(** *** The tooltip *)
Lemma find_step_spec index lin : ∀ prev,
  match find_step index prev lin with
  | Some (before, curr) => ∃ k, lin !! k = Some curr ∧ ls_Index curr = index ∧
      before = match k with O => prev | S k => lin !! k end
  | None => index ∉ ls_Index <$> lin
  end.
Proof.
  induction lin as [|curr lin IH]; intros prev; cbn; [apply not_elem_of_nil|].
  case_decide as Hc; [by exists 0%nat|]. specialize (IH (Some curr)).
  destruct (find_step index (Some curr) lin) as [[before c]|].
  - destruct IH as (k & ? & ? & ->). exists (S k). split_and!; [done..|]. by destruct k.
  - by apply not_elem_of_cons.
Qed.

Lemma tooltip_message_ok p i v u : valid p i → represents v u →
  ∃ text, tooltip_message data layers p i u = Ok text ∧ says p i (vw_selected v) text.
Proof.
  intros Hval Hrep. pose proof Hval as (d & Hd & Hi). destruct (lookup_lt_is_Some_2 _ _ Hi) as [el Hel].
  destruct (Forall2_lookup_l _ _ _ _ _ (sh_layers Hsh) Hd) as (ds & Hds & Hlen).
  assert (∃ sp si, default (p, i) (vw_selected v) = (sp, si) ∧ valid sp si ∧
    match selected u, selectedIndex u with
    | false, _ => linearizationIndex p i
    | true, Some (sp, si) => linearizationIndex sp si
    | true, None => Panic
    end = linearizationIndex sp si ∧
    selected u && bool_decide (fst <$> selectedIndex u ≠ Some p) = bool_decide (sp ≠ p) ∧
    (vw_selected v = None → si = i)) as (sp & si & Hdef & Hval' & Hidx & Hpart & Hown).
  { destruct (vw_selected v) as [[sp si]|] eqn:Hv.
    - destruct (selected_true _ _ _ _ Hrep Hv) as (-> & -> & Hval'). exists sp, si. split_and!; [done..| |done].
      cbn. apply bool_decide_ext. naive_solver.
    - rewrite (selected_false _ _ Hrep Hv). exists p, i. split_and!; [done..| |done]. cbn.
      symmetry. apply bool_decide_eq_false. naive_solver. }
  destruct (linearizationIndex_ok sp si Hval') as (m & Hm & Hrel).
  assert (selected u = bool_decide (is_Some (vw_selected v))) as Hs by apply Hrep.
  unfold tooltip_message. rewrite Hidx, Hm. cbn [mbind outcome_bind]. rewrite Hpart.
  destruct (bool_decide_reflect (sp ≠ p)) as [Hne|Hne].
  { eexists. split; [done|]. exists d, ds, el. rewrite Hdef, decide_False by done. done. }
  assert (sp = p) as -> by (destruct (decide (sp = p)); naive_solver).
  enough (∃ text, match m with
    | None => Ok (if selected u then "Selected element is not part of any partial linearization."
                  else "Not part of any partial linearization.")
    | Some j => lin_message data layers p i j
    end = Ok text ∧ match m with
    | None => text = if vw_selected v is Some _ then "Selected element is not part of any partial linearization."
                     else "Not part of any partial linearization."
    | Some j => ∃ lin, pv_PartialLinearizations d !! Z.to_nat j = Some lin ∧
        ((∃ k curr, lin !! k = Some curr ∧ ls_Index curr = Z.of_nat i ∧
            text = step_text (match k with O => None | S k => lin !! k end) curr el) ∨
         (¬ holds i lin ∧ illegal_in ds i (Z.to_nat j) ∧ ∃ s, last lin = Some s ∧ text = illegal_text s el) ∨
         (¬ holds i lin ∧ ¬ illegal_in ds i (Z.to_nat j) ∧ is_Some (vw_selected v) ∧
            text = "Not part of selected element's partial linearization."))
    end) as (text & Hmsg & Htext).
  { exists text. split; [done|]. exists d, ds, el. rewrite Hdef, decide_True by done. split_and!; [done..|]. by exists m. }
  destruct m as [j|].
  2:{ eexists. split; [done|]. rewrite Hs. by destruct (vw_selected v). }
  destruct Hrel as (d' & ds' & Hd' & Hds' & lin & Hj & Hlin & Hcase). assert (d' = d) as -> by congruence.
  assert (ds' = ds) as -> by congruence. unfold lin_message, js_index. rewrite Hd. cbn.
  rewrite (proj2 (go_index_Ok _ _ _) (conj Hj Hlin)). cbn. rewrite Hel. cbn.
  pose proof (find_step_spec (Z.of_nat i) lin None) as Hfind.
  destruct (find_step (Z.of_nat i) None lin) as [[prev curr]|].
  { destruct Hfind as (k & ? & ? & ->). eexists. split; [done|]. exists lin. split; [done|]. left. eauto. }
  rewrite Hds. cbn.
  destruct (lookup_lt_is_Some_2 ds (Z.to_nat j)) as [dr Hdr]; [apply lookup_lt_Some in Hlin; lia|].
  rewrite (proj2 (go_index_Ok _ _ _) (conj Hj Hdr)). cbn. destruct (decide (i ∈ (dr_illegal dr).*1)) as [Hill|Hill].
  - destruct (sh_lins Hsh d lin) as [Hnil _]; [by eapply list_elem_of_lookup_2..|].
    destruct (last lin) as [s|] eqn:Hlast; [|by apply last_None in Hlast]. cbn.
    eexists. split; [done|]. exists lin. split; [done|]. right. left. split; [done|]. split; [by exists dr|]. eauto.
  - assert (¬ illegal_in ds i (Z.to_nat j)) as Hnill by (intros (dr' & Hdr' & Hi'); congruence).
    eexists. split; [done|]. exists lin. split; [done|]. right. right. split_and!; [done|done| |done].
    destruct (vw_selected v) as [s|] eqn:Hv; [done|]. rewrite (Hown eq_refl) in Hcase.
    destruct Hcase as [[? _]|(_ & ? & _)]; done.
Qed.

(** *** The handlers *)
Lemma handleMouseOver_ok p i v u : valid p i → represents v u →
  ∃ u', handleMouseOver data layers p i u = Ok u' ∧ represents (react (MouseOver p i) v) u'.
Proof.
  intros Hv Hrep. unfold handleMouseOver. destruct (rp_tip _ _ Hrep) as [_ Hask].
  destruct (vw_selected v) as [[sp si]|] eqn:Hsel.
  - destruct (selected_true _ _ _ _ Hrep Hsel) as (-> & _ & _). eexists. split; [done|]. destruct Hrep as [[] ? ? ? ? ? ?].
    constructor; cbn; rewrite ?Hsel in *; try done; by constructor.
  - rewrite (selected_false _ _ Hrep Hsel).
    destruct (highlight_ok p i u Hv (rp_shaped _ _ Hrep)) as (u' & -> & Hs & Hw & Hj & Hsel' & Hsi & Hre & Htip).
    eexists. split; [done|]. pose proof (rp_marked _ _ Hrep) as Hm. rewrite Hsel in Hm.
    injection Htip as _ Hti Htl.
    constructor; cbn; rewrite ?Hsel; [by destruct Hs| |done|by rewrite Hre|done|done|].
    + by rewrite Hsel', (selected_false _ _ Hrep Hsel).
    + split; [done|]. cbn in *. by rewrite Hti, Htl.
Qed.

Lemma handleMouseOut_ok v u : represents v u → represents (react MouseOut v) (handleMouseOut data layers u).
Proof.
  intros Hrep. unfold handleMouseOut. destruct (vw_selected v) as [[sp si]|] eqn:Hsel.
  - destruct (selected_true _ _ _ _ Hrep Hsel) as (-> & _ & _). destruct Hrep as [[] ? ? ? ? ? ?].
    constructor; cbn; rewrite ?Hsel in *; try done; by constructor.
  - rewrite (selected_false _ _ Hrep Hsel).
    destruct (resetHighlight_ok u (rp_shaped _ _ Hrep)) as (Hs & Hall & Hj).
    pose proof (rp_marked _ _ Hrep) as Hm. rewrite Hsel in Hm.
    constructor; cbn; rewrite ?Hsel; [by destruct Hs| |done|done|done|done|done].
    by apply (selected_false _ _ Hrep).
Qed.

Lemma handleMouseMove_ok p i v u : valid p i → represents v u →
  ∃ u', handleMouseMove data layers p i u = Ok u' ∧ represents (react (MouseMove p i) v) u'.
Proof.
  intros Hv Hrep. unfold handleMouseMove.
  assert (is_Some (vw_selected v) → selectedIndex u = vw_selected v) as Hidx.
  { intros [[sp si] Hs]. rewrite Hs. by apply (rp_index _ _ Hrep). }
  case_decide as Hsame.
  - exists u. split; [done|]. destruct Hrep as [? Hsel ? ? ? ? [Hvis Hask]]. constructor; cbn; try done.
    split; [done|]. cbn in *. rewrite Hsame, Hsel in *. destruct (vw_asked v) as [[[p' i'] sel]|]; [|done].
    destruct Hask as [(si & Heq & Hsi) Hsays]. injection Heq as -> -> Hb <-.
    assert (sel = vw_selected v) as ->.
    { destruct sel as [s|], (vw_selected v) as [s'|] eqn:Hs'; try done.
      rewrite <-Hidx by done. symmetry. by apply Hsi. }
    split; [|done]. by exists (selectedIndex u).
  - destruct (tooltip_message_ok p i v u Hv Hrep) as (text & -> & Htext). cbn [mbind outcome_bind]. eexists. split; [done|].
    destruct Hrep as [[] Hsel ? ? ? ? [Hvis Hask]]. constructor; try done.
    split; [done|]. cbn. split; [|done]. exists (selectedIndex u). rewrite Hsel. done.
Qed.

Lemma handleClick_ok p i v u : valid p i → represents v u →
  ∃ u', handleClick data layers p i u = Ok u' ∧ represents (react (Click p i) v) u'.
Proof.
  intros Hval Hrep. unfold handleClick. cbn [react]. pose proof (rp_marked _ _ Hrep) as Hm.
  destruct (vw_selected v) as [[sp si]|] eqn:Hsel.
  - destruct (selected_true _ _ _ _ Hrep Hsel) as (-> & Hsi & Hval'). rewrite Hsi.
    case_decide; [by eapply deselect_ok|].
    destruct (unmark_ok sp si u Hval' (rp_shaped _ _ Hrep) Hm Hsi) as (rects & -> & Hlen & Hm'). cbn [mbind outcome_bind].
    apply select_ok; [done| |done|apply (rp_tip _ _ Hrep)]. destruct (rp_shaped _ _ Hrep). by constructor.
  - rewrite (selected_false _ _ Hrep Hsel), decide_False by done.
    apply select_ok; [done|apply Hrep|done|apply (rp_tip _ _ Hrep)].
Qed.

Lemma handleJump_ok v u : represents v u →
  ∃ u', handleJump data layers u = Ok u' ∧ represents (react JumpClick v) u'.
Proof.
  intros Hrep. unfold handleJump. cbn [react]. pose proof (rp_jumps _ _ Hrep) as Hj. unfold jumps in Hj.
  destruct (first_error (vw_shown v)) as [pt|] eqn:Hfirst.
  2:{ rewrite Hj. exists u. split; [done|]. by destruct (vw_selected v). }
  destruct Hj as [-> ->]. destruct (vw_selected v) as [[sp si]|] eqn:Hsel.
  { destruct (selected_true _ _ _ _ Hrep Hsel) as (-> & _). by exists u. }
  rewrite (selected_false _ _ Hrep Hsel). pose proof (rp_marked _ _ Hrep) as Hm. rewrite Hsel in Hm.
  apply select_ok; [|apply Hrep|done|apply (rp_tip _ _ Hrep)]. apply errors_valid.
  unfold first_error in Hfirst. apply head_Some_elem_of in Hfirst. by apply list_elem_of_filter in Hfirst as [_ ?].
Qed.

Lemma handle_ok e v u : event_ok e → represents v u →
  ∃ u', handle data layers e u = Ok u' ∧ represents (react e v) u'.
Proof.
  intros He Hrep. destruct e as [p i|p i| |p i| |]; cbn [handle event_ok] in *.
  - by apply handleMouseOver_ok.
  - by apply handleMouseMove_ok.
  - eexists. split; [done|]. by apply handleMouseOut_ok.
  - by apply handleClick_ok.
  - cbn [react]. destruct (vw_selected v) as [[sp si]|] eqn:Hsel; [by eapply deselect_ok|].
    exists u. unfold deselect. by rewrite (selected_false _ _ Hrep Hsel).
  - by apply handleJump_ok.
Qed.

Lemma handle_all_ok es : ∀ v u, Forall event_ok es → represents v u →
  ∃ u', handle_all data layers es u = Ok u' ∧ represents (foldl (λ v e, react e v) v es) u'.
Proof.
  induction es as [|e es IH]; intros v u He Hr; [by exists u|]. apply Forall_cons in He as [He Hes].
  destruct (handle_ok e v u He Hr) as (u1 & Hh & Hr1). cbn. rewrite Hh. cbn. by apply IH.
Qed.

Lemma first_page_represents : represents first_view (first_page data layers).
Proof.
  unfold first_page, handleMouseOut. change (selected (drawn_page data)) with false. cbn match.
  destruct (resetHighlight_ok (drawn_page data)) as (Hs & Hall & Hj).
  { constructor; cbn; [by rewrite length_fmap|..]; apply Forall2_fmap_r, Forall_Forall2_diag, Forall_true; intros d;
      cbn; by rewrite length_fmap. }
  constructor; cbn; [by destruct Hs|done|done| |done|done|done]. intros p i row b Hp Hi. split; [|done]. intros ->.
  rewrite list_lookup_fmap in Hp. apply fmap_Some in Hp as (d & _ & ->). rewrite list_lookup_fmap in Hi.
  by apply fmap_Some in Hi as (? & _ & ?).
Qed.
End Consistent.

(** ** From the checker *)
Lemma layout_partitions textWidth data ly : compute_layout textWidth data = Ok ly → length (ly_partitions ly) = length data.
Proof.
  intros Hly. unfold compute_layout in Hly. apply bind_Ok in Hly as (lns & _ & Hly).
  apply bind_Ok in Hly as ([xp pts] & _ & Hly). injection Hly as <-. cbn.
  unfold tweak_all. rewrite length_fmap, <-(length_fmap pv_History data). generalize 0%nat.
  induction (pv_History <$> data) as [|h hs IH]; intros g; [done|]. cbn. by rewrite IH.
Qed.

Section Checked.
Context {State Input Output : Type} `{EqDecision State} `{GoSort} (model : Model State Input Output).
Context (DescribeOperation : Input → Output → string) (DescribeState : State → string).
Local Abbreviation Operation := (Operation Input Output).
Local Abbreviation depicts := (depicts model DescribeOperation DescribeState).

Lemma depicts_largest (ops : list Operation) ps d i : depicts ops ps d →
  match pv_Largest d !! i with
  | Some j => ∃ lin, 0 ≤ j ∧ pv_PartialLinearizations d !! Z.to_nat j = Some lin ∧ i ∈ ls_Index <$> lin ∧
      ∀ lin', lin' ∈ pv_PartialLinearizations d → i ∈ ls_Index <$> lin' → (length lin' ≤ length lin)%nat
  | None => ∀ lin, lin ∈ pv_PartialLinearizations d → i ∉ ls_Index <$> lin
  end.
Proof.
  intros [_ (sorted & _ & _ & Hshows & Hl)]. specialize (Hl i). destruct (pv_Largest d !! i) as [j|].
  - destruct Hl as (ids & Hj & Hids & Hi & Hmax).
    destruct (Forall2_lookup_l _ _ _ _ _ Hshows Hids) as (lin & Hlin & sel & _ & Heq & _). exists lin.
    split_and!; [done|done|by rewrite Heq|]. intros lin' [k Hk]%list_elem_of_lookup Hin.
    destruct (Forall2_lookup_r _ _ _ _ _ Hshows Hk) as (ids' & Hids' & sel' & _ & Heq' & _).
    rewrite <-(length_fmap ls_Index lin'), <-(length_fmap ls_Index lin), Heq, Heq'.
    apply Hmax; [by eapply list_elem_of_lookup_2|by rewrite <-Heq'].
  - intros lin [k Hk]%list_elem_of_lookup.
    destruct (Forall2_lookup_r _ _ _ _ _ Hshows Hk) as (ids & Hids & sel & _ & -> & _).
    apply Hl. by eapply list_elem_of_lookup_2.
Qed.

Lemma checked_showable textWidth (parts : list (list Operation)) longest data ly layers :
  Forall2 (λ '(ops, l) d, depicts ops (partials l) d) (zip parts longest) data →
  page_ok data → compute_layout textWidth data = Ok ly →
  Forall2 (λ '(h, d) ls, Forall2 (readable (ly_xPos ly) h) (pv_PartialLinearizations d) ls)
    (zip (ly_partitions ly) data) layers →
  showable data layers.
Proof.
  intros Hdep Hpage Hly Hread.
  assert (∀ d, d ∈ data → ∃ ops ps, depicts ops ps d) as Hd.
  { intros d [k Hk]%list_elem_of_lookup. destruct (Forall2_lookup_r _ _ _ _ _ Hdep Hk) as ([ops l] & _ & Hdp). eauto. }
  constructor.
  - pose proof (layout_partitions _ _ _ Hly) as Hlen. pose proof (Forall2_length _ _ _ Hread) as Hz.
    rewrite length_zip in Hz. apply Forall2_same_length_lookup. split; [lia|]. intros k d ds Hk Hds.
    destruct (Forall2_lookup_r _ _ _ _ _ Hread Hds) as ([h d'] & Hz' & Hr).
    apply lookup_zip_with_Some in Hz' as (? & ? & [= <- <-] & _ & Hd'). assert (d' = d) as -> by congruence.
    by eapply Forall2_length.
  - intros d lin Hin Hlin. pose proof (pg_lins _ Hpage d lin Hin Hlin) as Hok. split; [|apply Hok].
    intros ->. by apply (lk_some _ _ Hok).
  - intros d i j (ops & ps & Hdp)%Hd Hj. pose proof (depicts_largest _ _ _ i Hdp) as Hl. by rewrite Hj in Hl.
  - intros d i lin (ops & ps & Hdp)%Hd Hn Hlin. pose proof (depicts_largest _ _ _ i Hdp) as Hl. rewrite Hn in Hl. by apply Hl.
Qed.

(** C22. The page of a checked history does what a reader expects: if no operation
    returns before it is called and none starts at the time at which the last
    one returns ([drawable]), the page of the data that the checker's search
    left is drawn, and after every sequence of events, none of which runs into
    an error, it represents the view that the abstract reaction to the events
    gives ([react]).  Pointing at an operation shows the linearization that
    matters for it while nothing is selected; leaving shows everything again; a
    click selects the operation or, if it is the selected one, releases it;
    the link selects the first error displayed.  The marked rectangle is the
    selected one, the layers that are not hidden and the link are those of what
    is shown, and the tooltip is visible when it should be and tells what
    [says] states of the operation last pointed at and the selection at that
    time, in the selected partition, in another one, or with nothing selected.  The
    linearization that matters is a longest that holds the operation or else a
    longest after which it is illegal. *)
Theorem page_consistent (textWidth : string → Z) (parts : list (list Operation)) longest :
  drawable parts →
  Forall2 (λ ops l, ∃ killed fuel b, checkSingle model (makeEntries ops) true killed fuel = Ok (Some (b, l)))
    parts longest →
  ∃ data ly layers,
    computeVisualizationData model DescribeOperation DescribeState
      (make_info (makeEntries <$> parts) longest) = Ok data ∧
    compute_layout textWidth data = Ok ly ∧ draw_layers ly data = Ok layers ∧
    (∀ p i, valid data p i → ∃ m, linearizationIndex data layers p i = Ok m ∧ relevant data layers p i m) ∧
    ∀ es, Forall (event_ok data) es → ∃ u,
      handle_all data layers es (first_page data layers) = Ok u ∧
      represents data layers (view_after data layers es) u.
Proof.
  intros Htime Hl.
  destruct (checked_drawing model DescribeOperation DescribeState textWidth parts longest Htime Hl)
    as (data & ly & layers & Hdata & Hdep & Hpage & Hly & Hdraw & _ & Hread).
  pose proof (checked_showable _ _ _ _ _ _ Hdep Hpage Hly Hread) as Hsh.
  exists data, ly, layers. split_and!; [done..|by apply linearizationIndex_ok|]. intros es Hes.
  apply handle_all_ok; [done|done|]. by apply first_page_represents.
Qed.
End Checked.

(** ** Pointing and clicking on the two appends *)
Section Example.
Local Instance page_sort : GoSort := insertion_GoSort.

(** The text and what is hidden after the events. *)
Definition after_events (data : outcome (list partitionVisualizationData)) (es : list ui_event)
    : outcome (string * list (list bool) * list (list bool)) :=
  data ← data; ly ← compute_layout sixPixels data; layers ← draw_layers ly data;
  u ← handle_all data layers es (first_page data layers);
  Ok (innerHTML u, partialHidden u, rectSelected u).

Lemma page_consistent_witness :
  after_events (computeVisualizationData KvModel DescribeOperation_kv id
      (make_info (makeEntries <$> [bad_history]) [bad_longest]))
    [MouseOver 0 0; Click 0 0; MouseOut; JumpClick; Click 0 0; MouseOver 0 1; MouseMove 0 1; Click 0 1] =
  Ok ("<strong>New state:</strong><br>b<br><br>Call: 1<br><br>Return: 3",
      [[false; true]], [[false; true; false]]) ∧
  ∃ data ly layers,
    computeVisualizationData KvModel DescribeOperation_kv id
      (make_info (makeEntries <$> [bad_history]) [bad_longest]) = Ok data ∧
    compute_layout sixPixels data = Ok ly ∧ draw_layers ly data = Ok layers ∧
    (∀ p i, valid data p i → ∃ m, linearizationIndex data layers p i = Ok m ∧ relevant data layers p i m) ∧
    ∀ es, Forall (event_ok data) es → ∃ u,
      handle_all data layers es (first_page data layers) = Ok u ∧
      represents data layers (view_after data layers es) u.
Proof.
  split; [vm_compute; reflexivity|].
  apply (page_consistent KvModel DescribeOperation_kv id sixPixels [bad_history] [bad_longest]).
  - apply takes_time_drawable. repeat constructor.
  - constructor; [|constructor]. exists (λ _, false), 60%nat, false. vm_compute. reflexivity.
Defined.
End Example.
