(* ===== verification/MRWorker.v ===== *)
(** * MapReduce: what a worker does with a task
    (src/src/mr/worker.go, src/src/main/mrsequential.go)

    The file system is a map from paths to files, and every name is resolved
    (Paths).  A file is text, or the sequence of records that a
    [json.Decoder] reads back: [json_string] has replaced the bytes of their
    strings that are no UTF-8, while [ihash] has seen the strings as they were.
    [Panic] stands for a panic and for [log.Fatalf]: the worker process dies.
    A file enters the map when it gets its final name: the temporary ones that
    [os.CreateTemp] makes under random names, and that a crash leaves behind,
    are not in it.

    The records of a map task are spread over [numFiles] files by [ihash];
    [doReduce] collects a key's values from all its files; [seq_lines] is the
    sequential program the tests compare with. *)
From S2P Require Import Prelude GoLib Utf8 Paths.
Local Open Scope Z_scope.

Record KeyValue := { kv_Key : string; kv_Value : string }.

(** [ByKey.Less] *)
Definition ByKey_Less (a b : KeyValue) : bool := String.ltb (kv_Key a) (kv_Key b).

(** [[]byte(key)] *)
Definition bytes_of (s : string) : list Z :=
  (λ a, Z.of_N (Ascii.N_of_ascii a)) <$> String.list_ascii_of_string s.

(** FNV-1a on 32 bits, as [hash/fnv] computes it. *)
Definition fnv32a_step (h b : Z) : Z := (Z.lxor h b * 16777619) `mod` 2 ^ 32.
Definition fnv32a (bs : list Z) : Z := foldl fnv32a_step 2166136261 bs.

Definition ihash (key : string) : Z := Z.land (fnv32a (bytes_of key)) 0x7fffffff.

(** ** Files *)
Inductive file :=
  | Text (s : string)
  | Json (kvs : list KeyValue).

Abbreviation fs := (gmap path file) (only parsing).

Definition TempDir : string := "./tmp".

(** [fmt.Sprintf("%v/mr-%v-%v", TempDir, mapId, i)] *)
Definition tmp_name (mapId i : Z) : string :=
  TempDir +:+ "/mr-" +:+ pretty mapId +:+ "-" +:+ pretty i.

(** [fmt.Sprintf("./mr-out-%v", fileId)] *)
Definition out_name (fileId : Z) : string := "./mr-out-" +:+ pretty fileId.

(** [fmt.Fprintf(file, "%v %v\n", key, output)] *)
Definition line (key output : string) : string :=
  key +:+ " " +:+ output +:+ String (Ascii.ascii_of_nat 10) EmptyString.

(** ** Map tasks *)

(** A record that has been encoded and decoded. *)
Definition json_kv (kv : KeyValue) : KeyValue :=
  {| kv_Key := json_string (kv_Key kv); kv_Value := json_string (kv_Value kv) |}.

(** [encoders[ihash(kv.Key) % numFiles].Encode(&kv)] *)
Definition encode (numFiles : Z) (encoders : list (list KeyValue)) (kv : KeyValue)
    : outcome (list (list KeyValue)) :=
  if decide (numFiles = 0) then Panic  (* integer divide by zero *)
  else
    let idx := ihash (kv_Key kv) `rem` numFiles in
    buf ← go_index encoders idx;
    go_set encoders idx (buf ++ [json_kv kv]).

Definition encode_all (numFiles : Z) (kva : list KeyValue) (encoders : list (list KeyValue))
    : outcome (list (list KeyValue)) :=
  foldl (λ acc kv, encoders ← acc; encode numFiles encoders kv) (Ok encoders) kva.

(** The renames: every temporary file takes its final name. *)
Definition rename_all `{Cwd} (mapId : Z) (bufs : list (list KeyValue)) (f : fs) : fs :=
  foldl (λ f '(i, buf), <[resolve (tmp_name mapId i) := Json buf]> f) f
    (imap (λ i buf, (Z.of_nat i, buf)) bufs).

(** What the temporary files hold when they have been flushed. *)
Definition tmp_buffers (numFiles : Z) (kva : list KeyValue) : outcome (list (list KeyValue)) :=
  if decide (numFiles < 0) then Panic  (* makeslice: cap out of range *)
  else encode_all numFiles kva (replicate (Z.to_nat numFiles) []).

Definition writeIntoTmpFiles `{Cwd} (mapId numFiles : Z) (kva : list KeyValue) (f : fs) : outcome fs :=
  bufs ← tmp_buffers numFiles kva; mret (rename_all mapId bufs f).

(** What a task reply carries. *)
Inductive TaskType := MapTask | ReduceTask | WaitTask | ExitTask.

#[export] Instance TaskType_eq_dec : EqDecision TaskType.
Proof. solve_decision. Defined.

Record RequestTaskReplys := {
  rr_TaskType : TaskType;
  rr_TaskID : Z;
  rr_InputFiles : list string;
  rr_ReduceNum : Z;
}.

(** [os.Open] and [io.ReadAll] *)
Definition read_text `{Cwd} (f : fs) (filename : string) : outcome string :=
  match f !! resolve filename with Some (Text s) => Ok s | _ => Panic end.

Section MapJobs.
Context `{Cwd} `{GoSort}.
Context (mapf : string → string → list KeyValue).

Fixpoint read_inputs (f : fs) (inputfiles : list string) : outcome (list KeyValue) :=
  match inputfiles with
  | [] => Ok []
  | filename :: rest =>
      content ← read_text f filename;
      kvs ← read_inputs f rest;
      Ok (mapf filename content ++ kvs)
  end.

Definition doMap (replys : RequestTaskReplys) (f : fs) : outcome fs :=
  intermediate ← read_inputs f (rr_InputFiles replys);
  writeIntoTmpFiles (rr_TaskID replys) (rr_ReduceNum replys) (go_sort ByKey_Less intermediate) f.

End MapJobs.

(** ** Reduce tasks *)
Section ReduceJobs.
Context `{Cwd} `{GoSort}.
Context (reducef : string → list string → string).

(** The records the decoder returns; none when the file cannot be opened.
    A text file is not one of the files the tasks name. *)
Definition decode (f : fs) (filename : string) : list KeyValue :=
  match f !! resolve filename with Some (Json kvs) => kvs | _ => [] end.

Definition collect_values (kvs : list KeyValue) : gmap string (list string) :=
  foldl (λ kva kv, <[kv_Key kv := map_get [] kva (kv_Key kv) ++ [kv_Value kv]]> kva) ∅ kvs.

Definition reduce_lines (kvs : list KeyValue) : list string :=
  let kva := collect_values kvs in
  let keys := go_sort String.ltb (map_to_list kva).*1 in
  (λ key, line key (reducef key (map_get [] kva key))) <$> keys.

Definition concat_lines (ls : list string) : string := foldr String.append EmptyString ls.

Definition doReduce (replys : RequestTaskReplys) (f : fs) : fs :=
  let kvs := rr_InputFiles replys ≫= decode f in
  <[resolve (out_name (rr_TaskID replys)) := Text (concat_lines (reduce_lines kvs))]> f.

(** ** The sequential program *)

(** [j - i - 1]: how many entries behind the first one have its key. *)
Fixpoint run_length (key : string) (l : list KeyValue) : nat :=
  match l with
  | [] => 0
  | kv :: l => if decide (kv_Key kv = key) then S (run_length key l) else 0
  end.

(** The outer loop, on [intermediate[i:]]; each turn takes at least one entry. *)
Fixpoint seq_loop (fuel : nat) (intermediate : list KeyValue) : list string :=
  match fuel, intermediate with
  | S fuel, kv :: rest =>
      let n := S (run_length (kv_Key kv) rest) in
      let values := kv_Value <$> take n intermediate in
      line (kv_Key kv) (reducef (kv_Key kv) values) :: seq_loop fuel (drop n intermediate)
  | _, _ => []
  end.

Definition seq_lines (intermediate : list KeyValue) : list string :=
  let l := go_sort ByKey_Less intermediate in seq_loop (length l) l.

Definition mrsequential (mapf : string → string → list KeyValue) (files : list string) (f : fs)
    : outcome fs :=
  intermediate ← read_inputs mapf f files;
  mret (<[resolve "mr-out-0" := Text (concat_lines (seq_lines intermediate))]> f).

(** ** Values of a key *)
Definition values_of (key : string) (kvs : list KeyValue) : list string :=
  kv_Value <$> filter (λ kv, kv_Key kv = key) kvs.

(** What one line per key is. *)
Definition lines_for (kvs : list KeyValue) (ls : list string) : Prop :=
  ∃ keys, NoDup keys ∧ (∀ k, k ∈ keys ↔ k ∈ kv_Key <$> kvs) ∧
    ls = (λ key, line key (reducef key (values_of key kvs))) <$> keys.

Lemma values_of_nil key kvs : values_of key kvs = [] ↔ key ∉ kv_Key <$> kvs.
Proof.
  unfold values_of. induction kvs as [|kv kvs IH]; [by split; [intros _ ?%elem_of_nil|]|].
  rewrite filter_cons, (fmap_cons kv_Key), not_elem_of_cons. case_decide as Hk.
  - split; [done|]. intros [[] _]. done.
  - rewrite IH. split; [intros ?; split; [congruence|done]|tauto].
Qed.

Lemma collect_values_lookup kvs key :
  map_get [] (collect_values kvs) key = values_of key kvs ∧
  (is_Some (collect_values kvs !! key) ↔ key ∈ kv_Key <$> kvs).
Proof.
  induction kvs as [|kv kvs IH] using rev_ind.
  { split; [done|]. cbn. rewrite lookup_empty, elem_of_nil. split; [by intros []|done]. }
  unfold collect_values, values_of in *. rewrite foldl_app; cbn.
  rewrite filter_app, !fmap_app, elem_of_app. destruct IH as [IH1 IH2].
  destruct (decide (kv_Key kv = key)) as [<-|Hk].
  - rewrite filter_cons_True by done. unfold map_get at 1. rewrite lookup_insert_eq. cbn.
    rewrite IH1. split; [done|]. split; [|by eexists]. intros _. right. left.
  - rewrite filter_cons_False by done. cbn. rewrite app_nil_r. unfold map_get.
    rewrite lookup_insert_ne by done. split; [done|]. rewrite IH2, list_elem_of_singleton.
    naive_solver.
Qed.

Lemma reduce_lines_for kvs : lines_for kvs (reduce_lines kvs).
Proof.
  unfold lines_for, reduce_lines.
  exists (go_sort String.ltb (map_to_list (collect_values kvs)).*1). split_and!.
  - rewrite go_sort_perm. apply NoDup_fst_map_to_list.
  - intros k. rewrite go_sort_perm, <-(proj2 (collect_values_lookup kvs k)).
    rewrite list_elem_of_fmap. split.
    + intros ([k' v] & -> & Hv%elem_of_map_to_list). by exists v.
    + intros [v Hv]. exists (k, v). split; [done|]. by apply elem_of_map_to_list.
  - apply list_fmap_ext. intros i k _. by rewrite (proj1 (collect_values_lookup kvs k)).
Qed.

(** ** The sequential loop *)
Definition by_key_order (l : list KeyValue) : Prop :=
  StronglySorted (λ x y, ByKey_Less y x = false) l.

Lemma ByKey_strict_weak : strict_weak ByKey_Less.
Proof.
  destruct string_ltb_strict_weak as [H1 H2 H3].
  split; intros *; unfold ByKey_Less; [apply H1|apply H2|apply H3].
Qed.

(** In a sorted list, the run of the first key holds all its entries. *)
Lemma run_length_spec key l :
  by_key_order l → (∀ kv, kv ∈ l → String.ltb (kv_Key kv) key = false) →
  Forall (λ kv, kv_Key kv = key) (take (run_length key l) l) ∧
  Forall (λ kv, kv_Key kv ≠ key) (drop (run_length key l) l).
Proof.
  induction l as [|kv l IH]; [done|]. intros [Hf Hs]%StronglySorted_cons Hge. cbn [run_length].
  case_decide as Hk; cbn [take drop].
  - destruct IH as [H1 H2]; [done|intros kv' Hkv'; apply Hge; by right|].
    split; [|done]. by constructor.
  - split; [constructor|]. constructor; [done|].
    eapply Forall_impl; [exact Hf|]. intros kv' Hle Hk'. unfold ByKey_Less in Hle.
    rewrite Hk' in Hle. apply Hk. apply string_ltb_connected; [apply Hge; left|done].
Qed.

Lemma by_key_order_drop k l : by_key_order l → by_key_order (drop k l).
Proof.
  intros Hs. rewrite <-(take_drop k l) in Hs. unfold by_key_order in *.
  induction (take k l) as [|x l' IH]; [done|]. apply IH. by apply StronglySorted_cons in Hs as [_ ?].
Qed.

Lemma filter_all {A} P `{!∀ x : A, Decision (P x)} l : Forall P l → filter P l = l.
Proof. induction 1; [done|]. rewrite filter_cons_True by done. by f_equal. Qed.

Lemma filter_none {A} P `{!∀ x : A, Decision (P x)} l : Forall (λ x, ¬ P x) l → filter P l = [].
Proof. induction 1; [done|]. by rewrite filter_cons_False. Qed.

Lemma seq_loop_lines fuel : ∀ l,
  by_key_order l → (length l ≤ fuel)%nat → lines_for l (seq_loop fuel l).
Proof.
  induction fuel as [|fuel IH]; intros [|kv rest] Hs Hlen; cbn in Hlen; try lia;
    [by exists []; split_and!; [constructor| |]..|].
  pose proof Hs as [Hf Hs']%StronglySorted_cons.
  destruct (run_length_spec (kv_Key kv) rest Hs') as [Hrun Hoff].
  { intros kv' Hkv'. rewrite Forall_forall in Hf. by apply Hf. }
  cbn [seq_loop]. set (n := run_length (kv_Key kv) rest) in *. cbn [drop take].
  destruct (IH (drop n rest)) as (keys & Hnd & Hel & ->).
  { by apply by_key_order_drop. } { rewrite length_drop. lia. }
  assert (∀ k, k ∈ kv_Key <$> (kv :: rest) ↔ k = kv_Key kv ∨ k ∈ kv_Key <$> drop n rest) as Hkeys.
  { intros k. rewrite <-(take_drop n rest) at 1. rewrite fmap_cons, fmap_app, elem_of_cons, elem_of_app.
    split; [|tauto]. intros [?|[Hk|?]]; [tauto| |tauto]. left.
    apply list_elem_of_fmap in Hk as (kv' & -> & Hk). rewrite Forall_forall in Hrun. by apply Hrun. }
  assert (kv_Key kv ∉ keys) as Hnew.
  { rewrite Hel. intros (kv' & Hk & Hin)%list_elem_of_fmap. rewrite Forall_forall in Hoff.
    by apply (Hoff kv' Hin). }
  exists (kv_Key kv :: keys). split_and!; [by constructor| |].
  - intros k. rewrite elem_of_cons, Hel, Hkeys. done.
  - cbn [fmap list_fmap]. f_equal.
    + f_equal. f_equal. unfold values_of. rewrite filter_cons_True by done.
      rewrite <-(take_drop n rest) at 2. rewrite filter_app, (filter_all _ (take n rest)) by done.
      rewrite (filter_none _ (drop n rest)), app_nil_r by done. done.
    + apply list_fmap_ext. intros i k Hk%list_elem_of_lookup_2. f_equal. f_equal.
      unfold values_of. assert (k ≠ kv_Key kv) as Hne by congruence.
      rewrite filter_cons_False by done. rewrite <-(take_drop n rest) at 2.
      rewrite filter_app, (filter_none _ (take n rest)); [done|].
      eapply Forall_impl; [exact Hrun|]. intros kv' Hkv' ?. cbn in Hkv'. congruence.
Qed.

(** ** Reduce functions that do not depend on the order of the values *)
Definition order_insensitive : Prop :=
  ∀ key vs vs', vs ≡ₚ vs' → reducef key vs = reducef key vs'.

Lemma values_of_perm key kvs kvs' : kvs ≡ₚ kvs' → values_of key kvs ≡ₚ values_of key kvs'.
Proof. unfold values_of. by intros ->. Qed.

Lemma lines_for_perm kvs kvs' ls :
  order_insensitive → kvs ≡ₚ kvs' → lines_for kvs ls → lines_for kvs' ls.
Proof.
  intros Hred Hp (keys & Hnd & Hel & ->). exists keys. split_and!; [done| |].
  - intros k. by rewrite Hel, Hp.
  - apply list_fmap_ext. intros i k _. f_equal. by apply Hred, values_of_perm.
Qed.

Lemma lines_for_unique kvs ls ls' : lines_for kvs ls → lines_for kvs ls' → ls ≡ₚ ls'.
Proof.
  intros (keys & Hnd & Hel & ->) (keys' & Hnd' & Hel' & ->).
  apply Permutation_map, NoDup_Permutation; [done..|]. intros k. by rewrite Hel, Hel'.
Qed.

Lemma seq_lines_for kvs : order_insensitive → lines_for kvs (seq_lines kvs).
Proof.
  intros Hred. unfold seq_lines. eapply lines_for_perm; [done|apply (go_sort_perm ByKey_Less)|].
  apply seq_loop_lines; [|done]. apply go_sort_sorted, ByKey_strict_weak.
Qed.

(** The lines of records split by a function of the key. *)
Lemma lines_for_split (bucket : string → nat) n : ∀ kvs (lss : list (list string)),
  (∀ kv, kv ∈ kvs → (bucket (kv_Key kv) < n)%nat) →
  length lss = n →
  (∀ i ls, lss !! i = Some ls → lines_for (filter (λ kv, bucket (kv_Key kv) = i) kvs) ls) →
  ∃ ls, lines_for kvs ls ∧ ls ≡ₚ concat lss.
Proof.
  induction n as [|n IH]; intros kvs lss Hb Hlen Hl.
  { destruct lss; [|done]. exists []. split; [|done]. destruct kvs as [|kv kvs].
    - exists []. split_and!; [constructor|done|done].
    - specialize (Hb kv ltac:(left)). lia. }
  destruct (exists_last (l := lss)) as (lss' & lsn & ->); [by destruct lss|].
  rewrite length_app in Hlen; cbn in Hlen.
  destruct (IH (filter (λ kv, (bucket (kv_Key kv) < n)%nat) kvs) lss') as (ls & (keys & Hnd & Hel & Hls) & Hp).
  - intros kv [? _]%list_elem_of_filter. done.
  - lia.
  - intros i ls Hi. pose proof (lookup_lt_Some _ _ _ Hi).
    rewrite list_filter_filter_l; [|intros; lia]. apply Hl. by apply lookup_app_l_Some.
  - destruct (Hl n lsn) as (keysn & Hndn & Heln & Hlsn).
    { rewrite lookup_app_r by lia. by replace (n - length lss')%nat with 0%nat by lia. }
    assert (∀ k, k ∈ keys ↔ k ∈ kv_Key <$> kvs ∧ (bucket k < n)%nat) as Hel'.
    { intros k. rewrite Hel, !list_elem_of_fmap. setoid_rewrite list_elem_of_filter. naive_solver. }
    assert (∀ k, k ∈ keysn ↔ k ∈ kv_Key <$> kvs ∧ bucket k = n) as Heln'.
    { intros k. rewrite Heln, !list_elem_of_fmap. setoid_rewrite list_elem_of_filter. naive_solver. }
    exists (ls ++ lsn). split; [|by rewrite Hp, concat_app; cbn; rewrite app_nil_r].
    exists (keys ++ keysn). split_and!.
    + apply NoDup_app. split_and!; [done| |done]. intros k [_ ?]%Hel' [_ ?]%Heln'. lia.
    + intros k. rewrite elem_of_app, Hel', Heln'. split; [tauto|]. intros Hk.
      assert (bucket k < S n)%nat by (apply list_elem_of_fmap in Hk as (kv & -> & ?); auto).
      destruct (decide (bucket k = n)); [tauto|left; split; [done|lia]].
    + rewrite fmap_app, Hls, Hlsn. f_equal; apply list_fmap_ext; intros i k Hk%list_elem_of_lookup_2;
        f_equal; f_equal; unfold values_of; rewrite list_filter_filter_l; try done;
        intros kv <-; [apply Hel' in Hk|apply Heln' in Hk]; tauto.
Qed.
End ReduceJobs.

Lemma bind_seq_lookup {A B} (l : list A) (g : A → list B) :
  seq 0 (length l) ≫= (λ m, match l !! m with Some x => g x | None => [] end) = l ≫= g.
Proof.
  induction l as [|x l IH]; [done|]. cbn [length seq]. rewrite <-fmap_S_seq, bind_cons. cbn [lookup].
  rewrite list_fmap_bind, bind_cons. f_equal. exact IH.
Qed.

(** ** Partitioning *)
Lemma land_mask h : Z.land h 0x7fffffff = h `mod` 2 ^ 31.
Proof. change 0x7fffffff with (Z.ones 31). by rewrite Z.land_ones. Qed.

Lemma ihash_bounds key : 0 ≤ ihash key < 2 ^ 31.
Proof. unfold ihash. rewrite land_mask. apply Z.mod_pos_bound. lia. Qed.

(** The reduce task of a key. *)
Definition bucket (n : Z) (key : string) : nat := Z.to_nat (ihash key `rem` n).

Lemma bucket_bound n key : 0 < n → (bucket n key < Z.to_nat n)%nat.
Proof.
  intros Hn. unfold bucket. pose proof (ihash_bounds key).
  pose proof (Z.rem_bound_pos (ihash key) n). lia.
Qed.

Definition in_bucket (n : Z) (kvs : list KeyValue) (i : nat) : list KeyValue :=
  filter (λ kv, bucket n (kv_Key kv) = i) kvs.

(** What the file of a bucket holds. *)
Definition part (n : Z) (kvs : list KeyValue) (i : nat) : list KeyValue :=
  json_kv <$> in_bucket n kvs i.

Lemma encode_part n kvs kv :
  0 < n →
  encode n (part n kvs <$> seq 0 (Z.to_nat n)) kv =
    Ok (part n (kvs ++ [kv]) <$> seq 0 (Z.to_nat n)).
Proof.
  intros Hn. pose proof (bucket_bound n (kv_Key kv) Hn) as Hb.
  unfold encode. rewrite decide_False by lia.
  set (bufs := part n kvs <$> seq 0 (Z.to_nat n)).
  assert (go_index bufs (ihash (kv_Key kv) `rem` n) = Ok (part n kvs (bucket n (kv_Key kv)))) as ->.
  { apply go_index_Ok. pose proof (ihash_bounds (kv_Key kv)).
    split; [apply Z.rem_nonneg; lia|]. fold (bucket n (kv_Key kv)). subst bufs.
    by rewrite list_lookup_fmap, lookup_seq_lt. }
  cbn. apply go_set_Ok. pose proof (ihash_bounds (kv_Key kv)).
  assert (go_len bufs = n) as Hl by (subst bufs; unfold go_len; rewrite length_fmap, length_seq; lia).
  rewrite Hl. split; [apply Z.rem_bound_pos; lia|]. fold (bucket n (kv_Key kv)).
  apply list_eq. intros i. rewrite list_lookup_fmap. subst bufs.
  destruct (decide (i < Z.to_nat n)%nat) as [Hi|Hi].
  - rewrite lookup_seq_lt by done. cbn.
    destruct (decide (i = bucket n (kv_Key kv))) as [->|Hne].
    + rewrite list_lookup_insert_eq by (rewrite length_fmap, length_seq; done).
      unfold part, in_bucket. by rewrite filter_app, (filter_cons_True _ kv), fmap_app.
    + rewrite list_lookup_insert_ne by done. rewrite list_lookup_fmap, lookup_seq_lt by done. cbn.
      unfold part, in_bucket. rewrite filter_app, filter_cons_False by done. by rewrite app_nil_r.
  - rewrite lookup_seq_ge by lia. cbn. symmetry. apply lookup_ge_None_2.
    rewrite length_insert, length_fmap, length_seq. lia.
Qed.

(** Every record goes to the file of its bucket, in order. *)
Lemma encode_all_parts n kvs :
  0 < n →
  encode_all n kvs (replicate (Z.to_nat n) []) = Ok (part n kvs <$> seq 0 (Z.to_nat n)).
Proof.
  intros Hn. unfold encode_all. induction kvs as [|kv kvs IH] using rev_ind.
  - cbn. f_equal. apply list_eq. intros i. rewrite list_lookup_fmap.
    destruct (decide (i < Z.to_nat n)%nat).
    + by rewrite lookup_replicate_2, lookup_seq_lt.
    + rewrite lookup_seq_ge by lia. apply lookup_ge_None_2. rewrite length_replicate. lia.
  - rewrite foldl_app, IH. cbn. by apply encode_part.
Qed.

(** ** Valid records go through JSON unchanged *)
Definition valid_kv (kv : KeyValue) : Prop := ValidString (kv_Key kv) ∧ ValidString (kv_Value kv).

Lemma json_kv_id kv : valid_kv kv ↔ json_kv kv = kv.
Proof.
  unfold valid_kv. rewrite !json_string_id. destruct kv as [k v]; cbn. unfold json_kv; cbn. split.
  - by intros [-> ->].
  - by intros [= -> ->].
Qed.

Lemma part_valid n kvs i : Forall valid_kv kvs → part n kvs i = in_bucket n kvs i.
Proof.
  intros Hv. unfold part. rewrite <-(list_fmap_id (in_bucket n kvs i)) at 2.
  apply list_fmap_ext. intros j kv Hj%list_elem_of_lookup_2. apply list_elem_of_filter in Hj as [_ Hj].
  rewrite Forall_forall in Hv. by apply json_kv_id, Hv.
Qed.

(** Two keys that are no UTF-8 are one key in the files, but the two files of
    different reduce tasks. *)
Example json_merges :
  let k1 := String (Ascii.ascii_of_nat 255) "" in
  let k2 := String (Ascii.ascii_of_nat 254) "" in
  k1 ≠ k2 ∧ json_string k1 = json_string k2 ∧ bucket 10 k1 ≠ bucket 10 k2.
Proof. by vm_compute. Qed.

(** ** The files of a map task *)
Definition tmp_base (m i : Z) : string := "mr-" +:+ pretty m +:+ "-" +:+ pretty i.
Definition out_base (r : Z) : string := "mr-out-" +:+ pretty r.

Section Names.
Context `{Cwd}.

Definition tmp_dir : path := cwd ++ ["tmp"].

Lemma no_slash_tmp m i : no_slash (tmp_base m i).
Proof. unfold tmp_base. repeat (apply no_slash_app || apply pretty_no_slash); unfold no_slash; set_solver. Qed.

Lemma resolve_TempDir : resolve TempDir = tmp_dir.
Proof. reflexivity. Qed.

Lemma resolve_tmp m i : resolve (tmp_name m i) = tmp_dir ++ [tmp_base m i].
Proof.
  change (tmp_name m i) with ("." +:+ "/" +:+ "tmp" +:+ "/" +:+ tmp_base m i). unfold resolve.
  rewrite !components_slash, components_one by (apply no_slash_tmp || (unfold no_slash; set_solver)).
  cbn [foldl]. change (walk _ ".") with (cwd : path). rewrite !walk_name by set_solver. done.
Qed.

Lemma resolve_out r : resolve (out_name r) = cwd ++ [out_base r].
Proof.
  change (out_name r) with ("." +:+ "/" +:+ out_base r). unfold resolve.
  assert (no_slash (out_base r)).
  { apply no_slash_app; [unfold no_slash; set_solver|apply pretty_no_slash]. }
  rewrite components_slash, components_one by (done || (unfold no_slash; set_solver)).
  cbn [foldl]. change (walk _ ".") with (cwd : path). by rewrite walk_name by set_solver.
Qed.

Lemma tmp_name_inj m i m' i' :
  0 ≤ i → 0 ≤ i' → resolve (tmp_name m i) = resolve (tmp_name m' i') → m = m' ∧ i = i'.
Proof.
  intros Hi Hi' Heq. rewrite !resolve_tmp in Heq. apply (inj (tmp_dir ++.)) in Heq. injection Heq as Heq.
  apply dash_split in Heq as [Hm%(inj pretty) Hi2%(inj pretty)]; [done|by apply pretty_no_dash..].
Qed.

Lemma out_name_inj r r' : resolve (out_name r) = resolve (out_name r') → r = r'.
Proof.
  rewrite !resolve_out. intros Heq%(inj (cwd ++.)). injection Heq as Heq.
  by apply (inj (String.append _)), (inj pretty) in Heq.
Qed.

Lemma rename_all_snoc m bufs buf f :
  rename_all m (bufs ++ [buf]) f =
    <[resolve (tmp_name m (Z.of_nat (length bufs))) := Json buf]> (rename_all m bufs f).
Proof.
  unfold rename_all. rewrite imap_app, foldl_app. cbn. by rewrite Nat.add_0_r.
Qed.

Lemma rename_all_lookup m bufs f i :
  (i < length bufs)%nat →
  rename_all m bufs f !! resolve (tmp_name m (Z.of_nat i)) = Json <$> bufs !! i.
Proof.
  induction bufs as [|buf bufs IH] using rev_ind; cbn; [lia|].
  rewrite length_app; cbn. intros Hi. rewrite rename_all_snoc.
  destruct (decide (i = length bufs)) as [->|Hne].
  - rewrite lookup_insert_eq, lookup_app_r by lia. by rewrite Nat.sub_diag.
  - rewrite lookup_insert_ne by (intros [_ ?]%tmp_name_inj; lia).
    rewrite IH by lia. by rewrite lookup_app_l by lia.
Qed.

Lemma rename_all_frame m bufs f p :
  (∀ i, (i < length bufs)%nat → p ≠ resolve (tmp_name m (Z.of_nat i))) →
  rename_all m bufs f !! p = f !! p.
Proof.
  induction bufs as [|buf bufs IH] using rev_ind; [done|]. rewrite length_app; cbn. intros Hn.
  rewrite rename_all_snoc, lookup_insert_ne by (intros He; apply (Hn (length bufs)); [lia|done]).
  apply IH. intros i Hi. apply Hn. lia.
Qed.

(** What a map task leaves behind. *)
Definition map_files (m n : Z) (kvs : list KeyValue) (f : fs) : Prop :=
  ∀ i, (i < Z.to_nat n)%nat → f !! resolve (tmp_name m (Z.of_nat i)) = Some (Json (part n kvs i)).

Lemma tmp_buffers_parts n kvs :
  0 < n → tmp_buffers n kvs = Ok (part n kvs <$> seq 0 (Z.to_nat n)).
Proof. intros Hn. unfold tmp_buffers. by rewrite decide_False, encode_all_parts by lia. Qed.

Lemma writeIntoTmpFiles_spec m n kvs f :
  0 < n →
  ∃ f', writeIntoTmpFiles m n kvs f = Ok f' ∧ map_files m n kvs f' ∧
    (∀ p, (∀ i, (i < Z.to_nat n)%nat → p ≠ resolve (tmp_name m (Z.of_nat i))) → f' !! p = f !! p).
Proof.
  intros Hn. unfold writeIntoTmpFiles. rewrite tmp_buffers_parts by done. cbn.
  eexists. split; [done|].
  assert (length (part n kvs <$> seq 0 (Z.to_nat n)) = Z.to_nat n) as Hl
    by (by rewrite length_fmap, length_seq).
  split.
  - intros i Hi. rewrite rename_all_lookup by (by rewrite Hl).
    by rewrite list_lookup_fmap, lookup_seq_lt.
  - intros p Hp. apply rename_all_frame. by rewrite Hl.
Qed.

(** With no reduce task, the first record divides by zero. *)
Lemma writeIntoTmpFiles_zero m kvs f :
  writeIntoTmpFiles m 0 kvs f = Panic ↔ kvs ≠ [].
Proof.
  unfold writeIntoTmpFiles, tmp_buffers; cbn. destruct kvs as [|kv kvs]; cbn; [done|]. split; [done|]. intros _.
  assert (∀ l : list KeyValue, foldl (λ acc kv, encoders ← acc; encode 0 encoders kv) Panic l = Panic) as Hp.
  { induction l; cbn; done. }
  unfold encode_all; cbn. by rewrite Hp.
Qed.
End Names.
