(* ===== verification/Coordinator.v ===== *)
(** * MapReduce: the coordinator (src/src/mr/coordinator.go)

    The coordinator's tasks live in two slices; a [*Task] that [selectTask]
    returns is a [task_ref].  [RequestTask] is not one atomic step: it reads
    the phase, calls [selectTask] under the lock and then, without the lock,
    writes the worker and fills the reply; its parts are separate definitions
    here, composed in one piece by [RequestTask] and interleaved with
    everything else in the file MRSystem. *)
From S2P Require Import Prelude GoLib Paths MRWorker.
Local Open Scope Z_scope.

Inductive TaskStat := NotAssign | Assigned | Finished.
Inductive Phase := MapPhase | ReducePhase | AllDone.

#[export] Instance TaskStat_eq_dec : EqDecision TaskStat.
Proof. solve_decision. Defined.
#[export] Instance Phase_eq_dec : EqDecision Phase.
Proof. solve_decision. Defined.

Record Task := {
  t_TaskType : TaskType;
  t_TaskStat : TaskStat;
  t_InputFiles : list string;
  t_TaskID : Z;
  t_WorkerID : Z;
}.

Record Coordinator := {
  inputFiles : list string;
  nMap : Z;
  nReduce : Z;
  mapTask : list Task;
  reduceTask : list Task;
  phase : Phase;
}.

Record ReportTaskArgs := { ra_TaskType : TaskType; ra_TaskId : Z; ra_WorkerID : Z }.

Definition with_stat (s : TaskStat) (t : Task) : Task :=
  {| t_TaskType := t_TaskType t; t_TaskStat := s; t_InputFiles := t_InputFiles t;
     t_TaskID := t_TaskID t; t_WorkerID := t_WorkerID t |}.
Definition with_worker (w : Z) (t : Task) : Task :=
  {| t_TaskType := t_TaskType t; t_TaskStat := t_TaskStat t; t_InputFiles := t_InputFiles t;
     t_TaskID := t_TaskID t; t_WorkerID := w |}.

Definition with_mapTask (l : list Task) (c : Coordinator) : Coordinator :=
  {| inputFiles := inputFiles c; nMap := nMap c; nReduce := nReduce c;
     mapTask := l; reduceTask := reduceTask c; phase := phase c |}.
Definition with_reduceTask (l : list Task) (c : Coordinator) : Coordinator :=
  {| inputFiles := inputFiles c; nMap := nMap c; nReduce := nReduce c;
     mapTask := mapTask c; reduceTask := l; phase := phase c |}.
Definition with_nMap (n : Z) (c : Coordinator) : Coordinator :=
  {| inputFiles := inputFiles c; nMap := n; nReduce := nReduce c;
     mapTask := mapTask c; reduceTask := reduceTask c; phase := phase c |}.
Definition with_nReduce (n : Z) (c : Coordinator) : Coordinator :=
  {| inputFiles := inputFiles c; nMap := nMap c; nReduce := n;
     mapTask := mapTask c; reduceTask := reduceTask c; phase := phase c |}.
Definition with_phase (p : Phase) (c : Coordinator) : Coordinator :=
  {| inputFiles := inputFiles c; nMap := nMap c; nReduce := nReduce c;
     mapTask := mapTask c; reduceTask := reduceTask c; phase := p |}.

(** ** Pointers to tasks *)
Inductive task_ref :=
  | MapRef (i : nat)
  | ReduceRef (i : nat)
  | FreshRef.  (* the [&Task{WaitTask, ...}] that nothing else points to *)

#[export] Instance task_ref_eq_dec : EqDecision task_ref.
Proof. solve_decision. Defined.

Definition wait_task : Task :=
  {| t_TaskType := WaitTask; t_TaskStat := Finished; t_InputFiles := [];
     t_TaskID := -1; t_WorkerID := -1 |}.

Definition get_task (c : Coordinator) (r : task_ref) : option Task :=
  match r with
  | MapRef i => mapTask c !! i
  | ReduceRef i => reduceTask c !! i
  | FreshRef => Some wait_task
  end.

(** A write through the pointer. *)
Definition upd_task (r : task_ref) (f : Task → Task) (c : Coordinator) : Coordinator :=
  match r with
  | MapRef i => with_mapTask (alter f i (mapTask c)) c
  | ReduceRef i => with_reduceTask (alter f i (reduceTask c)) c
  | FreshRef => c
  end.

(** ** Requests *)

(** The loop of [selectTask]: the first task that is not assigned. *)
Fixpoint first_free (l : list Task) : option nat :=
  match l with
  | [] => None
  | t :: l => if decide (t_TaskStat t = NotAssign) then Some 0%nat else S <$> first_free l
  end.

Definition selectTask (p : Phase) (c : Coordinator) : Coordinator * task_ref :=
  let found := match p with
               | MapPhase => MapRef <$> first_free (mapTask c)
               | ReducePhase => ReduceRef <$> first_free (reduceTask c)
               | AllDone => None
               end in
  match found with
  | Some r => (upd_task r (with_stat Assigned) c, r)
  | None => (c, FreshRef)
  end.

(** [task.WorkerID = args.WorkerID] and the reply's fields. *)
Definition assign_worker (w : Z) (r : task_ref) (c : Coordinator) : Coordinator :=
  upd_task r (with_worker w) c.

Definition reply_of (r : task_ref) (c : Coordinator) : RequestTaskReplys :=
  let task := default wait_task (get_task c r) in
  {| rr_TaskType := t_TaskType task; rr_TaskID := t_TaskID task;
     rr_InputFiles := t_InputFiles task; rr_ReduceNum := nReduce c |}.

Definition exit_reply : RequestTaskReplys :=
  {| rr_TaskType := ExitTask; rr_TaskID := 0; rr_InputFiles := []; rr_ReduceNum := 0 |}.

(** The whole handler, undisturbed: the new state, the reply, and the timer
    that [go c.checkTimeout(...)] starts. *)
Definition RequestTask (w : Z) (c : Coordinator)
    : Coordinator * RequestTaskReplys * option (Z * task_ref) :=
  match phase c with
  | MapPhase | ReducePhase =>
      let '(c, r) := selectTask (phase c) c in
      let c := assign_worker w r c in
      (c, reply_of r c, Some (w, r))
  | AllDone => (c, exit_reply, None)
  end.

(** ** Timeouts: [checkTimeout] once its ten seconds are over *)
Definition timed_out (w : Z) (t : Task) : bool :=
  (bool_decide (t_WorkerID t = w) && bool_decide (t_TaskStat t = Assigned))
  || bool_decide (t_WorkerID t ≠ w).

Definition checkTimeout (w : Z) (r : task_ref) (c : Coordinator) : Coordinator :=
  match get_task c r with
  | None => c
  | Some t =>
      if decide (t_TaskStat t = Finished) then c
      else if timed_out w t then upd_task r (λ t, with_worker (-1) (with_stat NotAssign t)) c
      else c
  end.

(** ** Reports *)
Definition report_ref (args : ReportTaskArgs) (c : Coordinator) : outcome task_ref :=
  match ra_TaskType args with
  | MapTask => _ ← go_index (mapTask c) (ra_TaskId args); Ok (MapRef (Z.to_nat (ra_TaskId args)))
  | ReduceTask =>
      _ ← go_index (reduceTask c) (ra_TaskId args); Ok (ReduceRef (Z.to_nat (ra_TaskId args)))
  | _ => Panic  (* [task] stays nil, and is dereferenced below *)
  end.

Definition finish_task (r : task_ref) (t : Task) (c : Coordinator) : Coordinator :=
  let c := upd_task r (with_stat Finished) c in
  match t_TaskType t with
  | MapTask => with_nMap (nMap c + 1) c
  | ReduceTask => with_nReduce (nReduce c + 1) c
  | _ => c
  end.

Definition ReportTask (args : ReportTaskArgs) (c : Coordinator) : outcome Coordinator :=
  r ← report_ref args c;
  match get_task c r with
  | None => Panic
  | Some t =>
      if decide (t_WorkerID t = ra_WorkerID args ∧ t_TaskStat t = Assigned)
      then Ok (finish_task r t c) else Ok c
  end.

(** ** Phases *)
Definition new_task (ty : TaskType) (files : list string) (id : Z) : Task :=
  {| t_TaskType := ty; t_TaskStat := NotAssign; t_InputFiles := files;
     t_TaskID := id; t_WorkerID := -1 |}.

Definition makeMapTask (c : Coordinator) : outcome Coordinator :=
  tasks ← mapM (λ mapId, file ← go_index (inputFiles c) mapId;
                         Ok (new_task MapTask [file] mapId)) (seqZ 0 (nMap c));
  Ok (with_nMap 0 (with_mapTask (mapTask c ++ tasks) c)).

(** [glob reduceId] is what [filepath.Glob] finds for [mr-*-reduceId]. *)
Definition makeReduceTask (glob : Z → list string) (c : Coordinator) : Coordinator :=
  let tasks := (λ reduceId, new_task ReduceTask (glob reduceId) reduceId) <$> seqZ 0 (nReduce c) in
  with_nReduce 0 (with_reduceTask (reduceTask c ++ tasks) c).

(** One turn of [checkPhase]'s loop, under the lock. *)
Definition checkPhase (glob : Z → list string) (c : Coordinator) : Coordinator :=
  match phase c with
  | MapPhase =>
      if decide (nMap c = go_len (mapTask c)) then makeReduceTask glob (with_phase ReducePhase c)
      else c
  | ReducePhase =>
      if decide (nReduce c = go_len (reduceTask c)) then with_phase AllDone c else c
  | AllDone => c
  end.

Definition Done (c : Coordinator) : bool := bool_decide (phase c = AllDone).

Definition MakeCoordinator (files : list string) (nReduce : Z) : outcome Coordinator :=
  makeMapTask {| inputFiles := files; nMap := go_len files; nReduce := nReduce;
                 mapTask := []; reduceTask := []; phase := MapPhase |}.

Definition Example_rpc (x : Z) : Z := x + 1.

(** ** [filepath.Glob("./tmp/mr-*-%d")]

    The star matches any characters but a slash, in the names of the entries
    of the directory; [filepath.Join] cleans what is found to [tmp/mr-0-0]. *)
Definition glob_match (reduceId : Z) (name : string) : bool :=
  let pre := chars "mr-" in
  let suf := chars ("-" +:+ pretty reduceId) in
  let rest := drop (length pre) (chars name) in
  let star := take (length rest - length suf) rest in
  bool_decide (pre `prefix_of` chars name) && bool_decide (suf `suffix_of` rest)
  && bool_decide (slash ∉ star).

Definition Glob `{Cwd} `{GoSort} (f : fs) (reduceId : Z) : list string :=
  (λ name, "tmp/" +:+ name) <$>
    filter (λ name, glob_match reduceId name = true) (go_sort String.ltb (entries f (resolve TempDir))).

(** [createTmpDir]: every entry of the directory is removed.  [./tmp] is no
    regular file. *)
Definition in_tmp `{Cwd} (p : path) : bool :=
  match below (resolve TempDir) p with Some (_ :: _) => true | _ => false end.

Definition createTmpDir `{Cwd} (f : fs) : fs := filter (λ x, in_tmp x.1 = false) f.

(** ** Facts about the operations *)
Lemma get_upd_task r r' g c :
  get_task (upd_task r g c) r' =
    if decide (r = r' ∧ r ≠ FreshRef) then g <$> get_task c r' else get_task c r'.
Proof.
  destruct r as [i|i|], r' as [j|j|]; cbn; case_decide as Hd; try (by destruct Hd as [? _]);
    try (by destruct Hd as [_ []]); try done.
  - destruct Hd as [[= ->] _]. by rewrite list_lookup_alter_eq.
  - rewrite list_lookup_alter_ne; [done|]. intros ->. by destruct Hd.
  - destruct Hd as [[= ->] _]. by rewrite list_lookup_alter_eq.
  - rewrite list_lookup_alter_ne; [done|]. intros ->. by destruct Hd.
Qed.

Lemma first_free_Some l i :
  first_free l = Some i ↔
  (∃ t, l !! i = Some t ∧ t_TaskStat t = NotAssign) ∧
  ∀ j t, (j < i)%nat → l !! j = Some t → t_TaskStat t ≠ NotAssign.
Proof.
  revert i. induction l as [|t l IH]; intros i; cbn.
  { split; [done|]. by intros [(t & ? & _) _]. }
  case_decide as Ht.
  - split.
    + intros [= <-]. split; [eauto|lia].
    + intros [(t' & Hi & Ht') Hmin]. destruct i as [|i]; [done|].
      by destruct (Hmin 0%nat t ltac:(lia) eq_refl).
  - rewrite fmap_Some. split.
    + intros (k & Hk & ->). apply IH in Hk as [(t' & ? & ?) Hmin]. split; [eauto|].
      intros [|j] t'' Hj Hl; cbn in Hl; [congruence|]. apply (Hmin j t''); [lia|done].
    + intros [(t' & Hi & Ht') Hmin]. destruct i as [|i]; [cbn in Hi; congruence|].
      exists i. split; [|done]. apply IH. split; [eauto|].
      intros j t'' Hj Hl. apply (Hmin (S j) t''); [lia|exact Hl].
Qed.

Lemma first_free_None l : first_free l = None ↔ Forall (λ t, t_TaskStat t ≠ NotAssign) l.
Proof.
  induction l as [|t l IH]; cbn; [by split|]. rewrite Forall_cons.
  case_decide; [by split; [|tauto]|]. rewrite fmap_None, IH. tauto.
Qed.

(** ** What [Glob] finds *)
Section Globbing.
Context `{Cwd} `{GoSort}.

(** The name under which [Glob] answers a file of reduce task [i]. *)
Definition glob_name (m i : Z) : string := "tmp/" +:+ tmp_base m i.

Lemma resolve_glob_name m i : resolve (glob_name m i) = resolve (tmp_name m i).
Proof.
  rewrite resolve_tmp. change (glob_name m i) with ("tmp" +:+ "/" +:+ tmp_base m i). unfold resolve.
  rewrite components_slash, components_one by (apply no_slash_tmp || (unfold no_slash; set_solver)).
  cbn [foldl]. rewrite !walk_name by set_solver. done.
Qed.

Lemma in_tmp_true p : in_tmp p = true ↔ ∃ e r, p = tmp_dir ++ e :: r.
Proof.
  unfold in_tmp. rewrite resolve_TempDir. destruct (below tmp_dir p) as [[|e r]|] eqn:Hb.
  - apply below_Some in Hb as ->. split; [done|]. intros (e & r & He%(inj (tmp_dir ++.))). done.
  - apply below_Some in Hb as ->. split; [|done]. eauto.
  - split; [done|]. intros (e & r & Hp%below_Some). congruence.
Qed.

Lemma elem_of_Glob f reduceId name :
  name ∈ Glob f reduceId ↔
    ∃ e r, name = "tmp/" +:+ e ∧ is_Some (f !! (tmp_dir ++ e :: r)) ∧ glob_match reduceId e = true.
Proof.
  unfold Glob. rewrite list_elem_of_fmap. setoid_rewrite list_elem_of_filter.
  setoid_rewrite go_sort_perm. setoid_rewrite elem_of_entries. rewrite resolve_TempDir. naive_solver.
Qed.

Lemma NoDup_Glob f reduceId : NoDup (Glob f reduceId).
Proof.
  apply NoDup_fmap_2; [apply _|]. apply NoDup_filter. rewrite go_sort_perm. apply NoDup_entries.
Qed.

Lemma tmp_base_chars m i :
  chars (tmp_base m i) = chars "mr-" ++ chars (pretty m) ++ dash :: chars (pretty i).
Proof. unfold tmp_base. by rewrite !chars_app. Qed.

(** A file of reduce task [i] is matched by its own pattern only. *)
Lemma glob_match_tmp m i reduceId :
  0 ≤ m → 0 ≤ i → 0 ≤ reduceId → glob_match reduceId (tmp_base m i) = true ↔ i = reduceId.
Proof.
  intros Hm Hi Hr. unfold glob_match. rewrite tmp_base_chars, drop_app_length.
  rewrite (chars_app "-"). change (chars "-" ++ chars (pretty reduceId)) with (dash :: chars (pretty reduceId)).
  rewrite !andb_true_iff, !bool_decide_eq_true. split.
  - intros [[_ [k Hk]] _]. apply split_right in Hk as [_ Hk%(inj chars)%(inj pretty)]; [done|..];
      by apply pretty_no_dash.
  - intros ->. split_and!; [by apply prefix_app_r|by eexists|].
    rewrite length_app, Nat.add_sub, take_app_length. apply pretty_no_slash.
Qed.

Lemma tmp_name_in_tmp m i : in_tmp (resolve (tmp_name m i)) = true.
Proof. apply in_tmp_true. rewrite resolve_tmp. by eexists _, []. Qed.

Lemma out_name_not_in_tmp r : in_tmp (resolve (out_name r)) = false.
Proof.
  apply not_true_iff_false. rewrite in_tmp_true, resolve_out. intros (e & l & He).
  unfold tmp_dir in He. rewrite <-(assoc_L (++)) in He. apply (inj (cwd ++.)) in He. discriminate He.
Qed.

Lemma createTmpDir_lookup f p :
  createTmpDir f !! p = if in_tmp p then None else f !! p.
Proof.
  unfold createTmpDir. rewrite map_lookup_filter. destruct (f !! p); cbn; [|by destruct (in_tmp p)].
  destruct (in_tmp p) eqn:Hin; case_guard; done || congruence.
Qed.
End Globbing.
