(* ===== verification/MRSystem.v ===== *)
(** * MapReduce as a concurrent system

    The coordinator, any number of workers, their requests in progress, the
    ten-second timers and the file system.  A request is split at the points
    where the source does not hold the lock; a map task renames its files one
    step at a time, so that other workers, timeouts and crashes come between.

    [mr_done_correct]: however the steps interleave, once [Done] answers
    [true], the output files hold the lines of the sequential program. *)
From S2P Require Import Prelude GoLib Paths MRWorker Coordinator.
Local Open Scope Z_scope.

(** ** States *)

(** Where a [RequestTask] call is. *)
Inductive hstate :=
  | HStart                  (* line 63: [if c.phase == MapPhase] *)
  | HElse                   (* line 77: [else if c.phase == ReducePhase] *)
  | HArg                    (* lines 65, 80: the argument of [selectTask] *)
  | HSelect (p : Phase)     (* inside [selectTask], waiting for the lock *)
  | HFill (r : task_ref).   (* lines 66-75: no lock *)

(** Where a worker's loop is. *)
Inductive wstate :=
  | WIdle
  | WWait                                            (* in [requestTask] *)
  | WDo (reply : RequestTaskReplys)                  (* before the switch *)
  | WRename (mapId : Z) (bufs : list (list KeyValue)) (i : nat)
  | WReport (args : ReportTaskArgs)
  | WExit.                                           (* exited or crashed *)

Record mr := {
  co : Coordinator;
  disk : fs;
  handlers : gmap Z hstate;
  timers : list (Z * task_ref);
  workers : gmap Z wstate;
}.

Definition set_handler (w : Z) (h : hstate) (s : mr) : mr :=
  {| co := co s; disk := disk s; handlers := <[w := h]> (handlers s);
     timers := timers s; workers := workers s |}.
Definition set_worker (w : Z) (x : wstate) (s : mr) : mr :=
  {| co := co s; disk := disk s; handlers := handlers s;
     timers := timers s; workers := <[w := x]> (workers s) |}.
Definition with_co (c : Coordinator) (s : mr) : mr :=
  {| co := c; disk := disk s; handlers := handlers s; timers := timers s; workers := workers s |}.
Definition with_disk (f : fs) (s : mr) : mr :=
  {| co := co s; disk := f; handlers := handlers s; timers := timers s; workers := workers s |}.
Definition with_timers (l : list (Z * task_ref)) (s : mr) : mr :=
  {| co := co s; disk := disk s; handlers := handlers s; timers := l; workers := workers s |}.

(** The reply of a finished call reaches the worker if it still waits. *)
Definition deliver (w : Z) (reply : RequestTaskReplys) (s : mr) : mr :=
  {| co := co s; disk := disk s; handlers := delete w (handlers s); timers := timers s;
     workers := match workers s !! w with
                | Some WWait => <[w := WDo reply]> (workers s)
                | _ => workers s
                end |}.

Section System.
Context `{Cwd} `{GoSort}.
Context (mapf : string → string → list KeyValue) (reducef : string → list string → string).

(** The part of [doMap] before the renames. *)
Definition map_buffers (reply : RequestTaskReplys) (f : fs) : outcome (list (list KeyValue)) :=
  intermediate ← read_inputs mapf f (rr_InputFiles reply);
  tmp_buffers (rr_ReduceNum reply) (go_sort ByKey_Less intermediate).

Lemma doMap_renames reply f :
  doMap mapf reply f = (bufs ← map_buffers reply f; mret (rename_all (rr_TaskID reply) bufs f)).
Proof. unfold doMap, map_buffers, writeIntoTmpFiles. by destruct (read_inputs _ _ _). Qed.

Definition report_args (reply : RequestTaskReplys) (w : Z) : ReportTaskArgs :=
  {| ra_TaskType := rr_TaskType reply; ra_TaskId := rr_TaskID reply; ra_WorkerID := w |}.

Inductive mr_step : mr → option unit → mr → Prop :=
  (* the coordinator's side of a request *)
  | mr_if_map s w :
      handlers s !! w = Some HStart → phase (co s) = MapPhase →
      mr_step s None (set_handler w HArg s)
  | mr_if_not_map s w :
      handlers s !! w = Some HStart → phase (co s) ≠ MapPhase →
      mr_step s None (set_handler w HElse s)
  | mr_else_reduce s w :
      handlers s !! w = Some HElse → phase (co s) = ReducePhase →
      mr_step s None (set_handler w HArg s)
  | mr_else_exit s w :
      handlers s !! w = Some HElse → phase (co s) ≠ ReducePhase →
      mr_step s None (deliver w exit_reply s)
  | mr_arg s w :
      handlers s !! w = Some HArg →
      mr_step s None (set_handler w (HSelect (phase (co s))) s)
  | mr_select s w p c' r :
      handlers s !! w = Some (HSelect p) → selectTask p (co s) = (c', r) →
      mr_step s None (set_handler w (HFill r) (with_co c' s))
  | mr_fill s w r :
      handlers s !! w = Some (HFill r) →
      mr_step s None
        (let c := assign_worker w r (co s) in
         deliver w (reply_of r c) (with_timers ((w, r) :: timers s) (with_co c s)))
  (* timers and phases *)
  | mr_timeout s l1 w r l2 :
      timers s = l1 ++ (w, r) :: l2 →
      mr_step s None (with_timers (l1 ++ l2) (with_co (checkTimeout w r (co s)) s))
  | mr_tick s :
      mr_step s None (with_co (checkPhase (Glob (disk s)) (co s)) s)
  (* workers *)
  | mr_new s w :
      0 < w → workers s !! w = None → handlers s !! w = None →
      mr_step s None (set_worker w WIdle s)
  | mr_request s w :
      workers s !! w = Some WIdle →
      mr_step s None (set_worker w WWait (set_handler w HStart s))
  | mr_map s w reply bufs :
      workers s !! w = Some (WDo reply) → rr_TaskType reply = MapTask →
      map_buffers reply (disk s) = Ok bufs →
      mr_step s None (set_worker w (WRename (rr_TaskID reply) bufs 0) s)
  | mr_rename s w m bufs i buf :
      workers s !! w = Some (WRename m bufs i) → bufs !! i = Some buf →
      mr_step s None
        (set_worker w (WRename m bufs (S i))
           (with_disk (<[resolve (tmp_name m (Z.of_nat i)) := Json buf]> (disk s)) s))
  | mr_mapped s w m bufs i :
      workers s !! w = Some (WRename m bufs i) → bufs !! i = None →
      mr_step s None
        (set_worker w (WReport {| ra_TaskType := MapTask; ra_TaskId := m; ra_WorkerID := w |}) s)
  | mr_reduce s w reply :
      workers s !! w = Some (WDo reply) → rr_TaskType reply = ReduceTask →
      mr_step s None
        (set_worker w (WReport (report_args reply w)) (with_disk (doReduce reducef reply (disk s)) s))
  | mr_sleep s w reply :
      workers s !! w = Some (WDo reply) → rr_TaskType reply = WaitTask →
      mr_step s None (set_worker w WIdle s)
  | mr_exit s w reply :
      workers s !! w = Some (WDo reply) → rr_TaskType reply = ExitTask →
      mr_step s None (set_worker w WExit s)
  | mr_report s w args c' :
      workers s !! w = Some (WReport args) → ReportTask args (co s) = Ok c' →
      mr_step s None (set_worker w WIdle (with_co c' s))
  | mr_crash s w x :
      workers s !! w = Some x → mr_step s None (set_worker w WExit s).

(** [MakeCoordinator] on a disk. *)
Definition mr_init (files : list string) (nReduce : Z) (f : fs) (s : mr) : Prop :=
  ∃ c, MakeCoordinator files nReduce = Ok c ∧
    s = {| co := c; disk := createTmpDir f; handlers := ∅; timers := []; workers := ∅ |}.
End System.

(** ** Finished tasks, counted *)
Definition finished (l : list Task) : Z :=
  Z.of_nat (length (filter (λ t, t_TaskStat t = Finished) l)).

Lemma finished_alter l i t g :
  l !! i = Some t → (t_TaskStat (g t) = Finished ↔ t_TaskStat t = Finished) →
  finished (alter g i l) = finished l.
Proof.
  unfold finished. revert i. induction l as [|x l IH]; intros [|i] Hi Hg; cbn in Hi; try done.
  - injection Hi as ->. cbn [alter list_alter]. rewrite !filter_cons.
    repeat case_decide; tauto || done.
  - cbn [alter list_alter]. rewrite !filter_cons. specialize (IH i Hi Hg).
    case_decide; cbn [length]; unfold alter in *; lia.
Qed.

Lemma finished_alter_succ l i t g :
  l !! i = Some t → t_TaskStat t ≠ Finished → t_TaskStat (g t) = Finished →
  finished (alter g i l) = finished l + 1.
Proof.
  unfold finished. revert i. induction l as [|x l IH]; intros [|i] Hi Ht Hg; cbn in Hi; try done.
  - injection Hi as ->. cbn [alter list_alter]. rewrite !filter_cons.
    repeat case_decide; tauto || cbn [length]; lia.
  - cbn [alter list_alter]. rewrite !filter_cons. specialize (IH i Hi Ht Hg).
    case_decide; cbn [length]; unfold alter in *; lia.
Qed.

Lemma finished_all l : finished l = go_len l → Forall (λ t, t_TaskStat t = Finished) l.
Proof.
  unfold finished, go_len. induction l as [|t l IH]; [constructor|]. rewrite filter_cons.
  case_decide as Ht; cbn [length]; intros Hlen.
  - constructor; [done|]. apply IH. lia.
  - pose proof (length_filter (λ t, t_TaskStat t = Finished) l). lia.
Qed.

Lemma finished_none l : Forall (λ t, t_TaskStat t ≠ Finished) l → finished l = 0.
Proof.
  unfold finished. induction 1 as [|t l Ht Hl IH]; [done|]. by rewrite filter_cons_False.
Qed.
