(* ===== verification/MRCorrect.v ===== *)
(** * MapReduce: the job computes what the sequential program computes

    The invariant of [mr_step] has four parts: the coordinator's counters and
    tasks ([co_ok]), who owns a task that is assigned ([own_ok]), what is on
    disk ([disk_ok], with [fin_ok] for the tasks marked finished) and what each
    worker is about to do ([worker_ok]). *)
From S2P Require Import Prelude GoLib Utf8 Paths MRWorker Coordinator MRSystem.
Local Open Scope Z_scope.

Section Correct.
Context `{Cwd} `{GoSort}.
Context (mapf : string → string → list KeyValue) (reducef : string → list string → string).
Context (files : list string) (n : Z) (f0 : fs).
Hypothesis Hn : 0 < n.
(** The input files are text, outside the directory of temporary files, and
    none of them is an output file of the job. *)
Hypothesis Hinput : ∀ file, file ∈ files →
  (∃ s, createTmpDir f0 !! resolve file = Some (Text s)) ∧
  ∀ r, 0 ≤ r < n → resolve file ≠ resolve (out_name r).

Local Abbreviation mr_step := (mr_step mapf reducef).

(** ** What the tasks should produce *)
Definition M : nat := length files.

Definition input_of (m : nat) : list KeyValue :=
  match files !! m with
  | Some file =>
      match createTmpDir f0 !! resolve file with Some (Text s) => mapf file s | _ => [] end
  | None => []
  end.

Definition kvs_of (m : nat) : list KeyValue := go_sort ByKey_Less (input_of m).

Definition all_kvs : list KeyValue := seq 0 M ≫= input_of.

(** The file that map task [m] writes for reduce task [i]. *)
Definition tmp_ok (m i : nat) (f : fs) : Prop :=
  f !! resolve (tmp_name (Z.of_nat m) (Z.of_nat i)) = Some (Json (part n (kvs_of m) i)).

Definition map_ok (m : nat) (f : fs) : Prop := ∀ i, (i < Z.to_nat n)%nat → tmp_ok m i f.

(** The output file of reduce task [r], for some order of the values. *)
Definition out_ok (r : nat) (f : fs) : Prop :=
  ∃ kvs, kvs ≡ₚ part n all_kvs r ∧
    f !! resolve (out_name (Z.of_nat r)) = Some (Text (concat_lines (reduce_lines reducef kvs))).

(** The files a reduce task reads. *)
Definition inputs_ok (r : nat) (names : list string) : Prop :=
  NoDup names ∧
  ∀ name, name ∈ names ↔ ∃ m, (m < M)%nat ∧ name = glob_name (Z.of_nat m) (Z.of_nat r).

(** ** The disk *)
Record disk_ok (f : fs) : Prop := {
  d_inputs file : file ∈ files → f !! resolve file = createTmpDir f0 !! resolve file;
  d_tmp p x : f !! p = Some x → in_tmp p = true →
    ∃ m i, (m < M)%nat ∧ (i < Z.to_nat n)%nat ∧ p = resolve (tmp_name (Z.of_nat m) (Z.of_nat i));
}.

(** [f'] keeps everything that is right in [f]. *)
Record keeps (f f' : fs) : Prop := {
  k_tmp m i : tmp_ok m i f → tmp_ok m i f';
  k_out r : out_ok r f → out_ok r f';
}.

#[local] Instance keeps_preorder : PreOrder keeps.
Proof. split; [by split|]. intros f1 f2 f3 [? ?] [? ?]. split; auto. Qed.

Lemma keeps_map f f' m : keeps f f' → map_ok m f → map_ok m f'.
Proof. intros Hk Hm i Hi. by apply Hk, Hm. Qed.

Lemma input_not_tmp file : file ∈ files → in_tmp (resolve file) = false.
Proof using Hinput.
  intros Hf. destruct (Hinput _ Hf) as [[s Hs] _]. rewrite createTmpDir_lookup in Hs.
  by destruct (in_tmp (resolve file)).
Qed.

Lemma tmp_ne_out m i r : resolve (tmp_name m i) ≠ resolve (out_name r).
Proof. intros He. pose proof (tmp_name_in_tmp m i) as Ht. by rewrite He, out_name_not_in_tmp in Ht. Qed.

(** A rename of a map task. *)
Lemma write_tmp f m i :
  (m < M)%nat → (i < Z.to_nat n)%nat → disk_ok f →
  let f' := <[resolve (tmp_name (Z.of_nat m) (Z.of_nat i)) := Json (part n (kvs_of m) i)]> f in
  disk_ok f' ∧ keeps f f' ∧ tmp_ok m i f'.
Proof using Hinput.
  intros Hm Hi [Hin Htmp] f'. split_and!.
  - split.
    + intros file Hf. subst f'. rewrite lookup_insert_ne; [auto|]. intros He.
      apply input_not_tmp in Hf. by rewrite <-He, tmp_name_in_tmp in Hf.
    + intros name x [[<- _]|[_ Hx]]%lookup_insert_Some Hname; [eauto|by eapply Htmp].
  - split.
    + intros m' i' Ht. unfold tmp_ok in *. subst f'. rewrite lookup_insert. case_decide as Heq; [|done].
      apply tmp_name_inj in Heq as [<-%Nat2Z.inj <-%Nat2Z.inj]; [done|lia..].
    + intros r (kvs & Hp & Hr). exists kvs. split; [done|]. subst f'.
      rewrite lookup_insert_ne; [done|]. apply tmp_ne_out.
  - apply lookup_insert_eq.
Qed.

(** A reduce task's output. *)
Lemma write_out f r kvs :
  disk_ok f → (r < Z.to_nat n)%nat → kvs ≡ₚ part n all_kvs r →
  let f' := <[resolve (out_name (Z.of_nat r)) := Text (concat_lines (reduce_lines reducef kvs))]> f in
  disk_ok f' ∧ keeps f f' ∧ out_ok r f'.
Proof using Hn Hinput.
  intros [Hin Htmp] Hr Hp f'. split_and!.
  - split.
    + intros file Hf. subst f'. rewrite lookup_insert_ne; [auto|].
      intros He. destruct (Hinput _ Hf) as [_ Hne]. by destruct (Hne (Z.of_nat r)); [lia|].
    + intros name x [[<- _]|[_ Hx]]%lookup_insert_Some Hname; [|by eapply Htmp].
      by rewrite out_name_not_in_tmp in Hname.
  - split.
    + intros m' i' Ht. unfold tmp_ok in *. subst f'.
      rewrite lookup_insert_ne; [done|]. intros He. by eapply tmp_ne_out.
    + intros r' (kvs' & Hp' & Hk'). unfold out_ok. subst f'. rewrite lookup_insert.
      case_decide as He; [|by exists kvs'].
      apply out_name_inj, Nat2Z.inj in He as <-. by exists kvs.
  - exists kvs. split; [done|]. apply lookup_insert_eq.
Qed.

Lemma Glob_inputs f r :
  (∀ m, (m < M)%nat → map_ok m f) → disk_ok f → (r < Z.to_nat n)%nat →
  inputs_ok r (Glob f (Z.of_nat r)).
Proof.
  intros Hall [_ Htmp] Hr. split; [apply NoDup_Glob|]. intros name. rewrite elem_of_Glob. split.
  - intros (e & l & -> & [x Hx] & Hmatch).
    destruct (Htmp _ _ Hx) as (m & i & Hm & Hi & He); [apply in_tmp_true; eauto|].
    rewrite resolve_tmp in He. apply (inj (tmp_dir ++.)) in He as [= -> _].
    exists m. split; [done|]. by apply glob_match_tmp in Hmatch as ->; [|lia..].
  - intros (m & Hm & ->). exists (tmp_base (Z.of_nat m) (Z.of_nat r)), [].
    split_and!; [done|by rewrite <-resolve_tmp, (Hall m Hm r Hr)|apply glob_match_tmp; lia].
Qed.

Lemma part_app kvs kvs' i : part n (kvs ++ kvs') i = part n kvs i ++ part n kvs' i.
Proof. unfold part, in_bucket. by rewrite filter_app, fmap_app. Qed.

Lemma part_perm kvs kvs' i : kvs ≡ₚ kvs' → part n kvs i ≡ₚ part n kvs' i.
Proof. unfold part, in_bucket. by intros ->. Qed.

(** The records a reduce task reads are those of its part. *)
Lemma inputs_records f r names :
  inputs_ok r names → (∀ m, (m < M)%nat → map_ok m f) → (r < Z.to_nat n)%nat →
  names ≫= decode f ≡ₚ part n all_kvs r.
Proof.
  intros [Hnd Hel] Hall Hr.
  assert (names ≡ₚ (λ m, glob_name (Z.of_nat m) (Z.of_nat r)) <$> seq 0 M) as ->.
  { apply NoDup_Permutation; [done| |].
    - apply NoDup_fmap_2; [|apply NoDup_seq].
      intros m m' He%(f_equal resolve). rewrite !resolve_glob_name in He.
      apply tmp_name_inj in He as [? _]; lia.
    - intros name. rewrite Hel, list_elem_of_fmap. setoid_rewrite elem_of_seq. naive_solver lia. }
  unfold all_kvs. assert (∀ m, m ∈ seq 0 M → (m < M)%nat) as Hseq
    by (intros m Hm%elem_of_seq; lia).
  induction (seq 0 M) as [|m l IH]; [done|]. cbn [fmap list_fmap].
  rewrite !bind_cons, part_app, IH by (intros; apply Hseq; by right).
  apply Permutation_app_tail. unfold decode. rewrite resolve_glob_name, (Hall m ltac:(apply Hseq; left) r Hr).
  unfold kvs_of. apply part_perm, (go_sort_perm ByKey_Less).
Qed.

(** ** The coordinator *)
Definition all_finished (l : list Task) : Prop := Forall (λ t, t_TaskStat t = Finished) l.

Record co_ok (c : Coordinator) : Prop := {
  c_maps : length (mapTask c) = M;
  c_map m t : mapTask c !! m = Some t →
    t_TaskType t = MapTask ∧ t_TaskID t = Z.of_nat m ∧
    ∃ file, files !! m = Some file ∧ t_InputFiles t = [file];
  c_red r t : reduceTask c !! r = Some t →
    t_TaskType t = ReduceTask ∧ t_TaskID t = Z.of_nat r ∧ inputs_ok r (t_InputFiles t);
  c_phase :
    match phase c with
    | MapPhase => nReduce c = n ∧ nMap c = finished (mapTask c) ∧ reduceTask c = []
    | ReducePhase =>
        all_finished (mapTask c) ∧ go_len (reduceTask c) = n ∧
        nReduce c = finished (reduceTask c)
    | AllDone =>
        all_finished (mapTask c) ∧ go_len (reduceTask c) = n ∧ all_finished (reduceTask c)
    end;
}.

Record fin_ok (c : Coordinator) (f : fs) : Prop := {
  f_map m t : mapTask c !! m = Some t → t_TaskStat t = Finished → map_ok m f;
  f_red r t : reduceTask c !! r = Some t → t_TaskStat t = Finished → out_ok r f;
}.

Lemma fin_keeps c f f' : keeps f f' → fin_ok c f → fin_ok c f'.
Proof. intros Hk [? ?]. split; intros; [eapply keeps_map|apply Hk]; eauto. Qed.

Lemma maps_done c f m :
  co_ok c → fin_ok c f → phase c ≠ MapPhase → (m < M)%nat → map_ok m f.
Proof.
  intros Hco Hfin Hp Hm. rewrite <-(c_maps _ Hco) in Hm.
  destruct (lookup_lt_is_Some_2 _ _ Hm) as [t Ht]. apply (f_map _ _ Hfin _ _ Ht).
  pose proof (c_phase _ Hco) as Hph. destruct (phase c); [done|..];
    destruct Hph as [Hall _]; by apply (Forall_lookup_1 _ _ _ _ Hall Ht).
Qed.

(** A task may change hands without touching the counters. *)
Record neutral (g : Task → Task) (t : Task) : Prop := {
  g_type : t_TaskType (g t) = t_TaskType t;
  g_id : t_TaskID (g t) = t_TaskID t;
  g_files : t_InputFiles (g t) = t_InputFiles t;
  g_open : t_TaskStat t ≠ Finished ∧ t_TaskStat (g t) ≠ Finished;
}.

Lemma all_finished_lookup l i t :
  all_finished l → l !! i = Some t → t_TaskStat t ≠ Finished → False.
Proof. intros Hall Hi Ht. by apply Ht, (Forall_lookup_1 _ _ _ _ Hall Hi). Qed.

Lemma co_upd c r t g :
  co_ok c → get_task c r = Some t → neutral g t → co_ok (upd_task r g c).
Proof.
  intros [Hlen Hmap Hred Hph] Ht [Hty Hid Hfi [Ho Ho']].
  destruct r as [i|i|]; cbn in *; [| |by split].
  - split; cbn; [by rewrite length_alter| |done|].
    + intros m t' Hm. destruct (decide (i = m)) as [->|Hne].
      * rewrite list_lookup_alter_eq, Ht in Hm. injection Hm as <-.
        rewrite Hty, Hid, Hfi. by apply Hmap.
      * rewrite list_lookup_alter_ne in Hm by done. by apply Hmap.
    + destruct (phase c); [|by destruct Hph as [Hf _]; destruct (all_finished_lookup _ _ _ Hf Ht Ho)..].
      by rewrite (finished_alter _ _ t).
  - split; cbn; [done|done| |].
    + intros m t' Hm. destruct (decide (i = m)) as [->|Hne].
      * rewrite list_lookup_alter_eq, Ht in Hm. injection Hm as <-.
        rewrite Hty, Hid, Hfi. by apply Hred.
      * rewrite list_lookup_alter_ne in Hm by done. by apply Hred.
    + destruct (phase c).
      * destruct Hph as (_ & _ & He). by rewrite He in Ht.
      * unfold go_len. rewrite length_alter. by rewrite (finished_alter _ _ t).
      * destruct Hph as (_ & _ & Hf). by destruct (all_finished_lookup _ _ _ Hf Ht Ho).
Qed.

Lemma fin_upd c f r t g :
  fin_ok c f → get_task c r = Some t → neutral g t → fin_ok (upd_task r g c) f.
Proof.
  intros [Hm Hr] Ht [_ _ _ [_ Ho']]. destruct r as [i|i|]; cbn in *; split; cbn; try done;
    intros m t' Hm' Hf; (destruct (decide (i = m)) as [->|Hne];
      [rewrite list_lookup_alter_eq, Ht in Hm'; by injection Hm' as <-
      |rewrite list_lookup_alter_ne in Hm' by done; eauto]).
Qed.

Lemma selectTask_cases p c c' r :
  selectTask p c = (c', r) →
  (r = FreshRef ∧ c' = c) ∨
  (∃ t, r ≠ FreshRef ∧ get_task c r = Some t ∧ t_TaskStat t = NotAssign ∧
        c' = upd_task r (with_stat Assigned) c).
Proof.
  unfold selectTask. intros Hs.
  destruct (match p with MapPhase => _ | ReducePhase => _ | AllDone => _ end) as [r'|] eqn:Hfound;
    injection Hs as <- <-; [right|by left].
  destruct p; [| |done]; apply fmap_Some in Hfound as (i & Hi & ->);
    apply first_free_Some in Hi as [(t & Ht & Hst) _]; exists t; by split_and!.
Qed.

(** [checkPhase] moves on when every task of the phase is finished. *)
Lemma tick_cases c f :
  co_ok c → fin_ok c f → disk_ok f →
  co_ok (checkPhase (Glob f) c) ∧ fin_ok (checkPhase (Glob f) c) f ∧
  (∀ r, is_Some (get_task c r) → get_task (checkPhase (Glob f) c) r = get_task c r) ∧
  (∀ r t, get_task c r = None → get_task (checkPhase (Glob f) c) r = Some t → t_WorkerID t = -1).
Proof using Hn.
  intros Hco Hfin Hd. pose proof Hco as [Hlen Hmap Hred Hph]. unfold checkPhase.
  destruct (phase c) eqn:Hp; [| |by split_and!; [..|congruence]].
  - case_decide as Hcnt; [|by split_and!; [..|congruence]]. destruct Hph as (Hnr & Hnm & Hempty).
    rewrite Hcnt in Hnm. symmetry in Hnm. apply finished_all in Hnm as Hall.
    assert (∀ m, (m < M)%nat → map_ok m f) as Hmaps.
    { intros m Hm. rewrite <-Hlen in Hm. destruct (lookup_lt_is_Some_2 _ _ Hm) as [t Ht].
      apply (f_map _ _ Hfin _ _ Ht). by apply (Forall_lookup_1 _ _ _ _ Hall Ht). }
    unfold makeReduceTask; cbn. rewrite Hnr, Hempty; cbn [app].
    assert (∀ r t, ((λ reduceId, new_task ReduceTask (Glob f reduceId) reduceId) <$> seqZ 0 n) !! r = Some t →
      t = new_task ReduceTask (Glob f (Z.of_nat r)) (Z.of_nat r) ∧ (r < Z.to_nat n)%nat) as Hnew.
    { intros r t Ht. rewrite list_lookup_fmap in Ht. apply fmap_Some in Ht as (i & Hi & ->).
      apply lookup_seqZ in Hi as [-> Hi]. rewrite Z.add_0_l. split; [done|lia]. }
    split_and!.
    + split; cbn; [done|done| |].
      * intros r t Ht. destruct (Hnew _ _ Ht) as [-> Hr]. cbn. split_and!; [done|done|].
        by apply Glob_inputs.
      * split_and!; [done|unfold go_len; rewrite length_fmap, length_seqZ; lia|].
        symmetry. apply finished_none, Forall_fmap, Forall_forall. intros; cbn. done.
    + split; cbn; [by apply Hfin|]. intros r t Ht. by destruct (Hnew _ _ Ht) as [-> _].
    + intros [i|i|] [t Ht]; cbn in *; [done|by rewrite Hempty in Ht|done].
    + intros [i|i|] t; cbn; [congruence| |done]. intros _ Ht. by destruct (Hnew _ _ Ht) as [-> _].
  - case_decide as Hcnt; [|by split_and!; [..|congruence]]. destruct Hph as (Hall & Hlr & Hnr).
    rewrite Hcnt in Hnr. symmetry in Hnr. apply finished_all in Hnr.
    split_and!; [by split|by destruct Hfin|by intros [i|i|]|].
    intros [i|i|] t; cbn; congruence.
Qed.

(** ** Ownership

    An assigned task belongs to the one request that is about to write its
    worker, or to the worker written, with one timer running for it. *)
Record own_ok (c : Coordinator) (hs : gmap Z hstate) (ts : list (Z * task_ref)) : Prop := {
  o_pid w h : hs !! w = Some h → 0 < w;
  o_idle r t : get_task c r = Some t → t_TaskStat t = NotAssign → t_WorkerID t = -1;
  o_fill w r : hs !! w = Some (HFill r) → r ≠ FreshRef →
    ∃ t, get_task c r = Some t ∧ t_TaskStat t = Assigned ∧ t_WorkerID t = -1;
  o_one w w' r : hs !! w = Some (HFill r) → hs !! w' = Some (HFill r) → r ≠ FreshRef → w = w';
  o_timer w r : (w, r) ∈ ts → r ≠ FreshRef → 0 < w ∧
    ∃ t, get_task c r = Some t ∧
         (t_TaskStat t = Finished ∨ t_TaskStat t = Assigned ∧ t_WorkerID t = w);
  o_once : NoDup (filter (λ r, r ≠ FreshRef) ts.*2);
}.

Lemma get_upd_same c r g t :
  r ≠ FreshRef → get_task c r = Some t → get_task (upd_task r g c) r = Some (g t).
Proof. intros Hr Ht. rewrite get_upd_task, decide_True by done. by rewrite Ht. Qed.

Lemma get_upd_other c r g r' : r ≠ r' → get_task (upd_task r g c) r' = get_task c r'.
Proof. intros Hr. rewrite get_upd_task, decide_False; [done|]. by intros [? _]. Qed.

(** What does not touch handlers in [HFill] keeps ownership. *)
Lemma own_handler c hs ts w h :
  own_ok c hs ts → 0 < w → (∀ r, h ≠ HFill r) → own_ok c (<[w := h]> hs) ts.
Proof.
  intros [Hp Hi Hf Ho Ht Hn'] Hw Hh. split; [|done| | |done|done].
  - intros w' h' [[<- _]|[_ Hh']]%lookup_insert_Some; [done|by eapply Hp].
  - intros w' r [[_ Heq]|[_ Hr]]%lookup_insert_Some; [by destruct (Hh r)|by eapply Hf].
  - intros w1 w2 r [[_ Heq]|[_ H1]]%lookup_insert_Some [[_ Heq2]|[_ H2]]%lookup_insert_Some;
      [by destruct (Hh r)..|by eapply Ho].
Qed.

Lemma own_delete c hs ts w : own_ok c hs ts → own_ok c (delete w hs) ts.
Proof.
  intros [Hp Hi Hf Ho Ht Hn']. split; [|done| | |done|done].
  - intros w' h [_ Hh]%lookup_delete_Some. by eapply Hp.
  - intros w' r [_ Hh]%lookup_delete_Some. by eapply Hf.
  - intros w1 w2 r [_ H1]%lookup_delete_Some [_ H2]%lookup_delete_Some. by eapply Ho.
Qed.

Lemma own_select p c c' r hs ts w :
  own_ok c hs ts → 0 < w → selectTask p c = (c', r) → own_ok c' (<[w := HFill r]> hs) ts.
Proof.
  intros Hown Hw Hsel. destruct (selectTask_cases _ _ _ _ Hsel) as [[-> ->]|(t & Hr & Ht & Hst & ->)].
  { destruct Hown as [Hp Hi Hf Ho Htm Hn']. split; [|done| | |done|done].
    - intros w' h [[<- _]|[_ Hh]]%lookup_insert_Some; [done|by eapply Hp].
    - intros w' r [[_ [= <-]]|[_ Hh]]%lookup_insert_Some; [done|by eapply Hf].
    - intros w1 w2 r [[_ He]|[_ H1]]%lookup_insert_Some [[_ He2]|[_ H2]]%lookup_insert_Some Hr;
        [congruence..|by eapply Ho]. }
  destruct Hown as [Hp Hi Hf Ho Htm Hn'].
  assert (∀ w' r', hs !! w' = Some (HFill r') → r' ≠ FreshRef → r' ≠ r) as Hfree.
  { intros w' r' Hh Hr' ->. destruct (Hf _ _ Hh Hr') as (t' & Ht' & ? & _). congruence. }
  split.
  - intros w' h [[<- _]|[_ Hh]]%lookup_insert_Some; [done|by eapply Hp].
  - intros r' t' Ht' Hst'. destruct (decide (r = r')) as [<-|Hne].
    + rewrite (get_upd_same _ _ _ _ Hr Ht) in Ht'. injection Ht' as <-. done.
    + rewrite get_upd_other in Ht' by done. eauto.
  - intros w' r' [[_ [= <-]]|[_ Hh]]%lookup_insert_Some Hr'.
    + exists (with_stat Assigned t). rewrite (get_upd_same _ _ _ _ Hr Ht).
      split_and!; [done|done|by apply (Hi _ _ Ht)].
    + rewrite get_upd_other; [by eapply Hf|]. apply not_eq_sym. by eapply Hfree.
  - intros w1 w2 r' [[Hw1 [= <-]]|[Hw1 H1]]%lookup_insert_Some [[Hw2 Hr2]|[Hw2 H2]]%lookup_insert_Some Hr'.
    + congruence.
    + by destruct (Hfree _ _ H2 Hr').
    + injection Hr2 as <-. by destruct (Hfree _ _ H1 Hr').
    + by eapply Ho.
  - intros w' r' Hin Hr'. destruct (Htm _ _ Hin Hr') as (? & t' & Ht' & Hcase). split; [done|].
    assert (r ≠ r') by (intros <-; rewrite Ht in Ht'; injection Ht' as <-; destruct Hcase as [?|[? _]]; congruence).
    exists t'. by rewrite get_upd_other.
  - done.
Qed.

Lemma own_fill c hs ts w r :
  own_ok c hs ts → hs !! w = Some (HFill r) →
  own_ok (assign_worker w r c) (delete w hs) ((w, r) :: ts).
Proof.
  intros Hown Hw. pose proof (o_pid _ _ _ Hown _ _ Hw) as Hpos. unfold assign_worker.
  destruct (decide (r = FreshRef)) as [->|Hr].
  { destruct (own_delete _ _ _ w Hown) as [Hp Hi Hf Ho Ht Hn']. split; try done.
    - intros w' r [[= -> ->]|Hin]%elem_of_cons Hr; [done|by apply Ht]. }
  destruct (o_fill _ _ _ Hown _ _ Hw Hr) as (t & Ht & Hst & Hwk).
  assert (∀ w' r', hs !! w' = Some (HFill r') → w' ≠ w → r' ≠ FreshRef → r ≠ r') as Hfree.
  { intros w' r' Hh Hne Hr' <-. apply Hne. by eapply (o_one _ _ _ Hown). }
  assert (∀ w' r', (w', r') ∈ ts → r' ≠ FreshRef → r ≠ r') as Hnot.
  { intros w' r' Hin Hr' <-. destruct (o_timer _ _ _ Hown _ _ Hin Hr') as (? & t' & Ht' & Hcase).
    destruct Hcase as [?|[? ?]]; [congruence|]. assert (t' = t) by congruence. subst. lia. }
  split.
  - intros w' h [_ Hh]%lookup_delete_Some. by eapply (o_pid _ _ _ Hown).
  - intros r' t' Ht' Hst'. destruct (decide (r = r')) as [<-|Hne].
    + rewrite (get_upd_same _ _ _ _ Hr Ht) in Ht'. injection Ht' as <-. cbn in Hst'. congruence.
    + rewrite get_upd_other in Ht' by done. by eapply (o_idle _ _ _ Hown).
  - intros w' r' [Hne Hh]%lookup_delete_Some Hr'. rewrite get_upd_other by eauto.
    by eapply (o_fill _ _ _ Hown).
  - intros w1 w2 r' [_ H1]%lookup_delete_Some [_ H2]%lookup_delete_Some. by eapply (o_one _ _ _ Hown).
  - intros w' r' [[= -> ->]|Hin]%elem_of_cons Hr'.
    + split; [done|]. exists (with_worker w t). rewrite (get_upd_same _ _ _ _ Hr Ht). auto.
    + destruct (o_timer _ _ _ Hown _ _ Hin Hr') as (? & t' & Ht' & Hcase). split; [done|].
      exists t'. by rewrite get_upd_other by eauto.
  - rewrite fmap_cons, filter_cons_True by done. constructor; [|apply (o_once _ _ _ Hown)].
    intros [_ ([w' r'] & Heq & Hin)%list_elem_of_fmap]%list_elem_of_filter. cbn in Heq. subst r'.
    by destruct (Hnot _ _ Hin Hr).
Qed.

Lemma own_grow c c' hs ts :
  (∀ r, is_Some (get_task c r) → get_task c' r = get_task c r) →
  (∀ r t, get_task c r = None → get_task c' r = Some t → t_WorkerID t = -1) →
  own_ok c hs ts → own_ok c' hs ts.
Proof.
  intros Hsame Hnew [Hp Hi Hf Ho Htm Hn']. split; [done| | |done| |done].
  - intros r t Ht Hst. destruct (get_task c r) as [t'|] eqn:Hc; [|by eapply Hnew].
    rewrite Hsame in Ht by eauto. apply (Hi r t); congruence.
  - intros w r Hh Hr. destruct (Hf _ _ Hh Hr) as (t & Ht & ?). exists t.
    by rewrite Hsame by eauto.
  - intros w r Hin Hr. destruct (Htm _ _ Hin Hr) as (? & t & Ht & ?). split; [done|]. exists t.
    by rewrite Hsame by eauto.
Qed.

Lemma own_same c c' hs ts :
  (∀ r, get_task c' r = get_task c r) → own_ok c hs ts → own_ok c' hs ts.
Proof. intros Hs. apply own_grow; [auto|]. intros r t Hn' Ht. congruence. Qed.

(** A task leaves its worker: it is given up or finished. *)
Lemma own_release c hs ts l1 w r l2 t g :
  own_ok c hs ts → ts = l1 ++ (w, r) :: l2 →
  r ≠ FreshRef → get_task c r = Some t → t_WorkerID t = w →
  (t_TaskStat (g t) = NotAssign → t_WorkerID (g t) = -1) →
  own_ok (upd_task r g c) hs (l1 ++ l2).
Proof.
  intros [Hp Hi Hf Ho Htm Hn'] -> Hr Ht Hw Hg.
  destruct (Htm w r ltac:(set_solver) Hr) as [Hpos _].
  assert (∀ w' r', (w', r') ∈ l1 ++ l2 → r' ≠ FreshRef → r ≠ r') as Hother.
  { intros w' r' Hin Hr' <-.
    rewrite <-Permutation_middle, fmap_cons, filter_cons_True in Hn' by done.
    - apply NoDup_cons in Hn' as [Hnot _]. apply Hnot, list_elem_of_filter. split; [done|].
      apply list_elem_of_fmap. exists (w', r). split; [done|]. set_solver. }
  split; [done| | |done| |].
  - intros r' t' Ht' Hst. destruct (decide (r = r')) as [<-|Hne].
    + rewrite (get_upd_same _ _ _ _ Hr Ht) in Ht'. injection Ht' as <-. auto.
    + rewrite get_upd_other in Ht' by done. eauto.
  - intros w' r' Hh Hr'. destruct (Hf _ _ Hh Hr') as (t' & Ht' & ? & ?).
    assert (r ≠ r') by (intros <-; assert (t' = t) by congruence; subst; lia).
    exists t'. by rewrite get_upd_other.
  - intros w' r' Hin Hr'. destruct (Htm w' r' ltac:(set_solver) Hr') as (? & t' & Ht' & ?).
    split; [done|]. exists t'. by rewrite get_upd_other by eauto.
  - eapply sublist_NoDup; [exact Hn'|]. clear. rewrite !fmap_app, !filter_app. apply sublist_app; [done|].
    rewrite fmap_cons, filter_cons. case_decide; [by apply sublist_cons|done].
Qed.

Lemma own_drop_timer c hs l1 x l2 : own_ok c hs (l1 ++ x :: l2) → own_ok c hs (l1 ++ l2).
Proof.
  intros [Hp Hi Hf Ho Htm Hn']. split; [done..| |].
  - intros w r Hin. apply Htm. set_solver.
  - eapply sublist_NoDup; [exact Hn'|]. clear. rewrite !fmap_app, !filter_app. apply sublist_app; [done|].
    rewrite fmap_cons, filter_cons. case_decide; [by apply sublist_cons|done].
Qed.

(** A timer that fires finds its task finished, or still with its worker. *)
Lemma timeout_cases c hs ts w r :
  own_ok c hs ts → (w, r) ∈ ts →
  checkTimeout w r c = c ∨
  ∃ t, r ≠ FreshRef ∧ get_task c r = Some t ∧ t_TaskStat t = Assigned ∧ t_WorkerID t = w ∧
    checkTimeout w r c = upd_task r (λ t, with_worker (-1) (with_stat NotAssign t)) c.
Proof.
  intros Hown Hin. unfold checkTimeout. destruct (decide (r = FreshRef)) as [->|Hr]; [by left|].
  destruct (o_timer _ _ _ Hown _ _ Hin Hr) as (_ & t & Ht & Hcase). rewrite Ht.
  destruct Hcase as [Hst|[Hst Hw]]; [left; by rewrite decide_True|right].
  exists t. rewrite decide_False by congruence. unfold timed_out.
  rewrite (bool_decide_eq_true_2 (t_WorkerID t = w)) by done.
  by rewrite (bool_decide_eq_true_2 (t_TaskStat t = Assigned)).
Qed.

(** A report by the worker the task is assigned to. *)
Lemma own_finish c hs ts w r t :
  own_ok c hs ts → 0 < w → r ≠ FreshRef → get_task c r = Some t → t_WorkerID t = w →
  own_ok (upd_task r (with_stat Finished) c) hs ts.
Proof.
  intros [Hp Hi Hf Ho Htm Hn'] Hpos Hr Ht Hw. split; [done| | |done| |done].
  - intros r' t' Ht' Hst. destruct (decide (r = r')) as [<-|Hne].
    + rewrite (get_upd_same _ _ _ _ Hr Ht) in Ht'. by injection Ht' as <-.
    + rewrite get_upd_other in Ht' by done. eauto.
  - intros w' r' Hh Hr'. destruct (Hf _ _ Hh Hr') as (t' & Ht' & ? & ?).
    assert (r ≠ r') by (intros <-; assert (t' = t) by congruence; subst; lia).
    exists t'. by rewrite get_upd_other.
  - intros w' r' Hin Hr'. destruct (Htm w' r' Hin Hr') as (? & t' & Ht' & ?). split; [done|].
    destruct (decide (r = r')) as [<-|Hne].
    + exists (with_stat Finished t). rewrite (get_upd_same _ _ _ _ Hr Ht). auto.
    + exists t'. by rewrite get_upd_other.
Qed.

(** ** Workers *)
Definition reply_ok (f : fs) (reply : RequestTaskReplys) : Prop :=
  match rr_TaskType reply with
  | MapTask =>
      ∃ m file, (m < M)%nat ∧ rr_TaskID reply = Z.of_nat m ∧ files !! m = Some file ∧
        rr_InputFiles reply = [file] ∧ rr_ReduceNum reply = n
  | ReduceTask =>
      ∃ r, (r < Z.to_nat n)%nat ∧ rr_TaskID reply = Z.of_nat r ∧
        inputs_ok r (rr_InputFiles reply) ∧ ∀ m, (m < M)%nat → map_ok m f
  | _ => True
  end.

Definition args_ok (f : fs) (w : Z) (args : ReportTaskArgs) : Prop :=
  ra_WorkerID args = w ∧
  match ra_TaskType args with
  | MapTask => ∃ m, (m < M)%nat ∧ ra_TaskId args = Z.of_nat m ∧ map_ok m f
  | ReduceTask => ∃ r, (r < Z.to_nat n)%nat ∧ ra_TaskId args = Z.of_nat r ∧ out_ok r f
  | _ => False
  end.

Definition worker_ok (f : fs) (w : Z) (x : wstate) : Prop :=
  0 < w ∧
  match x with
  | WDo reply => reply_ok f reply
  | WRename id bufs i =>
      ∃ m, (m < M)%nat ∧ id = Z.of_nat m ∧
        bufs = part n (kvs_of m) <$> seq 0 (Z.to_nat n) ∧
        ∀ j, (j < i)%nat → (j < Z.to_nat n)%nat → tmp_ok m j f
  | WReport args => args_ok f w args
  | _ => True
  end.

Lemma worker_keeps f f' w x : keeps f f' → worker_ok f w x → worker_ok f' w x.
Proof.
  intros Hk [Hw Hx]. split; [done|]. destruct x as [| |reply|id bufs i|args|]; try done.
  - unfold reply_ok in *. destruct (rr_TaskType reply); try done.
    destruct Hx as (r & ? & ? & ? & Hall). exists r. split_and!; [done..|].
    intros m Hm. eapply keeps_map; eauto.
  - destruct Hx as (m & ? & ? & ? & Hj). exists m. split_and!; [done..|].
    intros j Hji Hjn. apply Hk. auto.
  - destruct Hx as [? Hx]. split; [done|]. destruct (ra_TaskType args); try done.
    + destruct Hx as (m & ? & ? & ?). exists m. split_and!; [done..|]. by eapply keeps_map.
    + destruct Hx as (r & ? & ? & ?). exists r. split_and!; [done..|]. by apply Hk.
Qed.

Record mr_inv (s : mr) : Prop := {
  v_co : co_ok (co s);
  v_own : own_ok (co s) (handlers s) (timers s);
  v_disk : disk_ok (disk s);
  v_fin : fin_ok (co s) (disk s);
  v_workers w x : workers s !! w = Some x → worker_ok (disk s) w x;
}.

Lemma inv_worker s w x :
  mr_inv s → worker_ok (disk s) w x → mr_inv (set_worker w x s).
Proof.
  intros [? ? ? ? Hw] Hx. split; [done..|]. cbn.
  intros w' x' [[<- <-]|[_ H']]%lookup_insert_Some; [done|by apply Hw].
Qed.

Lemma inv_handler s w h :
  mr_inv s → 0 < w → (∀ r, h ≠ HFill r) → mr_inv (set_handler w h s).
Proof. intros [? ? ? ? ?] Hw Hh. split; try done. by apply own_handler. Qed.

(** A change of the disk that keeps what is right. *)
Lemma inv_disk s f' : mr_inv s → disk_ok f' → keeps (disk s) f' → mr_inv (with_disk f' s).
Proof.
  intros [? ? ? ? Hw] Hd Hk. split; try done.
  - by eapply fin_keeps.
  - intros w x Hx. eapply worker_keeps; [done|]. by apply Hw.
Qed.

(** A finished request: its worker, if it still waits, has the reply. *)
Lemma workers_deliver s w reply w' x :
  (∀ w x, workers s !! w = Some x → worker_ok (disk s) w x) →
  reply_ok (disk s) reply → workers (deliver w reply s) !! w' = Some x →
  worker_ok (disk s) w' x.
Proof.
  intros Hw Hr. cbn. destruct (workers s !! w) as [[]|] eqn:Hx; try by apply Hw.
  intros [[<- <-]|[_ H']]%lookup_insert_Some; [|by apply Hw].
  split; [by apply Hw in Hx as [? _]|done].
Qed.

(** The reply of a request names its task's files and, for a map task, the
    right number of buckets. *)
Lemma reply_of_ok c f w r hs ts :
  co_ok c → fin_ok c f → own_ok c hs ts → hs !! w = Some (HFill r) →
  reply_ok f (reply_of r (assign_worker w r c)).
Proof.
  intros Hco Hfin Hown Hw. destruct (decide (r = FreshRef)) as [->|Hr]; [done|].
  destruct (o_fill _ _ _ Hown _ _ Hw Hr) as (t & Ht & Hst & _).
  unfold reply_of, assign_worker. rewrite (get_upd_same _ _ _ _ Hr Ht). cbn.
  pose proof (c_phase _ Hco) as Hph. unfold reply_ok; cbn.
  destruct r as [m|r|]; [| |done]; cbn in Ht.
  - destruct (c_map _ Hco _ _ Ht) as (-> & -> & file & Hf & ->).
    exists m, file. split_and!; [|done..|].
    + apply lookup_lt_Some in Ht. by rewrite <-(c_maps _ Hco).
    + cbn. destruct (phase c); [by destruct Hph|exfalso..]; destruct Hph as [Hall _];
        apply (all_finished_lookup _ _ _ Hall Ht); congruence.
  - destruct (c_red _ Hco _ _ Ht) as (-> & -> & Hin). exists r.
    assert (phase c ≠ MapPhase) as Hp.
    { intros Hp. rewrite Hp in Hph. destruct Hph as (_ & _ & He). by rewrite He in Ht. }
    split_and!; [|done|done|].
    + apply lookup_lt_Some in Ht. destruct (phase c); [done|..];
        destruct Hph as (_ & Hl & _); unfold go_len in Hl; lia.
    + intros m Hm. by eapply maps_done.
Qed.

Lemma map_buffers_ok f m file reply :
  disk_ok f → files !! m = Some file → rr_InputFiles reply = [file] → rr_ReduceNum reply = n →
  map_buffers mapf reply f = Ok (part n (kvs_of m) <$> seq 0 (Z.to_nat n)).
Proof using Hn Hinput.
  intros Hd Hf Hin Hrn. unfold map_buffers. rewrite Hin, Hrn; cbn [read_inputs].
  pose proof (list_elem_of_lookup_2 _ _ _ Hf) as Hel.
  destruct (Hinput _ Hel) as [[s Hs] _]. unfold read_text.
  rewrite (d_inputs _ Hd _ Hel), Hs. cbn [mbind outcome_bind].
  rewrite tmp_buffers_parts by done. do 2 f_equal. unfold kvs_of, input_of. rewrite Hf, Hs.
  by rewrite app_nil_r.
Qed.

(** ** Reports *)
Lemma go_index_nat {A} (l : list A) i x : go_index l (Z.of_nat i) = Ok x ↔ l !! i = Some x.
Proof. rewrite go_index_Ok, Nat2Z.id. split; [tauto|]. intros; split; [lia|done]. Qed.

Lemma finish_co c r t :
  co_ok c → r ≠ FreshRef → get_task c r = Some t → t_TaskStat t = Assigned →
  co_ok (finish_task r t c).
Proof.
  intros [Hlen Hmap Hred Hph] Hr Ht Hst. assert (t_TaskStat t ≠ Finished) as Hnf by congruence.
  destruct r as [i|i|]; [| |done]; cbn in Ht; unfold finish_task.
  - destruct (Hmap _ _ Ht) as (Hty & _ & _). rewrite Hty. split; cbn.
    + by rewrite length_alter.
    + intros m t' Hm. destruct (decide (i = m)) as [->|Hne].
      * rewrite list_lookup_alter_eq, Ht in Hm. injection Hm as <-. by apply (Hmap m t).
      * rewrite list_lookup_alter_ne in Hm by done. by apply Hmap.
    + done.
    + destruct (phase c); [|by destruct Hph as [Hf _]; destruct (all_finished_lookup _ _ _ Hf Ht Hnf)..].
      rewrite (finished_alter_succ _ _ t) by done. destruct Hph as (? & -> & ?). done.
  - destruct (Hred _ _ Ht) as (Hty & _ & _). rewrite Hty. split; cbn.
    + done.
    + done.
    + intros m t' Hm. destruct (decide (i = m)) as [->|Hne].
      * rewrite list_lookup_alter_eq, Ht in Hm. injection Hm as <-. by apply (Hred m t).
      * rewrite list_lookup_alter_ne in Hm by done. by apply Hred.
    + destruct (phase c).
      * destruct Hph as (_ & _ & He). by rewrite He in Ht.
      * rewrite (finished_alter_succ _ _ t) by done. destruct Hph as (? & Hl & ->).
        unfold go_len in *. by rewrite length_alter.
      * destruct Hph as (_ & _ & Hf). by destruct (all_finished_lookup _ _ _ Hf Ht Hnf).
Qed.

Lemma get_finish c r t r' :
  get_task (finish_task r t c) r' = get_task (upd_task r (with_stat Finished) c) r'.
Proof. unfold finish_task. by destruct (t_TaskType t), r, r'. Qed.

Lemma finish_fin c f r t :
  fin_ok c f → r ≠ FreshRef → get_task c r = Some t →
  match r with MapRef m => map_ok m f | ReduceRef i => out_ok i f | FreshRef => True end →
  fin_ok (finish_task r t c) f.
Proof.
  intros [Hm Hr] Hne Ht Hok. split.
  - intros m t' Hm' Hst. change (get_task (finish_task r t c) (MapRef m) = Some t') in Hm'.
    rewrite get_finish in Hm'. destruct (decide (r = MapRef m)) as [->|Hd]; [done|].
    rewrite get_upd_other in Hm' by done. by eapply Hm.
  - intros i t' Hm' Hst. change (get_task (finish_task r t c) (ReduceRef i) = Some t') in Hm'.
    rewrite get_finish in Hm'. destruct (decide (r = ReduceRef i)) as [->|Hd]; [done|].
    rewrite get_upd_other in Hm' by done. by eapply Hr.
Qed.

Lemma inv_report s w args c' :
  mr_inv s → 0 < w → args_ok (disk s) w args → ReportTask args (co s) = Ok c' →
  mr_inv (with_co c' s).
Proof.
  intros Hinv Hpos [Hw Hargs] Hrep. unfold ReportTask in Hrep.
  apply bind_Ok in Hrep as (r & Href & Hrep).
  assert (r ≠ FreshRef ∧
    match r with MapRef m => map_ok m (disk s) | ReduceRef i => out_ok i (disk s) | FreshRef => True end)
    as [Hr Hok].
  { unfold report_ref in Href. destruct (ra_TaskType args); try done;
      destruct Hargs as (m & _ & Hid & Hok); rewrite Hid in Href; inv_ok; subst r;
      rewrite Nat2Z.id; by split. }
  destruct (get_task (co s) r) as [t|] eqn:Ht; [|done].
  case_decide as Hcase; injection Hrep as <-; [|by destruct s].
  destruct Hcase as [Hwt Hst]. destruct Hinv as [Hco Hown Hd Hfin Hwk]. split; cbn; [| |done| |done].
  - by apply finish_co.
  - eapply own_same; [intros r'; apply get_finish|].
    eapply (own_finish _ _ _ w); eauto. congruence.
  - by apply finish_fin.
Qed.

(** ** Every step keeps the invariant *)
Lemma inv_select s w p c' r :
  mr_inv s → handlers s !! w = Some (HSelect p) → 0 < w → selectTask p (co s) = (c', r) →
  mr_inv (set_handler w (HFill r) (with_co c' s)).
Proof using Hn Hinput.
  intros [Hco Hown Hd Hfin Hwk] Hh Hpos Hsel. split; cbn; [|by eapply own_select|done| |done];
    destruct (selectTask_cases _ _ _ _ Hsel) as [[_ ->]|(t & Hr & Ht & Hst & ->)]; try done.
  - eapply co_upd; [done..|]. split; cbn; try done. rewrite Hst. done.
  - eapply fin_upd; [done..|]. split; cbn; try done. rewrite Hst. done.
Qed.

Lemma inv_fill s w r :
  mr_inv s → handlers s !! w = Some (HFill r) → 0 < w →
  let c := assign_worker w r (co s) in
  mr_inv (deliver w (reply_of r c) (with_timers ((w, r) :: timers s) (with_co c s))).
Proof using Hn Hinput.
  intros [Hco Hown Hd Hfin Hwk] Hh Hpos c.
  assert (co_ok c ∧ fin_ok c (disk s)) as [? ?].
  { subst c. destruct (decide (r = FreshRef)) as [->|Hr]; [done|].
    destruct (o_fill _ _ _ Hown _ _ Hh Hr) as (t & Ht & Hst & _).
    split; [eapply co_upd|eapply fin_upd]; try done; (split; cbn; try done; by rewrite Hst). }
  split; cbn; [done|by apply own_fill|done|done|].
  intros w' x Hx. eapply (workers_deliver s w); [done| |exact Hx]. by eapply reply_of_ok.
Qed.

Lemma inv_timeout s l1 w r l2 :
  mr_inv s → timers s = l1 ++ (w, r) :: l2 →
  mr_inv (with_timers (l1 ++ l2) (with_co (checkTimeout w r (co s)) s)).
Proof using Hn Hinput.
  intros [Hco Hown Hd Hfin Hwk] Hts.
  destruct (timeout_cases _ _ _ w r Hown ltac:(rewrite Hts; set_solver)) as [->|(t & Hr & Ht & Hst & Hwt & ->)].
  - split; cbn; [done| |done..]. rewrite Hts in Hown. by eapply own_drop_timer.
  - split; cbn; [| |done| |done].
    + eapply co_upd; [done..|]. split; cbn; try done. by rewrite Hst.
    + by eapply own_release.
    + eapply fin_upd; [done..|]. split; cbn; try done. by rewrite Hst.
Qed.

Lemma inv_rename s w m bufs i buf :
  mr_inv s → workers s !! w = Some (WRename m bufs i) → bufs !! i = Some buf →
  mr_inv (set_worker w (WRename m bufs (S i))
    (with_disk (<[resolve (tmp_name m (Z.of_nat i)) := Json buf]> (disk s)) s)).
Proof using Hn Hinput.
  intros Hinv Hw Hb. pose proof Hinv as [Hco Hown Hd Hfin Hwk]. destruct (Hwk _ _ Hw) as [Hpos (m' & Hm & -> & -> & Hj)].
  rewrite list_lookup_fmap in Hb. apply fmap_Some in Hb as (i' & Hi & ->).
  apply lookup_seq in Hi as [-> Hi]. cbn [Nat.add].
  destruct (write_tmp (disk s) m' i Hm Hi Hd) as (Hd' & Hk & Hok).
  apply inv_worker; [by apply inv_disk|]. split; [done|]. exists m'. split_and!; [done..|].
  intros j Hji Hjn. destruct (decide (j = i)) as [->|]; [done|]. apply Hk, Hj; lia.
Qed.

Lemma inv_reduce s w reply :
  mr_inv s → workers s !! w = Some (WDo reply) → rr_TaskType reply = ReduceTask →
  mr_inv (set_worker w (WReport (report_args reply w)) (with_disk (doReduce reducef reply (disk s)) s)).
Proof using Hn Hinput.
  intros Hinv Hw Hty. pose proof Hinv as [Hco Hown Hd Hfin Hwk]. destruct (Hwk _ _ Hw) as [Hpos Hr].
  unfold worker_ok, reply_ok in Hr. rewrite Hty in Hr. destruct Hr as (r & Hrn & Hid & Hin & Hall).
  destruct (write_out (disk s) r (rr_InputFiles reply ≫= decode (disk s)) Hd Hrn) as (Hd' & Hk & Hok);
    [by apply inputs_records|].
  apply inv_worker; [apply inv_disk; [done|..]|]; unfold doReduce; rewrite Hid; [done..|].
  split; [done|]. split; [done|]. cbn. rewrite Hty, Hid. by exists r.
Qed.

Lemma inv_step s l s' : mr_inv s → mr_step s l s' → mr_inv s'.
Proof using Hn Hinput.
  intros Hinv Hstep. pose proof Hinv as [Hco Hown Hd Hfin Hwk].
  inversion Hstep as [? w Hh Hp|? w Hh Hp|? w Hh Hp|? w Hh Hp|? w Hh|? w p c' r Hh Hsel|? w r Hh
    |? l1 w r l2 Hts|?|? w Hw0 Hw1 Hw2|? w Hw|? w reply bufs Hw Hty Hb|? w m bufs i buf Hw Hb
    |? w m bufs i Hw Hb|? w reply Hw Hty|? w reply Hw Hty|? w reply Hw Hty|? w args c' Hw Hrep|? w x Hw];
    subst; try (pose proof (o_pid _ _ _ Hown _ _ Hh) as Hpos).
  - by apply inv_handler.
  - by apply inv_handler.
  - by apply inv_handler.
  - split; cbn; [done|by apply own_delete|done..|].
    intros w' x Hx. by apply (workers_deliver s w exit_reply).
  - by apply inv_handler.
  - by apply (inv_select _ _ p).
  - by apply inv_fill.
  - by apply inv_timeout.
  - destruct (tick_cases _ _ Hco Hfin Hd) as (? & ? & Hsame & Hnew).
    split; cbn; [done| |done|done|done]. by eapply own_grow.
  - by apply inv_worker.
  - destruct (Hwk _ _ Hw) as [Hpos _]. apply inv_worker; [|done]. by apply inv_handler.
  - destruct (Hwk _ _ Hw) as [Hpos Hr]. unfold worker_ok, reply_ok in Hr. rewrite Hty in Hr.
    destruct Hr as (m & file & Hm & Hid & Hf & Hin & Hrn).
    rewrite (map_buffers_ok _ m file) in Hb by done. injection Hb as <-.
    apply inv_worker; [done|]. split; [done|]. exists m. split_and!; [done..|lia].
  - by apply inv_rename.
  - destruct (Hwk _ _ Hw) as [Hpos (m' & Hm & -> & -> & Hj)].
    apply inv_worker; [done|]. split; [done|]. split; [done|]. cbn. exists m'. split_and!; [done..|].
    apply lookup_ge_None_1 in Hb. rewrite length_fmap, length_seq in Hb.
    intros j Hjn. apply Hj; lia.
  - by apply inv_reduce.
  - destruct (Hwk _ _ Hw) as [Hpos _]. by apply inv_worker.
  - destruct (Hwk _ _ Hw) as [Hpos _]. by apply inv_worker.
  - destruct (Hwk _ _ Hw) as [Hpos Hargs]. apply inv_worker; [by eapply inv_report|done].
  - destruct (Hwk _ _ Hw) as [Hpos _]. by apply inv_worker.
Qed.

(** ** The initial state *)
Lemma MakeCoordinator_Ok k :
  MakeCoordinator files k = Ok {|
    inputFiles := files; nMap := 0; nReduce := k;
    mapTask := imap (λ m file, new_task MapTask [file] (Z.of_nat m)) files;
    reduceTask := []; phase := MapPhase |}.
Proof.
  unfold MakeCoordinator, makeMapTask; cbn [nMap inputFiles].
  rewrite (mapM_Ok _ _ (imap (λ m file, new_task MapTask [file] (Z.of_nat m)) files)); [done|].
  apply Forall2_same_length_lookup_2.
  { rewrite length_seqZ, length_imap. unfold go_len. lia. }
  intros i z t Hz Ht. apply lookup_seqZ in Hz as [-> Hi]. rewrite Z.add_0_l.
  rewrite list_lookup_imap in Ht. apply fmap_Some in Ht as (file & Hf & ->).
  by rewrite (proj2 (go_index_nat _ _ _) Hf).
Qed.

Lemma inv_init s : mr_init files n f0 s → mr_inv s.
Proof using Hn Hinput.
  intros (c & Hc & ->). rewrite MakeCoordinator_Ok in Hc. injection Hc as <-.
  assert (∀ m t, imap (λ m file, new_task MapTask [file] (Z.of_nat m)) files !! m = Some t →
    ∃ file, files !! m = Some file ∧ t = new_task MapTask [file] (Z.of_nat m)) as Htask.
  { intros m t Ht. rewrite list_lookup_imap in Ht. apply fmap_Some in Ht as (file & Hf & ->). eauto. }
  split; cbn.
  - split; cbn; [by rewrite length_imap| |done|].
    + intros m t Ht. destruct (Htask _ _ Ht) as (file & Hf & ->). cbn. eauto.
    + split_and!; [done| |done]. symmetry. apply finished_none, Forall_lookup.
      intros m t Ht. by destruct (Htask _ _ Ht) as (file & Hf & ->).
  - split; [done| |done|done| |constructor].
    + intros [m|r|] t Ht Hst; cbn in Ht; [|done|by injection Ht as <-].
      by destruct (Htask _ _ Ht) as (file & Hf & ->).
    + by intros w r Hin%not_elem_of_nil.
  - split; [done|]. intros name x Hx Hin. by rewrite createTmpDir_lookup, Hin in Hx.
  - split; [|done]. intros m t Ht Hst. cbn in Ht. by destruct (Htask _ _ Ht) as (file & Hf & ->).
  - done.
Qed.

Lemma inv_run s0 tr s : mr_init files n f0 s0 → run mr_step s0 tr s → mr_inv s.
Proof using Hn Hinput.
  intros Hi Hr. eapply run_invariant; [|exact Hr|by apply inv_init]. intros. by eapply inv_step.
Qed.

(** ** The result *)
Lemma read_inputs_all : read_inputs mapf (createTmpDir f0) files = Ok all_kvs.
Proof using Hinput.
  assert (∀ l, (∀ file, file ∈ l → ∃ s, createTmpDir f0 !! resolve file = Some (Text s)) →
    read_inputs mapf (createTmpDir f0) l =
      Ok (l ≫= λ file, match createTmpDir f0 !! resolve file with Some (Text s) => mapf file s | _ => [] end))
    as Hread.
  { induction l as [|file l IH]; intros Hl; [done|]. cbn [read_inputs].
    destruct (Hl file) as [s Hs]; [left|]. unfold read_text. rewrite Hs; cbn.
    rewrite IH; [|intros; apply Hl; by right]. cbn. by rewrite Hs. }
  rewrite Hread by (intros file Hf; by destruct (Hinput _ Hf)). f_equal.
  unfold all_kvs, M, input_of. by rewrite <-(bind_seq_lookup files).
Qed.

Lemma out_lines s :
  order_insensitive reducef → mr_inv s → Done (co s) = true →
  ∃ lss, length lss = Z.to_nat n ∧
    (∀ r ls, lss !! r = Some ls →
       disk s !! resolve (out_name (Z.of_nat r)) = Some (Text (concat_lines ls)) ∧
       lines_for reducef (part n all_kvs r) ls).
Proof.
  intros Hred [Hco _ _ Hfin _] Hdone. apply bool_decide_eq_true in Hdone.
  pose proof (c_phase _ Hco) as Hph. rewrite Hdone in Hph. destruct Hph as (_ & Hlen & Hall).
  assert (∀ r, (r < Z.to_nat n)%nat → out_ok r (disk s)) as Hout.
  { intros r Hr. destruct (lookup_lt_is_Some_2 (reduceTask (co s)) r) as [t Ht];
      [unfold go_len in Hlen; lia|].
    apply (f_red _ _ Hfin _ _ Ht). by apply (Forall_lookup_1 _ _ _ _ Hall Ht). }
  revert Hout. generalize (Z.to_nat n) as k. clear - Hred.
  induction k as [|k IH]; intros Hout; [by exists []|].
  destruct IH as (lss & Hl & Hls); [auto|]. destruct (Hout k) as (kvs & Hp & Hk); [lia|].
  exists (lss ++ [reduce_lines reducef kvs]). split; [rewrite length_app; cbn; lia|].
  intros r ls [Hr|[Hge Hr]]%lookup_app_Some; [by apply Hls|].
  apply list_lookup_singleton_Some in Hr as [Hz <-]. assert (r = k) as -> by lia.
  split; [done|]. eapply lines_for_perm; [done|exact Hp|apply reduce_lines_for].
Qed.

(** What the map function emits for the inputs, file by file. *)
Lemma all_kvs_valid :
  (∀ file text, file ∈ files → createTmpDir f0 !! resolve file = Some (Text text) →
    Forall valid_kv (mapf file text)) →
  Forall valid_kv all_kvs.
Proof.
  intros Hv. apply Forall_forall. intros kv (m & Hkv & _)%list_elem_of_bind. unfold input_of in Hkv.
  destruct (files !! m) as [file|] eqn:Hf; [|by apply elem_of_nil in Hkv].
  destruct (createTmpDir f0 !! resolve file) as [[text|]|] eqn:Ht; try (by apply elem_of_nil in Hkv).
  apply list_elem_of_lookup_2 in Hf. specialize (Hv file text Hf Ht). rewrite Forall_forall in Hv. by apply Hv.
Qed.
End Correct.

(** A job whose map function emits valid UTF-8. *)
Lemma done_lines `{Cwd} `{GoSort} mapf reducef files n f0 s0 tr s :
  0 < n →
  (∀ file, file ∈ files →
    (∃ text, createTmpDir f0 !! resolve file = Some (Text text)) ∧
    ∀ r, 0 ≤ r < n → resolve file ≠ resolve (out_name r)) →
  (∀ file text, file ∈ files → createTmpDir f0 !! resolve file = Some (Text text) →
    Forall valid_kv (mapf file text)) →
  order_insensitive reducef →
  mr_init files n f0 s0 → run (mr_step mapf reducef) s0 tr s → Done (co s) = true →
  ∃ kvs lss, read_inputs mapf (createTmpDir f0) files = Ok kvs ∧ length lss = Z.to_nat n ∧
    (∀ r ls, lss !! r = Some ls →
       disk s !! resolve (out_name (Z.of_nat r)) = Some (Text (concat_lines ls))) ∧
    concat lss ≡ₚ seq_lines reducef kvs.
Proof.
  intros Hn Hinput Hvalid Hred Hinit Hrun Hdone.
  pose proof (inv_run mapf reducef files n f0 Hn Hinput _ _ _ Hinit Hrun) as Hinv.
  destruct (out_lines mapf reducef files n f0 Hn s Hred Hinv Hdone) as (lss & Hlen & Hls).
  exists (all_kvs mapf files f0), lss.
  split_and!; [by apply read_inputs_all with n|done|intros r ls Hr; by apply Hls|].
  pose proof (all_kvs_valid mapf files f0 Hvalid) as Hv.
  destruct (lines_for_split reducef (bucket n) (Z.to_nat n) (all_kvs mapf files f0) lss)
    as (ls & Hl & Hp); [intros; by apply bucket_bound|done| |].
  { intros i ls Hi. destruct (Hls i ls Hi) as [_ Hlf]. by rewrite part_valid in Hlf. }
  rewrite <-Hp. eapply lines_for_unique; [exact Hl|]. by apply seq_lines_for.
Qed.

(** C7. End to end: whatever the interleaving of requests, timeouts, crashes and
    re-executions, once the coordinator's [Done] answers [true], the files
    [mr-out-0], ..., [mr-out-(n-1)] hold, together and up to their order, the
    lines that the sequential program prints for the same inputs.  This needs at
    least one reduce task, input files that can be read, are not in [./tmp] and
    are not one of those output files, a Map that emits valid UTF-8 for them
    ([json_merges]: JSON changes other strings), and a Reduce that does not
    depend on the order of its values. *)
Theorem mr_done_correct `{Cwd} `{GoSort} mapf reducef files n f0 s0 tr s :
  0 < n →
  (∀ file, file ∈ files →
    (∃ text, createTmpDir f0 !! resolve file = Some (Text text)) ∧
    ∀ r, 0 ≤ r < n → resolve file ≠ resolve (out_name r)) →
  (∀ file text, file ∈ files → createTmpDir f0 !! resolve file = Some (Text text) →
    Forall valid_kv (mapf file text)) →
  order_insensitive reducef →
  mr_init files n f0 s0 → run (mr_step mapf reducef) s0 tr s → Done (co s) = true →
  ∃ kvs lss, read_inputs mapf (createTmpDir f0) files = Ok kvs ∧ length lss = Z.to_nat n ∧
    (∀ r ls, lss !! r = Some ls →
       disk s !! resolve (out_name (Z.of_nat r)) = Some (Text (concat_lines ls))) ∧
    concat lss ≡ₚ seq_lines reducef kvs.
Proof. apply done_lines. Qed.
