(* ===== verification/MRLiveness.v ===== *)
(** * MapReduce: no task is ever lost

    A task that is assigned is in the hands of a request that is about to
    start its timer, or has a timer running ([live_ok]), so a crashed worker's
    task is given out again.  [mr_can_finish]: from every reachable state,
    whatever crashed or was delayed, the job can still be completed. *)
From S2P Require Import Prelude GoLib Paths MRWorker Coordinator MRSystem MRCorrect.
Local Open Scope Z_scope.
Local Open Scope go_scope.

Section Liveness.
Context `{Cwd} `{GoSort}.
Context (mapf : string → string → list KeyValue) (reducef : string → list string → string).
Context (files : list string) (n : Z) (f0 : fs).
Hypothesis Hn : 0 < n.
Hypothesis Hinput : ∀ file, file ∈ files →
  (∃ s, createTmpDir f0 !! resolve file = Some (Text s)) ∧
  ∀ r, 0 ≤ r < n → resolve file ≠ resolve (out_name r).

Local Abbreviation mr_step := (mr_step mapf reducef).
Local Abbreviation mr_inv := (mr_inv mapf reducef files n f0).

(** ** Who holds an assigned task *)
Definition held (c : Coordinator) (hs : gmap Z hstate) (ts : list (Z * task_ref)) : Prop :=
  ∀ r t, r ≠ FreshRef → get_task c r = Some t → t_TaskStat t = Assigned →
    (∃ w, hs !! w = Some (HFill r)) ∨ (∃ w, (w, r) ∈ ts).

Record live_ok (s : mr) : Prop := {
  l_held : held (co s) (handlers s) (timers s);
  l_wait w h : handlers s !! w = Some h → workers s !! w = Some WWait ∨ workers s !! w = Some WExit;
}.

Lemma held_handler c hs ts w h :
  (∀ r, hs !! w ≠ Some (HFill r)) → held c hs ts → held c (<[w := h]> hs) ts.
Proof.
  intros Hw Hh r t Hr Ht Hst. destruct (Hh r t Hr Ht Hst) as [[w' Hw']|?]; [left|by right].
  exists w'. rewrite lookup_insert_ne; [done|]. intros ->. by apply (Hw r).
Qed.

Lemma held_delete c hs ts w :
  (∀ r, hs !! w ≠ Some (HFill r)) → held c hs ts → held c (delete w hs) ts.
Proof.
  intros Hw Hh r t Hr Ht Hst. destruct (Hh r t Hr Ht Hst) as [[w' Hw']|?]; [left|by right].
  exists w'. rewrite lookup_delete_ne; [done|]. intros ->. by apply (Hw r).
Qed.

(** A change of tasks that assigns none. *)
Lemma held_co c c' hs ts :
  (∀ r t, r ≠ FreshRef → get_task c' r = Some t → t_TaskStat t = Assigned →
     ∃ t', get_task c r = Some t' ∧ t_TaskStat t' = Assigned) →
  held c hs ts → held c' hs ts.
Proof. intros Hc Hh r t Hr Ht Hst. destruct (Hc r t Hr Ht Hst) as (t' & ? & ?). eauto. Qed.

Lemma held_upd c r g hs ts :
  (∀ t, get_task c r = Some t → t_TaskStat (g t) = Assigned → t_TaskStat t = Assigned) →
  held c hs ts → held (upd_task r g c) hs ts.
Proof.
  intros Hg. apply held_co. intros r' t Hr' Ht Hst. rewrite get_upd_task in Ht.
  case_decide as Hd; [|eauto]. destruct Hd as [<- _].
  apply fmap_Some in Ht as (t' & Ht' & ->). eauto.
Qed.

Lemma held_select p c c' r hs ts w :
  (∀ r, hs !! w ≠ Some (HFill r)) →
  held c hs ts → selectTask p c = (c', r) → held c' (<[w := HFill r]> hs) ts.
Proof.
  intros Hw Hh Hsel r' t' Hr' Ht' Hst'. destruct (decide (r = r')) as [<-|Hne].
  { left. exists w. apply lookup_insert_eq. }
  apply (held_handler _ _ _ w (HFill r) Hw Hh r' t' Hr'); [|done].
  destruct (selectTask_cases _ _ _ _ Hsel) as [[-> ->]|(t & _ & _ & _ & ->)]; [done|].
  by rewrite get_upd_other in Ht'.
Qed.

Lemma held_fill c hs ts w r :
  held c hs ts → hs !! w = Some (HFill r) → held (assign_worker w r c) (delete w hs) ((w, r) :: ts).
Proof.
  intros Hh Hw r' t' Hr' Ht' Hst'. destruct (decide (r = r')) as [<-|Hne].
  { right. exists w. left. }
  unfold assign_worker in Ht'. rewrite get_upd_other in Ht' by done.
  destruct (Hh r' t' Hr' Ht' Hst') as [[w' Hw']|[w' Hw']]; [left|right; exists w'; by right].
  exists w'. rewrite lookup_delete_ne; [done|]. intros <-. congruence.
Qed.

(** A timer that fires leaves its task unassigned. *)
Lemma held_timeout c hs l1 w r l2 :
  own_ok c hs (l1 ++ (w, r) :: l2) → held c hs (l1 ++ (w, r) :: l2) →
  held (checkTimeout w r c) hs (l1 ++ l2).
Proof.
  intros Hown Hh r' t' Hr' Ht' Hst'.
  assert (get_task c r' = Some t' ∧ r' ≠ r) as [Ht Hne].
  { destruct (timeout_cases _ _ _ w r Hown) as [Heq|(t & Hr & Ht & Hst & Hw & Heq)]; [set_solver|..];
      rewrite Heq in Ht'.
    - split; [done|]. intros ->. revert Heq. unfold checkTimeout. rewrite Ht', decide_False by congruence.
      destruct (o_timer _ _ _ Hown w r) as (_ & t & Ht & [?|[_ Hw]]); [set_solver|done|congruence|].
      assert (t = t') as -> by congruence. unfold timed_out.
      rewrite (bool_decide_eq_true_2 (t_WorkerID t' = w)), (bool_decide_eq_true_2 (t_TaskStat t' = Assigned)) by done.
      cbn. intros Heq. assert (get_task c r = Some (with_worker (-1) (with_stat NotAssign t'))) as Hbad.
      { rewrite <-Heq. by apply (get_upd_same _ _ (λ t, with_worker (-1) (with_stat NotAssign t))). }
      rewrite Ht' in Hbad. injection Hbad as Hbad. rewrite Hbad in Hst'. done.
    - destruct (decide (r = r')) as [<-|Hd]; [|by rewrite get_upd_other in Ht'].
      rewrite (get_upd_same _ _ _ _ Hr Ht) in Ht'. by injection Ht' as <-. }
  destruct (Hh r' t' Hr' Ht Hst') as [?|[w' Hin]]; [by left|right]. exists w'. set_solver.
Qed.

Lemma live_start s : mr_init files n f0 s → live_ok s.
Proof.
  intros (c & Hc & ->). rewrite MakeCoordinator_Ok in Hc. injection Hc as <-. split; cbn.
  - intros r t Hr Ht Hst. destruct r as [i|i|]; cbn in Ht; [|done|done].
    rewrite list_lookup_imap in Ht. apply fmap_Some in Ht as (file & _ & ->). done.
  - intros w h Hw. by rewrite lookup_empty in Hw.
Qed.

(** ** Every step keeps it *)
Lemma live_set_handler s w h h' :
  live_ok s → handlers s !! w = Some h → (∀ r, h ≠ HFill r) → live_ok (set_handler w h' s).
Proof.
  intros [Hh Hw] Hwh Hf. split; cbn.
  - apply held_handler; [|done]. intros r Hr. by apply (Hf r); congruence.
  - intros w' h'' [[<- _]|[_ H']]%lookup_insert_Some; eauto.
Qed.

Lemma live_set_worker s w x y :
  live_ok s → workers s !! w = Some x → x ≠ WWait → live_ok (set_worker w y s) ∨ x = WExit.
Proof.
  intros [Hh Hw] Hx Hne. destruct (decide (handlers s !! w = None)) as [Hno|Hsome].
  - left. split; [done|]. cbn. intros w' h Hw'. destruct (decide (w' = w)) as [->|]; [congruence|].
    rewrite lookup_insert_ne by done. eauto.
  - right. destruct (handlers s !! w) as [h|] eqn:Hwh; [|done].
    destruct (Hw w h Hwh); congruence.
Qed.

Lemma live_deliver s w reply c ts :
  held c (delete w (handlers s)) ts → live_ok s →
  live_ok (deliver w reply (with_timers ts (with_co c s))).
Proof.
  intros Hheld [_ Hw]. split; cbn; [done|].
  intros w' h [Hne Hh]%lookup_delete_Some. destruct (workers s !! w) as [[]|]; eauto.
  rewrite lookup_insert_ne by done. eauto.
Qed.

Lemma live_tick s : mr_inv s → live_ok s → live_ok (with_co (checkPhase (Glob (disk s)) (co s)) s).
Proof using Hn Hinput.
  intros Hinv [Hheld Hwait]. split; cbn; [|done]. destruct Hinv as [Hco _ Hd Hfin _].
  destruct (tick_cases _ _ _ _ _ Hn _ _ Hco Hfin Hd) as (_ & _ & Hsame & Hnew).
  revert Hheld. apply held_co. intros r t Hr Ht Hst.
  destruct (get_task (co s) r) as [t'|] eqn:Hc.
  - rewrite Hsame in Ht by eauto. exists t'. split; congruence.
  - exfalso. unfold checkPhase in Ht. destruct (phase (co s)); repeat case_decide; try congruence.
    + destruct r as [i|i|]; [|cbn in Ht|done]; [cbn in Hc, Ht; congruence|].
      apply lookup_app_Some in Ht as [Ht|[_ Ht]]; [cbn in Hc; congruence|].
      apply list_lookup_fmap_Some in Ht as (j & -> & _). done.
    + destruct r; cbn in *; congruence.
Qed.

Lemma held_report args c c' hs ts : ReportTask args c = Ok c' → held c hs ts → held c' hs ts.
Proof.
  intros Hrep. unfold ReportTask in Hrep. apply bind_Ok in Hrep as (r & _ & Hrep).
  destruct (get_task c r) as [t|]; [|done]. case_decide; injection Hrep as <-; [|done].
  apply held_co. intros r' t' Hr' Ht' Hst'. rewrite get_finish, get_upd_task in Ht'.
  case_decide; [|eauto]. apply fmap_Some in Ht' as (t0 & _ & ->). done.
Qed.

Lemma live_step s l s' : mr_inv s → live_ok s → mr_step s l s' → live_ok s'.
Proof using Hn Hinput.
  intros Hinv Hlive Hstep. pose proof Hlive as [Hheld Hwait].
  pose proof (v_own _ _ _ _ _ _ Hinv) as Hown.
  destruct Hstep as
    [s w Hw Hp|s w Hw Hp|s w Hw Hp|s w Hw Hp|s w Hw|s w p c' r Hw Hsel|s w r Hw
    |s l1 w r l2 Hts|s|s w Hpos Hw Hh|s w Hw|s w reply bufs Hw Hty Hb|s w m bufs i buf Hw Hb
    |s w m bufs i Hw Hb|s w reply Hw Hty|s w reply Hw Hty|s w reply Hw Hty|s w args c' Hw Hrep|s w x Hw].
  1-3, 5: by eapply live_set_handler.
  - apply (live_deliver s w exit_reply (co s) (timers s)); [|done]. apply held_delete; [congruence|done].
  - split; cbn.
    + eapply held_select; [congruence|done|done].
    + intros w' h [[<- _]|[_ H']]%lookup_insert_Some; eauto.
  - apply live_deliver; [|done]. by apply held_fill.
  - split; cbn; [|done]. rewrite Hts in Hheld, Hown. by apply held_timeout.
  - by apply live_tick.
  - split; [done|]. cbn. intros w' h Hw'. destruct (decide (w' = w)) as [->|]; [congruence|].
    rewrite lookup_insert_ne by done. eauto.
  - assert (handlers s !! w = None) as Hno.
    { destruct (handlers s !! w) as [h|] eqn:Hh; [|done]. destruct (Hwait _ _ Hh); congruence. }
    split; cbn; [apply held_handler; [congruence|done]|].
    intros w' h [[<- _]|[Hne H']]%lookup_insert_Some; [left; apply lookup_insert_eq|].
    rewrite lookup_insert_ne by done. eauto.
  - by destruct (live_set_worker _ _ _ (WRename (rr_TaskID reply) bufs 0) Hlive Hw).
  - destruct (live_set_worker _ _ _ (WRename m bufs (S i)) Hlive Hw) as [[]|]; done.
  - by destruct (live_set_worker _ _ _
      (WReport {| ra_TaskType := MapTask; ra_TaskId := m; ra_WorkerID := w |}) Hlive Hw).
  - by destruct (live_set_worker _ _ _ (WReport (report_args reply w)) Hlive Hw) as [[]|].
  - by destruct (live_set_worker _ _ _ WIdle Hlive Hw).
  - by destruct (live_set_worker _ _ _ WExit Hlive Hw).
  - destruct (live_set_worker _ _ _ WIdle Hlive Hw) as [[_ Hw']|]; [done| |done]. split; [|exact Hw'].
    by eapply held_report.
  - split; [done|]. cbn. intros w' h Hh. destruct (decide (w' = w)) as [->|].
    + right. apply lookup_insert_eq.
    + rewrite lookup_insert_ne by done. eauto.
Qed.

Lemma live_run s tr s' : mr_inv s → live_ok s → run mr_step s tr s' → mr_inv s' ∧ live_ok s'.
Proof using Hn Hinput.
  intros Hi Hl Hr. refine (run_invariant _ (λ s, mr_inv s ∧ live_ok s) _ _ _ _ Hr (conj Hi Hl)).
  intros s1 l s2 [Hi1 Hl1] Hs. split; [by eapply inv_step|by eapply live_step].
Qed.

(** ** Draining: requests get their replies, timers fire *)
#[local] Instance filling_dec (h : hstate) : Decision (∃ r, h = HFill r).
Proof. destruct h; (left; by eexists) || (right; by intros [? ?]). Defined.

Lemma drain_handlers s :
  ∃ s', s =[ mr_step ]=> s' ∧ ∀ w r, handlers s' !! w ≠ Some (HFill r).
Proof.
  remember (size (handlers s)) as k eqn:Hk. revert s Hk.
  induction k as [k IH] using lt_wf_ind. intros s ->.
  destruct (decide (map_Exists (λ _ h, ∃ r, h = HFill r) (handlers s))) as [Hex|Hno].
  - destruct Hex as (w & h & Hw & r & ->).
    set (c := assign_worker w r (co s)).
    set (s1 := deliver w (reply_of r c) (with_timers ((w, r) :: timers s) (with_co c s))).
    destruct (IH (size (handlers s1))) with (s := s1) as (s' & Hr & Hs'); [|done|].
    + cbn. rewrite map_size_delete, Hw. assert (size (handlers s) ≠ 0%nat); [|lia].
      apply map_size_ne_0_lookup. by eexists _, _.
    + exists s'. split; [|done]. eapply run_tau; [by apply mr_fill|done].
  - exists s. split; [constructor|]. intros w r Hw. apply Hno. exists w, (HFill r). eauto.
Qed.

Lemma drain_timers s :
  (∀ w r, handlers s !! w ≠ Some (HFill r)) →
  ∃ s', s =[ mr_step ]=> s' ∧ timers s' = [] ∧ ∀ w r, handlers s' !! w ≠ Some (HFill r).
Proof.
  remember (timers s) as ts eqn:Hts. revert s Hts. induction ts as [|[w r] ts IH]; intros s Hts Hh.
  - exists s. split_and!; [constructor|done|done].
  - destruct (IH (with_timers ts (with_co (checkTimeout w r (co s)) s)) eq_refl Hh) as (s' & Hr & Hs').
    exists s'. split; [|done]. eapply run_tau; [|exact Hr].
    by apply (mr_timeout mapf reducef s [] w r ts).
Qed.

(** No task is in anybody's hands, and [w] is a worker with nothing to do. *)
Record calm (w : Z) (s : mr) : Prop := {
  m_worker : workers s !! w = Some WIdle;
  m_handler : handlers s !! w = None;
  m_tasks r t : r ≠ FreshRef → get_task (co s) r = Some t → t_TaskStat t ≠ Assigned;
}.

Lemma reach_calm s :
  mr_inv s → live_ok s → ∃ w s', s =[ mr_step ]=> s' ∧ mr_inv s' ∧ calm w s'.
Proof using Hn Hinput.
  intros Hinv Hlive. destruct (drain_handlers s) as (s1 & Hr1 & Hh1).
  destruct (drain_timers s1 Hh1) as (s2 & Hr2 & Ht2 & Hh2).
  pose proof (run_silent _ _ _ _ Hr1 Hr2) as Hr.
  destruct (live_run _ _ _ Hinv Hlive Hr) as [Hinv2 [Hheld2 _]].
  assert (∃ v, 0 < v ∧ workers s2 !! v = None ∧ handlers s2 !! v = None) as (u & Hu & Hw & Hh).
  { clear. set (ids := (map_to_list (workers s2)).*1 ++ (map_to_list (handlers s2)).*1).
    set (b := foldr Z.max 0 ids).
    assert (0 ≤ b ∧ ∀ x, x ∈ ids → x ≤ b) as [Hb Hmax].
    { subst b. induction ids as [|x l [IH0 IH]]; cbn; [split; [done|by intros x ?%not_elem_of_nil]|].
      split; [lia|]. intros y [->|Hy%IH]%elem_of_cons; lia. }
    exists (b + 1). split; [lia|]. split; apply eq_None_not_Some; intros [x Hx];
      assert (b + 1 ∈ ids) as Hin by
        (apply elem_of_app; (left + right); apply list_elem_of_fmap; exists (b + 1, x);
         split; [done|by apply elem_of_map_to_list]); specialize (Hmax _ Hin); lia. }
  exists u, (set_worker u WIdle s2). assert (run mr_step s [] (set_worker u WIdle s2)) as Hrun.
  { eapply run_silent; [done|]. eapply run_tau; [by apply mr_new|constructor]. }
  split_and!; [done|by apply (live_run _ _ _ Hinv Hlive Hrun)|].
  split; cbn; [apply lookup_insert_eq|done|].
  intros r t Hr' Ht Hst. destruct (Hheld2 r t Hr' Ht Hst) as [[w' ?]|[w' Hin]]; [by eapply Hh2|].
  rewrite Ht2 in Hin. by apply not_elem_of_nil in Hin.
Qed.

(** ** One task, from the request to the report *)
Definition ref_of (p : Phase) (i : nat) : task_ref :=
  match p with MapPhase => MapRef i | _ => ReduceRef i end.

Definition phase_tasks (c : Coordinator) : list Task :=
  match phase c with MapPhase => mapTask c | ReducePhase => reduceTask c | AllDone => [] end.

Lemma fetch s w c' r :
  workers s !! w = Some WIdle → handlers s !! w = None → phase (co s) ≠ AllDone →
  selectTask (phase (co s)) (co s) = (c', r) →
  run mr_step s []
    {| co := assign_worker w r c'; disk := disk s; handlers := handlers s;
       timers := (w, r) :: timers s;
       workers := <[w := WDo (reply_of r (assign_worker w r c'))]> (workers s) |}.
Proof.
  intros Hw Hh Hp Hsel. eapply run_tau; [by apply (mr_request _ _ s w)|].
  set (s1 := set_worker w WWait (set_handler w HStart s)).
  assert (run mr_step s1 [] (set_handler w HArg s1)) as Harg.
  { assert (handlers s1 !! w = Some HStart) as Hh1 by apply lookup_insert_eq.
    destruct (phase (co s)) eqn:Hph; [|..|done].
    - eapply run_tau; [by apply mr_if_map|constructor].
    - eapply run_tau; [apply (mr_if_not_map _ _ s1 w Hh1); cbn; congruence|].
      assert (set_handler w HArg s1 = set_handler w HArg (set_handler w HElse s1)) as ->.
      { unfold set_handler; cbn. by rewrite !insert_insert_eq. }
      eapply run_tau; [|constructor]. apply mr_else_reduce; [apply lookup_insert_eq|done]. }
  eapply run_silent; [exact Harg|].
  eapply run_tau; [apply (mr_arg _ _ _ w); apply lookup_insert_eq|].
  eapply run_tau; [apply (mr_select _ _ _ w (phase (co s)) c' r); [apply lookup_insert_eq|done]|].
  eapply run_tau; [apply (mr_fill _ _ _ w r); apply lookup_insert_eq|].
  unfold s1, deliver, set_handler, set_worker, with_timers, with_co.
  cbn [co disk handlers timers workers].
  rewrite lookup_insert_eq, !insert_insert_eq, delete_insert_id by done. constructor.
Qed.

Lemma rename_run s w m bufs : ∀ k i,
  workers s !! w = Some (WRename m bufs i) → (length bufs - i)%nat = k →
  ∃ f, run mr_step s []
    {| co := co s; disk := f; handlers := handlers s; timers := timers s;
       workers := <[w := WReport {| ra_TaskType := MapTask; ra_TaskId := m; ra_WorkerID := w |}]> (workers s) |}.
Proof.
  intros k. revert s. induction k as [|k IH]; intros s i Hw Hk.
  - exists (disk s). eapply run_tau; [apply (mr_mapped _ _ s w m bufs i Hw)|constructor].
    apply lookup_ge_None_2. lia.
  - destruct (lookup_lt_is_Some_2 bufs i) as [buf Hb]; [lia|].
    set (s1 := set_worker w (WRename m bufs (S i))
           (with_disk (<[resolve (tmp_name m (Z.of_nat i)) := Json buf]> (disk s)) s)).
    destruct (IH s1 (S i)) as [f Hr]; [apply lookup_insert_eq|lia|].
    exists f. eapply run_tau; [by apply (mr_rename _ _ s w m bufs i buf)|]. fold s1.
    cbn in Hr. by rewrite insert_insert_eq in Hr.
Qed.

Definition type_of (p : Phase) : TaskType := match p with MapPhase => MapTask | _ => ReduceTask end.

Lemma report_finishes c p i w t :
  get_task c (ref_of p i) = Some t → t_WorkerID t = w → t_TaskStat t = Assigned →
  ReportTask {| ra_TaskType := type_of p; ra_TaskId := Z.of_nat i; ra_WorkerID := w |} c =
    Ok (finish_task (ref_of p i) t c).
Proof.
  intros Ht Hw Hst. unfold ReportTask, report_ref; cbn [ra_TaskType ra_TaskId ra_WorkerID].
  destruct p; cbn [type_of ref_of get_task] in *;
    rewrite (proj2 (go_index_nat _ _ _) Ht); cbn; rewrite Nat2Z.id, Ht; by rewrite decide_True.
Qed.

(** What the worker does with its reply, up to its report. *)
Lemma work s w reply i :
  mr_inv s → workers s !! w = Some (WDo reply) → phase (co s) ≠ AllDone →
  rr_TaskType reply = type_of (phase (co s)) → rr_TaskID reply = Z.of_nat i →
  ∃ f, run mr_step s []
    {| co := co s; disk := f; handlers := handlers s; timers := timers s;
       workers := <[w := WReport {| ra_TaskType := type_of (phase (co s));
                                    ra_TaskId := Z.of_nat i; ra_WorkerID := w |}]> (workers s) |}.
Proof using Hn Hinput.
  intros Hinv Hw Hp Hty Hid. destruct (v_workers _ _ _ _ _ _ Hinv _ _ Hw) as [_ Hok].
  cbn in Hok. unfold reply_ok in Hok. rewrite Hty in Hok.
  destruct (phase (co s)) eqn:Hph; [| |done]; cbn [type_of] in *.
  - destruct Hok as (m & file & Hm & _ & Hf & Hin & Hrn).
    pose proof (map_buffers_ok mapf files n f0 Hn Hinput (disk s) m file reply
                  (v_disk _ _ _ _ _ _ Hinv) Hf Hin Hrn) as Hb.
    set (bufs := part n (kvs_of mapf files f0 m) <$> seq 0 (Z.to_nat n)) in *.
    destruct (rename_run (set_worker w (WRename (rr_TaskID reply) bufs 0) s) w (rr_TaskID reply) bufs
                (length bufs) 0) as [f Hr]; [apply lookup_insert_eq|lia|].
    exists f. eapply run_tau; [by apply (mr_map _ _ s w reply bufs)|].
    cbn in Hr. rewrite insert_insert_eq in Hr. by rewrite <-Hid.
  - exists (doReduce reducef reply (disk s)).
    eapply run_tau; [by apply (mr_reduce _ _ s w reply)|]. unfold report_args. rewrite Hty, Hid. constructor.
Qed.

Lemma finished_phase c i t g :
  phase_tasks c !! i = Some t → t_TaskStat t ≠ Finished → t_TaskStat (g t) = Finished →
  ∀ c', phase c' = phase c → phase_tasks c' = alter g i (phase_tasks c) →
  finished (phase_tasks c') = finished (phase_tasks c) + 1 ∧
  length (phase_tasks c') = length (phase_tasks c).
Proof.
  intros Ht Hst Hg c' _ ->. rewrite length_alter. by rewrite (finished_alter_succ _ _ t).
Qed.

Lemma alter_alter {A} (f g : A → A) (l : list A) : ∀ i,
  alter g i (alter f i l) = alter (λ x, g (f x)) i l.
Proof. induction l as [|x l IH]; intros [|i]; cbn; try done. f_equal. apply IH. Qed.

Lemma phase_finish r t c : phase (finish_task r t c) = phase c.
Proof. unfold finish_task. by destruct r, (t_TaskType t). Qed.

(** The reply for a task of the phase. *)
Lemma reply_of_phase c c2 p i t w :
  co_ok files n c → p ≠ AllDone → get_task c (ref_of p i) = Some t →
  get_task c2 (ref_of p i) = Some (with_worker w (with_stat Assigned t)) →
  reply_of (ref_of p i) c2 = {| rr_TaskType := type_of p; rr_TaskID := Z.of_nat i;
    rr_InputFiles := t_InputFiles t; rr_ReduceNum := nReduce c2 |}.
Proof.
  intros Hco Hp Hget Hget2. unfold reply_of. rewrite Hget2; cbn. destruct p; [| |done]; cbn in Hget |- *.
  - by destruct (c_map _ _ _ Hco _ _ Hget) as (-> & -> & _).
  - by destruct (c_red _ _ _ Hco _ _ Hget) as (-> & -> & _).
Qed.

Lemma task_step s w i :
  mr_inv s → calm w s → phase (co s) ≠ AllDone → first_free (phase_tasks (co s)) = Some i →
  ∃ s', s =[ mr_step ]=> s' ∧ mr_inv s' ∧ calm w s' ∧ phase (co s') = phase (co s) ∧
    finished (phase_tasks (co s')) = finished (phase_tasks (co s)) + 1 ∧
    length (phase_tasks (co s')) = length (phase_tasks (co s)).
Proof using Hn Hinput.
  intros Hinv [Hw Hh Hcalm] Hp Hfree.
  pose proof (proj1 (first_free_Some _ _) Hfree) as [(t & Ht & Hst) _].
  remember (phase (co s)) as p eqn:Hpe. set (r := ref_of p i).
  assert (r ≠ FreshRef) as Hr by (by subst r; destruct p).
  assert (get_task (co s) r = Some t) as Hget
    by (subst r; unfold phase_tasks in Ht; rewrite <-Hpe in Ht; by destruct p).
  assert (selectTask p (co s) = (upd_task r (with_stat Assigned) (co s), r)) as Hsel.
  { unfold selectTask. subst r. unfold phase_tasks in Hfree. rewrite <-Hpe in Hfree.
    destruct p; [| |done]; cbn; by rewrite Hfree. }
  rewrite Hpe in Hp, Hsel. pose proof (fetch s w _ _ Hw Hh Hp Hsel) as Hrun1. rewrite <-Hpe in Hp.
  set (c2 := assign_worker w r (upd_task r (with_stat Assigned) (co s))) in *.
  set (t2 := with_worker w (with_stat Assigned t)).
  assert (get_task c2 r = Some t2) as Hget2.
  { apply (get_upd_same _ _ (with_worker w)); [done|]. by apply get_upd_same. }
  assert (phase c2 = p) as Hp2 by (rewrite Hpe; subst c2 r; unfold assign_worker; by destruct p).
  assert (reply_of r c2 = {| rr_TaskType := type_of p; rr_TaskID := Z.of_nat i;
    rr_InputFiles := t_InputFiles t; rr_ReduceNum := nReduce c2 |}) as Hreply.
  { by apply (reply_of_phase (co s) c2 p i t w); [apply Hinv|..]. }
  set (s1 := {| co := c2; disk := disk s; handlers := handlers s; timers := (w, r) :: timers s;
                workers := <[w := WDo (reply_of r c2)]> (workers s) |}) in *.
  assert (∀ s s' tr, mr_inv s → run mr_step s tr s' → mr_inv s') as Hkeep.
  { intros sa sb tr Ha Hab. eapply (run_invariant _ mr_inv); [|exact Hab|exact Ha]. intros. by eapply inv_step. }
  destruct (work s1 w (reply_of r c2) i) as [f Hrun2]; change (co s1) with c2 in *;
    [by eapply Hkeep|apply lookup_insert_eq|by rewrite Hp2|by rewrite Hp2, Hreply|by rewrite Hreply|].
  rewrite Hp2 in Hrun2.
  pose proof (report_finishes c2 p i w t2 Hget2 eq_refl eq_refl) as Hrep. fold r in Hrep.
  pose proof (run_silent _ _ _ _ Hrun1 Hrun2) as Hrun.
  match type of Hrun with run _ _ _ ?s2 => set (s2' := s2) in * end.
  assert (run mr_step s [] (set_worker w WIdle (with_co (finish_task r t2 c2) s2'))) as Hrun3.
  { eapply run_silent; [exact Hrun|]. eapply run_tau; [|constructor].
    eapply mr_report; [apply lookup_insert_eq|exact Hrep]. }
  eexists. split; [exact Hrun3|]. split; [by eapply Hkeep|]. split; [|split].
  - split; cbn; [apply lookup_insert_eq|done|].
    intros r' t' Hr' Ht'. rewrite get_finish in Ht'. unfold c2, assign_worker in Ht'.
    destruct (decide (r = r')) as [<-|Hne].
    + rewrite (get_upd_same _ _ _ t2) in Ht' by done. by injection Ht' as <-.
    + rewrite !get_upd_other in Ht' by done. by apply (Hcalm r').
  - cbn. by rewrite phase_finish.
  - apply (finished_phase (co s) i t (λ t, with_stat Finished (with_worker w (with_stat Assigned t))));
      [done|congruence|done| |]; cbn; rewrite <-?Hpe, <-?Hp2.
    + by rewrite phase_finish.
    + unfold phase_tasks. rewrite phase_finish, Hp2, <-Hpe. subst c2 r. unfold finish_task, assign_worker.
      destruct p; [| |done]; cbn; destruct (t_TaskType t); cbn; by rewrite !alter_alter.
Qed.

(** ** A whole phase, and the whole job *)
Lemma finished_le l : finished l ≤ go_len l.
Proof. unfold finished, go_len. pose proof (length_filter (λ t, t_TaskStat t = Finished) l). lia. Qed.

Lemma phase_step s w :
  mr_inv s → calm w s → phase (co s) ≠ AllDone →
  ∃ s', s =[ mr_step ]=> s' ∧ mr_inv s' ∧ calm w s' ∧ phase (co s') = phase (co s) ∧
    first_free (phase_tasks (co s')) = None.
Proof using Hn Hinput.
  remember (Z.to_nat (go_len (phase_tasks (co s)) - finished (phase_tasks (co s)))) as k eqn:Hk.
  revert s Hk. induction k as [k IH] using lt_wf_ind. intros s Hk Hinv Hcalm Hp.
  destruct (first_free (phase_tasks (co s))) as [i|] eqn:Hfree;
    [|exists s; split_and!; [constructor|done..]].
  destruct (task_step s w i Hinv Hcalm Hp Hfree) as (s1 & Hr1 & Hinv1 & Hcalm1 & Hp1 & Hf1 & Hl1).
  pose proof (finished_le (phase_tasks (co s1))) as Hle. unfold go_len in *. rewrite Hl1 in *.
  edestruct IH as (s2 & Hr2 & Hinv2 & Hcalm2 & Hp2 & Hdone);
    [|reflexivity|exact Hinv1|exact Hcalm1|congruence|]; [rewrite Hl1; lia|].
  exists s2. split_and!; [by eauto with lts|done|done|congruence|done].
Qed.

Lemma calm_finished w s p :
  calm w s → phase (co s) = p → p ≠ AllDone → first_free (phase_tasks (co s)) = None →
  all_finished (phase_tasks (co s)).
Proof.
  intros Hcalm Hp Hne Hnone. apply first_free_None in Hnone. apply Forall_lookup. intros i t Ht.
  pose proof (Forall_lookup_1 _ _ _ _ Hnone Ht) as Hst. cbn in Hst.
  assert (t_TaskStat t ≠ Assigned) as Hna.
  { apply (m_tasks _ _ Hcalm (ref_of p i)); [by destruct p|].
    unfold phase_tasks in Ht. rewrite Hp in Ht. by destruct p. }
  by destruct (t_TaskStat t).
Qed.

Lemma finished_full l : all_finished l → finished l = go_len l.
Proof.
  unfold finished, go_len. induction 1 as [|t l Ht Hl IH]; [done|].
  rewrite filter_cons_True by done. cbn [length]. lia.
Qed.

Lemma calm_can_finish w s :
  mr_inv s → calm w s → ∃ s', s =[ mr_step ]=> s' ∧ Done (co s') = true.
Proof using Hn Hinput.
  assert (∀ s, mr_inv s → calm w s → phase (co s) = ReducePhase →
    ∃ s', s =[ mr_step ]=> s' ∧ Done (co s') = true) as Hreduce.
  { intros s1 Hinv1 Hcalm1 Hp1.
    destruct (phase_step s1 w Hinv1 Hcalm1) as (s2 & Hr2 & Hinv2 & Hcalm2 & Hp2 & Hno); [congruence|].
    rewrite Hp1 in Hp2.
    pose proof (calm_finished w s2 ReducePhase Hcalm2 Hp2 ltac:(done) Hno) as Hall.
    unfold phase_tasks in Hall. rewrite Hp2 in Hall. apply finished_full in Hall.
    pose proof (c_phase _ _ _ (v_co _ _ _ _ _ _ Hinv2)) as Hph. rewrite Hp2 in Hph.
    destruct Hph as (_ & _ & Hnr).
    eexists. split; [eapply run_silent; [exact Hr2|]; eapply run_tau; [apply mr_tick|constructor]|].
    cbn. unfold checkPhase. rewrite Hp2, decide_True by congruence. done. }
  intros Hinv Hcalm. destruct (phase (co s)) eqn:Hp; [|by apply Hreduce|].
  - destruct (phase_step s w Hinv Hcalm) as (s1 & Hr1 & Hinv1 & Hcalm1 & Hp1 & Hno); [congruence|].
    rewrite Hp in Hp1.
    pose proof (calm_finished w s1 MapPhase Hcalm1 Hp1 ltac:(done) Hno) as Hall.
    unfold phase_tasks in Hall. rewrite Hp1 in Hall. apply finished_full in Hall.
    pose proof (c_phase _ _ _ (v_co _ _ _ _ _ _ Hinv1)) as Hph. rewrite Hp1 in Hph.
    destruct Hph as (Hnr & Hnm & Hempty).
    set (s2 := with_co (checkPhase (Glob (disk s1)) (co s1)) s1).
    assert (mr_step s1 None s2) as Hstep by apply mr_tick.
    assert (co s2 = makeReduceTask (Glob (disk s1)) (with_phase ReducePhase (co s1))) as Hco2.
    { cbn. unfold checkPhase. rewrite Hp1, decide_True by congruence. done. }
    destruct (Hreduce s2) as (s3 & Hr3 & Hdone).
    + by eapply inv_step.
    + destruct Hcalm1 as [Hw Hh Htasks]. split; [done|done|].
      intros [i|i|] t Hr Ht; [| |done]; rewrite Hco2 in Ht; cbn in Ht; [by apply (Htasks (MapRef i))|].
      rewrite Hempty in Ht; cbn in Ht. apply list_lookup_fmap_Some in Ht as (j & -> & _). done.
    + by rewrite Hco2.
    + exists s3. split; [|done]. eapply run_silent; [exact Hr1|]. by eapply run_tau.
  - exists s. split; [constructor|]. unfold Done. by rewrite bool_decide_eq_true.
Qed.

Lemma reachable_can_finish s0 tr s :
  mr_init files n f0 s0 → run mr_step s0 tr s → ∃ s', s =[ mr_step ]=> s' ∧ Done (co s') = true.
Proof using Hn Hinput.
  intros Hinit Hrun.
  destruct (live_run s0 tr s) as [Hinv Hlive]; [by apply inv_init|by apply live_start|done|].
  destruct (reach_calm s Hinv Hlive) as (w & s1 & Hr1 & Hinv1 & Hcalm1).
  destruct (calm_can_finish w s1 Hinv1 Hcalm1) as (s2 & Hr2 & Hdone).
  exists s2. split; [by eauto with lts|done].
Qed.
End Liveness.

(** C12. No task is lost: from every state the system can reach, whatever workers
    crashed, whatever timers fired and whatever requests are under way, there
    is a continuation in which the coordinator's [Done] answers [true]. *)
Theorem mr_can_finish `{Cwd} `{GoSort} mapf reducef files n f0 s0 tr s :
  0 < n →
  (∀ file, file ∈ files →
    (∃ text, createTmpDir f0 !! resolve file = Some (Text text)) ∧
    ∀ r, 0 ≤ r < n → resolve file ≠ resolve (out_name r)) →
  mr_init files n f0 s0 → run (mr_step mapf reducef) s0 tr s →
  ∃ s', run (mr_step mapf reducef) s [] s' ∧ Done (co s') = true.
Proof. intros Hn Hinput. by apply (reachable_can_finish mapf reducef files n f0 Hn Hinput). Qed.
