(* ===== verification/MRParallel.v ===== *)
(** * MapReduce: the parallelism probe (src/src/mrapps/mtiming.go, rtiming.go)

    [nparallel] leaves a file named after its process, counts the files of
    processes that are alive, and removes its own.  The first part is what it
    uses of [fmt.Sscanf]; the second the function, in the three pieces that other
    processes interleave with; the third is a system of workers that run it,
    start, crash and exit.  [nparallel_counts]: the answer is the number of
    workers that are inside [nparallel], and removing the file never fails. *)
From Stdlib Require Import Ascii.
From S2P Require Import Prelude GoLib.
Local Open Scope Z_scope.

(** ** [fmt.Sscanf] with a literal prefix and one [%d]

    Names are ASCII.  [None] is what the caller treats alike: nothing was
    scanned, or an error. *)
Definition digit_of (c : ascii) : option Z :=
  let d := Z.of_nat (nat_of_ascii c) - 48 in if decide (0 ≤ d ≤ 9) then Some d else None.

(** The digits at the front, behind those that make [acc]. *)
Fixpoint scanNumber (acc : Z) (s : string) : Z :=
  match s with
  | String c s' => match digit_of c with Some d => scanNumber (acc * 10 + d) s' | None => acc end
  | EmptyString => acc
  end.

(** White space is skipped before the operand, but a newline is an error. *)
Fixpoint SkipSpace (s : string) : option string :=
  match s with
  | String c s' =>
      if decide (nat_of_ascii c = 10%nat) then None
      else if decide (nat_of_ascii c ∈ [9; 11; 12; 13; 32]%nat) then SkipSpace s' else Some s
  | EmptyString => Some s
  end.

Definition scan_sign (s : string) : Z * string :=
  match s with
  | String c s' =>
      if decide (c = "-"%char) then (-1, s') else if decide (c = "+"%char) then (1, s') else (1, s)
  | EmptyString => (1, s)
  end.

(** At least one digit is needed, and the number has to fit an [int]. *)
Definition scanInt (s : string) : option Z :=
  s ← SkipSpace s;
  let '(sign, s) := scan_sign s in
  match s with
  | String c s' =>
      d ← digit_of c;
      let x := sign * scanNumber d s' in
      if decide (-2^63 ≤ x < 2^63) then Some x else None
  | EmptyString => None
  end.

Fixpoint after (pre s : string) : option string :=
  match pre, s with
  | EmptyString, _ => Some s
  | String c pre', String c' s' => if decide (c = c') then after pre' s' else None
  | String _ _, EmptyString => None
  end.

Definition Sscanf_int (pre name : string) : option Z := rest ← after pre name; scanInt rest.

(** *** [%d] reads back what [%d] has printed *)
Lemma digit_of_char x : (x < 10)%N → digit_of (pretty_N_char x) = Some (Z.of_N x).
Proof.
  intros Hx.
  assert (x = 0 ∨ x = 1 ∨ x = 2 ∨ x = 3 ∨ x = 4 ∨ x = 5 ∨ x = 6 ∨ x = 7 ∨ x = 8 ∨ x = 9)%N as Hc by lia.
  by destruct_or! Hc; subst.
Qed.

Lemma scanNumber_go x s : scanNumber 0 (pretty_N_go x s) = scanNumber (Z.of_N x) s.
Proof.
  revert s. induction (N.lt_wf_0 x) as [x _ IH]; intros s.
  assert (x = 0 ∨ 0 < x)%N as [->|?] by lia; [by rewrite pretty_N_go_0|].
  rewrite pretty_N_go_step, IH by (done || by apply N.div_lt). cbn [scanNumber].
  rewrite digit_of_char by (apply N.mod_lt; lia). f_equal.
  rewrite N2Z.inj_div, N2Z.inj_mod. pose proof (Z.div_mod (Z.of_N x) (Z.of_N 10)). lia.
Qed.

Lemma scanNumber_pretty z : 0 ≤ z → scanNumber 0 (pretty z) = z.
Proof. destruct z as [|p|p]; [done| |done]. intros _. exact (scanNumber_go (Npos p) ""). Qed.

Lemma digit_char c s : digit c →
  SkipSpace (String c s) = Some (String c s) ∧ scan_sign (String c s) = (1, String c s).
Proof. intros [x ->]. unfold pretty_N_char. by repeat case_match. Qed.

Lemma pretty_head z : 0 ≤ z → ∃ c s, pretty z = String c s ∧ digit c.
Proof.
  intros Hz. destruct (pretty z) as [|c s] eqn:Hp.
  - destruct z as [|p|p]; [done| |done]. exfalso.
    pose proof (scanNumber_pretty (Zpos p) Hz) as Hs. rewrite Hp in Hs. done.
  - exists c, s. split; [done|]. pose proof (pretty_digits z Hz) as Hd. rewrite Hp in Hd.
    by inversion Hd.
Qed.

Lemma scanInt_pretty z : 0 ≤ z < 2^63 → scanInt (pretty z) = Some z.
Proof.
  intros Hz. destruct (pretty_head z ltac:(lia)) as (c & s & Hp & Hc).
  pose proof (scanNumber_pretty z ltac:(lia)) as Hs. rewrite Hp in Hs |- *.
  destruct (digit_char c s Hc) as [Hsk Hsg]. unfold scanInt. rewrite Hsk. cbn [mbind option_bind].
  rewrite Hsg. assert (is_Some (digit_of c)) as [d Hd].
  { destruct Hc as [x ->]. unfold pretty_N_char. by repeat case_match; eexists. }
  cbn [scanNumber] in Hs. rewrite Hd in Hs |- *. replace (0 * 10 + d) with d in Hs by lia.
  cbn [mbind option_bind]. rewrite decide_True by lia. f_equal. lia.
Qed.

Lemma after_app pre s : after pre (pre +:+ s) = Some s.
Proof.
  induction pre as [|c pre IH]; [by destruct s|].
  change (after (String c pre) (String c (pre +:+ s)) = Some s). cbn [after]. by rewrite decide_True.
Qed.

Lemma Sscanf_int_pretty pre z : 0 ≤ z < 2^63 → Sscanf_int pre (pre +:+ pretty z) = Some z.
Proof. intros Hz. unfold Sscanf_int. rewrite after_app. by apply scanInt_pretty. Qed.

(** ** [nparallel]

    [dir] are the names in the working directory, [alive] the processes that
    take signal 0.  Creating the file and opening the directory succeed;
    [Readdirnames] answers at most a million of the names, in any order. *)
Section NParallel.
Context (phase : string).

Definition worker_prefix : string := "mr-worker-" +:+ phase +:+ "-".
Definition worker_file (pid : Z) : string := worker_prefix +:+ pretty pid.

Definition WriteFile (name : string) (dir : gset string) : gset string := {[name]} ∪ dir.

Definition is_alive (alive : Z → bool) (name : string) : bool :=
  match Sscanf_int worker_prefix name with Some xpid => alive xpid | None => false end.

Definition count_alive (alive : Z → bool) (names : list string) : Z :=
  foldl (λ ret name, if is_alive alive name then ret + 1 else ret) 0 names.

Definition max_names : nat := Z.to_nat 1000000.

Definition Remove (name : string) (dir : gset string) : outcome (gset string) :=
  if decide (name ∈ dir) then Ok (dir ∖ {[name]}) else Panic.

Definition nparallel (alive : Z → bool) (names : gset string → list string) (pid : Z)
    (dir : gset string) : outcome (gset string * Z) :=
  let myfilename := worker_file pid in
  let dir := WriteFile myfilename dir in
  let ret := count_alive alive (take max_names (names dir)) in
  dir ← Remove myfilename dir;
  Ok (dir, ret).

(** rtiming.go has its own copy. *)
Definition rtiming_nparallel := nparallel.

(** ** Workers that run it

    A worker is outside, has written its file, or has counted and sleeps. *)
Inductive place := Outside | Wrote | Slept (ret : Z).
#[export] Instance place_eq_dec : EqDecision place.
Proof. solve_decision. Defined.

(** [pids] are the process ids that workers have ever had. *)
Record workers_state := { workers : gmap Z place; pids : gset Z; dir : gset string }.

(** Processes that are no workers take signal 0 as well. *)
Context (others : gset Z).

Definition alive (st : workers_state) (xpid : Z) : bool :=
  bool_decide (is_Some (workers st !! xpid) ∨ xpid ∈ others).

Definition move (pid : Z) (p : place) (d : gset string) (st : workers_state) : workers_state :=
  {| workers := <[pid := p]> (workers st); pids := {[pid]} ∪ pids st; dir := d |}.

(** An event is what [nparallel] answers to a worker.  A worker starts with a
    process id that is not in use and that no earlier worker had, and may end at any
    moment; the job's other files come and go. *)
Inductive probe_step : workers_state → option (Z * Z) → workers_state → Prop :=
  | probe_start st pid :
      0 < pid < 2^63 → pid ∉ pids st → pid ∉ others →
      probe_step st None (move pid Outside (dir st) st)
  | probe_write st pid :
      workers st !! pid = Some Outside →
      probe_step st None (move pid Wrote (WriteFile (worker_file pid) (dir st)) st)
  | probe_count st pid names :
      workers st !! pid = Some Wrote → names ≡ₚ elements (dir st) →
      probe_step st None (move pid (Slept (count_alive (alive st) (take max_names names))) (dir st) st)
  | probe_return st pid ret d :
      workers st !! pid = Some (Slept ret) → Remove (worker_file pid) (dir st) = Ok d →
      probe_step st (Some (pid, ret)) (move pid Outside d st)
  | probe_panic st pid ret :
      workers st !! pid = Some (Slept ret) → Remove (worker_file pid) (dir st) = Panic →
      probe_step st None {| workers := delete pid (workers st); pids := pids st; dir := dir st |}
  | probe_exit st pid :
      probe_step st None {| workers := delete pid (workers st); pids := pids st; dir := dir st |}
  | probe_other st d :
      (∀ f z, Sscanf_int worker_prefix f = Some z → f ∈ d ↔ f ∈ dir st) →
      probe_step st None {| workers := workers st; pids := pids st; dir := d |}.

(** The test script removes the files of earlier jobs before it starts. *)
Definition probe_init (d : gset string) : workers_state := {| workers := ∅; pids := ∅; dir := d |}.
Definition no_workers (d : gset string) : Prop :=
  ∀ f, f ∈ d → Sscanf_int worker_prefix f = None.

(** ** The invariant *)
Definition inside (st : workers_state) : gmap Z place := filter (λ w, w.2 ≠ Outside) (workers st).

Record probe_inv (st : workers_state) : Prop := {
  pr_pids pid : pid ∈ pids st → 0 < pid < 2^63 ∧ pid ∉ others;
  pr_workers pid p : workers st !! pid = Some p → pid ∈ pids st;
  pr_file pid p : workers st !! pid = Some p → worker_file pid ∈ dir st ↔ p ≠ Outside;
  pr_dir f z : f ∈ dir st → Sscanf_int worker_prefix f = Some z → z ∈ pids st ∧ f = worker_file z }.

Lemma worker_file_scan z : 0 < z < 2^63 → Sscanf_int worker_prefix (worker_file z) = Some z.
Proof. intros Hz. apply Sscanf_int_pretty. lia. Qed.

Lemma probe_inv_init d : no_workers d → probe_inv (probe_init d).
Proof. intros Hd. split; cbn; [set_solver|by intros ? ? ?%lookup_empty_Some..|]. intros f z Hf Hz. by rewrite Hd in Hz. Qed.

(** A step that moves one worker and touches no worker's file but its own. *)
Lemma probe_inv_move st pid p d :
  probe_inv st → pid ∈ pids st ∨ (0 < pid < 2^63 ∧ pid ∉ others) →
  (worker_file pid ∈ d ↔ p ≠ Outside) → (∀ f, f ≠ worker_file pid → f ∈ d ↔ f ∈ dir st) →
  probe_inv (move pid p d st).
Proof.
  intros [H1 H2 H3 H4] Hpid Hown Hrest.
  assert (∀ z, z ∈ {[pid]} ∪ pids st → 0 < z < 2^63 ∧ z ∉ others) as Hpids.
  { intros z [->%elem_of_singleton|Hz]%elem_of_union; [destruct Hpid as [?|?]; [by apply H1|done]|by apply H1]. }
  split; cbn; [done| | |].
  - intros q x [[<- _]|[_ Hq%H2]]%lookup_insert_Some; set_solver.
  - intros q x [[<- <-]|[Hne Hq]]%lookup_insert_Some; [done|].
    rewrite Hrest; [by apply H3|]. intros Heq.
    pose proof (worker_file_scan q ltac:(apply Hpids; set_solver)) as Hs.
    rewrite Heq, (worker_file_scan pid) in Hs by (apply Hpids; set_solver). congruence.
  - intros f z Hf Hz. destruct (decide (f = worker_file pid)) as [->|Hne].
    + rewrite worker_file_scan in Hz by (apply Hpids; set_solver). injection Hz as <-. set_solver.
    + apply Hrest in Hf; [|done]. destruct (H4 _ _ Hf Hz). set_solver.
Qed.

Lemma probe_inv_leave st pid :
  probe_inv st → probe_inv {| workers := delete pid (workers st); pids := pids st; dir := dir st |}.
Proof. intros [H1 H2 H3 H4]. split; cbn; [done| | |done]; by intros q x [_ ?]%lookup_delete_Some; eauto. Qed.

Lemma own_file st pid p :
  probe_inv st → workers st !! pid = Some p → p ≠ Outside → worker_file pid ∈ dir st.
Proof. intros Hi Hp Hne. by apply (pr_file _ Hi _ _ Hp). Qed.

Lemma probe_inv_step st l st' : probe_inv st → probe_step st l st' → probe_inv st'.
Proof.
  intros Hi Hs. destruct Hs as [st pid Hz Hn Ho|st pid Hw|st pid names Hw Hp|st pid ret d Hw Hr
                               |st pid ret Hw Hr|st pid|st d Hd].
  - apply probe_inv_move; [done|by right| |done]. split; [|done]. intros Hf.
    destruct (pr_dir _ Hi _ _ Hf (worker_file_scan _ Hz)). done.
  - apply probe_inv_move; [done|left; by eapply pr_workers| |]; unfold WriteFile; set_solver.
  - apply probe_inv_move; [done|left; by eapply pr_workers| |done].
    split; [done|]. intros _. by eapply own_file.
  - unfold Remove in Hr. case_decide; [|done]. injection Hr as <-.
    apply probe_inv_move; [done|left; by eapply pr_workers| |]; set_solver.
  - by apply probe_inv_leave.
  - by apply probe_inv_leave.
  - destruct Hi as [H1 H2 H3 H4]. split; cbn; [done..| |].
    + intros q x Hq. rewrite Hd; [by apply H3|]. apply worker_file_scan, H1. by eapply H2.
    + intros f z Hf Hz. rewrite Hd in Hf by done. by apply H4.
Qed.

(** ** What is counted *)
Lemma count_alive_ext al al' names :
  (∀ x, al x = al' x) → count_alive al names = count_alive al' names.
Proof.
  intros Hal. unfold count_alive. generalize 0. induction names as [|f names IH]; intros n; [done|].
  cbn [foldl]. rewrite IH. do 2 f_equal. unfold is_alive. destruct (Sscanf_int _ f); [by rewrite Hal|done].
Qed.

Lemma count_alive_filter al names :
  count_alive al names = go_len (filter (λ f, is_alive al f = true) names).
Proof.
  unfold count_alive. enough (∀ n, foldl (λ ret name, if is_alive al name then ret + 1 else ret) n names
    = n + go_len (filter (λ f, is_alive al f = true) names)) as -> by lia.
  induction names as [|f names IH]; intros n; cbn [foldl]; [unfold go_len; cbn; lia|].
  rewrite IH, filter_cons. unfold go_len. case_decide as Hf; [rewrite Hf; cbn; lia|].
  by destruct (is_alive al f).
Qed.

Lemma inside_lookup st pid : is_Some (inside st !! pid) ↔ ∃ p, workers st !! pid = Some p ∧ p ≠ Outside.
Proof.
  unfold inside, is_Some. setoid_rewrite map_lookup_filter_Some. cbn. naive_solver.
Qed.

(** The files that are counted are those of the workers inside. *)
Lemma counted_files st f :
  probe_inv st →
  f ∈ dir st ∧ is_alive (alive st) f = true ↔ ∃ pid, is_Some (inside st !! pid) ∧ f = worker_file pid.
Proof.
  intros Hi. setoid_rewrite inside_lookup. unfold is_alive. split.
  - intros [Hf Ha]. destruct (Sscanf_int _ f) as [z|] eqn:Hz; [|done].
    destruct (pr_dir _ Hi _ _ Hf Hz) as [Hp ->]. apply bool_decide_eq_true in Ha.
    destruct Ha as [[p Hw]|Ho]; [|by destruct (pr_pids _ Hi _ Hp)].
    exists z. split; [|done]. exists p. split; [done|]. by apply (pr_file _ Hi _ _ Hw).
  - intros (pid & (p & Hw & Hne) & ->). split; [by eapply own_file|].
    rewrite worker_file_scan by (eapply pr_pids, pr_workers; done). apply bool_decide_eq_true. left. by eexists.
Qed.

Lemma count_inside st names :
  probe_inv st → names ≡ₚ elements (dir st) → count_alive (alive st) names = Z.of_nat (size (inside st)).
Proof.
  intros Hi Hn. rewrite count_alive_filter. unfold go_len. f_equal.
  trans (length (worker_file <$> (map_to_list (inside st)).*1)).
  - apply Permutation_length, NoDup_Permutation.
    + apply NoDup_filter. rewrite Hn. apply NoDup_elements.
    + apply NoDup_fmap_2_strong; [|apply NoDup_fst_map_to_list].
      assert (∀ x, x ∈ (map_to_list (inside st)).*1 → 0 < x < 2^63) as Hr.
      { intros x ([? p] & -> & Hx%elem_of_map_to_list)%list_elem_of_fmap.
        destruct (proj1 (inside_lookup st z) ltac:(by eexists)) as (q & Hq & _).
        by eapply pr_pids, pr_workers. }
      intros x y Hx Hy Heq. pose proof (worker_file_scan x (Hr x Hx)) as Hs.
      rewrite Heq, worker_file_scan in Hs by auto. congruence.
    + intros f. rewrite list_elem_of_filter, Hn, elem_of_elements, (comm and), counted_files by done.
      rewrite list_elem_of_fmap. split.
      * intros (pid & [p Hp] & ->). exists pid. split; [done|]. apply list_elem_of_fmap.
        exists (pid, p). split; [done|]. by apply elem_of_map_to_list.
      * intros (pid & -> & ([? p] & -> & Hp%elem_of_map_to_list)%list_elem_of_fmap). eauto.
  - by rewrite !length_fmap, length_map_to_list.
Qed.

(** In every run of the workers of one job, whatever crashes, a worker that
    counts gets the number of workers that are inside [nparallel] at that
    moment, itself included (the directory has at most a million names), and a
    worker that returns finds its file and removes it without a panic: files of
    crashed workers do not disturb. *)
Theorem nparallel_counts d tr st pid :
  no_workers d → run probe_step (probe_init d) tr st →
  (∀ names, workers st !! pid = Some Wrote → names ≡ₚ elements (dir st) → (length names ≤ max_names)%nat →
    count_alive (alive st) (take max_names names) = Z.of_nat (size (inside st)) ∧
    1 ≤ Z.of_nat (size (inside st)) ≤ Z.of_nat (size (workers st))) ∧
  (∀ ret, workers st !! pid = Some (Slept ret) →
    ∃ d', Remove (worker_file pid) (dir st) = Ok d' ∧ ∀ f, f ∈ d' ↔ f ∈ dir st ∧ f ≠ worker_file pid).
Proof.
  intros Hd Hr. assert (probe_inv st) as Hi.
  { eapply (run_invariant probe_step probe_inv); [apply probe_inv_step|done|by apply probe_inv_init]. }
  split.
  - intros names Hw Hn Hlen. rewrite take_ge by done. split; [by apply count_inside|]. split.
    + enough (size (inside st) ≠ 0%nat) by lia. intros Hz%map_size_empty_inv.
      destruct (proj2 (inside_lookup st pid) ltac:(by eexists)) as [p Hp]. by rewrite Hz in Hp.
    + apply inj_le. unfold inside. apply map_subseteq_size, map_filter_subseteq.
  - intros ret Hw. unfold Remove. rewrite decide_True by (by eapply own_file).
    eexists. split; [done|]. set_solver.
Qed.

(** [nparallel] is what a worker's three steps compute when no other process
    comes between them. *)
Theorem nparallel_undisturbed st pid names d ret :
  workers st !! pid = Some Outside → (∀ x, names x ≡ₚ elements x) →
  nparallel (alive st) names pid (dir st) = Ok (d, ret) →
  ∃ st', run probe_step st [(pid, ret)] st' ∧ dir st' = d ∧ workers st' !! pid = Some Outside.
Proof.
  intros Hw Hn Hnp. apply bind_Ok in Hnp as (d' & Hr & [= <- <-]).
  set (st1 := move pid Wrote (WriteFile (worker_file pid) (dir st)) st).
  rewrite (count_alive_ext (alive st) (alive st1)).
  2:{ intros x. unfold alive. cbn. apply bool_decide_ext. rewrite lookup_insert_is_Some'. naive_solver. }
  eexists. split; [|split].
  - apply run_tau with st1; [by constructor|].
    eapply run_tau; [apply probe_count with (pid := pid) (names := names (dir st1))|].
    { cbn. by rewrite lookup_insert_eq. }
    { apply Hn. }
    eapply run_event; [|constructor]. apply probe_return; [cbn; by rewrite lookup_insert_eq|exact Hr].
  - done.
  - cbn. by rewrite lookup_insert_eq.
Qed.

(** ** A scheduler, for concrete runs *)
Inductive probe_move := PStart (pid : Z) | PWrite (pid : Z) | PCount (pid : Z) | PReturn (pid : Z) | PExit (pid : Z).

Definition probe_do (m : probe_move) (st : workers_state) : option (list (Z * Z) * workers_state) :=
  match m with
  | PStart pid =>
      if decide (0 < pid < 2^63 ∧ (pid ∉ pids st) ∧ (pid ∉ others)) then Some ([], move pid Outside (dir st) st)
      else None
  | PWrite pid =>
      match workers st !! pid with
      | Some Outside => Some ([], move pid Wrote (WriteFile (worker_file pid) (dir st)) st)
      | _ => None
      end
  | PCount pid =>
      match workers st !! pid with
      | Some Wrote =>
          let ret := count_alive (alive st) (take max_names (elements (dir st))) in
          Some ([], move pid (Slept ret) (dir st) st)
      | _ => None
      end
  | PReturn pid =>
      match (workers st !! pid), Remove (worker_file pid) (dir st) with
      | Some (Slept ret), Ok d => Some ([(pid, ret)], move pid Outside d st)
      | _, _ => None
      end
  | PExit pid =>
      Some ([], {| workers := delete pid (workers st); pids := pids st; dir := dir st |})
  end.

Fixpoint probe_all (ms : list probe_move) (st : workers_state) : option (list (Z * Z) * workers_state) :=
  match ms with
  | [] => Some ([], st)
  | m :: ms =>
      p ← probe_do m st;
      q ← probe_all ms p.2;
      Some (p.1 ++ q.1, q.2)
  end.

Lemma probe_do_sound m st tr st' : probe_do m st = Some (tr, st') → run probe_step st tr st'.
Proof.
  intros Hm. destruct m as [pid|pid|pid|pid|pid]; cbn in Hm; repeat (case_match || case_decide);
    simplify_eq; destruct_and?.
  - by apply (run_one _ _ None), probe_start.
  - by apply (run_one _ _ None), probe_write.
  - by apply (run_one _ _ None), probe_count.
  - by eapply (run_one _ _ (Some _)), probe_return.
  - by apply (run_one _ _ None), probe_exit.
Qed.

Lemma probe_all_sound ms st tr st' : probe_all ms st = Some (tr, st') → run probe_step st tr st'.
Proof.
  revert st tr. induction ms as [|m ms IH]; intros st tr Hm; cbn in Hm; [simplify_eq; constructor|].
  destruct (probe_do m st) as [[tr1 st1]|] eqn:H1; [|done]. cbn in Hm.
  destruct (probe_all ms st1) as [[tr2 st2]|] eqn:H2; [|done]. cbn in Hm. simplify_eq.
  eapply run_trans; [by eapply probe_do_sound|by apply IH].
Qed.
End NParallel.

(** What the script looks for: two workers that overlap both answer 2, and a
    third one, which crashes, leaves a file that is not counted afterwards. *)
Definition overlap : list probe_move :=
  [PStart 1; PStart 2; PStart 3; PWrite 3; PExit 3; PWrite 1; PWrite 2; PCount 1; PCount 2;
   PReturn 1; PReturn 2; PWrite 2; PCount 2; PReturn 2].

Lemma parallel_two :
  ∃ st, run (probe_step "map" ∅) (probe_init ∅) [(1, 2); (2, 2); (2, 1)] st ∧
    elements (dir st) = [worker_file "map" 3].
Proof.
  destruct (probe_all "map" ∅ overlap (probe_init ∅)) as [[tr st]|] eqn:Hr; [|by vm_compute in Hr].
  apply probe_all_sound in Hr as Hrun. vm_compute in Hr. injection Hr as <- <-.
  eexists. split; [exact Hrun|by vm_compute].
Qed.
