(* ===== verification/MRApps.v ===== *)
(** * MapReduce applications (src/src/mrapps)

    The word count, the indexer, and what the applications of the tests
    compute: crash, nocrash, early_exit, jobcount, mtiming and rtiming, with
    what they ask of the operating system as arguments ([MRParallel] has the
    timing applications' count of live workers).  The reduce functions
    that depend on the values do not depend on their order, which is what
    [mr_done_correct] asks of them; [wc_job_counts_words] is the whole
    word-count job, [jobcount_counts] the count of the map tasks. *)
From Stdlib Require Import Ascii.
From S2P Require Import Prelude GoLib Utf8 Paths MRParallel MRWorker Coordinator MRSystem MRCorrect MRLiveness.
Local Open Scope Z_scope.

(** [strconv.Itoa] of a length. *)
Definition itoa_len {A} (l : list A) : string := pretty (go_len l).

(** [strings.Join] *)
Fixpoint Join (elems : list string) (sep : string) : string :=
  match elems with
  | [] => EmptyString
  | [e] => e
  | e :: rest => e +:+ sep +:+ Join rest sep
  end.

(** ** [wc.go] *)
Section WC.
(** [unicode.IsLetter], by the library's tables *)
Context (IsLetter : Z → bool).

(** The function [ff] of [Map]: does a rune separate words? *)
Definition wc_ff (r : Z) : bool := negb (IsLetter r).

Definition wc_Map (filename contents : string) : list KeyValue :=
  (λ w, {| kv_Key := w; kv_Value := "1" |}) <$> FieldsFunc contents wc_ff.
End WC.

Definition wc_Reduce (key : string) (values : list string) : string := itoa_len values.

(** ** [indexer.go] *)
Definition indexer_Reduce `{GoSort} (key : string) (values : list string) : string :=
  itoa_len values +:+ " " +:+ Join (go_sort String.ltb values) ",".

(** The words of a document, each once; [range] visits them in any order. *)
Definition indexer_Map (IsLetter : Z → bool) (range : gset string → list string)
    (document value : string) : list KeyValue :=
  (λ w, {| kv_Key := w; kv_Value := document |}) <$>
    range (list_to_set (FieldsFunc value (λ x, negb (IsLetter x)))).

(** ** [crash.go], [nocrash.go]

    [maybeCrash] draws [rr] below 1000, and then, for a delay, [ms] below ten
    thousand; the worker exits with code 1, waits for [ms] milliseconds, or goes on. *)
Inductive chance := Exits | Delays (ms : Z) | GoesOn.

Definition maybeCrash (rr ms : Z) : chance :=
  if decide (rr < 330) then Exits
  else if decide (rr < 660) then Delays ms
  else GoesOn.

(** [nocrash.go] never takes the branch that exits. *)
Definition nocrash_maybeCrash (rr : Z) : chance :=
  if false && bool_decide (rr < 500) then Exits else GoesOn.

(** A task of these applications, [None] when the worker exits in it. *)
Definition unless_crashed {A} (c : chance) (result : A) : option A :=
  match c with Exits => None | Delays _ | GoesOn => Some result end.

(** What the two compute when they do not crash. *)
Definition crash_Map (filename contents : string) : list KeyValue :=
  [ {| kv_Key := "a"; kv_Value := filename |};
    {| kv_Key := "b"; kv_Value := itoa_len (chars filename) |};
    {| kv_Key := "c"; kv_Value := itoa_len (chars contents) |};
    {| kv_Key := "d"; kv_Value := "xyzzy" |} ].

Definition crash_Reduce `{GoSort} (key : string) (values : list string) : string :=
  Join (go_sort String.ltb values) " ".

Definition nocrash_Map : string → string → list KeyValue := crash_Map.
Definition nocrash_Reduce `{GoSort} : string → list string → string := crash_Reduce.

(** ** [early_exit.go], without the time its reduce tasks sleep *)
Definition early_exit_Map (filename contents : string) : list KeyValue :=
  [{| kv_Key := filename; kv_Value := "1" |}].
Definition early_exit_Reduce (key : string) (values : list string) : string := itoa_len values.

(** ** [jobcount.go]

    [files] are the names in the working directory, [count] the program's
    counter, [me] its process id; [WriteFile] creates the file or keeps it, and
    [ReadDir] lists the directory. *)
Definition jobcount_name (me count : Z) : string :=
  "mr-worker-jobcount-" +:+ pretty me +:+ "-" +:+ pretty count.

Definition jobcount_Map (me : Z) (filename contents : string) (st : Z * gset string)
    : Z * gset string * list KeyValue :=
  let '(count, files) := st in
  let f := jobcount_name me count in
  (count + 1, {[f]} ∪ files, [{| kv_Key := "a"; kv_Value := "x" |}]).

Definition jobcount_Reduce (files : gset string) (key : string) (values : list string) : string :=
  itoa_len (filter (λ f, String.prefix "mr-worker-jobcount" f = true) (elements files)).

(** ** [mtiming.go], [rtiming.go]

    [n] is what [nparallel] answers ([MRParallel]). *)

(** The process id and the start time as [fmt.Sprintf] prints them. *)
Definition mtiming_Map (pid ts : string) (n : Z) (filename contents : string) : list KeyValue :=
  [{| kv_Key := "times-" +:+ pid; kv_Value := ts |};
   {| kv_Key := "parallel-" +:+ pid; kv_Value := pretty n |}].
Definition mtiming_Reduce `{GoSort} (key : string) (values : list string) : string :=
  Join (go_sort String.ltb values) " ".

Definition rtiming_Map (filename contents : string) : list KeyValue :=
  (λ k, {| kv_Key := k; kv_Value := "1" |}) <$> ["a"; "b"; "c"; "d"; "e"; "f"; "g"; "h"; "i"; "j"]%string.
Definition rtiming_Reduce (n : Z) (key : string) (values : list string) : string := pretty n.

(** The tasks with the call of [nparallel]; [dir] are the files in the
    directory they leave their own in for a second. *)
Definition mtiming_task (alive : Z → bool) (names : gset string → list string) (pid : Z) (ts : string)
    (filename contents : string) (dir : gset string) : outcome (gset string * list KeyValue) :=
  '(dir, n) ← nparallel "map" alive names pid dir;
  Ok (dir, mtiming_Map (pretty pid) ts n filename contents).

Definition rtiming_task (alive : Z → bool) (names : gset string → list string) (pid : Z)
    (key : string) (values : list string) (dir : gset string) : outcome (gset string * string) :=
  '(dir, n) ← rtiming_nparallel "reduce" alive names pid dir;
  Ok (dir, rtiming_Reduce n key values).

(** A third of the tasks of [crash.go] fail, none of [nocrash.go]; what a task
    computes does not depend on the draw. *)
Lemma crash_chances {A} rr ms (result : A) :
  (unless_crashed (maybeCrash rr ms) result = None ↔ rr < 330) ∧
  (330 ≤ rr → unless_crashed (maybeCrash rr ms) result = Some result) ∧
  unless_crashed (nocrash_maybeCrash rr) result = Some result.
Proof. unfold maybeCrash. split_and!; [|intros ?|done]; repeat case_decide; cbn; try done; lia || split; done || lia. Qed.

(** ** The order of the values does not matter *)
Lemma sorted_strings_unique l l' :
  StronglySorted (λ x y, String.ltb y x = false) l →
  StronglySorted (λ x y, String.ltb y x = false) l' → l ≡ₚ l' → l = l'.
Proof.
  intros Hl. revert l'. induction Hl as [|x l Hs IH Hx]; intros l' Hl' Hp.
  { by apply Permutation_nil_l in Hp. }
  destruct l' as [|y l']; [by apply Permutation_nil_r in Hp|].
  apply StronglySorted_inv in Hl' as [Hs' Hy].
  assert (x = y) as <-.
  { assert (x ∈ y :: l') as Hin by (rewrite <-Hp; left).
    assert (y ∈ x :: l) as Hin' by (rewrite Hp; left).
    apply elem_of_cons in Hin as [|Hin], Hin' as [|Hin']; [done..|].
    rewrite Forall_forall in Hx, Hy. by apply string_ltb_connected; auto. }
  f_equal. apply IH; [done|]. by apply (inj (cons x)) in Hp.
Qed.

Lemma sort_strings_perm `{GoSort} l l' : l ≡ₚ l' → go_sort String.ltb l = go_sort String.ltb l'.
Proof.
  intros Hp. apply sorted_strings_unique; [apply go_sort_sorted, string_ltb_strict_weak..|].
  by rewrite !go_sort_perm.
Qed.

Lemma itoa_len_perm {A} (l l' : list A) : l ≡ₚ l' → itoa_len l = itoa_len l'.
Proof. intros Hp. unfold itoa_len, go_len. by rewrite Hp. Qed.

Lemma wc_insensitive : order_insensitive wc_Reduce.
Proof. intros key vs vs' Hp. by apply itoa_len_perm. Qed.

(** The reduce functions of the word count, of the indexer, and of the
    crash, early-exit and timing tests give the same result for the same values in any order, so
    [mr_done_correct] applies to these jobs. *)
Theorem apps_order_insensitive `{GoSort} :
  order_insensitive wc_Reduce ∧ order_insensitive indexer_Reduce ∧ order_insensitive crash_Reduce ∧
  order_insensitive nocrash_Reduce ∧ order_insensitive early_exit_Reduce ∧ order_insensitive mtiming_Reduce.
Proof.
  split_and!; [apply wc_insensitive|..]; intros key vs vs' Hp.
  - unfold indexer_Reduce. by rewrite (itoa_len_perm _ _ Hp), (sort_strings_perm _ _ Hp).
  - unfold crash_Reduce. by rewrite (sort_strings_perm _ _ Hp).
  - unfold nocrash_Reduce, crash_Reduce. by rewrite (sort_strings_perm _ _ Hp).
  - by apply itoa_len_perm.
  - unfold mtiming_Reduce. by rewrite (sort_strings_perm _ _ Hp).
Qed.

(** ** The job count *)

(** The state after the map tasks on [inputs], by one worker. *)
Definition jobcount_run (me : Z) (inputs : list (string * string)) (st : Z * gset string)
    : Z * gset string :=
  foldl (λ st i, (jobcount_Map me i.1 i.2 st).1) st inputs.

Lemma jobcount_name_inj me c c' : jobcount_name me c = jobcount_name me c' → c = c'.
Proof.
  intros Hn. apply (inj pretty). unfold jobcount_name in Hn.
  by repeat (apply (inj (String.append _)) in Hn).
Qed.

Lemma jobcount_prefix me c : String.prefix "mr-worker-jobcount" (jobcount_name me c) = true.
Proof. done. Qed.

(** The worker's files are those of the counters it has passed. *)
Lemma jobcount_run_files me inputs c files :
  let st := jobcount_run me inputs (c, files) in
  st.1 = c + go_len inputs ∧
  st.2 = list_to_set (jobcount_name me <$> seqZ c (go_len inputs)) ∪ files.
Proof.
  unfold go_len. revert c files. induction inputs as [|i inputs IH]; intros c files; cbn.
  { split; [lia|set_solver]. }
  destruct (IH (c + 1) ({[jobcount_name me c]} ∪ files)) as [H1 H2].
  change (foldl _ _ inputs) with (jobcount_run me inputs (c + 1, {[jobcount_name me c]} ∪ files)).
  split; [rewrite H1; lia|]. rewrite H2, (seqZ_cons c) by lia. cbn.
  replace (Z.pred (Z.of_nat (S (length inputs)))) with (Z.of_nat (length inputs)) by lia.
  replace (Z.succ c) with (c + 1) by lia.
  rewrite (assoc_L (∪)). f_equal. apply (comm_L (∪)).
Qed.

(** The job count test: a reduce task that runs after the map tasks of
    one worker, in a directory without files of this job, answers how many map
    tasks there were. *)
Theorem jobcount_counts me inputs files key values :
  (∀ f, f ∈ files → String.prefix "mr-worker-jobcount" f = false) →
  jobcount_Reduce (jobcount_run me inputs (0, files)).2 key values = itoa_len inputs.
Proof.
  intros Hf. destruct (jobcount_run_files me inputs 0 files) as [_ ->].
  unfold jobcount_Reduce. set (names := jobcount_name me <$> seqZ 0 (go_len inputs)).
  assert (filter (λ f, String.prefix "mr-worker-jobcount" f = true) (elements (list_to_set names ∪ files))
          ≡ₚ names) as Hp.
  { apply NoDup_Permutation.
    - apply NoDup_filter, NoDup_elements.
    - unfold names. apply NoDup_fmap_2_strong; [|apply NoDup_seqZ].
      intros x y _ _. apply jobcount_name_inj.
    - intros f. rewrite list_elem_of_filter, elem_of_elements, elem_of_union, elem_of_list_to_set. split.
      + intros [Hpf [Hin|Hin]]; [done|]. by rewrite (Hf f Hin) in Hpf.
      + intros Hin. split; [|by left]. unfold names in Hin.
        apply list_elem_of_fmap in Hin as (c & -> & _). apply jobcount_prefix. }
  rewrite (itoa_len_perm _ _ Hp). unfold itoa_len, go_len, names.
  rewrite length_fmap, length_seqZ. f_equal. unfold go_len. lia.
Qed.

Lemma jobcount_counts_witness :
  jobcount_Reduce (jobcount_run 7 [("f", "x"); ("g", "y")] (0, {["pg.txt"]})).2 "a" [] = "2".
Proof.
  rewrite (jobcount_counts 7 [("f", "x"); ("g", "y")] {["pg.txt"]} "a" []); [reflexivity|].
  intros f ->%elem_of_singleton. reflexivity.
Defined.

(** ** The word count *)
Definition occurrences (w : string) (words : list string) : Z :=
  go_len (filter (λ w', w' = w) words).

(** One line per word: the word and how often it occurs. *)
Definition word_lines (words ls : list string) : Prop :=
  ∃ keys, NoDup keys ∧ (∀ w, w ∈ keys ↔ w ∈ words) ∧
    ls = (λ w, line w (pretty (occurrences w words))) <$> keys.

(** The maximal runs of letters in the files. *)
Definition words_of `{Cwd} (IsLetter : Z → bool) (f : fs) (files : list string) : list string :=
  files ≫= λ file, match f !! resolve file with
                   | Some (Text s) => FieldsFunc s (wc_ff IsLetter)
                   | _ => []
                   end.

Lemma wc_values words w :
  go_len (values_of w ((λ w, {| kv_Key := w; kv_Value := "1" |}) <$> words)) = occurrences w words.
Proof.
  unfold values_of, occurrences, go_len. rewrite length_fmap. f_equal.
  induction words as [|x words IH]; [done|]. rewrite fmap_cons, !filter_cons. cbn [kv_Key].
  case_decide; cbn [length]; congruence.
Qed.

Lemma wc_lines words ls :
  lines_for wc_Reduce ((λ w, {| kv_Key := w; kv_Value := "1" |}) <$> words) ls → word_lines words ls.
Proof.
  intros (keys & Hnd & Hel & ->). exists keys. split_and!; [done| |].
  - intros w. rewrite Hel, <-list_fmap_compose. unfold compose; cbn. by rewrite list_fmap_id.
  - apply list_fmap_ext. intros i w _. unfold wc_Reduce, itoa_len. by rewrite wc_values.
Qed.

Lemma read_inputs_wc `{Cwd} IsLetter f files kvs :
  read_inputs (wc_Map IsLetter) f files = Ok kvs →
  kvs = (λ w, {| kv_Key := w; kv_Value := "1" |}) <$> words_of IsLetter f files.
Proof.
  revert kvs. induction files as [|file files IH]; intros kvs; cbn [read_inputs].
  { by intros [= <-]. }
  intros Hr. unfold words_of. rewrite bind_cons, fmap_app.
  apply bind_Ok in Hr as (text & Ht & Hr). apply bind_Ok in Hr as (rest & Hrest & [= <-]).
  unfold read_text in Ht. destruct (f !! resolve file) as [[s|]|]; try done. injection Ht as <-.
  f_equal. by apply IH.
Qed.

(** Bytes that are no UTF-8 are no letters, so no word holds one. *)
Lemma wc_valid IsLetter filename contents :
  IsLetter RuneError = false → Forall valid_kv (wc_Map IsLetter filename contents).
Proof.
  intros Hl. apply Forall_fmap, Forall_forall. intros w Hw. split; cbn; [|by vm_compute; repeat constructor; intros [? ?]].
  apply FieldsFunc_word in Hw as [? _]; [done|]. unfold wc_ff. by rewrite Hl.
Qed.

(** C26. The word-count job: when [Done] answers [true], the output files hold,
    together and up to their order, exactly one line per word of the input
    files, with the number of times the word occurs in them.  The words are
    those of [strings.FieldsFunc]; U+FFFD, which stands for a byte that is no
    UTF-8, is no letter. *)
Theorem wc_job_counts_words `{Cwd} `{GoSort} IsLetter files n f0 s0 tr s :
  IsLetter RuneError = false →
  0 < n →
  (∀ file, file ∈ files →
    (∃ text, createTmpDir f0 !! resolve file = Some (Text text)) ∧
    ∀ r, 0 ≤ r < n → resolve file ≠ resolve (out_name r)) →
  mr_init files n f0 s0 → run (mr_step (wc_Map IsLetter) wc_Reduce) s0 tr s →
  Done (co s) = true →
  ∃ lss ls, length lss = Z.to_nat n ∧
    (∀ r out, lss !! r = Some out →
       disk s !! resolve (out_name (Z.of_nat r)) = Some (Text (concat_lines out))) ∧
    concat lss ≡ₚ ls ∧ word_lines (words_of IsLetter (createTmpDir f0) files) ls.
Proof.
  intros Hl Hn Hin Hinit Hrun Hdone.
  destruct (done_lines _ _ _ _ _ _ _ _ Hn Hin (λ file text _ _, wc_valid _ file text Hl)
              wc_insensitive Hinit Hrun Hdone)
    as (kvs & lss & Hread & Hlen & Hout & Hperm).
  exists lss, (seq_lines wc_Reduce kvs). split_and!; [done..|].
  rewrite (read_inputs_wc _ _ _ _ Hread) in *. apply wc_lines, seq_lines_for, wc_insensitive.
Qed.

(** ** A job to apply the theorems to *)
Section Scenario.
Local Instance mr_sort : GoSort := insertion_GoSort.
#[local] Instance mr_cwd : Cwd := ["home"; "mr-tmp"].

(** The letters of ASCII. *)
Definition ascii_letter (r : Z) : bool := bool_decide (65 ≤ r ≤ 90 ∨ 97 ≤ r ≤ 122).

Definition demo_files : list string := ["in"; "./more"].
Definition demo_disk : fs :=
  {[resolve "in" := Text "a b, a"; resolve "more" := Text "b!"; resolve "./tmp/mr-0-0" := Json []]}.

Lemma demo_inputs n file :
  file ∈ demo_files →
  (∃ text, createTmpDir demo_disk !! resolve file = Some (Text text)) ∧
  ∀ r, 0 ≤ r < n → resolve file ≠ resolve (out_name r).
Proof.
  intros [->|[->|[]%elem_of_nil]%elem_of_cons]%elem_of_cons;
    (split; [by eexists|intros r _; rewrite resolve_out; discriminate]).
Qed.

Lemma demo_run : ∃ s0 s, mr_init demo_files 2 demo_disk s0 ∧
  run (mr_step (wc_Map ascii_letter) wc_Reduce) s0 [] s ∧ Done (co s) = true.
Proof.
  destruct (MakeCoordinator demo_files 2) as [c|] eqn:Hc; [|by vm_compute in Hc].
  set (s0 := {| co := c; disk := createTmpDir demo_disk; handlers := ∅; timers := []; workers := ∅ |}).
  assert (mr_init demo_files 2 demo_disk s0) as Hinit by (by exists c).
  destruct (reachable_can_finish (wc_Map ascii_letter) wc_Reduce demo_files 2 demo_disk eq_refl (demo_inputs 2)
              s0 [] s0 Hinit (run_refl _ s0)) as (s & Hr & Hd).
  by exists s0, s.
Qed.

Lemma mr_done_correct_witness :
  ∃ s kvs lss, read_inputs (wc_Map ascii_letter) (createTmpDir demo_disk) demo_files = Ok kvs ∧
    length lss = 2%nat ∧
    (∀ r ls, lss !! r = Some ls →
       disk s !! resolve (out_name (Z.of_nat r)) = Some (Text (concat_lines ls))) ∧
    concat lss ≡ₚ seq_lines wc_Reduce kvs.
Proof.
  destruct demo_run as (s0 & s & Hinit & Hr & Hd). exists s.
  exact (mr_done_correct (wc_Map ascii_letter) wc_Reduce demo_files 2 demo_disk s0 [] s eq_refl (demo_inputs 2)
           (λ file text _ _, wc_valid ascii_letter file text eq_refl) wc_insensitive Hinit Hr Hd).
Defined.

Lemma mr_can_finish_witness :
  ∃ s0 s', mr_init demo_files 2 demo_disk s0 ∧
    run (mr_step (wc_Map ascii_letter) wc_Reduce) s0 [] s' ∧ Done (co s') = true.
Proof.
  destruct (MakeCoordinator demo_files 2) as [c|] eqn:Hc; [|by vm_compute in Hc].
  set (s0 := {| co := c; disk := createTmpDir demo_disk; handlers := ∅; timers := []; workers := ∅ |}).
  assert (mr_init demo_files 2 demo_disk s0) as Hinit by (by exists c).
  exists s0. destruct (mr_can_finish (wc_Map ascii_letter) wc_Reduce demo_files 2 demo_disk s0 [] s0 eq_refl
           (demo_inputs 2) Hinit (run_refl _ s0)) as (s' & Hr & Hd).
  by exists s'.
Defined.

Lemma wc_job_counts_words_witness :
  ∃ lss ls, length lss = 2%nat ∧ concat lss ≡ₚ ls ∧ word_lines ["a"; "b"; "a"; "b"] ls.
Proof.
  destruct demo_run as (s0 & s & Hinit & Hr & Hd).
  destruct (wc_job_counts_words ascii_letter demo_files 2 demo_disk s0 [] s eq_refl eq_refl (demo_inputs 2)
              Hinit Hr Hd) as (lss & ls & Hlen & _ & Hp & Hw).
  by exists lss, ls.
Defined.

Lemma apps_order_insensitive_witness : indexer_Reduce "w" ["y"; "x"] = indexer_Reduce "w" ["x"; "y"].
Proof. refine (proj1 (proj2 apps_order_insensitive) "w" ["y"; "x"] ["x"; "y"] _). apply perm_swap. Defined.
End Scenario.
