(* ===== verification/Mains.v ===== *)
(** * The programs of src/src/main

    What each [main] does with its arguments: it prints its usage and exits, it
    exits with a result, or it ends up serving.  [mrcoordinator], [mrworker] and
    [mrsequential] start what the files on mr verify; [diskvd], [lockc],
    [lockd], [pbc], [pbd] and [viewd] drive the services diskv, lockservice,
    pbservice and viewservice, which the repository does not have: those are
    parameters.  The last part is what the MapReduce programs say to each other
    through net/rpc (mr/rpc.go, [call] and [CallExample] of mr/worker.go,
    [server] of mr/coordinator.go). *)
From Stdlib Require Import Ascii.
From S2P Require Import Prelude GoLib Utf8 Paths MRParallel MRWorker Coordinator MRSystem MRCorrect MRLiveness MRApps.
Local Open Scope Z_scope.

(** ** Processes

    A process runs on with a value, has ended with a status after printing some
    lines, or has panicked. *)
Inductive process (A : Type) : Type :=
  | Runs (a : A)
  | Exits (status : Z) (said : list string)
  | Panics.
Arguments Runs {A} a.
Arguments Exits {A} status said.
Arguments Panics {A}.

#[export] Instance process_ret : MRet process := @Runs.
#[export] Instance process_bind : MBind process :=
  λ A B f m, match m with Runs a => f a | Exits n ls => Exits n ls | Panics => Panics end.

(** [Panic] of an [outcome] is a panic or a [log.Fatal]: in both cases the
    process is gone. *)
Definition of_outcome {A} (m : outcome A) : process A :=
  match m with Ok a => Runs a | Panic => Panics end.

(** [log.Fatalf] *)
Definition Fatalf {A} (msg : string) : process A := Exits 1 [msg].

(** ** [strconv]

    The digits of an unsigned 64-bit number: a character that is none is a
    syntax error, unless the number was too large before it. *)
Inductive NumError := ErrSyntax | ErrRange.

Fixpoint ParseUint_loop (n : Z) (s : string) : Z * option NumError :=
  match s with
  | EmptyString => (n, None)
  | String c s =>
      match digit_of c with
      | None => (0, Some ErrSyntax)
      | Some d =>
          let n1 := n * 10 + d in
          if decide (2^64 ≤ n1) then (2^64 - 1, Some ErrRange) else ParseUint_loop n1 s
      end
  end.

Definition ParseUint (s : string) : Z * option NumError :=
  match s with EmptyString => (0, Some ErrSyntax) | _ => ParseUint_loop 0 s end.

(** [strconv.ParseInt(s, 10, 64)], and [strconv.Atoi] where an [int] has 64 bits *)
Definition ParseInt (s : string) : Z * option NumError :=
  match s with
  | EmptyString => (0, Some ErrSyntax)
  | _ =>
      let '(sign, s) := scan_sign s in
      match ParseUint s with
      | (_, Some ErrSyntax) => (0, Some ErrSyntax)
      | (un, _) =>
          if decide (sign = 1 ∧ 2^63 ≤ un) then (2^63 - 1, Some ErrRange)
          else if decide (sign = -1 ∧ 2^63 < un) then (-2^63, Some ErrRange)
          else (sign * un, None)
      end
  end.

Definition Atoi (s : string) : Z * option NumError := ParseInt s.

(** [strconv.ParseBool]; [None] is the error, with which the value is [false]. *)
Definition ParseBool (s : string) : option bool :=
  if decide (s ∈ ["1"; "t"; "T"; "TRUE"; "true"; "True"]) then Some true
  else if decide (s ∈ ["0"; "f"; "F"; "FALSE"; "false"; "False"]) then Some false
  else None.

(** ** diskvd.go *)
Section Diskvd.
Context {Srv : Type}.
Context (StartServer : Z → list string → list string → Z → string → bool → Srv).
Context (Setunreliable : bool → Srv → Srv).

(** The variables of [main] that the flags set. *)
Record diskvd_vars := {
  dv_gid : Z;
  dv_masters : list string;
  dv_replicas : list string;
  dv_me : Z;
  dv_unreliable : bool;
  dv_dir : string;
  dv_restart : bool;
}.

Definition diskvd_zero : diskvd_vars :=
  {| dv_gid := -1; dv_masters := []; dv_replicas := []; dv_me := -1;
     dv_unreliable := false; dv_dir := ""; dv_restart := false |}.

Definition diskvd_usage {A} : process A :=
  Exits 1 ["Usage: diskvd -g gid -m master... -s server... -i my-index -d dir"].

(** The body of the loop: what one flag with its argument does.  The errors of
    the parsers are dropped. *)
Definition diskvd_flag (a0 a1 : string) (v : diskvd_vars) : process diskvd_vars :=
  let '{| dv_gid := gid; dv_masters := masters; dv_replicas := replicas; dv_me := me;
          dv_unreliable := unreliable; dv_dir := dir; dv_restart := restart |} := v in
  if decide (a0 = "-g") then Runs
    {| dv_gid := (ParseInt a1).1; dv_masters := masters; dv_replicas := replicas; dv_me := me;
       dv_unreliable := unreliable; dv_dir := dir; dv_restart := restart |}
  else if decide (a0 = "-m") then Runs
    {| dv_gid := gid; dv_masters := masters ++ [a1]; dv_replicas := replicas; dv_me := me;
       dv_unreliable := unreliable; dv_dir := dir; dv_restart := restart |}
  else if decide (a0 = "-s") then Runs
    {| dv_gid := gid; dv_masters := masters; dv_replicas := replicas ++ [a1]; dv_me := me;
       dv_unreliable := unreliable; dv_dir := dir; dv_restart := restart |}
  else if decide (a0 = "-i") then Runs
    {| dv_gid := gid; dv_masters := masters; dv_replicas := replicas; dv_me := (Atoi a1).1;
       dv_unreliable := unreliable; dv_dir := dir; dv_restart := restart |}
  else if decide (a0 = "-u") then Runs
    {| dv_gid := gid; dv_masters := masters; dv_replicas := replicas; dv_me := me;
       dv_unreliable := default false (ParseBool a1); dv_dir := dir; dv_restart := restart |}
  else if decide (a0 = "-d") then Runs
    {| dv_gid := gid; dv_masters := masters; dv_replicas := replicas; dv_me := me;
       dv_unreliable := unreliable; dv_dir := a1; dv_restart := restart |}
  else if decide (a0 = "-r") then Runs
    {| dv_gid := gid; dv_masters := masters; dv_replicas := replicas; dv_me := me;
       dv_unreliable := unreliable; dv_dir := dir; dv_restart := default false (ParseBool a1) |}
  else diskvd_usage.

(** The loop, on [os.Args[1:]]: it takes two arguments at a time, and leaves a
    last one that stands alone. *)
Fixpoint diskvd_flags (args : list string) (v : diskvd_vars) : process diskvd_vars :=
  match args with
  | a0 :: a1 :: args => v ← diskvd_flag a0 a1 v; diskvd_flags args v
  | _ => Runs v
  end.

Definition diskvd_incomplete (v : diskvd_vars) : Prop :=
  dv_gid v < 0 ∨ dv_me v < 0 ∨ go_len (dv_masters v) < 1 ∨
  go_len (dv_replicas v) ≤ dv_me v ∨ dv_dir v = "".

#[export] Instance diskvd_incomplete_dec v : Decision (diskvd_incomplete v).
Proof. unfold diskvd_incomplete. apply _. Defined.

(** [main], up to the ten minutes after which it kills itself. *)
Definition diskvd_main (args : list string) : process Srv :=
  v ← diskvd_flags (tail args) diskvd_zero;
  if decide (diskvd_incomplete v) then diskvd_usage
  else
    let srv := StartServer (dv_gid v) (dv_masters v) (dv_replicas v) (dv_me v) (dv_dir v) (dv_restart v) in
    Runs (Setunreliable (dv_unreliable v) srv).

(** *** What the flags mean

    The arguments in twos; the arguments that come with a flag, in order. *)
Fixpoint pairs (args : list string) : list (string * string) :=
  match args with a0 :: a1 :: args => (a0, a1) :: pairs args | _ => [] end.

Definition given (flag : string) (ps : list (string * string)) : list string :=
  (filter (λ p, p.1 = flag) ps).*2.

(** A flag that sets a value: the last one counts, and without any the value
    stays. *)
Definition set_by {A} (flag : string) (parse : string → A) (old : A) (ps : list (string * string)) : A :=
  from_option parse old (last (given flag ps)).

Definition diskvd_known : list string := ["-g"; "-m"; "-s"; "-i"; "-u"; "-d"; "-r"].

Definition diskvd_read (ps : list (string * string)) (v : diskvd_vars) : diskvd_vars :=
  {| dv_gid := set_by "-g" (λ a, (ParseInt a).1) (dv_gid v) ps;
     dv_masters := dv_masters v ++ given "-m" ps;
     dv_replicas := dv_replicas v ++ given "-s" ps;
     dv_me := set_by "-i" (λ a, (Atoi a).1) (dv_me v) ps;
     dv_unreliable := set_by "-u" (λ a, default false (ParseBool a)) (dv_unreliable v) ps;
     dv_dir := set_by "-d" id (dv_dir v) ps;
     dv_restart := set_by "-r" (λ a, default false (ParseBool a)) (dv_restart v) ps |}.

Lemma given_cons flag p ps :
  given flag (p :: ps) = (if decide (p.1 = flag) then [p.2] else []) ++ given flag ps.
Proof. unfold given. rewrite filter_cons. by case_decide. Qed.

Lemma set_by_cons {A} flag parse (old : A) p ps :
  set_by flag parse old (p :: ps) =
    set_by flag parse (if decide (p.1 = flag) then parse p.2 else old) ps.
Proof.
  unfold set_by. rewrite given_cons. case_decide; [|done].
  destruct (given flag ps) as [|x l]; [done|]. change ([p.2] ++ x :: l) with (p.2 :: x :: l).
  rewrite last_cons_cons. destruct (last (x :: l)) eqn:Hl; [done|]. by apply last_None in Hl.
Qed.

Lemma diskvd_flag_read p ps v :
  match diskvd_flag p.1 p.2 v with
  | Runs v' => p.1 ∈ diskvd_known ∧ diskvd_read (p :: ps) v = diskvd_read ps v'
  | r => (p.1 ∉ diskvd_known) ∧ r = diskvd_usage
  end.
Proof.
  unfold diskvd_flag, diskvd_read. rewrite !set_by_cons, !given_cons. destruct v. cbn [fst snd].
  repeat (let Hf := fresh in case_decide as Hf; [rewrite Hf; split; [unfold diskvd_known; set_solver|];
    cbn -[app]; rewrite <-?(assoc_L (++)); reflexivity|]).
  unfold diskvd_usage, diskvd_known. split; [set_solver|done].
Qed.

Lemma diskvd_flags_read args : ∀ v,
  diskvd_flags args v =
    if decide (Forall (λ p, p.1 ∈ diskvd_known) (pairs args))
    then Runs (diskvd_read (pairs args) v) else diskvd_usage.
Proof.
  induction args as [[|a0 [|a1 args]] IH] using (induction_ltof1 _ length); intros v.
  1, 2: rewrite decide_True by done; destruct v; cbn; unfold diskvd_read; cbn; by rewrite !app_nil_r.
  cbn [diskvd_flags pairs].
  pose proof (diskvd_flag_read (a0, a1) (pairs args) v) as Hf. cbn [fst snd] in Hf.
  destruct (diskvd_flag a0 a1 v) as [v'|n ls|]; cbn.
  - destruct Hf as [Hk ->]. rewrite IH by (unfold ltof; cbn; lia).
    apply decide_ext. rewrite Forall_cons. cbn. tauto.
  - destruct Hf as [Hk Hr]. rewrite decide_False; [exact Hr|]. by rewrite Forall_cons; intros [? _].
  - destruct Hf as [_ [=]].
Qed.

(** The program reads its command line: it serves exactly when every flag is
    one of the seven and the five required values are there, with the last
    group, index, directory and switches given, and all the masters and servers
    in order. *)
Theorem diskvd_serves prog args :
  diskvd_main (prog :: args) =
    let ps := pairs args in
    let gid := set_by "-g" (λ a, (ParseInt a).1) (-1) ps in
    let me := set_by "-i" (λ a, (Atoi a).1) (-1) ps in
    let dir := set_by "-d" id "" ps in
    if decide (Forall (λ p, p.1 ∈ diskvd_known) ps ∧ 0 ≤ gid ∧ given "-m" ps ≠ [] ∧
               0 ≤ me < go_len (given "-s" ps) ∧ dir ≠ "")
    then Runs (Setunreliable (set_by "-u" (λ a, default false (ParseBool a)) false ps)
                 (StartServer gid (given "-m" ps) (given "-s" ps) me dir
                    (set_by "-r" (λ a, default false (ParseBool a)) false ps)))
    else diskvd_usage.
Proof.
  unfold diskvd_main. cbn [tail]. rewrite diskvd_flags_read. cbn zeta.
  case_decide as Hk; [|by rewrite decide_False by tauto]. cbn -[decide].
  unfold diskvd_incomplete. cbn [dv_gid dv_masters dv_replicas dv_me dv_dir diskvd_read diskvd_zero app].
  assert (∀ l : list string, go_len l < 1 ↔ l = []) as Hlen.
  { intros [|x l]; unfold go_len; cbn; split; (done || lia). }
  pose proof (Hlen (given "-m" (pairs args))) as Hm. 
  repeat case_decide; try done; exfalso; naive_solver lia.
Qed.
End Diskvd.

(** *** Numbers on the command line *)
Lemma ParseUint_loop_range s : ∀ n, 0 ≤ n < 2^64 → 0 ≤ (ParseUint_loop n s).1 < 2^64.
Proof.
  induction s as [|c s IH]; intros n Hn; cbn [ParseUint_loop]; [exact Hn|].
  destruct (digit_of c) as [d|] eqn:Hd; [|cbn; lia]. cbn zeta.
  assert (0 ≤ d) by (unfold digit_of in Hd; case_decide; simplify_eq; lia).
  case_decide; [cbn; lia|]. apply IH. lia.
Qed.

(** Whatever the argument, the value is a 64-bit integer: the parser of a
    malformed one answers 0, and of one that is too large the nearest. *)
Lemma ParseInt_range s : -2^63 ≤ (ParseInt s).1 < 2^63.
Proof.
  unfold ParseInt. destruct s as [|c s]; [cbn; lia|].
  destruct (scan_sign (String c s)) as [sign s'] eqn:Hs.
  assert (sign = 1 ∨ sign = -1) as Hsign.
  { unfold scan_sign in Hs. repeat case_decide; simplify_eq; auto. }
  assert (0 ≤ (ParseUint s').1 < 2^64) as Hu.
  { unfold ParseUint. destruct s'; [cbn; lia|]. apply ParseUint_loop_range. lia. }
  destruct (ParseUint s') as [un [[]|]]; cbn [fst] in Hu; repeat case_decide; cbn [fst]; lia.
Qed.

Lemma ParseUint_loop_scan s : ∀ n,
  0 ≤ n → Forall digit (chars s) → scanNumber n s < 2^64 → ParseUint_loop n s = (scanNumber n s, None).
Proof.
  induction s as [|c s IH]; intros n Hn Hd Hlt; [done|].
  apply Forall_cons in Hd as [[x Hx] Hd]. cbn [scanNumber ParseUint_loop] in *.
  assert (∃ d, digit_of c = Some d ∧ 0 ≤ d) as (d & Hdig & Hd0).
  { rewrite Hx. unfold pretty_N_char. by repeat case_match; eexists. }
  rewrite Hdig in Hlt |- *. cbn zeta.
  assert (∀ s m, 0 ≤ m → m ≤ scanNumber m s) as Hmono.
  { clear. induction s as [|c s IH]; intros m Hm; cbn [scanNumber]; [lia|].
    destruct (digit_of c) as [d|] eqn:Hdig; [|lia].
    assert (0 ≤ d) by (unfold digit_of in Hdig; case_decide; simplify_eq; lia).
    specialize (IH (m * 10 + d)). lia. }
  pose proof (Hmono s (n * 10 + d)). rewrite decide_False by lia. apply IH; [lia|done|done].
Qed.

(** Numbers that [%d] prints are read back. *)
Lemma ParseInt_pretty z : 0 ≤ z < 2^63 → ParseInt (pretty z) = (z, None).
Proof.
  intros Hz. destruct (pretty_head z ltac:(lia)) as (c & s & Hp & Hc).
  pose proof (scanNumber_pretty z ltac:(lia)) as Hs. pose proof (pretty_digits z ltac:(lia)) as Hd.
  rewrite Hp in Hs, Hd |- *. unfold ParseInt. rewrite (proj2 (digit_char c s Hc)).
  unfold ParseUint. rewrite ParseUint_loop_scan, Hs by (done || lia).
  rewrite !decide_False by lia. f_equal. lia.
Qed.

(** The errors are dropped: a group that is no number is group 0, and the server
    starts. *)
Example diskvd_any_group :
  diskvd_main (λ gid masters replicas me dir restart, (gid, masters, replicas, me, dir, restart))
    (λ _ srv, srv)
    ["diskvd"; "-g"; "group-seven"; "-m"; "m0"; "-s"; "s0"; "-i"; "x"; "-d"; "/tmp/d"] =
  Runs (0, ["m0"], ["s0"], 0, "/tmp/d", false).
Proof. reflexivity. Qed.

(** A flag without its argument, at the end, is not noticed. *)
Example diskvd_lone_flag :
  diskvd_main (λ gid masters replicas me dir restart, (gid, masters, replicas, me, dir, restart))
    (λ _ srv, srv)
    ["diskvd"; "-g"; "7"; "-m"; "m0"; "-s"; "s0"; "-i"; "0"; "-d"; "/tmp/d"; "-r"] =
  Runs (7, ["m0"], ["s0"], 0, "/tmp/d", false).
Proof. reflexivity. Qed.

(** ** The other services: lockc.go, lockd.go, pbc.go, pbd.go, viewd.go

    [W] is the state of the services, which a client's call changes. *)
Section Lock.
Context {W Clerk Srv : Type}.
Context (MakeClerk : string → string → Clerk) (Lock Unlock : Clerk → string → W → bool * W).
Context (StartServer : string → string → bool → Srv).

Definition lockc_usage {A} : process A :=
  Exits 1 ["Usage: lockc -l|-u primaryport backupport lockname"].

Definition lockc_reply (r : bool * W) : process unit * W :=
  (Exits 0 ["reply: " +:+ (if r.1 then "true" else "false")], r.2).

(** [usage] does not return, so [ok] is always set when it is printed. *)
Definition lockc_main (args : list string) (w : W) : process unit * W :=
  match args with
  | [_; op; primary; backup; lockname] =>
      let ck := MakeClerk primary backup in
      if decide (op = "-l") then lockc_reply (Lock ck lockname w)
      else if decide (op = "-u") then lockc_reply (Unlock ck lockname w)
      else (lockc_usage, w)
  | _ => (lockc_usage, w)
  end.

Definition lockd_usage {A} : process A := Exits 1 ["Usage: lockd -p|-b primaryport backupport"].

Definition lockd_main (args : list string) : process Srv :=
  match args with
  | [_; op; primary; backup] =>
      if decide (op = "-p") then Runs (StartServer primary backup true)
      else if decide (op = "-b") then Runs (StartServer primary backup false)
      else lockd_usage
  | _ => lockd_usage
  end.
End Lock.

Section PrimaryBackup.
Context {W Clerk Srv View : Type}.
Context (MakeClerk : string → string → Clerk).
Context (Get : Clerk → string → W → string * W) (Put : Clerk → string → string → W → W).
Context (StartServer : string → string → Srv) (StartView : string → View).

Definition pbc_usage {A} : process A :=
  Exits 1 ["Usage: pbc viewport key"; "       pbc viewport key value"].

Definition pbc_main (args : list string) (w : W) : process unit * W :=
  match args with
  | [_; view; key] =>
      let ck := MakeClerk view "" in
      let '(v, w) := Get ck key w in (Exits 0 [v], w)
  | [_; view; key; value] =>
      let ck := MakeClerk view "" in
      (Exits 0 [], Put ck key value w)
  | _ => (pbc_usage, w)
  end.

Definition pbd_main (args : list string) : process Srv :=
  match args with
  | [_; view; me] => Runs (StartServer view me)
  | _ => Exits 1 ["Usage: pbd viewport myport"]
  end.

Definition viewd_main (args : list string) : process View :=
  match args with
  | [_; port] => Runs (StartView port)
  | _ => Exits 1 ["Usage: viewd port"]
  end.
End PrimaryBackup.

(** ** MapReduce between processes (mr/rpc.go, worker.go, coordinator.go) *)

(** [coordinatorSock] of the user [uid] *)
Definition coordinatorSock (uid : Z) : string := "/var/tmp/5840-mr-" +:+ pretty uid.

(** [call]: [DialHTTP] finds a connection or not; the call on it fills the reply
    or fails with a message, which is printed. *)
Section Calls.
Context {Conn Args Reply : Type}.
Context (DialHTTP : string → option Conn) (Call : Conn → string → Args → Reply → Reply * option string).

Definition call (uid : Z) (rpcname : string) (args : Args) (reply : Reply)
    : process (Reply * bool * list string) :=
  match DialHTTP (coordinatorSock uid) with
  | None => Fatalf "dialing:"
  | Some c =>
      match Call c rpcname args reply with
      | (reply, None) => Runs (reply, true, [])
      | (reply, Some err) => Runs (reply, false, [err])
      end
  end.
End Calls.

(** The coordinator's side of a connection: its one method that is not a
    handler of tasks, and net/rpc's error for a name it does not know. *)
Definition serve_example (rpcname : string) (X Y : Z) : Z * option string :=
  if decide (rpcname = "Coordinator.Example") then (Example_rpc X, None)
  else (Y, Some ("rpc: can't find method " +:+ rpcname)).

(** [CallExample], with what it prints *)
Definition CallExample {Conn} (DialHTTP : string → option Conn)
    (Call : Conn → string → Z → Z → Z * option string) (uid : Z) : process (list string) :=
  r ← call DialHTTP Call uid "Coordinator.Example" 99 0;
  let '(Y, ok, said) := r in
  Runs (said ++ [if (ok : bool) then "reply.Y " +:+ pretty Y else "call failed!"]).

(** [server]: the socket's name is freed and bound again.  [sockets] are the
    names that are bound, [listen] whether binding a free one is allowed. *)
Definition server (uid : Z) (listen : string → bool) (sockets : gset string) : process (gset string) :=
  let sockname := coordinatorSock uid in
  let sockets := sockets ∖ {[sockname]} in
  if decide ((sockname ∉ sockets) ∧ listen sockname = true) then Runs ({[sockname]} ∪ sockets)
  else Fatalf "listen error:".

(** ** mrworker.go and mrsequential.go: the plugin

    A symbol of a plugin has the type of a map function, of a reduce function,
    or another one. *)
Inductive symbol :=
  | MapSym (mapf : string → string → list KeyValue)
  | ReduceSym (reducef : string → list string → string)
  | OtherSym.

Definition mrapp : Type := (string → string → list KeyValue) * (string → list string → string).

Section Programs.
Context `{Cwd} `{GoSort}.
Context {Plugin : Type}.
Context (Open : string → option Plugin) (Lookup : Plugin → string → option symbol).

Definition loadPlugin (filename : string) : process mrapp :=
  match Open filename with
  | None => Fatalf ("cannot load plugin " +:+ filename)
  | Some p =>
      match Lookup p "Map" with
      | None => Fatalf ("cannot find Map in " +:+ filename)
      | Some (MapSym mapf) =>
          match Lookup p "Reduce" with
          | None => Fatalf ("cannot find Reduce in " +:+ filename)
          | Some (ReduceSym reducef) => Runs (mapf, reducef)
          | Some _ => Panics  (* interface conversion *)
          end
      | Some _ => Panics
      end
  end.

(** The functions that [mr.Worker] is called with; its loop is in MRSystem. *)
Definition mrworker_main (args : list string) : process mrapp :=
  match args with
  | [_; plugin] => loadPlugin plugin
  | _ => Exits 1 ["Usage: mrworker xxx.so"]
  end.

(** [main] of mrsequential: the files it leaves *)
Definition mrsequential_main (args : list string) (f : fs) : process fs :=
  match args with
  | _ :: plugin :: files =>
      if decide (files = []) then Exits 1 ["Usage: mrsequential xxx.so inputfiles..."]
      else
        app ← loadPlugin plugin;
        of_outcome (mrsequential app.2 app.1 files f)
  | _ => Exits 1 ["Usage: mrsequential xxx.so inputfiles..."]
  end.

(** ** mrcoordinator.go

    What [MakeCoordinator] starts with, and the loop that asks [Done] every
    second, on the states it sees. *)
Definition mrcoordinator_start (uid : Z) (listen : string → bool) (sockets : gset string)
    (args : list string) : process Coordinator :=
  match args with
  | _ :: file :: files =>
      m ← of_outcome (MakeCoordinator (file :: files) 10);
      _ ← server uid listen sockets;
      Runs m
  | _ => Exits 1 ["Usage: mrcoordinator inputfiles..."]
  end.

Fixpoint wait_done (seen : list Coordinator) : process unit :=
  match seen with
  | [] => Runs ()
  | m :: seen => if Done m then Exits 0 [] else wait_done seen
  end.

Definition mrcoordinator_main (uid : Z) (listen : string → bool) (sockets : gset string)
    (args : list string) (seen : list Coordinator) : process unit :=
  _ ← mrcoordinator_start uid listen sockets args; wait_done seen.

(** ** A finished job, program by program *)

(** The states that a process which looks now and then gets to see. *)
Inductive observes {S E} (step : S → option E → S → Prop) : S → list S → S → Prop :=
  | obs_end s tr s' : run step s tr s' → observes step s [] s'
  | obs_look s tr s1 seen s' :
      run step s tr s1 → observes step s1 seen s' → observes step s (s1 :: seen) s'.

Lemma phase_upd_task r g c : phase (upd_task r g c) = phase c.
Proof. by destruct r. Qed.

Lemma phase_selectTask p c c' r : selectTask p c = (c', r) → phase c' = phase c.
Proof. unfold selectTask. case_match; intros [= <- <-]; [apply phase_upd_task|done]. Qed.

Lemma phase_checkTimeout w r c : phase (checkTimeout w r c) = phase c.
Proof. unfold checkTimeout. repeat case_match; try done. apply phase_upd_task. Qed.

Lemma phase_ReportTask args c c' : ReportTask args c = Ok c' → phase c' = phase c.
Proof.
  unfold ReportTask. intros Hr. apply bind_Ok in Hr as (r & _ & Hr).
  repeat case_match; simplify_eq; [|done].
  unfold finish_task. case_match; cbn; apply phase_upd_task.
Qed.

Lemma phase_checkPhase glob c : phase c = AllDone → phase (checkPhase glob c) = AllDone.
Proof. unfold checkPhase. by intros Hd; rewrite Hd. Qed.

(** [Done] stays true. *)
Lemma done_step mapf reducef s l s' :
  phase (co s) = AllDone → mr_step mapf reducef s l s' → phase (co s') = AllDone.
Proof.
  intros Hd Hs. inversion Hs; subst; cbn; try done.
  - by erewrite phase_selectTask.
  - unfold assign_worker. by rewrite phase_upd_task.
  - by rewrite phase_checkTimeout.
  - by apply phase_checkPhase.
  - by erewrite phase_ReportTask.
Qed.

Lemma observes_run {S E} (step : S → option E → S → Prop) s seen s' :
  observes step s seen s' →
  (∃ tr, run step s tr s') ∧
  ∀ s1, s1 ∈ seen → (∃ tr, run step s tr s1) ∧ ∃ tr, run step s1 tr s'.
Proof.
  induction 1 as [s tr s' Hr|s tr s1 seen s' Hr Ho [[tr' Hr'] IH]].
  - split; [by exists tr|]. by intros s1 ?%elem_of_nil.
  - split; [exists (tr ++ tr'); by eapply run_trans|].
    intros s2 [->|Hin]%elem_of_cons; [eauto|]. destruct (IH s2 Hin) as [[tr2 H2] H3].
    split; [|done]. exists (tr ++ tr2). by eapply run_trans.
Qed.

Lemma wait_done_exits seen n said :
  wait_done seen = Exits n said → ∃ m, m ∈ seen ∧ Done m = true.
Proof.
  induction seen as [|m seen IH]; cbn; [done|]. destruct (Done m) eqn:Hd.
  - intros _. exists m. split; [left|done].
  - intros (m' & ? & ?)%IH. exists m'. split; [by right|done].
Qed.

Lemma start_fails uid listen sockets args n said :
  mrcoordinator_start uid listen sockets args = Exits n said → n = 1.
Proof.
  unfold mrcoordinator_start, server. intros Hs. destruct args as [|prog [|file files]]; [by simplify_eq..|].
  destruct (MakeCoordinator _ _) as [m|]; [|done]. cbn in Hs. case_decide; [done|].
  unfold Fatalf in Hs. cbn in Hs. by simplify_eq.
Qed.

Lemma read_inputs_createTmpDir mapf files f kvs :
  read_inputs mapf (createTmpDir f) files = Ok kvs → read_inputs mapf f files = Ok kvs.
Proof.
  revert kvs. induction files as [|file files IH]; intros kvs; cbn; [done|].
  intros Hr. apply bind_Ok in Hr as (text & Ht & Hr). apply bind_Ok in Hr as (kvs' & Hk & Hr).
  rewrite (IH _ Hk). unfold read_text, createTmpDir in *.
  destruct (filter _ f !! resolve file) as [[t|]|] eqn:Hf; simplify_eq.
  apply map_lookup_filter_Some in Hf as [-> _]. done.
Qed.

(** C11. What test-mr.sh compares: when mrcoordinator has exited with success, and the
    workers were mrworkers on a plugin, then mrsequential run on the same plugin
    and the same files in the same directory finds its way to [mr-out-0], and the
    lines it has put there are the lines of the job's ten files, up to their
    order.  The input files can be read, are not in [./tmp] and are none of the
    ten output files; the plugin's Map emits valid UTF-8 for them, and its Reduce
    does not depend on the order of the values. *)
Theorem mains_agree uid listen sockets prog wprog sprog plugin mapf reducef files f0 said s0 seen s :
  (∀ file, file ∈ files →
    (∃ text, createTmpDir f0 !! resolve file = Some (Text text)) ∧
    ∀ r, 0 ≤ r < 10 → resolve file ≠ resolve (out_name r)) →
  (∀ file text, file ∈ files → createTmpDir f0 !! resolve file = Some (Text text) →
    Forall valid_kv (mapf file text)) →
  order_insensitive reducef →
  mrworker_main [wprog; plugin] = Runs (mapf, reducef) →
  mr_init files 10 f0 s0 → observes (mr_step mapf reducef) s0 seen s →
  mrcoordinator_main uid listen sockets (prog :: files) (co <$> seen) = Exits 0 said →
  ∃ f ls lss,
    mrsequential_main (sprog :: plugin :: files) f0 = Runs f ∧
    f !! resolve "mr-out-0" = Some (Text (concat_lines ls)) ∧
    length lss = 10%nat ∧
    (∀ r out, lss !! r = Some out →
       disk s !! resolve (out_name (Z.of_nat r)) = Some (Text (concat_lines out))) ∧
    concat lss ≡ₚ ls.
Proof.
  intros Hfiles Hvalid Hred Hplugin Hinit Hobs Hmain.
  assert (files ≠ []) as Hne by (intros ->; done).
  assert (∃ m, m ∈ co <$> seen ∧ Done m = true) as (m & (s1 & -> & Hin)%list_elem_of_fmap & Hdone).
  { unfold mrcoordinator_main in Hmain.
    destruct (mrcoordinator_start _ _ _ _) eqn:Hstart; cbn in Hmain; [by eapply wait_done_exits| |done].
    apply start_fails in Hstart. by simplify_eq. }
  destruct (observes_run _ _ _ _ Hobs) as [[tr Hrun] Hsees].
  destruct (Hsees _ Hin) as [_ [tr1 Hrun1]].
  assert (Done (co s) = true) as Hs.
  { unfold Done in *. apply bool_decide_eq_true in Hdone. apply bool_decide_eq_true.
    revert Hdone. apply (run_invariant (mr_step mapf reducef) (λ s, phase (co s) = AllDone)) with tr1; [|done].
    intros. by eapply done_step. }
  destruct (done_lines mapf reducef files 10 f0 s0 tr s ltac:(lia) Hfiles Hvalid Hred Hinit Hrun Hs)
    as (kvs & lss & Hkvs & Hlen & Hls & Hp).
  exists (<[resolve "mr-out-0" := Text (concat_lines (seq_lines reducef kvs))]> f0), (seq_lines reducef kvs), lss.
  split_and!; [|by rewrite lookup_insert_eq|done|done|done].
  unfold mrsequential_main. rewrite decide_False by done. cbn in Hplugin. rewrite Hplugin. cbn -[read_inputs].
  unfold mrsequential. by rewrite (read_inputs_createTmpDir _ _ _ _ Hkvs).
Qed.
End Programs.

(** ** A plugin and a job to apply it to *)
Section Scenario.
Local Instance mains_sort : GoSort := insertion_GoSort.
#[local] Instance mains_cwd : Cwd := mr_cwd.

Definition wc_Open (filename : string) : option unit :=
  if decide (filename = "wc.so") then Some () else None.
Definition wc_Lookup (_ : unit) (name : string) : option symbol :=
  if decide (name = "Map") then Some (MapSym (wc_Map ascii_letter))
  else if decide (name = "Reduce") then Some (ReduceSym wc_Reduce) else None.

Lemma mains_agree_witness :
  ∃ f ls lss s,
    mrsequential_main wc_Open wc_Lookup ["mrsequential"; "wc.so"; "in"; "./more"] demo_disk = Runs f ∧
    f !! resolve "mr-out-0" = Some (Text (concat_lines ls)) ∧
    length lss = 10%nat ∧
    (∀ r out, lss !! r = Some out →
       disk s !! resolve (out_name (Z.of_nat r)) = Some (Text (concat_lines out))) ∧
    concat lss ≡ₚ ls.
Proof.
  destruct (MakeCoordinator demo_files 10) as [c|] eqn:Hc; [|by vm_compute in Hc].
  set (s0 := {| co := c; disk := createTmpDir demo_disk; handlers := ∅; timers := []; workers := ∅ |}).
  assert (mr_init demo_files 10 demo_disk s0) as Hinit by (by exists c).
  destruct (reachable_can_finish (wc_Map ascii_letter) wc_Reduce demo_files 10 demo_disk eq_refl (demo_inputs 10)
              s0 [] s0 Hinit (run_refl _ s0)) as (s & Hr & Hd).
  assert (mrcoordinator_main 1000 (λ _, true) ∅ ("mrcoordinator" :: demo_files) (co <$> [s0; s]) =
          Exits 0 []) as Hmain.
  { unfold mrcoordinator_main, mrcoordinator_start, demo_files. fold demo_files. rewrite Hc.
    cbn [of_outcome mbind process_bind]. unfold server. rewrite decide_True by set_solver.
    cbn [mbind process_bind fmap list_fmap wait_done]. rewrite Hd. by destruct (Done (co s0)). }
  destruct (mains_agree wc_Open wc_Lookup 1000 (λ _, true) ∅ "mrcoordinator" "mrworker" "mrsequential"
              "wc.so" (wc_Map ascii_letter) wc_Reduce demo_files demo_disk [] s0 [s0; s] s
              (demo_inputs 10) (λ file text _ _, wc_valid ascii_letter file text eq_refl)
              wc_insensitive eq_refl Hinit) as (f & ls & lss & H1 & H2 & H3 & H4 & H5).
  - eapply obs_look; [constructor|]. eapply obs_look; [exact Hr|]. econstructor. constructor.
  - exact Hmain.
  - by exists f, ls, lss, s.
Defined.

(** [CallExample] with a coordinator that answers prints the 100 its comment
    promises. *)
Example CallExample_says :
  CallExample (λ _, Some ()) (λ _, serve_example) 1000 = Runs ["reply.Y 100"].
Proof. reflexivity. Qed.
End Scenario.
