(* ===== verification/Raft.v ===== *)
(** * Raft: one peer (src/src/raft/raft.go, persister.go)

    [Raft] is the peer's record; every RPC handler, reply handler and
    background step is a function on it, with the panics of slice accesses and
    of [close] kept.  A handler that starts goroutines returns what it started
    ([spawn]); a function that releases the lock in the middle is split there.
    Commands and snapshots are opaque; terms and indices are unbounded
    integers.  Times are integers, [now] being what [time.Now()] returns. *)
From S2P Require Import Prelude GoLib.
Local Open Scope Z_scope.

(** ** The persister *)
Record Persister := { raftstate : list Z; ps_snapshot : list Z }.

Definition MakePersister : Persister := {| raftstate := []; ps_snapshot := [] |}.
Definition Persister_Copy (ps : Persister) : Persister := ps.
Definition ReadRaftState (ps : Persister) : list Z := raftstate ps.
Definition RaftStateSize (ps : Persister) : Z := go_len (raftstate ps).
Definition Save (state snap : list Z) (ps : Persister) : Persister :=
  {| raftstate := state; ps_snapshot := snap |}.
Definition ReadSnapshot (ps : Persister) : list Z := ps_snapshot ps.
Definition SnapshotSize (ps : Persister) : Z := go_len (ps_snapshot ps).

Inductive Role := Follower | Candidate | Leader.
#[export] Instance Role_eq_dec : EqDecision Role.
Proof. solve_decision. Defined.

(** A [chan struct{}] that is only ever closed. *)
Inductive chan := ChanNil | ChanOpen | ChanClosed.
#[export] Instance chan_eq_dec : EqDecision chan.
Proof. solve_decision. Defined.

Record LogEntry_ {Cmd : Type} := { le_Term : Z; le_Command : option Cmd }.
Arguments LogEntry_ : clear implicits.

#[export] Instance LogEntry_eq_dec `{EqDecision Cmd} : EqDecision (LogEntry_ Cmd).
Proof. solve_decision. Defined.

(** What [persist] writes: the arguments of the five [Encode] calls. *)
Definition persistent (Cmd : Type) : Type := Z * Z * list (LogEntry_ Cmd) * Z * Z.

(** [labgob] as [persist] and [readPersist] use it: what was encoded is read
    back, and is not empty. *)
Class Gob (Cmd : Type) := {
  gob_encode : persistent Cmd → list Z;
  gob_decode : list Z → option (persistent Cmd);
  gob_roundtrip x : gob_decode (gob_encode x) = Some x;
  gob_nonempty x : gob_encode x ≠ [];
}.

(** Such an encoding, for any type of commands that can be enumerated. *)
#[export] Instance LogEntry_countable `{Countable Cmd} : Countable (LogEntry_ Cmd).
Proof.
  apply (inj_countable' (λ e, (le_Term e, le_Command e))
           (λ p, {| le_Term := p.1; le_Command := p.2 |})).
  by intros [].
Defined.

Definition countable_Gob (Cmd : Type) `{Countable Cmd} : Gob Cmd.
Proof.
  refine {|
    gob_encode := λ x, [Z.pos (encode x)];
    gob_decode := λ data, match data with [Z.pos p] => decode p | _ => None end |}.
  - intros x. by rewrite decode_encode.
  - done.
Defined.

Section Peer.
Context {Cmd : Type}.
Local Abbreviation LogEntry := (LogEntry_ Cmd).

Record ApplyMsg := {
  CommandValid : bool;
  Command : option Cmd;
  CommandIndex : Z;
  SnapshotValid : bool;
  am_Snapshot : list Z;
  SnapshotTerm : Z;
  SnapshotIndex : Z;
}.

Record Raft := {
  me : Z;
  npeers : Z;  (* len(rf.peers) *)
  dead : bool;  (* set by Kill() *)
  persister : Persister;
  currentTerm : Z;
  votedFor : Z;
  logs : list LogEntry;
  commitIndex : Z;
  lastApplied : Z;
  nextIndex : list Z;
  matchIndex : list Z;
  role : Role;
  heartChan : chan;
  lastUpdate : Z;
  snapshot : list Z;
  lastIncludedIndex : Z;
  lastIncludedTerm : Z;
}.

Definition set_dead (v : bool) (rf : Raft) : Raft := {|
  me := me rf; npeers := npeers rf; dead := v; persister := persister rf;
  currentTerm := currentTerm rf; votedFor := votedFor rf; logs := logs rf;
  commitIndex := commitIndex rf; lastApplied := lastApplied rf; nextIndex := nextIndex rf;
  matchIndex := matchIndex rf; role := role rf; heartChan := heartChan rf;
  lastUpdate := lastUpdate rf; snapshot := snapshot rf;
  lastIncludedIndex := lastIncludedIndex rf; lastIncludedTerm := lastIncludedTerm rf |}.
Definition set_persister (v : Persister) (rf : Raft) : Raft := {|
  me := me rf; npeers := npeers rf; dead := dead rf; persister := v;
  currentTerm := currentTerm rf; votedFor := votedFor rf; logs := logs rf;
  commitIndex := commitIndex rf; lastApplied := lastApplied rf; nextIndex := nextIndex rf;
  matchIndex := matchIndex rf; role := role rf; heartChan := heartChan rf;
  lastUpdate := lastUpdate rf; snapshot := snapshot rf;
  lastIncludedIndex := lastIncludedIndex rf; lastIncludedTerm := lastIncludedTerm rf |}.
Definition set_currentTerm (v : Z) (rf : Raft) : Raft := {|
  me := me rf; npeers := npeers rf; dead := dead rf; persister := persister rf;
  currentTerm := v; votedFor := votedFor rf; logs := logs rf; commitIndex := commitIndex rf;
  lastApplied := lastApplied rf; nextIndex := nextIndex rf; matchIndex := matchIndex rf;
  role := role rf; heartChan := heartChan rf; lastUpdate := lastUpdate rf;
  snapshot := snapshot rf; lastIncludedIndex := lastIncludedIndex rf;
  lastIncludedTerm := lastIncludedTerm rf |}.
Definition set_votedFor (v : Z) (rf : Raft) : Raft := {|
  me := me rf; npeers := npeers rf; dead := dead rf; persister := persister rf;
  currentTerm := currentTerm rf; votedFor := v; logs := logs rf;
  commitIndex := commitIndex rf; lastApplied := lastApplied rf; nextIndex := nextIndex rf;
  matchIndex := matchIndex rf; role := role rf; heartChan := heartChan rf;
  lastUpdate := lastUpdate rf; snapshot := snapshot rf;
  lastIncludedIndex := lastIncludedIndex rf; lastIncludedTerm := lastIncludedTerm rf |}.
Definition set_logs (v : list LogEntry) (rf : Raft) : Raft := {|
  me := me rf; npeers := npeers rf; dead := dead rf; persister := persister rf;
  currentTerm := currentTerm rf; votedFor := votedFor rf; logs := v;
  commitIndex := commitIndex rf; lastApplied := lastApplied rf; nextIndex := nextIndex rf;
  matchIndex := matchIndex rf; role := role rf; heartChan := heartChan rf;
  lastUpdate := lastUpdate rf; snapshot := snapshot rf;
  lastIncludedIndex := lastIncludedIndex rf; lastIncludedTerm := lastIncludedTerm rf |}.
Definition set_commitIndex (v : Z) (rf : Raft) : Raft := {|
  me := me rf; npeers := npeers rf; dead := dead rf; persister := persister rf;
  currentTerm := currentTerm rf; votedFor := votedFor rf; logs := logs rf; commitIndex := v;
  lastApplied := lastApplied rf; nextIndex := nextIndex rf; matchIndex := matchIndex rf;
  role := role rf; heartChan := heartChan rf; lastUpdate := lastUpdate rf;
  snapshot := snapshot rf; lastIncludedIndex := lastIncludedIndex rf;
  lastIncludedTerm := lastIncludedTerm rf |}.
Definition set_lastApplied (v : Z) (rf : Raft) : Raft := {|
  me := me rf; npeers := npeers rf; dead := dead rf; persister := persister rf;
  currentTerm := currentTerm rf; votedFor := votedFor rf; logs := logs rf;
  commitIndex := commitIndex rf; lastApplied := v; nextIndex := nextIndex rf;
  matchIndex := matchIndex rf; role := role rf; heartChan := heartChan rf;
  lastUpdate := lastUpdate rf; snapshot := snapshot rf;
  lastIncludedIndex := lastIncludedIndex rf; lastIncludedTerm := lastIncludedTerm rf |}.
Definition set_nextIndex (v : list Z) (rf : Raft) : Raft := {|
  me := me rf; npeers := npeers rf; dead := dead rf; persister := persister rf;
  currentTerm := currentTerm rf; votedFor := votedFor rf; logs := logs rf;
  commitIndex := commitIndex rf; lastApplied := lastApplied rf; nextIndex := v;
  matchIndex := matchIndex rf; role := role rf; heartChan := heartChan rf;
  lastUpdate := lastUpdate rf; snapshot := snapshot rf;
  lastIncludedIndex := lastIncludedIndex rf; lastIncludedTerm := lastIncludedTerm rf |}.
Definition set_matchIndex (v : list Z) (rf : Raft) : Raft := {|
  me := me rf; npeers := npeers rf; dead := dead rf; persister := persister rf;
  currentTerm := currentTerm rf; votedFor := votedFor rf; logs := logs rf;
  commitIndex := commitIndex rf; lastApplied := lastApplied rf; nextIndex := nextIndex rf;
  matchIndex := v; role := role rf; heartChan := heartChan rf; lastUpdate := lastUpdate rf;
  snapshot := snapshot rf; lastIncludedIndex := lastIncludedIndex rf;
  lastIncludedTerm := lastIncludedTerm rf |}.
Definition set_role (v : Role) (rf : Raft) : Raft := {|
  me := me rf; npeers := npeers rf; dead := dead rf; persister := persister rf;
  currentTerm := currentTerm rf; votedFor := votedFor rf; logs := logs rf;
  commitIndex := commitIndex rf; lastApplied := lastApplied rf; nextIndex := nextIndex rf;
  matchIndex := matchIndex rf; role := v; heartChan := heartChan rf;
  lastUpdate := lastUpdate rf; snapshot := snapshot rf;
  lastIncludedIndex := lastIncludedIndex rf; lastIncludedTerm := lastIncludedTerm rf |}.
Definition set_heartChan (v : chan) (rf : Raft) : Raft := {|
  me := me rf; npeers := npeers rf; dead := dead rf; persister := persister rf;
  currentTerm := currentTerm rf; votedFor := votedFor rf; logs := logs rf;
  commitIndex := commitIndex rf; lastApplied := lastApplied rf; nextIndex := nextIndex rf;
  matchIndex := matchIndex rf; role := role rf; heartChan := v; lastUpdate := lastUpdate rf;
  snapshot := snapshot rf; lastIncludedIndex := lastIncludedIndex rf;
  lastIncludedTerm := lastIncludedTerm rf |}.
Definition set_lastUpdate (v : Z) (rf : Raft) : Raft := {|
  me := me rf; npeers := npeers rf; dead := dead rf; persister := persister rf;
  currentTerm := currentTerm rf; votedFor := votedFor rf; logs := logs rf;
  commitIndex := commitIndex rf; lastApplied := lastApplied rf; nextIndex := nextIndex rf;
  matchIndex := matchIndex rf; role := role rf; heartChan := heartChan rf; lastUpdate := v;
  snapshot := snapshot rf; lastIncludedIndex := lastIncludedIndex rf;
  lastIncludedTerm := lastIncludedTerm rf |}.
Definition set_snapshot (v : list Z) (rf : Raft) : Raft := {|
  me := me rf; npeers := npeers rf; dead := dead rf; persister := persister rf;
  currentTerm := currentTerm rf; votedFor := votedFor rf; logs := logs rf;
  commitIndex := commitIndex rf; lastApplied := lastApplied rf; nextIndex := nextIndex rf;
  matchIndex := matchIndex rf; role := role rf; heartChan := heartChan rf;
  lastUpdate := lastUpdate rf; snapshot := v; lastIncludedIndex := lastIncludedIndex rf;
  lastIncludedTerm := lastIncludedTerm rf |}.
Definition set_lastIncludedIndex (v : Z) (rf : Raft) : Raft := {|
  me := me rf; npeers := npeers rf; dead := dead rf; persister := persister rf;
  currentTerm := currentTerm rf; votedFor := votedFor rf; logs := logs rf;
  commitIndex := commitIndex rf; lastApplied := lastApplied rf; nextIndex := nextIndex rf;
  matchIndex := matchIndex rf; role := role rf; heartChan := heartChan rf;
  lastUpdate := lastUpdate rf; snapshot := snapshot rf; lastIncludedIndex := v;
  lastIncludedTerm := lastIncludedTerm rf |}.
Definition set_lastIncludedTerm (v : Z) (rf : Raft) : Raft := {|
  me := me rf; npeers := npeers rf; dead := dead rf; persister := persister rf;
  currentTerm := currentTerm rf; votedFor := votedFor rf; logs := logs rf;
  commitIndex := commitIndex rf; lastApplied := lastApplied rf; nextIndex := nextIndex rf;
  matchIndex := matchIndex rf; role := role rf; heartChan := heartChan rf;
  lastUpdate := lastUpdate rf; snapshot := snapshot rf;
  lastIncludedIndex := lastIncludedIndex rf; lastIncludedTerm := v |}.

(** Goroutines a handler starts. *)
Inductive spawn :=
  | SpawnApply                    (* go rf.applyLogs() *)
  | SpawnHeartbeat                (* go rf.startHeartbeat() *)
  | SpawnMsg (msg : ApplyMsg).    (* go func() { rf.applyCh <- msg }() *)

Definition GetState (rf : Raft) : Z * bool :=
  (currentTerm rf, bool_decide (role rf = Leader)).

(** ** Indices *)
Definition getLastStorageIndex (rf : Raft) : Z := go_len (logs rf) - 1.
Definition getLastLogicalIndex (rf : Raft) : Z := go_len (logs rf) - 1 + lastIncludedIndex rf.
Definition convertToStorageIndex (rf : Raft) (logicalIndex : Z) : Z :=
  logicalIndex - lastIncludedIndex rf.
Definition convertToLogicalIndex (rf : Raft) (storageIndex : Z) : Z :=
  storageIndex + lastIncludedIndex rf.

(** ** Persistence *)
Section Persist.
Context `{!Gob Cmd}.

Definition persist (rf : Raft) : Raft :=
  set_persister
    (Save (gob_encode (currentTerm rf, votedFor rf, logs rf,
                       lastIncludedIndex rf, lastIncludedTerm rf))
          (snapshot rf) (persister rf)) rf.

Definition readPersist (data : list Z) (rf : Raft) : outcome Raft :=
  if decide (data = []) then Ok rf
  else match gob_decode data with
       | None => Panic  (* log.Fatalln *)
       | Some (term, vote, lg, idx, itm) =>
           Ok (set_lastApplied idx (set_commitIndex idx
                (set_lastIncludedTerm itm (set_lastIncludedIndex idx
                  (set_logs lg (set_votedFor vote (set_currentTerm term rf)))))))
       end.

Definition readSnapshotPersist (data : list Z) (rf : Raft) : Raft :=
  if decide (data = []) then rf else set_snapshot data rf.

(** ** Roles *)
Definition convertRole (r : Role) (rf : Raft) : outcome (Raft * list spawn) :=
  match r with
  | Follower =>
      if decide (role rf = Leader) then
        match heartChan rf with
        | ChanOpen => Ok (set_role Follower (set_heartChan ChanClosed rf), [])
        | _ => Panic  (* close of nil or closed channel *)
        end
      else Ok (set_role Follower rf, [])
  | Leader =>
      let rf := set_nextIndex ((λ _, getLastLogicalIndex rf + 1) <$> nextIndex rf) rf in
      let rf := set_matchIndex ((λ _, -1) <$> matchIndex rf) rf in
      Ok (set_role Leader (set_heartChan ChanOpen rf), [SpawnHeartbeat])
  | Candidate => Ok (set_role Candidate rf, [])
  end.

(** Term seen in a message: [currentTerm = t; convertRole(Follower); votedFor = -1]. *)
Definition step_down (t : Z) (rf : Raft) : outcome (Raft * list spawn) :=
  '(rf, sp) ← convertRole Follower (set_currentTerm t rf); Ok (set_votedFor (-1) rf, sp).

(** ** Snapshots made by the service *)
Definition Snapshot (index : Z) (snap : list Z) (rf : Raft) : outcome Raft :=
  if decide (index <= lastIncludedIndex rf) then Ok rf
  else
    e ← go_index (logs rf) (convertToStorageIndex rf index);
    let rf := set_lastIncludedTerm (le_Term e) rf in
    tmpLogs ← go_from (logs rf) (convertToStorageIndex rf index);
    let rf := set_lastIncludedIndex index (set_logs tmpLogs rf) in
    lg ← go_set (logs rf) 0 {| le_Term := lastIncludedTerm rf; le_Command := None |};
    Ok (persist (set_snapshot snap (set_logs lg rf))).

(** ** Elections *)
Record RequestVoteArgs := {
  va_Term : Z; va_CandidateId : Z; va_LastLogIndex : Z; va_LastLogTerm : Z }.
Record RequestVoteReply := { vr_Term : Z; vr_VoteGranted : bool }.

Definition isLogUpToDate (prevLogTerm prevLogIndex : Z) (rf : Raft) : outcome bool :=
  e ← go_index (logs rf) (getLastStorageIndex rf);
  Ok (if decide (prevLogTerm = le_Term e) then bool_decide (getLastLogicalIndex rf <= prevLogIndex)
      else bool_decide (le_Term e < prevLogTerm)).

Definition RequestVote (now : Z) (args : RequestVoteArgs) (rf : Raft)
    : outcome (Raft * RequestVoteReply * list spawn) :=
  let refuse rf sp :=
    Ok (persist rf, {| vr_Term := currentTerm rf; vr_VoteGranted := false |}, sp) in
  if decide (va_Term args < currentTerm rf) then refuse rf []
  else if decide (va_Term args = currentTerm rf ∧ votedFor rf ≠ -1
                  ∧ votedFor rf ≠ va_CandidateId args) then refuse rf []
  else
    '(rf, sp) ← (if decide (currentTerm rf < va_Term args) then step_down (va_Term args) rf
                 else Ok (rf, []));
    ok ← isLogUpToDate (va_LastLogTerm args) (va_LastLogIndex args) rf;
    if ok : bool then
      let rf := set_lastUpdate now (set_votedFor (va_CandidateId args) rf) in
      Ok (persist rf, {| vr_Term := currentTerm rf; vr_VoteGranted := true |}, sp)
    else refuse (set_votedFor (-1) rf) sp.

Definition genRequestVoteArgs (rf : Raft) : outcome RequestVoteArgs :=
  e ← go_index (logs rf) (getLastStorageIndex rf);
  Ok {| va_Term := currentTerm rf; va_CandidateId := me rf;
        va_LastLogIndex := getLastLogicalIndex rf; va_LastLogTerm := le_Term e |}.

(** The first critical section of [startElection]; the arguments are
    generated in a second one, and the state persisted at the end. *)
Definition startElection (rf : Raft) : outcome (Raft * list spawn) :=
  '(rf, sp) ← convertRole Candidate rf;
  Ok (set_votedFor (me rf) (set_currentTerm (currentTerm rf + 1) rf), sp).

(** The closure that handles one vote reply; [voteCount] is shared by the
    closures of one election. *)
Definition handleVote (reply : RequestVoteReply) (voteCount : Z) (rf : Raft)
    : outcome (Raft * Z * list spawn) :=
  if decide (role rf = Candidate ∧ vr_VoteGranted reply = true) then
    let voteCount := voteCount + 1 in
    if decide (npeers rf `quot` 2 < voteCount) then
      '(rf, sp) ← convertRole Leader rf; Ok (rf, voteCount, sp)
    else Ok (rf, voteCount, [])
  else if decide (currentTerm rf < vr_Term reply) then
    '(rf, sp) ← step_down (vr_Term reply) rf; Ok (rf, voteCount, sp)
  else Ok (rf, voteCount, []).

(** ** Applying the log *)
Definition condInstallSnapshot (lastIncludedTerm_ lastIncludedIndex_ : Z) (rf : Raft)
    : outcome Raft :=
  let lastIndex := getLastLogicalIndex rf in
  lg ← (if decide (lastIndex < lastIncludedIndex_) then
          Ok [{| le_Term := 0; le_Command := None |}]
        else
          lg ← go_from (logs rf) (lastIncludedIndex_ - lastIncludedIndex rf);
          e ← go_index lg 0;
          go_set lg 0 {| le_Term := le_Term e; le_Command := None |});
  e ← go_index lg 0;
  lg ← go_set lg 0 {| le_Term := lastIncludedTerm_; le_Command := le_Command e |};
  Ok (persist (set_commitIndex lastIncludedIndex_ (set_lastApplied lastIncludedIndex_
        (set_lastIncludedTerm lastIncludedTerm_
          (set_lastIncludedIndex lastIncludedIndex_ (set_logs lg rf)))))).

Definition command_msg (i : Z) (e : LogEntry) : ApplyMsg :=
  {| CommandValid := true; Command := le_Command e; CommandIndex := i;
     SnapshotValid := false; am_Snapshot := []; SnapshotTerm := 0; SnapshotIndex := 0 |}.

(** The first critical section of [applyLogs]: the messages to send, or
    [None] when it goes to [condInstallSnapshot] instead. *)
Definition applyLogs (rf : Raft) : outcome (option (list ApplyMsg)) :=
  if decide (lastApplied rf < lastIncludedIndex rf) then Ok None
  else if decide (commitIndex rf <= lastApplied rf) then Ok (Some [])
  else
    msgs ← mapM (λ i, command_msg i <$> go_index (logs rf) (convertToStorageIndex rf i))
                (seqZ (lastApplied rf + 1) (commitIndex rf - lastApplied rf));
    Ok (Some msgs).

(** The call made in the first case: the two arguments are swapped there. *)
Definition applyLogs_snapshot (rf : Raft) : outcome Raft :=
  condInstallSnapshot (lastIncludedIndex rf) (lastIncludedTerm rf) rf.

(** After each message has been taken from the channel. *)
Definition applied (msg : ApplyMsg) (rf : Raft) : Raft := set_lastApplied (CommandIndex msg) rf.

(** ** Replication *)
Record AppendEntriesArgs := {
  aa_Term : Z; aa_LeaderId : Z; aa_PrevLogIndex : Z; aa_PrevLogTerm : Z;
  aa_Entries : list LogEntry; aa_LeaderCommit : Z }.
Record AppendEntriesReply := {
  ar_Term : Z; ar_Success : bool; ar_ConflictIndex : Z; ar_ConflictTerm : Z }.

(** [for index > 0 && rf.logs[index].Term >= t { index-- }] *)
Fixpoint back_ge (fuel : nat) (lg : list LogEntry) (t index : Z) : outcome Z :=
  match fuel with
  | O => Ok index
  | S fuel =>
      if decide (0 < index) then
        e ← go_index lg index;
        if decide (t <= le_Term e) then back_ge fuel lg t (index - 1) else Ok index
      else Ok index
  end.

(** [for index >= 0 && rf.logs[index].Term > t { index-- }] *)
Fixpoint back_gt (fuel : nat) (lg : list LogEntry) (t index : Z) : outcome Z :=
  match fuel with
  | O => Ok index
  | S fuel =>
      if decide (0 <= index) then
        e ← go_index lg index;
        if decide (t < le_Term e) then back_gt fuel lg t (index - 1) else Ok index
      else Ok index
  end.

(** The three ways [AppendEntries] answers once the term is accepted. *)
Definition append_reply (rf : Raft) (ok : bool) (ci ct : Z) : AppendEntriesReply :=
  {| ar_Term := currentTerm rf; ar_Success := ok; ar_ConflictIndex := ci; ar_ConflictTerm := ct |}.

Definition append_log (args : AppendEntriesArgs) (rf : Raft)
    : outcome (Raft * AppendEntriesReply * list spawn) :=
  if decide (getLastLogicalIndex rf < aa_PrevLogIndex args) then
    Ok (rf, append_reply rf false (getLastLogicalIndex rf) 0, [])
  else
    let index := convertToStorageIndex rf (aa_PrevLogIndex args) in
    conflict ← (if decide (0 < index) then
                  e ← go_index (logs rf) index;
                  Ok (if decide (le_Term e = aa_PrevLogTerm args) then None
                      else Some (le_Term e))
                else Ok None);
    match conflict with
    | Some t =>
        index ← back_ge (Z.to_nat index) (logs rf) t index;
        Ok (rf, append_reply rf false (convertToLogicalIndex rf (index + 1)) t, [])
    | None =>
        lg ← go_upto (logs rf) (index + 1);
        let rf := set_logs (lg ++ aa_Entries args) rf in
        let reply := {| ar_Term := aa_Term args; ar_Success := true;
                        ar_ConflictIndex := 0; ar_ConflictTerm := 0 |} in
        if decide (commitIndex rf < aa_LeaderCommit args) then
          let c := if decide (aa_LeaderCommit args < getLastLogicalIndex rf)
                   then aa_LeaderCommit args else getLastLogicalIndex rf in
          Ok (set_commitIndex c rf, reply, [SpawnApply])
        else Ok (rf, reply, [])
    end.

Definition AppendEntries (now : Z) (args : AppendEntriesArgs) (rf : Raft)
    : outcome (Raft * AppendEntriesReply * list spawn) :=
  if decide (aa_Term args < currentTerm rf) then
    Ok (persist rf, append_reply rf false 0 0, [])
  else
    '(rf, sp) ← convertRole Follower rf;
    let rf := if decide (currentTerm rf < aa_Term args)
              then set_votedFor (-1) (set_lastUpdate now (set_currentTerm (aa_Term args) rf))
              else set_lastUpdate now rf in
    '(rf, reply, sp') ← append_log args rf;
    Ok (persist rf, reply, sp ++ sp').

Definition genAppendEntries (server : Z) (rf : Raft) : outcome (AppendEntriesArgs * bool) :=
  next ← go_index (nextIndex rf) server;
  let prev := next - 1 in
  if decide (prev < lastIncludedIndex rf) then
    Ok ({| aa_Term := currentTerm rf; aa_LeaderId := me rf; aa_PrevLogIndex := prev;
           aa_PrevLogTerm := 0; aa_Entries := []; aa_LeaderCommit := 0 |}, true)
  else
    let index := convertToStorageIndex rf prev in
    t ← (if decide (index < 0) then Ok 0 else e ← go_index (logs rf) index; Ok (le_Term e));
    entries ← go_from (logs rf) (convertToStorageIndex rf next);
    Ok ({| aa_Term := currentTerm rf; aa_LeaderId := me rf; aa_PrevLogIndex := prev;
           aa_PrevLogTerm := t; aa_Entries := entries; aa_LeaderCommit := commitIndex rf |},
        false).

(** The loop over [n], from the last index down to [commitIndex + 1]. *)
Definition count_match (rf : Raft) (n : Z) : outcome Z :=
  foldl (λ acc i,
      count ← acc;
      if decide (i = me rf) then Ok count
      else m ← go_index (matchIndex rf) i; Ok (if decide (n <= m) then count + 1 else count))
    (Ok 1) (seqZ 0 (npeers rf)).

Fixpoint commit_scan (fuel : nat) (n : Z) (rf : Raft) : outcome (Raft * list spawn) :=
  match fuel with
  | O => Ok (rf, [])
  | S fuel =>
      if decide (commitIndex rf < n) then
        e ← go_index (logs rf) (convertToStorageIndex rf n);
        count ← (if decide (le_Term e = currentTerm rf) then count_match rf n else Ok 1);
        if decide (npeers rf `quot` 2 < count) then Ok (set_commitIndex n rf, [SpawnApply])
        else commit_scan fuel (n - 1) rf
      else Ok (rf, [])
  end.

Definition append_failed (server : Z) (reply : AppendEntriesReply) (rf : Raft) : outcome Raft :=
  let fallback := next ← go_set (nextIndex rf) server (ar_ConflictIndex reply);
                  Ok (set_nextIndex next rf) in
  if decide (ar_ConflictTerm reply ≠ 0) then
    next ← go_index (nextIndex rf) server;
    let start := convertToStorageIndex rf (next - 1) in
    index ← back_gt (Z.to_nat (start + 1)) (logs rf) (ar_ConflictTerm reply) start;
    found ← (if decide (0 <= index) then
               e ← go_index (logs rf) index;
               Ok (bool_decide (le_Term e = ar_ConflictTerm reply))
             else Ok false);
    if found : bool then next ← go_set (nextIndex rf) server (index + 1); Ok (set_nextIndex next rf)
    else fallback
  else fallback.

Definition handleAppendEntries (now server : Z) (args : AppendEntriesArgs)
    (reply : AppendEntriesReply) (rf : Raft) : outcome (Raft * list spawn) :=
  let rf := set_lastUpdate now rf in
  if decide (role rf ≠ Leader) then Ok (persist rf, [])
  else if decide (currentTerm rf < ar_Term reply) then
    '(rf, sp) ← step_down (ar_Term reply) rf; Ok (persist rf, sp)
  else if ar_Success reply then
    next ← go_set (nextIndex rf) server (getLastLogicalIndex rf + 1);
    mtch ← go_set (matchIndex rf) server (aa_PrevLogIndex args + go_len (aa_Entries args));
    let rf := set_matchIndex mtch (set_nextIndex next rf) in
    '(rf, sp) ← commit_scan (Z.to_nat (getLastLogicalIndex rf - commitIndex rf))
                            (getLastLogicalIndex rf) rf;
    Ok (persist rf, sp)
  else rf ← append_failed server reply rf; Ok (persist rf, []).

(** ** Snapshots sent by the leader *)
Record InstallSnapshotArgs := {
  ia_Term : Z; ia_LeaderId : Z; ia_LastIncludedIndex : Z; ia_LastIncludedTerm : Z;
  ia_Data : list Z }.
Record InstallSnapshotReply := { ir_Term : Z }.

Definition snapshot_msg (args : InstallSnapshotArgs) : ApplyMsg :=
  {| CommandValid := false; Command := None; CommandIndex := 0;
     SnapshotValid := true; am_Snapshot := ia_Data args;
     SnapshotTerm := ia_LastIncludedTerm args; SnapshotIndex := ia_LastIncludedIndex args |}.

Definition InstallSnapshot (now : Z) (args : InstallSnapshotArgs) (rf : Raft)
    : outcome (Raft * InstallSnapshotReply * list spawn) :=
  if decide (ia_Term args < currentTerm rf) then
    Ok (rf, {| ir_Term := currentTerm rf |}, [])
  else
    '(rf, t, sp) ← (if decide (currentTerm rf < ia_Term args) then
                      '(rf, sp) ← convertRole Follower rf;
                      Ok (set_lastUpdate now
                            (set_currentTerm (ia_Term args) (set_votedFor (-1) rf)),
                          ia_Term args, sp)
                    else Ok (rf, 0, []));
    let idx := ia_LastIncludedIndex args in
    if decide (idx <= lastIncludedIndex rf ∨ idx <= lastApplied rf) then
      Ok (persist rf, {| ir_Term := t |}, sp)
    else
      lg ← (if decide (getLastLogicalIndex rf <= idx) then
              Ok [{| le_Term := ia_LastIncludedTerm args; le_Command := None |}]
            else
              tmpLogs ← go_from (logs rf) (convertToStorageIndex rf idx);
              go_set tmpLogs 0 {| le_Term := 0; le_Command := None |});
      let rf := set_lastIncludedTerm (ia_LastIncludedTerm args)
                  (set_lastIncludedIndex idx (set_logs lg rf)) in
      let rf := set_lastApplied idx (set_snapshot (ia_Data args) rf) in
      let rf := if decide (commitIndex rf < idx) then set_commitIndex idx rf else rf in
      Ok (persist rf, {| ir_Term := t |}, sp ++ [SpawnMsg (snapshot_msg args)]).

Definition genInstallSnapshot (rf : Raft) : InstallSnapshotArgs :=
  {| ia_Term := currentTerm rf; ia_LeaderId := me rf;
     ia_LastIncludedIndex := lastIncludedIndex rf; ia_LastIncludedTerm := lastIncludedTerm rf;
     ia_Data := snapshot rf |}.

(** The part of [handleInstallSnapshot] after the call has returned. *)
Definition handleInstallSnapshot (now server : Z) (args : InstallSnapshotArgs)
    (reply : InstallSnapshotReply) (rf : Raft) : outcome (Raft * list spawn) :=
  if decide (role rf ≠ Leader ∨ currentTerm rf ≠ ia_Term args) then Ok (rf, [])
  else if decide (currentTerm rf < ir_Term reply) then
    '(rf, sp) ← step_down (ir_Term reply) rf;
    Ok (persist (set_lastUpdate now rf), sp)
  else
    next ← go_index (nextIndex rf) server;
    if decide (next <= ia_LastIncludedIndex args) then
      nexts ← go_set (nextIndex rf) server (ia_LastIncludedIndex args + 1);
      mtch ← go_set (matchIndex rf) server (ia_LastIncludedIndex args);
      Ok (set_matchIndex mtch (set_nextIndex nexts rf), [])
    else Ok (rf, []).

(** ** Heartbeats *)

(** One turn of [startHeartbeat]'s loop: the servers to send to, or [None]
    when the loop ends. *)
Definition startHeartbeat (rf : Raft) : option (list Z) :=
  if dead rf then None
  else match heartChan rf with
       | ChanClosed => None
       | _ => if (GetState rf).2 then Some (filter (λ i, i ≠ me rf) (seqZ 0 (npeers rf))) else None
       end.

(** What is sent to one server; [rf'] is the peer when the role is read,
    after the arguments have been generated. *)
Inductive send := SendAppend (args : AppendEntriesArgs) | SendSnapshot.

Definition heartbeat_to (server : Z) (rf rf' : Raft) : outcome (option send) :=
  '(args, isSnapshot) ← genAppendEntries server rf;
  Ok (if (GetState rf').2 then Some (if isSnapshot : bool then SendSnapshot else SendAppend args)
      else None).

(** ** Commands *)

(** [Start] reads the term and the role first; [Start_append] is the part
    under the second lock, with the term read before. *)
Definition Start_append (term : Z) (command : Cmd) (rf : Raft) : Raft * Z :=
  let rf := set_logs (logs rf ++ [{| le_Term := term; le_Command := Some command |}]) rf in
  (rf, getLastLogicalIndex rf).

Definition Start (command : Cmd) (rf : Raft) : Raft * (Z * Z * bool) :=
  let '(term, isLeader) := GetState rf in
  if isLeader : bool then
    let '(rf, index) := Start_append term command rf in (persist rf, (index, term, true))
  else (rf, (-1, term, false)).

Definition Kill (rf : Raft) : Raft := set_dead true rf.
Definition killed (rf : Raft) : bool := dead rf.

(** One turn of [ticker]: whether it starts an election, [ms] being drawn. *)
Definition ticker (now ms : Z) (rf : Raft) : bool :=
  negb (killed rf) && negb (GetState rf).2 && bool_decide (ms < now - lastUpdate rf).

Definition Make (peers me_ : Z) (ps : Persister) (now : Z) : outcome Raft :=
  let rf := {|
    me := me_; npeers := peers; dead := false; persister := ps;
    currentTerm := 0; votedFor := -1; logs := [{| le_Term := 0; le_Command := None |}];
    commitIndex := 0; lastApplied := 0;
    nextIndex := replicate (Z.to_nat peers) 0; matchIndex := replicate (Z.to_nat peers) 0;
    role := Follower; heartChan := ChanNil; lastUpdate := now;
    snapshot := []; lastIncludedIndex := 0; lastIncludedTerm := 0 |} in
  rf ← readPersist (ReadRaftState ps) rf;
  Ok (readSnapshotPersist (ReadSnapshot ps) rf).
End Persist.
End Peer.
Arguments Raft : clear implicits.
Arguments ApplyMsg : clear implicits.
Arguments spawn : clear implicits.
Arguments AppendEntriesArgs : clear implicits.
