(* ===== verification/TestUtil.v ===== *)
(** * Helpers that every lab has a copy of

    The random names of end points and files, the seed and the time limit of
    the tests (config.go of each lab), the debug output of the servers
    (raft/util.go, server.go of each service) and the goroutine of a Raft peer
    that prints its state.  Random bytes and numbers are arguments. *)
From Stdlib Require Import Ascii.
From S2P Require Import Prelude GoLib Raft.
Local Open Scope Z_scope.

(** ** [base64.URLEncoding]: three bytes make four characters, [=] fills up *)
Definition base64_alphabet : string :=
  "ABCDEFGHIJKLMNOPQRSTUVWXYZabcdefghijklmnopqrstuvwxyz0123456789-_".

Definition base64_char (x : Z) : string :=
  match chars base64_alphabet !! Z.to_nat (Z.land x 63) with
  | Some c => String c EmptyString
  | None => EmptyString
  end.

Fixpoint EncodeToString (b : list Z) : string :=
  match b with
  | [] => EmptyString
  | [x] => base64_char (Z.shiftr x 2) +:+ base64_char (Z.shiftl x 4) +:+ "=="
  | [x; y] =>
      base64_char (Z.shiftr x 2) +:+ base64_char (Z.lor (Z.shiftl x 4) (Z.shiftr y 4)) +:+
      base64_char (Z.shiftl y 2) +:+ "="
  | x :: y :: z :: b =>
      base64_char (Z.shiftr x 2) +:+ base64_char (Z.lor (Z.shiftl x 4) (Z.shiftr y 4)) +:+
      base64_char (Z.lor (Z.shiftl y 2) (Z.shiftr z 6)) +:+ base64_char z +:+ EncodeToString b
  end.

Definition go_substring (s : string) (i j : Z) : outcome string :=
  if decide (0 ≤ i ≤ j ∧ j ≤ go_len (chars s))
  then Ok (String.string_of_list_ascii (take (Z.to_nat (j - i)) (drop (Z.to_nat i) (chars s))))
  else Panic.

(** [randstring]: [random] are the bytes that [crand.Read] delivers, as many as
    it is asked for. *)
Definition randstring (random : nat → list Z) (n : Z) : outcome string :=
  if decide (2 * n < 0) then Panic  (* makeslice: len out of range *)
  else
    let b := random (Z.to_nat (2 * n)) in
    let s := EncodeToString b in
    go_substring s 0 n.

(** [makeSeed]: [Int] draws from [0 .. max - 1]. *)
Definition makeSeed (Int : Z → Z) : Z :=
  let max := Z.shiftl 1 62 in
  let bigx := Int max in
  bigx.

Lemma base64_char_length x : length (chars (base64_char x)) = 1%nat.
Proof.
  unfold base64_char. change 63 with (Z.ones 6). rewrite Z.land_ones by lia.
  destruct (lookup_lt_is_Some_2 (chars base64_alphabet) (Z.to_nat (x `mod` 2^6))) as [c ->]; [|done].
  pose proof (Z.mod_pos_bound x (2^6) ltac:(lia)). cbn [chars base64_alphabet String.list_ascii_of_string length].
  lia.
Qed.

(** Four characters for every three bytes that were begun. *)
Lemma EncodeToString_length b :
  go_len (chars (EncodeToString b)) = 4 * ((go_len b + 2) / 3).
Proof.
  unfold go_len. induction b as [[|x [|y [|z b]]] IH] using (induction_ltof1 _ length);
    cbn [EncodeToString]; rewrite ?chars_app, ?length_app, ?base64_char_length; [done..|].
  specialize (IH b ltac:(unfold ltof; cbn; lia)). cbn [length].
  replace (Z.of_nat (S (S (S (length b)))) + 2) with (Z.of_nat (length b) + 2 + 1 * 3) by lia.
  rewrite Z.div_add by lia. lia.
Qed.

(** A name is never too short: [randstring] answers [n] characters. *)
Lemma randstring_length random n :
  0 ≤ n → (∀ k, length (random k) = k) →
  ∃ s, randstring random n = Ok s ∧ length (chars s) = Z.to_nat n.
Proof.
  intros Hn Hr. unfold randstring, go_substring. rewrite decide_False by lia. cbn zeta.
  pose proof (EncodeToString_length (random (Z.to_nat (2 * n)))) as Hl.
  unfold go_len in Hl at 2. rewrite Hr in Hl.
  assert (n ≤ 4 * ((Z.of_nat (Z.to_nat (2 * n)) + 2) / 3)).
  { pose proof (Z.div_mod (Z.of_nat (Z.to_nat (2 * n)) + 2) 3).
    pose proof (Z.mod_pos_bound (Z.of_nat (Z.to_nat (2 * n)) + 2) 3). lia. }
  rewrite decide_True by lia. eexists. split; [done|].
  unfold chars, go_len in *. rewrite String.list_ascii_of_string_of_list_ascii, drop_0, length_take. lia.
Qed.

Example randstring_names : randstring (λ n, take n [0; 16; 131; 255]) 2 = Ok "AB".
Proof. reflexivity. Qed.

(** ** The time limit: [t.Failed()], and the seconds since the test began *)
Definition checkTestTimeout (failed : bool) (since : Z) : outcome () :=
  if negb failed && bool_decide (120 < since) then Panic  (* t.Fatal *) else Ok ().

(** ** Debug output

    The logger of package log: its flags, and what has been printed. *)
Record logger := { lg_flags : Z; lg_printed : list string }.

Definition Ltime : Z := 2.
Definition Debug : bool := false.

Definition DPrintf {A} (Sprintf : string → list A → string) (format : string) (a : list A)
    (l : logger) : logger :=
  if Debug then {| lg_flags := Ltime; lg_printed := lg_printed l ++ [Sprintf format a] |} else l.

(** The copy of the services leaves the flags alone. *)
Definition DPrintf_srv {A} (Sprintf : string → list A → string) (format : string) (a : list A)
    (l : logger) : logger :=
  if Debug then {| lg_flags := lg_flags l; lg_printed := lg_printed l ++ [Sprintf format a] |} else l.

(** [checkState]: [states] are the states of the peer that the loop would see,
    one a second. *)
Fixpoint checkState {Cmd} (describe : Raft Cmd → string) (states : list (Raft Cmd)) (l : logger) : logger :=
  match states with
  | [] => l
  | rf :: states =>
      if Debug && negb (killed rf)
      then checkState describe states (DPrintf (λ _ rfs, String.concat "" (describe <$> rfs)) "" [rf] l)
      else l
  end.

(** Debugging is off: neither prints anything, and [checkState]'s goroutine ends
    at once, whatever the peer does. *)
Lemma debug_silent {A Cmd} Sprintf format (a : list A) (describe : Raft Cmd → string) states l :
  DPrintf Sprintf format a l = l ∧ DPrintf_srv Sprintf format a l = l ∧ checkState describe states l = l.
Proof. split_and!; [done..|]. by destruct states. Qed.
