(* ===== verification/RaftPeer.v ===== *)
(** * Raft: what one peer guarantees

    [peer_ok] is the well-formedness of a peer; the handlers keep it and do not
    panic, except [AppendEntries] on an entry that precedes the snapshot.  Then
    the functional behaviour of each handler, branch by branch: who gets a
    vote, what an append does to the log, how far a conflict sends the leader
    back, which index is committed, what a snapshot leaves of the log, and
    what survives a restart. *)
From S2P Require Import Prelude GoLib Raft.
Local Open Scope Z_scope.

Section Peer.
Context {Cmd : Type} `{!Gob Cmd}.
Local Abbreviation LogEntry := (LogEntry_ Cmd).
Local Abbreviation Raft := (Raft Cmd).
Local Abbreviation AppendEntriesArgs := (AppendEntriesArgs Cmd).
Implicit Types (rf : Raft).

Record peer_ok rf : Prop := {
  ok_logs : logs rf ≠ [];
  ok_next : go_len (nextIndex rf) = npeers rf;
  ok_match : go_len (matchIndex rf) = npeers rf;
  ok_chan : role rf = Leader → heartChan rf = ChanOpen;
}.

(** The logical log: entry [i], for [i] from [lastIncludedIndex] on. *)
Definition entry_at rf (i : Z) : outcome LogEntry :=
  go_index (logs rf) (convertToStorageIndex rf i).

(** ** Frames: the parts of the state that a function leaves alone *)
Lemma convertRole_Ok r rf :
  peer_ok rf →
  ∃ rf' sp, convertRole r rf = Ok (rf', sp) ∧ peer_ok rf' ∧ role rf' = r ∧
    currentTerm rf' = currentTerm rf ∧ votedFor rf' = votedFor rf ∧ logs rf' = logs rf ∧
    me rf' = me rf ∧ npeers rf' = npeers rf ∧ lastIncludedIndex rf' = lastIncludedIndex rf ∧
    lastIncludedTerm rf' = lastIncludedTerm rf ∧ commitIndex rf' = commitIndex rf ∧
    lastApplied rf' = lastApplied rf ∧ snapshot rf' = snapshot rf ∧ persister rf' = persister rf.
Proof.
  intros [Hl Hn Hm Hc]. destruct r; cbn.
  - case_decide as Hr; [rewrite (Hc Hr)|];
      (do 2 eexists; split; [done|]; by split_and!).
  - do 2 eexists. split; [done|]. by split_and!.
  - do 2 eexists. split; [done|]. split_and!; try done. split; cbn; try done;
      unfold go_len in *; by rewrite length_fmap.
Qed.

Lemma step_down_Ok t rf :
  peer_ok rf →
  ∃ rf' sp, step_down t rf = Ok (rf', sp) ∧ peer_ok rf' ∧ role rf' = Follower ∧
    currentTerm rf' = t ∧ votedFor rf' = -1 ∧ logs rf' = logs rf ∧
    me rf' = me rf ∧ npeers rf' = npeers rf ∧ lastIncludedIndex rf' = lastIncludedIndex rf ∧
    commitIndex rf' = commitIndex rf ∧ lastApplied rf' = lastApplied rf.
Proof.
  intros [Hl Hn Hm Hc]. unfold step_down.
  destruct (convertRole_Ok Follower (set_currentTerm t rf)) as
    (rf' & sp & Heq & [? ? ? ?] & Hr & Ht & ? & ? & ? & ? & ? & ? & ? & ? & ? & ?); [by split|].
  rewrite Heq; cbn. do 2 eexists. split; [done|]. by split_and!.
Qed.

Lemma last_entry rf : logs rf ≠ [] → ∃ e, go_index (logs rf) (getLastStorageIndex rf) = Ok e.
Proof.
  intros Hl. apply go_index_in_range. unfold getLastStorageIndex, go_len.
  destruct (logs rf); cbn; [done|lia].
Qed.

(** ** Votes *)

(** The candidate's log is at least as up to date as the peer's. *)
Definition up_to_date rf (t i : Z) : Prop :=
  ∃ e, go_index (logs rf) (getLastStorageIndex rf) = Ok e ∧
       (le_Term e < t ∨ t = le_Term e ∧ getLastLogicalIndex rf ≤ i).

Lemma isLogUpToDate_spec rf t i :
  logs rf ≠ [] → ∃ b, isLogUpToDate t i rf = Ok b ∧ (b = true ↔ up_to_date rf t i).
Proof.
  intros Hl. destruct (last_entry _ Hl) as [e He]. unfold isLogUpToDate, up_to_date. rewrite He; cbn.
  eexists. split; [done|]. case_decide; rewrite bool_decide_eq_true; split.
  - intros. exists e. split; [done|]. by right.
  - intros (e' & [= <-] & [?|[_ ?]]); lia.
  - intros. exists e. split; [done|]. by left.
  - intros (e' & [= <-] & [?|[? _]]); [done|congruence].
Qed.

Lemma peer_ok_persist rf : peer_ok rf → peer_ok (persist rf).
Proof. by intros [? ? ? ?]. Qed.

Lemma up_to_date_frame rf rf' t i :
  logs rf' = logs rf → lastIncludedIndex rf' = lastIncludedIndex rf →
  up_to_date rf' t i ↔ up_to_date rf t i.
Proof.
  intros Hl Hi. unfold up_to_date, getLastStorageIndex, getLastLogicalIndex. by rewrite Hl, Hi.
Qed.

(** The vote of a peer for these arguments. *)
Definition may_grant rf (args : RequestVoteArgs) : Prop :=
  (currentTerm rf < va_Term args ∨
   currentTerm rf = va_Term args ∧ (votedFor rf = -1 ∨ votedFor rf = va_CandidateId args)) ∧
  up_to_date rf (va_LastLogTerm args) (va_LastLogIndex args).

Lemma RequestVote_cases now args rf :
  peer_ok rf →
  ∃ rf' reply sp, RequestVote now args rf = Ok (rf', reply, sp) ∧ peer_ok rf' ∧
    currentTerm rf' = currentTerm rf `max` va_Term args ∧ logs rf' = logs rf ∧
    vr_Term reply = currentTerm rf' ∧
    persister rf' = persister (persist rf') ∧
    (vr_VoteGranted reply = true ↔ may_grant rf args) ∧
    (vr_VoteGranted reply = true → votedFor rf' = va_CandidateId args) ∧
    (vr_VoteGranted reply = false →
      currentTerm rf' = currentTerm rf →
      votedFor rf' = votedFor rf ∨
      votedFor rf' = -1 ∧ va_Term args = currentTerm rf ∧
      (votedFor rf = -1 ∨ votedFor rf = va_CandidateId args)).
Proof.
  intros Hok. unfold RequestVote, may_grant.
  case_decide as H1; [|case_decide as H2].
  - do 3 eexists. split; [done|]. cbn. split_and!; try done; [by apply peer_ok_persist|lia| |by left].
    split; [done|]. intros [[?|[? _]] _]; lia.
  - do 3 eexists. split; [done|]. cbn. split_and!; try done; [by apply peer_ok_persist|lia| |by left].
    split; [done|]. intros [[?|[? [?|?]]] _]; lia.
  - case_decide as H3.
    + destruct (step_down_Ok (va_Term args) rf Hok) as
        (rf1 & sp & -> & Hok1 & Hr1 & Ht1 & Hv1 & Hl1 & Hme1 & Hnp1 & Hi1 & _); cbn.
      destruct (isLogUpToDate_spec rf1 (va_LastLogTerm args) (va_LastLogIndex args)) as (b & -> & Hb);
        [apply Hok1|]; cbn.
      rewrite (up_to_date_frame rf rf1) in Hb by done.
      destruct b; do 3 eexists; (split; [done|]); cbn; rewrite ?Ht1, ?Hl1;
        split_and!; try done; try lia; try (by destruct Hok1).
      * split; [intros _|done]. split; [by left|by apply Hb].
      * split; [done|]. intros [_ ?]. by apply Hb.
    + destruct (isLogUpToDate_spec rf (va_LastLogTerm args) (va_LastLogIndex args)) as (b & Hb' & Hb);
        [apply Hok|]. cbn. rewrite Hb'; cbn.
      assert (currentTerm rf = va_Term args) as Heq by lia.
      assert (votedFor rf = -1 ∨ votedFor rf = va_CandidateId args) as Hv.
      { destruct (decide (votedFor rf = -1)); [tauto|].
        destruct (decide (votedFor rf = va_CandidateId args)); [tauto|]. destruct H2. by split_and!. }
      destruct b; do 3 eexists; (split; [done|]); cbn;
        split_and!; try done; try lia; try (by destruct Hok).
      * split; [intros _|done]. split; [tauto|by apply Hb].
      * split; [done|]. intros [_ ?]. by apply Hb.
Qed.

(** C32. [RequestVote], on a well-formed peer, never panics: the term becomes
    the larger of the two, the state is persisted before the reply leaves,
    and the vote is granted exactly when the request is of the peer's term
    or a later one, the peer has not voted for someone else in that term,
    and the candidate's log is at least as up to date. *)
Theorem RequestVote_spec now args rf :
  peer_ok rf →
  ∃ rf' reply sp, RequestVote now args rf = Ok (rf', reply, sp) ∧ peer_ok rf' ∧
    currentTerm rf' = currentTerm rf `max` va_Term args ∧ logs rf' = logs rf ∧
    vr_Term reply = currentTerm rf' ∧ persister rf' = persister (persist rf') ∧
    (vr_VoteGranted reply = true ↔ may_grant rf args) ∧
    (vr_VoteGranted reply = true → votedFor rf' = va_CandidateId args).
Proof.
  intros Hok. destruct (RequestVote_cases now args rf Hok)
    as (rf' & reply & sp & Heq & H1 & H2 & H3 & H4 & H5 & H6 & H7 & _).
  exists rf', reply, sp. by split_and!.
Qed.

(** ** Appends *)

Lemma back_ge_spec (lg : list LogEntry) t : ∀ fuel index,
  (Z.to_nat index ≤ fuel)%nat → 0 ≤ index < go_len lg →
  ∃ j, back_ge fuel lg t index = Ok j ∧ 0 ≤ j ≤ index ∧
    (∀ k e, j < k ≤ index → go_index lg k = Ok e → t ≤ le_Term e) ∧
    (0 < j → ∃ e, go_index lg j = Ok e ∧ le_Term e < t).
Proof.
  induction fuel as [|fuel IH]; intros index Hf Hi; cbn [back_ge].
  { exists index. split_and!; [done|lia..]. }
  case_decide as Hpos; [|exists index; split_and!; [done|lia..]].
  destruct (go_index_in_range lg index) as [e He]; [lia|]. rewrite He; cbn.
  case_decide as Ht.
  - destruct (IH (index - 1)) as (j & Hj & Hr & Hall & Hstop); [lia..|].
    exists j. split_and!; [done|lia|lia| |done]. intros k e' Hk Hke.
    destruct (decide (k = index)) as [->|]; [congruence|]. apply (Hall k); [lia|done].
  - exists index. split_and!; [done|lia..|]. intros _. exists e. split; [done|lia].
Qed.

(** The request matches the log: its previous entry is there. *)
Definition prev_matches rf (args : AppendEntriesArgs) : Prop :=
  aa_PrevLogIndex args ≤ getLastLogicalIndex rf ∧
  (lastIncludedIndex rf < aa_PrevLogIndex args →
   ∃ e, entry_at rf (aa_PrevLogIndex args) = Ok e ∧ le_Term e = aa_PrevLogTerm args).

(** The commit index after an append, as the source computes it. *)
Definition next_commit rf rf' (args : AppendEntriesArgs) : Z :=
  if decide (commitIndex rf < aa_LeaderCommit args)
  then aa_LeaderCommit args `min` getLastLogicalIndex rf' else commitIndex rf.

Lemma append_log_success args rf :
  peer_ok rf → lastIncludedIndex rf ≤ aa_PrevLogIndex args → prev_matches rf args →
  ∃ rf' sp, append_log args rf =
      Ok (rf', {| ar_Term := aa_Term args; ar_Success := true;
                  ar_ConflictIndex := 0; ar_ConflictTerm := 0 |}, sp) ∧
    logs rf' = take (Z.to_nat (aa_PrevLogIndex args - lastIncludedIndex rf + 1)) (logs rf)
               ++ aa_Entries args ∧
    rf' = set_commitIndex (next_commit rf rf' args) (set_logs (logs rf') rf).
Proof.
  intros Hok Hlo [Hhi Hmatch]. unfold append_log. rewrite decide_False by lia.
  set (index := convertToStorageIndex rf (aa_PrevLogIndex args)).
  assert (0 ≤ index < go_len (logs rf)) as Hidx.
  { subst index. unfold convertToStorageIndex, getLastLogicalIndex in *. lia. }
  assert ((if decide (0 < index) then
             e ← go_index (logs rf) index;
             Ok (if decide (le_Term e = aa_PrevLogTerm args) then None else Some (le_Term e))
           else Ok None) = Ok None) as ->.
  { case_decide as Hpos; [|done]. destruct Hmatch as (e & He & Ht);
      [subst index; unfold convertToStorageIndex in *; lia|].
    unfold entry_at in He. fold index in He. rewrite He; cbn. by rewrite decide_True. }
  cbn [mbind outcome_bind]. unfold go_upto. rewrite decide_True by lia. cbn [mbind outcome_bind].
  unfold next_commit. cbn [commitIndex set_logs].
  case_decide as Hc; do 2 eexists; (split; [done|]); cbn; (split; [done|]).
  - unfold getLastLogicalIndex; cbn.
    destruct rf; unfold set_commitIndex, set_logs; cbn. f_equal. case_decide; lia.
  - by destruct rf.
Qed.

Lemma append_log_refused args rf :
  peer_ok rf → lastIncludedIndex rf ≤ aa_PrevLogIndex args → ¬ prev_matches rf args →
  ∃ reply, append_log args rf = Ok (rf, reply, []) ∧
    ar_Success reply = false ∧ ar_Term reply = currentTerm rf ∧
    (getLastLogicalIndex rf < aa_PrevLogIndex args →
       ar_ConflictIndex reply = getLastLogicalIndex rf ∧ ar_ConflictTerm reply = 0) ∧
    (aa_PrevLogIndex args ≤ getLastLogicalIndex rf →
       lastIncludedIndex rf < ar_ConflictIndex reply ≤ aa_PrevLogIndex args ∧
       (∃ e, entry_at rf (aa_PrevLogIndex args) = Ok e ∧
             ar_ConflictTerm reply = le_Term e ∧ le_Term e ≠ aa_PrevLogTerm args) ∧
       ∀ k e, ar_ConflictIndex reply ≤ k ≤ aa_PrevLogIndex args → entry_at rf k = Ok e →
         ar_ConflictTerm reply ≤ le_Term e).
Proof.
  intros Hok Hlo Hno. unfold append_log. case_decide as Hhi.
  { eexists. split; [done|]. cbn. split_and!; [done..|]. lia. }
  set (index := convertToStorageIndex rf (aa_PrevLogIndex args)).
  assert (0 ≤ index < go_len (logs rf)) as Hidx.
  { subst index. unfold convertToStorageIndex, getLastLogicalIndex in *. lia. }
  destruct (go_index_in_range _ _ Hidx) as [e He].
  assert (lastIncludedIndex rf < aa_PrevLogIndex args ∧ le_Term e ≠ aa_PrevLogTerm args) as [Hgt Hne].
  { destruct (decide (lastIncludedIndex rf < aa_PrevLogIndex args ∧ le_Term e ≠ aa_PrevLogTerm args))
      as [?|Hn]; [done|]. destruct Hno. split; [lia|]. intros Hlt. exists e. split; [done|].
    destruct (decide (le_Term e = aa_PrevLogTerm args)); [done|]. by destruct Hn. }
  rewrite decide_True by (subst index; unfold convertToStorageIndex; lia).
  rewrite He; cbn [mbind outcome_bind]. rewrite decide_False by done.
  destruct (back_ge_spec (logs rf) (le_Term e) (Z.to_nat index) index) as (j & -> & Hj & Hall & Hstop);
    [done|done|]. cbn [mbind outcome_bind].
  eexists. split; [done|]. cbn [ar_Success ar_Term ar_ConflictIndex ar_ConflictTerm append_reply].
  assert (j < index) as Hlt.
  { destruct (decide (j = index)) as [->|]; [|lia].
    destruct Hstop as (e' & He' & ?); [subst index; unfold convertToStorageIndex in *; lia|].
    rewrite He in He'. injection He' as <-. lia. }
  unfold convertToLogicalIndex, convertToStorageIndex in *. subst index.
  split_and!; [done..|lia|]. intros _. split_and!; [lia|lia| |].
  - exists e. by split_and!.
  - intros k e' Hk Hke. unfold entry_at, convertToStorageIndex in Hke.
    apply (Hall (k - lastIncludedIndex rf)); [lia|done].
Qed.

(** The state [append_log] runs in, once the term is accepted. *)
Lemma AppendEntries_accepted now args rf :
  peer_ok rf → currentTerm rf ≤ aa_Term args →
  ∃ rf1 sp, peer_ok rf1 ∧ role rf1 = Follower ∧ currentTerm rf1 = aa_Term args ∧
    logs rf1 = logs rf ∧ lastIncludedIndex rf1 = lastIncludedIndex rf ∧
    commitIndex rf1 = commitIndex rf ∧
    votedFor rf1 = (if decide (currentTerm rf < aa_Term args) then -1 else votedFor rf) ∧
    AppendEntries now args rf =
      ('(rf2, reply, sp') ← append_log args rf1; Ok (persist rf2, reply, sp ++ sp')).
Proof.
  intros Hok Ht. unfold AppendEntries. rewrite (decide_False (P := aa_Term args < currentTerm rf)) by lia.
  destruct (convertRole_Ok Follower rf Hok) as
    (rf0 & sp & -> & [? ? ? ?] & Hr & Ht0 & Hv0 & Hl0 & Hme0 & Hnp0 & Hi0 & ? & Hc0 & Ha0 & Hs0 & Hp0).
  cbn [mbind outcome_bind]. rewrite Ht0.
  case_decide as Hlt; do 2 eexists; (split; [|split; [|split; [|split; [|split; [|split; [|split; [|done]]]]]]]);
    cbn; try done; try lia; by split.
Qed.

Lemma prev_matches_frame rf rf' args :
  logs rf' = logs rf → lastIncludedIndex rf' = lastIncludedIndex rf →
  prev_matches rf' args ↔ prev_matches rf args.
Proof.
  intros Hl Hi. unfold prev_matches, entry_at, getLastLogicalIndex, convertToStorageIndex.
  by rewrite Hl, Hi.
Qed.

(** C30. [AppendEntries] that is accepted and matches: the peer becomes a
    follower of the request's term, keeps its log up to the previous entry,
    and replaces whatever followed by the entries sent, no more and no less;
    the commit index becomes the leader's, capped by the new last index. *)
Theorem AppendEntries_success now args rf :
  peer_ok rf → currentTerm rf ≤ aa_Term args →
  lastIncludedIndex rf ≤ aa_PrevLogIndex args → prev_matches rf args →
  ∃ rf' reply sp, AppendEntries now args rf = Ok (rf', reply, sp) ∧
    ar_Success reply = true ∧ currentTerm rf' = aa_Term args ∧ role rf' = Follower ∧ peer_ok rf' ∧
    getLastLogicalIndex rf' = aa_PrevLogIndex args + go_len (aa_Entries args) ∧
    (∀ i, lastIncludedIndex rf ≤ i ≤ aa_PrevLogIndex args → entry_at rf' i = entry_at rf i) ∧
    (∀ k, 0 ≤ k → entry_at rf' (aa_PrevLogIndex args + 1 + k) = go_index (aa_Entries args) k) ∧
    commitIndex rf' = next_commit rf rf' args.
Proof.
  intros Hok Ht Hlo Hm.
  destruct (AppendEntries_accepted now args rf Hok Ht) as
    (rf1 & sp & Hok1 & Hr1 & Ht1 & Hl1 & Hi1 & Hc1 & _ & ->).
  apply (prev_matches_frame rf rf1) in Hm; [|done..].
  destruct (append_log_success args rf1 Hok1) as (rf2 & sp2 & -> & Hlog & Hrf2); [by rewrite Hi1|done|].
  cbn [mbind outcome_bind]. do 3 eexists. split; [done|].
  destruct Hm as [Hhi _]. unfold getLastLogicalIndex in Hhi. rewrite Hl1, Hi1 in *.
  assert (lastIncludedIndex rf2 = lastIncludedIndex rf) as Hi2 by (rewrite Hrf2; cbn; done).
  set (p := Z.to_nat (aa_PrevLogIndex args - lastIncludedIndex rf + 1)) in *.
  assert (length (take p (logs rf)) = p) as Hp.
  { rewrite length_take. subst p. unfold go_len in *. lia. }
  split_and!.
  - done.
  - cbn. rewrite Hrf2; cbn. done.
  - cbn. rewrite Hrf2; cbn. done.
  - apply peer_ok_persist. rewrite Hrf2. destruct Hok1 as [Hne ? ? ?]. split; cbn; try done.
    rewrite Hlog. destruct (take p (logs rf)) eqn:Htk; [|done].
    cbn in Hp. subst p. lia.
  - unfold getLastLogicalIndex; cbn. rewrite Hi2, Hlog. unfold go_len. rewrite length_app, Hp.
    subst p. lia.
  - intros i Hi. unfold entry_at, convertToStorageIndex, go_index; cbn. rewrite Hi2, Hlog.
    case_decide; [|done]. rewrite lookup_app_l by (rewrite Hp; subst p; lia).
    rewrite lookup_take_lt by (subst p; lia). done.
  - intros k Hk. unfold entry_at, convertToStorageIndex, go_index; cbn. rewrite Hi2, Hlog.
    rewrite !decide_True by lia. rewrite lookup_app_r by (rewrite Hp; subst p; lia). rewrite Hp.
    subst p. replace (_ - _)%nat with (Z.to_nat k) by lia. done.
  - cbn. rewrite Hrf2 at 1. cbn. unfold next_commit, getLastLogicalIndex; cbn. by rewrite Hc1.
Qed.

(** [AppendEntries] that is accepted but does not match changes nothing in
    the log; its hints send the leader back: to the last index when the log
    is too short, otherwise to an index above the snapshot, not above the
    previous one, from which every term up to it is at least the conflicting
    one. *)
Theorem AppendEntries_refused now args rf :
  peer_ok rf → currentTerm rf ≤ aa_Term args →
  lastIncludedIndex rf ≤ aa_PrevLogIndex args → ¬ prev_matches rf args →
  ∃ rf' reply sp, AppendEntries now args rf = Ok (rf', reply, sp) ∧
    ar_Success reply = false ∧ ar_Term reply = aa_Term args ∧
    logs rf' = logs rf ∧ commitIndex rf' = commitIndex rf ∧
    (getLastLogicalIndex rf < aa_PrevLogIndex args →
       ar_ConflictIndex reply = getLastLogicalIndex rf ∧ ar_ConflictTerm reply = 0) ∧
    (aa_PrevLogIndex args ≤ getLastLogicalIndex rf →
       lastIncludedIndex rf < ar_ConflictIndex reply ≤ aa_PrevLogIndex args ∧
       ar_ConflictTerm reply ≠ aa_PrevLogTerm args ∧
       ∀ k e, ar_ConflictIndex reply ≤ k ≤ aa_PrevLogIndex args → entry_at rf k = Ok e →
         ar_ConflictTerm reply ≤ le_Term e).
Proof.
  intros Hok Ht Hlo Hno.
  destruct (AppendEntries_accepted now args rf Hok Ht) as
    (rf1 & sp & Hok1 & Hr1 & Ht1 & Hl1 & Hi1 & Hc1 & _ & ->).
  rewrite <-(prev_matches_frame rf rf1) in Hno by done.
  destruct (append_log_refused args rf1 Hok1) as (reply & -> & H1 & H2 & H3 & H4); [by rewrite Hi1|done|].
  cbn [mbind outcome_bind]. do 3 eexists. split; [done|].
  unfold getLastLogicalIndex, entry_at, convertToStorageIndex in *. rewrite Hl1, Hi1 in *.
  split_and!; [done|congruence|cbn; congruence..|done|].
  intros Hle. destruct (H4 Hle) as (? & (e & _ & Hct & Hne) & ?). split_and!; [tauto|tauto|congruence|done].
Qed.

(** A request whose previous entry precedes the snapshot breaks the peer: one
    before the snapshot's marker, it throws the whole log away, marker
    included; further back, the slice bound is negative and it panics. *)
Theorem AppendEntries_before_snapshot now args rf :
  peer_ok rf → currentTerm rf ≤ aa_Term args →
  aa_PrevLogIndex args < lastIncludedIndex rf →
  (aa_PrevLogIndex args = lastIncludedIndex rf - 1 →
     ∃ rf' reply sp, AppendEntries now args rf = Ok (rf', reply, sp) ∧
       ar_Success reply = true ∧ logs rf' = aa_Entries args) ∧
  (aa_PrevLogIndex args < lastIncludedIndex rf - 1 → AppendEntries now args rf = Panic).
Proof.
  intros Hok Ht Hlt.
  destruct (AppendEntries_accepted now args rf Hok Ht) as
    (rf1 & sp & Hok1 & Hr1 & Ht1 & Hl1 & Hi1 & Hc1 & _ & ->).
  assert (0 < go_len (logs rf1)) as Hlen.
  { pose proof (ok_logs _ Hok1). unfold go_len. destruct (logs rf1); cbn; [done|lia]. }
  assert (append_log args rf1 =
    (lg ← go_upto (logs rf1) (aa_PrevLogIndex args - lastIncludedIndex rf1 + 1);
     let rf := set_logs (lg ++ aa_Entries args) rf1 in
     let reply := {| ar_Term := aa_Term args; ar_Success := true;
                     ar_ConflictIndex := 0; ar_ConflictTerm := 0 |} in
     if decide (commitIndex rf < aa_LeaderCommit args) then
       let c := if decide (aa_LeaderCommit args < getLastLogicalIndex rf)
                then aa_LeaderCommit args else getLastLogicalIndex rf in
       Ok (set_commitIndex c rf, reply, [SpawnApply])
     else Ok (rf, reply, []))) as ->.
  { unfold append_log. rewrite decide_False by (unfold getLastLogicalIndex; lia).
    unfold convertToStorageIndex. by rewrite decide_False by lia. }
  rewrite Hi1. split; intros Hp.
  - rewrite Hp. replace (lastIncludedIndex rf - 1 - lastIncludedIndex rf + 1) with 0 by lia.
    unfold go_upto. rewrite decide_True by lia. cbn [mbind outcome_bind Z.to_nat take app].
    case_decide; cbn [mbind outcome_bind]; do 3 eexists; (split; [done|]); done.
  - unfold go_upto. by rewrite decide_False by lia.
Qed.

(** ** Conflicts on the leader's side *)
Lemma back_gt_spec (lg : list LogEntry) t : ∀ fuel index,
  (Z.to_nat (index + 1) ≤ fuel)%nat → -1 ≤ index < go_len lg →
  ∃ j, back_gt fuel lg t index = Ok j ∧ -1 ≤ j ≤ index ∧
    (∀ k e, j < k ≤ index → go_index lg k = Ok e → t < le_Term e) ∧
    (0 ≤ j → ∃ e, go_index lg j = Ok e ∧ le_Term e ≤ t).
Proof.
  induction fuel as [|fuel IH]; intros index Hf Hi; cbn [back_gt].
  { exists index. split_and!; [done|lia..]. }
  case_decide as Hpos; [|exists index; split_and!; [done|lia..]].
  destruct (go_index_in_range lg index) as [e He]; [lia|]. rewrite He; cbn.
  case_decide as Ht.
  - destruct (IH (index - 1)) as (j & Hj & Hr & Hall & Hstop); [lia..|].
    exists j. split_and!; [done|lia|lia| |done]. intros k e' Hk Hke.
    destruct (decide (k = index)) as [->|]; [congruence|]. apply (Hall k); [lia|done].
  - exists index. split_and!; [done|lia..|]. intros _. exists e. split; [done|lia].
Qed.

Lemma genAppendEntries_Ok server rf args :
  genAppendEntries server rf = Ok (args, false) →
  ∃ next, go_index (nextIndex rf) server = Ok next ∧ lastIncludedIndex rf ≤ next - 1 ∧
    aa_Term args = currentTerm rf ∧ aa_PrevLogIndex args = next - 1 ∧
    (∃ e, entry_at rf (next - 1) = Ok e ∧ aa_PrevLogTerm args = le_Term e) ∧
    logs rf = take (Z.to_nat (next - lastIncludedIndex rf)) (logs rf) ++ aa_Entries args.
Proof.
  unfold genAppendEntries. intros H. apply bind_Ok in H as (next & Hn & H).
  case_decide as Hlo; [done|]. rewrite decide_False in H by (unfold convertToStorageIndex; lia).
  apply bind_Ok in H as (t & Ht & H). apply bind_Ok in Ht as (e & He & [= <-]).
  apply bind_Ok in H as (entries & Hen & [= <-]).
  apply go_from_Ok in Hen as [_ ->]. exists next. cbn. split_and!; [done|lia|done..| |].
  - by exists e.
  - unfold convertToStorageIndex. by rewrite take_drop.
Qed.

Lemma go_set_at {A} (l : list A) i x l' j :
  go_set l i x = Ok l' → 0 ≤ j → go_index l' j = if decide (j = i) then Ok x else go_index l j.
Proof.
  intros [Hi ->]%go_set_Ok Hj. unfold go_index. rewrite decide_True by done.
  case_decide as He.
  - subst. rewrite list_lookup_insert_eq; [done|]. unfold go_len in Hi. lia.
  - rewrite list_lookup_insert_ne by lia. by rewrite decide_True.
Qed.

(** A refusal that points back moves the index of the server back: to the last
    entry of the conflicting term, which is not the one refused, or to the
    index the reply names. *)
Lemma append_failed_back server reply rf next e :
  0 ≤ lastIncludedIndex rf → 0 ≤ server → go_index (nextIndex rf) server = Ok next → entry_at rf (next - 1) = Ok e →
  ar_ConflictIndex reply < next → ar_ConflictTerm reply ≠ le_Term e →
  ∃ l next', append_failed server reply rf = Ok (set_nextIndex l rf) ∧
    go_set (nextIndex rf) server next' = Ok l ∧ next' < next.
Proof.
  intros Hlii Hs Hnext He Hci Hct. pose proof (go_index_bound _ _ _ Hnext) as Hsr.
  assert (∀ v, v < next → ∃ l next', (nx ← go_set (nextIndex rf) server v; Ok (set_nextIndex nx rf)) =
    Ok (set_nextIndex l rf) ∧ go_set (nextIndex rf) server next' = Ok l ∧ next' < next) as Hdone.
  { intros v Hv. assert (∃ l, go_set (nextIndex rf) server v = Ok l) as [l Hl].
    { unfold go_set. rewrite decide_True by done. eauto. }
    rewrite Hl. exists l, v. by split_and!. }
  unfold append_failed. case_decide; [|by apply Hdone]. rewrite Hnext; cbn [mbind outcome_bind].
  set (start := convertToStorageIndex rf (next - 1)) in *.
  unfold entry_at in He. fold start in He. pose proof (go_index_bound _ _ _ He) as Hst.
  destruct (back_gt_spec (logs rf) (ar_ConflictTerm reply) (Z.to_nat (start + 1)) start)
    as (j & -> & Hj & _ & Hstop); [done|lia|]. cbn [mbind outcome_bind].
  case_decide as Hj0; cbn [mbind outcome_bind]; [|by apply Hdone].
  destruct (Hstop Hj0) as (ej & Hej & _). rewrite Hej; cbn [mbind outcome_bind].
  case_bool_decide as Hfound; [|by apply Hdone]. apply Hdone.
  assert (j ≠ start) by (intros ->; congruence).
  subst start. unfold convertToStorageIndex in *. lia.
Qed.

(** C34. After a refusal that points back ([ConflictIndex] not above the previous
    index, [ConflictTerm] not its term), the leader that sent the request
    retries from a strictly smaller index: the search for the common prefix
    ends. *)
Theorem append_retry_progress now server args reply rf next :
  peer_ok rf → role rf = Leader → 0 ≤ lastIncludedIndex rf → 0 ≤ server →
  genAppendEntries server rf = Ok (args, false) →
  ar_Success reply = false → ar_Term reply ≤ currentTerm rf →
  ar_ConflictIndex reply ≤ aa_PrevLogIndex args →
  ar_ConflictTerm reply ≠ aa_PrevLogTerm args →
  go_index (nextIndex rf) server = Ok next →
  ∃ rf' sp next', handleAppendEntries now server args reply rf = Ok (rf', sp) ∧
    logs rf' = logs rf ∧ go_index (nextIndex rf') server = Ok next' ∧ next' < next.
Proof.
  intros Hok Hr Hlii Hs Hgen Hsucc Hterm Hci Hct Hnext.
  destruct (genAppendEntries_Ok _ _ _ Hgen) as (next0 & Hn0 & _ & _ & Hprev & (e & He & Hpt) & _).
  rewrite Hnext in Hn0. injection Hn0 as <-.
  destruct (append_failed_back server reply (set_lastUpdate now rf) next e) as (l & next' & Hf & Hl & Hlt);
    [done..|lia|congruence|].
  unfold handleAppendEntries. rewrite decide_False by (cbn; tauto).
  rewrite decide_False by (cbn; lia). rewrite Hsucc, Hf. cbn [mbind outcome_bind].
  do 2 eexists. exists next'. split_and!; [done|done| |done].
  cbn. rewrite (go_set_at _ _ _ _ server Hl Hs). by rewrite decide_True.
Qed.

(** ** Committing *)

(** The servers known to hold index [n], the leader included. *)
Definition acked rf (n : Z) : Z :=
  1 + Z.of_nat (length (filter (λ i, i ≠ me rf ∧ n ≤ default (-1) (matchIndex rf !! Z.to_nat i))
                               (seqZ 0 (npeers rf)))).

Lemma count_match_acked rf n : peer_ok rf → count_match rf n = Ok (acked rf n).
Proof.
  intros Hok. unfold count_match, acked.
  assert (∀ l acc, (∀ i, i ∈ l → 0 ≤ i < npeers rf) →
    foldl (λ acc i, count ← acc;
        if decide (i = me rf) then Ok count
        else m ← go_index (matchIndex rf) i; Ok (if decide (n <= m) then count + 1 else count))
      (Ok acc) l =
    Ok (acc + Z.of_nat (length (filter (λ i, i ≠ me rf ∧ n ≤ default (-1) (matchIndex rf !! Z.to_nat i)) l))))
    as Hgen; [|apply Hgen; intros i ?%elem_of_seqZ; lia].
  induction l as [|i l IH]; intros acc Hl; cbn [foldl]; [f_equal; cbn; lia|].
  rewrite filter_cons. cbn [mbind outcome_bind]. case_decide as Hi.
  - rewrite IH by (intros; apply Hl; by right). rewrite decide_False by tauto. done.
  - destruct (go_index_in_range (matchIndex rf) i) as [m Hm].
    { rewrite (ok_match _ Hok). apply Hl. left. }
    rewrite Hm; cbn [mbind outcome_bind]. rewrite IH by (intros; apply Hl; by right).
    apply go_index_Ok in Hm as [_ Hm]. rewrite Hm; cbn [default].
    unfold id. repeat case_decide; try tauto; cbn [length]; f_equal; lia.
Qed.

(** Index [n] may be committed: an entry of the current term on a majority. *)
Definition committable rf (n : Z) : Prop :=
  ∃ e, entry_at rf n = Ok e ∧ le_Term e = currentTerm rf ∧ npeers rf `quot` 2 < acked rf n.

Lemma commit_scan_spec rf : ∀ fuel n,
  peer_ok rf → 2 ≤ npeers rf → lastIncludedIndex rf ≤ commitIndex rf →
  n ≤ getLastLogicalIndex rf → (Z.to_nat (n - commitIndex rf) ≤ fuel)%nat →
  ∃ c sp, commit_scan fuel n rf = Ok (set_commitIndex c rf, sp) ∧
    (c = commitIndex rf ∨ commitIndex rf < c ≤ n ∧ committable rf c ∧ sp = [SpawnApply]) ∧
    (∀ k, c < k ≤ n → ¬ committable rf k).
Proof.
  induction fuel as [|fuel IH]; intros n Hok Hnp Hlo Hhi Hf; cbn [commit_scan].
  { exists (commitIndex rf), []. split_and!; [by destruct rf|by left|lia]. }
  case_decide as Hn; [|exists (commitIndex rf), []; split_and!; [by destruct rf|by left|lia]].
  destruct (go_index_in_range (logs rf) (convertToStorageIndex rf n)) as [e He].
  { unfold convertToStorageIndex, getLastLogicalIndex in *. lia. }
  rewrite He; cbn [mbind outcome_bind].
  destruct (IH (n - 1) Hok Hnp Hlo ltac:(lia) ltac:(lia)) as (c & sp & Hscan & Hc & Hmax).
  assert (2 ≤ npeers rf → 1 ≤ npeers rf `quot` 2) as Hq.
  { intros Hnp'. change 1 with (2 `quot` 2). apply Z.quot_le_mono; lia. }
  assert (committable rf n ∨ ¬ committable rf n) as Hdec.
  { unfold committable, entry_at. rewrite He.
    destruct (decide (le_Term e = currentTerm rf ∧ npeers rf `quot` 2 < acked rf n)) as [|Hd].
    - left. exists e. tauto.
    - right. intros (e' & [= <-] & ?). tauto. }
  case_decide as Ht; [rewrite (count_match_acked _ _ Hok)|]; cbn [mbind outcome_bind].
  - case_decide as Hmaj.
    + exists n, [SpawnApply]. split_and!; [done| |lia]. right. split; [lia|]. split; [by exists e|done].
    + exists c, sp. split_and!; [done|destruct Hc as [?|[? ?]]; [by left|right; split; [lia|done]]|].
      intros k Hk. destruct (decide (k = n)) as [->|]; [|apply Hmax; lia].
      intros (e' & He' & _ & ?). lia.
  - rewrite decide_False by (specialize (Hq Hnp); lia).
    exists c, sp. split_and!; [done|destruct Hc as [?|[? ?]]; [by left|right; split; [lia|done]]|].
    intros k Hk. destruct (decide (k = n)) as [->|]; [|apply Hmax; lia].
    intros (e' & He' & ? & _). unfold entry_at in He'. congruence.
Qed.

(** The reply's branch, with the state and the goroutine it leaves. *)
Lemma handleAppendEntries_counted now server args reply rf :
  peer_ok rf → 2 ≤ npeers rf → role rf = Leader → 0 ≤ server < npeers rf →
  lastIncludedIndex rf ≤ commitIndex rf →
  ar_Success reply = true → ar_Term reply ≤ currentTerm rf →
  ∃ l m c sp,
    let rf1 := set_matchIndex m (set_nextIndex l (set_lastUpdate now rf)) in
    handleAppendEntries now server args reply rf = Ok (persist (set_commitIndex c rf1), sp) ∧
    go_set (nextIndex rf) server (getLastLogicalIndex rf + 1) = Ok l ∧
    go_set (matchIndex rf) server (aa_PrevLogIndex args + go_len (aa_Entries args)) = Ok m ∧
    (c = commitIndex rf ∨
     commitIndex rf < c ≤ getLastLogicalIndex rf ∧ committable rf1 c ∧ sp = [SpawnApply]) ∧
    (∀ k, c < k ≤ getLastLogicalIndex rf → ¬ committable rf1 k).
Proof.
  intros [Hl Hn Hm Hc] Hnp Hr Hs Hlo Hsucc Hterm.
  assert (∀ (t : list Z) x, go_len t = npeers rf → ∃ l, go_set t server x = Ok l ∧ go_len l = npeers rf) as Hset.
  { intros t x Ht. unfold go_set. rewrite decide_True by lia. eexists. split; [done|].
    unfold go_len. by rewrite length_insert. }
  destruct (Hset (nextIndex rf) (getLastLogicalIndex rf + 1) Hn) as (l & Hnl & Hlen).
  destruct (Hset (matchIndex rf) (aa_PrevLogIndex args + go_len (aa_Entries args)) Hm) as (m & Hml & Hlenm).
  set (rf1 := set_matchIndex m (set_nextIndex l (set_lastUpdate now rf))).
  destruct (commit_scan_spec rf1 (Z.to_nat (getLastLogicalIndex rf1 - commitIndex rf1))
              (getLastLogicalIndex rf1)) as (c & sp & Hscan & Hcase & Hmax); [by split|done|done|done|done|].
  exists l, m, c, sp. split; [|by split_and!].
  unfold handleAppendEntries. rewrite decide_False by (cbn; tauto). rewrite decide_False by (cbn; lia).
  rewrite Hsucc. cbn [nextIndex set_lastUpdate matchIndex].
  change (getLastLogicalIndex (set_lastUpdate now rf)) with (getLastLogicalIndex rf).
  rewrite Hnl; cbn [mbind outcome_bind]. rewrite Hml; cbn [mbind outcome_bind].
  change (set_matchIndex m (set_nextIndex l _)) with rf1. rewrite Hscan. done.
Qed.

(** C31. A successful append reply: the leader records what the follower holds,
    and moves its commit index to the largest index beyond it whose entry is
    of the current term and is held by a majority, if there is one. *)
Theorem handleAppendEntries_commits now server args reply rf :
  peer_ok rf → 2 ≤ npeers rf → role rf = Leader → 0 ≤ server < npeers rf →
  lastIncludedIndex rf ≤ commitIndex rf →
  ar_Success reply = true → ar_Term reply ≤ currentTerm rf →
  ∃ rf' sp, handleAppendEntries now server args reply rf = Ok (rf', sp) ∧
    logs rf' = logs rf ∧ currentTerm rf' = currentTerm rf ∧ role rf' = Leader ∧
    go_index (matchIndex rf') server = Ok (aa_PrevLogIndex args + go_len (aa_Entries args)) ∧
    (∀ i, 0 ≤ i → i ≠ server → go_index (matchIndex rf') i = go_index (matchIndex rf) i) ∧
    (commitIndex rf' = commitIndex rf ∨
     commitIndex rf < commitIndex rf' ≤ getLastLogicalIndex rf ∧ committable rf' (commitIndex rf')) ∧
    (∀ k, commitIndex rf' < k ≤ getLastLogicalIndex rf → ¬ committable rf' k).
Proof.
  intros Hok Hnp Hr Hs Hlo Hsucc Hterm.
  destruct (handleAppendEntries_counted now server args reply rf) as (l & m & c & sp & Heq & _ & Hm & Hcase & Hmax);
    [done..|].
  do 2 eexists. split; [exact Heq|]. cbn. split_and!; try done.
  - rewrite (go_set_at _ _ _ _ server Hm) by lia. by rewrite decide_True.
  - intros i Hi Hne. rewrite (go_set_at _ _ _ _ i Hm Hi). by rewrite decide_False.
  - destruct Hcase as [?|(? & ? & _)]; [by left|by right].
Qed.

(** ** Snapshots *)

(** [Snapshot index] of a logged index beyond the last snapshot: every entry
    after it is kept at its index, the marker at it has its term and no
    command, and the new state is persisted together with the snapshot. *)
Theorem Snapshot_keeps_suffix index snap rf :
  peer_ok rf → lastIncludedIndex rf < index ≤ getLastLogicalIndex rf →
  ∃ rf' e, Snapshot index snap rf = Ok rf' ∧ peer_ok rf' ∧ entry_at rf index = Ok e ∧
    entry_at rf' index = Ok {| le_Term := le_Term e; le_Command := None |} ∧
    (∀ i, index < i → entry_at rf' i = entry_at rf i) ∧
    getLastLogicalIndex rf' = getLastLogicalIndex rf ∧
    lastIncludedIndex rf' = index ∧ lastIncludedTerm rf' = le_Term e ∧
    currentTerm rf' = currentTerm rf ∧ votedFor rf' = votedFor rf ∧
    persister rf' = persister (persist rf') ∧ ReadSnapshot (persister rf') = snap.
Proof.
  intros [Hl Hn Hm Hc] [Hlo Hhi]. unfold Snapshot. rewrite decide_False by lia.
  set (k := convertToStorageIndex rf index).
  assert (0 < k < go_len (logs rf)) as Hk.
  { subst k. unfold convertToStorageIndex, getLastLogicalIndex in *. lia. }
  destruct (go_index_in_range (logs rf) k) as [e He]; [lia|]. rewrite He; cbn [mbind outcome_bind].
  change (convertToStorageIndex (set_lastIncludedTerm (le_Term e) rf) index) with k.
  unfold go_from. rewrite decide_True by (cbn; lia). cbn [mbind outcome_bind].
  destruct (drop (Z.to_nat k) (logs rf)) as [|e0 tail] eqn:Hd.
  { apply (f_equal length) in Hd. rewrite length_drop in Hd; cbn in Hd. unfold go_len in Hk. lia. }
  unfold go_set. rewrite decide_True by (cbn; rewrite Hd; unfold go_len; cbn; lia).
  cbn [mbind outcome_bind]. do 2 eexists. split; [done|].
  assert (go_len (logs rf) = k + 1 + go_len tail) as Hlen.
  { apply (f_equal length) in Hd. rewrite length_drop in Hd; cbn in Hd. unfold go_len in *. lia. }
  cbn [logs set_logs set_lastIncludedIndex set_lastIncludedTerm lastIncludedTerm]. rewrite Hd.
  change (<[Z.to_nat 0:={| le_Term := le_Term e; le_Command := None |}]> (e0 :: tail))
    with ({| le_Term := le_Term e; le_Command := None |} :: tail).
  assert (∀ i, index < i →
    go_index ({| le_Term := le_Term e; le_Command := None |} :: tail) (i - index) =
    go_index (logs rf) (i - lastIncludedIndex rf)) as Htail.
  { intros i Hi. unfold go_index. rewrite !decide_True by lia.
    replace (Z.to_nat (i - index)) with (S (Z.to_nat (i - index - 1))) by lia.
    rewrite lookup_cons. replace (Z.to_nat (i - lastIncludedIndex rf))
      with (Z.to_nat k + S (Z.to_nat (i - index - 1)))%nat by (subst k; unfold convertToStorageIndex in *; lia).
    by rewrite <-lookup_drop, Hd. }
  split_and!; try done.
  - unfold entry_at, convertToStorageIndex; cbn. by rewrite Z.sub_diag.
  - unfold getLastLogicalIndex; cbn. rewrite Hlen. subst k. unfold convertToStorageIndex, go_len. cbn. lia.
Qed.

(** A restart from what [persist] saved: [Make] succeeds and restores the
    term, the vote, the log, the snapshot and its bounds; the commit index
    and the last applied index start at the snapshot. *)
Theorem Make_after_persist now rf :
  ∃ rf', Make (npeers rf) (me rf) (persister (persist rf)) now = Ok rf' ∧
    currentTerm rf' = currentTerm rf ∧ votedFor rf' = votedFor rf ∧ logs rf' = logs rf ∧
    lastIncludedIndex rf' = lastIncludedIndex rf ∧ lastIncludedTerm rf' = lastIncludedTerm rf ∧
    snapshot rf' = snapshot rf ∧
    commitIndex rf' = lastIncludedIndex rf ∧ lastApplied rf' = lastIncludedIndex rf ∧
    role rf' = Follower ∧ (logs rf ≠ [] → 0 ≤ npeers rf → peer_ok rf').
Proof.
  unfold Make, readPersist, ReadRaftState, ReadSnapshot; cbn [persist persister set_persister raftstate Save].
  rewrite decide_False by apply gob_nonempty. rewrite gob_roundtrip; cbn [mbind outcome_bind].
  eexists. split; [done|]. unfold readSnapshotPersist; cbn [ps_snapshot].
  case_decide as Hs; cbn in Hs |- *; split_and!; try congruence; intros Hl Hnp; split; cbn; try done;
    unfold go_len; rewrite length_replicate; lia.
Qed.

(** ** Applying *)

(** [applyLogs] sends exactly the committed entries that are not applied yet,
    in order, each with its index, when the log reaches the commit index;
    when it does not, the slice access panics. *)
Theorem applyLogs_spec rf :
  peer_ok rf → lastIncludedIndex rf ≤ lastApplied rf < commitIndex rf →
  (commitIndex rf ≤ getLastLogicalIndex rf →
     ∃ msgs, applyLogs rf = Ok (Some msgs) ∧
       go_len msgs = commitIndex rf - lastApplied rf ∧
       ∀ k e, 0 ≤ k → entry_at rf (lastApplied rf + 1 + k) = Ok e →
         k < commitIndex rf - lastApplied rf →
         go_index msgs k = Ok (command_msg (lastApplied rf + 1 + k) e)) ∧
  (getLastLogicalIndex rf < commitIndex rf → applyLogs rf = Panic).
Proof.
  intros Hok [Hlo Hlt]. unfold applyLogs. rewrite decide_False, decide_False by lia.
  set (f := λ i, command_msg i <$> go_index (logs rf) (convertToStorageIndex rf i)).
  set (n := commitIndex rf - lastApplied rf).
  split.
  - intros Hhi.
    assert (∀ i, i ∈ seqZ (lastApplied rf + 1) n → ∃ e, go_index (logs rf) (convertToStorageIndex rf i) = Ok e)
      as Hall.
    { intros i Hi%elem_of_seqZ. apply go_index_in_range.
      unfold convertToStorageIndex, getLastLogicalIndex in *. lia. }
    assert (∃ msgs, Forall2 (λ i m, f i = Ok m) (seqZ (lastApplied rf + 1) n) msgs) as [msgs Hm].
    { induction (seqZ (lastApplied rf + 1) n) as [|i l IH]; [by exists []|].
      destruct (Hall i) as [e He]; [left|]. destruct IH as [msgs Hm]; [intros; apply Hall; by right|].
      exists (command_msg i e :: msgs). constructor; [|done]. subst f; cbn. by rewrite He. }
    exists msgs. rewrite (mapM_Ok _ _ _ Hm); cbn [mbind outcome_bind].
    pose proof (Forall2_length _ _ _ Hm) as Hlen. rewrite length_seqZ in Hlen.
    split_and!; [done|unfold go_len; lia|]. intros k e Hk He Hkn.
    destruct (lookup_lt_is_Some_2 msgs (Z.to_nat k)) as [m Hmk]; [lia|].
    assert (seqZ (lastApplied rf + 1) n !! Z.to_nat k = Some (lastApplied rf + 1 + k)) as Hs.
    { apply lookup_seqZ. lia. }
    pose proof (Forall2_lookup_lr _ _ _ _ _ _ Hm Hs Hmk) as Hf. subst f; cbn in Hf.
    unfold entry_at in He. rewrite He in Hf. cbn in Hf. injection Hf as <-.
    unfold go_index. rewrite decide_True by done. by rewrite Hmk.
  - intros Hhi. assert (mapM f (seqZ (lastApplied rf + 1) n) = Panic) as ->; [|done].
    assert (commitIndex rf ∈ seqZ (lastApplied rf + 1) n) as Hin by (apply elem_of_seqZ; lia).
    assert (f (commitIndex rf) = Panic) as Hp.
    { subst f; cbn. assert (go_index (logs rf) (convertToStorageIndex rf (commitIndex rf)) = Panic) as ->; [|done].
      apply go_index_Panic. right. unfold convertToStorageIndex, getLastLogicalIndex in *. lia. }
    clear - Hin Hp. induction (seqZ (lastApplied rf + 1) n) as [|i l IH]; [by apply not_elem_of_nil in Hin|].
    cbn [mapM]. apply elem_of_cons in Hin as [<-|Hin]; [by rewrite Hp|].
    destruct (f i); cbn; [|done]. by rewrite IH.
Qed.

(** When a snapshot is ahead of what has been applied, [applyLogs] calls
    [condInstallSnapshot] with its two arguments swapped: if that does not
    panic, the snapshot's index and term come out exchanged, and the commit
    index is the old term. *)
Theorem applyLogs_swaps_snapshot rf rf' :
  lastApplied rf < lastIncludedIndex rf → applyLogs_snapshot rf = Ok rf' →
  applyLogs rf = Ok None ∧
  lastIncludedIndex rf' = lastIncludedTerm rf ∧ lastIncludedTerm rf' = lastIncludedIndex rf ∧
  commitIndex rf' = lastIncludedTerm rf ∧ lastApplied rf' = lastIncludedTerm rf.
Proof.
  intros Hlt Hs. split; [unfold applyLogs; by rewrite decide_True|].
  unfold applyLogs_snapshot, condInstallSnapshot in Hs. inv_ok. by subst rf'.
Qed.

(** [InstallSnapshot] first takes the term over, if it is new. *)
Lemma install_term now args rf :
  peer_ok rf → currentTerm rf ≤ ia_Term args →
  ∃ rf1 t, (if decide (currentTerm rf < ia_Term args) then
      '(rf, sp) ← convertRole Follower rf;
      Ok (set_lastUpdate now (set_currentTerm (ia_Term args) (set_votedFor (-1) rf)), ia_Term args, sp)
    else Ok (rf, 0, [])) = Ok (rf1, t, []) ∧ peer_ok rf1 ∧ currentTerm rf1 = ia_Term args ∧
    logs rf1 = logs rf ∧ lastIncludedIndex rf1 = lastIncludedIndex rf ∧
    lastApplied rf1 = lastApplied rf ∧ commitIndex rf1 = commitIndex rf.
Proof.
  intros Hok Ht. case_decide as Hlt; [|exists rf, 0; split_and!; try done; lia].
  destruct Hok as [? ? ? Hch]. cbn. case_decide as Hr; [rewrite (Hch Hr)|]; cbn;
    (do 2 eexists; split; [done|]; split_and!; try done; by split).
Qed.

(** What it keeps of the log: a marker at the snapshot's index, and the entries
    behind it. *)
Lemma install_logs rf idx tm :
  lastIncludedIndex rf < idx →
  ∃ tail, (if decide (getLastLogicalIndex rf ≤ idx)
      then Ok [{| le_Term := tm; le_Command := None |}]
      else tmpLogs ← go_from (logs rf) (convertToStorageIndex rf idx);
           go_set tmpLogs 0 {| le_Term := 0; le_Command := None |}) =
    Ok ({| le_Term := if decide (getLastLogicalIndex rf ≤ idx) then tm else 0; le_Command := None |} :: tail) ∧
    go_len tail = (getLastLogicalIndex rf - idx) `max` 0 ∧
    ∀ i e, idx < i → go_index (e :: tail) (i - idx) = go_index (logs rf) (i - lastIncludedIndex rf).
Proof.
  intros Hi. case_decide as Hshort.
  { exists []. split_and!; [done|unfold go_len; cbn [length]; lia|]. intros i e Hii.
    etrans; [|symmetry]; apply go_index_Panic; right;
      [unfold go_len; cbn|unfold getLastLogicalIndex in Hshort]; lia. }
  set (k := convertToStorageIndex rf idx).
  assert (0 < k < go_len (logs rf)) as Hk.
  { subst k. unfold convertToStorageIndex, getLastLogicalIndex in *. lia. }
  unfold go_from. rewrite decide_True by lia. cbn [mbind outcome_bind].
  destruct (drop (Z.to_nat k) (logs rf)) as [|e0 tail] eqn:Hd;
    pose proof (f_equal length Hd) as Hdl; rewrite length_drop in Hdl; cbn in Hdl;
    [unfold go_len in Hk; lia|].
  exists tail. unfold go_set. rewrite decide_True by (unfold go_len; cbn; lia).
  split_and!; [done|unfold getLastLogicalIndex, go_len in *; subst k;
    unfold convertToStorageIndex in *; lia|].
  intros i e Hii. unfold go_index. rewrite !decide_True by lia.
  replace (Z.to_nat (i - idx)) with (S (Z.to_nat (i - idx - 1))) by lia.
  rewrite lookup_cons. replace (Z.to_nat (i - lastIncludedIndex rf))
    with (Z.to_nat k + S (Z.to_nat (i - idx - 1)))%nat
    by (subst k; unfold convertToStorageIndex in *; lia).
  by rewrite <-lookup_drop, Hd.
Qed.

(** C33. [InstallSnapshot] of a snapshot that is news to the peer: the entries
    after it are kept at their indices, the snapshot is persisted and handed
    to the service once, and the commit index does not go back.  The marker
    has the snapshot's term when the log was shorter, and the term 0, not
    the snapshot's, when a suffix is kept. *)
Theorem InstallSnapshot_spec now args rf :
  peer_ok rf → currentTerm rf ≤ ia_Term args →
  lastIncludedIndex rf < ia_LastIncludedIndex args → lastApplied rf < ia_LastIncludedIndex args →
  ∃ rf' reply sp, InstallSnapshot now args rf = Ok (rf', reply, sp) ∧ peer_ok rf' ∧
    currentTerm rf' = ia_Term args ∧
    lastIncludedIndex rf' = ia_LastIncludedIndex args ∧
    lastIncludedTerm rf' = ia_LastIncludedTerm args ∧
    (∀ i, ia_LastIncludedIndex args < i → entry_at rf' i = entry_at rf i) ∧
    getLastLogicalIndex rf' = getLastLogicalIndex rf `max` ia_LastIncludedIndex args ∧
    entry_at rf' (ia_LastIncludedIndex args) =
      Ok {| le_Term := if decide (getLastLogicalIndex rf ≤ ia_LastIncludedIndex args)
                       then ia_LastIncludedTerm args else 0; le_Command := None |} ∧
    lastApplied rf' = ia_LastIncludedIndex args ∧
    commitIndex rf' = commitIndex rf `max` ia_LastIncludedIndex args ∧
    persister rf' = persister (persist rf') ∧ ReadSnapshot (persister rf') = ia_Data args ∧
    sp = [SpawnMsg (snapshot_msg args)].
Proof.
  intros Hok Ht Hi Ha. unfold InstallSnapshot.
  rewrite (decide_False (P := ia_Term args < currentTerm rf)) by lia.
  destruct (install_term now args rf Hok Ht) as (rf1 & t & -> & Hok1 & Ht1 & Hl1 & Hi1 & Ha1 & Hc1).
  cbn [mbind outcome_bind]. rewrite Ha1.
  rewrite (decide_False (P := ia_LastIncludedIndex args ≤ lastIncludedIndex rf1 ∨ _)) by (rewrite Hi1; lia).
  set (idx := ia_LastIncludedIndex args) in *.
  assert (getLastLogicalIndex rf1 = getLastLogicalIndex rf) as Hlast
    by (unfold getLastLogicalIndex; by rewrite Hl1, Hi1).
  destruct (install_logs rf1 idx (ia_LastIncludedTerm args)) as (tail & -> & Hlen & Htail); [by rewrite Hi1|].
  rewrite Hlast, ?Hl1, ?Hi1 in *.
  set (marker := {| le_Term := if decide (getLastLogicalIndex rf ≤ idx)
                               then ia_LastIncludedTerm args else 0; le_Command := None |} : LogEntry).
  cbn [mbind outcome_bind]. do 3 eexists. split; [done|].
  assert (∀ rf2 : Raft, logs rf2 = marker :: tail → lastIncludedIndex rf2 = idx →
    (∀ i, idx < i → entry_at rf2 i = entry_at rf i) ∧
    getLastLogicalIndex rf2 = getLastLogicalIndex rf `max` idx ∧ entry_at rf2 idx = Ok marker) as Hlog.
  { intros rf2 Hl2 Hi2. unfold entry_at, convertToStorageIndex, getLastLogicalIndex at 1.
    rewrite Hl2, Hi2. split_and!; [intros i; apply Htail| |by rewrite Z.sub_diag].
    unfold go_len in *. cbn [length]. lia. }
  destruct Hok1 as [? ? ? ?]. case_decide as Hc; cbn in Hc.
  - split_and!; try done; try apply Hlog; try done. cbn; lia.
  - split_and!; try done; try apply Hlog; try done. cbn; lia.
Qed.
End Peer.

(** ** Peers to apply the theorems to *)
Section Scenario.
Local Instance z_gob : Gob Z := countable_Gob Z.

Definition cmd (t c : Z) : LogEntry_ Z := {| le_Term := t; le_Command := Some c |}.
Definition marker (t : Z) : LogEntry_ Z := {| le_Term := t; le_Command := None |}.

(** Server [i] of three, in term 3, its log starting after index 4. *)
Definition peer (i : Z) (r : Role) (lg : list (LogEntry_ Z)) : Raft Z := {|
  me := i; npeers := 3; dead := false; persister := MakePersister;
  currentTerm := 3; votedFor := -1; logs := marker 1 :: lg;
  commitIndex := 4; lastApplied := 4;
  nextIndex := [7; 7; 7]; matchIndex := [-1; 4; 4];
  role := r; heartChan := ChanOpen; lastUpdate := 0;
  snapshot := [9]; lastIncludedIndex := 4; lastIncludedTerm := 1 |}.

Definition leader : Raft Z := peer 0 Leader [cmd 2 20; cmd 3 30].
Definition follower : Raft Z := peer 1 Follower [cmd 2 20; cmd 2 21].

Lemma peer_ok_peer i r lg : peer_ok (peer i r lg).
Proof. by split. Qed.

Definition vote_request : RequestVoteArgs :=
  {| va_Term := 4; va_CandidateId := 2; va_LastLogIndex := 6; va_LastLogTerm := 3 |}.

Lemma RequestVote_spec_witness :
  may_grant follower vote_request ∧
  ∃ rf' reply sp, RequestVote 9 vote_request follower = Ok (rf', reply, sp) ∧
    vr_VoteGranted reply = true ∧ votedFor rf' = 2.
Proof.
  assert (may_grant follower vote_request) as Hmay.
  { split; [left; vm_compute; reflexivity|]. exists (cmd 2 21). split; [reflexivity|]. left. vm_compute. reflexivity. }
  split; [exact Hmay|].
  destruct (RequestVote_spec 9 vote_request follower (peer_ok_peer _ _ _))
    as (rf' & reply & sp & Heq & _ & _ & _ & _ & _ & Hg & Hv).
  exists rf', reply, sp. split; [exact Heq|]. split; [by apply Hg|]. by apply Hv, Hg.
Defined.

Definition append_request (prev pt : Z) (es : list (LogEntry_ Z)) : AppendEntriesArgs Z :=
  {| aa_Term := 3; aa_LeaderId := 0; aa_PrevLogIndex := prev; aa_PrevLogTerm := pt;
     aa_Entries := es; aa_LeaderCommit := 6 |}.

Lemma AppendEntries_success_witness :
  ∃ rf' reply sp, AppendEntries 9 (append_request 5 2 [cmd 3 30]) follower = Ok (rf', reply, sp) ∧
    ar_Success reply = true ∧ getLastLogicalIndex rf' = 6.
Proof.
  destruct (AppendEntries_success 9 (append_request 5 2 [cmd 3 30]) follower)
    as (rf' & reply & sp & Heq & Hs & _ & _ & _ & Hl & _).
  - apply peer_ok_peer.
  - by vm_compute.
  - by vm_compute.
  - split; [by vm_compute|]. intros _. exists (cmd 2 20). by vm_compute.
  - exists rf', reply, sp. split; [exact Heq|]. split; [exact Hs|exact Hl].
Defined.

Lemma AppendEntries_refused_witness :
  ∃ rf' reply sp, AppendEntries 9 (append_request 6 3 []) follower = Ok (rf', reply, sp) ∧
    ar_Success reply = false ∧ logs rf' = logs follower.
Proof.
  destruct (AppendEntries_refused 9 (append_request 6 3 []) follower)
    as (rf' & reply & sp & Heq & Hs & _ & Hl & _).
  - apply peer_ok_peer.
  - by vm_compute.
  - by vm_compute.
  - intros [_ Hm]. destruct Hm as (e & He & Ht); [by vm_compute|]. vm_compute in He, Ht.
    injection He as <-. discriminate Ht.
  - exists rf', reply, sp. split; [exact Heq|]. split; [exact Hs|exact Hl].
Defined.

Lemma AppendEntries_before_snapshot_witness :
  (∃ rf' reply sp, AppendEntries 9 (append_request 3 1 []) follower = Ok (rf', reply, sp) ∧
     ar_Success reply = true ∧ logs rf' = []) ∧
  AppendEntries 9 (append_request 2 1 []) follower = Panic.
Proof.
  split.
  - refine (proj1 (AppendEntries_before_snapshot 9 (append_request 3 1 []) follower _ _ _) _);
      [apply peer_ok_peer|by vm_compute..].
  - refine (proj2 (AppendEntries_before_snapshot 9 (append_request 2 1 []) follower _ _ _) _);
      [apply peer_ok_peer|by vm_compute..].
Defined.

Definition refusal : AppendEntriesReply :=
  {| ar_Term := 3; ar_Success := false; ar_ConflictIndex := 5; ar_ConflictTerm := 2 |}.

Lemma append_retry_progress_witness :
  ∃ rf' sp next', handleAppendEntries 9 1 (append_request 6 3 []) refusal leader = Ok (rf', sp) ∧
    go_index (nextIndex rf') 1 = Ok next' ∧ next' < 7.
Proof.
  destruct (append_retry_progress 9 1
    {| aa_Term := 3; aa_LeaderId := 0; aa_PrevLogIndex := 6; aa_PrevLogTerm := 3;
       aa_Entries := []; aa_LeaderCommit := 4 |} refusal leader 7)
    as (rf' & sp & next' & Heq & _ & Hn & Hlt); try apply peer_ok_peer; try (by vm_compute).
  exists rf', sp, next'. split; [exact Heq|]. split; [exact Hn|exact Hlt].
Defined.

Definition accepted : AppendEntriesReply :=
  {| ar_Term := 0; ar_Success := true; ar_ConflictIndex := 0; ar_ConflictTerm := 0 |}.

Lemma handleAppendEntries_commits_witness :
  ∃ rf' sp, handleAppendEntries 9 1 (append_request 5 2 [cmd 3 30]) accepted leader = Ok (rf', sp) ∧
    go_index (matchIndex rf') 1 = Ok 6 ∧ commitIndex rf' = 6.
Proof.
  destruct (handleAppendEntries_commits 9 1 (append_request 5 2 [cmd 3 30]) accepted leader)
    as (rf' & sp & Heq & _ & _ & _ & Hm & _ & _ & _); try apply peer_ok_peer; try (by vm_compute).
  exists rf', sp. split; [exact Heq|]. split; [exact Hm|].
  vm_compute in Heq. injection Heq as <- <-. reflexivity.
Defined.

Lemma Snapshot_keeps_suffix_witness :
  ∃ rf', Snapshot 5 [7] leader = Ok rf' ∧ lastIncludedIndex rf' = 5 ∧ getLastLogicalIndex rf' = 6.
Proof.
  destruct (Snapshot_keeps_suffix 5 [7] leader) as (rf' & e & Heq & _ & _ & _ & _ & Hl & Hi & _);
    [apply peer_ok_peer|by vm_compute|].
  exists rf'. split; [exact Heq|]. split; [exact Hi|exact Hl].
Defined.

Lemma Make_after_persist_witness :
  ∃ rf', Make 3 0 (persister (persist leader)) 9 = Ok rf' ∧ currentTerm rf' = 3 ∧
    logs rf' = logs leader ∧ peer_ok rf'.
Proof.
  destruct (Make_after_persist 9 leader) as (rf' & Heq & Ht & _ & Hl & _ & _ & _ & _ & _ & _ & Hok).
  exists rf'. split; [exact Heq|]. split; [exact Ht|]. split; [exact Hl|]. by apply Hok.
Defined.

Definition behind : Raft Z := set_commitIndex 6 leader.

Lemma applyLogs_spec_witness :
  (∃ msgs, applyLogs behind = Ok (Some msgs) ∧ go_len msgs = 2) ∧
  applyLogs (set_commitIndex 9 leader) = Panic.
Proof.
  split.
  - destruct (applyLogs_spec behind) as [Hok _]; [by split|by vm_compute|].
    destruct Hok as (msgs & Heq & Hlen & _); [by vm_compute|].
    exists msgs. split; [exact Heq|exact Hlen].
  - refine (proj2 (applyLogs_spec (set_commitIndex 9 leader) _ _) _);
      [by split|by vm_compute..].
Defined.

Lemma applyLogs_swaps_snapshot_witness :
  ∃ rf', applyLogs_snapshot (set_lastIncludedTerm 4 (set_lastApplied 2 leader)) = Ok rf' ∧
    lastIncludedTerm rf' = 4 ∧ commitIndex rf' = 4.
Proof.
  destruct (applyLogs_snapshot (set_lastIncludedTerm 4 (set_lastApplied 2 leader))) as [rf'|] eqn:Heq;
    [|by vm_compute in Heq].
  destruct (applyLogs_swaps_snapshot (set_lastIncludedTerm 4 (set_lastApplied 2 leader)) rf' eq_refl Heq)
    as (_ & _ & Ht & Hc & _).
  exists rf'. split; [reflexivity|]. split; [exact Ht|exact Hc].
Defined.

Definition snapshot_request : InstallSnapshotArgs :=
  {| ia_Term := 4; ia_LeaderId := 2; ia_LastIncludedIndex := 5; ia_LastIncludedTerm := 2;
     ia_Data := [8] |}.

Lemma InstallSnapshot_spec_witness :
  ∃ rf' reply sp, InstallSnapshot 9 snapshot_request follower = Ok (rf', reply, sp) ∧
    lastIncludedIndex rf' = 5 ∧ entry_at rf' 5 = Ok (marker 0).
Proof.
  destruct (InstallSnapshot_spec 9 snapshot_request follower)
    as (rf' & reply & sp & Heq & _ & _ & Hi & _ & _ & _ & He & _); [apply peer_ok_peer|by vm_compute..|].
  exists rf', reply, sp. split; [exact Heq|]. split; [exact Hi|exact He].
Defined.
End Scenario.
