(* ===== verification/RaftElection.v ===== *)
(** * Raft: elections of a cluster

    The peers, the elections they have started (each with the arguments and
    the vote counter that its closures share), and the vote requests and
    replies in flight, which the network delivers in any order, loses, but
    never duplicates.  Everything else a peer does, [AppendEntries] and
    [InstallSnapshot] on any arguments included, is a [local_step].

    The source counts a granted vote whenever the peer is a candidate.  The
    step relation has a parameter, [counts], for when a vote may be counted:
    with [any_vote] it is the source, with [same_term] it is Raft's rule.  A
    second parameter, [crashes], says when a peer may crash: at any moment,
    [any_crash], or at any moment but from the requests of an election on until
    its term and vote are on disk, [saved_crash]; the source saves them in a
    deferred call.  [election_safety]: under [same_term] and [saved_crash] a
    term has at most one leader.  Each rule is needed: the source has a run in
    which one term has two leaders without crashes ([stale_votes_two_leaders])
    and, with votes counted in their term, one with a crash in that gap
    ([unsaved_vote_two_leaders] in [RaftCrash]). *)
From S2P Require Import Prelude GoLib Raft RaftPeer.
Local Open Scope Z_scope.

(** Where [startElection] is, when it has released the lock. *)
Inductive phase := InGen | InPersist.
#[export] Instance phase_eq_dec : EqDecision phase.
Proof. solve_decision. Defined.

Section Election.
Context {Cmd : Type} `{!Gob Cmd}.
Local Abbreviation Raft := (Raft Cmd).
Implicit Types (rf : Raft).

(** ** The cluster *)
Record election := {
  el_owner : Z;
  el_args : RequestVoteArgs;
  el_count : Z;          (* voteCount *)
  el_voters : list Z;    (* whose votes were counted, for the proofs *)
  el_live : bool;        (* the process that started it still runs *)
}.


Record cluster := {
  size : Z;
  nodes : gmap Z Raft;
  phases : gmap Z phase;
  elections : list election;
  requests : list (nat * Z);
  replies : list (nat * Z * RequestVoteReply);
}.

Definition set_node (i : Z) rf (s : cluster) : cluster :=
  {| size := size s; nodes := <[i := rf]> (nodes s); phases := phases s;
     elections := elections s; requests := requests s; replies := replies s |}.

(** What a peer does outside of elections. *)
Inductive local_step rf : Raft → Prop :=
  | ls_append now args rf' reply sp :
      AppendEntries now args rf = Ok (rf', reply, sp) → local_step rf rf'
  | ls_install now args rf' reply sp :
      InstallSnapshot now args rf = Ok (rf', reply, sp) → local_step rf rf'
  | ls_appended now server args reply rf' sp :
      handleAppendEntries now server args reply rf = Ok (rf', sp) → local_step rf rf'
  | ls_installed now server args reply rf' sp :
      handleInstallSnapshot now server args reply rf = Ok (rf', sp) → local_step rf rf'
  | ls_snapshot index snap rf' : Snapshot index snap rf = Ok rf' → local_step rf rf'
  | ls_start term command : local_step rf (Start_append term command rf).1
  | ls_persist : local_step rf (persist rf)
  | ls_applied msg : local_step rf (applied msg rf)
  | ls_cond rf' : applyLogs_snapshot rf = Ok rf' → local_step rf rf'
  | ls_kill : local_step rf (Kill rf).

Definition count_vote (j : Z) (count : Z) (el : election) : election :=
  {| el_owner := el_owner el; el_args := el_args el; el_count := count;
     el_voters := if decide (count = el_count el) then el_voters el else j :: el_voters el;
     el_live := el_live el |}.

Definition kill_elections (i : Z) (els : list election) : list election :=
  (λ el, {| el_owner := el_owner el; el_args := el_args el; el_count := el_count el;
            el_voters := el_voters el;
            el_live := el_live el && negb (bool_decide (el_owner el = i)) |}) <$> els.

Definition others (n i : Z) : list Z := filter (λ j, j ≠ i) (seqZ 0 n).

(** [counts]: may the candidate count a vote of the election; [crashes]: may the
    peer crash, given where its [startElection] is; [local]: what a peer may do
    outside of elections.  The label of a restart is the peer that restarts. *)
Inductive cluster_step (counts : Raft → election → Prop) (crashes : Raft → option phase → Prop)
    (local : Raft → Raft → Prop) :
    cluster → option Z → cluster → Prop :=
  (* startElection *)
  | cs_start s i rf rf' sp :
      nodes s !! i = Some rf → phases s !! i = None → startElection rf = Ok (rf', sp) →
      cluster_step counts crashes local s None
        {| size := size s; nodes := <[i := rf']> (nodes s); phases := <[i := InGen]> (phases s);
           elections := elections s; requests := requests s; replies := replies s |}
  | cs_gen s i rf args :
      nodes s !! i = Some rf → phases s !! i = Some InGen → genRequestVoteArgs rf = Ok args →
      cluster_step counts crashes local s None
        {| size := size s; nodes := nodes s; phases := <[i := InPersist]> (phases s);
           elections := elections s ++ [{| el_owner := i; el_args := args; el_count := 1;
                                           el_voters := []; el_live := true |}];
           requests := requests s ++ (pair (length (elections s)) <$> others (size s) i);
           replies := replies s |}
  | cs_persist s i rf :
      nodes s !! i = Some rf → phases s !! i = Some InPersist →
      cluster_step counts crashes local s None
        {| size := size s; nodes := <[i := persist rf]> (nodes s); phases := delete i (phases s);
           elections := elections s; requests := requests s; replies := replies s |}
  (* the network *)
  | cs_request s l1 e j l2 el rf now rf' reply sp :
      requests s = l1 ++ (e, j) :: l2 → elections s !! e = Some el → nodes s !! j = Some rf →
      RequestVote now (el_args el) rf = Ok (rf', reply, sp) →
      cluster_step counts crashes local s None
        {| size := size s; nodes := <[j := rf']> (nodes s); phases := phases s;
           elections := elections s; requests := l1 ++ l2; replies := (e, j, reply) :: replies s |}
  | cs_lose_request s l1 m l2 :
      requests s = l1 ++ m :: l2 →
      cluster_step counts crashes local s None
        {| size := size s; nodes := nodes s; phases := phases s; elections := elections s;
           requests := l1 ++ l2; replies := replies s |}
  | cs_reply s l1 e j reply l2 el rf rf' count sp :
      replies s = l1 ++ (e, j, reply) :: l2 → elections s !! e = Some el → el_live el = true →
      nodes s !! el_owner el = Some rf →
      (role rf = Candidate → vr_VoteGranted reply = true → counts rf el) →
      handleVote reply (el_count el) rf = Ok (rf', count, sp) →
      cluster_step counts crashes local s None
        {| size := size s; nodes := <[el_owner el := rf']> (nodes s); phases := phases s;
           elections := <[e := count_vote j count el]> (elections s);
           requests := requests s; replies := l1 ++ l2 |}
  | cs_lose_reply s l1 m l2 :
      replies s = l1 ++ m :: l2 →
      cluster_step counts crashes local s None
        {| size := size s; nodes := nodes s; phases := phases s; elections := elections s;
           requests := requests s; replies := l1 ++ l2 |}
  (* everything else *)
  | cs_local s i rf rf' :
      nodes s !! i = Some rf → local rf rf' → cluster_step counts crashes local s None (set_node i rf' s)
  | cs_restart s i rf now rf' :
      nodes s !! i = Some rf → crashes rf (phases s !! i) →
      Make (size s) i (persister rf) now = Ok rf' →
      cluster_step counts crashes local s (Some i)
        {| size := size s; nodes := <[i := rf']> (nodes s); phases := delete i (phases s);
           elections := kill_elections i (elections s); requests := requests s;
           replies := replies s |}.

(** Fewer rules, more steps. *)
Lemma cluster_step_mono counts (C D : Raft → option phase → Prop) (P Q : Raft → Raft → Prop) b l b' :
  (∀ rf ph, C rf ph → D rf ph) → (∀ rf rf', P rf rf' → Q rf rf') →
  cluster_step counts C P b l b' → cluster_step counts D Q b l b'.
Proof. intros HCD HPQ. destruct 1; econstructor; eauto. Qed.

(** The source: a granted vote counts for any candidate. *)
Definition any_vote rf (el : election) : Prop := True.

(** Raft's rule: only for a candidate of the term that was asked for. *)
Definition same_term rf (el : election) : Prop := currentTerm rf = va_Term (el_args el).

Definition first_boot (n : Z) (i : Z) : Raft :=
  {| me := i; npeers := n; dead := false; persister := MakePersister;
     currentTerm := 0; votedFor := -1; logs := [{| le_Term := 0; le_Command := None |}];
     commitIndex := 0; lastApplied := 0;
     nextIndex := replicate (Z.to_nat n) 0; matchIndex := replicate (Z.to_nat n) 0;
     role := Follower; heartChan := ChanNil; lastUpdate := 0;
     snapshot := []; lastIncludedIndex := 0; lastIncludedTerm := 0 |}.

Lemma first_boot_Make n i : Make n i MakePersister 0 = Ok (first_boot n i).
Proof. done. Qed.

Definition cluster_init (n : Z) : cluster :=
  {| size := n; nodes := map_on (first_boot n) (list_to_set (seqZ 0 n)); phases := ∅;
     elections := []; requests := []; replies := [] |}.

(** ** What the steps of a peer do to its vote *)

(** The term and the vote on disk. *)
Definition saved rf : Z * Z :=
  match gob_decode (raftstate (persister rf)) with
  | Some (t, v, _, _, _) => if decide (raftstate (persister rf) = []) then (0, -1) else (t, v)
  | None => (0, -1)
  end.

(** The program may crash at any moment. *)
Definition any_crash rf (ph : option phase) : Prop := True.

(** No crash between the requests of an election and the first save of its term
    and vote. *)
Definition saved_crash rf (ph : option phase) : Prop :=
  ph = Some InPersist → saved rf = (currentTerm rf, votedFor rf).

Definition no_crash rf (ph : option phase) : Prop := False.

Lemma saved_persisted rf :
  persister rf = persister (persist rf) → saved rf = (currentTerm rf, votedFor rf).
Proof.
  intros Hp. unfold saved. rewrite Hp. cbn. rewrite gob_roundtrip, decide_False; [done|].
  apply gob_nonempty.
Qed.

Lemma saved_same rf rf' : persister rf' = persister rf → saved rf' = saved rf.
Proof. unfold saved. by intros ->. Qed.

(** The vote of a term is kept, and what is saved is at most as old. *)
Record vote_frame rf rf' : Prop := {
  fr_me : me rf' = me rf;
  fr_npeers : npeers rf' = npeers rf;
  fr_term : currentTerm rf ≤ currentTerm rf';
  fr_vote : currentTerm rf' = currentTerm rf → votedFor rf' = votedFor rf;
  fr_saved : persister rf' = persister rf ∨ persister rf' = persister (persist rf');
}.

(** A role is kept with its term, unless the peer becomes a follower. *)
Definition role_frame rf rf' : Prop :=
  role rf' = Follower ∨ role rf' = role rf ∧ currentTerm rf' = currentTerm rf.

Lemma convertRole_follower rf rf' sp :
  convertRole Follower rf = Ok (rf', sp) →
  role rf' = Follower ∧ me rf' = me rf ∧ npeers rf' = npeers rf ∧ currentTerm rf' = currentTerm rf ∧
  votedFor rf' = votedFor rf ∧ persister rf' = persister rf.
Proof.
  cbn. case_decide; [destruct (heartChan rf); [done| |done]|]; intros [= <- <-]; done.
Qed.

Lemma step_down_frame t rf rf' sp :
  step_down t rf = Ok (rf', sp) →
  role rf' = Follower ∧ me rf' = me rf ∧ npeers rf' = npeers rf ∧ currentTerm rf' = t ∧
  persister rf' = persister rf.
Proof.
  unfold step_down. intros H. apply bind_Ok in H as ([rf1 sp1] & Hc & [= <- <-]).
  apply convertRole_follower in Hc as (? & ? & ? & ? & ? & ?). done.
Qed.

(** The fields an append does not touch. *)
Lemma append_log_frame args rf rf' reply sp :
  append_log args rf = Ok (rf', reply, sp) →
  me rf' = me rf ∧ npeers rf' = npeers rf ∧ currentTerm rf' = currentTerm rf ∧
  votedFor rf' = votedFor rf ∧ role rf' = role rf.
Proof.
  unfold append_log. case_decide; [by intros [= <- <- <-]|].
  clear. intros H. apply bind_Ok in H as ([t|] & _ & H); apply bind_Ok in H as (x & _ & H).
  - by injection H as <- <- <-.
  - case_decide; by injection H as <- <- <-.
Qed.

Lemma AppendEntries_frame now args rf rf' reply sp :
  AppendEntries now args rf = Ok (rf', reply, sp) → vote_frame rf rf' ∧ role_frame rf rf'.
Proof.
  unfold AppendEntries. case_decide as Ht.
  { intros [= <- <- <-]. split; [split; cbn; try done; by right|by right]. }
  intros H. apply bind_Ok in H as ([rf1 sp1] & Hc & H).
  apply convertRole_follower in Hc as (Hr & Hme & Hnp & Hct & Hv & Hp).
  apply bind_Ok in H as ([[rf2 reply2] sp2] & Ha & [= <- <- <-]).
  apply append_log_frame in Ha as (Hme2 & Hnp2 & Hct2 & Hv2 & Hr2).
  split; [|left; cbn; rewrite Hr2; by case_decide].
  case_decide as Hlt; cbn in *; (split; cbn; [congruence|congruence|lia| |by right]); intros; [lia|congruence].
Qed.

Lemma InstallSnapshot_frame now args rf rf' reply sp :
  InstallSnapshot now args rf = Ok (rf', reply, sp) → vote_frame rf rf' ∧ role_frame rf rf'.
Proof.
  unfold InstallSnapshot. case_decide as Ht.
  { intros [= <- <- <-]. split; [split; cbn; try done; by left|by right]. }
  intros H. apply bind_Ok in H as ([[rf1 t] sp1] & Hc & H).
  assert (me rf1 = me rf ∧ npeers rf1 = npeers rf ∧ currentTerm rf ≤ currentTerm rf1 ∧
    (currentTerm rf1 = currentTerm rf → votedFor rf1 = votedFor rf) ∧ role_frame rf rf1)
    as (Hme & Hnp & Hct & Hv & Hr).
  { clear H. destruct (decide (currentTerm rf < ia_Term args)) as [Hlt|Hlt].
    - apply bind_Ok in Hc as ([rf2 sp2] & Hc & [= <- <- <-]).
      apply convertRole_follower in Hc as (? & ? & ? & ? & ? & ?).
      cbn. split; [done|]. split; [done|]. split; [lia|]. split; [lia|]. by left.
    - injection Hc as <- <- <-. do 4 (split; [done|]). by right. }
  case_decide.
  { injection H as <- <- <-. split; [split; cbn; try done; by right|done]. }
  apply bind_Ok in H as (lg & _ & [= <- <- <-]).
  cbn. destruct (decide (commitIndex rf1 < ia_LastIncludedIndex args)).
  all: split; [split; cbn; [done|done|done|done|by right]|done].
Qed.

Lemma commit_scan_frame : ∀ fuel n rf rf' sp,
  commit_scan fuel n rf = Ok (rf', sp) → ∃ c, rf' = set_commitIndex c rf.
Proof.
  induction fuel as [|fuel IH]; intros n rf rf' sp; cbn [commit_scan].
  { intros [= <- <-]. exists (commitIndex rf). by destruct rf. }
  case_decide; [|intros [= <- <-]; exists (commitIndex rf); by destruct rf].
  clear - IH. intros H. apply bind_Ok in H as (e & _ & H). apply bind_Ok in H as (c & _ & H).
  case_decide; [injection H as <- <-; eauto|eauto].
Qed.

Lemma append_failed_frame server reply rf rf' :
  append_failed server reply rf = Ok rf' → ∃ l, rf' = set_nextIndex l rf.
Proof.
  unfold append_failed. intros H. repeat case_decide; inv_ok; eauto.
  all: destruct x1; inv_ok; eauto.
Qed.

Lemma handleAppendEntries_frame now server args reply rf rf' sp :
  handleAppendEntries now server args reply rf = Ok (rf', sp) → vote_frame rf rf' ∧ role_frame rf rf'.
Proof.
  unfold handleAppendEntries. case_decide.
  { intros [= <- <-]. split; [split; cbn; try done; by right|by right]. }
  case_decide as Hlt.
  { intros Heq. apply bind_Ok in Heq as ([rf1 sp1] & Hs & [= <- <-]).
    apply step_down_frame in Hs as (? & ? & ? & ? & ?). cbn in *.
    split; [split; cbn; [done|done|lia|lia|by right]|by left]. }
  clear. destruct (ar_Success reply); intros H.
  - apply bind_Ok in H as (nx & _ & H). apply bind_Ok in H as (mt & _ & H).
    apply bind_Ok in H as ([rf1 sp1] & Hs & [= <- <-]).
    apply commit_scan_frame in Hs as [c ->].
    split; [split; cbn; try done; by right|by right].
  - apply bind_Ok in H as (rf1 & Hs & [= <- <-]). apply append_failed_frame in Hs as [l ->].
    split; [split; cbn; try done; by right|by right].
Qed.

Lemma handleInstallSnapshot_frame now server args reply rf rf' sp :
  handleInstallSnapshot now server args reply rf = Ok (rf', sp) → vote_frame rf rf' ∧ role_frame rf rf'.
Proof.
  unfold handleInstallSnapshot. case_decide.
  { intros [= <- <-]. split; [split; cbn; try done; by left|by right]. }
  case_decide as Hlt.
  { intros Heq. apply bind_Ok in Heq as ([rf1 sp1] & Hs & [= <- <-]).
    apply step_down_frame in Hs as (? & ? & ? & ? & ?). cbn in *.
    split; [split; cbn; [done|done|lia|lia|by right]|by left]. }
  clear. intros H. apply bind_Ok in H as (nx & _ & H). case_decide; [|injection H as <- <-].
  - apply bind_Ok in H as (l & _ & H). apply bind_Ok in H as (l' & _ & [= <- <-]).
    split; [split; cbn; try done; by left|by right].
  - split; [split; cbn; try done; by left|by right].
Qed.

Lemma condInstallSnapshot_frame t i rf rf' :
  condInstallSnapshot t i rf = Ok rf' → vote_frame rf rf' ∧ role_frame rf rf'.
Proof.
  unfold condInstallSnapshot. intros H. apply bind_Ok in H as (lg & _ & H).
  apply bind_Ok in H as (e & _ & H). apply bind_Ok in H as (lg' & _ & [= <-]).
  split; [split; cbn; try done; by right|by right].
Qed.

Lemma Snapshot_frame index snap rf rf' :
  Snapshot index snap rf = Ok rf' → vote_frame rf rf' ∧ role_frame rf rf'.
Proof.
  unfold Snapshot. case_decide.
  { intros [= <-]. split; [split; cbn; try done; by left|by right]. }
  clear. intros H. apply bind_Ok in H as (e & _ & H). apply bind_Ok in H as (l & _ & H).
  apply bind_Ok in H as (l' & _ & [= <-]).
  split; [split; cbn; try done; by right|by right].
Qed.

Lemma local_step_frame rf rf' : local_step rf rf' → vote_frame rf rf' ∧ role_frame rf rf'.
Proof.
  destruct 1;
    eauto using AppendEntries_frame, InstallSnapshot_frame, handleAppendEntries_frame,
      handleInstallSnapshot_frame, Snapshot_frame, condInstallSnapshot_frame;
    (split; [split; cbn; try done; first [by left|by right]|by right]).
Qed.

(** What a vote request may change, on a peer in any state. *)
Lemma RequestVote_frame now args rf rf' reply sp :
  RequestVote now args rf = Ok (rf', reply, sp) →
  me rf' = me rf ∧ npeers rf' = npeers rf ∧ currentTerm rf' = currentTerm rf `max` va_Term args ∧
  persister rf' = persister (persist rf') ∧ role_frame rf rf' ∧
  (vr_VoteGranted reply = true → votedFor rf' = va_CandidateId args ∧
     (currentTerm rf < va_Term args ∨ currentTerm rf = va_Term args ∧
        (votedFor rf = -1 ∨ votedFor rf = va_CandidateId args))) ∧
  (currentTerm rf' = currentTerm rf → vr_VoteGranted reply = false → votedFor rf' ≠ votedFor rf →
     votedFor rf' = -1 ∧ va_Term args = currentTerm rf ∧ votedFor rf = va_CandidateId args).
Proof.
  unfold RequestVote. case_decide as H1.
  { intros [= <- <- <-]. cbn. split_and!; try done; [lia|by right]. }
  case_decide as H2.
  { intros [= <- <- <-]. cbn. split_and!; try done; [lia|by right]. }
  assert (currentTerm rf = va_Term args → votedFor rf = -1 ∨ votedFor rf = va_CandidateId args) as Hfree.
  { intros Heq. destruct (decide (votedFor rf = -1)); [tauto|].
    destruct (decide (votedFor rf = va_CandidateId args)); [tauto|]. destruct H2. by split_and!. }
  intros H. apply bind_Ok in H as ([rf1 sp1] & Hs & H). apply bind_Ok in H as (ok & _ & H).
  assert (me rf1 = me rf ∧ npeers rf1 = npeers rf ∧ currentTerm rf1 = va_Term args ∧ role_frame rf rf1)
    as (Hme & Hnp & Ht & Hr).
  { clear H H2. destruct (decide (currentTerm rf < va_Term args)) as [Hlt|Hge].
    - apply step_down_frame in Hs as (? & ? & ? & ? & ?). do 3 (split; [done|]). by left.
    - injection Hs as <- <-. do 2 (split; [done|]). split; [lia|]. by right. }
  clear H2 Hs. destruct ok; injection H as <- <- <-; cbn; (split_and!; try done; try lia).
Qed.

(** Counting a vote: the three outcomes. *)
Lemma handleVote_cases reply count rf rf' count' sp :
  handleVote reply count rf = Ok (rf', count', sp) →
  vote_frame rf rf' ∧
  (count' = count ∧ role_frame rf rf' ∧ ¬ (role rf = Candidate ∧ vr_VoteGranted reply = true) ∨
   count' = count + 1 ∧ role rf = Candidate ∧ vr_VoteGranted reply = true ∧
     currentTerm rf' = currentTerm rf ∧
     (role rf' = Candidate ∨ role rf' = Leader ∧ npeers rf `quot` 2 < count')).
Proof.
  unfold handleVote. case_decide as Hc.
  - destruct Hc as [Hr Hg]. case_decide as Hm.
    + cbn. intros [= <- <- <-]. split; [split; cbn; try done; by left|].
      right. split_and!; try done. by right.
    + intros [= <- <- <-]. split; [split; cbn; try done; by left|].
      right. split_and!; try done. by left.
  - case_decide as Hlt.
    + intros H. apply bind_Ok in H as ([rf1 sp1] & Hs & [= <- <- <-]).
      apply step_down_frame in Hs as (? & ? & ? & ? & ?).
      split; [split; cbn; [done|done|lia|lia|by left]|]. left. split_and!; try done. by left.
    + intros [= <- <- <-]. split; [split; cbn; try done; by left|].
      left. split_and!; try done. by right.
Qed.

(** A restart finds the vote that was saved. *)
Lemma Make_saved n i rf now rf' :
  Make n i (persister rf) now = Ok rf' →
  role rf' = Follower ∧ me rf' = i ∧ npeers rf' = n ∧
  (currentTerm rf', votedFor rf') = saved rf ∧ persister rf' = persister rf.
Proof.
  unfold Make, readPersist, saved, ReadRaftState. case_decide as Hd; intros H.
  - cbn in H. injection H as <-. unfold readSnapshotPersist.
    destruct (decide (ReadSnapshot (persister rf) = [])); cbn; split_and!; try done.
    all: rewrite Hd; by destruct (gob_decode []) as [[[[[? ?] ?] ?] ?]|].
  - destruct (gob_decode _) as [[[[[? ?] ?] ?] ?]|]; [|done]. cbn in H. injection H as <-.
    unfold readSnapshotPersist. destruct (decide (ReadSnapshot (persister rf) = [])); done.
Qed.
End Election.
Arguments cluster : clear implicits.
