(* ===== verification/ElectionSafety.v ===== *)
(** * Raft: one leader per term

    The invariant of [RaftElection]'s step relation under Raft's rule for
    counting votes ([same_term]): who has voted for whom is remembered by the
    voter, in memory and on disk, and a leader has the votes of a majority.
    [election_safety] follows, if no server crashes while it has sent the
    requests of an election but not saved its vote ([saved_crash]);
    [stale_votes_two_leaders] is the run of the source, which counts a vote in
    any term, that has two. *)
From S2P Require Import Prelude GoLib Raft RaftPeer RaftElection.
Local Open Scope Z_scope.

Section Safety.
Context {Cmd : Type} `{!Gob Cmd}.
Local Abbreviation Raft := (Raft Cmd).
Local Abbreviation cluster := (cluster Cmd).
Implicit Types (rf : Raft) (s : cluster).

(** ** The invariant *)

Definition el_term (el : election) : Z := va_Term (el_args el).

(** The requests and replies in flight, and the votes of an election: the
    ones in flight, the ones counted, and the candidate's own. *)
Definition flying s : list (nat * Z) := requests s ++ (fst <$> replies s).

Inductive voted (rp : list (nat * Z * RequestVoteReply)) (e : nat) (el : election) (j : Z) : Prop :=
  | voted_reply reply : (e, j, reply) ∈ rp → vr_VoteGranted reply = true → voted rp e el j
  | voted_counted : j ∈ el_voters el → voted rp e el j
  | voted_self : j = el_owner el → el_voters el ≠ [] → voted rp e el j.

(** A term and a vote that agree with having voted for [el]. *)
Definition keeps (tv : Z * Z) (el : election) : Prop :=
  el_term el ≤ tv.1 ∧ (tv.1 = el_term el → tv.2 = el_owner el).

(** The owner of an election is not behind it. *)
Definition past (ph : option phase) rf (el : election) : Prop :=
  match ph with
  | None => el_term el ≤ (saved rf).1
  | Some InGen => el_term el < currentTerm rf ∧ el_term el ≤ (saved rf).1
  | Some InPersist => el_term el ≤ currentTerm rf
  end.

Record node_ok (n i : Z) rf : Prop := {
  no_range : 0 ≤ i < n;
  no_me : me rf = i;
  no_npeers : npeers rf = n;
  no_role : role rf ≠ Follower → votedFor rf = i;
  no_saved : (saved rf).1 ≤ currentTerm rf;
  no_saved_vote : (saved rf).1 = currentTerm rf → (saved rf).2 = votedFor rf;
}.

Record election_ok (n : Z) (el : election) : Prop := {
  eo_owner : 0 ≤ el_owner el < n;
  eo_cand : va_CandidateId (el_args el) = el_owner el;
  eo_nodup : NoDup (el_voters el);
  eo_not_own : el_owner el ∉ el_voters el;
  eo_voters : ∀ j, j ∈ el_voters el → 0 ≤ j < n;
  eo_count : el_count el = 1 + go_len (el_voters el);
}.

(** A majority of the servers voted for [i] in term [t]. *)
Definition won s (i t : Z) : Prop :=
  ∃ e el, elections s !! e = Some el ∧ el_owner el = i ∧ el_term el = t ∧
    el_voters el ≠ [] ∧ size s `quot` 2 < el_count el.

Record inv s : Prop := {
  inv_node : ∀ i rf, nodes s !! i = Some rf → node_ok (size s) i rf;
  inv_election : ∀ e el, elections s !! e = Some el → election_ok (size s) el;
  inv_past : ∀ e el rf, elections s !! e = Some el → nodes s !! el_owner el = Some rf →
    past (phases s !! el_owner el) rf el;
  inv_unique : ∀ e e' el el', elections s !! e = Some el → elections s !! e' = Some el' →
    el_owner el = el_owner el' → el_term el = el_term el' → e = e';
  inv_nodup : NoDup (flying s);
  inv_flying : ∀ e j, (e, j) ∈ flying s →
    ∃ el, elections s !! e = Some el ∧ 0 ≤ j < size s ∧ j ≠ el_owner el ∧ j ∉ el_voters el;
  inv_vote : ∀ e el j rf, elections s !! e = Some el → voted (replies s) e el j → nodes s !! j = Some rf →
    keeps (currentTerm rf, votedFor rf) el ∧ (phases s !! j ≠ Some InPersist → keeps (saved rf) el);
  inv_one : ∀ e e' el el' j, elections s !! e = Some el → elections s !! e' = Some el' →
    voted (replies s) e el j → voted (replies s) e' el' j → el_term el = el_term el' → el_owner el = el_owner el';
  inv_leader : ∀ i rf, nodes s !! i = Some rf → role rf = Leader → won s i (currentTerm rf);
  inv_total : ∀ i, 0 ≤ i < size s → is_Some (nodes s !! i);
}.

Lemma saved_first n i : saved (first_boot (Cmd := Cmd) n i) = (0, -1).
Proof. unfold saved; cbn. destruct (gob_decode []) as [[[[[t v] ?] ?] ?]|]; [|done].
  by rewrite decide_True. Qed.

Lemma winv_init n : inv (cluster_init n).
Proof.
  assert (∀ i rf, nodes (cluster_init n) !! i = Some rf → 0 ≤ i < n ∧ rf = first_boot n i) as Hn.
  { intros i rf. cbn. rewrite lookup_map_on. case_decide as Hi; [|done]. intros [= <-].
    apply elem_of_list_to_set, elem_of_seqZ in Hi. split; [lia|done]. }
  split.
  - intros i rf [Hi ->]%Hn. split; rewrite ?saved_first; done.
  - intros e el H. cbn in H. by rewrite lookup_nil in H.
  - intros e el rf H. cbn in H. by rewrite lookup_nil in H.
  - intros e e' el el' H. cbn in H. by rewrite lookup_nil in H.
  - apply NoDup_nil_2.
  - intros e j H. by apply not_elem_of_nil in H.
  - intros e el j rf H. cbn in H. by rewrite lookup_nil in H.
  - intros e e' el el' j H. cbn in H. by rewrite lookup_nil in H.
  - by intros i rf [Hi ->]%Hn.
  - intros i Hi. cbn. rewrite lookup_map_on, decide_True; [done|].
    apply elem_of_list_to_set, elem_of_seqZ. cbn in Hi. lia.
Qed.

(** ** A leader's majority *)
Lemma majorities_meet (n c1 c2 : Z) :
  0 ≤ n → n `quot` 2 < c1 → n `quot` 2 < c2 → n < c1 + c2.
Proof. intros Hn. rewrite Z.quot_div_nonneg by lia. pose proof (Z.div_mod n 2 ltac:(lia)).
  pose proof (Z.mod_pos_bound n 2 ltac:(lia)). lia. Qed.

Lemma won_unique s i i' t : inv s → won s i t → won s i' t → i = i'.
Proof.
  intros Hinv (e & el & He & <- & Ht & Hv & Hc) (e' & el' & He' & <- & Ht' & Hv' & Hc').
  destruct (inv_election _ Hinv _ _ He) as [Ho _ Hnd Hno Hin Hcnt].
  destruct (inv_election _ Hinv _ _ He') as [Ho' _ Hnd' Hno' Hin' Hcnt'].
  destruct (decide (el_owner el = el_owner el')) as [|Hne]; [done|exfalso].
  set (A := el_owner el :: el_voters el). set (B := el_owner el' :: el_voters el').
  assert (∀ j, j ∈ A → voted (replies s) e el j) as HA.
  { intros j [->|?]%elem_of_cons; [by apply voted_self|by apply voted_counted]. }
  assert (∀ j, j ∈ B → voted (replies s) e' el' j) as HB.
  { intros j [->|?]%elem_of_cons; [by apply voted_self|by apply voted_counted]. }
  assert (NoDup (A ++ B)) as HAB.
  { apply NoDup_app. split_and!; [by constructor| |by constructor].
    intros j Hj Hj'. apply Hne, (inv_one _ Hinv e e' el el' j); auto. congruence. }
  assert (A ++ B ⊆+ seqZ 0 (size s)) as Hsub.
  { apply NoDup_submseteq; [done|]. intros j [Hj|Hj]%elem_of_app; apply elem_of_seqZ;
      [apply elem_of_cons in Hj as [->|Hj%Hin]|apply elem_of_cons in Hj as [->|Hj%Hin']]; lia. }
  apply submseteq_length in Hsub. rewrite length_app, length_seqZ in Hsub. cbn in Hsub.
  pose proof (majorities_meet (size s) (el_count el) (el_count el') ltac:(lia) Hc Hc').
  unfold go_len in *. lia.
Qed.

(** ** The steps *)
Lemma saved_frame rf rf' :
  vote_frame rf rf' → saved rf' = saved rf ∨ saved rf' = (currentTerm rf', votedFor rf').
Proof. intros [_ _ _ _ [Hp|Hp]]; [left; by apply saved_same|right; by apply saved_persisted]. Qed.

Lemma keeps_frame rf rf' el :
  vote_frame rf rf' → keeps (currentTerm rf, votedFor rf) el → keeps (currentTerm rf', votedFor rf') el.
Proof.
  intros [_ _ Ht Hv _] [H1 H2]. cbn in *. split; cbn; [lia|]. intros Heq.
  rewrite Hv by lia. apply H2. lia.
Qed.

Lemma node_ok_frame n i rf rf' :
  node_ok n i rf → vote_frame rf rf' →
  (role rf' ≠ Follower → votedFor rf' = i) → node_ok n i rf'.
Proof.
  intros [H1 H2 H3 H4 H5 H6] Hfr Hr. pose proof (saved_frame _ _ Hfr) as Hs.
  destruct Hfr as [Hme Hnp Ht Hv _]. split; try done; try congruence.
  - destruct Hs as [->| ->]; cbn; lia.
  - destruct Hs as [->| ->]; [|done]. intros Heq. rewrite Hv by lia. apply H6. lia.
Qed.

Lemma inv_set_node s i rf rf' :
  inv s → nodes s !! i = Some rf → vote_frame rf rf' →
  (role rf' ≠ Follower → votedFor rf' = i) →
  (role rf' = Leader → won s i (currentTerm rf')) →
  inv (set_node i rf' s).
Proof.
  intros Hinv Hi Hfr Hr Hl. pose proof (saved_frame _ _ Hfr) as Hs.
  pose proof (no_saved _ _ _ (inv_node _ Hinv _ _ Hi)) as Hsv.
  pose proof (fr_term _ _ Hfr) as Ht. split; cbn.
  - intros k rf0 Hk. apply lookup_insert_Some in Hk as [[<- <-]|[Hne Hk]]; [|by apply (inv_node _ Hinv)].
    eapply node_ok_frame; [by apply (inv_node _ Hinv)|done|done].
  - apply (inv_election _ Hinv).
  - intros e el rf0 He Hk. apply lookup_insert_Some in Hk as [[Heq <-]|[Hne Hk]];
      [|by apply (inv_past _ Hinv _ _ _ He)].
    pose proof (inv_past _ Hinv e el rf He) as Hp. rewrite <-Heq in Hp |- *. specialize (Hp Hi).
    destruct (phases s !! i) as [[]|]; cbn in *; [|lia|]; destruct Hs as [->| ->]; cbn; lia.
  - apply (inv_unique _ Hinv).
  - apply (inv_nodup _ Hinv).
  - apply (inv_flying _ Hinv).
  - intros e el j rf0 He Hj Hk. apply lookup_insert_Some in Hk as [[<- <-]|[Hne Hk]];
      [|by apply (inv_vote _ Hinv _ _ _ _ He)].
    destruct (inv_vote _ Hinv _ _ _ _ He Hj Hi) as [Hcur Hsav].
    pose proof (keeps_frame _ _ _ Hfr Hcur). split; [done|].
    destruct Hs as [->| ->]; [|done]. apply Hsav.
  - apply (inv_one _ Hinv).
  - intros k rf0 Hk Hlead. apply lookup_insert_Some in Hk as [[<- <-]|[Hne Hk]]; [by apply Hl|].
    by apply (inv_leader _ Hinv).
  - intros k Hk. destruct (inv_total _ Hinv k Hk) as [rf0 Hrf0].
    destruct (decide (k = i)) as [->|Hne]; [rewrite lookup_insert_eq|rewrite lookup_insert_ne]; eauto.
Qed.

(** Losing messages. *)
Definition set_net (rq : list (nat * Z)) (rp : list (nat * Z * RequestVoteReply)) s : cluster :=
  {| size := size s; nodes := nodes s; phases := phases s; elections := elections s;
     requests := rq; replies := rp |}.

Lemma inv_lose s rq rp :
  inv s → rq ++ (fst <$> rp) ⊆+ flying s → rp ⊆ replies s → inv (set_net rq rp s).
Proof.
  intros Hinv Hsub Hrp.
  assert (∀ e el j, voted rp e el j → voted (replies s) e el j) as Hv.
  { intros e el j [reply Hin Hg|Hin| ? ?]; [|by apply voted_counted|by apply voted_self].
    eapply voted_reply; [by apply Hrp|done]. }
  split; cbn.
  - apply (inv_node _ Hinv).
  - apply (inv_election _ Hinv).
  - apply (inv_past _ Hinv).
  - apply (inv_unique _ Hinv).
  - apply submseteq_Permutation in Hsub as [k Hk]. pose proof (inv_nodup _ Hinv) as Hnd.
    rewrite Hk in Hnd. by apply NoDup_app in Hnd as [? _].
  - intros e j Hin. apply (inv_flying _ Hinv). by eapply elem_of_submseteq.
  - intros e el j rf He Hj. apply (inv_vote _ Hinv e); auto.
  - intros e e' el el' j He He' Hj Hj'. eapply (inv_one _ Hinv); eauto.
  - apply (inv_leader _ Hinv).
  - apply (inv_total _ Hinv).
Qed.

(** Counting a vote for the candidate of the election's own term. *)
Definition counted (e : nat) (el : election) (j : Z)
    (rp : list (nat * Z * RequestVoteReply)) s : cluster :=
  {| size := size s; nodes := nodes s; phases := phases s;
     elections := <[e := count_vote j (el_count el + 1) el]> (elections s);
     requests := requests s; replies := rp |}.

Lemma count_vote_voters j el : el_voters (count_vote j (el_count el + 1) el) = j :: el_voters el.
Proof. cbn. by rewrite decide_False by lia. Qed.

Lemma counted_lookup e el j rp s e' el' :
  elections s !! e = Some el → elections (counted e el j rp s) !! e' = Some el' →
  ∃ el0, elections s !! e' = Some el0 ∧ el_owner el' = el_owner el0 ∧ el_args el' = el_args el0 ∧
    (e' = e ∧ el0 = el ∧ el' = count_vote j (el_count el + 1) el ∨ e' ≠ e ∧ el' = el0).
Proof.
  intros He. cbn. intros [(-> & <- & _)|[Hne He']]%list_lookup_insert_Some.
  - exists el. split_and!; auto.
  - exists el'. split_and!; auto.
Qed.

Lemma counted_voted e el j reply l1 l2 s e' el' j' :
  elections s !! e = Some el → replies s = l1 ++ (e, j, reply) :: l2 → vr_VoteGranted reply = true →
  elections (counted e el j (l1 ++ l2) s) !! e' = Some el' → voted (l1 ++ l2) e' el' j' →
  ∃ el0, elections s !! e' = Some el0 ∧ el_owner el' = el_owner el0 ∧ el_args el' = el_args el0 ∧
    (voted (replies s) e' el0 j' ∨ e' = e ∧ j' = el_owner el).
Proof.
  intros He Hrp Hg He' Hv. destruct (counted_lookup _ _ _ _ _ _ _ He He') as (el0 & H0 & Ho & Ha & Hcase).
  exists el0. split_and!; try done.
  destruct Hv as [reply' Hin Hg'|Hin|Hj Hne].
  - left. eapply voted_reply; [|done]. rewrite Hrp. set_solver.
  - destruct Hcase as [(-> & -> & ->)|[Hne ->]]; [|left; by apply voted_counted].
    rewrite count_vote_voters in Hin. left. apply elem_of_cons in Hin as [->|Hin]; [|by apply voted_counted].
    eapply voted_reply; [|done]. rewrite Hrp. set_solver.
  - destruct Hcase as [(-> & -> & ->)|[Hne' ->]]; [by right|left; by apply voted_self].
Qed.

Lemma counted_election_ok n el j :
  election_ok n el → 0 ≤ j < n → j ≠ el_owner el → j ∉ el_voters el →
  election_ok n (count_vote j (el_count el + 1) el).
Proof.
  intros [E1 E2 E3 E4 E5 E6] Hj Hjo Hjv.
  split; rewrite ?count_vote_voters; cbn [el_owner el_args el_count count_vote]; try done.
  - by constructor.
  - rewrite not_elem_of_cons. split; [congruence|done].
  - intros k [->|Hk]%elem_of_cons; auto.
  - rewrite E6. unfold go_len. cbn. lia.
Qed.

Lemma counted_won e el j rp s i t :
  elections s !! e = Some el → won s i t → won (counted e el j rp s) i t.
Proof.
  intros He (e' & el' & He' & Ho & Hte & Hne & Hc). unfold won; cbn.
  destruct (decide (e' = e)) as [->|Hee].
  - rewrite He in He'. injection He' as <-. exists e, (count_vote j (el_count el + 1) el).
    rewrite list_lookup_insert_eq by (by eapply lookup_lt_Some). rewrite count_vote_voters.
    split_and!; try done. cbn. lia.
  - exists e', el'. by rewrite list_lookup_insert_ne.
Qed.

(** A peer that is in the term of its election has voted for nobody else. *)
Lemma own_vote_one s el rf e' el' :
  inv s → nodes s !! el_owner el = Some rf → currentTerm rf = el_term el → votedFor rf = el_owner el →
  elections s !! e' = Some el' → voted (replies s) e' el' (el_owner el) →
  el_term el' = el_term el → el_owner el' = el_owner el.
Proof.
  intros Hinv Hrf Ht Hown He' Hv Ht'. destruct (inv_vote _ Hinv _ _ _ _ He' Hv Hrf) as [[_ Hx] _].
  cbn in Hx. rewrite <-Hx by lia. done.
Qed.

(** Votes still go to one owner a term. *)
Lemma counted_one s l1 e j reply l2 el rf e1 e2 el1 el2 j' :
  inv s → replies s = l1 ++ (e, j, reply) :: l2 → elections s !! e = Some el →
  nodes s !! el_owner el = Some rf → currentTerm rf = el_term el → votedFor rf = el_owner el →
  vr_VoteGranted reply = true →
  elections (counted e el j (l1 ++ l2) s) !! e1 = Some el1 → elections (counted e el j (l1 ++ l2) s) !! e2 = Some el2 →
  voted (l1 ++ l2) e1 el1 j' → voted (l1 ++ l2) e2 el2 j' → el_term el1 = el_term el2 → el_owner el1 = el_owner el2.
Proof.
  intros Hinv Hrp He Hrf Ht Hown Hg H1 H2 Hv1 Hv2 Hte.
  destruct (counted_voted _ _ _ _ _ _ _ _ _ _ He Hrp Hg H1 Hv1) as (el1' & H1' & Ho1 & Ha1 & Hc1).
  destruct (counted_voted _ _ _ _ _ _ _ _ _ _ He Hrp Hg H2 Hv2) as (el2' & H2' & Ho2 & Ha2 & Hc2).
  unfold el_term in Hte. rewrite Ha1, Ha2 in Hte. rewrite Ho1, Ho2.
  pose proof (λ e' el', own_vote_one s el rf e' el' Hinv Hrf Ht Hown) as Hself.
  destruct Hc1 as [Hv1'|[-> ->]], Hc2 as [Hv2'|[-> ?]].
  - by apply (inv_one _ Hinv _ _ _ _ j' H1' H2').
  - subst j'. rewrite He in H2'. injection H2' as <-. by apply (Hself _ _ H1').
  - rewrite He in H1'. injection H1' as <-. symmetry. by apply (Hself _ _ H2').
  - congruence.
Qed.

Lemma inv_counted s l1 e j reply l2 el rf :
  inv s → replies s = l1 ++ (e, j, reply) :: l2 → elections s !! e = Some el →
  nodes s !! el_owner el = Some rf → role rf = Candidate → currentTerm rf = el_term el →
  vr_VoteGranted reply = true → inv (counted e el j (l1 ++ l2) s).
Proof.
  intros Hinv Hrp He Hrf Hr Ht Hg.
  pose proof (inv_node _ Hinv _ _ Hrf) as [Hrange Hme Hnp Hrole Hsv Hsvv].
  assert (votedFor rf = el_owner el) as Hown by (apply Hrole; by rewrite Hr).
  assert (flying s ≡ₚ (e, j) :: flying (counted e el j (l1 ++ l2) s)) as Hfl.
  { unfold flying; cbn. rewrite Hrp, !fmap_app, fmap_cons. cbn. solve_Permutation. }
  pose proof (inv_nodup _ Hinv) as Hnd. rewrite Hfl in Hnd. apply NoDup_cons in Hnd as [Hfresh Hnd].
  destruct (inv_flying _ Hinv e j) as (el0 & He0 & Hj & Hjo & Hjv); [rewrite Hfl; left|].
  rewrite He in He0. injection He0 as <-.
  assert (keeps (currentTerm rf, votedFor rf) el) as Hkeep by (split; cbn; [lia|done]).
  split; cbn [size nodes phases requests replies counted].
  - apply (inv_node _ Hinv).
  - intros e' el' He'. destruct (counted_lookup _ _ _ _ _ _ _ He He') as (el0 & H0 & Ho & Ha & Hcase).
    pose proof (inv_election _ Hinv _ _ H0).
    destruct Hcase as [(-> & -> & ->)|[Hne ->]]; [by apply counted_election_ok|done].
  - intros e' el' rf' He' Hrf'. destruct (counted_lookup _ _ _ _ _ _ _ He He') as (el0 & H0 & Ho & Ha & _).
    rewrite Ho in *. unfold past, el_term. rewrite Ha. by apply (inv_past _ Hinv _ _ _ H0).
  - intros e1 e2 el1 el2 H1 H2 Ho Hte.
    destruct (counted_lookup _ _ _ _ _ _ _ He H1) as (el1' & H1' & Ho1 & Ha1 & _).
    destruct (counted_lookup _ _ _ _ _ _ _ He H2) as (el2' & H2' & Ho2 & Ha2 & _).
    apply (inv_unique _ Hinv _ _ _ _ H1' H2'); unfold el_term in *; congruence.
  - done.
  - intros e' j' Hin. destruct (inv_flying _ Hinv e' j') as (el' & He' & ? & ? & Hnv); [rewrite Hfl; by right|].
    cbn. destruct (decide (e' = e)) as [->|Hne].
    + rewrite He in He'. injection He' as <-. exists (count_vote j (el_count el + 1) el).
      rewrite list_lookup_insert_eq by (by eapply lookup_lt_Some).
      rewrite count_vote_voters, not_elem_of_cons. split_and!; try done; try tauto. by intros ->.
    + exists el'. by rewrite list_lookup_insert_ne.
  - intros e' el' j' rf' He' Hv Hj'.
    destruct (counted_voted _ _ _ _ _ _ _ _ _ _ He Hrp Hg He' Hv) as (el0 & H0 & Ho & Ha & Hcase).
    assert (∀ tv, keeps tv el' ↔ keeps tv el0) as Hk by (intros; unfold keeps, el_term; by rewrite Ho, Ha).
    rewrite !Hk. destruct Hcase as [Hold|[-> ->]]; [by apply (inv_vote _ Hinv e' el0 j' rf')|].
    rewrite He in H0. injection H0 as <-. rewrite Hrf in Hj'. injection Hj' as <-. split; [done|].
    intros Hph. pose proof (inv_past _ Hinv _ _ _ He Hrf) as Hp.
    destruct (phases s !! el_owner el) as [[]|]; [cbn in Hp; lia|done|]. cbn in Hp.
    split; [done|]. intros Heq. rewrite Hsvv by lia. done.
  - intros e1 e2 el1 el2 j' H1 H2 Hv1 Hv2 Hte. by eapply counted_one.
  - intros i rf' Hi Hlead. apply counted_won; [done|]. by apply (inv_leader _ Hinv).
  - apply (inv_total _ Hinv).
Qed.

(** Answering a vote request. *)
Lemma answer_keeps s e el j rf now rf' reply sp e' el' :
  inv s → (e, j) ∈ requests s → elections s !! e = Some el → nodes s !! j = Some rf →
  RequestVote now (el_args el) rf = Ok (rf', reply, sp) →
  elections s !! e' = Some el' → voted (replies s) e' el' j →
  keeps (currentTerm rf', votedFor rf') el'.
Proof.
  intros Hinv Hin He Hrf Hrv He' Hv.
  destruct (inv_vote _ Hinv _ _ _ _ He' Hv Hrf) as [[Hle Hvf] _]. cbn in Hle, Hvf.
  apply RequestVote_frame in Hrv as (_ & _ & Ht & _ & _ & Hyes & Hno).
  pose proof (eo_cand _ _ (inv_election _ Hinv _ _ He)) as Hcand.
  pose proof (eo_owner _ _ (inv_election _ Hinv _ _ He')) as Hown'.
  split; cbn; [lia|]. intros Heq. assert (currentTerm rf' = currentTerm rf) as Hsame by lia.
  specialize (Hvf ltac:(lia)). destruct (vr_VoteGranted reply) eqn:Hg.
  - destruct Hyes as [-> [?|[? [?|?]]]]; [done|lia|lia|congruence].
  - destruct (decide (votedFor rf' = votedFor rf)) as [|Hne]; [congruence|exfalso].
    destruct (Hno Hsame eq_refl Hne) as (_ & Hta & Hvc).
    assert (e = e') as ->.
    { apply (inv_unique _ Hinv _ _ _ _ He He'); unfold el_term in *; congruence || lia. }
    rewrite He in He'. injection He' as <-.
    destruct (inv_flying _ Hinv e' j) as (el0 & H0 & _ & Hjo & Hjv);
      [unfold flying; set_solver|]. rewrite He in H0. injection H0 as <-.
    destruct Hv as [reply' Hrp _|Hin'|Hjo' _]; [|done|done].
    pose proof (inv_nodup _ Hinv) as Hnd. apply NoDup_app in Hnd as (_ & Hdis & _).
    apply (Hdis (e', j) Hin). apply list_elem_of_fmap. by exists (e', j, reply').
Qed.

(** The votes afterwards. *)
Lemma answer_voted s e j el reply e' el' k :
  elections s !! e = Some el → elections s !! e' = Some el' →
  voted ((e, j, reply) :: replies s) e' el' k →
  voted (replies s) e' el' k ∨ e' = e ∧ k = j ∧ el' = el ∧ vr_VoteGranted reply = true.
Proof.
  intros He He' [reply' [Heq|Hin']%elem_of_cons Hg|Hk|? ?].
  - injection Heq as -> -> ->. right. split_and!; congruence.
  - left. by eapply voted_reply.
  - left. by apply voted_counted.
  - left. by apply voted_self.
Qed.

(** A peer that grants its vote has not voted for another one in that term. *)
Lemma answer_one s e el j rf now rf' reply sp e' el' :
  inv s → nodes s !! j = Some rf → RequestVote now (el_args el) rf = Ok (rf', reply, sp) →
  elections s !! e = Some el → elections s !! e' = Some el' → voted (replies s) e' el' j →
  vr_VoteGranted reply = true → el_term el' = el_term el → el_owner el' = el_owner el.
Proof.
  intros Hinv Hrf (_ & _ & Ht & _ & _ & Hyes & _)%RequestVote_frame He He' Hv Hg Hte.
  destruct (inv_vote _ Hinv _ _ _ _ He' Hv Hrf) as [[Hle Hvf] _]. cbn in Hle, Hvf.
  pose proof (eo_cand _ _ (inv_election _ Hinv _ _ He)).
  pose proof (eo_owner _ _ (inv_election _ Hinv _ _ He')).
  unfold el_term in *. destruct (Hyes Hg) as [_ [?|[? [?|?]]]]; [lia| |];
    specialize (Hvf ltac:(lia)); [lia|congruence].
Qed.

(** A peer that has answered is well-formed. *)
Lemma answer_node_ok n j now el rf rf' reply sp :
  node_ok n j rf → RequestVote now (el_args el) rf = Ok (rf', reply, sp) →
  va_CandidateId (el_args el) ≠ j → node_ok n j rf'.
Proof.
  intros [Hrange Hme Hnp Hrole Hsv Hsvv] Hrv Hjo.
  apply RequestVote_frame in Hrv as (Hme' & Hnp' & Ht & Hp & Hrole' & Hyes & Hno).
  pose proof (saved_persisted _ Hp) as Hs.
  split; rewrite ?Hs; cbn; try done; try congruence. intros Hr.
  destruct Hrole' as [?|[Hr' Hct]]; [done|]. rewrite Hr' in Hr. specialize (Hrole Hr).
  destruct (vr_VoteGranted reply) eqn:Hg.
  - destruct Hyes as [_ [?|[_ [?|?]]]]; [done|lia|lia|congruence].
  - destruct (decide (votedFor rf' = votedFor rf)) as [|Hne]; [congruence|].
    destruct (Hno Hct eq_refl Hne) as (_ & _ & ?). congruence.
Qed.

Lemma inv_request s l1 e j l2 el rf now rf' reply sp :
  inv s → requests s = l1 ++ (e, j) :: l2 → elections s !! e = Some el → nodes s !! j = Some rf →
  RequestVote now (el_args el) rf = Ok (rf', reply, sp) →
  inv {| size := size s; nodes := <[j := rf']> (nodes s); phases := phases s;
         elections := elections s; requests := l1 ++ l2; replies := (e, j, reply) :: replies s |}.
Proof.
  intros Hinv Hrq He Hrf Hrv.
  assert ((e, j) ∈ requests s) as Hin by (rewrite Hrq; set_solver).
  pose proof (λ e' el', answer_keeps s e el j rf now rf' reply sp e' el' Hinv Hin He Hrf Hrv) as Hkeep.
  pose proof (λ e' el', answer_one s e el j rf now rf' reply sp e' el' Hinv Hrf Hrv He) as Hnew.
  pose proof Hrv as Hrv'. apply RequestVote_frame in Hrv as (Hme' & Hnp' & Ht & Hp & Hrole' & Hyes & Hno).
  pose proof (inv_node _ Hinv _ _ Hrf) as [Hrange Hme Hnp Hrole Hsv Hsvv].
  pose proof (eo_cand _ _ (inv_election _ Hinv _ _ He)) as Ec.
  pose proof (saved_persisted _ Hp) as Hs.
  assert (flying s ≡ₚ (l1 ++ l2) ++ (e, j) :: (fst <$> replies s)) as Hfl.
  { unfold flying. rewrite Hrq. solve_Permutation. }
  pose proof (λ e' el' k H, answer_voted s e j el reply e' el' k He H) as Hv.
  assert (j ≠ el_owner el) as Hjo.
  { destruct (inv_flying _ Hinv e j) as (el0 & He0 & _ & Hjo & _); [unfold flying; set_solver|congruence]. }
  split; cbn.
  - intros k rf0 Hk. apply lookup_insert_Some in Hk as [[<- <-]|[Hne Hk]]; [|by apply (inv_node _ Hinv)].
    eapply answer_node_ok; [by apply (inv_node _ Hinv)|exact Hrv'|congruence].
  - apply (inv_election _ Hinv).
  - intros e' el' rf0 He' Hk. apply lookup_insert_Some in Hk as [[Heq <-]|[Hne Hk]];
      [|by apply (inv_past _ Hinv _ _ _ He')].
    pose proof (inv_past _ Hinv e' el' rf He') as Hpast. rewrite <-Heq in Hpast |- *. specialize (Hpast Hrf).
    destruct (phases s !! j) as [[]|]; cbn in *; rewrite ?Hs; cbn; lia.
  - apply (inv_unique _ Hinv).
  - pose proof (inv_nodup _ Hinv) as Hnd. by rewrite Hfl in Hnd.
  - intros e' j' Hin'. apply (inv_flying _ Hinv). by rewrite Hfl.
  - intros e' el' k rf0 He' Hvk Hk. destruct (Hv _ _ _ He' Hvk) as [Hold|(-> & -> & -> & Hg)].
    + apply lookup_insert_Some in Hk as [[<- <-]|[Hne Hk]]; [|by apply (inv_vote _ Hinv _ _ _ _ He')].
      rewrite Hs. split; [|intros _]; by apply (Hkeep e').
    + rewrite lookup_insert_eq in Hk. injection Hk as <-. rewrite Hs.
      destruct (Hyes Hg) as [Hvf _]. unfold keeps; cbn. unfold el_term. rewrite Hvf, Ec.
      split; [|intros _]; (split; [lia|done]).
  - intros e1 e2 el1 el2 k H1 H2 Hv1 Hv2 Hte.
    destruct (Hv _ _ _ H1 Hv1) as [Ho1|(-> & -> & -> & Hg1)], (Hv _ _ _ H2 Hv2) as [Ho2|(-> & Hk2 & -> & Hg2)].
    + by apply (inv_one _ Hinv _ _ _ _ k H1 H2).
    + subst k. by apply (Hnew e1).
    + symmetry. by apply (Hnew e2).
    + done.
  - intros k rf0 Hk Hlead. apply lookup_insert_Some in Hk as [[<- <-]|[Hne Hk]]; [|by apply (inv_leader _ Hinv)].
    destruct Hrole' as [?|[Hr' Hct]]; [congruence|]. rewrite Hct. apply (inv_leader _ Hinv _ _ Hrf). congruence.
  - intros k Hk. destruct (inv_total _ Hinv k Hk) as [rf0 Hrf0].
    destruct (decide (k = j)) as [->|Hne]; [rewrite lookup_insert_eq|rewrite lookup_insert_ne]; eauto.
Qed.

(** Where the candidate is in [startElection]. *)
Definition set_phase (i : Z) (ph : option phase) s : cluster :=
  {| size := size s; nodes := nodes s; phases := partial_alter (λ _, ph) i (phases s);
     elections := elections s; requests := requests s; replies := replies s |}.

Lemma inv_set_phase s i ph rf :
  inv s → nodes s !! i = Some rf →
  (∀ e el, elections s !! e = Some el → el_owner el = i → past ph rf el) →
  (ph ≠ Some InPersist → phases s !! i ≠ Some InPersist ∨ saved rf = (currentTerm rf, votedFor rf)) →
  inv (set_phase i ph s).
Proof.
  intros Hinv Hi Hpast Hsv. split; cbn; try apply Hinv.
  - intros e el rf0 He Hrf0. destruct (decide (i = el_owner el)) as [Heq|Hne].
    + rewrite <-Heq, lookup_partial_alter_eq in *. rewrite Hi in Hrf0. injection Hrf0 as <-.
      by apply (Hpast e).
    + rewrite lookup_partial_alter_ne by done. by apply (inv_past _ Hinv e).
  - intros e el j rf0 He Hv Hj. destruct (inv_vote _ Hinv _ _ _ _ He Hv Hj) as [Hc Hs]. split; [done|].
    destruct (decide (i = j)) as [<-|Hne]; [|by rewrite lookup_partial_alter_ne].
    rewrite lookup_partial_alter_eq. intros Hph. rewrite Hi in Hj. injection Hj as <-.
    destruct (Hsv Hph) as [?| ->]; [by apply Hs|done].
Qed.

Lemma inv_start s i rf rf' sp :
  inv s → nodes s !! i = Some rf → phases s !! i = None → startElection rf = Ok (rf', sp) →
  inv (set_phase i (Some InGen) (set_node i rf' s)).
Proof.
  intros Hinv Hi Hph Hst. cbn in Hst. injection Hst as <- <-.
  pose proof (inv_node _ Hinv _ _ Hi) as [? Hme ? ? Hsv ?].
  eapply inv_set_phase; [|by apply lookup_insert_eq| |intros _; left; cbn; by rewrite Hph].
  - apply (inv_set_node _ _ rf); try done.
    split; cbn; try done; try lia. by left.
  - intros e el He Ho. cbn in *. pose proof (inv_past _ Hinv e el rf He) as Hp.
    rewrite Ho, Hph in Hp. specialize (Hp Hi). cbn in Hp. unfold saved in *; cbn. lia.
Qed.

Lemma inv_persist s i rf :
  inv s → nodes s !! i = Some rf → phases s !! i = Some InPersist →
  inv (set_phase i None (set_node i (persist rf) s)).
Proof.
  intros Hinv Hi Hph. pose proof (inv_node _ Hinv _ _ Hi) as Hnode.
  assert (saved (persist rf) = (currentTerm rf, votedFor rf)) as Hs by (by apply (saved_persisted (persist rf))).
  eapply inv_set_phase; [|by apply lookup_insert_eq| |by right].
  - apply (inv_set_node _ _ rf); try done; cbn; [split; cbn; try done; by right|apply Hnode|].
    apply (inv_leader _ Hinv _ _ Hi).
  - intros e el He Ho. cbn in *. pose proof (inv_past _ Hinv e el rf He) as Hp.
    rewrite Ho, Hph in Hp. specialize (Hp Hi). cbn in Hp. rewrite Hs. done.
Qed.

Definition new_election (i : Z) (args : RequestVoteArgs) : election :=
  {| el_owner := i; el_args := args; el_count := 1; el_voters := []; el_live := true |}.

Definition asked s (i : Z) (args : RequestVoteArgs) : cluster :=
  {| size := size s; nodes := nodes s; phases := <[i := InPersist]> (phases s);
     elections := elections s ++ [new_election i args];
     requests := requests s ++ (pair (length (elections s)) <$> others (size s) i);
     replies := replies s |}.

Lemma flying_old s e j : inv s → (e, j) ∈ flying s → (e < length (elections s))%nat.
Proof. intros Hinv Hin. destruct (inv_flying _ Hinv _ _ Hin) as (el & He & _). by eapply lookup_lt_Some. Qed.

Lemma asked_voted s i args e el j :
  inv s → elections (asked s i args) !! e = Some el → voted (replies s) e el j → elections s !! e = Some el.
Proof.
  intros Hinv [[_ He]|[-> <-]]%lookup_snoc_Some Hv; [done|exfalso].
  destruct Hv as [reply Hin _|Hin|_ Hne]; [|by apply not_elem_of_nil in Hin|done].
  assert ((length (elections s), j) ∈ flying s) as Hf.
  { unfold flying. apply elem_of_app. right. apply list_elem_of_fmap.
    by exists (length (elections s), j, reply). }
  apply flying_old in Hf; [lia|done].
Qed.

Lemma asked_flying s i args :
  flying (asked s i args) ≡ₚ flying s ++ (pair (length (elections s)) <$> others (size s) i).
Proof. unfold flying; cbn [requests replies asked]. solve_Permutation. Qed.

Lemma asked_nodup s i args : inv s → NoDup (flying (asked s i args)).
Proof.
  intros Hinv. rewrite asked_flying. apply NoDup_app. split_and!; [apply (inv_nodup _ Hinv)| |].
  - intros [e j] Hf%flying_old; [|done]. rewrite list_elem_of_fmap. intros (k & [= -> ->] & _). lia.
  - apply NoDup_fmap_2; [by intros ? ? [= ->]|]. apply NoDup_filter, NoDup_seqZ.
Qed.

Lemma inv_asked s i rf args :
  inv s → nodes s !! i = Some rf → phases s !! i = Some InGen → genRequestVoteArgs rf = Ok args →
  inv (asked s i args).
Proof.
  intros Hinv Hi Hph Hgen. pose proof (inv_node _ Hinv _ _ Hi) as [Hr Hme Hnp _ _ _].
  apply bind_Ok in Hgen as (e0 & _ & [= <-]). set (args := {| va_Term := _ |}).
  assert (∀ e el, elections s !! e = Some el → el_owner el = i → el_term el < currentTerm rf) as Hold.
  { intros e el He Ho. pose proof (inv_past _ Hinv e el rf He) as Hp.
    rewrite Ho, Hph in Hp. by apply (Hp Hi). }
  split; cbn [size nodes phases replies asked].
  - apply (inv_node _ Hinv).
  - intros e el [[_ He]|[-> <-]]%lookup_snoc_Some; [by apply (inv_election _ Hinv e)|].
    split; cbn; try done; [apply NoDup_nil_2|apply not_elem_of_nil|by intros j ?%not_elem_of_nil].
  - intros e el rf0 [[_ He]|[-> <-]]%lookup_snoc_Some Hrf0.
    + destruct (decide (i = el_owner el)) as [Heq|Hne].
      * rewrite <-Heq, lookup_insert_eq in *. rewrite Hi in Hrf0. injection Hrf0 as <-.
        cbn. specialize (Hold e el He (eq_sym Heq)). lia.
      * rewrite lookup_insert_ne by done. by apply (inv_past _ Hinv e).
    + cbn [el_owner new_election] in *. rewrite Hi in Hrf0. injection Hrf0 as <-.
      rewrite lookup_insert_eq. cbn. lia.
  - intros e e' el el' [[_ He]|[-> <-]]%lookup_snoc_Some [[_ He']|[-> <-]]%lookup_snoc_Some Ho Ht.
    + by apply (inv_unique _ Hinv _ _ _ _ He He').
    + cbn in *. specialize (Hold e el He Ho). unfold el_term in *. cbn in *. lia.
    + cbn in *. specialize (Hold e' el' He' (eq_sym Ho)). unfold el_term in *. cbn in *. lia.
    + done.
  - by apply asked_nodup.
  - intros e j. rewrite asked_flying. intros [Hf|Hf]%elem_of_app.
    + destruct (inv_flying _ Hinv _ _ Hf) as (el & He & ?). exists el.
      split; [|done]. apply lookup_app_l_Some, He.
    + apply list_elem_of_fmap in Hf as (k & [= -> ->] & Hk).
      apply list_elem_of_filter in Hk as [Hk1 Hk2%elem_of_seqZ].
      exists (new_election i args). cbn [elections asked]. rewrite lookup_snoc_Some. split_and!; [by right|lia|lia|done|].
      apply not_elem_of_nil.
  - intros e el j rf0 He Hv Hj. pose proof (asked_voted _ _ _ _ _ _ Hinv He Hv) as He'.
    destruct (inv_vote _ Hinv _ _ _ _ He' Hv Hj) as [Hc Hs]. split; [done|].
    destruct (decide (i = j)) as [<-|Hne]; [by rewrite lookup_insert_eq|by rewrite lookup_insert_ne].
  - intros e e' el el' j He He' Hv Hv'.
    pose proof (asked_voted _ _ _ _ _ _ Hinv He Hv). pose proof (asked_voted _ _ _ _ _ _ Hinv He' Hv').
    by apply (inv_one _ Hinv e e' el el' j).
  - intros k rf0 Hk Hl. destruct (inv_leader _ Hinv _ _ Hk Hl) as (e & el & He & ?).
    exists e, el. split; [|done]. by apply lookup_app_l_Some.
  - apply (inv_total _ Hinv).
Qed.

(** A crash and a restart. *)
Definition kill (i : Z) (el : election) : election :=
  {| el_owner := el_owner el; el_args := el_args el; el_count := el_count el;
     el_voters := el_voters el; el_live := el_live el && negb (bool_decide (el_owner el = i)) |}.

Definition killed_in (i : Z) s : cluster :=
  {| size := size s; nodes := nodes s; phases := phases s;
     elections := kill_elections i (elections s); requests := requests s; replies := replies s |}.

Lemma killed_lookup i s e el :
  elections (killed_in i s) !! e = Some el → ∃ el0, elections s !! e = Some el0 ∧ el = kill i el0.
Proof. intros H. apply list_lookup_fmap_Some in H as (el0 & -> & He). eauto. Qed.

Lemma kill_voted rp e i el j : voted rp e (kill i el) j → voted rp e el j.
Proof. intros [reply Hin Hg|Hin|Ho Hne]; [by eapply voted_reply|by apply voted_counted|by apply voted_self]. Qed.

Lemma inv_killed s i : inv s → inv (killed_in i s).
Proof.
  intros Hinv. split; cbn [size nodes phases requests replies killed_in].
  - apply (inv_node _ Hinv).
  - intros e el He. destruct (killed_lookup _ _ _ _ He) as (el0 & H0 & ->).
    by destruct (inv_election _ Hinv _ _ H0).
  - intros e el rf He. destruct (killed_lookup _ _ _ _ He) as (el0 & H0 & ->).
    apply (inv_past _ Hinv e el0 rf H0).
  - intros e e' el el' He He'.
    destruct (killed_lookup _ _ _ _ He) as (el0 & H0 & ->).
    destruct (killed_lookup _ _ _ _ He') as (el0' & H0' & ->).
    apply (inv_unique _ Hinv _ _ _ _ H0 H0').
  - apply (inv_nodup _ Hinv).
  - intros e j Hf. destruct (inv_flying _ Hinv _ _ Hf) as (el & He & ?). exists (kill i el).
    split; [|done]. cbn. unfold kill_elections. by rewrite list_lookup_fmap, He.
  - intros e el j rf He Hv. destruct (killed_lookup _ _ _ _ He) as (el0 & H0 & ->).
    apply (inv_vote _ Hinv e el0 j rf H0). by eapply kill_voted.
  - intros e e' el el' j He He' Hv Hv'.
    destruct (killed_lookup _ _ _ _ He) as (el0 & H0 & ->).
    destruct (killed_lookup _ _ _ _ He') as (el0' & H0' & ->).
    apply (inv_one _ Hinv e e' el0 el0' j H0 H0'); by eapply kill_voted.
  - intros k rf Hk Hl. destruct (inv_leader _ Hinv _ _ Hk Hl) as (e & el & He & ?).
    exists e, (kill i el). split; [|done]. cbn. unfold kill_elections. by rewrite list_lookup_fmap, He.
  - apply (inv_total _ Hinv).
Qed.

(** What is on disk when a peer may crash. *)
Lemma past_saved ph rf el : past ph rf el → saved_crash rf ph → el_term el ≤ (saved rf).1.
Proof. destruct ph as [[]|]; cbn; [by intros [_ ?]| |done]. intros Hp Hc. by rewrite Hc. Qed.

Lemma keeps_saved s e el j rf :
  inv s → elections s !! e = Some el → voted (replies s) e el j → nodes s !! j = Some rf →
  saved_crash rf (phases s !! j) → keeps (saved rf) el.
Proof.
  intros Hinv He Hv Hj Hc. destruct (inv_vote _ Hinv _ _ _ _ He Hv Hj) as [Hcur Hsav].
  destruct (decide (phases s !! j = Some InPersist)) as [Hph|]; [by rewrite Hc|by apply Hsav].
Qed.

Lemma inv_restart s i rf now rf' :
  inv s → nodes s !! i = Some rf → saved_crash rf (phases s !! i) →
  Make (size s) i (persister rf) now = Ok rf' → inv (killed_in i (set_phase i None (set_node i rf' s))).
Proof.
  intros Hinv Hi Hc HM. apply inv_killed.
  apply Make_saved in HM as (Hrole & Hme & Hnp & Hsv & Hp).
  pose proof (saved_same _ _ Hp) as Hs. rewrite <-Hsv in Hs.
  split; cbn.
  - intros k rf0 Hk. apply lookup_insert_Some in Hk as [[<- <-]|[Hne Hk]]; [|by apply (inv_node _ Hinv)].
    split; rewrite ?Hs; try done. apply (inv_node _ Hinv _ _ Hi).
  - apply (inv_election _ Hinv).
  - intros e el rf0 He Hk. apply lookup_insert_Some in Hk as [[Heq <-]|[Hne Hk]].
    + pose proof (inv_past _ Hinv e el rf He) as Hpast. rewrite <-Heq in *.
      rewrite lookup_partial_alter_eq. cbn. rewrite Hs, Hsv. by eapply past_saved; [apply Hpast|].
    + rewrite lookup_partial_alter_ne by done. by apply (inv_past _ Hinv _ _ _ He).
  - apply (inv_unique _ Hinv).
  - apply (inv_nodup _ Hinv).
  - apply (inv_flying _ Hinv).
  - intros e el j rf0 He Hj Hk. apply lookup_insert_Some in Hk as [[<- <-]|[Hne Hk]].
    + rewrite Hs, Hsv. pose proof (keeps_saved _ _ _ _ _ Hinv He Hj Hi Hc). by split.
    + rewrite lookup_partial_alter_ne by done. by apply (inv_vote _ Hinv _ _ _ _ He).
  - apply (inv_one _ Hinv).
  - intros k rf0 Hk Hlead. apply lookup_insert_Some in Hk as [[<- <-]|[Hne Hk]]; [congruence|].
    by apply (inv_leader _ Hinv).
  - intros k Hk. destruct (inv_total _ Hinv k Hk) as [rf0 Hrf0].
    destruct (decide (k = i)) as [->|Hne]; [rewrite lookup_insert_eq|rewrite lookup_insert_ne]; eauto.
Qed.

Lemma count_vote_same j el : count_vote j (el_count el) el = el.
Proof. unfold count_vote. rewrite decide_True by done. by destruct el. Qed.

Lemma role_frame_owner s i rf rf' :
  inv s → nodes s !! i = Some rf → vote_frame rf rf' → role_frame rf rf' →
  (role rf' ≠ Follower → votedFor rf' = i) ∧ (role rf' = Leader → won s i (currentTerm rf')).
Proof.
  intros Hinv Hi Hfr [Hr|[Hr Ht]]; [by rewrite Hr|]. rewrite Hr, Ht.
  rewrite (fr_vote _ _ Hfr Ht). split; [apply (inv_node _ Hinv _ _ Hi)|by apply (inv_leader _ Hinv)].
Qed.

Lemma inv_reply s l1 e j reply l2 el rf rf' count sp :
  inv s → replies s = l1 ++ (e, j, reply) :: l2 → elections s !! e = Some el →
  nodes s !! el_owner el = Some rf →
  (role rf = Candidate → vr_VoteGranted reply = true → same_term rf el) →
  handleVote reply (el_count el) rf = Ok (rf', count, sp) →
  inv {| size := size s; nodes := <[el_owner el := rf']> (nodes s); phases := phases s;
         elections := <[e := count_vote j count el]> (elections s);
         requests := requests s; replies := l1 ++ l2 |}.
Proof.
  intros Hinv Hrp He Hrf Hcounts Hhv.
  apply handleVote_cases in Hhv as [Hfr [(-> & Hrole & _)|(-> & Hc & Hg & Ht & Hrole)]].
  - rewrite count_vote_same, list_insert_id by done.
    assert (inv (set_net (requests s) (l1 ++ l2) s)) as Hinv'.
    { apply inv_lose; [done| |]; unfold flying; rewrite Hrp; [|set_solver].
      rewrite !fmap_app, fmap_cons. apply submseteq_skips_l, submseteq_skips_l. by apply submseteq_cons. }
    destruct (role_frame_owner _ _ _ _ Hinv' Hrf Hfr Hrole) as [H1 H2].
    by apply (inv_set_node (set_net (requests s) (l1 ++ l2) s) _ rf).
  - assert (inv (counted e el j (l1 ++ l2) s)) as Hinv'.
    { eapply inv_counted; try done. by apply Hcounts. }
    apply (inv_set_node (counted e el j (l1 ++ l2) s) _ rf); try done.
    + intros _. rewrite (fr_vote _ _ Hfr Ht). apply (inv_node _ Hinv _ _ Hrf). by rewrite Hc.
    + intros Hl. destruct Hrole as [Hr|[_ Hmaj]]; [congruence|].
      exists e, (count_vote j (el_count el + 1) el).
      split; [cbn; apply list_lookup_insert_eq; by eapply lookup_lt_Some|].
      rewrite count_vote_voters. split_and!; [done| |done|].
      * rewrite Ht. symmetry. by apply Hcounts.
      * cbn. by rewrite <-(no_npeers _ _ _ (inv_node _ Hinv _ _ Hrf)).
Qed.

Lemma winv_step s l s' : inv s → cluster_step same_term saved_crash local_step s l s' → inv s'.
Proof.
  intros Hinv Hstep. destruct Hstep as
    [s i rf rf' sp Hi Hph Hst|s i rf args Hi Hph Hgen|s i rf Hi Hph
    |s l1 e j l2 el rf now rf' reply sp Hrq He Hj Hrv|s l1 m l2 Hrq
    |s l1 e j reply l2 el rf rf' count sp Hrp He Hl Hj Hc Hhv|s l1 m l2 Hrp
    |s i rf rf' Hi Hls|s i rf now rf' Hi Hph HM].
  - by apply (inv_start s i rf rf' sp).
  - by apply (inv_asked s i rf).
  - by apply (inv_persist s i rf).
  - by apply (inv_request s l1 e j l2 el rf now rf' reply sp).
  - apply (inv_lose s (l1 ++ l2) (replies s)); [done| |done]. unfold flying. rewrite Hrq.
    apply submseteq_skips_r, submseteq_skips_l. by apply submseteq_cons.
  - by apply (inv_reply s l1 e j reply l2 el rf rf' count sp).
  - apply (inv_lose s (requests s) (l1 ++ l2)); [done| |rewrite Hrp; set_solver]. unfold flying. rewrite Hrp.
    rewrite !fmap_app, fmap_cons. apply submseteq_skips_l, submseteq_skips_l. by apply submseteq_cons.
  - destruct (local_step_frame _ _ Hls) as [Hfr Hrole].
    destruct (role_frame_owner _ _ _ _ Hinv Hi Hfr Hrole). by apply (inv_set_node s i rf rf').
  - by apply (inv_restart s i rf now rf').
Qed.

(** ** Leaders *)

(** What has been won stays won: elections only gain votes. *)
Lemma won_step s l s' i t :
  cluster_step same_term saved_crash local_step s l s' → won s i t → size s' = size s ∧ won s' i t.
Proof.
  intros Hstep (e & el & He & Ho & Ht & Hne & Hc).
  assert (∀ s'' : cluster, size s'' = size s →
    (∃ el', elections s'' !! e = Some el' ∧ el_owner el' = el_owner el ∧ el_term el' = el_term el ∧
       el_voters el' ≠ [] ∧ el_count el ≤ el_count el') → size s'' = size s ∧ won s'' i t) as Hdone.
  { intros s'' Hsz (el' & He' & Ho' & Ht' & Hne' & Hc'). split; [done|]. exists e, el'.
    rewrite Hsz. split_and!; congruence || lia || done. }
  destruct Hstep as [ | | | | |s l1 e1 j reply l2 el1 rf rf' count sp Hrp He1 Hl Hj Hcs Hhv| | |];
    apply Hdone; try done; cbn; try (by exists el).
  - exists el. split_and!; try done. by apply lookup_app_l_Some.
  - destruct (decide (e1 = e)) as [->|Hee]; [|exists el; by rewrite list_lookup_insert_ne].
    rewrite He in He1. injection He1 as <-. exists (count_vote j count el).
    rewrite list_lookup_insert_eq by (by eapply lookup_lt_Some).
    apply handleVote_cases in Hhv as [_ [(-> & _)|(-> & _)]]; (split_and!; try done; try (cbn; lia)).
    + cbn. by rewrite decide_True.
    + by rewrite count_vote_voters.
  - exists (kill i0 el). unfold kill_elections. by rewrite list_lookup_fmap, He.
Qed.

Lemma won_run s tr s' i t :
  run (cluster_step same_term saved_crash local_step) s tr s' → won s i t → won s' i t.
Proof.
  induction 1 as [|s l s1 tr s' Hs Hr IH]; [done|]. intros Hw. apply IH. by eapply won_step.
Qed.

(** C4. Under two rules that the source does not keep, a term has at most one
    leader, ever: if a vote is only counted in the term it was asked for
    ([same_term]; the source counts it in any, [stale_votes_two_leaders]), and
    no server crashes between the requests of its election and the first save
    of the election's term and vote ([saved_crash]; the source saves them in a
    deferred call, [unsaved_vote_two_leaders]), then two peers that are leaders
    of the same term, at the same or at different moments of a run with any
    losses, delays, reorderings, restarts and requests of any kind, are the
    same peer. *)
Theorem election_safety n tr1 s1 tr2 s2 i1 i2 rf1 rf2 :
  run (cluster_step same_term saved_crash local_step) (cluster_init n) tr1 s1 →
  run (cluster_step same_term saved_crash local_step) s1 tr2 s2 →
  nodes s1 !! i1 = Some rf1 → role rf1 = Leader →
  nodes s2 !! i2 = Some rf2 → role rf2 = Leader →
  currentTerm rf1 = currentTerm rf2 → i1 = i2.
Proof.
  intros Hr1 Hr2 Hi1 Hl1 Hi2 Hl2 Ht.
  assert (inv s1) as Hinv1 by (eapply (run_invariant _ inv); [apply winv_step|done|apply winv_init]).
  assert (inv s2) as Hinv2 by (by eapply (run_invariant _ inv); [apply winv_step|done|]).
  apply (won_unique s2 _ _ (currentTerm rf2)); [done| |by apply (inv_leader _ Hinv2)].
  eapply won_run; [done|]. rewrite <-Ht. by apply (inv_leader _ Hinv1).
Qed.

(** ** Scripted runs *)
Inductive move :=
  | MStart (i : Z)      (* a timeout at [i] *)
  | MGen (i : Z)
  | MPersist (i : Z)
  | MRequest (k : nat)  (* deliver the [k]-th request in flight *)
  | MReply (k : nat).   (* deliver the [k]-th reply in flight *)

Section Script.
Context (counts : Raft → election → Prop) {counts_dec : ∀ rf el, Decision (counts rf el)}.

Definition from_ok {A} (m : outcome A) : option A :=
  match m with Ok a => Some a | Panic => None end.

Definition exec (m : move) s : option cluster :=
  match m with
  | MStart i =>
      rf ← nodes s !! i;
      if decide (phases s !! i = None) then
        '(rf', _) ← from_ok (startElection rf);
        Some (set_phase i (Some InGen) (set_node i rf' s))
      else None
  | MGen i =>
      rf ← nodes s !! i;
      if decide (phases s !! i = Some InGen) then
        args ← from_ok (genRequestVoteArgs rf); Some (asked s i args)
      else None
  | MPersist i =>
      rf ← nodes s !! i;
      if decide (phases s !! i = Some InPersist) then
        Some (set_phase i None (set_node i (persist rf) s))
      else None
  | MRequest k =>
      '(e, j) ← requests s !! k;
      el ← elections s !! e;
      rf ← nodes s !! j;
      '(rf', reply, _) ← from_ok (RequestVote 0 (el_args el) rf);
      Some (set_net (take k (requests s) ++ drop (S k) (requests s)) ((e, j, reply) :: replies s)
              (set_node j rf' s))
  | MReply k =>
      '(e, j, reply) ← replies s !! k;
      el ← elections s !! e;
      rf ← nodes s !! el_owner el;
      if decide (el_live el = true ∧
                 (role rf = Candidate → vr_VoteGranted reply = true → counts rf el)) then
        '(rf', count, _) ← from_ok (handleVote reply (el_count el) rf);
        Some {| size := size s; nodes := <[el_owner el := rf']> (nodes s); phases := phases s;
                elections := <[e := count_vote j count el]> (elections s);
                requests := requests s;
                replies := take k (replies s) ++ drop (S k) (replies s) |}
      else None
  end.

Definition exec_all (ms : list move) s : option cluster :=
  foldl (λ acc m, s ← acc; exec m s) (Some s) ms.

Lemma from_ok_Some {A} (m : outcome A) a : from_ok m = Some a → m = Ok a.
Proof. destruct m; cbn; congruence. Qed.

Lemma exec_sound crashes local m s s' : exec m s = Some s' → cluster_step counts crashes local s None s'.
Proof.
  destruct m as [i|i|i|k|k]; cbn [exec]; intros H.
  - apply bind_Some in H as (rf & Hi & H). case_decide as Hph; [|done].
    apply bind_Some in H as ([rf' sp] & Hst%from_ok_Some & [= <-]). exact (cs_start counts crashes local s i rf rf' sp Hi Hph Hst).
  - apply bind_Some in H as (rf & Hi & H). case_decide as Hph; [|done].
    apply bind_Some in H as (args & Hg%from_ok_Some & [= <-]). exact (cs_gen counts crashes local s i rf args Hi Hph Hg).
  - apply bind_Some in H as (rf & Hi & H). case_decide as Hph; [|done].
    injection H as <-. exact (cs_persist counts crashes local s i rf Hi Hph).
  - apply bind_Some in H as ([e j] & Hrq & H). apply bind_Some in H as (el & He & H).
    apply bind_Some in H as (rf & Hj & H).
    apply bind_Some in H as ([[rf' reply] sp] & Hrv%from_ok_Some & [= <-]).
    refine (cs_request counts crashes local s _ e j _ el rf 0 rf' reply sp _ He Hj Hrv).
    symmetry. by apply take_drop_middle.
  - apply bind_Some in H as ([[e j] reply] & Hrp & H). apply bind_Some in H as (el & He & H).
    apply bind_Some in H as (rf & Hj & H). case_decide as Hc; [|done]. destruct Hc as [Hl Hc].
    apply bind_Some in H as ([[rf' count] sp] & Hhv%from_ok_Some & [= <-]).
    refine (cs_reply counts crashes local s _ e j reply _ el rf rf' count sp _ He Hl Hj Hc Hhv).
    symmetry. by apply take_drop_middle.
Qed.

Lemma exec_all_sound crashes local ms s s' : exec_all ms s = Some s' → run (cluster_step counts crashes local) s [] s'.
Proof.
  revert s. induction ms as [|m ms IH]; intros s; cbn.
  { intros [= <-]. constructor. }
  intros H. destruct (exec m s) as [s1|] eqn:Hm.
  - eapply run_tau; [by eapply exec_sound|by apply IH].
  - exfalso. cut (foldl (λ acc m, s ← acc; exec m s) None ms = None); [congruence|].
    clear. induction ms; cbn; auto.
Qed.
End Script.

(** A delayed vote for term 1, and an election in term 2 meanwhile. *)
Definition stale_vote_script : list move :=
  [ MStart 0; MGen 0; MPersist 0;
    MRequest 1;                      (* 2 votes for 0 in term 1; the reply is delayed *)
    MStart 0; MGen 0; MPersist 0;    (* 0 times out and goes to term 2 *)
    MStart 1; MGen 1; MPersist 1; MStart 1; MGen 1; MPersist 1;
    MRequest 6; MReply 0;            (* 2 votes for 1 in term 2: 1 leads it *)
    MReply 0 ].                      (* 0 counts the vote of term 1 *)

(** C14. The source counts a granted vote for any candidate, whatever term the
    vote was for: in a cluster of three, without crashes or duplicated
    messages, two peers become leaders of term 2. *)
Theorem stale_votes_two_leaders :
  ∃ s rf0 rf1, run (cluster_step any_vote no_crash local_step) (cluster_init 3) [] s ∧
    nodes s !! 0 = Some rf0 ∧ role rf0 = Leader ∧ currentTerm rf0 = 2 ∧
    nodes s !! 1 = Some rf1 ∧ role rf1 = Leader ∧ currentTerm rf1 = 2.
Proof.
  destruct (exec_all any_vote (counts_dec := λ _ _, left I) stale_vote_script (cluster_init 3)) as [s|] eqn:Hs;
    [|by vm_compute in Hs].
  apply (exec_all_sound _ no_crash local_step) in Hs as Hrun. vm_compute in Hs. injection Hs as <-.
  do 3 eexists. split; [exact Hrun|]. by vm_compute.
Qed.
End Safety.

(** ** A run to apply the theorem to *)
Section Scenario.
Local Instance z_gob : Gob Z := countable_Gob Z.

#[local] Instance same_term_dec (rf : Raft Z) el : Decision (same_term rf el).
Proof. unfold same_term. apply _. Defined.

(** Server 0 is elected, and elected again in the next term. *)
Definition elected_once : list move := [MStart 0; MGen 0; MPersist 0; MRequest 0; MReply 0].

Definition after (ms : list move) (s : cluster Z) : cluster Z := default s (exec_all same_term ms s).

Lemma after_run ms s : is_Some (exec_all same_term ms s) → run (cluster_step same_term saved_crash local_step) s [] (after ms s).
Proof. intros [s' Hs]. unfold after. rewrite Hs. by eapply exec_all_sound. Qed.

Lemma election_safety_witness :
  ∃ rf : Raft Z, nodes (after elected_once (cluster_init 3)) !! 0 = Some rf ∧ role rf = Leader ∧
    ∀ i rf', nodes (after [MRequest 0; MReply 0] (after elected_once (cluster_init 3))) !! i = Some rf' →
      role rf' = Leader → currentTerm rf = currentTerm rf' → 0 = i.
Proof.
  set (s := after elected_once (cluster_init 3)).
  destruct (nodes s !! 0) as [rf|] eqn:Hrf; [|by vm_compute in Hrf].
  assert (role rf = Leader) as Hl by (vm_compute in Hrf; injection Hrf as <-; reflexivity).
  exists rf. split; [reflexivity|]. split; [exact Hl|]. intros i rf' Hi Hl' Ht.
  refine (election_safety 3 [] s [] (after [MRequest 0; MReply 0] s) 0 i rf rf' _ _ Hrf Hl Hi Hl' Ht);
    apply after_run; vm_compute; by eexists.
Defined.

Lemma stale_votes_two_leaders_witness :
  ∃ (s : cluster Z) rf0 rf1, run (cluster_step any_vote no_crash local_step) (cluster_init 3) [] s ∧
    nodes s !! 0 = Some rf0 ∧ role rf0 = Leader ∧ currentTerm rf0 = 2 ∧
    nodes s !! 1 = Some rf1 ∧ role rf1 = Leader ∧ currentTerm rf1 = 2.
Proof. exact stale_votes_two_leaders. Defined.
End Scenario.
