(* ===== verification/RaftTypes.v ===== *)
(** * Raft: the well-formedness of every peer of a running cluster

    [peer_ok] of [RaftPeer] is what the handlers need not to panic.  Its parts
    that the handlers alone maintain, whatever messages arrive, are collected
    in [peer_typed]: the peer's number and the cluster's size never change, the
    two index tables have one entry per peer, and the channel of a leader is
    open.  [typed_frame] is what each function does to them; [peers_typed]
    follows by induction on the run of the cluster of [RaftElection], crashes
    and restarts included.  [terms_ok]: no term, in memory or on disk, is
    negative. *)
From S2P Require Import Prelude GoLib Raft RaftPeer RaftElection ElectionSafety.
Local Open Scope Z_scope.

Section Types.
Context {Cmd : Type} `{!Gob Cmd}.
Local Abbreviation Raft := (Raft Cmd).
Local Abbreviation cluster := (cluster Cmd).
Implicit Types (rf : Raft) (s : cluster).

Definition chan_ok rf : Prop := role rf = Leader → heartChan rf = ChanOpen.

Record peer_typed (n i : Z) rf : Prop := {
  ty_me : me rf = i;
  ty_npeers : npeers rf = n;
  ty_next : go_len (nextIndex rf) = n;
  ty_match : go_len (matchIndex rf) = n;
  ty_chan : chan_ok rf;
}.

Definition cluster_typed s : Prop :=
  0 ≤ size s ∧ ∀ i rf, nodes s !! i = Some rf → peer_typed (size s) i rf.

(** ** Every function of a peer keeps it typed *)
Record typed_frame rf rf' : Prop := {
  tf_me : me rf' = me rf;
  tf_npeers : npeers rf' = npeers rf;
  tf_next : go_len (nextIndex rf') = go_len (nextIndex rf);
  tf_match : go_len (matchIndex rf') = go_len (matchIndex rf);
  tf_chan : chan_ok rf → chan_ok rf';
}.

#[export] Instance typed_frame_preorder : PreOrder typed_frame.
Proof.
  split; [by intros rf; split|].
  intros rf1 rf2 rf3 [? ? ? ? H1] [? ? ? ? H2]. split; try congruence. auto.
Qed.

Lemma typed_frame_typed n i rf rf' : typed_frame rf rf' → peer_typed n i rf → peer_typed n i rf'.
Proof. intros [? ? ? ? H] [? ? ? ? ?]. split; try congruence. auto. Qed.

(** A change of fields that [peer_typed] does not read. *)
Definition same_typed rf rf' : Prop :=
  me rf' = me rf ∧ npeers rf' = npeers rf ∧ nextIndex rf' = nextIndex rf ∧
  matchIndex rf' = matchIndex rf ∧ role rf' = role rf ∧ heartChan rf' = heartChan rf.

Lemma same_typed_frame rf rf' : same_typed rf rf' → typed_frame rf rf'.
Proof.
  intros (? & ? & Hn & Hm & Hr & Hh). split; unfold chan_ok; rewrite ?Hn, ?Hm, ?Hr, ?Hh; done.
Qed.

Local Ltac same := apply same_typed_frame; repeat case_decide; by split_and!.

Lemma convertRole_typed r rf rf' sp : convertRole r rf = Ok (rf', sp) → typed_frame rf rf'.
Proof.
  destruct r; cbn.
  - case_decide; [destruct (heartChan rf); [done| |done]|]; intros [= <- _]; by split.
  - intros [= <- _]. by split.
  - intros [= <- _]. split; cbn; try done; unfold go_len; by rewrite length_fmap.
Qed.

Lemma step_down_typed t rf rf' sp : step_down t rf = Ok (rf', sp) → typed_frame rf rf'.
Proof.
  unfold step_down. intros H. apply bind_Ok in H as ([rf1 sp1] & Hc & [= <- _]).
  apply convertRole_typed in Hc. transitivity (set_currentTerm t rf); [same|].
  transitivity rf1; [done|same].
Qed.

Lemma append_log_typed args rf rf' reply sp :
  append_log args rf = Ok (rf', reply, sp) → typed_frame rf rf'.
Proof.
  unfold append_log. case_decide; [by intros [= <- _ _]|].
  clear. intros H. apply bind_Ok in H as ([t|] & _ & H); apply bind_Ok in H as (x & _ & H).
  - by injection H as <- _ _.
  - case_decide; injection H as <- _ _; same.
Qed.

Lemma AppendEntries_typed now args rf rf' reply sp :
  AppendEntries now args rf = Ok (rf', reply, sp) → typed_frame rf rf'.
Proof.
  unfold AppendEntries. case_decide; [intros [= <- _ _]; same|]. clear.
  intros H. apply bind_Ok in H as ([rf1 sp1] & Hc & H).
  apply bind_Ok in H as ([[rf2 reply2] sp2] & Ha & [= <- _ _]).
  transitivity rf1; [by eapply convertRole_typed|].
  apply append_log_typed in Ha. transitivity rf2; [|same].
  etransitivity; [|exact Ha]. same.
Qed.

Lemma InstallSnapshot_typed now args rf rf' reply sp :
  InstallSnapshot now args rf = Ok (rf', reply, sp) → typed_frame rf rf'.
Proof.
  unfold InstallSnapshot. case_decide; [by intros [= <- _ _]|]. clear.
  intros H. apply bind_Ok in H as ([[rf1 t] sp1] & Hc & H).
  assert (typed_frame rf rf1) as H1.
  { clear H. destruct (decide (currentTerm rf < ia_Term args)); [|by injection Hc as <- _ _].
    apply bind_Ok in Hc as ([rf2 sp2] & Hc & [= <- _ _]).
    transitivity rf2; [by eapply convertRole_typed|same]. }
  transitivity rf1; [done|]. case_decide; [injection H as <- _ _; same|].
  apply bind_Ok in H as (lg & _ & [= <- _ _]).
  destruct (decide (commitIndex _ < _)); same.
Qed.

Lemma handleAppendEntries_typed now server args reply rf rf' sp :
  handleAppendEntries now server args reply rf = Ok (rf', sp) → typed_frame rf rf'.
Proof.
  unfold handleAppendEntries. case_decide; [intros [= <- _]; same|].
  case_decide.
  { intros Heq. apply bind_Ok in Heq as ([rf1 sp1] & Hs & [= <- _]).
    apply step_down_typed in Hs. transitivity (set_lastUpdate now rf); [same|].
    transitivity rf1; [done|same]. }
  clear. destruct (ar_Success reply); intros H.
  - apply bind_Ok in H as (nx & Hn & H). apply bind_Ok in H as (mt & Hm & H).
    apply bind_Ok in H as ([rf1 sp1] & Hs & [= <- _]).
    apply commit_scan_frame in Hs as [c ->].
    apply go_len_set in Hn, Hm. by split.
  - apply bind_Ok in H as (rf1 & Hs & [= <- _]).
    assert (∃ l, rf1 = set_nextIndex l (set_lastUpdate now rf) ∧
                 go_len l = go_len (nextIndex rf)) as (l & -> & Hl); [|by split].
    unfold append_failed in Hs. repeat case_decide; inv_ok.
    2: { apply go_len_set in Hx. eauto. }
    destruct x1; inv_ok; subst; match goal with
      | H : go_set _ _ _ = Ok _ |- _ => apply go_len_set in H end; eauto.
Qed.

Lemma handleInstallSnapshot_typed now server args reply rf rf' sp :
  handleInstallSnapshot now server args reply rf = Ok (rf', sp) → typed_frame rf rf'.
Proof.
  unfold handleInstallSnapshot. case_decide; [by intros [= <- _]|].
  case_decide.
  { intros Heq. apply bind_Ok in Heq as ([rf1 sp1] & Hs & [= <- _]).
    apply step_down_typed in Hs. transitivity rf1; [done|same]. }
  clear. intros H. apply bind_Ok in H as (nx & _ & H). case_decide; [|by injection H as <- _].
  apply bind_Ok in H as (l & Hl & H). apply bind_Ok in H as (l' & Hl' & [= <- _]).
  apply go_len_set in Hl, Hl'. by split.
Qed.

Lemma condInstallSnapshot_typed t i rf rf' : condInstallSnapshot t i rf = Ok rf' → typed_frame rf rf'.
Proof. unfold condInstallSnapshot. intros H. inv_ok. subst rf'. same. Qed.

Lemma Snapshot_typed index snap rf rf' : Snapshot index snap rf = Ok rf' → typed_frame rf rf'.
Proof.
  unfold Snapshot. case_decide; [by intros [= <-]|]. clear. intros H. inv_ok. subst rf'. same.
Qed.

Lemma local_step_typed rf rf' : local_step rf rf' → typed_frame rf rf'.
Proof.
  destruct 1; eauto using AppendEntries_typed, InstallSnapshot_typed, handleAppendEntries_typed,
    handleInstallSnapshot_typed, Snapshot_typed, condInstallSnapshot_typed; try same.
Qed.

Lemma RequestVote_typed now args rf rf' reply sp :
  RequestVote now args rf = Ok (rf', reply, sp) → typed_frame rf rf'.
Proof.
  unfold RequestVote. case_decide; [intros [= <- _ _]; same|].
  case_decide; [intros [= <- _ _]; same|]. clear. intros H.
  apply bind_Ok in H as ([rf1 sp1] & Hs & H).
  assert (typed_frame rf rf1) as H1.
  { case_decide; [by eapply step_down_typed|by injection Hs as <- _]. }
  transitivity rf1; [done|]. apply bind_Ok in H as ([] & _ & [= <- _ _]); same.
Qed.

Lemma startElection_Ok rf :
  startElection rf = Ok (set_votedFor (me rf) (set_currentTerm (currentTerm rf + 1)
    (set_role Candidate rf)), []).
Proof. done. Qed.

Lemma handleVote_typed reply count rf rf' count' sp :
  handleVote reply count rf = Ok (rf', count', sp) → typed_frame rf rf'.
Proof.
  unfold handleVote. case_decide.
  - case_decide; [|by intros [= <- _ _]].
    intros Heq. apply bind_Ok in Heq as ([rf1 sp1] & Hs & [= <- _ _]). by eapply convertRole_typed.
  - case_decide; [|by intros [= <- _ _]].
    intros Heq. apply bind_Ok in Heq as ([rf1 sp1] & Hs & [= <- _ _]). by eapply step_down_typed.
Qed.

Lemma readPersist_typed data rf rf' : readPersist data rf = Ok rf' → typed_frame rf rf'.
Proof.
  unfold readPersist. case_decide; [by intros [= <-]|].
  destruct (gob_decode data) as [[[[[? ?] ?] ?] ?]|]; [|done]. intros [= <-]. same.
Qed.

Lemma Make_typed n i ps now rf : 0 ≤ n → Make n i ps now = Ok rf → peer_typed n i rf.
Proof.
  intros Hn Hm. unfold Make in Hm. apply bind_Ok in Hm as (rf1 & Hr & [= <-]).
  apply readPersist_typed in Hr.
  eapply typed_frame_typed; [unfold readSnapshotPersist; case_decide; [reflexivity|same]|].
  eapply typed_frame_typed; [exact Hr|].
  split; cbn; unfold go_len; rewrite ?length_replicate; try done; lia.
Qed.

(** ** The cluster *)
Lemma cluster_typed_set s s' i rf :
  cluster_typed s → size s' = size s → nodes s' = <[i := rf]> (nodes s) →
  peer_typed (size s) i rf → cluster_typed s'.
Proof.
  intros [Hn Hs] Hsz Hnd Hrf. unfold cluster_typed. rewrite Hsz, Hnd. split; [done|].
  intros j rf'. destruct (decide (j = i)) as [->|].
  - rewrite lookup_insert_eq. by intros [= <-].
  - rewrite lookup_insert_ne by done. apply Hs.
Qed.

Lemma cluster_typed_step counts crashes s l s' :
  cluster_typed s → cluster_step counts crashes local_step s l s' → cluster_typed s'.
Proof.
  intros Hty Hstep. pose proof (proj2 Hty) as Hall. destruct Hstep.
  1,3,4,6,8: eapply cluster_typed_set; [exact Hty|done|done|].
  all: try (eapply typed_frame_typed; [|by eapply Hall]).
  - rewrite startElection_Ok in H1. injection H1 as <- _. by split.
  - same.
  - by eapply RequestVote_typed.
  - by eapply handleVote_typed.
  - by apply local_step_typed.
  - done.
  - done.
  - done.
  - eapply cluster_typed_set; [exact Hty|done|done|]. eapply Make_typed; [apply Hty|done].
Qed.

Lemma cluster_typed_init n : 0 ≤ n → cluster_typed (cluster_init n).
Proof.
  intros Hn. split; [done|]. intros i rf. unfold cluster_init; cbn. rewrite lookup_map_on.
  case_decide; [|done]. intros [= <-]. eapply (Make_typed n i MakePersister 0); [done|].
  apply first_boot_Make.
Qed.

(** ** Terms are not negative *)
Definition term_ok (rf : Raft) : Prop := 0 ≤ currentTerm rf ∧ 0 ≤ (saved rf).1.

Definition terms_ok (s : cluster) : Prop := ∀ i rf, nodes s !! i = Some rf → term_ok rf.

Lemma term_ok_frame rf rf' :
  currentTerm rf ≤ currentTerm rf' → persister rf' = persister rf ∨ persister rf' = persister (persist rf') →
  term_ok rf → term_ok rf'.
Proof.
  intros Ht Hp [H1 H2]. split; [lia|]. destruct Hp as [Hp|Hp].
  - by rewrite (saved_same _ _ Hp).
  - rewrite (saved_persisted _ Hp). cbn. lia.
Qed.

Lemma terms_set (s s' : cluster) i rf rf' :
  terms_ok s → nodes s !! i = Some rf → nodes s' = <[i := rf']> (nodes s) →
  (term_ok rf → term_ok rf') → terms_ok s'.
Proof.
  intros Hok Hi Hn Hrf j rfj. rewrite Hn. intros [[<- <-]|[_ Hj]]%lookup_insert_Some; [|by eapply Hok].
  apply Hrf. by eapply Hok.
Qed.

Lemma terms_step counts crashes (s : cluster) l s' :
  terms_ok s → cluster_step counts crashes local_step s l s' → terms_ok s'.
Proof.
  intros Hok Hstep. destruct Hstep as
    [s i rf rf' sp Hi Hph Hst|s i rf args Hi Hph Hgen|s i rf Hi Hph
    |s l1 e j l2 el rf now rf' reply sp Hrq He Hj Hrv|s l1 m l2 Hrq
    |s l1 e j reply l2 el rf rf' count sp Hrp He Hl Hj Hc Hhv|s l1 m l2 Hrp
    |s i rf rf' Hi Hls|s i rf now rf' Hi Hph HM]; try done.
  - eapply terms_set; [done|done|done|]. apply term_ok_frame;
      unfold startElection in Hst; cbn in Hst; injection Hst as <- <-; cbn; [lia|by left].
  - eapply terms_set; [done|done|done|]. apply term_ok_frame; [done|by right].
  - eapply terms_set; [done|done|done|]. apply RequestVote_frame in Hrv as (_ & _ & Ht & Hp & _).
    apply term_ok_frame; [lia|by right].
  - eapply terms_set; [done|done|done|]. apply handleVote_cases in Hhv as [[_ _ Ht _ Hp] _].
    by apply term_ok_frame.
  - eapply terms_set; [done|done|done|]. apply local_step_frame in Hls as [[_ _ Ht _ Hp] _].
    by apply term_ok_frame.
  - eapply terms_set; [done|done|done|]. apply Make_saved in HM as (_ & _ & _ & Hs & Hp).
    intros [_ H2]. rewrite <-Hs in H2. split; [done|]. by rewrite (saved_same _ _ Hp), <-Hs.
Qed.

Lemma terms_init n : terms_ok (cluster_init n).
Proof.
  intros i rf Hi. cbn in Hi. rewrite lookup_map_on in Hi. case_decide; [|done]. injection Hi as <-.
  split; [done|]. by rewrite saved_first.
Qed.

(** ** What a typed peer can do *)
Lemma typed_convertRole r rf : chan_ok rf → is_ok (convertRole r rf).
Proof.
  intros Hc. destruct r; cbn; [|by eexists|by eexists].
  case_decide as Hr; [rewrite (Hc Hr)|]; by eexists.
Qed.

Lemma typed_step_down t rf : chan_ok rf → is_ok (step_down t rf).
Proof.
  intros Hc. unfold step_down.
  destruct (typed_convertRole Follower (set_currentTerm t rf)) as [[rf1 sp] ->]; [done|]. by eexists.
Qed.

Lemma typed_handleVote reply count rf : chan_ok rf → is_ok (handleVote reply count rf).
Proof.
  intros Hc. unfold handleVote. case_decide; [case_decide|case_decide]; try by eexists.
  destruct (typed_step_down (vr_Term reply) rf Hc) as [[rf1 sp] ->]. by eexists.
Qed.

(** The entries that [InstallSnapshot] keeps are there. *)
Lemma typed_InstallSnapshot now args rf : chan_ok rf → is_ok (InstallSnapshot now args rf).
Proof.
  intros Hc. unfold InstallSnapshot. case_decide; [by eexists|].
  assert (∃ x, (if decide (currentTerm rf < ia_Term args) then
                  '(rf, sp) ← convertRole Follower rf;
                  Ok (set_lastUpdate now (set_currentTerm (ia_Term args) (set_votedFor (-1) rf)),
                      ia_Term args, sp)
                else Ok (rf, 0, [])) = Ok x) as [[[rf1 t] sp1] ->]; cbn [mbind outcome_bind].
  { case_decide; [|by eexists]. destruct (typed_convertRole Follower rf Hc) as [[rf1 sp] ->]. by eexists. }
  case_decide as Hnews; [by eexists|]. case_decide as Hlast; cbn [mbind outcome_bind]; [by eexists|].
  unfold getLastLogicalIndex, convertToStorageIndex in *.
  unfold go_from. rewrite decide_True by lia. cbn [mbind outcome_bind].
  unfold go_set. rewrite decide_True; [by eexists|].
  unfold go_len in *. rewrite length_drop. lia.
Qed.

Lemma typed_handleInstallSnapshot n i now server args reply rf :
  peer_typed n i rf → 0 ≤ server < n → is_ok (handleInstallSnapshot now server args reply rf).
Proof.
  intros [_ _ Hn Hm Hc] Hi. unfold handleInstallSnapshot. case_decide; [by eexists|].
  case_decide.
  { destruct (typed_step_down (ir_Term reply) rf Hc) as [[rf1 sp] ->]. by eexists. }
  destruct (go_index_in_range (nextIndex rf) server) as [next ->]; [lia|]. cbn [mbind outcome_bind].
  case_decide; [|by eexists]. unfold go_set. rewrite !decide_True by lia. by eexists.
Qed.

(** C23. The well-formedness of the peers of a running cluster: in every state
    that a cluster of [n] peers reaches, whatever messages, losses, crashes and
    restarts there were, and whether stale votes are counted or not, a peer has
    kept its number and the cluster's size, its [nextIndex] and [matchIndex]
    have [n] entries each, and a leader's [heartChan] is open.  So changing
    role, stepping down, counting a vote, installing a snapshot and handling a
    snapshot's reply from any peer of the cluster never panic there, on any
    arguments; and a peer with a non-empty log is [peer_ok]. *)
Theorem peers_typed counts crashes n tr s i rf :
  0 ≤ n →
  run (cluster_step counts crashes local_step) (cluster_init n) tr s →
  nodes s !! i = Some rf →
  peer_typed n i rf ∧
  (∀ r, is_ok (convertRole r rf)) ∧
  (∀ t, is_ok (step_down t rf)) ∧
  (∀ reply count, is_ok (handleVote reply count rf)) ∧
  (∀ now args, is_ok (InstallSnapshot now args rf)) ∧
  (∀ now server args reply, 0 ≤ server < n →
    is_ok (handleInstallSnapshot now server args reply rf)) ∧
  (logs rf ≠ [] → peer_ok rf).
Proof.
  intros Hn Hr Hi.
  assert (cluster_typed s) as [_ Hs].
  { eapply (run_invariant _ cluster_typed); [by intros; eapply cluster_typed_step|done|].
    by apply cluster_typed_init. }
  assert (size s = n) as Hsz.
  { eapply (run_invariant _ (λ s, size s = n)); [|exact Hr|done]. intros ? ? ? <- []; done. }
  specialize (Hs i rf Hi). rewrite Hsz in Hs. pose proof (ty_chan _ _ _ Hs) as Hc.
  split_and!; eauto using typed_convertRole, typed_step_down, typed_handleVote,
    typed_InstallSnapshot, typed_handleInstallSnapshot.
  intros Hl. destruct Hs. by split; [|congruence|congruence|].
Qed.
End Types.

(** The leader of [elected_once], the run of [ElectionSafety]. *)
#[local] Existing Instance z_gob.

Lemma peers_typed_witness :
  ∃ rf : Raft Z, nodes (after elected_once (cluster_init 3)) !! 0 = Some rf ∧
    role rf = Leader ∧ peer_typed 3 0 rf ∧ is_ok (convertRole Follower rf) ∧ peer_ok rf.
Proof.
  set (s := after elected_once (cluster_init 3)).
  destruct (nodes s !! 0) as [rf|] eqn:Hrf; [|by vm_compute in Hrf].
  assert (role rf = Leader ∧ logs rf ≠ []) as [Hl Hlog].
  { vm_compute in Hrf. injection Hrf as <-. by split. }
  destruct (peers_typed same_term saved_crash 3 [] s 0 rf) as (Ht & Hc & _ & _ & _ & _ & Hok);
    [lia|apply after_run; vm_compute; by eexists|exact Hrf|].
  exists rf. split; [reflexivity|]. split; [exact Hl|]. split; [exact Ht|].
  split; [exact (Hc Follower)|exact (Hok Hlog)].
Defined.
