(* ===== verification/RaftCrash.v ===== *)
(** * Raft: a crash while an election starts

    [startElection] gives up its lock, sends the vote requests, and only then,
    in a deferred call, saves the new term and the vote for itself.
    [ElectionSafety] excludes crashes in between ([saved_crash]); here is what
    they do in the cluster that crashes at any moment ([any_crash]).
    [unsaved_vote_two_leaders]: a peer that has been elected before it
    saved anything forgets its vote in the crash, and gives it to another
    candidate of the same term, although votes are only counted in the term
    they were asked for. *)
From S2P Require Import Prelude GoLib Raft RaftPeer RaftElection ElectionSafety.
Local Open Scope Z_scope.

Section Crash.
Context {Cmd : Type} `{!Gob Cmd}.
Local Abbreviation Raft := (Raft Cmd).
Local Abbreviation cluster := (cluster Cmd).
Implicit Types (rf : Raft).

Definition restarted (i : Z) rf' (s : cluster) : cluster :=
  {| size := size s; nodes := <[i := rf']> (nodes s); phases := delete i (phases s);
     elections := kill_elections i (elections s); requests := requests s; replies := replies s |}.

Lemma run_any_crash counts crashes local s tr s' :
  run (cluster_step counts crashes local) s tr s' → run (cluster_step counts any_crash local) s tr s'.
Proof. induction 1; econstructor; [by eapply cluster_step_mono; [..|done]|done]. Qed.

(** What such a crash leaves of the peer: the term and the vote that were last
    saved. *)
Lemma crash_restores counts local s i rf s' :
  nodes s !! i = Some rf → cluster_step counts any_crash local s (Some i) s' →
  ∃ rf', nodes s' !! i = Some rf' ∧ role rf' = Follower ∧
    (currentTerm rf', votedFor rf') = saved rf ∧ phases s' !! i = None.
Proof.
  intros Hi Hs. inversion Hs as [| | | | | | | |? ? rf0 now rf' Hn _ Hm]; subst. simplify_eq.
  apply Make_saved in Hm as (Hr & _ & _ & Hv & _).
  exists rf'. cbn. by rewrite lookup_insert_eq, lookup_delete_eq.
Qed.
End Crash.

(** ** Two leaders of a term *)
Section Scenario.
#[local] Existing Instance z_gob.

(** Server 0 is elected while its [startElection] has not saved anything. *)
Definition elected_unsaved : list move := [MStart 0; MGen 0; MRequest 1; MReply 0].

(** After its crash it votes for server 1. *)
Definition elected_again : list move := [MStart 1; MGen 1; MRequest 1; MReply 0].

Definition crashed (i : Z) (s : cluster Z) : cluster Z :=
  match nodes s !! i with
  | Some rf => match Make (size s) i (persister rf) 0 with Ok rf' => restarted i rf' s | Panic => s end
  | None => s
  end.

Lemma crashed_step i s :
  is_Some (nodes s !! i) →
  (∀ rf, nodes s !! i = Some rf → is_ok (Make (size s) i (persister rf) 0)) →
  cluster_step same_term any_crash local_step s (Some i) (crashed i s).
Proof.
  intros [rf Hi] Hok. unfold crashed. rewrite Hi. destruct (Hok rf Hi) as [rf' Hm].
  rewrite Hm. by eapply cs_restart.
Qed.

(** C18. A vote that was not saved: in a cluster of three that counts votes in
    the term they were asked for, server 0 becomes the leader of term 1,
    crashes before [startElection] has saved the term and its vote, and,
    restarted, votes for server 1, which becomes the leader of term 1, too. *)
Theorem unsaved_vote_two_leaders :
  ∃ (s1 s2 : cluster Z) rf0 rf1,
    run (cluster_step same_term any_crash local_step) (cluster_init 3) [] s1 ∧
    nodes s1 !! 0 = Some rf0 ∧ role rf0 = Leader ∧ currentTerm rf0 = 1 ∧
    run (cluster_step same_term any_crash local_step) s1 [0] s2 ∧
    nodes s2 !! 1 = Some rf1 ∧ role rf1 = Leader ∧ currentTerm rf1 = 1.
Proof.
  set (s1 := after elected_unsaved (cluster_init 3)). set (s2 := after elected_again (crashed 0 s1)).
  destruct (nodes s1 !! 0) as [rf0|] eqn:H0; [|by vm_compute in H0].
  destruct (nodes s2 !! 1) as [rf1|] eqn:H1; [|by vm_compute in H1].
  assert (role rf0 = Leader ∧ currentTerm rf0 = 1) as [? ?] by (vm_compute in H0; by simplify_eq).
  assert (role rf1 = Leader ∧ currentTerm rf1 = 1) as [? ?] by (vm_compute in H1; by simplify_eq).
  exists s1, s2, rf0, rf1. split_and!; try done.
  - apply (run_any_crash _ saved_crash), after_run. vm_compute; by eexists.
  - eapply run_event; [apply crashed_step|apply (run_any_crash _ saved_crash), after_run; vm_compute; by eexists].
    + by rewrite H0.
    + rewrite H0. intros rf [= <-]. vm_compute in H0. simplify_eq. by eexists.
Qed.
End Scenario.
