(* ===== verification/RaftReplication.v ===== *)
(** * Raft: replication in a cluster

    The cluster of [RaftElection], with the goroutines and the calls that
    replicate the log: the heartbeats, [genAppendEntries], the role check and
    the call that follow it, the replies, [handleInstallSnapshot],
    [applyLogs] with its messages to the service, and [Start] with its two
    critical sections.  A goroutine or call that has not yet taken its next
    critical section is a [pending] item; [perform] is what it does next, on
    the peer it acts on.  Items are taken in any order; calls may be lost,
    and the goroutines of a peer end when it restarts.  The visible events
    are the messages that the peers send to their services.

    The step relation has three parameters: [counts] and [crashes] as in
    [RaftElection], and [allowed], for when an item may take its next step.
    With [any_vote], [any_crash] and [any_start] it is the source.  With [while_leader], [Start] only appends if the
    leadership found in its first section still holds.  With [orderly], in
    addition: a request leaves only in the term it was generated for, a
    request that is late does not cut entries of its own term, and a reply is
    only handled in the term of its request.  The services take no snapshots. *)
From S2P Require Import Prelude GoLib Raft RaftPeer RaftElection ElectionSafety.
Local Open Scope Z_scope.

Section Replication.
Context {Cmd : Type} `{!Gob Cmd}.
Local Abbreviation Raft := (Raft Cmd).
Local Abbreviation cluster := (cluster Cmd).
Local Abbreviation ApplyMsg := (ApplyMsg Cmd).
Implicit Types (rf : Raft).

(** ** Goroutines and calls *)
Inductive pending :=
  (* one server's goroutine of a heartbeat *)
  | TGen (i j : Z)
  | TCheck (i j : Z) (args : AppendEntriesArgs Cmd) (isSnapshot : bool)
  | MAppend (live : bool) (i j : Z) (args : AppendEntriesArgs Cmd)
  | MAppended (i j : Z) (args : AppendEntriesArgs Cmd) (reply : AppendEntriesReply)
  (* handleInstallSnapshot *)
  | TInstall (i j : Z)
  | TInstallCheck (i j : Z) (args : InstallSnapshotArgs)
  | MInstall (live : bool) (i j : Z) (args : InstallSnapshotArgs)
  | MInstalled (i j : Z) (args : InstallSnapshotArgs) (reply : InstallSnapshotReply)
  (* applyLogs *)
  | TApply (i : Z)
  | TCond (i : Z)
  | TDeliver (i : Z) (msgs : list ApplyMsg)
  | TApplied (i : Z) (msg : ApplyMsg) (msgs : list ApplyMsg)
  | TMsg (i : Z) (msg : ApplyMsg)
  (* Start *)
  | TStart (i : Z) (term : Z) (command : Cmd)
  | TPersist (i : Z).

(** The peer an item acts on next. *)
Definition site (p : pending) : Z :=
  match p with
  | MAppend _ _ j _ | MInstall _ _ j _ => j
  | TGen i _ | TCheck i _ _ _ | MAppended i _ _ _ | TInstall i _ | TInstallCheck i _ _
  | MInstalled i _ _ _ | TApply i | TCond i | TDeliver i _ | TApplied i _ _ | TMsg i _
  | TStart i _ _ | TPersist i => i
  end.

Definition is_call (p : pending) : bool :=
  match p with
  | MAppend _ _ _ _ | MAppended _ _ _ _ | MInstall _ _ _ _ | MInstalled _ _ _ _ => true
  | _ => false
  end.

(** When peer [i] restarts, its goroutines are gone; a request it has sent
    still arrives, but nobody waits for the answer. *)
Definition orphan (i : Z) (p : pending) : list pending :=
  match p with
  | MAppend live i' j args => [MAppend (live && negb (bool_decide (i' = i))) i' j args]
  | MInstall live i' j args => [MInstall (live && negb (bool_decide (i' = i))) i' j args]
  | _ => if decide (site p = i) then [] else [p]
  end.

(** The goroutines a handler of peer [i] starts; a heartbeat's loop is part
    of the step relation. *)
Definition spawned (i : Z) (sp : list (spawn Cmd)) : list pending :=
  sp ≫= λ g, match g with
             | SpawnApply => [TApply i]
             | SpawnHeartbeat => []
             | SpawnMsg msg => [TMsg i msg]
             end.

(** The next critical section of an item: the peer afterwards, what becomes of
    the item, and the message sent to the service. *)
Definition perform (now : Z) (p : pending) rf
    : outcome (Raft * list pending * option (Z * ApplyMsg)) :=
  match p with
  | TGen i j =>
      '(args, isSnapshot) ← genAppendEntries j rf;
      Ok (rf, [TCheck i j args isSnapshot], None)
  | TCheck i j args isSnapshot =>
      Ok (rf, if (GetState rf).2
              then if isSnapshot then [TInstall i j] else [MAppend true i j args]
              else [], None)
  | MAppend live i j args =>
      '(rf', reply, sp) ← AppendEntries now args rf;
      Ok (rf', (if live then [MAppended i j args reply] else []) ++ spawned j sp, None)
  | MAppended i j args reply =>
      '(rf', sp) ← handleAppendEntries now j args reply rf;
      Ok (rf', spawned i sp, None)
  | TInstall i j => Ok (rf, [TInstallCheck i j (genInstallSnapshot rf)], None)
  | TInstallCheck i j args =>
      Ok (rf, if (GetState rf).2 then [MInstall true i j args] else [], None)
  | MInstall live i j args =>
      '(rf', reply, sp) ← InstallSnapshot now args rf;
      Ok (rf', (if live then [MInstalled i j args reply] else []) ++ spawned j sp, None)
  | MInstalled i j args reply =>
      '(rf', sp) ← handleInstallSnapshot now j args reply rf;
      Ok (rf', spawned i sp, None)
  | TApply i =>
      r ← applyLogs rf;
      Ok (rf, match r with None => [TCond i] | Some msgs => [TDeliver i msgs] end, None)
  | TCond i => rf' ← applyLogs_snapshot rf; Ok (rf', [], None)
  | TDeliver i [] => Ok (rf, [], None)
  | TDeliver i (msg :: msgs) => Ok (rf, [TApplied i msg msgs], Some (i, msg))
  | TApplied i msg msgs => Ok (applied msg rf, [TDeliver i msgs], None)
  | TMsg i msg => Ok (rf, [], Some (i, msg))
  | TStart i term command => Ok ((Start_append term command rf).1, [TPersist i], None)
  | TPersist i => Ok (persist rf, [], None)
  end.

(** ** The system *)
Record rcluster := { base : cluster; items : list pending }.

Definition no_local rf (rf' : Raft) : Prop := False.

(** The source. *)
Definition any_start (p : pending) rf : Prop := True.

Definition while_leader (p : pending) rf : Prop :=
  match p with TStart _ term _ => role rf = Leader ∧ currentTerm rf = term | _ => True end.

(** The entries of [rf] behind the ones that [args] carries are of other terms. *)
Definition fresh (args : AppendEntriesArgs Cmd) rf : Prop :=
  Forall (λ e, le_Term e ≠ aa_Term args)
    (drop (Z.to_nat (convertToStorageIndex rf (aa_PrevLogIndex args + 1 + go_len (aa_Entries args))))
          (logs rf)).

(** A request leaves in the term it was generated in. *)
Definition sent_in_term (p : pending) rf : Prop :=
  match p with TCheck _ _ args _ => currentTerm rf = aa_Term args | _ => True end.

(** A request does not cut entries of its own term. *)
Definition cuts_older (p : pending) rf : Prop :=
  match p with MAppend _ _ _ args => fresh args rf | _ => True end.

(** A reply is handled in the term of its request. *)
Definition counted_in_term (p : pending) rf : Prop :=
  match p with MAppended _ _ args _ => currentTerm rf = aa_Term args | _ => True end.

Definition orderly (p : pending) rf : Prop :=
  while_leader p rf ∧ sent_in_term p rf ∧ cuts_older p rf ∧ counted_in_term p rf.

#[export] Instance any_start_dec p rf : Decision (any_start p rf).
Proof. unfold any_start. apply _. Defined.
#[export] Instance while_leader_dec p rf : Decision (while_leader p rf).
Proof. destruct p; cbn; apply _. Defined.
#[export] Instance sent_in_term_dec p rf : Decision (sent_in_term p rf).
Proof. destruct p; cbn; apply _. Defined.
#[export] Instance cuts_older_dec p rf : Decision (cuts_older p rf).
Proof. unfold cuts_older, fresh. destruct p; apply _. Defined.
#[export] Instance counted_in_term_dec p rf : Decision (counted_in_term p rf).
Proof. destruct p; cbn; apply _. Defined.
#[export] Instance orderly_dec p rf : Decision (orderly p rf).
Proof. unfold orderly. apply _. Defined.

Inductive repl_step (counts : Raft → election → Prop) (crashes : Raft → option phase → Prop)
    (allowed : pending → Raft → Prop) :
    rcluster → option (Z * ApplyMsg) → rcluster → Prop :=
  | rs_election s l b' :
      cluster_step counts crashes no_local (base s) l b' →
      repl_step counts crashes allowed s None
        {| base := b';
           items := match l with Some i => items s ≫= orphan i | None => items s end |}
  | rs_heartbeat s i rf servers :
      nodes (base s) !! i = Some rf → startHeartbeat rf = Some servers →
      repl_step counts crashes allowed s None {| base := base s; items := items s ++ (TGen i <$> servers) |}
  | rs_command s i rf term command :
      nodes (base s) !! i = Some rf → GetState rf = (term, true) →
      repl_step counts crashes allowed s None {| base := base s; items := items s ++ [TStart i term command] |}
  | rs_perform s l1 p l2 rf now rf' ps ev :
      items s = l1 ++ p :: l2 → nodes (base s) !! site p = Some rf → allowed p rf →
      perform now p rf = Ok (rf', ps, ev) →
      repl_step counts crashes allowed s ev
        {| base := set_node (site p) rf' (base s); items := l1 ++ l2 ++ ps |}
  | rs_lose s l1 p l2 :
      items s = l1 ++ p :: l2 → is_call p = true →
      repl_step counts crashes allowed s None {| base := base s; items := l1 ++ l2 |}
  | rs_kill s i rf :
      nodes (base s) !! i = Some rf →
      repl_step counts crashes allowed s None {| base := set_node i (Kill rf) (base s); items := items s |}.

Definition repl_init (n : Z) : rcluster := {| base := cluster_init n; items := [] |}.
End Replication.
Arguments rcluster : clear implicits.
Arguments pending : clear implicits.
