(* ===== verification/RaftLive.v ===== *)
(** * Raft: a majority can elect a leader

    The other side of [ElectionSafety]: elections are not only safe, they can
    be won.  [can_elect]: from every reachable state of a cluster, any majority
    of servers that are up, whatever the others do not answer, can go on to a
    leader whose term is as new as any of theirs, by timeouts, requests and
    replies alone ([elect_step]), without restarts.  The peer with the newest
    log campaigns until its term is above the others', and collects the votes.
    [single_never_leads]: a cluster of one server never has a leader, since
    votes are only counted when a reply arrives. *)
From S2P Require Import Prelude GoLib Raft RaftPeer RaftElection ElectionSafety RaftTypes RaftReplication.
Local Open Scope Z_scope.
Local Open Scope go_scope.

Section Live.
Context {Cmd : Type} `{!Gob Cmd}.
Local Abbreviation Raft := (Raft Cmd).
Local Abbreviation cluster := (cluster Cmd).
Implicit Types (rf : Raft) (b : cluster).

(** ** Steps of an election among some servers

    A step of [W]: no restart, no change of the servers outside of [W], and an
    election is only started by a turn of [ticker]. *)
Record elect_step (counts : Raft → election → Prop) (W : list Z) b (l : option Z) b' : Prop := {
  es_step : cluster_step counts no_crash no_local b l b';
  es_quiet : l = None;
  es_others i : i ∉ W → nodes b' !! i = nodes b !! i;
  es_ticker i rf : nodes b !! i = Some rf → phases b !! i = None → phases b' !! i = Some InGen →
    ∃ now ms, 600 ≤ ms < 900 ∧ ticker now ms rf = true;
}.

(** ** What an election keeps *)
Definition same_server rf rf' : Prop :=
  me rf' = me rf ∧ npeers rf' = npeers rf ∧ dead rf' = dead rf ∧ logs rf' = logs rf ∧
  lastIncludedIndex rf' = lastIncludedIndex rf.

Lemma convertRole_same r rf rf' sp : convertRole r rf = Ok (rf', sp) → same_server rf rf'.
Proof.
  destruct r; cbn; [|by intros [= <- _]..].
  case_decide; [destruct (heartChan rf); [done| |done]|]; by intros [= <- _].
Qed.

Lemma step_down_same t rf rf' sp : step_down t rf = Ok (rf', sp) → same_server rf rf'.
Proof.
  unfold step_down. intros H. apply bind_Ok in H as ([rf1 sp1] & Hc & [= <- _]).
  by apply convertRole_same in Hc.
Qed.

Lemma RequestVote_same now args rf rf' reply sp :
  RequestVote now args rf = Ok (rf', reply, sp) → same_server rf rf'.
Proof.
  unfold RequestVote. case_decide; [by intros [= <- _ _]|]. case_decide; [by intros [= <- _ _]|].
  intros Hv. apply bind_Ok in Hv as ([rf1 sp1] & Hs & Hv). apply bind_Ok in Hv as (up & _ & Hv).
  assert (same_server rf rf1) as (? & ? & ? & ? & ?).
  { clear Hv. case_decide; [by eapply step_down_same|by injection Hs as <- _]. }
  clear Hs. by destruct up; injection Hv as <- _ _.
Qed.

Context (counts : Raft → election → Prop) (Hcounts : ∀ rf el, same_term rf el → counts rf el).
Context (W : list Z) (n : Z) (Hn : 2 ≤ n) (HW : NoDup W) (Hmaj : n `quot` 2 < go_len W).
(** The logs of the servers, which do not change. *)
Context (lg : Z → list (LogEntry_ Cmd)) (ix : Z → Z).
Local Abbreviation step := (elect_step counts W).

Record able_peer i rf : Prop := {
  ap_ok : peer_ok rf;
  ap_me : me rf = i;
  ap_npeers : npeers rf = n;
  ap_dead : dead rf = false;
  ap_logs : logs rf = lg i;
  ap_index : lastIncludedIndex rf = ix i;
}.

Definition able b : Prop :=
  size b = n ∧ ∀ i, i ∈ W → 0 ≤ i < n ∧ ∃ rf, nodes b !! i = Some rf ∧ able_peer i rf.

Lemma able_same i rf rf' : able_peer i rf → peer_ok rf' → same_server rf rf' → able_peer i rf'.
Proof. intros [? ? ? ? ? ?] Hok (? & ? & ? & ? & ?). split; congruence. Qed.

Lemma able_set b b' i rf :
  able b → size b' = size b → nodes b' = <[i := rf]> (nodes b) → able_peer i rf → able b'.
Proof.
  intros [Hsz Hab] Hsz' Hnd Hrf. split; [congruence|]. intros j Hj. destruct (Hab j Hj) as (Hr & rfj & Hrfj & ?).
  split; [done|]. rewrite Hnd. destruct (decide (j = i)) as [->|].
  - exists rf. by rewrite lookup_insert_eq.
  - exists rfj. by rewrite lookup_insert_ne.
Qed.

Lemma able_frame b b' : able b → size b' = size b → nodes b' = nodes b → able b'.
Proof. intros [Hsz Hab] Hsz' Hnd. split; [congruence|]. by rewrite Hnd. Qed.

(** The arguments of server [i]'s request in term [t]. *)
Definition last_term i : Z :=
  match go_index (lg i) (go_len (lg i) - 1) with Ok e => le_Term e | Panic => 0 end.
Definition last_index i : Z := go_len (lg i) - 1 + ix i.

Definition ask i t : RequestVoteArgs :=
  {| va_Term := t; va_CandidateId := i; va_LastLogIndex := last_index i; va_LastLogTerm := last_term i |}.

Lemma able_gen i rf : able_peer i rf → genRequestVoteArgs rf = Ok (ask i (currentTerm rf)).
Proof.
  intros [Hok Hme _ _ Hl Hix]. unfold genRequestVoteArgs.
  destruct (last_entry rf) as [e He]; [apply Hok|]. rewrite He. cbn. unfold ask, last_term, last_index.
  unfold getLastStorageIndex in He. rewrite <-Hl, He, Hme, <-Hix. by destruct rf.
Qed.

(** [c]'s log is as new as [j]'s. *)
Definition newer c j : Prop :=
  last_term j < last_term c ∨ last_term c = last_term j ∧ last_index j ≤ last_index c.

Lemma able_up_to_date c j rf t :
  able_peer j rf → newer c j → up_to_date rf (va_LastLogTerm (ask c t)) (va_LastLogIndex (ask c t)).
Proof.
  intros [Hok _ _ _ Hl Hix] Hnew. destruct (last_entry rf) as [e He]; [apply Hok|].
  exists e. split; [done|]. unfold newer, last_term, last_index in *. cbn.
  unfold getLastStorageIndex in He. rewrite Hl in He. rewrite He in Hnew.
  unfold getLastLogicalIndex, getLastStorageIndex in *. cbn in *. rewrite Hl, Hix. exact Hnew.
Qed.

Lemma newest V : V ≠ [] → ∃ c, c ∈ V ∧ ∀ j, j ∈ V → newer c j.
Proof.
  induction V as [|i V IH]; [done|]. intros _. destruct (decide (V = [])) as [->|HV].
  { exists i. split; [set_solver|]. intros j ->%list_elem_of_singleton. right. lia. }
  destruct (IH HV) as (c & Hc & Hall).
  destruct (decide (last_term c < last_term i ∨ last_term i = last_term c ∧ last_index c ≤ last_index i)) as [Hi|Hi].
  - exists i. split; [set_solver|]. intros j [->|Hj]%elem_of_cons; unfold newer in *; [lia|]. specialize (Hall j Hj). lia.
  - exists c. split; [set_solver|]. intros j [->|Hj]%elem_of_cons; unfold newer in *; [lia|by apply Hall].
Qed.

(** ** Finishing and starting an election *)
Lemma quiet_step b b' i rf :
  cluster_step counts no_crash no_local b None b' → i ∈ W → nodes b' = <[i := rf]> (nodes b) →
  (∀ j, phases b !! j = None → phases b' !! j ≠ Some InGen) → step b None b'.
Proof.
  intros Hs Hi Hnd Hph. split; [done|done| |].
  - intros j Hj. rewrite Hnd, lookup_insert_ne; [done|]. by intros ->.
  - intros j rfj _ Hj Hj'. by destruct (Hph j Hj).
Qed.

Lemma step_frame b b' :
  cluster_step counts no_crash no_local b None b' → nodes b' = nodes b →
  (∀ j, phases b !! j = None → phases b' !! j ≠ Some InGen) → step b None b'.
Proof.
  intros Hs Hnd Hph. split; [done|done|by intros; rewrite Hnd|].
  intros j rfj _ Hj Hj'. by destruct (Hph j Hj).
Qed.

Lemma peer_of b i : able b → i ∈ W → ∃ rf, nodes b !! i = Some rf ∧ able_peer i rf.
Proof. intros [_ Hab] Hi. by destruct (Hab i Hi). Qed.

(** The state at the end of [startElection], in the middle of which is [i]. *)
Lemma finish_gen b i rf :
  able b → i ∈ W → nodes b !! i = Some rf → phases b !! i = Some InGen →
  ∃ b', b =[step]=> b' ∧ able b' ∧ phases b' = delete i (phases b) ∧
    nodes b' = <[i := persist rf]> (nodes b) ∧
    elections b' !! length (elections b) =
      Some {| el_owner := i; el_args := ask i (currentTerm rf); el_count := 1; el_voters := []; el_live := true |} ∧
    ∀ j, j ∈ W → j ≠ i → (length (elections b), j) ∈ requests b'.
Proof.
  intros Hab Hi Hrf Hph. destruct (peer_of b i Hab Hi) as (rf0 & Hrf0 & Hp). rewrite Hrf in Hrf0. injection Hrf0 as <-.
  eexists. split_and!.
  - eapply run_tau; [apply step_frame; [by eapply cs_gen, able_gen|done|]|].
    { intros j Hj. cbn. destruct (decide (j = i)) as [->|]; [congruence|]. rewrite lookup_insert_ne by done. congruence. }
    eapply run_tau; [eapply quiet_step; [eapply cs_persist; [exact Hrf|cbn; by rewrite lookup_insert_eq]|done|done|]|constructor].
    intros j Hj. cbn in *. destruct (decide (j = i)) as [->|]; [by rewrite lookup_delete_eq|]. rewrite lookup_delete_ne by done. congruence.
  - eapply able_set; [exact Hab|done|done|]. eapply able_same; [done|by apply peer_ok_persist, Hp|done].
  - cbn. by rewrite delete_insert_eq.
  - done.
  - cbn. by rewrite lookup_app_r, Nat.sub_diag.
  - intros j Hj Hne. cbn. apply elem_of_app. right. apply list_elem_of_fmap. exists j. split; [done|].
    apply list_elem_of_filter. split; [done|]. apply elem_of_seqZ. destruct Hab as [-> Hab].
    destruct (Hab j Hj). lia.
Qed.

(** A peer in the middle of [startElection] gets to its end. *)
Lemma finish b i :
  able b → i ∈ W → ∃ b', b =[step]=> b' ∧ able b' ∧ phases b' = delete i (phases b).
Proof.
  intros Hab Hi. destruct (peer_of b i Hab Hi) as (rf & Hrf & Hp). destruct (phases b !! i) as [[|]|] eqn:Hph.
  - destruct (finish_gen b i rf) as (b' & ? & ? & ? & _); eauto.
  - eexists. split_and!.
    + eapply run_tau; [eapply quiet_step; [by eapply cs_persist|done|done|]|constructor].
      intros j Hj. cbn. destruct (decide (j = i)) as [->|]; [congruence|]. rewrite lookup_delete_ne by done. congruence.
    + eapply able_set; [exact Hab|done|done|]. eapply able_same; [done|by apply peer_ok_persist, Hp|done].
    + done.
  - exists b. split_and!; [constructor|done|by rewrite delete_id].
Qed.

Definition calm b : Prop := able b ∧ ∀ i, i ∈ W → phases b !! i = None.

Lemma settle b : able b → ∃ b', b =[step]=> b' ∧ calm b'.
Proof.
  intros Hab. enough (∀ V, V ⊆ W → ∃ b', b =[step]=> b' ∧ able b' ∧ ∀ i, i ∈ V → phases b' !! i = None)
    as Hall by (destruct (Hall W) as (b' & ? & ? & ?); [done|by exists b']).
  induction V as [|i V IH]; intros HV; [exists b; split_and!; [constructor|done|set_solver]|].
  destruct IH as (b1 & Hr1 & Hab1 & Hph1); [set_solver|].
  destruct (finish b1 i) as (b2 & Hr2 & Hab2 & Hph2); [done|set_solver|].
  exists b2. split; [by eapply run_silent|]. split; [done|]. intros j Hj. rewrite Hph2.
  destruct (decide (j = i)) as [->|]; [by rewrite lookup_delete_eq|].
  rewrite lookup_delete_ne by done. apply Hph1. set_solver.
Qed.

(** An election that [i] has started in term [t], with every other server
    still to be asked. *)
Definition asking b i (e : nat) t (count : Z) (V : list Z) : Prop :=
  ∃ rf el, nodes b !! i = Some rf ∧ role rf = Candidate ∧ currentTerm rf = t ∧
    elections b !! e = Some el ∧ el_owner el = i ∧ el_args el = ask i t ∧ el_count el = count ∧
    el_live el = true ∧ ∀ j, j ∈ V → (e, j) ∈ requests b.

Definition others_of i : list Z := filter (λ j, j ≠ i) W.

Lemma campaign b i rf :
  calm b → i ∈ W → nodes b !! i = Some rf → role rf ≠ Leader →
  ∃ b' e, b =[step]=> b' ∧ calm b' ∧ (∀ j, j ≠ i → nodes b' !! j = nodes b !! j) ∧
    asking b' i e (currentTerm rf + 1) 1 (others_of i).
Proof.
  intros [Hab Hph] Hi Hrf Hl. destruct (peer_of b i Hab Hi) as (rf0 & Hrf0 & Hp). rewrite Hrf in Hrf0. injection Hrf0 as <-.
  pose proof (startElection_Ok rf) as Hst. set (rf1 := set_votedFor _ _) in Hst.
  set (b1 := {| size := size b; nodes := <[i := rf1]> (nodes b); phases := <[i := InGen]> (phases b);
                elections := elections b; requests := requests b; replies := replies b |}).
  assert (able_peer i rf1) as Hp1 by (eapply able_same; [exact Hp|by destruct Hp as [[? ? ? ?]]|done]).
  assert (able b1) as Hab1 by (by eapply able_set).
  destruct (finish_gen b1 i rf1) as (b2 & Hr2 & Hab2 & Hph2 & Hnd2 & He2 & Hrq2);
    [done|done|cbn; by rewrite lookup_insert_eq..|].
  exists b2, (length (elections b)). split_and!.
  - eapply run_tau; [|exact Hr2]. split; [by eapply cs_start; [|apply Hph|]|done| |].
    + intros j Hj. cbn. rewrite lookup_insert_ne; [done|]. by intros ->.
    + intros j rfj Hj Hjn Hjs. cbn in Hjs. destruct (decide (j = i)) as [->|]; [|rewrite lookup_insert_ne in Hjs by done; congruence].
      rewrite Hrf in Hj. injection Hj as <-. exists (lastUpdate rf + 601), 600. split; [lia|].
      unfold ticker, killed, GetState. rewrite (ap_dead _ _ Hp). cbn. rewrite bool_decide_eq_false_2 by done. cbn.
      apply bool_decide_eq_true. lia.
  - split; [done|]. intros j Hj. rewrite Hph2. cbn. rewrite delete_insert_eq.
    destruct (decide (j = i)) as [->|]; [by rewrite lookup_delete_eq|]. rewrite lookup_delete_ne by done. by apply Hph.
  - intros j Hj. rewrite Hnd2. cbn. by rewrite !lookup_insert_ne by done.
  - exists (persist rf1). eexists. split_and!; [rewrite Hnd2; by rewrite lookup_insert_eq|done|done|exact He2|done..|].
    intros j [Hne Hj]%list_elem_of_filter. by apply Hrq2.
Qed.

(** The candidate campaigns [k] more times. *)
Lemma campaigns k : ∀ b i rf,
  calm b → i ∈ W → nodes b !! i = Some rf → role rf ≠ Leader →
  ∃ b' e, b =[step]=> b' ∧ calm b' ∧ (∀ j, j ≠ i → nodes b' !! j = nodes b !! j) ∧
    asking b' i e (currentTerm rf + 1 + Z.of_nat k) 1 (others_of i).
Proof.
  induction k as [|k IH]; intros b i rf Hc Hi Hrf Hl; destruct (campaign b i rf Hc Hi Hrf Hl) as (b1 & e1 & Hr1 & Hc1 & Ho1 & Ha1).
  { exists b1, e1. by rewrite Z.add_0_r. }
  destruct Ha1 as (rf1 & _ & Hrf1 & Hrole & Ht & _).
  destruct (IH b1 i rf1) as (b2 & e2 & Hr2 & Hc2 & Ho2 & Ha2); [done..|congruence|].
  exists b2, e2. split_and!; [by eapply run_silent|done| |].
  - intros j Hj. by rewrite Ho2, Ho1.
  - replace (currentTerm rf + 1 + Z.of_nat (S k)) with (currentTerm rf1 + 1 + Z.of_nat k) by lia. done.
Qed.

(** ** Votes *)

(** A request of a newer term arrives. *)
Lemma deliver b e el j rf :
  able b → j ∈ W → nodes b !! j = Some rf → elections b !! e = Some el → (e, j) ∈ requests b →
  currentTerm rf < va_Term (el_args el) →
  ∃ b' rf' reply, step b None b' ∧ able b' ∧ nodes b' = <[j := rf']> (nodes b) ∧ phases b' = phases b ∧
    elections b' = elections b ∧ (∀ m, m ∈ requests b → m ≠ (e, j) → m ∈ requests b') ∧
    replies b' = (e, j, reply) :: replies b ∧ role rf' = Follower ∧ currentTerm rf' = va_Term (el_args el) ∧
    (up_to_date rf (va_LastLogTerm (el_args el)) (va_LastLogIndex (el_args el)) → vr_VoteGranted reply = true).
Proof.
  intros Hab Hj Hrf He Hrq Ht. destruct (peer_of b j Hab Hj) as (rf0 & Hrf0 & Hp). rewrite Hrf in Hrf0. injection Hrf0 as <-.
  destruct (RequestVote_cases 0 (el_args el) rf (ap_ok _ _ Hp)) as (rf' & reply & sp & Hrv & Hok & Hterm & _ & _ & _ & Hg & _).
  pose proof (RequestVote_frame _ _ _ _ _ _ Hrv) as (_ & _ & _ & _ & Hrole & _).
  apply list_elem_of_split in Hrq as (l1 & l2 & Hrq). eexists _, rf', reply. split_and!.
  - eapply quiet_step; [by eapply cs_request|done|done|]. cbn. congruence.
  - eapply able_set; [exact Hab|done|done|]. eapply able_same; [done|done|by eapply RequestVote_same].
  - done.
  - done.
  - done.
  - intros m Hm Hne. cbn. rewrite Hrq in Hm. set_solver.
  - done.
  - destruct Hrole as [?|[_ ?]]; [done|lia].
  - lia.
  - intros Hup. apply Hg. split; [by left|done].
Qed.

Definition leads b c t : Prop := ∃ rf, nodes b !! c = Some rf ∧ role rf = Leader ∧ currentTerm rf = t.

(** The last reply brings a vote for a candidate. *)
Lemma count_granted b c e t count j reply rest V :
  able b → c ∈ W → asking b c e t count V → replies b = (e, j, reply) :: rest → vr_VoteGranted reply = true →
  ∃ b', step b None b' ∧ able b' ∧ (∀ i, i ≠ c → nodes b' !! i = nodes b !! i) ∧
    if decide (n `quot` 2 < count + 1) then leads b' c t else asking b' c e t (count + 1) V.
Proof.
  intros Hab Hc (rf & el & Hrf & Hr & Ht & He & Ho & Ha & Hco & Hl & Hrq) Hrp Hg.
  destruct (peer_of b c Hab Hc) as (rf0 & Hrf0 & Hp). rewrite Hrf in Hrf0. injection Hrf0 as <-.
  assert (nodes b !! el_owner el = Some rf) as Hown by congruence.
  assert (role rf = Candidate → vr_VoteGranted reply = true → counts rf el) as Hcs.
  { intros _ _. apply Hcounts. unfold same_term. rewrite Ha. done. }
  assert (∃ rf' sp, handleVote reply (el_count el) rf = Ok (rf', count + 1, sp) ∧ able_peer c rf' ∧
    currentTerm rf' = t ∧ (if decide (n `quot` 2 < count + 1) then role rf' = Leader else rf' = rf))
    as (rf' & sp & Hv & Hp' & Ht' & Hres).
  { unfold handleVote. rewrite decide_True, (ap_npeers _ _ Hp), Hco by done. case_decide.
    - do 2 eexists. split_and!; [done| |done|done]. eapply able_same; [done| |done].
      destruct Hp as [[? ? ? ?] ? ? ? ? ?]. split; cbn; try done; unfold go_len in *; by rewrite length_fmap.
    - do 2 eexists. by split_and!. }
  eexists. split_and!.
  - split; [by eapply (cs_reply _ _ _ _ []); [| | | | |exact Hv]|done| |cbn; congruence].
    intros i Hi. cbn. rewrite Ho, lookup_insert_ne; [done|]. by intros ->.
  - eapply able_set; [exact Hab|done|cbn; by rewrite Ho|done].
  - intros i Hi. cbn. by rewrite Ho, lookup_insert_ne.
  - case_decide; [exists rf'|exists rf', (count_vote j (count + 1) el)]; cbn; rewrite Ho.
    + by rewrite lookup_insert_eq.
    + subst rf'. rewrite lookup_insert_eq, list_lookup_insert_eq by (by eapply lookup_lt_Some). by split_and!.
Qed.

(** Server [j] votes for [c]. *)
Lemma vote b c e t count j V rf :
  able b → c ∈ W → j ∈ W → j ≠ c → j ∉ V → newer c j → asking b c e t count (j :: V) →
  nodes b !! j = Some rf → currentTerm rf < t →
  ∃ b', b =[step]=> b' ∧ able b' ∧ (∀ i, i ≠ c → i ≠ j → nodes b' !! i = nodes b !! i) ∧
    (∃ rf', nodes b' !! j = Some rf' ∧ currentTerm rf' = t) ∧
    if decide (n `quot` 2 < count + 1) then leads b' c t else asking b' c e t (count + 1) V.
Proof.
  intros Hab Hc Hj Hne HV Hnew (rfc & el & Hrf & Hr & Ht & He & Ho & Ha & Hco & Hl & Hrq) Hrfj Hlt.
  destruct (peer_of b j Hab Hj) as (rf0 & Hrf0 & Hp). rewrite Hrfj in Hrf0. injection Hrf0 as <-.
  assert (va_Term (el_args el) = t) as Hta by (by rewrite Ha).
  destruct (deliver b e el j rf) as (b1 & rf1 & reply & Hs1 & Hab1 & Hnd1 & Hph1 & Hel1 & Hrq1 & Hrp1 & _ & Ht1 & Hg);
    [done..|apply Hrq; left|lia|].
  assert (asking b1 c e t count V) as Hask.
  { exists rfc, el. rewrite Hnd1, Hel1, lookup_insert_ne by done. split_and!; try done.
    intros k Hk. apply Hrq1; [apply Hrq; by right|]. intros [= ->]. done. }
  destruct (count_granted b1 c e t count j reply (replies b) V) as (b2 & Hs2 & Hab2 & Ho2 & Hres);
    [done..| |].
  { apply Hg. rewrite Ha. by eapply able_up_to_date. }
  exists b2. split_and!; [|done| | |done].
  - eapply run_tau; [exact Hs1|]. eapply run_tau; [exact Hs2|constructor].
  - intros i Hi Hij. rewrite Ho2, Hnd1 by done. by rewrite lookup_insert_ne.
  - exists rf1. rewrite Ho2, Hnd1, lookup_insert_eq by done. split; [done|congruence].
Qed.

(** The servers of [V] vote one after the other until [c] leads. *)
Lemma gather b c e t V : ∀ count,
  able b → c ∈ W → NoDup V → (∀ j, j ∈ V → j ∈ W ∧ j ≠ c ∧ newer c j) → asking b c e t count V →
  (∀ j rf, j ∈ V → nodes b !! j = Some rf → currentTerm rf < t) →
  (∀ j rf, j ∈ W → nodes b !! j = Some rf → currentTerm rf ≤ t) →
  count ≤ n `quot` 2 < count + go_len V →
  ∃ b', b =[step]=> b' ∧ leads b' c t ∧ ∀ j rf, j ∈ W → nodes b' !! j = Some rf → currentTerm rf ≤ t.
Proof.
  revert b. induction V as [|j V IH]; intros b count Hab Hc Hnd HV Hask Hlt Hle Hcnt; [unfold go_len in Hcnt; cbn in Hcnt; lia|].
  apply NoDup_cons in Hnd as [Hj Hnd]. destruct (HV j ltac:(left)) as (HjW & Hjc & Hnew).
  destruct (peer_of b j Hab HjW) as (rf & Hrf & _).
  destruct (vote b c e t count j V rf) as (b1 & Hr1 & Hab1 & Ho1 & (rf1 & Hrf1 & Ht1) & Hres); [done..|apply (Hlt j); [left|done]|].
  assert (∀ k rfk, k ∈ W → nodes b1 !! k = Some rfk → currentTerm rfk ≤ t) as Hle1.
  { intros k rfk Hk Hrfk. destruct (decide (k = j)) as [->|]; [rewrite Hrf1 in Hrfk; injection Hrfk as <-; lia|].
    destruct (decide (k = c)) as [->|]; [|rewrite Ho1 in Hrfk by done; by eapply Hle].
    case_decide; destruct Hres as (rfc & Hres); destruct_and?; [|destruct Hres]; destruct_and?; simplify_eq; lia. }
  case_decide as Hwon; [by exists b1|].
  destruct (IH b1 (count + 1)) as (b2 & Hr2 & Hl2 & Hle2); try done.
  - intros k Hk. apply HV. by right.
  - intros k rfk Hk Hrfk. apply (Hlt k); [by right|]. rewrite Ho1 in Hrfk; [done| |].
    + intros ->. by destruct (HV c ltac:(by right)) as (_ & ? & _).
    + by intros ->.
  - unfold go_len in *. cbn [length] in Hcnt. lia.
  - exists b2. split; [by eapply run_silent|done].
Qed.

(** ** The newest log campaigns and wins *)
Lemma no_leader_wins b c rf t :
  calm b → c ∈ W → (∀ j, j ∈ W → newer c j) → nodes b !! c = Some rf → role rf ≠ Leader →
  (∀ j rfj, j ∈ W → nodes b !! j = Some rfj → currentTerm rfj ≤ t) →
  ∃ b' t', b =[step]=> b' ∧ leads b' c t' ∧ ∀ j rfj, j ∈ W → nodes b' !! j = Some rfj → currentTerm rfj ≤ t'.
Proof using Hn HW Hmaj Hcounts.
  intros Hcalm Hc Hnew Hrf Hl Hle. pose proof (Hle c rf Hc Hrf) as Ht.
  destruct (campaigns (Z.to_nat (t - currentTerm rf)) b c rf) as (b1 & e & Hr1 & [Hab1 _] & Ho1 & Hask); [done..|].
  replace (currentTerm rf + 1 + Z.of_nat (Z.to_nat (t - currentTerm rf))) with (t + 1) in Hask by lia.
  destruct (gather b1 c e (t + 1) (others_of c) 1) as (b2 & Hr2 & Hl2 & Hle2); try done.
  - by apply NoDup_filter.
  - intros j [Hj HjW]%list_elem_of_filter. auto.
  - intros j rfj [Hj HjW]%list_elem_of_filter Hrfj. rewrite Ho1 in Hrfj by done. specialize (Hle _ _ HjW Hrfj). lia.
  - intros j rfj Hj Hrfj. destruct (decide (j = c)) as [->|].
    + destruct Hask as (rfc & el & Hrfc & _ & Htc & _). rewrite Hrfc in Hrfj. injection Hrfj as <-. lia.
    + rewrite Ho1 in Hrfj by done. specialize (Hle _ _ Hj Hrfj). lia.
  - split; [exact (Z.quot_le_mono 2 n 2 ltac:(lia) Hn)|].
    enough (go_len W = 1 + go_len (others_of c)) by lia.
    assert (W ≡ₚ c :: others_of c) as Hp.
    { apply NoDup_Permutation; [done| |].
      - apply NoDup_cons. split; [|by apply NoDup_filter]. by intros [? _]%list_elem_of_filter.
      - intros j. rewrite elem_of_cons. unfold others_of. rewrite list_elem_of_filter.
        destruct (decide (j = c)) as [->|]; tauto. }
    unfold go_len. rewrite (Permutation_length Hp). cbn. lia.
  - exists b2, (t + 1). split; [by eapply run_silent|done].
Qed.

(** A leader of an older term gives way to another server's campaign. *)
Lemma depose b c j rfc rfj :
  calm b → c ∈ W → j ∈ W → nodes b !! c = Some rfc → nodes b !! j = Some rfj →
  role rfj ≠ Leader → currentTerm rfc < currentTerm rfj →
  ∃ b' rf, b =[step]=> b' ∧ calm b' ∧ nodes b' !! c = Some rf ∧ role rf = Follower.
Proof.
  intros Hcalm Hc Hj Hrfc Hrfj Hl Hlt.
  assert (c ≠ j) as Hne by (intros ->; rewrite Hrfc in Hrfj; injection Hrfj as ->; lia).
  destruct (campaign b j rfj) as (b1 & e & Hr1 & [Hab1 Hph1] & Ho1 & (rf & el & _ & _ & _ & He & _ & Ha & _ & _ & Hrq)); [done..|].
  destruct (deliver b1 e el c rfc) as (b2 & rf2 & reply & Hs2 & Hab2 & Hnd2 & Hph2 & _ & _ & _ & Hr2 & _); try done.
  - by rewrite Ho1.
  - apply Hrq. by apply list_elem_of_filter.
  - rewrite Ha. cbn. lia.
  - exists b2, rf2. split_and!; [by eapply run_silent_step|split; [done|by rewrite Hph2]| |done].
    by rewrite Hnd2, lookup_insert_eq.
Qed.

(** The newest term of some servers. *)
Lemma newest_term b V :
  able b → V ⊆ W → V ≠ [] → ∃ j rf, j ∈ V ∧ nodes b !! j = Some rf ∧
    ∀ k rfk, k ∈ V → nodes b !! k = Some rfk → currentTerm rfk ≤ currentTerm rf.
Proof.
  intros Hab. induction V as [|i V IH]; [done|]. intros HV _.
  destruct (peer_of b i Hab) as (rfi & Hrfi & _); [set_solver|].
  destruct (decide (V = [])) as [->|HVn].
  { exists i, rfi. split_and!; [left|done|]. intros k rfk ->%list_elem_of_singleton Hk. simplify_eq. lia. }
  destruct IH as (j & rf & Hj & Hrf & Hall); [set_solver|done|].
  destruct (decide (currentTerm rf ≤ currentTerm rfi)).
  - exists i, rfi. split_and!; [left|done|]. intros k rfk [->|Hk]%elem_of_cons Hrfk; [simplify_eq; lia|].
    specialize (Hall k rfk Hk Hrfk). lia.
  - exists j, rf. split_and!; [by right|done|]. intros k rfk [->|Hk]%elem_of_cons Hrfk; [simplify_eq; lia|by eapply Hall].
Qed.

Lemma W_nonempty : W ≠ [].
Proof using Hn Hmaj.
  intros Heq. pose proof Hmaj as Hm. rewrite Heq in Hm. unfold go_len in Hm. cbn in Hm.
  pose proof (Z.quot_pos n 2). lia.
Qed.

Lemma able_elects b :
  able b → ∃ b' c t, b =[step]=> b' ∧ c ∈ W ∧ leads b' c t ∧
    ∀ j rfj, j ∈ W → nodes b' !! j = Some rfj → currentTerm rfj ≤ t.
Proof using Hn HW Hmaj Hcounts.
  intros Hab. destruct (settle b Hab) as (b1 & Hr1 & Hcalm1). clear Hab. pose proof (proj1 Hcalm1) as Hab1.
  destruct (newest W W_nonempty) as (c & Hc & Hnew).
  destruct (newest_term b1 W Hab1) as (j & rfj & Hj & Hrfj & Hmax); [done|apply W_nonempty|].
  destruct (peer_of b1 c Hab1 Hc) as (rfc & Hrfc & _).
  assert ((∃ k t, k ∈ W ∧ leads b1 k t ∧ ∀ j rfj, j ∈ W → nodes b1 !! j = Some rfj → currentTerm rfj ≤ t) ∨
    ∃ b2 rf, b1 =[step]=> b2 ∧ calm b2 ∧ nodes b2 !! c = Some rf ∧ role rf ≠ Leader)
    as [(k & t & Hk & Hl & Hall)|(b2 & rf & Hr2 & Hcalm2 & Hrf & Hl)].
  { destruct (decide (role rfc = Leader)) as [Hlc|Hlc]; [|right; exists b1, rfc; split_and!; [constructor|done..]].
    pose proof (Hmax c rfc Hc Hrfc) as Hle. destruct (decide (currentTerm rfc = currentTerm rfj)) as [Heq|Hne].
    { left. exists c, (currentTerm rfc). split_and!; [done|by exists rfc|by rewrite Heq]. }
    destruct (decide (role rfj = Leader)) as [Hlj|Hlj].
    { left. exists j, (currentTerm rfj). split_and!; [done|by exists rfj|done]. }
    right. destruct (depose b1 c j rfc rfj) as (b2 & rf & ? & ? & ? & Hf); [done..|lia|].
    exists b2, rf. split_and!; [done..|congruence]. }
  { exists b1, k, t. by split_and!. }
  destruct (newest_term b2 W (proj1 Hcalm2)) as (i & rfi & _ & _ & Hmax2); [done|apply W_nonempty|].
  destruct (no_leader_wins b2 c rf (currentTerm rfi)) as (b3 & t & Hr3 & Hl3 & Hall3); [done..|].
  exists b3, c, t. split_and!; [|done..]. eauto using run_silent.
Qed.
End Live.

(** ** Any majority that is up *)
Section Elect.
Context {Cmd : Type} `{!Gob Cmd}.
Implicit Types (rf : Raft Cmd) (b : cluster Cmd).

(** Server [i] is up: it runs and is not killed. *)
Definition up b i : Prop := ∃ rf, nodes b !! i = Some rf ∧ dead rf = false.

(** C13. A majority can elect a leader: in every state that a cluster of two or
    more servers reaches, whatever was lost, crashed or restarted, any
    servers that are up, have a log with an entry (that of their snapshot, if no
    other), and are more than half of all can go on, with no help from
    the others and by [ticker] starting elections, requests and replies alone,
    to a state in which one of them leads, and its term is as new as theirs.
    This holds for the source and for Raft's rule of counting votes.  A single
    server never leads ([single_never_leads]), and with an empty log, which an
    AppendEntries from before the snapshot can leave, a campaign panics. *)
Theorem can_elect counts crashes n tr b W :
  2 ≤ n → NoDup W → n `quot` 2 < go_len W → (∀ rf el, same_term rf el → counts rf el) →
  run (cluster_step counts crashes local_step) (cluster_init n) tr b →
  (∀ i, i ∈ W → 0 ≤ i < n ∧ up b i) →
  (∀ i rf, i ∈ W → nodes b !! i = Some rf → logs rf ≠ []) →
  ∃ b' i rf, run (elect_step counts W) b [] b' ∧ i ∈ W ∧ nodes b' !! i = Some rf ∧ role rf = Leader ∧
    ∀ j rfj, j ∈ W → nodes b' !! j = Some rfj → currentTerm rfj ≤ currentTerm rf.
Proof.
  intros Hn HW Hmaj Hcounts Hr Hup Hlogs.
  assert (cluster_typed b) as [_ Hty].
  { eapply (run_invariant _ cluster_typed); [by intros; eapply cluster_typed_step|done|].
    apply cluster_typed_init. lia. }
  assert (size b = n) as Hsz.
  { eapply (run_invariant _ (λ s, size s = n)); [|exact Hr|done]. intros ? ? ? <- []; done. }
  rewrite Hsz in Hty.
  destruct (able_elects counts Hcounts W n Hn HW Hmaj (λ i, from_option logs [] (nodes b !! i))
              (λ i, from_option lastIncludedIndex 0 (nodes b !! i)) b) as (b' & c & t & Hrun & Hc & (rf & Hrf & Hl & <-) & Hall).
  - split; [done|]. intros i Hi. destruct (Hup i Hi) as (Hrange & rf & Hrf & Hd). split; [done|].
    pose proof (Hlogs i rf Hi Hrf) as Hlg. exists rf. split; [done|]. destruct (Hty i rf Hrf).
    split; cbn beta; rewrite ?Hrf; try done. split; congruence || done.
  - by exists b', c, rf.
Qed.

(** In a cluster of one server nobody leads: no request is sent, and votes are
    only counted when a reply arrives. *)
Theorem single_never_leads counts crashes tr b i rf :
  run (cluster_step counts crashes local_step) (cluster_init 1) tr b → nodes b !! i = Some rf → role rf ≠ Leader.
Proof.
  intros Hr. revert i rf.
  enough (size b = 1 ∧ requests b = [] ∧ replies b = [] ∧ ∀ i rf, nodes b !! i = Some rf → i = 0 ∧ role rf ≠ Leader)
    as (_ & _ & _ & Hall) by (intros i rf Hi; by destruct (Hall i rf Hi)).
  refine (run_invariant _ (λ b, size b = 1 ∧ requests b = [] ∧ replies b = [] ∧
    ∀ i rf, nodes b !! i = Some rf → i = 0 ∧ role rf ≠ Leader) _ _ _ _ Hr _).
  - clear. intros b l b' (Hsz & Hrq & Hrp & Hall) Hstep.
    assert (∀ j rf rf', nodes b !! j = Some rf → (role rf ≠ Leader → role rf' ≠ Leader) →
      ∀ i rf0, <[j := rf']> (nodes b) !! i = Some rf0 → i = 0 ∧ role rf0 ≠ Leader) as Hset.
    { intros j rf rf' Hj Hne i rf0 [[<- <-]|[_ Hi]]%lookup_insert_Some; [|by apply Hall].
      destruct (Hall j rf Hj). auto. }
    destruct Hstep as
      [s j rf rf' sp Hj Hph Hst|s j rf args Hj Hph Hgen|s j rf Hj Hph
      |s l1 e j l2 el rf now rf' reply sp Hrq'|s l1 m l2 Hrq'
      |s l1 e j reply l2 el rf rf' count sp Hrp'|s l1 m l2 Hrp'
      |s j rf rf' Hj Hls|s j rf now rf' Hj Hph HM]; 
      try (exfalso; (rewrite Hrq in Hrq' || rewrite Hrp in Hrp'); by destruct l1); cbn.
    + split_and!; try done. eapply Hset; [done|]. intros _. rewrite startElection_Ok in Hst. by injection Hst as <- _.
    + destruct (Hall j rf Hj) as [-> _]. split_and!; try done. rewrite Hrq, Hsz. done.
    + split_and!; try done. by eapply Hset.
    + split_and!; try done. eapply Hset; [done|]. intros Hne.
      apply local_step_frame in Hls as [_ [Hf|[Hf _]]]; congruence.
    + split_and!; try done. eapply Hset; [done|]. intros _. apply Make_saved in HM as [Hf _]. congruence.
  - split_and!; try done. intros i rf Hi. cbn in Hi. rewrite lookup_map_on in Hi. case_decide as Hin; [|done].
    injection Hi as <-. split; [|done]. apply elem_of_list_to_set, elem_of_seqZ in Hin. lia.
Qed.
End Elect.

(** A new cluster of three in which 1 does not answer. *)
#[local] Existing Instance z_gob.

Lemma can_elect_witness :
  ∃ (b' : cluster Z) i rf, run (elect_step any_vote [0; 2]) (cluster_init 3) [] b' ∧ i ∈ [0; 2] ∧
    nodes b' !! i = Some rf ∧ role rf = Leader ∧
    ∀ j rfj, j ∈ [0; 2] → nodes b' !! j = Some rfj → currentTerm rfj ≤ currentTerm rf.
Proof.
  apply (can_elect any_vote any_crash 3 [] (cluster_init 3) [0; 2]).
  - lia.
  - by apply (bool_decide_unpack _); vm_compute.
  - done.
  - done.
  - constructor.
  - intros i [->| ->%list_elem_of_singleton]%elem_of_cons; (split; [lia|]); eexists; by split_and!.
  - intros i rf [->| ->%list_elem_of_singleton]%elem_of_cons Hi; vm_compute in Hi; injection Hi as <-; done.
Defined.
