(* ===== verification/LogMatching.v ===== *)
(** * Raft: log matching

    With votes counted in their own term and [Start] appending as a leader, two
    logs of a cluster that have an entry of the same index and term are equal
    up to it.  The invariant keeps a tree of logs: for every index and term
    in use, the one log that ends in that entry.  Only a leader adds to the
    tree, only entries of its own term, and its log holds all of those; the
    logs in memory, on disk and in the requests in flight are branches of the
    tree. *)
From S2P Require Import Prelude GoLib Raft RaftPeer RaftElection ElectionSafety RaftReplication.
Local Open Scope Z_scope.

Section Matching.
Context {Cmd : Type} `{!Gob Cmd}.
Local Abbreviation Raft := (Raft Cmd).
Local Abbreviation cluster := (cluster Cmd).
Local Abbreviation rcluster := (rcluster Cmd).
Local Abbreviation log := (list (LogEntry_ Cmd)).
Implicit Types (rf : Raft) (b : cluster) (s : rcluster) (lg : log).

(** ** A candidate has not won *)
Definition cand_ok b : Prop :=
  ∀ i rf, nodes b !! i = Some rf → role rf = Candidate → ¬ won b i (currentTerm rf).

(** What was won is decided by the elections. *)
Lemma won_mono b b' i t :
  size b' = size b →
  (∀ e el, elections b !! e = Some el → ∃ e' el', elections b' !! e' = Some el' ∧
     el_owner el' = el_owner el ∧ el_term el' = el_term el ∧ el_voters el' = el_voters el ∧
     el_count el' = el_count el) →
  won b i t → won b' i t.
Proof.
  intros Hsz Hel (e & el & He & Ho & Ht & Hne & Hc).
  destruct (Hel e el He) as (e' & el' & He' & Ho' & Ht' & Hv' & Hc').
  exists e', el'. rewrite Hsz, Ho', Ht', Hv', Hc'. done.
Qed.

Lemma won_same b b' i t :
  size b' = size b → elections b' = elections b → won b' i t → won b i t.
Proof. intros Hsz He. apply won_mono; [done|]. rewrite He. eauto 10. Qed.

Lemma won_killed b i0 i t :
  won {| size := size b; nodes := nodes b; phases := phases b;
         elections := kill_elections i0 (elections b); requests := requests b;
         replies := replies b |} i t → won b i t.
Proof.
  apply won_mono; [done|]. intros e el He. cbn in He. unfold kill_elections in He.
  rewrite list_lookup_fmap in He. destruct (elections b !! e) as [el0|] eqn:H0; [|done].
  injection He as <-. eauto 10.
Qed.

Lemma cand_set b b' i rf rf' :
  cand_ok b → size b' = size b → elections b' = elections b →
  nodes b !! i = Some rf → nodes b' = <[i := rf']> (nodes b) →
  (role rf' = Candidate → ¬ won b i (currentTerm rf')) → cand_ok b'.
Proof.
  intros Hc Hsz Hel Hi Hn Hr i0 rf0 H0 Hrole Hw. apply (won_same b) in Hw; [|done|done].
  rewrite Hn in H0. destruct (decide (i0 = i)) as [->|Hne].
  - rewrite lookup_insert_eq in H0. injection H0 as <-. by apply Hr.
  - rewrite lookup_insert_ne in H0 by done. by apply (Hc i0 rf0).
Qed.

Lemma cand_frame b i rf rf' :
  cand_ok b → nodes b !! i = Some rf → role_frame rf rf' →
  role rf' = Candidate → ¬ won b i (currentTerm rf').
Proof. intros Hc Hi [Hf|[Hr Ht]] Hrole; [congruence|]. rewrite Ht. apply Hc; congruence. Qed.

Lemma handleVote_short reply count rf rf' count' sp :
  handleVote reply count rf = Ok (rf', count', sp) → role rf' = Candidate →
  count' = count + 1 → count' ≤ npeers rf `quot` 2.
Proof.
  unfold handleVote. case_decide as Hc.
  - case_decide as Hm.
    + intros H. apply bind_Ok in H as ([rf1 sp1] & Hcv & [= <- <- <-]).
      cbn in Hcv. by injection Hcv as <- <-.
    + intros [= <- <- <-] _ _. lia.
  - case_decide as Hlt.
    + intros Hv. apply bind_Ok in Hv as ([rf1 sp1] & _ & [= <- <- <-]). lia.
    + intros [= <- <- <-]. lia.
Qed.

(** Counting a vote in election [e]. *)
Lemma won_counted b b' e j count el i t :
  size b' = size b → elections b !! e = Some el →
  elections b' = <[e := count_vote j count el]> (elections b) →
  won b' i t →
  won b i t ∨ el_owner el = i ∧ count ≠ el_count el ∧ size b `quot` 2 < count.
Proof.
  intros Hsz He Hel (e' & el' & He' & Ho & Ht & Hne & Hc). rewrite Hel in He'.
  destruct (decide (e' = e)) as [->|Hee].
  - rewrite list_lookup_insert_eq in He' by (by eapply lookup_lt_Some). injection He' as <-.
    destruct (decide (count = el_count el)) as [Heq|Hneq].
    + left. exists e, el. rewrite Hsz in Hc. cbn in *. rewrite decide_True in Hne by done.
      split_and!; try done. by rewrite <-Heq.
    + right. rewrite Hsz in Hc. by split_and!.
  - rewrite list_lookup_insert_ne in He' by done. left. exists e', el'. rewrite <-Hsz. done.
Qed.

Lemma cand_step b l b' :
  inv b → cand_ok b → cluster_step same_term saved_crash local_step b l b' → cand_ok b'.
Proof.
  intros Hinv Hc Hstep. destruct Hstep as
    [s i rf rf' sp Hi Hph Hst|s i rf args Hi Hph Hgen|s i rf Hi Hph
    |s l1 e j l2 el rf now rf' reply sp Hrq He Hj Hrv|s l1 m l2 Hrq
    |s l1 e j reply l2 el rf rf' count sp Hrp He Hl Hj Hcs Hhv|s l1 m l2 Hrp
    |s i rf rf' Hi Hls|s i rf now rf' Hi Hph HM].
  - eapply (cand_set s _ i rf rf'); [done..|]. intros _ (e & el & He & Ho & Ht & _).
    unfold startElection in Hst. cbn in Hst. injection Hst as <- <-. cbn in Ht.
    pose proof (inv_past _ Hinv e el rf He) as Hp. rewrite Ho in Hp. specialize (Hp Hi).
    rewrite Hph in Hp. cbn in Hp. pose proof (no_saved _ _ _ (inv_node _ Hinv i rf Hi)). lia.
  - intros i0 rf0 H0 Hr (e & el & He & Ho & Ht & Hne & Hw). cbn in He.
    apply lookup_app_Some in He as [He|[_ He]].
    + apply (Hc i0 rf0 H0 Hr). exists e, el. done.
    + apply list_lookup_singleton_Some in He as [_ <-]. done.
  - eapply (cand_set s _ i rf (persist rf)); [done..|]. exact (Hc i rf Hi).
  - eapply (cand_set s _ j rf rf'); [done..|]. apply RequestVote_frame in Hrv.
    eapply cand_frame; [done|done|apply Hrv].
  - intros i0 rf0 H0 Hr Hw. by apply (Hc i0 rf0 H0 Hr).
  - intros i0 rf0 H0 Hr Hw. cbn in H0.
    apply (won_counted s _ e j count el) in Hw as [Hw0|(Ho & Hcount & Hmaj)]; [| |done..].
    + destruct (decide (i0 = el_owner el)) as [->|Hne].
      * rewrite lookup_insert_eq in H0. injection H0 as <-.
        apply handleVote_cases in Hhv as [_ [(_ & Hrf & _)|(_ & Hrc & _ & Ht & _)]].
        -- by apply (cand_frame s _ rf rf' Hc Hj Hrf Hr).
        -- apply (Hc _ _ Hj Hrc). by rewrite <-Ht.
      * rewrite lookup_insert_ne in H0 by done. by apply (Hc i0 rf0 H0 Hr).
    + subst i0. rewrite lookup_insert_eq in H0. injection H0 as <-.
      assert (count = el_count el + 1) as Hone
        by (apply handleVote_cases in Hhv as [_ [(-> & _)|(-> & _)]]; [done|lia]).
      pose proof (handleVote_short _ _ _ _ _ _ Hhv Hr Hone).
      rewrite (no_npeers _ _ _ (inv_node _ Hinv _ _ Hj)) in *. lia.
  - intros i0 rf0 H0 Hr Hw. by apply (Hc i0 rf0 H0 Hr).
  - eapply (cand_set s _ i rf rf'); [done..|]. apply local_step_frame in Hls as [_ Hls].
    by eapply cand_frame.
  - intros i0 rf0 H0 Hr Hw. cbn in H0. apply Make_saved in HM as [HM _].
    apply (won_same _ _ i0 _ eq_refl eq_refl), won_killed in Hw.
    destruct (decide (i0 = i)) as [->|Hne].
    + rewrite lookup_insert_eq in H0. congruence.
    + rewrite lookup_insert_ne in H0 by done. by apply (Hc i0 rf0 H0 Hr).
Qed.

Lemma cand_init n : cand_ok (cluster_init n).
Proof. intros i rf _ _ (e & el & He & _). cbn in He. by rewrite lookup_nil in He. Qed.

(** ** The tree of logs *)
Abbreviation tree := (gmap (nat * Z) log).
Implicit Types (G : tree).

Definition dummy : LogEntry_ Cmd := {| le_Term := 0; le_Command := None |}.

(** A branch: each entry ends the log that the tree has for it. *)
Definition branch G lg : Prop :=
  lg !! 0%nat = Some dummy ∧
  ∀ k e, lg !! k = Some e → G !! (k, le_Term e) = Some (take (S k) lg).

(** What is on disk is a branch too. *)
Definition disk_ok G rf : Prop :=
  raftstate (persister rf) = [] ∨
  ∃ t v lg it, gob_decode (raftstate (persister rf)) = Some (t, v, lg, 0, it) ∧ branch G lg.

Record peer_ok G rf : Prop := {
  po_log : branch G (logs rf);
  po_index : lastIncludedIndex rf = 0;
  po_applied : 0 ≤ lastApplied rf;
  po_disk : disk_ok G rf;
}.

(** A request carries what follows an entry of some branch. *)
Definition args_ok G (args : AppendEntriesArgs Cmd) : Prop :=
  ∃ lg e, branch G lg ∧ 0 ≤ aa_PrevLogIndex args ∧
    lg !! Z.to_nat (aa_PrevLogIndex args) = Some e ∧ le_Term e = aa_PrevLogTerm args ∧
    aa_Entries args = drop (S (Z.to_nat (aa_PrevLogIndex args))) lg.

Definition item_ok G (p : pending Cmd) : Prop :=
  match p with
  | TCheck _ _ args false | MAppend _ _ _ args => args_ok G args
  | TInstallCheck _ _ args | MInstall _ _ _ args => ia_LastIncludedIndex args = 0
  | TCond _ => False
  | TDeliver _ msgs => Forall (λ msg, 0 ≤ CommandIndex msg) msgs
  | TApplied _ msg msgs => Forall (λ msg, 0 ≤ CommandIndex msg) (msg :: msgs)
  | _ => True
  end.

Record tree_ok G s : Prop := {
  to_root : G !! (0%nat, 0) = Some [dummy];
  to_length : ∀ k t lg, G !! (k, t) = Some lg → length lg = S k;
  to_peer : ∀ i rf, nodes (base s) !! i = Some rf → peer_ok G rf;
  to_item : ∀ p, p ∈ items s → item_ok G p;
  to_leader : ∀ i rf k lg, nodes (base s) !! i = Some rf → role rf = Leader →
    G !! (k, currentTerm rf) = Some lg → lg `prefix_of` logs rf;
  to_won : ∀ k t lg, G !! (k, t) = Some lg → k = 0%nat ∧ t = 0 ∨ ∃ i, won (base s) i t;
}.

Definition rinv s : Prop := inv (base s) ∧ cand_ok (base s) ∧ ∃ G, tree_ok G s.

(** *** Branches *)
Lemma branch_matching G lg lg' k e e' :
  branch G lg → branch G lg' → lg !! k = Some e → lg' !! k = Some e' → le_Term e = le_Term e' →
  take (S k) lg = take (S k) lg'.
Proof.
  intros [_ H] [_ H'] He He' Ht. apply H in He. apply H' in He'. congruence.
Qed.

Lemma branch_mono G G' lg : G ⊆ G' → branch G lg → branch G' lg.
Proof. intros HG [H0 H]. split; [done|]. intros k e He. eapply lookup_weaken; eauto. Qed.

Lemma disk_ok_mono G G' rf : G ⊆ G' → disk_ok G rf → disk_ok G' rf.
Proof. intros HG [Hd|(t & v & lg & it & Hd & Hb)]; [by left|right]. eauto 8 using branch_mono. Qed.

Lemma peer_ok_mono G G' rf : G ⊆ G' → peer_ok G rf → peer_ok G' rf.
Proof. intros HG [H1 H2 H3 H4]. split; eauto using branch_mono, disk_ok_mono. Qed.

Lemma item_ok_mono G G' p : G ⊆ G' → item_ok G p → item_ok G' p.
Proof.
  intros HG. destruct p as [i j|i j args []| | | | | | | | | | | | |]; cbn; try done;
    intros (lg & e & Hb & ?); exists lg, e; eauto using branch_mono.
Qed.

(** The new log of a follower: the branch the leader sent from. *)
Lemma branch_append G lg lg' k e e' :
  branch G lg → branch G lg' → lg !! k = Some e → lg' !! k = Some e' →
  le_Term e = le_Term e' ∨ k = 0%nat → take (S k) lg ++ drop (S k) lg' = lg'.
Proof.
  intros Hb Hb' He He' Hk. rewrite <-(take_drop (S k) lg') at 2. f_equal.
  apply (branch_matching G lg lg' k e e'); [done..|].
  destruct Hk as [Hk| ->]; [done|]. destruct Hb as [Hb _], Hb' as [Hb' _]. congruence.
Qed.

Lemma branch_root G : G !! (0%nat, 0) = Some [dummy] → branch G [dummy].
Proof. intros HG. split; [done|]. by intros [|k] e [= <-]. Qed.

(** A new entry at the end of a branch. *)
Lemma branch_snoc G lg e :
  branch G lg → G !! (length lg, le_Term e) = None →
  branch (<[(length lg, le_Term e) := lg ++ [e]]> G) (lg ++ [e]).
Proof.
  intros [H0 H] HN. split; [by apply lookup_app_l_Some|].
  intros k e' [Hk|[Hk ->]]%lookup_snoc_Some.
  - pose proof (H _ _ (proj2 Hk)) as HG. rewrite lookup_insert_ne by (intros [= ? ?]; lia).
    rewrite HG. f_equal. rewrite take_app_le by lia. done.
  - subst k. rewrite lookup_insert_eq. f_equal. rewrite firstn_all2; [done|].
    rewrite length_app; cbn; lia.
Qed.

(** *** A peer *)

(** Steps that leave the log alone. *)
Record log_frame rf rf' : Prop := {
  lf_logs : logs rf' = logs rf;
  lf_index : lastIncludedIndex rf' = lastIncludedIndex rf;
  lf_applied : lastApplied rf' = lastApplied rf;
  lf_persister : persister rf' = persister rf ∨ persister rf' = persister (persist rf');
}.

Lemma persisted_ok G rf :
  branch G (logs rf) → lastIncludedIndex rf = 0 →
  persister rf = persister (persist rf) → disk_ok G rf.
Proof.
  intros Hb Hi Hp. right. rewrite Hp. cbn. rewrite gob_roundtrip, Hi. eauto 8.
Qed.

Lemma peer_ok_frame G rf rf' : log_frame rf rf' → peer_ok G rf → peer_ok G rf'.
Proof.
  intros [Hl Hi Ha Hp] [H1 H2 H3 H4]. split; [congruence|congruence|congruence|].
  destruct Hp as [Hp|Hp]; [unfold disk_ok; by rewrite Hp|]. apply persisted_ok; congruence.
Qed.

(** A leader was one before, with the same term and log. *)
Definition leader_frame rf rf' : Prop :=
  role rf' = Leader → role rf = Leader ∧ currentTerm rf' = currentTerm rf ∧ logs rf' = logs rf.

Lemma frames_leader rf rf' : role_frame rf rf' → logs rf' = logs rf → leader_frame rf rf'.
Proof. intros [Hr|[Hr Ht]] Hl HL; [congruence|]. split_and!; congruence. Qed.

Lemma log_frame_refl rf : log_frame rf rf.
Proof. split; try done. by left. Qed.

Lemma log_frame_persist rf rf' : log_frame rf rf' → log_frame rf (persist rf').
Proof. intros [? ? ? ?]. split; cbn; try done. by right. Qed.

(** Steps that do not even persist. *)
Definition log_same rf rf' : Prop :=
  logs rf' = logs rf ∧ lastIncludedIndex rf' = lastIncludedIndex rf ∧
  lastApplied rf' = lastApplied rf ∧ persister rf' = persister rf.

Lemma log_same_frame rf rf' : log_same rf rf' → log_frame rf rf'.
Proof. intros (? & ? & ? & ?). split; try done. by left. Qed.

Lemma log_same_persist rf rf' : log_same rf rf' → log_frame rf (persist rf').
Proof. intros (? & ? & ? & ?). split; try done. by right. Qed.

Lemma convertRole_log rf rf' sp r : convertRole r rf = Ok (rf', sp) → log_same rf rf'.
Proof.
  destruct r; cbn; [|by intros [= <- <-]..].
  case_decide; [destruct (heartChan rf); [done| |done]|]; by intros [= <- <-].
Qed.

Lemma step_down_log t rf rf' sp : step_down t rf = Ok (rf', sp) → log_same rf rf'.
Proof.
  unfold step_down. intros Hs. apply bind_Ok in Hs as ([rf1 sp1] & Hc & [= <- <-]).
  by apply convertRole_log in Hc.
Qed.

Lemma startElection_log rf rf' sp : startElection rf = Ok (rf', sp) → log_same rf rf'.
Proof. unfold startElection. cbn. by intros [= <- <-]. Qed.

Lemma handleVote_log reply count rf rf' count' sp :
  handleVote reply count rf = Ok (rf', count', sp) → log_same rf rf'.
Proof.
  unfold handleVote. repeat case_decide; cbn; intros Hv; try by injection Hv as <- <- <-.
  apply bind_Ok in Hv as ([rf1 sp1] & Hs & [= <- <- <-]). by apply step_down_log in Hs.
Qed.

Lemma RequestVote_log now args rf rf' reply sp :
  RequestVote now args rf = Ok (rf', reply, sp) → log_frame rf rf'.
Proof.
  unfold RequestVote. case_decide as H1; [by intros [= <- <- <-]; apply log_same_persist|].
  case_decide as H2; [by intros [= <- <- <-]; apply log_same_persist|].
  intros Hv. apply bind_Ok in Hv as ([rf1 sp1] & Hs & Hv). apply bind_Ok in Hv as (up & _ & Hv).
  assert (log_same rf rf1) as Hsame.
  { clear Hv. case_decide; [by apply step_down_log in Hs|by injection Hs as <- <-]. }
  clear Hs. destruct up; injection Hv as <- <- <-; by apply log_same_persist.
Qed.

Lemma handleAppendEntries_log now server args reply rf rf' sp :
  handleAppendEntries now server args reply rf = Ok (rf', sp) → log_frame rf rf'.
Proof.
  unfold handleAppendEntries. case_decide as Hr; [by intros [= <- <-]; apply log_same_persist|].
  case_decide as Hlt; [|destruct (ar_Success reply)]; intros Hh.
  - apply bind_Ok in Hh as ([rf1 sp1] & Hs & [= <- <-]).
    apply step_down_log in Hs. by apply log_same_persist.
  - apply bind_Ok in Hh as (nx & _ & Hh). apply bind_Ok in Hh as (mt & _ & Hh).
    apply bind_Ok in Hh as ([rf1 sp1] & Hs & [= <- <-]).
    apply commit_scan_frame in Hs as [c ->]. by apply log_same_persist.
  - apply bind_Ok in Hh as (rf1 & Hs & [= <- <-]). apply append_failed_frame in Hs as [l ->].
    by apply log_same_persist.
Qed.

Lemma handleInstallSnapshot_log now server args reply rf rf' sp :
  handleInstallSnapshot now server args reply rf = Ok (rf', sp) → log_frame rf rf'.
Proof.
  unfold handleInstallSnapshot. case_decide as Hr; [by intros [= <- <-]; apply log_frame_refl|].
  case_decide as Hlt; intros Hh.
  - apply bind_Ok in Hh as ([rf1 sp1] & Hs & [= <- <-]).
    apply step_down_log in Hs. by apply log_same_persist.
  - apply bind_Ok in Hh as (nx & _ & Hh). case_decide; [|injection Hh as <- <-; apply log_frame_refl].
    apply bind_Ok in Hh as (l & _ & Hh). apply bind_Ok in Hh as (l' & _ & [= <- <-]).
    by apply log_same_frame.
Qed.

(** Without snapshots, a follower installs nothing. *)
Lemma InstallSnapshot_log now args rf rf' reply sp :
  ia_LastIncludedIndex args ≤ lastIncludedIndex rf →
  InstallSnapshot now args rf = Ok (rf', reply, sp) → log_frame rf rf' ∧ sp = [].
Proof.
  intros Hidx. unfold InstallSnapshot.
  case_decide as Ht; [by intros [= <- <- <-]; split; [apply log_frame_refl|]|].
  intros Hi. apply bind_Ok in Hi as ([[rf1 t] sp1] & Hc & Hi).
  assert (log_same rf rf1 ∧ sp1 = []) as [Hsame ->].
  { clear Hi. case_decide; [|by injection Hc as <- <- <-].
    apply bind_Ok in Hc as ([rf2 sp2] & Hc & [= <- <- <-]).
    split; [by apply convertRole_log in Hc|]. revert Hc. cbn.
    case_decide; [destruct (heartChan rf); [done| |done]|]; by intros [= <- <-]. }
  destruct Hsame as (Hl & Hix & Ha & Hp).
  rewrite decide_True in Hi by (left; by rewrite Hix). injection Hi as <- <- <-.
  split; [by apply log_same_persist|done].
Qed.

Lemma append_log_branch G args rf rf' reply sp :
  branch G (logs rf) → lastIncludedIndex rf = 0 → args_ok G args →
  append_log args rf = Ok (rf', reply, sp) →
  branch G (logs rf') ∧ lastIncludedIndex rf' = 0 ∧ lastApplied rf' = lastApplied rf.
Proof.
  intros Hb Hi (lg & e & Hlg & Hprev & He & Hterm & Hent). unfold append_log.
  case_decide as Hlen; [by intros [= <- <- <-]|].
  unfold convertToStorageIndex. rewrite Hi, Z.sub_0_r.
  intros Ha. apply bind_Ok in Ha as ([t|] & Hc & Ha).
  { apply bind_Ok in Ha as (ix & _ & [= <- <- <-]). done. }
  apply bind_Ok in Ha as (lg1 & [Hr ->]%go_upto_Ok & Ha).
  destruct (logs rf !! Z.to_nat (aa_PrevLogIndex args)) as [e0|] eqn:He0;
    [|apply lookup_ge_None in He0; unfold go_len in Hr; lia].
  assert (le_Term e0 = le_Term e ∨ Z.to_nat (aa_PrevLogIndex args) = 0%nat) as Hk.
  { destruct (decide (0 < aa_PrevLogIndex args)) as [Hpos|]; [left|right; lia].
    apply bind_Ok in Hc as (e1 & [_ He1]%go_index_Ok & Hc).
    rewrite He0 in He1. injection He1 as <-. destruct (decide (le_Term e0 = aa_PrevLogTerm args)); [congruence|done]. }
  pose proof (branch_append G _ _ _ _ _ Hb Hlg He0 He Hk) as Hnew.
  rewrite <-Hent in Hnew. rewrite Z2Nat.inj_add in Ha by lia.
  change (Z.to_nat 1) with 1%nat in Ha. rewrite Nat.add_1_r, Hnew in Ha.
  case_decide; by injection Ha as <- <- <-.
Qed.

Lemma AppendEntries_ok G now args rf rf' reply sp :
  peer_ok G rf → args_ok G args → AppendEntries now args rf = Ok (rf', reply, sp) →
  peer_ok G rf' ∧ leader_frame rf rf'.
Proof.
  intros Hok Hargs Ha. pose proof (AppendEntries_frame _ _ _ _ _ _ Ha) as [_ Hrole].
  revert Ha. unfold AppendEntries. case_decide as Ht.
  { intros [= <- <- <-]. split; [|by apply frames_leader].
    eapply peer_ok_frame; [|done]. by apply log_same_persist. }
  intros Ha. apply bind_Ok in Ha as ([rf1 sp1] & Hc & Ha).
  apply bind_Ok in Ha as ([[rf2 reply2] sp2] & Happ & [= <- <- <-]).
  pose proof (convertRole_follower _ _ _ Hc) as (Hr1 & _).
  apply convertRole_log in Hc as (Hl & Hix & Hla & _).
  pose proof (append_log_frame _ _ _ _ _ Happ) as (_ & _ & _ & _ & Hr2).
  destruct Hok as [H1 H2 H3 _].
  apply (append_log_branch G) in Happ as (Hb & Hi & Hap); [| | |done];
    [|case_decide; cbn; congruence|case_decide; cbn; congruence].
  assert (lastApplied rf2 = lastApplied rf) as Hap' by (rewrite Hap; case_decide; cbn; congruence).
  split.
  - split; cbn; [done|done|lia|]. by apply persisted_ok.
  - intros HL. cbn in HL. rewrite Hr2 in HL. case_decide; cbn in HL; congruence.
Qed.

Lemma genAppendEntries_ok G server rf args :
  peer_ok G rf → genAppendEntries server rf = Ok (args, false) → args_ok G args.
Proof.
  intros [Hb Hi _ _]. unfold genAppendEntries, convertToStorageIndex.
  intros Hg. apply bind_Ok in Hg as (nx & _ & Hg). rewrite Hi in Hg.
  destruct (decide (nx - 1 < 0)) as [|Hnx]; [done|].
  rewrite decide_False in Hg by lia.
  apply bind_Ok in Hg as (t & Ht & Hg). apply bind_Ok in Hg as (ents & [Hr ->]%go_from_Ok & [= <-]).
  apply bind_Ok in Ht as (e & [_ He]%go_index_Ok & [= <-]).
  exists (logs rf), e. cbn. split_and!; try done; [lia| |].
  - by replace (nx - 1) with (nx - 1 - 0) by lia.
  - f_equal. lia.
Qed.

Lemma applyLogs_items G rf r :
  peer_ok G rf → applyLogs rf = Ok r →
  ∃ msgs, r = Some msgs ∧ Forall (λ msg, 0 ≤ CommandIndex msg) msgs.
Proof.
  intros [_ Hi Ha _]. unfold applyLogs. rewrite decide_False by lia.
  case_decide; [intros [= <-]; eauto|].
  intros Hm. apply bind_Ok in Hm as (msgs & Hm & [= <-]). exists msgs. split; [done|].
  assert (∀ l ms, mapM (λ i, command_msg i <$> go_index (logs rf) (convertToStorageIndex rf i)) l = Ok ms →
    Forall (λ i, 0 ≤ i) l → Forall (λ msg : ApplyMsg Cmd, 0 ≤ CommandIndex msg) ms) as Hall.
  { clear. induction l as [|i l IH]; cbn [mapM]; intros ms Hm Hl; [by injection Hm as <-|].
    apply bind_Ok in Hm as (m & Hm0 & Hm). apply bind_Ok in Hm as (ms' & Hms & [= <-]).
    apply fmap_Ok in Hm0 as (e & _ & <-). apply Forall_cons in Hl as [? ?].
    constructor; [done|eauto]. }
  apply (Hall _ _ Hm), Forall_forall. intros i Hin%elem_of_seqZ. lia.
Qed.

(** *** One item *)
Definition is_start (p : pending Cmd) : bool :=
  match p with TStart _ _ _ => true | _ => false end.

Lemma spawned_ok G i sp :
  Forall (item_ok G) (spawned i sp).
Proof. apply Forall_bind, Forall_forall. intros [] _; cbn; by repeat constructor. Qed.

Lemma answered_ok G (live : bool) p i sp :
  item_ok G p → Forall (item_ok G) ((if live then [p] else []) ++ spawned i sp).
Proof. intros Hp. apply Forall_app. split; [destruct live; by repeat constructor|apply spawned_ok]. Qed.

Lemma perform_local now p rf rf' ps ev :
  perform now p rf = Ok (rf', ps, ev) → rf' = rf ∨ local_step rf rf'.
Proof.
  destruct p as [| | | | | | | | | |i []| | | |]; cbn; intros Hp;
    try (by injection Hp as <- <- <-; auto using local_step).
  all: repeat match goal with H : _ ≫= _ = Ok _ |- _ => apply bind_Ok in H as (? & ? & ?) end.
  all: repeat match goal with x : _ * _ |- _ => destruct x end; simplify_eq; eauto using local_step.
  right. apply (ls_start rf term command).
Qed.

(** The peer is unchanged, and so is what is known of it. *)
Ltac same_peer Hpf :=
  injection Hpf as <- <- <-; split_and!; [done| |by intros ?];
  repeat case_match; by repeat constructor.

Lemma perform_ok G now p rf rf' ps ev :
  peer_ok G rf → item_ok G p → is_start p = false → perform now p rf = Ok (rf', ps, ev) →
  peer_ok G rf' ∧ Forall (item_ok G) ps ∧ leader_frame rf rf'.
Proof.
  intros Hok Hp Hns Hpf.
  assert (role_frame rf rf') as Hrole.
  { destruct (perform_local _ _ _ _ _ _ Hpf) as [->|Hls]; [by right|]. by apply local_step_frame. }
  assert (log_frame rf rf' → peer_ok G rf' ∧ leader_frame rf rf') as Hfr.
  { intros Hl. split; [by eapply peer_ok_frame|]. apply frames_leader; [done|apply Hl]. }
  destruct p as [i j|i j args []|live i j args|i j args reply|i j|i j args|live i j args|i j args reply
    |i|i|i [|msg msgs]|i msg msgs|i msg|i t c|i]; cbn in *; try done; try same_peer Hpf.
  - apply bind_Ok in Hpf as ([args snap] & Hg & [= <- <- <-]). split_and!; [done| |by intros ?].
    constructor; [|done]. destruct snap; [done|]. by apply (genAppendEntries_ok G) in Hg.
  - apply bind_Ok in Hpf as ([[rf1 reply] sp] & Ha & [= <- <- <-]).
    apply (AppendEntries_ok G) in Ha as [? ?]; [|done|done]. split_and!; try done. by apply answered_ok.
  - apply bind_Ok in Hpf as ([rf1 sp] & Ha & [= <- <- <-]).
    apply handleAppendEntries_log, Hfr in Ha as [? ?]. split_and!; try done. apply spawned_ok.
  - injection Hpf as <- <- <-. split_and!; [done| |by intros ?]. constructor; [apply Hok|done].
  - apply bind_Ok in Hpf as ([[rf1 reply] sp] & Ha & [= <- <- <-]).
    apply InstallSnapshot_log in Ha as [[? ?]%Hfr _]; [|rewrite Hp, (po_index _ _ Hok); lia].
    split_and!; try done. by apply answered_ok.
  - apply bind_Ok in Hpf as ([rf1 sp] & Ha & [= <- <- <-]).
    apply handleInstallSnapshot_log, Hfr in Ha as [? ?]. split_and!; try done. apply spawned_ok.
  - apply bind_Ok in Hpf as (r & Ha & [= <- <- <-]).
    apply (applyLogs_items G) in Ha as (msgs & -> & Hms); [|done].
    split_and!; [done| |by intros ?]. by constructor.
  - injection Hpf as <- <- <-. split_and!; [done|by constructor|by intros ?].
  - injection Hpf as <- <- <-. apply Forall_cons in Hp as [Hm Hms].
    split_and!; [|by constructor|by apply frames_leader]. destruct Hok. by split.
  - injection Hpf as <- <- <-. destruct Hfr as [? ?]; [by apply log_same_persist|]. done.
Qed.

(** *** The steps *)
Lemma set_node_id i rf b : nodes b !! i = Some rf → set_node i rf b = b.
Proof. intros Hi. destruct b; unfold set_node; cbn in *. by rewrite insert_id. Qed.

(** Seen from the elections, replication is what peers do locally. *)
Lemma repl_base counts crashes allowed s l s' :
  repl_step counts crashes allowed s l s' →
  base s' = base s ∨ ∃ l', cluster_step counts crashes local_step (base s) l' (base s').
Proof.
  destruct 1 as [s l b' Hb|s i rf servers|s i rf term command|s l1 p l2 rf now rf' ps ev Hp Hi _ Hpf
    |s l1 p l2|s i rf Hi]; cbn; try by left.
  - right. exists l. eapply cluster_step_mono; [done| |done]. by intros ? ? [].
  - destruct (perform_local _ _ _ _ _ _ Hpf) as [->|Hls]; [left; by apply set_node_id|].
    right. exists None. by eapply cs_local.
  - right. exists None. eapply cs_local; [done|apply ls_kill].
Qed.

(** What a step of an election does to a peer. *)
Definition elected_frame b b' i rf' : Prop :=
  ∃ rf, nodes b !! i = Some rf ∧
    (log_frame rf rf' ∧
       (leader_frame rf rf' ∨ role rf = Candidate ∧ currentTerm rf' = currentTerm rf) ∨
     ∃ now, Make (size b) i (persister rf) now = Ok rf').

Lemma elected_same b b' i rf : nodes b !! i = Some rf → elected_frame b b' i rf.
Proof. intros Hi. exists rf. split; [done|]. left. split; [apply log_frame_refl|]. by left. Qed.

Lemma election_peer counts crashes b l b' i rf' :
  cluster_step counts crashes no_local b l b' → nodes b' !! i = Some rf' → elected_frame b b' i rf'.
Proof.
  assert (∀ b b' j rf rf1, nodes b !! j = Some rf → nodes b' = <[j := rf1]> (nodes b) →
    (log_frame rf rf1 ∧
       (leader_frame rf rf1 ∨ role rf = Candidate ∧ currentTerm rf1 = currentTerm rf) ∨
     ∃ now, Make (size b) j (persister rf) now = Ok rf1) →
    nodes b' !! i = Some rf' → elected_frame b b' i rf') as Hset.
  { intros b0 b0' j rf rf1 Hj Hn Hfr Hi. rewrite Hn in Hi. destruct (decide (j = i)) as [->|Hne].
    - rewrite lookup_insert_eq in Hi. injection Hi as <-. by exists rf.
    - rewrite lookup_insert_ne in Hi by done. by apply elected_same. }
  intros Hstep. destruct Hstep as
    [s j rf rf1 sp Hj Hph Hst|s j rf args Hj Hph Hgen|s j rf Hj Hph
    |s l1 e j l2 el rf now rf1 reply sp Hrq He Hj Hrv|s l1 m l2 Hrq
    |s l1 e j reply l2 el rf rf1 count sp Hrp He Hl Hj Hcs Hhv|s l1 m l2 Hrp
    |s j rf rf1 Hj []|s j rf now rf1 Hj Hph HM]; try by apply elected_same.
  - eapply (Hset s _ j rf rf1); [done..|]. left.
    split; [by eapply log_same_frame, startElection_log|].
    unfold startElection in Hst. cbn in Hst. injection Hst as <- <-. by left.
  - eapply (Hset s _ j rf (persist rf)); [done..|]. left. split; [by apply log_same_persist|by left].
  - eapply (Hset s _ j rf rf1); [done..|]. left. pose proof (RequestVote_log _ _ _ _ _ _ Hrv) as Hlf.
    split; [done|]. left. apply frames_leader; [|apply Hlf].
    apply RequestVote_frame in Hrv. apply Hrv.
  - eapply (Hset s _ (el_owner el) rf rf1); [done..|]. left.
    pose proof (log_same_frame _ _ (handleVote_log _ _ _ _ _ _ Hhv)) as Hlf. split; [done|].
    apply handleVote_cases in Hhv as [_ [(_ & Hr & _)|(_ & Hr & _ & Ht & _)]]; [left|by right].
    apply frames_leader; [done|apply Hlf].
  - eapply (Hset s _ j rf rf1); [done..|]. right. by exists now.
Qed.

(** A restart reads a branch. *)
Lemma Make_ok G n i rf now rf' :
  G !! (0%nat, 0) = Some [dummy] → peer_ok G rf → Make n i (persister rf) now = Ok rf' → peer_ok G rf'.
Proof.
  intros HG [_ _ _ Hd]. unfold Make, ReadRaftState, readPersist.
  case_decide as He; intros HM.
  - injection HM as <-. unfold readSnapshotPersist. case_decide; split; cbn; try done;
      (by apply branch_root) || (by left).
  - destruct Hd as [Hd|(t & v & lg & it & Hdec & Hb)]; [done|]. rewrite Hdec in HM.
    injection HM as <-. unfold readSnapshotPersist. case_decide; split; cbn; try done; right; eauto 8.
Qed.

Lemma orphan_ok G i p q : item_ok G p → q ∈ orphan i p → item_ok G q.
Proof.
  destruct p; cbn; try case_decide; rewrite ?list_elem_of_singleton; intros Hp Hq;
    subst; try done; by apply not_elem_of_nil in Hq.
Qed.

(** A new leader finds no entry of its term in the tree. *)
Lemma elected_leader G s b' l i rf rf' k lg :
  inv (base s) → cand_ok (base s) → tree_ok G s → inv b' →
  cluster_step same_term saved_crash local_step (base s) l b' →
  nodes (base s) !! i = Some rf → role rf = Candidate → currentTerm rf' = currentTerm rf →
  logs rf' = logs rf → nodes b' !! i = Some rf' → role rf' = Leader →
  G !! (k, currentTerm rf') = Some lg → lg `prefix_of` logs rf'.
Proof.
  intros Hinv Hc HG Hinv' Hstep Hi Hr Ht Hl Hi' Hr' Hk.
  destruct (to_won _ _ HG _ _ _ Hk) as [[-> H0]|[j Hw]].
  - rewrite H0, (to_root _ _ HG) in Hk. injection Hk as <-.
    pose proof (po_log _ _ (to_peer _ _ HG _ _ Hi)) as [Hd _]. rewrite Hl.
    destruct (logs rf) as [|e lg]; [done|]. injection Hd as ->. by exists lg.
  - exfalso. apply (Hc i rf Hi Hr). rewrite <-Ht.
    pose proof (won_step _ _ _ _ _ Hstep Hw) as [_ Hw'].
    by rewrite <-(won_unique b' j i (currentTerm rf') Hinv' Hw' (inv_leader _ Hinv' _ _ Hi' Hr')).
Qed.

Lemma tree_election G s l b' :
  inv (base s) → cand_ok (base s) → tree_ok G s → inv b' →
  cluster_step same_term saved_crash no_local (base s) l b' →
  tree_ok G {| base := b'; items := match l with Some i => items s ≫= orphan i | None => items s end |}.
Proof.
  intros Hinv Hc HG Hinv' Hstep.
  assert (cluster_step same_term saved_crash local_step (base s) l b') as Hls
    by (eapply cluster_step_mono; [done| |done]; by intros ? ? []).
  split; [apply HG|apply HG| | | |]; cbn.
  - intros i rf' Hi. destruct (election_peer _ _ _ _ _ _ _ Hstep Hi) as (rf & Hrf & [[Hlf _]|[now HM]]).
    + eapply peer_ok_frame; [done|]. by eapply to_peer.
    + eapply Make_ok; [apply HG| |done]. by eapply to_peer.
  - destruct l as [i|]; [|apply HG]. intros p (q & Hp & Hq)%list_elem_of_bind.
    eapply orphan_ok; [|done]. by apply (to_item _ _ HG).
  - intros i rf' k lg Hi Hr Hk.
    destruct (election_peer _ _ _ _ _ _ _ Hstep Hi) as (rf & Hrf & [[Hlf [Hlead|[Hcand Ht]]]|[now HM]]).
    + destruct (Hlead Hr) as (Hr0 & Ht0 & ->). rewrite Ht0 in Hk. by eapply to_leader.
    + eapply (elected_leader G s b'); eauto. apply Hlf.
    + apply Make_saved in HM as [? _]. congruence.
  - intros k t lg Hk. destruct (to_won _ _ HG _ _ _ Hk) as [?|[i Hw]]; [by left|right].
    exists i. by eapply won_step.
Qed.

(** Steps that change one peer and the items. *)
Lemma tree_set G s i rf rf' its :
  tree_ok G s → nodes (base s) !! i = Some rf → peer_ok G rf' → leader_frame rf rf' →
  (∀ p, p ∈ its → item_ok G p) →
  tree_ok G {| base := set_node i rf' (base s); items := its |}.
Proof.
  intros HG Hi Hok Hlf Hits. split; [apply HG|apply HG| |done| |]; cbn.
  - intros j rfj Hj. destruct (decide (i = j)) as [->|Hne].
    + rewrite lookup_insert_eq in Hj. by injection Hj as <-.
    + rewrite lookup_insert_ne in Hj by done. by eapply to_peer.
  - intros j rfj k lg Hj Hr Hk. destruct (decide (i = j)) as [->|Hne].
    + rewrite lookup_insert_eq in Hj. injection Hj as <-. destruct (Hlf Hr) as (Hr0 & Ht0 & ->).
      rewrite Ht0 in Hk. by eapply to_leader.
    + rewrite lookup_insert_ne in Hj by done. by eapply to_leader.
  - intros k t lg Hk. destruct (to_won _ _ HG _ _ _ Hk) as [?|[j Hw]]; [by left|right].
    exists j. by eapply won_same; [..|exact Hw].
Qed.

(** A leader adds an entry of its term to the tree. *)
Definition grow (term : Z) (command : Cmd) rf G : tree :=
  <[(length (logs rf), term) := logs (Start_append term command rf).1]> G.

Lemma leader_fresh G s i rf :
  tree_ok G s → nodes (base s) !! i = Some rf → role rf = Leader →
  G !! (length (logs rf), currentTerm rf) = None.
Proof.
  intros HG Hi Hr. destruct (G !! _) as [lg|] eqn:Hk; [|done].
  pose proof (prefix_length _ _ (to_leader _ _ HG _ _ _ _ Hi Hr Hk)) as Hlen.
  rewrite (to_length _ _ HG _ _ _ Hk) in Hlen. lia.
Qed.

Lemma tree_start G s i rf command its :
  inv (base s) → tree_ok G s → nodes (base s) !! i = Some rf → role rf = Leader →
  (∀ p, p ∈ its → item_ok G p) →
  tree_ok (grow (currentTerm rf) command rf G)
    {| base := set_node i (Start_append (currentTerm rf) command rf).1 (base s); items := its |}.
Proof.
  intros Hinv HG Hi Hr Hits. unfold grow. set (t := currentTerm rf).
  set (e := {| le_Term := t; le_Command := Some command |} : LogEntry_ Cmd).
  pose proof (leader_fresh _ _ _ _ HG Hi Hr : G !! (length (logs rf), t) = None) as Hfresh.
  change (logs (Start_append t command rf).1) with (logs rf ++ [e]).
  assert (G ⊆ <[(length (logs rf), t) := logs rf ++ [e]]> G) as Hsub by by apply insert_subseteq.
  pose proof (inv_leader _ Hinv _ _ Hi Hr) as Hwi.
  assert (∀ k t' lg, <[(length (logs rf), t) := logs rf ++ [e]]> G !! (k, t') = Some lg →
    k = length (logs rf) ∧ t' = t ∧ lg = logs rf ++ [e] ∨ G !! (k, t') = Some lg) as Hcase.
  { intros k t' lg [[[= <- <-] <-]|[_ Hk]]%lookup_insert_Some; [by left|by right]. }
  split; cbn.
  - eapply lookup_weaken; [apply HG|done].
  - intros k t' lg [(-> & -> & ->)|Hk]%Hcase; [rewrite length_app; cbn; lia|by eapply to_length].
  - intros j rfj Hj. destruct (decide (i = j)) as [->|Hne].
    + rewrite lookup_insert_eq in Hj. injection Hj as <-.
      destruct (peer_ok_mono _ _ _ Hsub (to_peer _ _ HG _ _ Hi)) as [_ Hix Ha Hd].
      split; [|done..]. apply branch_snoc; [|done]. apply (to_peer _ _ HG _ _ Hi).
    + rewrite lookup_insert_ne in Hj by done. eapply peer_ok_mono; [done|]. by eapply to_peer.
  - intros p Hp. eapply item_ok_mono; eauto.
  - intros j rfj k lg Hj Hrj Hk. destruct (decide (i = j)) as [->|Hne].
    + rewrite lookup_insert_eq in Hj. injection Hj as <-. cbn in *.
      apply Hcase in Hk as [(_ & _ & ->)|Hk]; [done|].
      apply prefix_app_r. by eapply to_leader.
    + rewrite lookup_insert_ne in Hj by done.
      apply Hcase in Hk as [(_ & Ht & _)|Hk]; [|by eapply to_leader].
      exfalso. apply Hne, (won_unique (base s) _ _ t Hinv Hwi).
      rewrite <-Ht. by apply (inv_leader _ Hinv).
  - intros k t' lg [(-> & -> & ->)|Hk]%Hcase.
    + right. exists i. by eapply won_same; [..|exact Hwi].
    + destruct (to_won _ _ HG _ _ _ Hk) as [?|[j Hw]]; [by left|right].
      exists j. by eapply won_same; [..|exact Hw].
Qed.

Lemma tree_items G s its :
  tree_ok G s → (∀ p, p ∈ its → item_ok G p) → tree_ok G {| base := base s; items := its |}.
Proof. intros HG Hits. split; try apply HG. done. Qed.

(** An item takes its next step. *)
Lemma item_taken s l1 p l2 ps q :
  items s = l1 ++ p :: l2 → q ∈ l1 ++ l2 ++ ps → q ∈ items s ∨ q ∈ ps.
Proof. intros ->. rewrite !elem_of_app, elem_of_cons. tauto. Qed.

Lemma tree_perform G s l1 p l2 rf now rf' ps ev :
  tree_ok G s → items s = l1 ++ p :: l2 → nodes (base s) !! site p = Some rf →
  is_start p = false → perform now p rf = Ok (rf', ps, ev) →
  tree_ok G {| base := set_node (site p) rf' (base s); items := l1 ++ l2 ++ ps |}.
Proof.
  intros HG Hp Hi Hst Hpf.
  assert (item_ok G p) as Hpok by (apply (to_item _ _ HG); rewrite Hp; set_solver).
  apply (perform_ok G) in Hpf as (Hok & Hps & Hlf); [|by eapply to_peer|done|done].
  eapply tree_set; [done..|]. intros q [Hq|Hq]%(item_taken s _ p); [|by eapply Forall_forall|done].
  by apply (to_item _ _ HG).
Qed.

Lemma tree_command G s l1 i command l2 rf :
  inv (base s) → tree_ok G s → items s = l1 ++ TStart i (currentTerm rf) command :: l2 →
  nodes (base s) !! i = Some rf → role rf = Leader →
  tree_ok (grow (currentTerm rf) command rf G)
    {| base := set_node i (Start_append (currentTerm rf) command rf).1 (base s);
       items := l1 ++ l2 ++ [TPersist i] |}.
Proof.
  intros Hinv HG Hp Hi Hr. apply tree_start; try done.
  intros q [Hq|Hq]%(item_taken s _ _ _ _ _ Hp); [by apply (to_item _ _ HG)|].
  by apply list_elem_of_singleton in Hq as ->.
Qed.

Lemma tree_kill G s i rf :
  tree_ok G s → nodes (base s) !! i = Some rf →
  tree_ok G {| base := set_node i (Kill rf) (base s); items := items s |}.
Proof.
  intros HG Hi. eapply tree_set; [done|done| |by intros ?|apply HG].
  eapply peer_ok_frame; [|by eapply to_peer]. by apply log_same_frame.
Qed.

(** Items that come and go on their own. *)
Lemma tree_heartbeat G s i servers :
  tree_ok G s → tree_ok G {| base := base s; items := items s ++ (TGen i <$> servers) |}.
Proof.
  intros HG. apply tree_items; [done|]. intros p [Hp|Hp]%elem_of_app; [by apply (to_item _ _ HG)|].
  by apply list_elem_of_fmap in Hp as (j & -> & _).
Qed.

Lemma tree_called G s i term command :
  tree_ok G s → tree_ok G {| base := base s; items := items s ++ [TStart i term command] |}.
Proof.
  intros HG. apply tree_items; [done|]. intros p [Hp|Hp]%elem_of_app; [by apply (to_item _ _ HG)|].
  by apply list_elem_of_singleton in Hp as ->.
Qed.

Lemma tree_lost G s l1 p l2 :
  tree_ok G s → items s = l1 ++ p :: l2 → tree_ok G {| base := base s; items := l1 ++ l2 |}.
Proof.
  intros HG Hp. apply tree_items; [done|]. intros q Hq. apply (to_item _ _ HG). rewrite Hp. set_solver.
Qed.

Lemma is_start_inv p : is_start p = true → ∃ i t c, p = TStart i t c.
Proof. destruct p; try done. eauto. Qed.

Lemma tree_step G s l s' :
  inv (base s) → cand_ok (base s) → tree_ok G s → inv (base s') →
  repl_step same_term saved_crash while_leader s l s' → ∃ G', tree_ok G' s'.
Proof.
  intros Hinv Hc HG Hinv'.
  destruct 1 as [s l b' Hb|s i rf servers Hi Hh|s i rf term command Hi Hs
    |s l1 p l2 rf now rf' ps ev Hp Hi Hms Hpf|s l1 p l2 Hp Hcall|s i rf Hi].
  - exists G. by apply tree_election.
  - exists G. by apply tree_heartbeat.
  - exists G. by apply tree_called.
  - destruct (is_start p) eqn:Hst.
    + apply is_start_inv in Hst as (i & t & c & ->). cbn in Hpf, Hms.
      injection Hpf as <- <- <-. destruct Hms as [Hr <-]. eexists. by apply tree_command.
    + exists G. by eapply tree_perform.
  - exists G. by eapply tree_lost.
  - exists G. by apply tree_kill.
Qed.

Lemma rinv_step s l s' : rinv s → repl_step same_term saved_crash while_leader s l s' → rinv s'.
Proof.
  intros (Hinv & Hc & G & HG) Hstep.
  assert (inv (base s') ∧ cand_ok (base s')) as [Hinv' Hc'].
  { destruct (repl_base _ _ _ _ _ _ Hstep) as [->|[l' Hb]]; [done|].
    split; [by eapply winv_step|by eapply cand_step]. }
  split; [done|]. split; [done|]. by apply (tree_step G s l s').
Qed.

Lemma tree_init n : tree_ok {[(0%nat, 0) := [dummy]]} (repl_init n).
Proof.
  split; cbn.
  - by rewrite lookup_singleton_eq.
  - by intros k t lg [[= <- <-] <-]%lookup_singleton_Some.
  - intros i rf Hi. rewrite lookup_map_on in Hi. case_decide; [|done]. injection Hi as <-.
    split; [|done|done|by left]. apply branch_root. by rewrite lookup_singleton_eq.
  - by intros p Hp%not_elem_of_nil.
  - intros i rf k lg Hi Hr. rewrite lookup_map_on in Hi. case_decide; [|done]. by injection Hi as <-.
  - intros k t lg [[= <- <-] <-]%lookup_singleton_Some. by left.
Qed.

Lemma rinv_init n : rinv (repl_init n).
Proof. split; [apply winv_init|]. split; [apply cand_init|]. eexists. apply tree_init. Qed.

(** C5. Log matching: in a cluster whose peers count votes in the term they
    were asked for, do not crash between the requests of an election and the save
    of its term and vote, and append commands only while they lead, and whose
    services take no snapshots, two logs that have an
    entry of the same index and term are equal up to that entry, whatever was
    lost, delayed or reordered, and across all other crashes and restarts. *)
Theorem log_matching n tr s i j rfi rfj k ei ej :
  run (repl_step same_term saved_crash while_leader) (repl_init n) tr s →
  nodes (base s) !! i = Some rfi → nodes (base s) !! j = Some rfj →
  logs rfi !! k = Some ei → logs rfj !! k = Some ej → le_Term ei = le_Term ej →
  take (S k) (logs rfi) = take (S k) (logs rfj).
Proof.
  intros Hr Hi Hj Hei Hej Ht.
  assert (rinv s) as (_ & _ & G & HG) by (eapply (run_invariant _ rinv); [apply rinv_step|done|apply rinv_init]).
  eapply branch_matching; [by eapply po_log, to_peer|by eapply po_log, to_peer|done..].
Qed.
End Matching.
