(* ===== verification/CommitWorld.v ===== *)
(** * Raft: what is stored where, and what is committed

    The ghost state of the proof of state machine safety.  A [world] is what
    the elections and the tree of logs of [LogMatching] say, together with the
    acknowledgements given so far: [(j, m, t)] when server [j] has stored the
    entry of index [m] and term [t], on disk, while [t] was its term.  An entry
    is [committed] when a majority has acknowledged it, and [lost] when a
    majority has voted in a later term without having done so: no entry is
    both, and what is lost stays lost.  [complete] is what a leader knows: its
    log has every entry of an earlier term that is not lost.  [grows] is how a
    world may change, and the facts about logs here are kept by it. *)
From S2P Require Import Prelude GoLib Raft RaftPeer RaftElection ElectionSafety.
From S2P Require Import RaftReplication LogMatching.
Local Open Scope Z_scope.

Section World.
Context {Cmd : Type} `{!Gob Cmd}.
Local Abbreviation log := (list (LogEntry_ Cmd)).
Local Abbreviation tree := (gmap (nat * Z) log).
Implicit Types (lg L : log) (G : tree).

Record world := {
  w_size : Z;
  w_elections : list election;
  w_tree : tree;
  w_acks : gset (Z * nat * Z);
}.
Implicit Types (w : world).

(** ** Entries, majorities *)
Definition holds lg (m : nat) (t : Z) : Prop := le_Term <$> lg !! m = Some t.

Definition node w (m : nat) (t : Z) : Prop := is_Some (w_tree w !! (m, t)).

Record quorum (n : Z) (W : list Z) : Prop := {
  qu_size : 0 ≤ n;
  qu_nodup : NoDup W;
  qu_range : ∀ j, j ∈ W → 0 ≤ j < n;
  qu_most : n `quot` 2 < go_len W;
}.

Lemma quorums_meet n A B : quorum n A → quorum n B → ∃ j, j ∈ A ∧ j ∈ B.
Proof.
  intros [Hn HA HAr HAm] [_ HB HBr HBm].
  destruct (decide (Exists (λ j, j ∈ B) A)) as [Hex|Hno]; [by apply Exists_exists in Hex|exfalso].
  assert (∀ j, j ∈ A → j ∉ B) as Hdis by (intros j Hj Hj'; apply Hno, Exists_exists; eauto).
  assert (A ++ B ⊆+ seqZ 0 n) as Hsub.
  { apply NoDup_submseteq; [by apply NoDup_app|].
    intros j [Hj%HAr|Hj%HBr]%elem_of_app; apply elem_of_seqZ; lia. }
  apply submseteq_length in Hsub. rewrite length_app, length_seqZ in Hsub.
  pose proof (majorities_meet n _ _ Hn HAm HBm). unfold go_len in *. lia.
Qed.

(** [j] voted in a term after [t], and its vote was counted. *)
Definition moved w (j t : Z) : Prop :=
  ∃ e el, w_elections w !! e = Some el ∧ t < el_term el ∧ el_voters el ≠ [] ∧
    j ∈ el_owner el :: el_voters el.

(** [won], of the world. *)
Definition elected w (i t : Z) : Prop :=
  ∃ e el, w_elections w !! e = Some el ∧ el_owner el = i ∧ el_term el = t ∧
    el_voters el ≠ [] ∧ w_size w `quot` 2 < el_count el.

Definition committed w (m : nat) (t : Z) : Prop :=
  ∃ W, quorum (w_size w) W ∧ ∀ j, j ∈ W → (j, m, t) ∈ w_acks w.

Definition lost w (m : nat) (t : Z) : Prop :=
  ∃ W, quorum (w_size w) W ∧ ∀ j, j ∈ W → moved w j t ∧ (j, m, t) ∉ w_acks w.

Lemma committed_not_lost w m t : committed w m t → ¬ lost w m t.
Proof.
  intros (A & HA & HAa) (B & HB & HBa). destruct (quorums_meet _ _ _ HA HB) as (j & Hj & Hj').
  by destruct (HBa j Hj') as [_ []]; apply HAa.
Qed.

(** ** Logs *)
Definition led w (u : Z) : Prop := u = 0 ∨ ∃ i, elected w i u.

Definition below (u : Z) lg : Prop := Forall (λ e, le_Term e ≤ u) lg.

Definition complete w (u : Z) lg : Prop :=
  ∀ m t, node w m t → t < u → holds lg m t ∨ lost w m t.

(** As long as [lg] is, it has the entries of [u]. *)
Definition linear w (u : Z) lg : Prop :=
  ∀ m, node w m u → (m < length lg)%nat → holds lg m u.

(** Everything in [lg] up to [c] is committed. *)
Definition point w lg (c : Z) : Prop :=
  c ≤ 0 ∨ ∃ n u, committed w n u ∧ holds lg n u ∧ c ≤ Z.of_nat n.

(** A message for the service: a committed entry. *)
Definition said w (msg : ApplyMsg Cmd) : Prop :=
  ∃ n u lg e, committed w n u ∧ w_tree w !! (n, u) = Some lg ∧
    0 ≤ CommandIndex msg ≤ Z.of_nat n ∧ lg !! Z.to_nat (CommandIndex msg) = Some e ∧
    Command msg = le_Command e.

(** The log of a leader of term [u], or one that it has sent. *)
Record sound w (u : Z) lg : Prop := {
  so_led : led w u;
  so_below : below u lg;
  so_complete : complete w u lg;
  so_linear : linear w u lg;
}.

(** Every log of the tree is the log of the leader that added its last entry. *)
Definition nodes_ok w : Prop :=
  ∀ n u lg, w_tree w !! (n, u) = Some lg →
    length lg = S n ∧ branch (w_tree w) lg ∧ holds lg n u ∧ sound w u lg.

Lemma holds_lt lg m t : holds lg m t → (m < length lg)%nat.
Proof. unfold holds. intros (e & He & _)%fmap_Some. by eapply lookup_lt_Some. Qed.

Lemma holds_below lg m t u : holds lg m t → below u lg → t ≤ u.
Proof.
  unfold holds. intros (e & He & ->)%fmap_Some Hb. apply (proj1 (Forall_lookup _ _) Hb _ _ He).
Qed.

Lemma holds_app lg tl m t : holds lg m t → holds (lg ++ tl) m t.
Proof. intros Hh. unfold holds. rewrite lookup_app_l by (by eapply holds_lt). done. Qed.

Lemma holds_prefix lg lg' m t : lg `prefix_of` lg' → holds lg m t → holds lg' m t.
Proof. intros [tl ->]. apply holds_app. Qed.

(** An entry of an older term than the tail's is in front of it. *)
Lemma holds_front lg tl m t :
  holds (lg ++ tl) m t → Forall (λ e, le_Term e ≠ t) tl → holds lg m t.
Proof.
  unfold holds. intros (e & [He|[_ He]]%lookup_app_Some & ->)%fmap_Some Htl; [by rewrite He|].
  by destruct (proj1 (Forall_lookup _ _) Htl _ _ He).
Qed.

Lemma branch_node w lg m t :
  branch (w_tree w) lg → holds lg m t → w_tree w !! (m, t) = Some (take (S m) lg).
Proof. unfold holds. intros [_ Hb] (e & He & ->)%fmap_Some. by apply Hb. Qed.

Lemma branch_nonempty G lg : branch G lg → lg ≠ [].
Proof. by intros [Hd _] ->. Qed.

(** An entry of a log is also in one that replaces it, if no later entry of
    the new log's term is given up. *)
Lemma kept w u lg L m t :
  sound w u L → branch (w_tree w) lg → holds lg m t → t ≤ u →
  (∀ k, holds lg k u → (k < length L)%nat) → holds L m t ∨ lost w m t.
Proof.
  intros [_ _ Hc Hl] Hb Hh Ht Hlen.
  assert (node w m t) as Hn by (eexists; by apply branch_node).
  destruct (decide (t = u)) as [->|Hne]; [left; by apply Hl; [|apply Hlen]|].
  apply Hc; [done|lia].
Qed.

Lemma point_kept w u lg L c :
  sound w u L → branch (w_tree w) lg → below u lg →
  (∀ k, holds lg k u → (k < length L)%nat) → point w lg c → point w L c.
Proof.
  intros Hs Hb Hu Hlen [Hc|(n & t & Hct & Hh & Hc)]; [by left|right].
  exists n, t. split_and!; [done| |done].
  destruct (kept w u lg L n t) as [Hk|Hk]; [done|done|done|by eapply holds_below|done|done|].
  by destruct (committed_not_lost _ _ _ Hct).
Qed.

Lemma point_app w lg tl c : point w lg c → point w (lg ++ tl) c.
Proof.
  intros [Hc|(n & t & Hct & Hh & Hc)]; [by left|right]. exists n, t. eauto using holds_app.
Qed.

Lemma point_le w lg c c' : c' ≤ c → point w lg c → point w lg c'.
Proof.
  intros Hle [Hc|(n & t & Hct & Hh & Hc)]; [left; lia|right].
  exists n, t. split_and!; [done|done|lia].
Qed.

(** The last entry of a log has its largest term. *)
Lemma last_node w lg :
  nodes_ok w → branch (w_tree w) lg →
  ∃ e, lg !! pred (length lg) = Some e ∧ sound w (le_Term e) lg ∧
    w_tree w !! (pred (length lg), le_Term e) = Some lg.
Proof.
  intros Hok Hb. pose proof (branch_nonempty _ _ Hb) as Hne.
  destruct (lookup_lt_is_Some_2 lg (pred (length lg))) as [e He]; [destruct lg; cbn in *; [done|lia]|].
  exists e. split; [done|]. pose proof (branch_node w lg (pred (length lg)) (le_Term e) Hb) as Hn.
  unfold holds in Hn. rewrite He in Hn. specialize (Hn eq_refl).
  rewrite firstn_all2 in Hn by lia. split; [|done]. by apply Hok in Hn as (_ & _ & _ & ?).
Qed.

(** A log that is at least as up to date as another one has its entries. *)
Lemma up_to_date_kept w lg L k u e m t :
  nodes_ok w → branch (w_tree w) lg → w_tree w !! (k, u) = Some L →
  lg !! pred (length lg) = Some e →
  le_Term e < u ∨ u = le_Term e ∧ (length lg ≤ S k)%nat →
  holds lg m t → holds L m t ∨ lost w m t.
Proof.
  intros Hok Hb HL He Hup Hh. destruct (last_node w lg Hok Hb) as (e' & He' & [_ Hbl _ _] & _).
  rewrite He in He'. injection He' as <-.
  apply Hok in HL as (Hlen & _ & _ & Hs). pose proof (holds_below _ _ _ _ Hh Hbl).
  apply (kept w u lg L); [done|done|done|lia|].
  intros k' Hk. pose proof (holds_below _ _ _ _ Hk Hbl). apply holds_lt in Hk.
  destruct Hup as [?|[_ ?]]; lia.
Qed.

(** Two committed entries are in one log, so what is said of an index is the
    same command. *)
Lemma said_unique w m1 m2 :
  nodes_ok w → said w m1 → said w m2 → CommandIndex m1 = CommandIndex m2 → Command m1 = Command m2.
Proof.
  intros Hok (n1 & u1 & lg1 & e1 & Hc1 & HG1 & Hi1 & He1 & Hm1)
    (n2 & u2 & lg2 & e2 & Hc2 & HG2 & Hi2 & He2 & Hm2) Heq.
  assert (∀ n n' u u' lg lg', committed w n u → w_tree w !! (n, u) = Some lg →
    w_tree w !! (n', u') = Some lg' → u < u' ∨ u = u' ∧ (n ≤ n')%nat → take (S n) lg' = lg) as Hpre.
  { intros n n' u u' lg lg' Hct Hlg Hlg' Hlt.
    apply Hok in Hlg' as (Hlen' & Hb' & _ & [_ _ Hcp Hln]).
    assert (node w n u) as Hn by by eexists.
    assert (holds lg' n u ∨ lost w n u) as [Hh|Hl].
    { destruct Hlt as [Hlt|[-> Hle]]; [by apply Hcp|left; apply Hln; [done|lia]]. }
    - pose proof (branch_node _ _ _ _ Hb' Hh). congruence.
    - by destruct (committed_not_lost _ _ _ Hct). }
  rewrite Heq in *. destruct (decide (u1 < u2 ∨ u1 = u2 ∧ (n1 ≤ n2)%nat)) as [Hlt|Hge].
  - rewrite <-(Hpre _ _ _ _ _ _ Hc1 HG1 HG2 Hlt) in He1. rewrite lookup_take_lt in He1 by lia. congruence.
  - rewrite <-(Hpre _ _ _ _ _ _ Hc2 HG2 HG1 ltac:(lia)) in He2.
    rewrite lookup_take_lt in He2 by lia. congruence.
Qed.

(** ** How a world grows *)
Record grows w w' : Prop := {
  gr_size : w_size w' = w_size w;
  gr_tree : w_tree w ⊆ w_tree w';
  gr_acks : w_acks w ⊆ w_acks w';
  gr_elected : ∀ i t, elected w i t → elected w' i t;
  gr_lost : ∀ m t, lost w m t → lost w' m t;
  gr_complete : ∀ u lg, led w u → complete w u lg → complete w' u lg;
}.

Lemma grows_refl w : grows w w.
Proof. by split. Qed.

Lemma led_grows w w' u : grows w w' → led w u → led w' u.
Proof. intros Hg [->|[i Hi]]; [by left|right]. exists i. by apply (gr_elected _ _ Hg). Qed.

Lemma grows_trans w1 w2 w3 : grows w1 w2 → grows w2 w3 → grows w1 w3.
Proof.
  intros H12 H23. split.
  - by rewrite (gr_size _ _ H23), (gr_size _ _ H12).
  - etrans; [apply H12|apply H23].
  - etrans; [apply H12|apply H23].
  - intros. by apply (gr_elected _ _ H23), (gr_elected _ _ H12).
  - intros. by apply (gr_lost _ _ H23), (gr_lost _ _ H12).
  - intros u lg Hu Hc. apply (gr_complete _ _ H23); [by eapply led_grows|].
    by apply (gr_complete _ _ H12).
Qed.

Lemma committed_grows w w' m t : grows w w' → committed w m t → committed w' m t.
Proof.
  intros Hg (W & HW & Ha). exists W. rewrite (gr_size _ _ Hg). split; [done|].
  intros j Hj. by apply (gr_acks _ _ Hg), Ha.
Qed.

Lemma node_grows w w' m t : grows w w' → node w m t → node w' m t.
Proof. intros Hg [lg Hlg]. exists lg. eapply lookup_weaken; [done|apply Hg]. Qed.

Lemma branch_grows w w' lg : grows w w' → branch (w_tree w) lg → branch (w_tree w') lg.
Proof. intros Hg. apply branch_mono, Hg. Qed.

Lemma point_grows w w' lg c : grows w w' → point w lg c → point w' lg c.
Proof.
  intros Hg [Hc|(n & u & Hct & ? & ?)]; [by left|right]. exists n, u. eauto using committed_grows.
Qed.

Lemma said_grows w w' msg : grows w w' → said w msg → said w' msg.
Proof.
  intros Hg (n & u & lg & e & Hc & Hlg & ?). exists n, u, lg, e.
  split; [by eapply committed_grows|]. split; [|done]. eapply lookup_weaken; [done|apply Hg].
Qed.

(** Only a new entry can break [linear]. *)
Lemma sound_grows w w' u lg :
  grows w w' → sound w u lg → linear w' u lg → sound w' u lg.
Proof.
  intros Hg [Hl Hb Hc _] Hln. split; [by eapply led_grows|done| |done]. by apply (gr_complete _ _ Hg).
Qed.

Lemma sound_same_tree w w' u lg :
  grows w w' → w_tree w' = w_tree w → sound w u lg → sound w' u lg.
Proof.
  intros Hg Ht Hs. apply (sound_grows w); [done|done|]. unfold linear, node. rewrite Ht. apply Hs.
Qed.

Lemma nodes_ok_same_tree w w' :
  grows w w' → w_tree w' = w_tree w → nodes_ok w → nodes_ok w'.
Proof.
  intros Hg Ht Hok n u lg. rewrite Ht. intros Hlg. destruct (Hok n u lg Hlg) as (? & ? & ? & ?).
  split_and!; [done..|]. by eapply sound_same_tree.
Qed.

(** Losing more is harmless when the tree stays the same. *)
Lemma grows_same_tree w w' :
  w_size w' = w_size w → w_tree w' = w_tree w → w_acks w ⊆ w_acks w' →
  (∀ i t, elected w i t → elected w' i t) → (∀ m t, lost w m t → lost w' m t) → grows w w'.
Proof.
  intros Hsz Ht Ha He Hl. split; try done; [by rewrite Ht|].
  intros u lg _ Hc m t Hn Hlt. unfold node in Hn. rewrite Ht in Hn.
  destruct (Hc m t Hn Hlt) as [?|?]; [by left|right; by apply Hl].
Qed.

(** *** Votes *)
Definition set_elections (els : list election) w : world :=
  {| w_size := w_size w; w_elections := els; w_tree := w_tree w; w_acks := w_acks w |}.

(** Elections only gain votes. *)
Definition more_votes (els els' : list election) : Prop :=
  ∀ e el, els !! e = Some el → ∃ el', els' !! e = Some el' ∧ el_owner el' = el_owner el ∧
    el_term el' = el_term el ∧ el_voters el ⊆ el_voters el' ∧ el_count el ≤ el_count el'.

Lemma more_votes_refl els : more_votes els els.
Proof. intros e el He. exists el. by split_and!. Qed.

Lemma voters_nonempty (l l' : list Z) : l ≠ [] → l ⊆ l' → l' ≠ [].
Proof. intros Hl Hs ->. destruct l as [|x l]; [done|]. by apply (not_elem_of_nil x), Hs; left. Qed.

Lemma moved_more els w j t :
  more_votes (w_elections w) els → moved w j t → moved (set_elections els w) j t.
Proof.
  intros Hm (e & el & He & Ht & Hne & Hj). destruct (Hm e el He) as (el' & He' & Ho & Ht' & Hv & _).
  exists e, el'. rewrite Ho, Ht'. split_and!; [done|done|by eapply voters_nonempty|].
  apply elem_of_cons in Hj as [->|Hj]; [left|right; by apply Hv].
Qed.

Lemma grows_votes els w : more_votes (w_elections w) els → grows w (set_elections els w).
Proof.
  intros Hm. apply grows_same_tree; try done.
  - intros i t (e & el & He & Ho & Ht & Hne & Hc).
    destruct (Hm e el He) as (el' & He' & Ho' & Ht' & Hv & Hc'). exists e, el'.
    rewrite Ho', Ht'. split_and!; [done..|by eapply voters_nonempty|cbn; lia].
  - intros m t (W & HW & Hl). exists W. split; [done|]. intros j Hj.
    destruct (Hl j Hj) as [? ?]. split; [by apply moved_more|done].
Qed.

(** The majority of an election. *)
Definition elections_ok w : Prop :=
  0 ≤ w_size w ∧ ∀ e el, w_elections w !! e = Some el → election_ok (w_size w) el.

Lemma election_quorum n el :
  0 ≤ n → election_ok n el → n `quot` 2 < el_count el → quorum n (el_owner el :: el_voters el).
Proof.
  intros Hn [Ho _ Hnd Hno Hv Hct] Hc. split; [done|by constructor| |].
  - intros j [->|Hj]%elem_of_cons; [done|by apply Hv].
  - unfold go_len in *. cbn. lia.
Qed.

Lemma elected_quorum w i u :
  elections_ok w → elected w i u →
  ∃ W, quorum (w_size w) W ∧ ∀ j, j ∈ W → ∀ t, t < u → moved w j t.
Proof.
  intros [Hn Hok] (e & el & He & _ & <- & Hne & Hc). eexists.
  split; [apply election_quorum; [done|by apply (Hok e)|done]|].
  intros j Hj t Ht. exists e, el. by split_and!.
Qed.

(** A candidate that wins knows what its voters have stored. *)
Lemma winner_complete w e el L :
  elections_ok w → w_elections w !! e = Some el → el_voters el ≠ [] →
  w_size w `quot` 2 < el_count el →
  (∀ j m t, j ∈ el_owner el :: el_voters el → (j, m, t) ∈ w_acks w → t < el_term el →
     holds L m t ∨ lost w m t) →
  complete w (el_term el) L.
Proof.
  intros [Hn Hok] He Hne Hc Hvote m t _ Hlt.
  destruct (decide (Exists (λ j, (j, m, t) ∈ w_acks w) (el_owner el :: el_voters el))) as [Hex|Hnone].
  - apply Exists_exists in Hex as (j & Hj & Ha). by eapply Hvote.
  - right. eexists. split; [apply election_quorum; [done|by apply (Hok e)|done]|].
    intros j Hj. split; [exists e, el; by split_and!|].
    intros Ha. apply Hnone, Exists_exists. eauto.
Qed.

(** *** Acknowledgements *)
Definition add_acks (new : gset (Z * nat * Z)) w : world :=
  {| w_size := w_size w; w_elections := w_elections w; w_tree := w_tree w;
     w_acks := w_acks w ∪ new |}.

Lemma grows_acks new w :
  (∀ j m t, (j, m, t) ∈ new → ¬ moved w j t) → grows w (add_acks new w).
Proof.
  intros Hnew. apply grows_same_tree; try done; [cbn; set_solver|].
  intros m t (W & HW & Hl). exists W. split; [done|]. intros j Hj.
  destruct (Hl j Hj) as [Hm Ha]. split; [done|]. cbn. rewrite elem_of_union.
  intros [?|Hin]; [done|]. by destruct (Hnew _ _ _ Hin).
Qed.

(** The entries of term [t] that [j] has stored. *)
Definition acks_of (j t : Z) lg : gset (Z * nat * Z) :=
  list_to_set ((λ m, (j, m, t)) <$> filter (λ m, le_Term <$> lg !! m = Some t) (seq 0 (length lg))).

Lemma elem_of_acks_of j t lg j' m t' :
  (j', m, t') ∈ acks_of j t lg ↔ j' = j ∧ t' = t ∧ holds lg m t.
Proof.
  unfold acks_of. rewrite elem_of_list_to_set, list_elem_of_fmap. split.
  - intros (m' & [= -> -> ->] & Hm). by apply list_elem_of_filter in Hm as [? _].
  - intros (-> & -> & Hh). exists m. split; [done|]. apply list_elem_of_filter. split; [done|].
    apply elem_of_seq. apply holds_lt in Hh. lia.
Qed.

(** *** A new entry *)
Definition set_tree G w : world :=
  {| w_size := w_size w; w_elections := w_elections w; w_tree := G; w_acks := w_acks w |}.

Definition acks_ok w : Prop := ∀ j m t, (j, m, t) ∈ w_acks w → node w m t.

Lemma grows_tree w n t lg :
  elections_ok w → acks_ok w → 0 ≤ t → w_tree w !! (n, t) = None →
  grows w (set_tree (<[(n, t) := lg]> (w_tree w)) w).
Proof.
  intros Hok Ha Ht Hn. split; try done; [by apply insert_subseteq|].
  intros u L Hu Hc m t' [lg' Hlg'] Hlt. cbn in Hlg'.
  apply lookup_insert_Some in Hlg' as [[[= <- <-] _]|[_ Hlg']]; [|by apply Hc; [exists lg'|]].
  right. destruct Hu as [->|[i Hi]]; [lia|].
  destruct (elected_quorum _ _ _ Hok Hi) as (W & HW & Hm). exists W. split; [done|].
  intros j Hj. split; [by apply Hm|]. intros [L' HL']%Ha. congruence.
Qed.

Lemma linear_tree w n t lg u L :
  linear w u L → (u = t → (length L ≤ n)%nat ∨ holds L n t) →
  linear (set_tree (<[(n, t) := lg]> (w_tree w)) w) u L.
Proof.
  intros Hl Hn m [lg' Hlg'] Hm. cbn in Hlg'.
  apply lookup_insert_Some in Hlg' as [[[= <- <-] _]|[_ Hlg']]; [|by apply Hl; [exists lg'|]].
  destruct (Hn eq_refl) as [?|?]; [lia|done].
Qed.
End World.
Arguments world : clear implicits.
