(* ===== verification/CommitPeer.v ===== *)
(** * Raft: what a step does to the commit index and the match indices

    The frames that the proof of state machine safety needs besides those of
    [RaftElection] and [LogMatching]: [quiet] steps of a peer leave its log and
    its commit index alone, and keep what a leader has counted.  The two
    handlers that are not always quiet have their cases here:
    [AppendEntries_cases] when a follower takes entries, and
    [handleAppendEntries_cases] when a leader counts them and commits.  None of
    the handlers sends a message to the service, as long as no snapshot is
    installed. *)
From S2P Require Import Prelude GoLib Raft RaftPeer RaftElection ElectionSafety.
From S2P Require Import RaftReplication LogMatching.
Local Open Scope Z_scope.

Section Peer.
Context {Cmd : Type} `{!Gob Cmd}.
Local Abbreviation Raft := (Raft Cmd).
Local Abbreviation log := (list (LogEntry_ Cmd)).
Local Abbreviation cluster := (cluster Cmd).
Implicit Types (rf : Raft) (b : cluster) (L : log).

(** ** The log on disk *)
Definition stored rf : log :=
  match gob_decode (raftstate (persister rf)) with
  | Some (_, _, lg, _, _) => if decide (raftstate (persister rf) = []) then [dummy] else lg
  | None => [dummy]
  end.

Lemma stored_persisted rf : persister rf = persister (persist rf) → stored rf = logs rf.
Proof.
  intros Hp. unfold stored. rewrite Hp. cbn. rewrite gob_roundtrip, decide_False; [done|].
  apply gob_nonempty.
Qed.

Lemma stored_same rf rf' : persister rf' = persister rf → stored rf' = stored rf.
Proof. unfold stored. by intros ->. Qed.

(** A restart finds the log that was saved. *)
Lemma Make_stored n i rf now rf' :
  Make n i (persister rf) now = Ok rf' → lastIncludedIndex rf' = 0 →
  logs rf' = stored rf ∧ commitIndex rf' = 0.
Proof.
  unfold Make, readPersist, stored, ReadRaftState. case_decide as Hd; intros H.
  - cbn in H. injection H as <-. unfold readSnapshotPersist.
    destruct (decide (ReadSnapshot (persister rf) = [])); cbn; intros _; split; try done.
    all: by destruct (gob_decode _) as [[[[[? ?] ?] ?] ?]|].
  - destruct (gob_decode _) as [[[[[? ?] ?] ?] ?]|]; [|done]. cbn in H. injection H as <-.
    unfold readSnapshotPersist. by destruct (decide (ReadSnapshot (persister rf) = [])).
Qed.

(** ** Quiet steps *)

(** The commit index stays, and a match index is at most reset. *)
Definition index_frame rf rf' : Prop :=
  commitIndex rf' = commitIndex rf ∧
  ∀ j k, matchIndex rf' !! j = Some k → k ≤ 0 ∨ matchIndex rf !! j = Some k.

Record quiet rf rf' : Prop := {
  qt_logs : logs rf' = logs rf;
  qt_disk : persister rf' = persister rf ∨ persister rf' = persister (persist rf');
  qt_index : index_frame rf rf';
  qt_term : currentTerm rf ≤ currentTerm rf';
  qt_leader : role rf' = Leader → role rf = Leader ∧ currentTerm rf' = currentTerm rf;
  qt_role : role rf' ≠ Follower →
    currentTerm rf < currentTerm rf' ∨ role rf' = role rf ∧ currentTerm rf' = currentTerm rf;
}.

Lemma quiet_frames rf rf' :
  log_frame rf rf' → index_frame rf rf' → currentTerm rf ≤ currentTerm rf' → role_frame rf rf' →
  quiet rf rf'.
Proof.
  intros [Hl _ _ Hd] Hi Ht Hr. split; try done.
  - intros HL. destruct Hr as [?|[? ?]]; [congruence|]. split; congruence.
  - intros HF. destruct Hr as [?|[Hr ?]]; [congruence|by right].
Qed.

Lemma index_same rf rf' :
  commitIndex rf' = commitIndex rf → matchIndex rf' = matchIndex rf → index_frame rf rf'.
Proof. intros Hc Hm. split; [done|]. rewrite Hm. by right. Qed.

Lemma quiet_refl rf : quiet rf rf.
Proof. apply quiet_frames; [apply log_frame_refl|by apply index_same|done|by right]. Qed.

Lemma convertRole_index r rf rf' sp : convertRole r rf = Ok (rf', sp) → index_frame rf rf'.
Proof.
  destruct r; cbn.
  - case_decide; [destruct (heartChan rf); [done| |done]|]; intros [= <- <-]; by apply index_same.
  - intros [= <- <-]. by apply index_same.
  - intros [= <- <-]. split; [done|]. intros j k Hk. cbn in Hk.
    apply list_lookup_fmap_Some in Hk as (k0 & -> & _). by left.
Qed.

Lemma step_down_index t rf rf' sp : step_down t rf = Ok (rf', sp) → index_frame rf rf'.
Proof.
  unfold step_down. intros Hs. apply bind_Ok in Hs as ([rf1 sp1] & Hc & [= <- <-]).
  by apply convertRole_index in Hc.
Qed.

Lemma RequestVote_index now args rf rf' reply sp :
  RequestVote now args rf = Ok (rf', reply, sp) → index_frame rf rf'.
Proof.
  unfold RequestVote. case_decide as H1; [by intros [= <- <- <-]; apply index_same|].
  case_decide as H2; [by intros [= <- <- <-]; apply index_same|].
  intros Hv. apply bind_Ok in Hv as ([rf1 sp1] & Hs & Hv). apply bind_Ok in Hv as (up & _ & Hv).
  assert (index_frame rf rf1) as Hsame.
  { clear Hv. case_decide; [by apply step_down_index in Hs|injection Hs as <- <-; by apply index_same]. }
  clear Hs. by destruct up; injection Hv as <- <- <-.
Qed.

Lemma RequestVote_quiet now args rf rf' reply sp :
  RequestVote now args rf = Ok (rf', reply, sp) → quiet rf rf'.
Proof.
  intros Hv. pose proof (RequestVote_frame _ _ _ _ _ _ Hv) as (_ & _ & Ht & _ & Hr & _).
  apply quiet_frames; [by eapply RequestVote_log|by eapply RequestVote_index|lia|done].
Qed.

(** A vote is granted to a log that is up to date. *)
Lemma RequestVote_granted now args rf rf' reply sp :
  RequestVote now args rf = Ok (rf', reply, sp) → lastIncludedIndex rf = 0 →
  vr_VoteGranted reply = true →
  ∃ e, logs rf !! pred (length (logs rf)) = Some e ∧
    (le_Term e < va_LastLogTerm args ∨
     va_LastLogTerm args = le_Term e ∧ go_len (logs rf) - 1 ≤ va_LastLogIndex args).
Proof.
  unfold RequestVote. case_decide as H1; [by intros [= <- <- <-]|].
  case_decide as H2; [by intros [= <- <- <-]|]. clear H1 H2.
  intros Hv Hix. apply bind_Ok in Hv as ([rf1 sp1] & Hs & Hv). apply bind_Ok in Hv as (up & Hup & Hv).
  assert (logs rf1 = logs rf ∧ lastIncludedIndex rf1 = 0) as [Hl Hix1].
  { clear Hv. case_decide; [|by injection Hs as <- <-].
    apply step_down_log in Hs as (? & ? & _). split; congruence. }
  destruct up; injection Hv as <- <- <-; [intros _|done].
  apply bind_Ok in Hup as (e & [_ He]%go_index_Ok & Hup). unfold getLastStorageIndex, getLastLogicalIndex in *.
  rewrite Hl in *. rewrite Hix1 in Hup. exists e.
  split; [rewrite <-He; f_equal; unfold go_len; lia|].
  case_decide; injection Hup as Hup; apply bool_decide_eq_true in Hup; [right; split; [done|lia]|by left].
Qed.

Lemma startElection_quiet rf rf' sp : startElection rf = Ok (rf', sp) → quiet rf rf'.
Proof.
  unfold startElection. cbn. intros [= <- <-].
  split; cbn; [done|by left|by apply index_same|lia|done|left; lia].
Qed.

Lemma persist_quiet rf : quiet rf (persist rf).
Proof.
  apply quiet_frames; [by apply log_same_persist|by apply index_same|done|by right].
Qed.

(** Counting a vote is quiet, or makes a leader of a candidate. *)
Definition promoted rf rf' : Prop :=
  role rf = Candidate ∧ role rf' = Leader ∧ currentTerm rf' = currentTerm rf ∧
  log_same rf rf' ∧ commitIndex rf' = commitIndex rf ∧
  ∀ j k, matchIndex rf' !! j = Some k → k ≤ 0.

Lemma promote_match rf rf' sp :
  convertRole Leader rf = Ok (rf', sp) → ∀ j k, matchIndex rf' !! j = Some k → k ≤ 0.
Proof.
  cbn. intros [= <- <-] j k Hk. cbn in Hk. by apply list_lookup_fmap_Some in Hk as (k0 & -> & _).
Qed.

Lemma handleVote_quiet reply count rf rf' count' sp :
  handleVote reply count rf = Ok (rf', count', sp) → quiet rf rf' ∨ promoted rf rf'.
Proof.
  intros Hv. pose proof (handleVote_log _ _ _ _ _ _ Hv) as Hl.
  pose proof (handleVote_cases _ _ _ _ _ _ Hv) as [[_ _ Ht _ _] Hcases].
  assert (index_frame rf rf' ∧ (role rf = Candidate → role rf' = Leader →
    ∀ j k, matchIndex rf' !! j = Some k → k ≤ 0)) as [Hi Hm].
  { revert Hv. unfold handleVote. repeat case_decide; intros Hv.
    - apply bind_Ok in Hv as ([rf1 sp1] & Hc & [= <- <- <-]).
      split; [by eapply convertRole_index|intros _ _; by eapply promote_match].
    - injection Hv as <- <- <-. split; [by apply index_same|]. intros ->. done.
    - apply bind_Ok in Hv as ([rf1 sp1] & Hs & [= <- <- <-]). split; [by eapply step_down_index|].
      intros _. apply step_down_frame in Hs as (-> & _). done.
    - injection Hv as <- <- <-. split; [by apply index_same|]. intros ->. done. }
  destruct Hcases as [(_ & Hr & _)|(Hc & Hr & _ & Heq & [Hr'|[Hr' Hmaj]])].
  - left. apply quiet_frames; [by apply log_same_frame|done|done|done].
  - left. apply quiet_frames; [by apply log_same_frame|done|done|]. right. split; congruence.
  - right. split_and!; try done; [apply Hi|by apply Hm].
Qed.

(** ** Snapshots are not installed *)
Lemma InstallSnapshot_quiet now args rf rf' reply sp :
  ia_LastIncludedIndex args ≤ lastIncludedIndex rf →
  InstallSnapshot now args rf = Ok (rf', reply, sp) → quiet rf rf' ∧ sp = [].
Proof.
  intros Hix Hi. pose proof (InstallSnapshot_log _ _ _ _ _ _ Hix Hi) as [Hl ->].
  pose proof (InstallSnapshot_frame _ _ _ _ _ _ Hi) as [[_ _ Ht _ _] Hr].
  split; [|done]. apply quiet_frames; [done| |done|done].
  revert Hi. unfold InstallSnapshot. case_decide as H1; [intros [= <- <-]; by apply index_same|].
  intros Hi. apply bind_Ok in Hi as ([[rf1 t] sp1] & Hc & Hi).
  assert (index_frame rf rf1 ∧ lastIncludedIndex rf1 = lastIncludedIndex rf) as [Hsame Hix1].
  { clear Hi. case_decide; [|injection Hc as <- <- <-; split; [by apply index_same|done]].
    apply bind_Ok in Hc as ([rf2 sp2] & Hc & [= <- <- <-]).
    pose proof (convertRole_log _ _ _ _ Hc) as (_ & ? & _). split; [|done].
    by apply convertRole_index in Hc. }
  rewrite decide_True in Hi by (left; by rewrite Hix1). by injection Hi as <- _ _.
Qed.

Lemma handleInstallSnapshot_quiet now server args reply rf rf' sp :
  ia_LastIncludedIndex args = 0 →
  handleInstallSnapshot now server args reply rf = Ok (rf', sp) → quiet rf rf'.
Proof.
  intros Hix Hi. pose proof (handleInstallSnapshot_log _ _ _ _ _ _ _ Hi) as Hl.
  pose proof (handleInstallSnapshot_frame _ _ _ _ _ _ _ Hi) as [[_ _ Ht _ _] Hr].
  apply quiet_frames; [done| |done|done].
  revert Hi. unfold handleInstallSnapshot. case_decide as H1; [intros [= <- <-]; by apply index_same|].
  case_decide as H2; intros Hi.
  - apply bind_Ok in Hi as ([rf1 sp1] & Hs & [= <- <-]). by apply step_down_index in Hs.
  - apply bind_Ok in Hi as (nx & _ & Hi). case_decide; [|injection Hi as <- <-; by apply index_same].
    apply bind_Ok in Hi as (l & _ & Hi). apply bind_Ok in Hi as (l' & Hset & [= <- <-]).
    split; [done|]. cbn. intros j k Hk. apply go_set_Ok in Hset as [_ ->].
    apply list_lookup_insert_Some in Hk as [(_ & <- & _)|[_ Hk]]; [left; lia|by right].
Qed.

(** ** What is started *)
Definition no_msg (sp : list (spawn Cmd)) : Prop :=
  Forall (λ g, match g with SpawnMsg _ => False | _ => True end) sp.

Lemma convertRole_no_msg r rf rf' sp : convertRole r rf = Ok (rf', sp) → no_msg sp.
Proof.
  destruct r; cbn; [|intros [= <- <-]; by repeat constructor..].
  case_decide; [destruct (heartChan rf); [done| |done]|]; intros [= <- <-]; constructor.
Qed.

Lemma step_down_no_msg t rf rf' sp : step_down t rf = Ok (rf', sp) → no_msg sp.
Proof.
  unfold step_down. intros Hs. apply bind_Ok in Hs as ([rf1 sp1] & Hc & [= <- <-]).
  by apply convertRole_no_msg in Hc.
Qed.

Lemma commit_scan_no_msg : ∀ fuel n rf rf' sp, commit_scan fuel n rf = Ok (rf', sp) → no_msg sp.
Proof.
  induction fuel as [|fuel IH]; intros n rf rf' sp; cbn [commit_scan]; [intros [= <- <-]; constructor|].
  case_decide; [|intros [= <- <-]; constructor].
  clear - IH. intros H. apply bind_Ok in H as (e & _ & H). apply bind_Ok in H as (c & _ & H).
  case_decide; [injection H as <- <-; by repeat constructor|eauto].
Qed.

Lemma handleInstallSnapshot_no_msg now server args reply rf rf' sp :
  handleInstallSnapshot now server args reply rf = Ok (rf', sp) → no_msg sp.
Proof.
  unfold handleInstallSnapshot. case_decide; [intros [= <- <-]; constructor|].
  case_decide; intros Hi.
  - apply bind_Ok in Hi as ([rf1 sp1] & Hs & [= <- <-]). by apply step_down_no_msg in Hs.
  - apply bind_Ok in Hi as (nx & _ & Hi). case_decide; [|injection Hi as <- <-; constructor].
    apply bind_Ok in Hi as (l & _ & Hi). apply bind_Ok in Hi as (l' & _ & [= <- <-]). constructor.
Qed.

(** ** A follower takes entries *)

(** What a request says of the log it was made from. *)
Record slice (args : AppendEntriesArgs Cmd) L : Prop := {
  sl_prev : 0 ≤ aa_PrevLogIndex args;
  sl_term : le_Term <$> L !! Z.to_nat (aa_PrevLogIndex args) = Some (aa_PrevLogTerm args);
  sl_entries : aa_Entries args = drop (S (Z.to_nat (aa_PrevLogIndex args))) L;
}.

Lemma slice_length args L :
  slice args L → aa_PrevLogIndex args + go_len (aa_Entries args) = go_len L - 1.
Proof.
  intros [Hp Ht He]. apply fmap_Some in Ht as (e & Hl & _). apply lookup_lt_Some in Hl.
  rewrite He. unfold go_len. rewrite length_drop. lia.
Qed.

(** The log of [rf] agrees with the one that was sent, as far as is checked. *)
Definition prev_agrees rf (args : AppendEntriesArgs Cmd) L : Prop :=
  ∃ e e', logs rf !! Z.to_nat (aa_PrevLogIndex args) = Some e ∧
    L !! Z.to_nat (aa_PrevLogIndex args) = Some e' ∧
    (le_Term e = le_Term e' ∨ Z.to_nat (aa_PrevLogIndex args) = 0%nat).

Record takes rf (args : AppendEntriesArgs Cmd) rf' : Prop := {
  tk_logs : logs rf' = take (S (Z.to_nat (aa_PrevLogIndex args))) (logs rf) ++ aa_Entries args;
  tk_commit : commitIndex rf' = commitIndex rf ∨
    commitIndex rf' ≤ aa_LeaderCommit args ∧ (0 ≤ commitIndex rf → 0 ≤ commitIndex rf');
}.

Lemma append_log_cases args rf rf' reply sp L :
  lastIncludedIndex rf = 0 → slice args L → append_log args rf = Ok (rf', reply, sp) →
  no_msg sp ∧
  (ar_Success reply = false ∧ rf' = rf ∨
   ar_Success reply = true ∧ prev_agrees rf args L ∧ takes rf args rf').
Proof.
  intros Hi [Hprev Hterm Hent]. unfold append_log.
  case_decide as Hlen; [intros [= <- <- <-]; split; [constructor|by left]|].
  unfold convertToStorageIndex. rewrite Hi, Z.sub_0_r.
  intros Ha. apply bind_Ok in Ha as ([t|] & Hc & Ha).
  { apply bind_Ok in Ha as (ix & _ & [= <- <- <-]). split; [constructor|by left]. }
  apply bind_Ok in Ha as (lg1 & [Hr ->]%go_upto_Ok & Ha).
  apply fmap_Some in Hterm as (e' & He' & Hte).
  destruct (logs rf !! Z.to_nat (aa_PrevLogIndex args)) as [e0|] eqn:He0;
    [|apply lookup_ge_None in He0; unfold go_len in Hr; lia].
  assert (prev_agrees rf args L) as Hag.
  { exists e0, e'. split_and!; [done..|].
    destruct (decide (0 < aa_PrevLogIndex args)) as [Hpos|]; [left|right; lia].
    apply bind_Ok in Hc as (e1 & [_ He1]%go_index_Ok & Hc). rewrite He0 in He1. injection He1 as <-.
    destruct (decide (le_Term e0 = aa_PrevLogTerm args)); [congruence|done]. }
  rewrite Z2Nat.inj_add in Ha by lia. change (Z.to_nat 1) with 1%nat in Ha. rewrite Nat.add_1_r in Ha.
  case_decide as Hcm; injection Ha as <- <- <-; (split; [by repeat constructor|]);
    right; (split_and!; [done|done|split; [done|]]); [right|by left].
  cbn in *. unfold getLastLogicalIndex in *. cbn in *. rewrite Hi.
  pose proof (lookup_lt_Some _ _ _ He0). unfold go_len in *. rewrite length_app, length_take.
  clear Hc. case_decide; split; lia.
Qed.

Record accepts rf (args : AppendEntriesArgs Cmd) rf' : Prop := {
  ac_term : currentTerm rf ≤ aa_Term args;
  ac_term' : currentTerm rf' = aa_Term args;
  ac_role : role rf' = Follower;
  ac_disk : persister rf' = persister (persist rf');
  ac_takes : takes rf args rf';
}.

Lemma AppendEntries_cases now args rf rf' reply sp L :
  lastIncludedIndex rf = 0 → slice args L → AppendEntries now args rf = Ok (rf', reply, sp) →
  no_msg sp ∧
  (ar_Success reply = false ∧ quiet rf rf' ∨
   ar_Success reply = true ∧ prev_agrees rf args L ∧ accepts rf args rf').
Proof.
  intros Hix Hsl Ha. pose proof (AppendEntries_frame _ _ _ _ _ _ Ha) as [[_ _ Hterm _ _] Hrole].
  revert Ha. unfold AppendEntries. case_decide as Ht.
  { intros [= <- <- <-]. split; [constructor|left]. split; [done|apply persist_quiet]. }
  intros Ha. apply bind_Ok in Ha as ([rf1 sp1] & Hc & Ha).
  pose proof (convertRole_follower _ _ _ Hc) as (Hr1 & _ & _ & Ht1 & _ & _).
  pose proof (convertRole_no_msg _ _ _ _ Hc) as Hsp1.
  pose proof (convertRole_index _ _ _ _ Hc) as Hidx.
  apply convertRole_log in Hc as (Hl1 & Hix1 & Hla1 & _). cbv zeta in Ha.
  set (rf2 := if decide (currentTerm rf1 < aa_Term args) then _ else _) in *.
  assert (logs rf2 = logs rf ∧ lastIncludedIndex rf2 = lastIncludedIndex rf ∧
    lastApplied rf2 = lastApplied rf ∧ currentTerm rf2 = aa_Term args ∧ role rf2 = Follower ∧
    commitIndex rf2 = commitIndex rf ∧ index_frame rf rf2) as (Hl & Hi & Hla & Htm & Hr & Hcm & Hif).
  { pose proof Hidx as [Hcx _]. subst rf2. case_decide; cbn; split_and!; try exact Hidx; try lia; congruence. }
  clearbody rf2. clear Hr1 Ht1 Hl1 Hix1 Hla1 Hidx.
  apply bind_Ok in Ha as ([[rf3 reply3] sp3] & Happ & [= <- <- <-]).
  pose proof (append_log_frame _ _ _ _ _ Happ) as (_ & _ & Ht3 & _ & Hr3).
  apply (append_log_cases _ _ _ _ _ L) in Happ as [Hsp3 Hcase]; [|congruence|done].
  split; [by apply Forall_app|]. destruct Hcase as [[Hno ->]|(Hyes & Hag & [Htl Htc])].
  - left. split; [done|]. apply quiet_frames; try done. split; cbn; [done..|by right].
  - right. split; [done|]. split; [unfold prev_agrees in *; by rewrite <-Hl|].
    split; [lia|cbn; congruence|cbn; congruence|done|].
    split; cbn; [by rewrite Htl, Hl|by rewrite <-Hcm].
Qed.

(** ** A leader counts *)
Lemma counted_servers rf n c : ∀ l c0,
  NoDup l →
  foldl (λ acc i, count ← acc;
      if decide (i = me rf) then Ok count
      else m ← go_index (matchIndex rf) i; Ok (if decide (n <= m) then count + 1 else count))
    (Ok c0) l = Ok c →
  ∃ W, NoDup W ∧ W ⊆ l ∧ (me rf ∉ W) ∧ c = c0 + go_len W ∧
    ∀ j, j ∈ W → ∃ k, matchIndex rf !! Z.to_nat j = Some k ∧ n ≤ k.
Proof.
  induction l as [|i l IH]; intros c0 Hnd; cbn [foldl].
  - intros [= <-]. exists []. split_and!; [apply NoDup_nil_2|done|apply not_elem_of_nil|unfold go_len; cbn; lia|].
    by intros j Hj%not_elem_of_nil.
  - apply NoDup_cons in Hnd as [Hi Hnd]. cbn [mbind outcome_bind]. intros Hf. case_decide as Him.
    { destruct (IH _ Hnd Hf) as (W & ? & ? & ? & ? & ?). exists W. split_and!; try done. set_solver. }
    destruct (go_index (matchIndex rf) i) as [m|] eqn:Hm; cbn [mbind outcome_bind] in Hf.
    2: { exfalso. clear - Hf. induction l; cbn in Hf; [done|auto]. }
    apply go_index_Ok in Hm as [_ Hm].
    destruct (IH _ Hnd Hf) as (W & HW & Hsub & Hnm & Hct & Hk). case_decide as Hle.
    + exists (i :: W). split_and!; [constructor; [set_solver|done]|set_solver| | |].
      * rewrite not_elem_of_cons. by split.
      * unfold go_len in *. cbn. lia.
      * intros j [->|Hj]%elem_of_cons; [by exists m|by apply Hk].
    + exists W. split_and!; try done. set_solver.
Qed.

Lemma count_match_servers rf n c :
  0 ≤ me rf < npeers rf → count_match rf n = Ok c →
  ∃ W, NoDup W ∧ (∀ j, j ∈ W → 0 ≤ j < npeers rf) ∧ c = go_len W ∧
    ∀ j, j ∈ W → j = me rf ∨ ∃ k, matchIndex rf !! Z.to_nat j = Some k ∧ n ≤ k.
Proof.
  intros Hme Hc. destruct (counted_servers _ _ _ _ _ (NoDup_seqZ _ _) Hc) as (W & HW & Hsub & Hnm & Hct & Hk).
  exists (me rf :: W). split_and!; [by constructor| | |].
  - intros j [->|Hj]%elem_of_cons; [done|]. apply Hsub, elem_of_seqZ in Hj. lia.
  - unfold go_len in *. cbn. lia.
  - intros j [->|Hj]%elem_of_cons; [by left|right; by apply Hk].
Qed.

(** The new commit index: an entry of the leader's term that a majority has. *)
Definition advanced rf (c : Z) : Prop :=
  commitIndex rf < c ∧
  le_Term <$> logs rf !! Z.to_nat c = Some (currentTerm rf) ∧
  ∃ count, npeers rf `quot` 2 < count ∧ count_match rf c = Ok count.

Lemma commit_scan_cases : ∀ fuel n rf rf' sp,
  lastIncludedIndex rf = 0 → 2 ≤ npeers rf → commit_scan fuel n rf = Ok (rf', sp) →
  rf' = rf ∨ ∃ c, rf' = set_commitIndex c rf ∧ advanced rf c.
Proof.
  induction fuel as [|fuel IH]; intros n rf rf' sp Hi Hn; cbn [commit_scan]; [intros [= <- <-]; by left|].
  case_decide as Hlt; [|intros [= <- <-]; by left].
  intros H. apply bind_Ok in H as (e & [_ He]%go_index_Ok & H). apply bind_Ok in H as (count & Hc & H).
  unfold convertToStorageIndex in He. rewrite Hi, Z.sub_0_r in He.
  case_decide as Hmaj; [|by apply IH in H].
  injection H as <- <-. right. exists n. split; [done|]. split; [done|].
  destruct (decide (le_Term e = currentTerm rf)) as [<-|Hne]; [rewrite He; eauto|].
  injection Hc as <-. assert (2 `quot` 2 ≤ npeers rf `quot` 2) by (apply Z.quot_le_mono; lia).
  change (2 `quot` 2) with 1 in *. lia.
Qed.

Record counts_reply (server : Z) (args : AppendEntriesArgs Cmd) rf rf' : Prop := {
  cr_server : 0 ≤ server;
  cr_leader : role rf = Leader;
  cr_role : role rf' = Leader;
  cr_term : currentTerm rf' = currentTerm rf;
  cr_me : me rf' = me rf;
  cr_npeers : npeers rf' = npeers rf;
  cr_logs : logs rf' = logs rf;
  cr_disk : persister rf' = persister (persist rf');
  cr_match : ∀ j k, matchIndex rf' !! j = Some k →
    j = Z.to_nat server ∧ k = aa_PrevLogIndex args + go_len (aa_Entries args) ∨
    matchIndex rf !! j = Some k;
  cr_commit : commitIndex rf' = commitIndex rf ∨
    ∃ rf1, commitIndex rf1 = commitIndex rf ∧ matchIndex rf1 = matchIndex rf' ∧
      logs rf1 = logs rf ∧ currentTerm rf1 = currentTerm rf ∧ me rf1 = me rf ∧
      npeers rf1 = npeers rf ∧ advanced rf1 (commitIndex rf');
}.

Lemma handleAppendEntries_cases now server args reply rf rf' sp :
  lastIncludedIndex rf = 0 → (role rf = Leader → 2 ≤ npeers rf) →
  handleAppendEntries now server args reply rf = Ok (rf', sp) →
  no_msg sp ∧ (quiet rf rf' ∨ ar_Success reply = true ∧ counts_reply server args rf rf').
Proof.
  intros Hix Hnp Hh. pose proof (handleAppendEntries_frame _ _ _ _ _ _ _ Hh) as [[_ _ Ht _ _] Hrole].
  pose proof (handleAppendEntries_log _ _ _ _ _ _ _ Hh) as Hlog.
  assert (index_frame rf rf' → quiet rf rf') as Hquiet by (intros; by apply quiet_frames).
  revert Hh. unfold handleAppendEntries.
  case_decide as Hr; [intros [= <- <-]; split; [constructor|left; by apply Hquiet, index_same]|].
  case_decide as Hlt; [|destruct (ar_Success reply)]; intros Hh.
  - apply bind_Ok in Hh as ([rf1 sp1] & Hs & [= <- <-]). split; [by eapply step_down_no_msg|left].
    apply Hquiet. by apply step_down_index in Hs.
  - apply bind_Ok in Hh as (nx & _ & Hh). apply bind_Ok in Hh as (mt & [Hrg ->]%go_set_Ok & Hh).
    cbv zeta in Hh. apply bind_Ok in Hh as ([rf1 sp1] & Hs & [= <- <-]).
    split; [by eapply commit_scan_no_msg|right]. split; [done|].
    destruct (decide (role rf = Leader)) as [HL|]; [|by destruct Hr].
    assert (∀ j k, <[Z.to_nat server := aa_PrevLogIndex args + go_len (aa_Entries args)]> (matchIndex rf) !! j
      = Some k → j = Z.to_nat server ∧ k = aa_PrevLogIndex args + go_len (aa_Entries args) ∨
      matchIndex rf !! j = Some k) as Hm.
    { intros j k [(-> & <- & _)|[_ Hk]]%list_lookup_insert_Some; [by left|by right]. }
    apply commit_scan_cases in Hs as [->|(c & -> & Had)]; [| |done|by apply Hnp].
    + split; try done; cbn; [lia|by left].
    + split; try done; cbn; [lia|]. right. eexists. split_and!; [..|exact Had]; done.
  - apply bind_Ok in Hh as (rf1 & Hs & [= <- <-]). split; [constructor|left].
    apply Hquiet. apply append_failed_frame in Hs as [l ->]. by apply index_same.
Qed.

End Peer.
