(* ===== verification/CommitElection.v ===== *)
(** * Raft: elections and the stored entries

    What a step of an election does to the votes, seen from the proof of state
    machine safety.  [election_effect]: a peer makes a quiet step, becomes a
    leader, or restarts.  [voted_back]: a vote is an old one, or was granted in
    this step. *)
From S2P Require Import Prelude GoLib Raft RaftPeer RaftElection ElectionSafety.
From S2P Require Import RaftReplication LogMatching CommitWorld CommitPeer.
Local Open Scope Z_scope.

Section Elections.
Context {Cmd : Type} `{!Gob Cmd}.
Local Abbreviation Raft := (Raft Cmd).
Local Abbreviation cluster := (cluster Cmd).
Implicit Types (rf : Raft) (b : cluster).

(** ** Peers *)
Definition effect b (l : option Z) i rf rf' : Prop :=
  quiet rf rf' ∨ promoted rf rf' ∨ l = Some i ∧ ∃ now, Make (size b) i (persister rf) now = Ok rf'.

Lemma effect_set b l b' j rf rf1 i rf' :
  nodes b !! j = Some rf → nodes b' = <[j := rf1]> (nodes b) → effect b l j rf rf1 →
  nodes b' !! i = Some rf' → ∃ rf, nodes b !! i = Some rf ∧ effect b l i rf rf'.
Proof.
  intros Hj Hn Hfr Hi. rewrite Hn in Hi. apply lookup_insert_Some in Hi as [[-> ->]|[_ Hi]].
  - by exists rf.
  - exists rf'. split; [done|]. left. apply quiet_refl.
Qed.

Lemma election_effect counts crashes b l b' i rf' :
  cluster_step counts crashes no_local b l b' → nodes b' !! i = Some rf' →
  ∃ rf, nodes b !! i = Some rf ∧ effect b l i rf rf'.
Proof.
  intros Hstep. destruct Hstep as
    [s j rf rf1 sp Hj Hph Hst|s j rf args Hj Hph Hgen|s j rf Hj Hph
    |s l1 e j l2 el rf now rf1 reply sp Hrq He Hj Hrv|s l1 m l2 Hrq
    |s l1 e j reply l2 el rf rf1 count sp Hrp He Hl Hj Hcs Hhv|s l1 m l2 Hrp
    |s j rf rf1 Hj []|s j rf now rf1 Hj Hph HM];
    try (intros Hi; exists rf'; split; [done|left; apply quiet_refl]).
  - eapply effect_set; [done..|]. left. by eapply startElection_quiet.
  - eapply effect_set; [done..|]. left. apply persist_quiet.
  - eapply effect_set; [done..|]. left. by eapply RequestVote_quiet.
  - eapply effect_set; [done..|]. apply handleVote_quiet in Hhv as [?|?]; [by left|right; by left].
  - eapply effect_set; [done..|]. right; right. eauto.
Qed.

(** ** Votes *)
Lemma more_votes_step b l b' :
  cluster_step same_term saved_crash no_local b l b' → size b' = size b ∧ more_votes (elections b) (elections b').
Proof.
  intros Hstep. destruct Hstep as [ | | | | |s l1 e1 j reply l2 el1 rf rf' count sp Hrp He1 Hl Hj Hcs Hhv| | |];
    (split; [done|]); try apply more_votes_refl; cbn; intros e el He.
  - exists el. split_and!; try done. by apply lookup_app_l_Some.
  - destruct (decide (e1 = e)) as [->|Hee]; [|exists el; by rewrite list_lookup_insert_ne].
    rewrite He in He1. injection He1 as <-. exists (count_vote j count el).
    rewrite list_lookup_insert_eq by (by eapply lookup_lt_Some).
    apply handleVote_cases in Hhv as [_ [(-> & _)|(-> & _)]].
    + by rewrite count_vote_same.
    + rewrite count_vote_voters. cbn. split_and!; try done; [set_solver|lia].
  - exists (kill i el). unfold kill_elections. by rewrite list_lookup_fmap, He.
Qed.

(** A vote that is granted in this step. *)
Definition granted b (el : election) (j : Z) : Prop :=
  ∃ now rf rf' reply sp, nodes b !! j = Some rf ∧
    RequestVote now (el_args el) rf = Ok (rf', reply, sp) ∧ vr_VoteGranted reply = true.

Definition voted_before b (e : nat) (el' : election) (j : Z) : Prop :=
  ∃ el, elections b !! e = Some el ∧ el_owner el' = el_owner el ∧ el_args el' = el_args el ∧
    (voted (replies b) e el j ∨ granted b el j).

Lemma voted_before_intro b e el j :
  elections b !! e = Some el → voted (replies b) e el j → voted_before b e el j.
Proof. intros He Hv. exists el. split_and!; auto. Qed.

Lemma voted_weaken rp rp' e el j : rp ⊆ rp' → voted rp e el j → voted rp' e el j.
Proof.
  intros Hs [reply Hin Hg|Hin|Ho Hne]; [|by apply voted_counted|by apply voted_self].
  eapply voted_reply; [by apply Hs|done].
Qed.

Lemma voted_back b l b' e el' j :
  inv b → cluster_step same_term saved_crash no_local b l b' → elections b' !! e = Some el' →
  voted (replies b') e el' j → j ≠ el_owner el' → voted_before b e el' j.
Proof.
  intros Hinv Hstep. destruct Hstep as
    [s i rf rf1 sp Hi Hph Hst|s i rf args Hi Hph Hgen|s i rf Hi Hph
    |s l1 e1 i l2 el rf now rf1 reply sp Hrq He1 Hi Hrv|s l1 m l2 Hrq
    |s l1 e1 i reply l2 el rf rf1 count sp Hrp He1 Hl Hi Hcs Hhv|s l1 m l2 Hrp
    |s i rf rf1 Hi []|s i rf now rf1 Hi Hph HM]; cbn; intros He Hv Hne;
    try (by apply voted_before_intro).
  - apply voted_before_intro; [|done]. by eapply (asked_voted _ i args).
  - destruct (answer_voted _ _ _ _ _ _ _ _ He1 He Hv) as [Hold|(-> & -> & -> & Hg)].
    + by apply voted_before_intro.
    + exists el. split_and!; try done. right. unfold granted. eauto 10.
  - assert (voted (replies s) e1 el i ∨ count = el_count el) as Hi'.
    { apply handleVote_cases in Hhv as [_ [(-> & _)|(_ & _ & Hg & _)]]; [by right|left].
      eapply voted_reply; [|done]. rewrite Hrp. set_solver. }
    apply (voted_weaken _ (replies s)) in Hv; [|rewrite Hrp; set_solver].
    destruct (decide (e1 = e)) as [->|Hee].
    + rewrite list_lookup_insert_eq in He by (by eapply lookup_lt_Some). injection He as <-.
      exists el. split_and!; try done. left.
      destruct Hv as [reply' Hin Hg|Hin|Ho _]; [by eapply voted_reply| |done].
      cbn in Hin. case_decide; [by apply voted_counted|]. destruct Hi' as [Hi'|?]; [|done].
      apply elem_of_cons in Hin as [->|Hin]; [done|by apply voted_counted].
    + rewrite list_lookup_insert_ne in He by done. by apply voted_before_intro.
  - apply voted_before_intro; [done|]. eapply voted_weaken; [|done]. rewrite Hrp. set_solver.
  - destruct (killed_lookup _ _ _ _ He) as (el0 & H0 & ->).
    exists el0. split_and!; try done. left. by eapply kill_voted.
Qed.

(** An election in which votes have been counted is an old one. *)
Lemma election_back counts crashes b l b' e el' :
  cluster_step counts crashes no_local b l b' → elections b' !! e = Some el' →
  (∃ el, elections b !! e = Some el ∧ el_owner el' = el_owner el ∧ el_args el' = el_args el) ∨
  el_voters el' = [] ∧ nodes b' = nodes b ∧
    ∃ rf, nodes b !! el_owner el' = Some rf ∧ genRequestVoteArgs rf = Ok (el_args el').
Proof.
  intros Hstep. destruct Hstep as
    [s i rf rf1 sp Hi Hph Hst|s i rf args Hi Hph Hgen|s i rf Hi Hph
    |s l1 e1 i l2 el rf now rf1 reply sp Hrq He1 Hi Hrv|s l1 m l2 Hrq
    |s l1 e1 i reply l2 el rf rf1 count sp Hrp He1 Hl Hi Hcs Hhv|s l1 m l2 Hrp
    |s i rf rf1 Hi []|s i rf now rf1 Hi Hph HM]; cbn; intros He; try (left; by exists el').
  - apply lookup_snoc_Some in He as [[_ He]|[-> <-]]; [left; by exists el'|right]. eauto.
  - left. apply list_lookup_insert_Some in He as [(-> & <- & _)|[_ He]]; [by exists el|by exists el'].
  - left. destruct (killed_lookup _ _ _ _ He) as (el0 & H0 & ->). by exists el0.
Qed.
End Elections.
