(* ===== verification/CommitInvariant.v ===== *)
(** * Raft: the invariant behind state machine safety

    [cinv] is about a world of [CommitWorld]: a leader's log is complete, what
    a peer has acknowledged is in its log and on its disk or is lost, the log
    of a candidate has what its voters have acknowledged, and the commit index
    of a peer is that of a committed entry of its log.  This file has the
    steps of [repl_step] that are not steps of an election: [perform_effects],
    what an item does, with the acknowledgements it adds, and [ginv_command],
    a new entry. *)
From S2P Require Import Prelude GoLib Raft RaftPeer RaftElection ElectionSafety RaftTypes.
From S2P Require Import RaftReplication LogMatching CommitWorld CommitPeer CommitElection.
Local Open Scope Z_scope.

Section Commit.
Context {Cmd : Type} `{!Gob Cmd}.
Local Abbreviation Raft := (Raft Cmd).
Local Abbreviation cluster := (cluster Cmd).
Local Abbreviation rcluster := (rcluster Cmd).
Local Abbreviation log := (list (LogEntry_ Cmd)).
Local Abbreviation tree := (gmap (nat * Z) log).
Local Abbreviation acks := (gset (Z * nat * Z)).
Implicit Types (rf : Raft) (b : cluster) (s : rcluster) (lg L : log) (G : tree) (A : acks) (w : world Cmd).

(** ** The invariant *)
Definition world_of b G A : world Cmd :=
  {| w_size := size b; w_elections := elections b; w_tree := G; w_acks := A |}.

Record peer_inv w (i : Z) rf : Prop := {
  pi_below : below (currentTerm rf) (logs rf);
  pi_stored : below (saved rf).1 (stored rf);
  pi_index : 0 ≤ commitIndex rf;
  pi_point : point w (logs rf) (commitIndex rf);
  pi_acks : ∀ m t, (i, m, t) ∈ w_acks w → t ≤ (saved rf).1 ∧
    (holds (logs rf) m t ∧ holds (stored rf) m t ∨ lost w m t);
  pi_leader : role rf = Leader → sound w (currentTerm rf) (logs rf);
  pi_match : role rf = Leader → ∀ j k, matchIndex rf !! j = Some k →
    k < go_len (logs rf) ∧
    ∀ m, 0 < Z.of_nat m ≤ k → holds (logs rf) m (currentTerm rf) →
      (Z.of_nat j, m, currentTerm rf) ∈ w_acks w;
}.

(** While peer [i] stands or leads in term [u], its log extends [L] by entries
    of [u]. *)
Definition sent b (i u : Z) L : Prop :=
  ∀ rf, nodes b !! i = Some rf → u ≤ currentTerm rf ∧
    (role rf ≠ Follower → currentTerm rf = u →
     ∃ tl, logs rf = L ++ tl ∧ Forall (λ e, le_Term e = u) tl).

(** A request was made from [L], by the leader of its term. *)
Record shipped w b (i : Z) (args : AppendEntriesArgs Cmd) L : Prop := {
  sh_slice : slice args L;
  sh_branch : branch (w_tree w) L;
  sh_elected : elected w i (aa_Term args);
  sh_sound : sound w (aa_Term args) L;
  sh_sent : sent b i (aa_Term args) L;
  sh_point : point w L (aa_LeaderCommit args);
}.

Definition item_inv w b (p : pending Cmd) : Prop :=
  match p with
  | TCheck i _ args false =>
      ∃ L, slice args L ∧ branch (w_tree w) L ∧ sent b i (aa_Term args) L ∧
        point w L (aa_LeaderCommit args)
  | MAppend _ i _ args => ∃ L, shipped w b i args L
  | MAppended i j args reply =>
      ∃ L, shipped w b i args L ∧
        (ar_Success reply = true → ∀ m, holds L m (aa_Term args) → (j, m, aa_Term args) ∈ w_acks w)
  | MInstalled _ _ args _ => ia_LastIncludedIndex args = 0
  | TDeliver _ msgs | TApplied _ _ msgs => Forall (said w) msgs
  | TMsg _ _ => False
  | _ => True
  end.

(** The log a candidate asked for votes with. *)
Definition last_log w (el : election) L : Prop :=
  0 ≤ va_LastLogIndex (el_args el) ∧
  w_tree w !! (Z.to_nat (va_LastLogIndex (el_args el)), va_LastLogTerm (el_args el)) = Some L.

Record votes_inv w b : Prop := {
  vi_last : ∀ e el, elections b !! e = Some el → 0 ≤ el_term el ∧ ∃ L, last_log w el L;
  vi_cand : ∀ e el rf, elections b !! e = Some el → nodes b !! el_owner el = Some rf →
    role rf = Candidate → currentTerm rf = el_term el → last_log w el (logs rf);
  vi_vote : ∀ e el j m t, elections b !! e = Some el → voted (replies b) e el j →
    j ≠ el_owner el → (j, m, t) ∈ w_acks w → t < el_term el →
    ∃ L, last_log w el L ∧ (holds L m t ∨ lost w m t);
}.

(** What the other files have shown of the cluster. *)
Record known G s : Prop := {
  kn_size : 0 ≤ size (base s);
  kn_inv : inv (base s);
  kn_cand : cand_ok (base s);
  kn_terms : terms_ok (base s);
  kn_tree : tree_ok G s;
}.

Record ginv w s : Prop := {
  gi_nodes : nodes_ok w;
  gi_acks : acks_ok w;
  gi_peer : ∀ i rf, nodes (base s) !! i = Some rf → peer_inv w i rf;
  gi_votes : votes_inv w (base s);
  gi_item : ∀ p, p ∈ items s → item_inv w (base s) p;
}.

Definition cinv G A s : Prop := known G s ∧ ginv (world_of (base s) G A) s.

(** ** Peers *)
Lemma peer_grows w w' i rf :
  grows w w' → (∀ m t, (i, m, t) ∈ w_acks w' → (i, m, t) ∈ w_acks w) →
  (role rf = Leader → linear w' (currentTerm rf) (logs rf)) → peer_inv w i rf → peer_inv w' i rf.
Proof.
  intros Hg Ha Hl [H1 H2 H3 H4 H5 H6 H7]. split; try done.
  - by eapply point_grows.
  - intros m t Hin. destruct (H5 m t (Ha _ _ Hin)) as [? [?|?]]; split; try done; [by left|right].
    by apply (gr_lost _ _ Hg).
  - intros HL. by eapply sound_grows; [done|apply H6|apply Hl].
  - intros HL j k Hk. destruct (H7 HL j k Hk) as [? Hm]. split; [done|].
    intros. apply (gr_acks _ _ Hg). by apply Hm.
Qed.

Lemma peer_same_tree w w' i rf :
  grows w w' → w_tree w' = w_tree w → (∀ m t, (i, m, t) ∈ w_acks w' → (i, m, t) ∈ w_acks w) →
  peer_inv w i rf → peer_inv w' i rf.
Proof.
  intros Hg Ht Ha Hp. apply (peer_grows w); try done. intros HL.
  unfold linear, node. rewrite Ht. apply (pi_leader _ _ _ Hp HL).
Qed.

(** What is on disk after a step. *)
Lemma disk_cases rf rf' :
  persister rf' = persister rf ∨ persister rf' = persister (persist rf') →
  saved rf' = saved rf ∧ stored rf' = stored rf ∨
  (saved rf').1 = currentTerm rf' ∧ stored rf' = logs rf'.
Proof.
  intros [Hp|Hp]; [left|right].
  - by rewrite (saved_same _ _ Hp), (stored_same _ _ Hp).
  - by rewrite (saved_persisted _ Hp), (stored_persisted _ Hp).
Qed.

(** The log stays, and so does what is known of it. *)
Lemma peer_log_same w i rf rf' :
  peer_inv w i rf → (saved rf).1 ≤ currentTerm rf → currentTerm rf ≤ currentTerm rf' →
  logs rf' = logs rf → commitIndex rf' = commitIndex rf →
  persister rf' = persister rf ∨ persister rf' = persister (persist rf') →
  (role rf' = Leader → sound w (currentTerm rf') (logs rf') ∧
     ∀ j k, matchIndex rf' !! j = Some k → k ≤ 0 ∨
       role rf = Leader ∧ currentTerm rf' = currentTerm rf ∧ matchIndex rf !! j = Some k) →
  0 < go_len (logs rf) → peer_inv w i rf'.
Proof.
  intros [H1 H2 H3 H4 H5 _ H7] Hsv Ht Hl Hc Hd Hlead Hlen.
  assert (below (currentTerm rf') (logs rf)) as Hb by (eapply Forall_impl; [done|]; cbn; lia).
  split; rewrite ?Hl, ?Hc; try done.
  - destruct (disk_cases _ _ Hd) as [[-> ->]|[-> ->]]; [done|by rewrite Hl].
  - intros m t Hm. destruct (H5 m t Hm) as [Hle Hh].
    destruct (disk_cases _ _ Hd) as [[-> ->]|[-> ->]]; [done|]. rewrite Hl.
    split; [lia|]. destruct Hh as [[? _]|?]; [by left|by right].
  - intros HL. rewrite <-Hl. by apply Hlead.
  - intros HL j k Hk. destruct (Hlead HL) as [_ Hm]. destruct (Hm j k Hk) as [Hle|(HL0 & Ht' & Hk')].
    + split; [lia|]. intros; lia.
    + rewrite Ht'. by apply H7.
Qed.

Lemma peer_quiet w i rf rf' :
  peer_inv w i rf → (saved rf).1 ≤ currentTerm rf → 0 < go_len (logs rf) → quiet rf rf' → peer_inv w i rf'.
Proof.
  intros Hp Hsv Hlen [Hl Hd [Hc Hm] Ht HL _]. eapply peer_log_same; try done. intros Hr.
  destruct (HL Hr) as [Hr0 Ht0]. split; [rewrite Ht0, Hl; by apply Hp|].
  intros j k Hk. destruct (Hm j k Hk) as [?|?]; [by left|by right].
Qed.

(** ** What a peer does to the requests it has sent *)
Definition moves rf rf' : Prop :=
  currentTerm rf ≤ currentTerm rf' ∧
  (role rf' ≠ Follower → currentTerm rf < currentTerm rf' ∨
     role rf ≠ Follower ∧ currentTerm rf' = currentTerm rf ∧
     ∃ tl, logs rf' = logs rf ++ tl ∧ Forall (λ e, le_Term e = currentTerm rf) tl).

Lemma quiet_moves rf rf' : quiet rf rf' → moves rf rf'.
Proof.
  intros Hq. split; [apply Hq|]. intros Hr. destruct (qt_role _ _ Hq Hr) as [?|[Hr0 ?]]; [by left|right].
  split_and!; [congruence|done|]. exists []. rewrite app_nil_r. split; [apply Hq|constructor].
Qed.

Lemma promoted_moves rf rf' : promoted rf rf' → moves rf rf'.
Proof.
  intros (Hr & Hr' & Ht & (Hl & _) & _ & _). split; [lia|]. intros _. right.
  split_and!; [congruence|done|]. exists []. rewrite app_nil_r. by split.
Qed.

Lemma sent_moves b b' i rf rf' u L :
  nodes b !! i = Some rf → nodes b' !! i = Some rf' → moves rf rf' → sent b i u L → sent b' i u L.
Proof.
  intros Hi Hi' [Ht Hm] Hs rf0 H0. rewrite Hi' in H0. injection H0 as <-.
  destruct (Hs rf Hi) as [Hu Hl]. split; [lia|]. intros Hr Heq.
  destruct (Hm Hr) as [?|(Hr0 & Ht0 & tl & Htl & Hall)]; [lia|].
  destruct Hl as (tl0 & Hl & Hall0); [done|lia|].
  exists (tl0 ++ tl). rewrite Htl, Hl, app_assoc. split; [done|]. apply Forall_app. split; [done|].
  eapply Forall_impl; [done|]. cbn. lia.
Qed.

Lemma sent_set b i rf rf' k u L :
  nodes b !! i = Some rf → moves rf rf' → sent b k u L → sent (set_node i rf' b) k u L.
Proof.
  intros Hi Hm Hs. destruct (decide (k = i)) as [->|Hne].
  - eapply sent_moves; [done| |done|done]. cbn. by rewrite lookup_insert_eq.
  - intros rf0 H0. cbn in H0. rewrite lookup_insert_ne in H0 by done. by apply Hs.
Qed.

Lemma shipped_grows w w' b b' i args L :
  grows w w' → (sent b i (aa_Term args) L → sent b' i (aa_Term args) L) →
  linear w' (aa_Term args) L → shipped w b i args L → shipped w' b' i args L.
Proof.
  intros Hg Hs Hl [H1 H2 H3 H4 H5 H6]. split; try done.
  - by eapply branch_grows.
  - by apply (gr_elected _ _ Hg).
  - by eapply sound_grows.
  - by apply Hs.
  - by eapply point_grows.
Qed.

Lemma item_grows w w' b b' p :
  grows w w' → (∀ i u L, sent b i u L → sent b' i u L) →
  (∀ i args L, shipped w b i args L → linear w' (aa_Term args) L) →
  item_inv w b p → item_inv w' b' p.
Proof.
  intros Hg Hs Hl.
  assert (∀ msgs, Forall (said w) msgs → Forall (said w') msgs) as Hsaid
    by (intros msgs Hm; eapply Forall_impl; [done|]; intros; by eapply said_grows).
  destruct p as [|i j args []|live i j args|i j args reply| | | | | | | | | | |]; cbn; try done; eauto.
  - intros (L & ? & ? & ? & ?). exists L. split_and!; eauto using branch_grows, point_grows.
  - intros (L & HL). exists L. eapply shipped_grows; [done|apply Hs|by eapply Hl|done].
  - intros (L & HL & Ha). exists L. split; [eapply shipped_grows; [done|apply Hs|by eapply Hl|done]|].
    intros. apply (gr_acks _ _ Hg). by apply Ha.
Qed.

Lemma linear_same_tree w w' b i args L :
  w_tree w' = w_tree w → shipped w b i args L → linear w' (aa_Term args) L.
Proof. intros Ht Hs. unfold linear, node. rewrite Ht. apply (sh_sound _ _ _ _ _ Hs). Qed.

(** ** A step of one peer *)

(** Acknowledgements that [i] adds in a step from [rf], in its term or a later
    one: it has not voted beyond it. *)
Definition new_acks w (i : Z) rf (A' : acks) : Prop :=
  w_acks w ⊆ A' ∧ ∀ j m t, (j, m, t) ∈ A' →
    (j, m, t) ∈ w_acks w ∨ j = i ∧ node w m t ∧ currentTerm rf ≤ t.

Lemma moved_voted b G A j t :
  moved (world_of b G A) j t →
  ∃ e el, elections b !! e = Some el ∧ t < el_term el ∧ voted (replies b) e el j.
Proof.
  intros (e & el & He & Ht & Hne & [->|Hj]%elem_of_cons); exists e, el; (split_and!; [done|done|]).
  - by apply voted_self.
  - by apply voted_counted.
Qed.

Lemma not_moved b G A i rf t :
  inv b → nodes b !! i = Some rf → currentTerm rf ≤ t → ¬ moved (world_of b G A) i t.
Proof.
  intros Hinv Hi Ht (e & el & He & Hlt & Hv)%moved_voted.
  destruct (inv_vote _ Hinv _ _ _ _ He Hv Hi) as [[Hle _] _]. cbn in Hle. lia.
Qed.

Lemma new_acks_grow b G A A' i rf :
  inv b → nodes b !! i = Some rf → new_acks (world_of b G A) i rf A' →
  grows (world_of b G A) (world_of b G A').
Proof.
  intros Hinv Hi [Hsub Hnew]. rewrite (union_difference_L A A') by done.
  apply (grows_acks (A' ∖ A) (world_of b G A)).
  intros j m t [Hin Hno]%elem_of_difference.
  destruct (Hnew _ _ _ Hin) as [?|(-> & _ & Ht)]; [done|]. by eapply not_moved.
Qed.

(** What a step of an item does, as far as the invariant is concerned. *)
Record effects w b (i : Z) rf rf' (A' : acks) (w' : world Cmd) (ps : list (pending Cmd))
    (ev : option (Z * ApplyMsg Cmd)) : Prop := {
  ef_acks : new_acks w i rf A';
  ef_moves : moves rf rf';
  ef_logs : role rf' = Candidate → logs rf' = logs rf;
  ef_peer : peer_inv w' i rf';
  ef_items : Forall (item_inv w' (set_node i rf' b)) ps;
  ef_said : match ev with Some (_, msg) => said w' msg | None => True end;
}.

Lemma votes_set b G A A' i rf rf' :
  inv b → nodes b !! i = Some rf → new_acks (world_of b G A) i rf A' →
  grows (world_of b G A) (world_of b G A') → role_frame rf rf' →
  (role rf' = Candidate → logs rf' = logs rf) →
  votes_inv (world_of b G A) b → votes_inv (world_of b G A') (set_node i rf' b).
Proof.
  intros Hinv Hi [_ Hnew] Hg Hrole Hlogs [H1 H2 H3]. split; cbn [elections replies nodes set_node].
  - apply H1.
  - intros e el rf0 He H0 Hr Ht. apply lookup_insert_Some in H0 as [[Heq <-]|[_ H0]]; [|by apply (H2 e)].
    destruct Hrole as [?|[Hr0 Ht0]]; [congruence|]. rewrite Hlogs by done.
    apply (H2 e); congruence.
  - intros e el j m t He Hv Hj Hin Hlt. destruct (Hnew _ _ _ Hin) as [Hin'|(-> & _ & Ht)].
    + destruct (H3 e el j m t He Hv Hj Hin' Hlt) as (L & HL & [?|?]); exists L;
        (split; [done|]); [by left|right; by apply (gr_lost _ _ Hg)].
    + destruct (inv_vote _ Hinv _ _ _ _ He Hv Hi) as [[Hle _] _]. cbn in Hle. lia.
Qed.

Lemma ginv_set G A A' s i rf rf' its ps ev :
  cinv G A s → nodes (base s) !! i = Some rf → role_frame rf rf' →
  effects (world_of (base s) G A) (base s) i rf rf' A' (world_of (base s) G A') ps ev →
  (∀ p, p ∈ its → p ∈ items s ∨ p ∈ ps) →
  grows (world_of (base s) G A) (world_of (base s) G A') ∧
  ginv (world_of (set_node i rf' (base s)) G A') {| base := set_node i rf' (base s); items := its |}.
Proof.
  intros [Hk [Hn Ha Hp Hv Hit]] Hi Hrole [Hnew Hmv Hlg Hpeer Hps _] Hits.
  pose proof (new_acks_grow _ _ _ _ _ _ (kn_inv _ _ Hk) Hi Hnew) as Hg. split; [done|].
  change (world_of (set_node i rf' (base s)) G A') with (world_of (base s) G A').
  split; cbn [base items].
  - by eapply nodes_ok_same_tree.
  - intros j m t Hin. destruct Hnew as [_ Hnew].
    destruct (Hnew _ _ _ Hin) as [Hin'|(_ & Hnode & _)]; [by apply (Ha j)|done].
  - intros k rfk Hrfk. cbn in Hrfk. apply lookup_insert_Some in Hrfk as [[<- <-]|[Hne Hrfk]]; [done|].
    eapply peer_same_tree; [done|done| |by apply Hp]. intros m t Hin.
    destruct Hnew as [_ Hnew]. destruct (Hnew _ _ _ Hin) as [?|(-> & _)]; done.
  - eapply votes_set; try done. apply Hk.
  - intros p [Hp'|Hp']%Hits; [|by eapply Forall_forall].
    eapply item_grows; [done| | |by apply Hit].
    + intros k u L. by eapply sent_set.
    + intros k args L. by apply linear_same_tree.
Qed.

(** *** The items *)
Lemma spawned_inv w b i sp : no_msg sp → Forall (item_inv w b) (spawned i sp).
Proof. induction 1 as [|g sp Hg _ IH]; [constructor|]. by destruct g; try constructor. Qed.

Section Item.
Context G A s (i : Z) rf.
Context (Hk : known G s) (Hgi : ginv (world_of (base s) G A) s) (Hi : nodes (base s) !! i = Some rf).
Local Abbreviation w := (world_of (base s) G A).

Lemma item_peer : peer_ok G rf.
Proof using Hk Hi. by eapply to_peer; [apply Hk|]. Qed.

Lemma item_peer_inv : peer_inv w i rf.
Proof using Hgi Hi. by apply (gi_peer _ _ Hgi). Qed.

Lemma item_branch : branch G (logs rf).
Proof using Hk Hi. apply item_peer. Qed.

Lemma item_length : 0 < go_len (logs rf).
Proof using Hk Hi.
  pose proof (branch_nonempty _ _ item_branch). unfold go_len. destruct (logs rf); [done|cbn; lia].
Qed.

Lemma item_saved : (saved rf).1 ≤ currentTerm rf.
Proof using Hk Hi. apply (inv_node _ (kn_inv _ _ Hk) _ _ Hi). Qed.

Lemma effects_quiet rf' ps ev :
  quiet rf rf' → Forall (item_inv w (set_node i rf' (base s))) ps →
  match ev with Some (_, msg) => said w msg | None => True end →
  effects w (base s) i rf rf' A w ps ev.
Proof using Hk Hgi Hi.
  intros Hq Hps Hev. split; try done.
  - split; [done|]. by left.
  - by apply quiet_moves.
  - intros _. apply Hq.
  - eapply peer_quiet; [apply item_peer_inv|apply item_saved|apply item_length|done].
Qed.

Lemma effects_same ps ev :
  Forall (item_inv w (base s)) ps →
  match ev with Some (_, msg) => said w msg | None => True end →
  effects w (base s) i rf rf A w ps ev.
Proof using Hk Hgi Hi.
  intros Hps Hev. apply effects_quiet; [apply quiet_refl| |done]. by rewrite set_node_id.
Qed.

(** A request is generated. *)
Lemma gen_slice server args :
  genAppendEntries server rf = Ok (args, false) →
  slice args (logs rf) ∧ aa_Term args = currentTerm rf ∧ aa_LeaderCommit args = commitIndex rf.
Proof using Hk Hi.
  pose proof (po_index _ _ item_peer) as Hix. unfold genAppendEntries, convertToStorageIndex.
  intros Hg. apply bind_Ok in Hg as (nx & _ & Hg). rewrite Hix in Hg.
  destruct (decide (nx - 1 < 0)) as [|Hnx]; [done|].
  rewrite decide_False in Hg by lia.
  apply bind_Ok in Hg as (t & Ht & Hg). apply bind_Ok in Hg as (ents & [Hr ->]%go_from_Ok & [= <-]).
  apply bind_Ok in Ht as (e & [_ He]%go_index_Ok & [= <-]).
  split; [|done]. split; cbn; [lia| |f_equal; lia].
  replace (nx - 1) with (nx - 1 - 0) by lia. by rewrite He.
Qed.

Lemma gen_item server args snap :
  genAppendEntries server rf = Ok (args, snap) → item_inv w (base s) (TCheck i server args snap).
Proof using Hk Hgi Hi.
  destruct snap; [done|]. intros (Hsl & Ht & Hc)%gen_slice. exists (logs rf). rewrite Ht, Hc.
  split_and!; [done|apply item_branch| |apply item_peer_inv].
  intros rf0 H0. rewrite Hi in H0. injection H0 as <-. split; [done|]. intros _ _.
  exists []. rewrite app_nil_r. by split.
Qed.

(** A leader that still is in the term of a request sends it. *)
Lemma check_item server args :
  item_inv w (base s) (TCheck i server args false) → role rf = Leader → currentTerm rf = aa_Term args →
  item_inv w (base s) (MAppend true i server args).
Proof using Hk Hgi Hi.
  intros (L & Hsl & Hb & Hs & Hp) Hr Ht. exists L.
  destruct (Hs rf Hi) as [_ (tl & Hl & Htl)]; [by rewrite Hr|done|].
  destruct (pi_leader _ _ _ item_peer_inv Hr) as [Hled Hbl Hcp Hln]. rewrite Ht, Hl in *.
  assert (∀ m t, t < aa_Term args → holds (L ++ tl) m t → holds L m t) as Hfront.
  { intros m t Hlt Hh. eapply holds_front; [done|]. eapply Forall_impl; [done|]. cbn. lia. }
  split; try done.
  - rewrite <-Ht. by apply (inv_leader _ (kn_inv _ _ Hk)).
  - split; [done| | |].
    + by apply Forall_app in Hbl as [? _].
    + intros m t Hn Hlt. destruct (Hcp m t Hn Hlt) as [?|?]; [left; by apply Hfront|by right].
    + intros m Hn Hm. assert (holds (L ++ tl) m (aa_Term args)) as Hh.
      { apply Hln; [done|]. rewrite length_app. lia. }
      unfold holds in *. by rewrite lookup_app_l in Hh.
Qed.

(** *** A follower takes entries and acknowledges them *)
Section Append.
Context (k : Z) (args : AppendEntriesArgs Cmd) L (Hsh : shipped w (base s) k args L).
Context (Hfresh : fresh args rf).
Local Abbreviation u := (aa_Term args).

Lemma fresh_length m : holds (logs rf) m u → (m < length L)%nat.
Proof using Hk Hi Hsh Hfresh.
  intros Hh. destruct (decide (m < length L)%nat) as [|Hge]; [done|exfalso].
  pose proof (slice_length _ _ (sh_slice _ _ _ _ _ Hsh)) as Hlen.
  pose proof Hfresh as Hf. unfold fresh, convertToStorageIndex in Hf. rewrite (po_index _ _ item_peer) in Hf.
  unfold holds in Hh. apply fmap_Some in Hh as (e & He & Hte).
  assert (drop (Z.to_nat (aa_PrevLogIndex args + 1 + go_len (aa_Entries args) - 0)) (logs rf)
            !! (m - length L)%nat = Some e) as Hd.
  { rewrite lookup_drop, <-He. f_equal. unfold go_len in *. lia. }
  by apply (proj1 (Forall_lookup _ _) Hf _ _ Hd).
Qed.

Lemma accepted_log rf' : prev_agrees rf args L → takes rf args rf' → logs rf' = L.
Proof using Hk Hi Hsh.
  intros (e & e' & He & He' & Hag) [-> _]. destruct Hsh as [[_ _ ->] HbL _ _ _ _].
  by eapply branch_append; [apply item_branch|done|done|done|].
Qed.

Lemma accepted_kept m t :
  currentTerm rf ≤ u → (i, m, t) ∈ A → t ≤ u ∧ (holds L m t ∨ lost w m t).
Proof using Hk Hgi Hi Hsh Hfresh.
  intros Hu Hm. destruct (pi_acks _ _ _ item_peer_inv _ _ Hm) as [Ht Hh].
  pose proof item_saved. split; [lia|]. destruct Hh as [[Hh _]|?]; [|by right].
  eapply kept; [apply Hsh|apply item_branch|done|lia|]. intros k'. apply fresh_length.
Qed.

Lemma accepted_point rf' : currentTerm rf ≤ u → takes rf args rf' → point w L (commitIndex rf').
Proof using Hk Hgi Hi Hsh Hfresh.
  intros Hu [_ [->|[Hle _]]]; [|by eapply point_le; [|apply Hsh]].
  eapply point_kept; [apply Hsh|apply item_branch| |by apply fresh_length|apply item_peer_inv].
  eapply Forall_impl; [apply item_peer_inv|]. cbn. lia.
Qed.

Local Abbreviation A1 := (A ∪ acks_of i u L).

Lemma accepted_acks : currentTerm rf ≤ u → new_acks w i rf A1.
Proof using Hsh.
  intros Hu. split; [apply union_subseteq_l|]. intros j m t [?|Hin]%elem_of_union; [by left|right].
  apply elem_of_acks_of in Hin as (-> & -> & Hh). split_and!; [done| |done].
  eexists. apply branch_node; [apply Hsh|done].
Qed.

Lemma accepted_peer rf' :
  prev_agrees rf args L → accepts rf args rf' → peer_inv (world_of (base s) G A1) i rf'.
Proof using Hk Hgi Hi Hsh Hfresh.
  intros Hag [Hu Ht Hr Hd Htk]. pose proof (accepted_log _ Hag Htk) as Hl.
  pose proof (new_acks_grow _ _ _ _ _ _ (kn_inv _ _ Hk) Hi (accepted_acks Hu)) as Hg.
  pose proof (so_below _ _ _ (sh_sound _ _ _ _ _ Hsh)) as Hb.
  assert ((saved rf').1 = u ∧ stored rf' = L) as [Hsv Hst].
  { by rewrite (saved_persisted _ Hd), (stored_persisted _ Hd), Hl. }
  split; rewrite ?Hl, ?Ht, ?Hsv, ?Hst, ?Hr; try done.
  - destruct Htk as [_ [->|[_ Hc]]]; [|apply Hc]; apply item_peer_inv.
  - eapply point_grows; [done|]. by apply accepted_point.
  - intros m t Hm. cbn in Hm. apply elem_of_union in Hm as [Hm|Hm].
    + destruct (accepted_kept m t Hu Hm) as [? [?|Hlost]]; split; auto. right. by apply (gr_lost _ _ Hg).
    + apply elem_of_acks_of in Hm as (_ & -> & Hh). split; [done|]. by left.
Qed.

Lemma append_effects live now rf' reply sp :
  AppendEntries now args rf = Ok (rf', reply, sp) →
  ∃ A', effects w (base s) i rf rf' A' (world_of (base s) G A')
          ((if live : bool then [MAppended k i args reply] else []) ++ spawned i sp) None.
Proof using Hk Hgi Hi Hsh Hfresh.
  intros Ha. apply (AppendEntries_cases _ _ _ _ _ _ L) in Ha as [Hsp Hcase]; [|apply item_peer|apply Hsh].
  destruct Hcase as [[Hno Hq]|(Hyes & Hag & Hac)].
  - exists A. apply effects_quiet; [done| |done]. apply Forall_app. split; [|by apply spawned_inv].
    destruct live; constructor; [|constructor]. exists L. rewrite Hno. split; [|done].
    eapply shipped_grows; [apply grows_refl| |apply Hsh|done]. eapply sent_set; [done|by apply quiet_moves].
  - pose proof (ac_term _ _ _ Hac) as Hu.
    assert (moves rf rf') as Hmv by (destruct Hac; split; [lia|done]).
    exists A1. split; try done.
    + by apply accepted_acks.
    + rewrite (ac_role _ _ _ Hac). done.
    + by apply accepted_peer.
    + apply Forall_app. split; [|by apply spawned_inv].
      destruct live; constructor; [|constructor]. exists L. split.
      * eapply shipped_grows; [eapply new_acks_grow; [apply Hk|done|by apply accepted_acks]| |apply Hsh|done].
        by eapply sent_set.
      * intros _ m Hh. cbn. apply elem_of_union_r, elem_of_acks_of. by split_and!.
Qed.
End Append.

(** *** A leader counts an acknowledgement *)
Lemma leader_size : role rf = Leader → 2 ≤ npeers rf.
Proof using Hk Hi.
  intros Hr. pose proof (kn_inv _ _ Hk) as Hinv. rewrite (no_npeers _ _ _ (inv_node _ Hinv _ _ Hi)).
  destruct (inv_leader _ Hinv _ _ Hi Hr) as (e & el & He & _ & _ & Hne & _).
  destruct (inv_election _ Hinv _ _ He) as [Ho _ _ Hno Hv _].
  destruct (el_voters el) as [|v vs]; [done|]. apply not_elem_of_cons in Hno as [Hno _].
  specialize (Hv v ltac:(left)). lia.
Qed.

Section Count.
Context (j : Z) (args : AppendEntriesArgs Cmd) L (Hsh : shipped w (base s) i args L).
Context (Hacked : ∀ m, holds L m (aa_Term args) → (j, m, aa_Term args) ∈ A).
Context (Hterm : currentTerm rf = aa_Term args).
Context rf' (Hcr : counts_reply j args rf rf').
Local Abbreviation u := (currentTerm rf).
Local Abbreviation A1 := (A ∪ acks_of i u (logs rf)).

Lemma counted_acks : new_acks w i rf A1.
Proof using Hk Hi.
  split; [apply union_subseteq_l|]. intros j' m t [?|Hin]%elem_of_union; [by left|right].
  apply elem_of_acks_of in Hin as (-> & -> & Hh). split_and!; [done| |done].
  eexists. by apply branch_node; [apply item_branch|].
Qed.

Lemma counted_extends : ∃ tl, logs rf = L ++ tl.
Proof using Hi Hsh Hterm Hcr.
  destruct (sh_sent _ _ _ _ _ Hsh rf Hi) as [_ (tl & Hl & _)]; [|done|eauto].
  by rewrite (cr_leader _ _ _ _ Hcr).
Qed.

Lemma counted_match j' k :
  matchIndex rf' !! j' = Some k →
  k < go_len (logs rf) ∧
  ∀ m, 0 < Z.of_nat m ≤ k → holds (logs rf) m u → (Z.of_nat j', m, u) ∈ A1.
Proof using Hk Hgi Hi Hsh Hacked Hterm Hcr.
  intros [[-> ->]|Hold]%(cr_match _ _ _ _ Hcr).
  - rewrite (slice_length _ _ (sh_slice _ _ _ _ _ Hsh)). destruct counted_extends as [tl Htl].
    split; [rewrite Htl; unfold go_len; rewrite length_app; lia|].
    intros m Hm Hh. rewrite Z2Nat.id by apply Hcr. rewrite Hterm. apply elem_of_union_l, Hacked.
    rewrite Htl, Hterm in Hh. unfold holds in *. rewrite lookup_app_l in Hh; [done|].
    unfold go_len in Hm. lia.
  - destruct (pi_match _ _ _ item_peer_inv (cr_leader _ _ _ _ Hcr) _ _ Hold) as [? Hm].
    split; [done|]. intros m ? ?. by apply elem_of_union_l, Hm.
Qed.

(** The entry at a new commit index is on a majority. *)
Lemma counted_point :
  point (world_of (base s) G A1) (logs rf) (commitIndex rf') ∧ 0 ≤ commitIndex rf'.
Proof using Hk Hgi Hi Hsh Hacked Hterm Hcr.
  pose proof (new_acks_grow _ _ _ _ _ _ (kn_inv _ _ Hk) Hi counted_acks) as Hg.
  pose proof item_peer_inv as Hpi. pose proof (pi_index _ _ _ Hpi) as Hc0.
  destruct (cr_commit _ _ _ _ Hcr) as [->|(rf1 & Hc1 & Hm1 & Hl1 & Ht1 & Hme1 & Hn1 & Hlt & He & count & Hmaj & Hct)].
  { split; [|done]. eapply point_grows; [done|apply Hpi]. }
  split; [right|lia]. pose proof (inv_node _ (kn_inv _ _ Hk) _ _ Hi) as [Hrange Hme Hnp _ _ _].
  apply count_match_servers in Hct as (W & HW & Hr & -> & Hmt); [|rewrite Hme1, Hn1; lia].
  rewrite Hl1, Ht1 in He. rewrite Hn1, Hnp in *.
  exists (Z.to_nat (commitIndex rf')), u. split_and!; [|done|lia].
  exists W. split; [split; try done; cbn; lia|]. intros j' Hj'.
  destruct (Hmt j' Hj') as [->|(k & Hk' & Hle)].
  - cbn. apply elem_of_union_r, elem_of_acks_of. split_and!; [congruence|done|done].
  - rewrite Hm1 in Hk'. destruct (counted_match _ _ Hk') as [_ Hall].
    rewrite Z2Nat.id in Hall by (apply Hr in Hj'; lia). apply Hall; [lia|done].
Qed.

Lemma counted_peer : peer_inv (world_of (base s) G A1) i rf'.
Proof using Hk Hgi Hi Hsh Hacked Hterm Hcr.
  pose proof (new_acks_grow _ _ _ _ _ _ (kn_inv _ _ Hk) Hi counted_acks) as Hg.
  pose proof item_peer_inv as Hpi. pose proof Hcr as [_ HL HL' Ht _ _ Hl Hd _ _].
  assert ((saved rf').1 = u ∧ stored rf' = logs rf) as [Hsv Hst].
  { by rewrite (saved_persisted _ Hd), (stored_persisted _ Hd), Hl, <-Ht. }
  split; rewrite ?Hl, ?Ht, ?Hsv, ?Hst; try apply counted_point; try apply Hpi.
  - intros m t Hm. cbn in Hm. apply elem_of_union in Hm as [Hm|Hm].
    + destruct (pi_acks _ _ _ Hpi _ _ Hm) as [Hle Hh]. pose proof item_saved. split; [lia|].
      destruct Hh as [[? _]|?]; [by left|right]. by apply (gr_lost _ _ Hg).
    + apply elem_of_acks_of in Hm as (_ & -> & Hh). split; [done|]. by left.
  - intros _. eapply sound_same_tree; [done|done|by apply Hpi].
  - intros _. apply counted_match.
Qed.

Lemma count_effects sp :
  no_msg sp → effects w (base s) i rf rf' A1 (world_of (base s) G A1) (spawned i sp) None.
Proof using Hk Hgi Hi Hsh Hacked Hterm Hcr.
  intros Hsp. pose proof Hcr as [_ HL HL' Ht _ _ Hl _ _ _]. split; try done.
  - apply counted_acks.
  - split; [lia|]. intros _. right. split_and!; [by rewrite HL|done|].
    exists []. rewrite app_nil_r. by split.
  - apply counted_peer.
  - by apply spawned_inv.
Qed.
End Count.

(** *** What is applied has been committed *)
Lemma applied_said msgs : applyLogs rf = Ok (Some msgs) → Forall (said w) msgs.
Proof using Hk Hgi Hi.
  pose proof item_peer as [_ Hix Hap _]. unfold applyLogs. case_decide as H1; [done|].
  case_decide as H2; [intros [= <-]; constructor|].
  intros Hm. apply bind_Ok in Hm as (msgs' & Hm & [= ->]). apply mapM_Ok_inv in Hm.
  apply Forall_forall. intros msg Hin. apply list_elem_of_lookup in Hin as (k & Hmk).
  destruct (Forall2_lookup_r _ _ _ _ _ Hm Hmk) as (ix & Hixk & Hf).
  apply lookup_seqZ in Hixk as [-> Hrange]. apply fmap_Ok in Hf as (e & [_ He]%go_index_Ok & <-).
  unfold convertToStorageIndex in He. rewrite Hix, Z.sub_0_r in He.
  pose proof (pi_point _ _ _ item_peer_inv) as [?|(n & t & Hct & Hh & Hc)]; [lia|].
  exists n, t, (take (S n) (logs rf)), e. split_and!; [done| |cbn; lia..| |done].
  - by apply branch_node; [apply item_branch|].
  - cbn [CommandIndex command_msg]. rewrite lookup_take_lt by lia. done.
Qed.

(** A vote's answer, a snapshot's and the rest. *)
Lemma applied_quiet msg : quiet rf (applied msg rf).
Proof using. split; cbn; try done; [by left|by apply index_same|]. intros ?. by right. Qed.
End Item.

Lemma perform_effects G A s now p rf rf' ps ev :
  cinv G A s → p ∈ items s → nodes (base s) !! site p = Some rf → orderly p rf →
  is_start p = false → perform now p rf = Ok (rf', ps, ev) →
  ∃ A', effects (world_of (base s) G A) (base s) (site p) rf rf' A' (world_of (base s) G A') ps ev.
Proof.
  intros [Hk Hgi] Hp Hi (_ & Hsent & Hcuts & Hcount) Hst Hpf.
  pose proof (gi_item _ _ Hgi p Hp) as Hinv. pose proof (to_item _ _ (kn_tree _ _ Hk) p Hp) as Hok.
  pose proof (po_index _ _ (item_peer _ _ _ _ Hk Hi)) as Hix.
  destruct p as [i j|i j args snap|live i j args|i j args reply|i j|i j args|live i j args|i j args reply
    |i|i|i [|msg msgs]|i msg msgs|i msg|i t c|i]; cbn in Hi, Hsent, Hcuts, Hcount, Hpf; try done;
    try (injection Hpf as <- <- <-; exists A; apply effects_same; try done; by repeat constructor).
  - apply bind_Ok in Hpf as ([args snap] & Hg & [= <- <- <-]). exists A. apply effects_same; try done.
    constructor; [by eapply gen_item|constructor].
  - injection Hpf as <- <- <-. exists A. apply effects_same; try done.
    destruct (bool_decide (role rf = Leader)) eqn:Hr; [apply bool_decide_eq_true in Hr|constructor].
    destruct snap; (constructor; [|constructor]); [done|].
    by eapply check_item.
  - apply bind_Ok in Hpf as ([[rf1 reply] sp] & Ha & [= <- <- <-]). destruct Hinv as [L HL].
    by eapply append_effects.
  - apply bind_Ok in Hpf as ([rf1 sp] & Ha & [= <- <- <-]). destruct Hinv as (L & HL & Hacked).
    apply handleAppendEntries_cases in Ha as [Hsp [Hq|[Hyes Hcr]]]; [| |done|by eapply leader_size].
    + exists A. apply effects_quiet; try done. by apply spawned_inv.
    + eexists. eapply count_effects; try done. by apply Hacked.
  - injection Hpf as <- <- <-. exists A. apply effects_same; try done.
    destruct (bool_decide (role rf = Leader)); by repeat constructor.
  - apply bind_Ok in Hpf as ([[rf1 reply] sp] & Ha & [= <- <- <-]).
    apply InstallSnapshot_quiet in Ha as [Hq ->]; [|rewrite Hok, Hix; lia].
    exists A. apply effects_quiet; try done. destruct live; by repeat constructor.
  - apply bind_Ok in Hpf as ([rf1 sp] & Ha & [= <- <- <-]). exists A.
    pose proof (handleInstallSnapshot_no_msg _ _ _ _ _ _ _ Ha) as Hsp.
    apply handleInstallSnapshot_quiet in Ha; [|done].
    apply effects_quiet; try done. by apply spawned_inv.
  - apply bind_Ok in Hpf as (r & Ha & [= <- <- <-]). exists A. apply effects_same; try done.
    pose proof (applyLogs_items _ _ _ (item_peer _ _ _ _ Hk Hi) Ha) as (msgs & -> & _).
    constructor; [|constructor]. by eapply applied_said.
  - injection Hpf as <- <- <-. exists A. apply Forall_cons in Hinv as [? ?].
    apply effects_same; try done. by repeat constructor.
  - injection Hpf as <- <- <-. exists A. apply effects_quiet; try done; [apply applied_quiet|].
    by repeat constructor.
  - injection Hpf as <- <- <-. exists A. apply effects_quiet; try done. apply persist_quiet.
Qed.

(** ** A leader appends a command *)
Section Command.
Context G A s (i : Z) rf (command : Cmd).
Context (Hk : known G s) (Hgi : ginv (world_of (base s) G A) s).
Context (Hi : nodes (base s) !! i = Some rf) (Hr : role rf = Leader).
Local Abbreviation w := (world_of (base s) G A).
Local Abbreviation u := (currentTerm rf).
Local Abbreviation rf' := (Start_append u command rf).1.
Local Abbreviation w' := (world_of (base s) (grow u command rf G) A).

Lemma command_fresh : G !! (length (logs rf), u) = None.
Proof using Hk Hi Hr. by eapply leader_fresh; [apply Hk|..]. Qed.

Lemma command_grows : grows w w'.
Proof using Hk Hgi Hi Hr.
  apply (grows_tree w (length (logs rf)) u).
  - split; [apply Hk|]. apply (inv_election _ (kn_inv _ _ Hk)).
  - apply Hgi.
  - apply (kn_terms _ _ Hk i rf Hi).
  - apply command_fresh.
Qed.

(** Logs of the tree that end in this term are in front of the new entry. *)
Lemma command_linear v L :
  linear w v L → (v = u → (length L ≤ length (logs rf))%nat) → linear w' v L.
Proof using. intros Hl Hv. apply (linear_tree w (length (logs rf)) u (logs rf')); [done|]. intros Heq. left. by apply Hv. Qed.

Lemma command_sound : sound w' u (logs rf').
Proof using Hk Hgi Hi Hr.
  pose proof command_grows as Hg.
  destruct (pi_leader _ _ _ (item_peer_inv _ _ _ _ _ Hgi Hi) Hr) as [Hled Hb Hc Hl]. split.
  - by eapply led_grows.
  - apply Forall_app. split; [done|]. by repeat constructor.
  - intros m t Hn Hlt. destruct (gr_complete _ _ Hg _ _ Hled Hc m t Hn Hlt) as [?|?]; [left|by right].
    by apply holds_app.
  - apply (linear_tree w (length (logs rf)) u (logs rf')).
    + intros m Hn Hm. apply holds_app, Hl; [done|].
      assert (m ≠ length (logs rf)).
      { intros ->. destruct Hn as [lg Hlg]. cbn in Hlg. by rewrite command_fresh in Hlg. }
      cbn in Hm. rewrite length_app in Hm. cbn in Hm. lia.
    + intros _. right. unfold holds. cbn. by rewrite list_lookup_middle.
Qed.

Lemma command_nodes : nodes_ok w'.
Proof using Hk Hgi Hi Hr.
  pose proof command_grows as Hg. intros n v lg Hn. cbn in Hn. unfold grow in Hn.
  apply lookup_insert_Some in Hn as [[[= <- <-] <-]|[_ Hn]].
  - split_and!; [cbn; rewrite length_app; cbn; lia| | |apply command_sound].
    + apply branch_snoc; [by eapply item_branch|apply command_fresh].
    + unfold holds. cbn. by rewrite list_lookup_middle.
  - destruct (gi_nodes _ _ Hgi n v lg Hn) as (Hlen & Hb & Hh & Hs).
    split_and!; [done|by eapply branch_grows|done|]. eapply sound_grows; [done|done|].
    apply command_linear; [apply Hs|]. intros ->. apply prefix_length.
    by eapply to_leader; [apply Hk|..].
Qed.

Lemma command_peer : peer_inv w' i rf'.
Proof using Hk Hgi Hi Hr.
  pose proof command_grows as Hg. destruct (item_peer_inv _ _ _ _ _ Hgi Hi) as [H1 H2 H3 H4 H5 H6 H7].
  split; try done.
  - apply command_sound.
  - apply point_app. by eapply point_grows.
  - intros m t Hm. destruct (H5 m t Hm) as [? [[? ?]|?]]; (split; [done|]).
    + left. split; [by apply holds_app|done].
    + right. by apply (gr_lost _ _ Hg).
  - intros _. apply command_sound.
  - intros _ j k Hjk. destruct (H7 Hr j k Hjk) as [Hk' Hm]. cbn [logs Start_append fst set_logs].
    unfold go_len in *. rewrite length_app. split; [lia|]. intros m Hmk Hh. apply Hm; [done|].
    unfold holds in *. rewrite lookup_app_l in Hh; [done|lia].
Qed.

Lemma ginv_command its :
  (∀ p, p ∈ its → p ∈ items s ∨ p = TPersist i) →
  ginv (world_of (set_node i rf' (base s)) (grow u command rf G) A)
    {| base := set_node i rf' (base s); items := its |}.
Proof using Hk Hgi Hi Hr.
  intros Hits. pose proof command_grows as Hg. pose proof (kn_inv _ _ Hk) as Hinv.
  pose proof (inv_leader _ Hinv _ _ Hi Hr) as Hwon.
  change (world_of (set_node i rf' (base s)) (grow u command rf G) A) with w'.
  split; cbn [base items].
  - apply command_nodes.
  - intros j m t Hin. eapply node_grows; [done|]. by eapply (gi_acks _ _ Hgi).
  - intros j rfj Hj. cbn in Hj. apply lookup_insert_Some in Hj as [[<- <-]|[Hne Hj]]; [apply command_peer|].
    eapply peer_grows; [done|done| |by apply (gi_peer _ _ Hgi)]. intros HL.
    apply command_linear; [by apply (gi_peer _ _ Hgi j rfj Hj)|]. intros Heq. exfalso.
    apply Hne. eapply (won_unique (base s)); [done|exact Hwon|]. rewrite <-Heq. by apply (inv_leader _ Hinv).
  - destruct (gi_votes _ _ Hgi) as [H1 H2 H3].
    assert (∀ el L, last_log w el L → last_log w' el L) as Hlast.
    { intros el L [? ?]. split; [done|]. eapply lookup_weaken; [done|apply Hg]. }
    split; cbn [elections replies nodes set_node].
    + intros e el He. destruct (H1 e el He) as [? [L HL]]. eauto.
    + intros e el rf0 He H0 Hc Ht. apply lookup_insert_Some in H0 as [[_ <-]|[_ H0]]; [|by eapply Hlast, H2].
      cbn in Hc. congruence.
    + intros e el j m t He Hv Hj Hin Hlt. destruct (H3 e el j m t He Hv Hj Hin Hlt) as (L & HL & Hc).
      exists L. split; [by apply Hlast|]. destruct Hc; [by left|right; by apply (gr_lost _ _ Hg)].
  - intros p [Hp| ->]%Hits; [|done]. eapply item_grows; [done| | |by apply (gi_item _ _ Hgi)].
    + intros j v L. apply (sent_set _ _ rf); [done|]. split; [done|]. intros _. right.
      split_and!; [by rewrite Hr|done|]. eexists. split; [done|]. by repeat constructor.
    + intros j args L Hsh. apply command_linear; [apply Hsh|]. intros Heq.
      pose proof (won_unique (base s) j i u Hinv) as Huniq. rewrite <-Heq in Huniq at 1.
      specialize (Huniq (sh_elected _ _ _ _ _ Hsh) Hwon) as ->.
      destruct (sh_sent _ _ _ _ _ Hsh rf Hi) as [_ (tl & -> & _)]; [by rewrite Hr|done|].
      rewrite length_app. lia.
Qed.
End Command.
End Commit.
