(* ===== verification/CommitSafety.v ===== *)
(** * Raft: state machine safety

    The cluster is an orderly one: its peers count votes in their own term
    ([same_term]), none crashes between the requests of its election and the
    save of the election's term and vote ([saved_crash]), its items are taken in
    the [orderly] way of [RaftReplication], and the services take no snapshots.
    The source keeps none of the first three rules, and each is needed
    ([stale_votes_two_leaders], [unsaved_vote_two_leaders], and the runs of
    [ReplicationRuns]).  There, two messages for the services that have the same
    index carry the same command ([state_machine_safety]), across all other
    crashes and restarts, and a leader whose term is not behind a majority's has
    what was delivered ([leader_completeness]).  The invariant is
    [cinv] of [CommitInvariant]; the steps of elections are here, with the
    candidate that becomes a leader ([promoted_peer]) and the restart
    ([restarted_peer]). *)
From S2P Require Import Prelude GoLib Raft RaftPeer RaftElection ElectionSafety RaftTypes.
From S2P Require Import RaftReplication LogMatching CommitWorld CommitPeer CommitElection.
From S2P Require Import CommitInvariant.
Local Open Scope Z_scope.

Section Safety.
Context {Cmd : Type} `{!Gob Cmd}.
Local Abbreviation Raft := (Raft Cmd).
Local Abbreviation cluster := (cluster Cmd).
Local Abbreviation rcluster := (rcluster Cmd).
Local Abbreviation log := (list (LogEntry_ Cmd)).
Local Abbreviation tree := (gmap (nat * Z) log).
Local Abbreviation acks := (gset (Z * nat * Z)).
Implicit Types (rf : Raft) (b : cluster) (s : rcluster) (lg L : log) (G : tree) (A : acks) (w : world Cmd).

(** ** A step of an election *)
Lemma restart_phase counts crashes local b k b' : cluster_step counts crashes local b (Some k) b' →
  ∃ rf, nodes b !! k = Some rf ∧ crashes rf (phases b !! k).
Proof. inversion 1; eauto. Qed.

Section Step.
Context G A s (l : option Z) b' (Hk : known G s) (Hgi : ginv (world_of (base s) G A) s).
Context (Hinv' : inv b') (Hstep : cluster_step same_term saved_crash no_local (base s) l b').
Local Abbreviation w := (world_of (base s) G A).
Local Abbreviation w' := (world_of b' G A).

Lemma election_grows : grows w w'.
Proof using Hstep.
  destruct (more_votes_step _ _ _ Hstep) as [Hsz Hm].
  pose proof (grows_votes (elections b') w Hm) as Hg. unfold set_elections, world_of in *.
  cbn in Hg. by rewrite <-Hsz in Hg at 2.
Qed.

Lemma past_current e el rf :
  elections (base s) !! e = Some el → nodes (base s) !! el_owner el = Some rf → el_term el ≤ currentTerm rf.
Proof using Hk.
  intros He Hi. pose proof (kn_inv _ _ Hk) as Hinv. pose proof (inv_past _ Hinv _ _ _ He Hi) as Hp.
  pose proof (no_saved _ _ _ (inv_node _ Hinv _ _ Hi)).
  unfold past in Hp. destruct (phases _ !! _) as [[]|]; lia.
Qed.

(** The arguments of a request for votes name the last entry. *)
Lemma asked_last i rf args :
  nodes (base s) !! i = Some rf → genRequestVoteArgs rf = Ok args →
  va_Term args = currentTerm rf ∧
  ∀ el, el_args el = args → last_log w' el (logs rf).
Proof using Hk.
  intros Hi Hg. pose proof (item_peer _ _ _ _ Hk Hi) as [Hb Hix _ _].
  pose proof (branch_nonempty _ _ Hb) as Hne.
  assert (0 < go_len (logs rf)) as Hlen by (unfold go_len; destruct (logs rf); [done|cbn; lia]).
  apply bind_Ok in Hg as (e & [_ He]%go_index_Ok & [= <-]). split; [done|].
  unfold getLastStorageIndex in He. intros el Hel. unfold last_log. rewrite Hel. cbn.
  unfold getLastLogicalIndex. rewrite Hix. split; [lia|]. rewrite Z.add_0_r.
  rewrite (proj2 Hb _ _ He). f_equal. apply firstn_all2. unfold go_len. lia.
Qed.

Lemma last_log_args el el' L : el_args el' = el_args el → last_log w el L → last_log w' el' L.
Proof using. unfold last_log. by intros ->. Qed.

Lemma last_log_unique el L L' : last_log w' el L → last_log w' el L' → L = L'.
Proof using. intros [_ H1] [_ H2]. congruence. Qed.

(** *** Votes *)
Lemma election_last e el' : elections b' !! e = Some el' → 0 ≤ el_term el' ∧ ∃ L, last_log w' el' L.
Proof using Hk Hgi Hstep.
  intros He. destruct (election_back _ _ _ _ _ _ _ Hstep He) as [(el & He0 & _ & Ha)|(_ & _ & rf & Hi & Hg)].
  - destruct (vi_last _ _ (gi_votes _ _ Hgi) e el He0) as [Ht [L HL]]. unfold el_term in *. rewrite Ha.
    split; [done|]. exists L. by eapply last_log_args.
  - pose proof (kn_terms _ _ Hk _ _ Hi) as [Ht _].
    destruct (asked_last _ _ _ Hi Hg) as [Hterm Hl]. unfold el_term. rewrite Hterm. eauto.
Qed.

Lemma election_cand e el' rf' :
  elections b' !! e = Some el' → nodes b' !! el_owner el' = Some rf' → role rf' = Candidate →
  currentTerm rf' = el_term el' → last_log w' el' (logs rf').
Proof using Hk Hgi Hstep.
  intros He Hi Hr Ht. destruct (election_back _ _ _ _ _ _ _ Hstep He) as [(el & He0 & Ho & Ha)|(_ & Hn & rf & Hi0 & Hg)].
  - rewrite Ho in Hi. assert (el_term el' = el_term el) as Hte by (unfold el_term; by rewrite Ha).
    destruct (election_effect _ _ _ _ _ _ _ Hstep Hi) as (rf & Hrf & [Hq|[Hp|[_ [now HM]]]]).
    + pose proof (past_current _ _ _ He0 Hrf). destruct (qt_role _ _ Hq) as [?|[Hr0 Ht0]]; [by rewrite Hr|lia|].
      eapply last_log_args; [done|]. rewrite (qt_logs _ _ Hq).
      eapply vi_cand; [apply Hgi|done|done|congruence|lia].
    + destruct Hp as (_ & ? & _). congruence.
    + apply Make_saved in HM as [? _]. congruence.
  - rewrite Hn, Hi0 in Hi. injection Hi as <-. by apply (asked_last _ _ _ Hi0 Hg).
Qed.

(** A vote is granted to a log that has what the voter has acknowledged. *)
Lemma granted_kept el j m t L :
  granted (base s) el j → (j, m, t) ∈ A → last_log w el L → holds L m t ∨ lost w m t.
Proof using Hk Hgi.
  intros (now & rf & rf' & reply & sp & Hj & Hrv & Hg) Hin [Hix HL].
  pose proof (item_peer _ _ _ _ Hk Hj) as [Hb Hidx _ _].
  destruct (RequestVote_granted _ _ _ _ _ _ Hrv Hidx Hg) as (e & He & Hup).
  destruct (pi_acks _ _ _ (gi_peer _ _ Hgi _ _ Hj) _ _ Hin) as [_ [[Hh _]|?]]; [|by right].
  eapply up_to_date_kept; [apply Hgi|done|done|done| |done].
  destruct Hup as [?|[? ?]]; [by left|right]. split; [done|]. unfold go_len in *. lia.
Qed.

Lemma election_votes : votes_inv w' b'.
Proof using Hk Hgi Hstep.
  split; [apply election_last|apply election_cand|].
  intros e el' j m t He Hv Hj Hin Hlt.
  destruct (voted_back _ _ _ _ _ _ (kn_inv _ _ Hk) Hstep He Hv Hj) as (el & He0 & Ho & Ha & Hcase).
  unfold el_term in Hlt. rewrite Ho in Hj. rewrite Ha in Hlt.
  assert (∃ L, last_log w el L ∧ (holds L m t ∨ lost w m t)) as (L & HL & Hc).
  { destruct Hcase as [Hv0|Hg]; [by eapply vi_vote; [apply Hgi|..]|].
    destruct (vi_last _ _ (gi_votes _ _ Hgi) e el He0) as [_ [L HL]].
    exists L. split; [done|]. by eapply granted_kept. }
  exists L. split; [by eapply last_log_args|]. destruct Hc; [by left|right].
  by apply (gr_lost _ _ election_grows).
Qed.

(** *** Peers *)
Lemma old_peer i rf : nodes (base s) !! i = Some rf → peer_inv w' i rf.
Proof using Hgi Hstep.
  intros Hi. eapply peer_same_tree; [apply election_grows|done|done|]. by apply (gi_peer _ _ Hgi).
Qed.

(** A candidate that becomes a leader finds no entry of its term. *)
Lemma promoted_linear i rf rf' :
  nodes (base s) !! i = Some rf → nodes b' !! i = Some rf' → promoted rf rf' →
  linear w' (currentTerm rf') (logs rf').
Proof using Hk Hinv' Hstep.
  intros Hi Hi' (Hc & Hr & Ht & (Hl & _) & _) m [lg Hlg] _. cbn in Hlg.
  destruct (to_won _ _ (kn_tree _ _ Hk) _ _ _ Hlg) as [[-> Hu]|[k Hw]].
  - rewrite Hu, Hl. pose proof (item_branch _ _ _ _ Hk Hi) as [Hd _]. unfold holds. by rewrite Hd.
  - exfalso. apply (kn_cand _ _ Hk i rf Hi Hc). rewrite <-Ht.
    assert (cluster_step same_term saved_crash local_step (base s) l b') as Hls
      by (eapply cluster_step_mono; [done| |done]; by intros ? ? []).
    pose proof (won_step _ _ _ _ _ Hls Hw) as [_ Hw'].
    by rewrite <-(won_unique b' k i (currentTerm rf') Hinv' Hw' (inv_leader _ Hinv' _ _ Hi' Hr)).
Qed.

(** Every vote it has was given by a peer whose entries it has. *)
Lemma promoted_complete i rf rf' :
  nodes (base s) !! i = Some rf → nodes b' !! i = Some rf' → promoted rf rf' →
  complete w' (currentTerm rf') (logs rf').
Proof using Hk Hgi Hinv' Hstep.
  intros Hi Hi' (Hc & Hr & Ht & (Hl & _) & _). pose proof election_grows as Hg.
  destruct (inv_leader _ Hinv' _ _ Hi' Hr) as (e & el' & He & Ho & Hte & Hne & Hmaj).
  rewrite <-Hte. eapply winner_complete; [|done|done|done|].
  { split; [|apply (inv_election _ Hinv')]. cbn. rewrite (proj1 (more_votes_step _ _ _ Hstep)). apply Hk. }
  rewrite Hl. intros j m t [->|Hj]%elem_of_cons Hin Hlt.
  - rewrite Ho in Hin. destruct (pi_acks _ _ _ (gi_peer _ _ Hgi _ _ Hi) _ _ Hin) as [_ [[? _]|?]];
      [by left|right; by apply (gr_lost _ _ Hg)].
  - assert (j ≠ el_owner el') as Hjo.
    { intros ->. by destruct (eo_not_own _ _ (inv_election _ Hinv' _ _ He)). }
    destruct (vi_vote _ _ election_votes e el' j m t He (voted_counted _ _ _ _ Hj) Hjo Hin Hlt) as (L & HL & Hh).
    destruct (election_back _ _ _ _ _ _ _ Hstep He) as [(el & He0 & Ho0 & Ha)|(? & _)]; [|done].
    assert (last_log w el (logs rf)) as HL'.
    { eapply vi_cand; [apply Hgi|done|congruence|done|]. rewrite <-Ht, <-Hte. unfold el_term. by rewrite Ha. }
    by rewrite <-(last_log_unique _ _ _ HL (last_log_args _ _ _ Ha HL')).
Qed.

Lemma promoted_peer i rf rf' :
  nodes (base s) !! i = Some rf → nodes b' !! i = Some rf' → promoted rf rf' → peer_inv w' i rf'.
Proof using Hk Hgi Hinv' Hstep.
  intros Hi Hi' Hp. pose proof Hp as (Hc & Hr & Ht & (Hl & _ & _ & Hd) & Hci & Hm).
  eapply peer_log_same; [by apply old_peer| |lia|done|done|by left| |by eapply item_length].
  - by eapply item_saved.
  - intros _. split; [|intros j k Hk'; left; by eapply Hm].
    split; [| |by eapply promoted_complete|by eapply promoted_linear].
    + right. exists i. by apply (inv_leader _ Hinv').
    + rewrite Hl, Ht. apply (gi_peer _ _ Hgi _ _ Hi).
Qed.

(** A restart finds on disk what has been acknowledged. *)
Lemma restarted_peer i rf now rf' :
  nodes (base s) !! i = Some rf → Make (size (base s)) i (persister rf) now = Ok rf' → peer_inv w' i rf'.
Proof using Hk Hgi Hstep.
  intros Hi HM. pose proof (old_peer _ _ Hi) as [H1 H2 H3 H4 H5 _ _].
  pose proof (Make_ok _ _ _ _ _ _ (to_root _ _ (kn_tree _ _ Hk)) (item_peer _ _ _ _ Hk Hi) HM) as [_ Hix _ _].
  destruct (Make_stored _ _ _ _ _ HM Hix) as [Hl Hc].
  apply Make_saved in HM as (Hr & _ & _ & Hsv & Hp).
  pose proof (saved_same _ _ Hp) as Hs. pose proof (stored_same _ _ Hp) as Hst.
  assert (currentTerm rf' = (saved rf).1) as Ht by (by rewrite <-Hsv).
  split; rewrite ?Hl, ?Hc, ?Ht, ?Hs, ?Hst, ?Hr; try done; [by left|].
  intros m t Hm. destruct (H5 m t Hm) as [? [[_ ?]|?]]; (split; [done|]); [by left|by right].
Qed.

Lemma election_peers i rf' : nodes b' !! i = Some rf' → peer_inv w' i rf'.
Proof using Hk Hgi Hinv' Hstep.
  intros Hi'. destruct (election_effect _ _ _ _ _ _ _ Hstep Hi') as (rf & Hi & [Hq|[Hp|[_ [now HM]]]]).
  - eapply peer_quiet; [by apply old_peer|by eapply item_saved|by eapply item_length|done].
  - by eapply promoted_peer.
  - by eapply restarted_peer.
Qed.

(** *** Requests in flight *)
Lemma sent_alive k u L : l ≠ Some k → sent (base s) k u L → sent b' k u L.
Proof using Hstep.
  intros Hl Hs rf' Hk'. destruct (election_effect _ _ _ _ _ _ _ Hstep Hk') as (rf & Hi & Heff).
  destruct Heff as [Hq|[Hp|[? _]]]; [| |done].
  - by eapply sent_moves; [..|by apply quiet_moves|exact Hs|].
  - by eapply sent_moves; [..|by apply promoted_moves|exact Hs|].
Qed.

(** A leader that restarts has its term on disk. *)
Lemma sent_elected k u L : elected w k u → sent (base s) k u L → sent b' k u L.
Proof using Hk Hstep.
  intros Hel Hs rf' Hk'. destruct (election_effect _ _ _ _ _ _ _ Hstep Hk') as (rf & Hi & Heff).
  destruct Heff as [Hq|[Hp|[Hl [now HM]]]].
  - by eapply sent_moves; [..|by apply quiet_moves|exact Hs|].
  - by eapply sent_moves; [..|by apply promoted_moves|exact Hs|].
  - destruct Hel as (e & el & He & Ho & <- & _ & _). cbn in He. rewrite <-Ho in Hi.
    pose proof (inv_past _ (kn_inv _ _ Hk) _ _ _ He Hi) as Hpast.
    rewrite Ho in Hpast, Hi. rewrite Hl in Hstep. destruct (restart_phase _ _ _ _ _ _ Hstep) as (rf0 & Hi0 & Hcr).
    rewrite Hi in Hi0. injection Hi0 as <-. pose proof (past_saved _ _ _ Hpast Hcr) as Hsaved.
    apply Make_saved in HM as (Hr & _ & _ & Hsv & _). rewrite <-Hsv in Hsaved. cbn in Hsaved.
    split; [done|]. by rewrite Hr.
Qed.

Lemma item_kept p :
  (∀ i j args snap, p = TCheck i j args snap → l ≠ Some i) →
  item_inv w (base s) p → item_inv w' b' p.
Proof using Hk Hstep.
  intros Hl. pose proof election_grows as Hg.
  assert (∀ i args L, shipped w (base s) i args L → shipped w' b' i args L) as Hship.
  { intros i args L Hs. eapply shipped_grows; [done| | |done].
    - apply sent_elected, Hs.
    - by apply (linear_same_tree w w' (base s) i). }
  destruct p as [|i j args []|live i j args|i j args reply| | | | | | | | | | |]; cbn; try done.
  - intros (L & ? & ? & ? & ?). exists L. split_and!; [done|done| |by eapply point_grows].
    apply sent_alive; [by eapply Hl|done].
  - intros (L & HL). eauto.
  - intros (L & HL & Ha). eauto.
  - intros Hm. eapply Forall_impl; [done|]. intros. by eapply said_grows.
  - intros Hm. eapply Forall_impl; [done|]. intros. by eapply said_grows.
Qed.

Lemma orphan_kept k p q : l = Some k → item_inv w (base s) p → q ∈ orphan k p → item_inv w' b' q.
Proof using Hk Hstep.
  intros Hl Hp Hq. apply item_kept.
  - intros i j args snap ->. destruct p; cbn in Hq; try case_decide;
      rewrite ?list_elem_of_singleton in Hq; try (by apply not_elem_of_nil in Hq); simplify_eq.
    congruence.
  - destruct p; cbn in Hq; try case_decide; rewrite ?list_elem_of_singleton in Hq;
      try (by apply not_elem_of_nil in Hq); subst; done.
Qed.

Lemma ginv_election :
  ginv w' {| base := b'; items := match l with Some i => items s ≫= orphan i | None => items s end |}.
Proof using Hk Hgi Hinv' Hstep.
  pose proof election_grows as Hg. split; cbn [base items].
  - by eapply nodes_ok_same_tree; [..|apply Hgi].
  - apply Hgi.
  - apply election_peers.
  - apply election_votes.
  - assert (∀ p, p ∈ items s → item_inv w (base s) p) as Hits by apply Hgi.
    pose proof orphan_kept as Horph. pose proof item_kept as Hkept. destruct l as [k|].
    + intros q (p & Hq & Hp)%list_elem_of_bind. eapply Horph; [done|by apply Hits|done].
    + intros p Hp. apply Hkept; [done|by apply Hits].
Qed.
End Step.

(** ** Runs *)
Lemma known_base allowed G G' s ev s' :
  known G s → repl_step same_term saved_crash allowed s ev s' → tree_ok G' s' → known G' s'.
Proof.
  intros [H1 H2 H3 H4 _] Hstep Htree.
  destruct (repl_base _ _ _ _ _ _ Hstep) as [Heq|[l' Hb]]; [by split; rewrite ?Heq|].
  split; [|by eapply winv_step|by eapply cand_step|by eapply terms_step|done].
  by destruct Hb.
Qed.

Lemma known_election G s l b' :
  known G s → cluster_step same_term saved_crash no_local (base s) l b' → inv b'.
Proof.
  intros Hk Hstep. eapply winv_step; [apply Hk|]. eapply cluster_step_mono; [done| |done]. by intros ? ? [].
Qed.

(** One step: the world grows, and what is sent to a service is committed. *)
Definition grown G A s G' A' s' : Prop :=
  cinv G' A' s' ∧ grows (world_of (base s) G A) (world_of (base s') G' A').

Lemma cinv_local G A s s' :
  cinv G A s → base s' = base s → tree_ok G s' →
  (∀ p, p ∈ items s' → p ∈ items s ∨ item_inv (world_of (base s) G A) (base s) p) →
  grown G A s G A s'.
Proof.
  intros [[H1 H2 H3 H4 _] [K1 K2 K3 K4 K5]] Heq Htree Hits. unfold grown, cinv. rewrite Heq.
  split; [|apply grows_refl]. split; split; rewrite ?Heq; try done.
  intros p [Hp|Hp]%Hits; [by apply K5|done].
Qed.

Lemma cinv_step G A s ev s' :
  cinv G A s → repl_step same_term saved_crash orderly s ev s' →
  ∃ G' A', grown G A s G' A' s' ∧
    match ev with Some (_, msg) => said (world_of (base s') G' A') msg | None => True end.
Proof.
  intros Hc Hstep. pose proof Hc as [Hk Hgi]. pose proof (kn_inv _ _ Hk) as Hinv.
  pose proof (kn_tree _ _ Hk) as HG. pose proof (λ G', known_base _ _ G' _ _ _ Hk Hstep) as Hkn.
  destruct Hstep as [s l b' Hb|s i rf servers Hi Hh|s i rf term command Hi Hs
    |s l1 p l2 rf now rf' ps ev Hp Hi Hord Hpf|s l1 p l2 Hp Hcall|s i rf Hi].
  - exists G, A. split; [|done]. pose proof (known_election _ _ _ _ Hk Hb) as Hinv'.
    split; [split|]; [|by apply ginv_election|by eapply election_grows].
    apply Hkn, tree_election; try done; apply Hk.
  - exists G, A. split; [|done]. apply cinv_local; [done|done|by apply tree_heartbeat|].
    intros p [Hp|Hp]%elem_of_app; [by left|right]. by apply list_elem_of_fmap in Hp as (j & -> & _).
  - exists G, A. split; [|done]. apply cinv_local; [done|done|by apply tree_called|].
    intros p [Hp|Hp]%elem_of_app; [by left|right]. by apply list_elem_of_singleton in Hp as ->.
  - destruct (is_start p) eqn:Hst.
    + apply is_start_inv in Hst as (i & t & c & ->). cbn in Hpf, Hord, Hi.
      injection Hpf as <- <- <-. destruct Hord as ([Hr <-] & _).
      exists (grow (currentTerm rf) c rf G), A. split; [|done]. split; [split|].
      * by apply Hkn, tree_command.
      * apply ginv_command; try done. intros q [Hq|Hq]%(item_taken s _ _ _ _ _ Hp); [by left|right].
        by apply list_elem_of_singleton in Hq.
      * exact (command_grows G A s i rf c Hk Hgi Hi Hr).
    + assert (p ∈ items s) as Hin by (rewrite Hp; set_solver).
      pose proof Hpf as Hpf'. eapply perform_effects in Hpf as (A' & Heff); [|done..].
      assert (role_frame rf rf') as Hrole.
      { destruct (perform_local _ _ _ _ _ _ Hpf') as [->|Hls]; [by right|]. by apply local_step_frame. }
      exists G, A'. destruct (ginv_set _ _ _ _ _ _ _ (l1 ++ l2 ++ ps) _ _ Hc Hi Hrole Heff) as [Hg Hgi'].
      { intros q. by apply (item_taken s l1 p). }
      split; [|apply Heff]. split; [split|]; [|done|done]. by apply Hkn; eapply tree_perform.
  - exists G, A. split; [|done]. apply cinv_local; [done|done|by eapply tree_lost|].
    intros q Hq. left. rewrite Hp. set_solver.
  - exists G, A. split; [|done]. pose proof (log_same_frame rf (Kill rf)) as Hlf.
    assert (quiet rf (Kill rf)) as Hq by (apply quiet_frames; [by apply Hlf|by apply index_same|done|by right]).
    destruct (ginv_set G A A s i rf (Kill rf) (items s) [] None Hc Hi) as [Hg Hgi'];
      [by right|by apply effects_quiet|by left|].
    split; [split|]; [|done|done]. apply Hkn. by apply tree_kill.
Qed.

Lemma cinv_run G A s tr s' :
  cinv G A s → run (repl_step same_term saved_crash orderly) s tr s' →
  ∃ G' A', grown G A s G' A' s' ∧ Forall (λ ev, said (world_of (base s') G' A') ev.2) tr.
Proof.
  intros Hc Hr. revert G A Hc. induction Hr as [s|s ev s1 tr s' Hs Hr IH]; intros G A Hc.
  { exists G, A. split; [|constructor]. split; [done|apply grows_refl]. }
  destruct (cinv_step _ _ _ _ _ Hc Hs) as (G1 & A1 & [Hc1 Hg1] & Hsaid).
  destruct (IH _ _ Hc1) as (G2 & A2 & [Hc2 Hg2] & Htr). exists G2, A2.
  split; [split; [done|by eapply grows_trans]|].
  apply Forall_app. split; [|done]. destruct ev as [[i msg]|]; constructor; [|constructor].
  by eapply said_grows.
Qed.

Lemma cinv_init n : 0 ≤ n → cinv {[(0%nat, 0) := [dummy]]} ∅ (repl_init n).
Proof.
  intros Hn. assert (∀ i rf, nodes (cluster_init (Cmd := Cmd) n) !! i = Some rf → rf = first_boot n i) as Hfirst.
  { intros i rf Hi. cbn in Hi. rewrite lookup_map_on in Hi. case_decide; [|done]. by injection Hi as <-. }
  split; [split; [done|apply winv_init|apply cand_init|apply terms_init|apply tree_init]|].
  split; cbn [base items repl_init].
  - intros m u lg Hlg. cbn in Hlg. apply lookup_singleton_Some in Hlg as [[= <- <-] <-].
    split_and!; [done|by apply branch_root, lookup_singleton_eq|done|].
    split; [by left|by repeat constructor| |].
    + intros m t [lg Hlg] Hlt. cbn in Hlg. apply lookup_singleton_Some in Hlg as [[= <- <-] _]. lia.
    + intros m [lg Hlg] _. cbn in Hlg. by apply lookup_singleton_Some in Hlg as [[= <-] _].
  - intros j m t Hin. by apply not_elem_of_empty in Hin.
  - intros i rf ->%Hfirst. split; try done.
    + by repeat constructor.
    + assert (stored (first_boot (Cmd := Cmd) n i) = [dummy]) as ->.
      { unfold stored. cbn. by destruct (gob_decode []) as [[[[[? ?] ?] ?] ?]|]. }
      rewrite saved_first. by repeat constructor.
    + by left.
  - split; cbn; intros e el; by rewrite lookup_nil.
  - by intros p Hp%not_elem_of_nil.
Qed.

(** C2. State machine safety, under rules that the source does not keep: in a
    cluster whose peers count votes in the term they were asked for, and do not
    crash between the requests of an election and the first save of its term and
    vote ([saved_crash]; with that crash a term has two leaders,
    [unsaved_vote_two_leaders]), in which commands are appended by a leader,
    requests leave in the term they were generated in, late requests do not cut
    entries of their own term and replies are handled in their own term
    ([orderly]), and whose services take no snapshots, the messages that any two
    peers send to their services, at any two moments of a run with any losses,
    delays, reorderings, restarts and crashes but those, carry the same command
    if they carry the same index. *)
Theorem state_machine_safety n tr s i j m1 m2 :
  0 ≤ n → run (repl_step same_term saved_crash orderly) (repl_init n) tr s →
  (i, m1) ∈ tr → (j, m2) ∈ tr → CommandIndex m1 = CommandIndex m2 → Command m1 = Command m2.
Proof.
  intros Hn Hr H1 H2 Heq.
  destruct (cinv_run _ _ _ _ _ (cinv_init n Hn) Hr) as (G & A & [[_ Hgi] _] & Htr).
  rewrite Forall_forall in Htr.
  eapply (said_unique _ m1 m2); [apply Hgi|by apply (Htr (i, m1))|by apply (Htr (j, m2))|done].
Qed.

(** In any majority some peer has reached the term a committed entry was
    acknowledged in. *)
Lemma committed_term G A s m t W :
  cinv G A s → committed (world_of (base s) G A) m t → quorum (size (base s)) W →
  ∃ k rfk, k ∈ W ∧ nodes (base s) !! k = Some rfk ∧ t ≤ currentTerm rfk.
Proof.
  intros [Hk Hgi] (Q & HQ & Ha) HW. destruct (quorums_meet _ _ _ HQ HW) as (k & Hk' & HkW).
  destruct (inv_total _ (kn_inv _ _ Hk) k (qu_range _ _ HQ _ Hk')) as [rfk Hrfk].
  destruct (pi_acks _ _ _ (gi_peer _ _ Hgi _ _ Hrfk) _ _ (Ha k Hk')) as [Hle _].
  pose proof (no_saved _ _ _ (inv_node _ (kn_inv _ _ Hk) _ _ Hrfk)).
  exists k, rfk. split_and!; [done..|lia].
Qed.

Lemma leader_holds G A s i rf m t :
  cinv G A s → committed (world_of (base s) G A) m t → node (world_of (base s) G A) m t →
  nodes (base s) !! i = Some rf → role rf = Leader → t ≤ currentTerm rf → holds (logs rf) m t.
Proof.
  intros [Hk Hgi] Hc [lg Hlg] Hi Hl Ht. cbn in Hlg.
  destruct (decide (t = currentTerm rf)) as [->|Hne].
  - eapply holds_prefix; [by eapply to_leader; [apply Hk|..]|].
    by destruct (gi_nodes _ _ Hgi _ _ _ Hlg) as (_ & _ & ? & _).
  - destruct (pi_leader _ _ _ (gi_peer _ _ Hgi _ _ Hi) Hl) as [_ _ Hcp _].
    destruct (Hcp m t) as [?|Hlost]; [by eexists|lia|done|]. by destruct (committed_not_lost _ _ _ Hc).
Qed.

(** What a leader has whose term is not behind those of a majority. *)
Definition has_delivered rf (msg : ApplyMsg Cmd) : Prop :=
  0 ≤ CommandIndex msg ∧ le_Command <$> logs rf !! Z.to_nat (CommandIndex msg) = Some (Command msg).

Lemma leader_has G A s W i rf msg :
  cinv G A s → said (world_of (base s) G A) msg → quorum (size (base s)) W →
  nodes (base s) !! i = Some rf → role rf = Leader →
  (∀ k rfk, k ∈ W → nodes (base s) !! k = Some rfk → currentTerm rfk ≤ currentTerm rf) →
  has_delivered rf msg.
Proof.
  intros Hci (m & t & lg & e & Hc & Hlg & Hix & He & Hcmd) HW Hi Hl Hmax.
  split; [apply Hix|]. cbn in Hcmd, Hlg, He. rewrite Hcmd.
  destruct (committed_term _ _ _ _ _ _ Hci Hc HW) as (k & rfk & HkW & Hrfk & Ht). specialize (Hmax _ _ HkW Hrfk).
  assert (holds (logs rf) m t) as Hh by (eapply leader_holds; [done|done|by eexists|done|done|lia]).
  pose proof (branch_node (world_of (base s) G A) _ _ _ (item_branch _ _ _ _ (proj1 Hci) Hi) Hh) as Htake.
  cbn in Htake. rewrite Hlg in Htake. injection Htake as ->.
  cbn in Hix. rewrite lookup_take_lt in He by lia. by rewrite He.
Qed.

Lemma size_run counts crashes allowed n tr s :
  run (repl_step counts crashes allowed) (repl_init n) tr s → size (base s) = n.
Proof.
  intros Hr. eapply (run_invariant _ (λ s, size (base s) = n)); [|exact Hr|done].
  intros s1 l s2 <- Hs. destruct (repl_base _ _ _ _ _ _ Hs) as [->|[l' Hb]]; [done|by destruct Hb].
Qed.

(** C8. Leader completeness: in the same cluster, under the same rules for
    votes, crashes and items and without snapshots of the services, a leader whose term is not
    behind those of some majority has in its log every command that was sent to
    a service, at its index. *)
Theorem leader_completeness n tr s W i rf j msg :
  quorum n W → run (repl_step same_term saved_crash orderly) (repl_init n) tr s → (j, msg) ∈ tr →
  nodes (base s) !! i = Some rf → role rf = Leader →
  (∀ k rfk, k ∈ W → nodes (base s) !! k = Some rfk → currentTerm rfk ≤ currentTerm rf) →
  0 ≤ CommandIndex msg ∧
  le_Command <$> logs rf !! Z.to_nat (CommandIndex msg) = Some (Command msg).
Proof.
  intros HW Hr Hin Hi Hl Hmax.
  destruct (cinv_run _ _ _ _ _ (cinv_init n (qu_size _ _ HW)) Hr) as (G & A & [Hci _] & Htr).
  rewrite Forall_forall in Htr. eapply leader_has; [done|by apply (Htr _ Hin)| |done..].
  by rewrite (size_run _ _ _ _ _ _ Hr).
Qed.
End Safety.
