(* ===== verification/RaftNext.v ===== *)
(** * Raft: a leader can always send

    In an [orderly] cluster the indices of a leader's [nextIndex] lie in its
    log or one behind it: [leader_sends], so its heartbeat's goroutine finds the
    previous entry and the ones to send, and does not panic.  (Without the lead,
    it may: [stale_heartbeat_panics] in [ReplicationRuns].)  It rests on what a
    reply that refuses points to, [reply_ok]: an index not behind the previous
    entry of its request. *)
From S2P Require Import Prelude GoLib Raft RaftPeer RaftElection ElectionSafety RaftTypes.
From S2P Require Import RaftReplication LogMatching CommitWorld CommitPeer CommitElection.
From S2P Require Import CommitInvariant CommitSafety.
Local Open Scope Z_scope.

Section Next.
Context {Cmd : Type} `{!Gob Cmd}.
Local Abbreviation Raft := (Raft Cmd).
Local Abbreviation cluster := (cluster Cmd).
Local Abbreviation rcluster := (rcluster Cmd).
Implicit Types (rf : Raft) (b : cluster) (s : rcluster).

Definition next_within rf : Prop := Forall (λ x, 0 ≤ x ≤ go_len (logs rf)) (nextIndex rf).
Definition next_ok rf : Prop := role rf = Leader → next_within rf.

Definition reply_ok (p : pending Cmd) : Prop :=
  match p with
  | MAppended _ _ args reply =>
      ar_Success reply = false → 0 ≤ ar_ConflictIndex reply ≤ aa_PrevLogIndex args
  | _ => True
  end.

(** A leader was one before, with the same table. *)
Definition next_kept rf rf' : Prop := role rf' = Leader → nextIndex rf' = nextIndex rf.

Lemma next_ok_kept rf rf' : quiet rf rf' → next_kept rf rf' → next_ok rf → next_ok rf'.
Proof.
  intros Hq Hn Hok Hl. unfold next_within. rewrite (qt_logs _ _ Hq), (Hn Hl).
  by apply Hok, (qt_leader _ _ Hq).
Qed.

Lemma within_set rf rf' i x :
  next_within rf → logs rf' = logs rf → go_set (nextIndex rf) i x = Ok (nextIndex rf') →
  0 ≤ x ≤ go_len (logs rf) → next_within rf'.
Proof.
  unfold next_within. intros Hw -> [_ ->]%go_set_Ok Hx. by apply Forall_insert.
Qed.

Lemma within_index rf i x : next_within rf → go_index (nextIndex rf) i = Ok x → 0 ≤ x ≤ go_len (logs rf).
Proof. intros Hw [_ Hx]%go_index_Ok. exact (Forall_lookup_1 _ _ _ _ Hw Hx). Qed.

(** ** What the handlers do to the table *)
Lemma convertRole_next r rf rf' sp :
  convertRole r rf = Ok (rf', sp) → r ≠ Leader → nextIndex rf' = nextIndex rf.
Proof.
  destruct r; cbn; [|by intros [= <- _]|done].
  case_decide; [destruct (heartChan rf); [done| |done]|]; by intros [= <- _].
Qed.

Lemma step_down_next t rf rf' sp : step_down t rf = Ok (rf', sp) → nextIndex rf' = nextIndex rf.
Proof.
  unfold step_down. intros Hs. apply bind_Ok in Hs as ([rf1 sp1] & Hc & [= <- _]).
  by apply convertRole_next in Hc.
Qed.

Lemma RequestVote_next now args rf rf' reply sp :
  RequestVote now args rf = Ok (rf', reply, sp) → nextIndex rf' = nextIndex rf.
Proof.
  unfold RequestVote. case_decide; [by intros [= <- _ _]|]. case_decide; [by intros [= <- _ _]|].
  intros Hv. apply bind_Ok in Hv as ([rf1 sp1] & Hs & Hv). apply bind_Ok in Hv as (up & _ & Hv).
  assert (nextIndex rf1 = nextIndex rf) as Hn.
  { clear Hv. case_decide; [by eapply step_down_next|by injection Hs as <- _]. }
  clear Hs. by destruct up; injection Hv as <- _ _.
Qed.

Lemma handleVote_next reply count rf rf' count' sp :
  handleVote reply count rf = Ok (rf', count', sp) →
  nextIndex rf' = nextIndex rf ∨ nextIndex rf' = (λ _, getLastLogicalIndex rf + 1) <$> nextIndex rf.
Proof.
  unfold handleVote. case_decide; [case_decide|case_decide].
  - cbn. intros [= <- _ _]. by right.
  - intros [= <- _ _]. by left.
  - intros Hv. apply bind_Ok in Hv as ([rf1 sp1] & Hs & [= <- _ _]). left. by eapply step_down_next.
  - intros [= <- _ _]. by left.
Qed.

Lemma AppendEntries_next now args rf rf' reply sp :
  AppendEntries now args rf = Ok (rf', reply, sp) → next_kept rf rf'.
Proof.
  intros Ha Hl. revert Ha. unfold AppendEntries. case_decide; [by intros [= <- _ _]|].
  intros Ha. apply bind_Ok in Ha as ([rf1 sp1] & Hc & Ha).
  apply bind_Ok in Ha as ([[rf2 reply2] sp2] & Happ & [= <- _ _]).
  apply append_log_frame in Happ as (_ & _ & _ & _ & Hr). apply convertRole_follower in Hc as (Hf & _).
  cbn in Hl. rewrite Hl in Hr. case_decide; cbn in Hr; rewrite Hf in Hr; discriminate Hr.
Qed.

Lemma InstallSnapshot_next now args rf rf' reply sp :
  InstallSnapshot now args rf = Ok (rf', reply, sp) → nextIndex rf' = nextIndex rf.
Proof.
  unfold InstallSnapshot. case_decide; [by intros [= <- _ _]|].
  intros Hi. apply bind_Ok in Hi as ([[rf1 t] sp1] & Hc & Hi).
  assert (nextIndex rf1 = nextIndex rf) as Hn.
  { clear Hi. case_decide; [|by injection Hc as <- _ _].
    apply bind_Ok in Hc as ([rf2 sp2] & Hc & [= <- _ _]). by apply convertRole_next in Hc. }
  case_decide; [by injection Hi as <- _ _|].
  apply bind_Ok in Hi as (lg & _ & [= <- _ _]). destruct (decide (commitIndex _ < _)); exact Hn.
Qed.

Lemma handleInstallSnapshot_within now server args reply rf rf' sp :
  handleInstallSnapshot now server args reply rf = Ok (rf', sp) → ia_LastIncludedIndex args = 0 →
  0 < go_len (logs rf) → next_ok rf → next_ok rf'.
Proof.
  intros Hh Hix Hlen Hok Hl. revert Hh. unfold handleInstallSnapshot. case_decide; [intros [= <- _]; by apply Hok|].
  case_decide as Ht; intros Hh.
  - apply bind_Ok in Hh as ([rf1 sp1] & Hs & [= <- _]). apply step_down_frame in Hs as (Hr & _). cbn in Hl. congruence.
  - apply bind_Ok in Hh as (x & _ & Hh). case_decide; [|injection Hh as <- _; by apply Hok].
    apply bind_Ok in Hh as (nx & Hnx & Hh). apply bind_Ok in Hh as (mt & _ & [= <- _]).
    eapply within_set; [by apply Hok|done|exact Hnx|lia].
Qed.

(** A refusal moves the index of the server back, but not behind the log's
    front. *)
Lemma append_failed_within server reply rf rf' :
  append_failed server reply rf = Ok rf' → lastIncludedIndex rf = 0 → next_within rf →
  0 ≤ ar_ConflictIndex reply ≤ go_len (logs rf) → next_within rf'.
Proof.
  unfold append_failed. intros Hf Hix Hw Hci.
  assert ((nx ← go_set (nextIndex rf) server (ar_ConflictIndex reply); Ok (set_nextIndex nx rf)) = Ok rf' →
    next_within rf') as Hfall.
  { intros Hs. apply bind_Ok in Hs as (nx & Hnx & [= <-]). by eapply (within_set rf). }
  case_decide; [|by apply Hfall].
  apply bind_Ok in Hf as (next & Hnext & Hf). pose proof (within_index _ _ _ Hw Hnext) as Hrange.
  unfold convertToStorageIndex in Hf. rewrite Hix, Z.sub_0_r in Hf.
  destruct (back_gt_spec (logs rf) (ar_ConflictTerm reply) (Z.to_nat (next - 1 + 1)) (next - 1))
    as (j & Hj & Hjr & _); [lia..|]. rewrite Hj in Hf. cbn [mbind outcome_bind] in Hf.
  apply bind_Ok in Hf as ([] & Hfound & Hf); [|by apply Hfall].
  apply bind_Ok in Hf as (nx & Hnx & [= <-]). case_decide; [|done].
  eapply (within_set rf); [done|done|exact Hnx|lia].
Qed.

Lemma handleAppendEntries_within now server args reply rf rf' sp :
  handleAppendEntries now server args reply rf = Ok (rf', sp) → lastIncludedIndex rf = 0 → next_ok rf →
  (role rf = Leader → ar_Success reply = false → 0 ≤ ar_ConflictIndex reply ≤ go_len (logs rf)) →
  next_ok rf'.
Proof.
  intros Hh Hix Hok Hci Hl. revert Hh. unfold handleAppendEntries.
  case_decide as Hr; [intros [= <- _]; by apply Hok|]. cbn in Hr.
  assert (next_within (set_lastUpdate now rf)) as Hw by by apply Hok.
  case_decide; [|destruct (ar_Success reply) eqn:Hs]; intros Hh.
  - apply bind_Ok in Hh as ([rf1 sp1] & Hsd & [= <- _]). apply step_down_frame in Hsd as (? & _). cbn in Hl. congruence.
  - apply bind_Ok in Hh as (nx & Hnx & Hh). apply bind_Ok in Hh as (mt & Hmt & Hh).
    apply bind_Ok in Hh as ([rf1 sp1] & Hsc & [= <- _]). apply commit_scan_frame in Hsc as [c ->].
    eapply within_set; [exact Hw|done|exact Hnx|]. unfold getLastLogicalIndex. cbn.
    pose proof (go_len_nonneg (logs rf)). lia.
  - apply bind_Ok in Hh as (rf1 & Hf & [= <- _]).
    change (next_within rf1). eapply append_failed_within; [exact Hf|done|done|]. by apply Hci.
Qed.

(** ** What a refusal points to *)
Lemma append_log_points args rf rf' reply sp :
  lastIncludedIndex rf = 0 → logs rf ≠ [] → 0 ≤ aa_PrevLogIndex args →
  append_log args rf = Ok (rf', reply, sp) → ar_Success reply = false →
  0 ≤ ar_ConflictIndex reply ≤ aa_PrevLogIndex args.
Proof.
  intros Hix Hne Hp. unfold append_log. unfold convertToStorageIndex, convertToLogicalIndex, getLastLogicalIndex.
  rewrite Hix, Z.add_0_r, Z.sub_0_r.
  assert (0 < go_len (logs rf)) by (unfold go_len; destruct (logs rf); [done|cbn; lia]).
  case_decide as Hlen; [intros [= <- <- <-]; cbn; lia|].
  intros Ha Hs. apply bind_Ok in Ha as ([t|] & Hc & Ha).
  - apply bind_Ok in Ha as (j & Hj & [= <- <- <-]). cbn.
    case_decide as Hpos; [|done]. apply bind_Ok in Hc as (e & He & Hc). case_decide; [done|]. injection Hc as <-.
    destruct (back_ge_spec (logs rf) (le_Term e) (Z.to_nat (aa_PrevLogIndex args)) (aa_PrevLogIndex args))
      as (j' & Hj' & Hr & _ & Hstop); [lia..|]. rewrite Hj in Hj'. injection Hj' as <-.
    destruct (decide (j = aa_PrevLogIndex args)) as [->|]; [|lia].
    destruct (Hstop Hpos) as (e' & He' & ?). rewrite He in He'. injection He' as <-. lia.
  - apply bind_Ok in Ha as (lg & _ & Ha). case_decide; injection Ha as <- <- <-; done.
Qed.

Lemma AppendEntries_points now args rf rf' reply sp :
  lastIncludedIndex rf = 0 → logs rf ≠ [] → 0 ≤ aa_PrevLogIndex args →
  AppendEntries now args rf = Ok (rf', reply, sp) → ar_Success reply = false →
  0 ≤ ar_ConflictIndex reply ≤ aa_PrevLogIndex args.
Proof.
  intros Hix Hne Hp. unfold AppendEntries. case_decide; [intros [= <- <- <-]; cbn; lia|].
  intros Ha. apply bind_Ok in Ha as ([rf1 sp1] & Hc & Ha).
  apply convertRole_log in Hc as (Hl1 & Hi1 & _).
  apply bind_Ok in Ha as ([[rf2 reply2] sp2] & Happ & [= <- <- <-]).
  eapply append_log_points; [| |done|exact Happ]; case_decide; cbn; congruence.
Qed.

(** ** The invariant *)
Record next_inv s : Prop := {
  ni_peer : ∀ i rf, nodes (base s) !! i = Some rf → next_ok rf;
  ni_item : ∀ p, p ∈ items s → reply_ok p;
}.

Lemma promoted_within reply count rf rf' count' sp :
  handleVote reply count rf = Ok (rf', count', sp) → promoted rf rf' → lastIncludedIndex rf = 0 →
  next_ok rf → next_ok rf'.
Proof.
  intros Hv (Hc & Hl & _ & (Hlg & _) & _) Hix Hok _. unfold next_within. rewrite Hlg.
  revert Hv. unfold handleVote. case_decide as H1; [case_decide|case_decide]; cbn.
  - intros [= <- _ _]. cbn. apply Forall_fmap, Forall_true. intros x.
    unfold compose, getLastLogicalIndex. pose proof (go_len_nonneg (logs rf)). lia.
  - intros [= <- _ _]. congruence.
  - intros Hv. apply bind_Ok in Hv as ([rf1 sp1] & Hs & [= <- _ _]). apply step_down_frame in Hs as (? & _). congruence.
  - intros [= <- _ _]. congruence.
Qed.

Lemma election_next b l b' i rf' :
  (∀ i rf, nodes b !! i = Some rf → lastIncludedIndex rf = 0) → (∀ i rf, nodes b !! i = Some rf → next_ok rf) →
  cluster_step same_term saved_crash no_local b l b' → nodes b' !! i = Some rf' → next_ok rf'.
Proof.
  intros Hix Hok Hstep Hi.
  assert (∀ j rf rf1, nodes b !! j = Some rf → next_ok rf1 →
    <[j := rf1]> (nodes b) !! i = Some rf' → next_ok rf') as Hset.
  { intros j rf rf1 Hj H1 [[_ <-]|[_ ?]]%lookup_insert_Some; [done|by eapply Hok]. }
  destruct Hstep as
    [s0 j rf rf1 sp Hj Hph Hst|s0 j rf args Hj Hph Hgen|s0 j rf Hj Hph
    |s0 l1 e j l2 el rf now rf1 reply sp Hrq He Hj Hrv|s0 l1 m l2 Hrq
    |s0 l1 e j reply l2 el rf rf1 count sp Hrp He Hl Hj Hcs Hhv|s0 l1 m l2 Hrp
    |s0 j rf rf1 Hj []|s0 j rf now rf1 Hj Hph HM]; try (by eapply Hok); (eapply Hset; [exact Hj| |exact Hi]).
  - intros HL. rewrite startElection_Ok in Hst. injection Hst as <- _. discriminate HL.
  - eapply next_ok_kept; [apply persist_quiet|done|by eapply Hok].
  - eapply next_ok_kept; [by eapply RequestVote_quiet| |by eapply Hok]. intros _. by eapply RequestVote_next.
  - pose proof (Hok _ _ Hj) as Hrf. destruct (handleVote_quiet _ _ _ _ _ _ Hhv) as [Hq|Hp].
    + intros HL. pose proof (qt_leader _ _ Hq HL) as [HL0 _].
      unfold handleVote in Hhv. rewrite decide_False in Hhv by (intros [? _]; congruence).
      case_decide; [|injection Hhv as <- _ _; by apply Hrf].
      apply bind_Ok in Hhv as ([rf2 sp2] & Hs & [= <- _ _]). apply step_down_frame in Hs as (? & _). congruence.
    + eapply promoted_within; [exact Hhv|done|by eapply Hix|done].
  - apply Make_saved in HM as [Hf _]. intros HL. congruence.
Qed.

(** A refused request's answer. *)
Lemma performed_reply G now p rf rf' ps ev :
  LogMatching.peer_ok G rf → item_ok G p → perform now p rf = Ok (rf', ps, ev) → Forall reply_ok ps.
Proof.
  intros Hok Hit Hpf.
  assert (∀ i sp, Forall reply_ok (spawned (Cmd := Cmd) i sp)) as Hsp.
  { intros i sp. apply Forall_bind, Forall_forall. intros [] _; cbn; by repeat constructor. }
  destruct p as [i j|i j args snap|live i j args|i j args reply|i j|i j args|live i j args|i j args reply
    |i|i|i [|msg msgs]|i msg msgs|i msg|i t c|i]; cbn in Hit, Hpf;
    try (injection Hpf as <- <- <-; repeat case_match; by repeat constructor); inv_ok;
    repeat match goal with x : _ * _ |- _ => destruct x end; inv_ok; simplify_eq; try apply Hsp; try by repeat constructor.
  - apply Forall_app. split; [|apply Hsp]. destruct live; [|constructor]. constructor; [|constructor].
    destruct Hit as (lg & e & _ & Hprev & _). intros Hs. eapply AppendEntries_points; [apply Hok| |done|done|done].
    apply (branch_nonempty G), Hok.
  - apply Forall_app. split; [|apply Hsp]. destruct live; by repeat constructor.
  - case_match; by repeat constructor.
Qed.

Lemma perform_next G A s now p rf rf' ps ev :
  cinv G A s → next_inv s → p ∈ items s → nodes (base s) !! site p = Some rf → orderly p rf →
  perform now p rf = Ok (rf', ps, ev) → next_ok rf'.
Proof.
  intros [Hk Hgi] [Hnp Hni] Hp Hi (_ & _ & _ & Hcount) Hpf.
  pose proof (Hnp _ _ Hi) as Hok. specialize (Hni p Hp).
  pose proof (gi_item _ _ Hgi p Hp) as Hinv. pose proof (to_item _ _ (kn_tree _ _ Hk) p Hp) as Hit.
  pose proof (item_peer _ _ _ _ Hk Hi) as [Hb Hix _ _].
  assert (0 < go_len (logs rf)) as Hlen.
  { pose proof (branch_nonempty _ _ Hb). unfold go_len. destruct (logs rf); [done|cbn; lia]. }
  destruct p as [i j|i j args snap|live i j args|i j args reply|i j|i j args|live i j args|i j args reply
    |i|i|i [|msg msgs]|i msg msgs|i msg|i t c|i]; cbn in Hi, Hcount, Hinv, Hit, Hpf;
    try (injection Hpf as <- <- <-; exact Hok).
  - by apply bind_Ok in Hpf as ([args snap] & _ & [= <- <- <-]).
  - apply bind_Ok in Hpf as ([[rf1 reply] sp] & Ha & [= <- <- <-]). destruct Hinv as [L HL].
    pose proof (AppendEntries_next _ _ _ _ _ _ Ha) as Hkept.
    destruct (AppendEntries_cases _ _ _ _ _ _ L Hix (sh_slice _ _ _ _ _ HL) Ha) as [_ [[_ Hq]|(_ & _ & Hac)]].
    + by eapply next_ok_kept.
    + intros HL'. pose proof (ac_role _ _ _ Hac). congruence.
  - apply bind_Ok in Hpf as ([rf1 sp] & Ha & [= <- <- <-]). destruct Hinv as (L & HL & _).
    eapply handleAppendEntries_within; [exact Ha|done|done|]. intros Hr Hs. specialize (Hni Hs).
    destruct (sh_sent _ _ _ _ _ HL rf Hi) as [_ Hext].
    destruct (Hext ltac:(congruence) Hcount) as (tl & -> & _).
    pose proof (slice_length _ _ (sh_slice _ _ _ _ _ HL)).
    pose proof (go_len_nonneg (aa_Entries args)). unfold go_len in *. rewrite length_app. lia.
  - apply bind_Ok in Hpf as ([[rf1 reply] sp] & Ha & [= <- <- <-]).
    eapply next_ok_kept; [|intros _; by eapply InstallSnapshot_next|done].
    eapply InstallSnapshot_quiet; [|exact Ha]. rewrite Hit, Hix. lia.
  - apply bind_Ok in Hpf as ([rf1 sp] & Ha & [= <- <- <-]). by eapply handleInstallSnapshot_within.
  - by apply bind_Ok in Hpf as (r & _ & [= <- <- <-]).
  - done.
  - injection Hpf as <- <- <-. intros Hl. eapply Forall_impl; [by apply Hok|].
    intros x Hx. cbn. unfold go_len in *. rewrite length_app. cbn in *. lia.
Qed.

Lemma orphan_reply k p q : reply_ok p → q ∈ orphan k p → reply_ok q.
Proof.
  intros Hp Hq. destruct p; cbn in Hq; try case_decide; rewrite ?list_elem_of_singleton in Hq; subst; try done;
    by apply not_elem_of_nil in Hq.
Qed.

Lemma next_set s i rf' its :
  next_inv s → next_ok rf' → (∀ p, p ∈ its → p ∈ items s ∨ reply_ok p) →
  next_inv {| base := set_node i rf' (base s); items := its |}.
Proof.
  intros [H1 H2] Hr Hits. split; cbn.
  - intros j rfj [[<- <-]|[_ Hj]]%lookup_insert_Some; [done|by eapply H1].
  - intros p [Hp|Hp]%Hits; [by apply H2|done].
Qed.

Lemma next_step G A s ev s' :
  cinv G A s → next_inv s → repl_step same_term saved_crash orderly s ev s' → next_inv s'.
Proof.
  intros Hc Hn Hstep. pose proof Hc as [Hk _]. pose proof Hn as [Hnp Hni].
  destruct Hstep as [s l b' Hb|s i rf servers Hi Hh|s i rf term command Hi Hs
    |s l1 p l2 rf now rf' ps ev Hp Hi Ha Hpf|s l1 p l2 Hp Hcall|s i rf Hi].
  - split; cbn.
    + intros i rf' Hi. eapply election_next; [|exact Hnp|exact Hb|exact Hi].
      intros j rfj Hj. exact (po_index _ _ (item_peer _ _ _ _ Hk Hj)).
    + destruct l as [i|]; [|done]. intros q (p & Hq & Hp)%list_elem_of_bind. by eapply orphan_reply; [apply Hni|].
  - split; cbn; [done|]. intros p [Hp|Hp]%elem_of_app; [by apply Hni|].
    by apply list_elem_of_fmap in Hp as (j & -> & _).
  - split; cbn; [done|]. intros p [Hp|Hp]%elem_of_app; [by apply Hni|].
    by apply list_elem_of_singleton in Hp as ->.
  - assert (p ∈ items s) as Hin by (rewrite Hp; set_solver).
    apply next_set; [done|by eapply perform_next|].
    pose proof (performed_reply _ _ _ _ _ _ _ (item_peer _ _ _ _ Hk Hi)
                  (to_item _ _ (kn_tree _ _ Hk) _ Hin) Hpf) as Hps. rewrite Forall_forall in Hps.
    intros q [Hq|Hq]%(item_taken s _ _ _ _ _ Hp); [by left|right; by apply Hps].
  - split; cbn; [done|]. intros q Hq. apply Hni. rewrite Hp. set_solver.
  - apply next_set; [done|by eapply (Hnp i rf)|by left].
Qed.

Lemma next_run n tr s :
  0 ≤ n → run (repl_step same_term saved_crash orderly) (repl_init n) tr s → next_inv s.
Proof.
  intros Hn Hr.
  assert (∀ s0 G A, cinv G A s0 → next_inv s0 → run (repl_step same_term saved_crash orderly) s0 tr s → next_inv s) as Hall.
  { clear. intros s0 G A Hc Hi Hr. revert G A Hc Hi. induction Hr as [s|s ev s1 tr s' Hs Hr IH]; intros G A Hc Hi; [done|].
    destruct (cinv_step _ _ _ _ _ Hc Hs) as (G1 & A1 & [Hc1 _] & _).
    apply (IH G1 A1 Hc1). exact (next_step _ _ _ _ _ Hc Hi Hs). }
  eapply Hall; [by apply (cinv_init n Hn)| |exact Hr]. split; [|by intros p Hp%not_elem_of_nil].
  intros i rf Hi Hl. cbn in Hi. rewrite lookup_map_on in Hi. case_decide; [|done]. by injection Hi as <-.
Qed.

(** C27. A leader can always send: in every reachable state of an orderly cluster
    (the same rules for votes, crashes and items), whatever was lost, delayed or refused, and however often the leader has
    retried, the arguments of its next AppendEntries to any server are
    generated: the previous entry and the ones behind it are in its log. *)
Theorem leader_sends n tr s i rf j :
  0 ≤ n → run (repl_step same_term saved_crash orderly) (repl_init n) tr s →
  nodes (base s) !! i = Some rf → role rf = Leader → 0 ≤ j < n →
  ∃ args isSnapshot, genAppendEntries j rf = Ok (args, isSnapshot).
Proof.
  intros Hn Hr Hi Hl Hj. pose proof (next_run _ _ _ Hn Hr) as [Hnp _]. specialize (Hnp _ _ Hi Hl).
  destruct (cinv_run _ _ _ _ _ (cinv_init n Hn) Hr) as (G & A & [[Hk _] _] & _).
  pose proof (po_index _ _ (item_peer _ _ _ _ Hk Hi)) as Hix.
  assert (cluster_typed (base s)) as [_ Hty].
  { eapply (run_invariant _ (λ s, cluster_typed (base s))); [|exact Hr|by apply cluster_typed_init].
    intros s1 l s2 Hty Hs. destruct (repl_base _ _ _ _ _ _ Hs) as [->|[l' Hb]]; [done|by eapply cluster_typed_step]. }
  specialize (Hty _ _ Hi). rewrite (size_run _ _ _ _ _ _ Hr) in Hty.
  destruct (go_index_in_range (nextIndex rf) j) as [x Hx]; [rewrite (ty_next _ _ _ Hty); done|].
  pose proof (within_index _ _ _ Hnp Hx). unfold genAppendEntries, convertToStorageIndex. rewrite Hx.
  cbn [mbind outcome_bind]. rewrite Hix, !Z.sub_0_r. cbv zeta.
  case_decide; [by eexists _, _|].
  destruct (go_index_in_range (logs rf) (x - 1)) as [e ->]; [lia|]. cbn [mbind outcome_bind].
  unfold go_from. rewrite decide_True by lia. by eexists _, _.
Qed.
End Next.
