(* ===== verification/ReplicationRuns.v ===== *)
(** * Raft: runs of the replicated cluster

    An executable scheduler for [repl_step], sound for it, and its runs: those
    that the theorems are applied to, and runs of the source that break what
    Raft promises.  [reordered_append_loses_commit]: an older [AppendEntries]
    that arrives late removes an entry the leader has counted as stored and
    committed, and two servers apply different commands at index 1.
    [start_after_step_down]: [Start] appends after the peer has lost the
    leadership, and two logs differ in an entry of the same index and term.
    [stale_heartbeat_panics]: a heartbeat's goroutine panics after its peer's
    log has been cut.  [stale_reply_loses_commit], [stale_request_loses_commit]:
    the other two rules of [orderly] are needed as well for
    [state_machine_safety].  Each of these runs keeps all rules of [orderly]
    but one, [stale_heartbeat_panics] all; a run of an orderly cluster is at the end. *)
From S2P Require Import Prelude GoLib Raft RaftPeer RaftElection ElectionSafety.
From S2P Require Import RaftReplication LogMatching CommitWorld CommitSafety.
Local Open Scope Z_scope.

Section Runs.
Context {Cmd : Type} `{!Gob Cmd}.
Local Abbreviation Raft := (Raft Cmd).
Local Abbreviation rcluster := (rcluster Cmd).
Local Abbreviation event := (Z * ApplyMsg Cmd)%type.
Context (allowed : pending Cmd → Raft → Prop) {allowed_dec : ∀ p rf, Decision (allowed p rf)}.

#[local] Instance same_term_dec (rf : Raft) el : Decision (same_term rf el).
Proof. unfold same_term. apply _. Defined.

Inductive rmove :=
  | RElect (m : move)          (* a step of an election *)
  | RHeartbeat (i : Z)         (* one turn of [i]'s heartbeat loop *)
  | RCommand (i : Z) (c : Cmd) (* the service calls [Start] *)
  | RDo (k : nat).             (* the [k]-th item takes its next step *)

Definition rexec (m : rmove) (s : rcluster) : option (option event * rcluster) :=
  match m with
  | RElect m =>
      b ← exec same_term m (base s); Some (None, {| base := b; items := items s |})
  | RHeartbeat i =>
      rf ← nodes (base s) !! i;
      servers ← startHeartbeat rf;
      Some (None, {| base := base s; items := items s ++ (TGen i <$> servers) |})
  | RCommand i c =>
      rf ← nodes (base s) !! i;
      if (GetState rf).2
      then Some (None, {| base := base s; items := items s ++ [TStart i (GetState rf).1 c] |})
      else None
  | RDo k =>
      p ← items s !! k;
      rf ← nodes (base s) !! site p;
      if decide (allowed p rf) then
        '(rf', ps, ev) ← from_ok (perform 0 p rf);
        Some (ev, {| base := set_node (site p) rf' (base s);
                     items := take k (items s) ++ drop (S k) (items s) ++ ps |})
      else None
  end.

Fixpoint rexec_all (ms : list rmove) (s : rcluster) : option (list event * rcluster) :=
  match ms with
  | [] => Some ([], s)
  | m :: ms =>
      '(ev, s) ← rexec m s;
      '(tr, s) ← rexec_all ms s;
      Some (option_list ev ++ tr, s)
  end.

Lemma rexec_sound crashes m s ev s' : rexec m s = Some (ev, s') → repl_step same_term crashes allowed s ev s'.
Proof.
  destruct m as [m|i|i c|k]; cbn [rexec]; intros Hm.
  - apply bind_Some in Hm as (b & Hb & [= <- <-]).
    exact (rs_election same_term crashes allowed s None b (exec_sound same_term crashes no_local m _ _ Hb)).
  - apply bind_Some in Hm as (rf & Hi & Hm). apply bind_Some in Hm as (servers & Hh & [= <- <-]).
    by eapply rs_heartbeat.
  - apply bind_Some in Hm as (rf & Hi & Hm). destruct (GetState rf) as [t []] eqn:Hs; [|done].
    injection Hm as <- <-. by eapply rs_command.
  - apply bind_Some in Hm as (p & Hp & Hm). apply bind_Some in Hm as (rf & Hi & Hm).
    case_decide as Hst; [|done].
    apply bind_Some in Hm as ([[rf' ps] ev0] & Hpf%from_ok_Some & [= <- <-]).
    eapply rs_perform; [|done..]. symmetry. by apply take_drop_middle.
Qed.

Lemma rexec_all_sound crashes ms s tr s' :
  rexec_all ms s = Some (tr, s') → run (repl_step same_term crashes allowed) s tr s'.
Proof.
  revert s tr. induction ms as [|m ms IH]; intros s tr Hms; cbn in Hms.
  { injection Hms as <- <-. constructor. }
  apply bind_Some in Hms as ([ev s1] & Hm & Hms). apply bind_Some in Hms as ([tr1 s2] & Hr & [= <- <-]).
  eapply run_step; [by eapply rexec_sound|by apply IH].
Qed.
End Runs.
Arguments rmove : clear implicits.

Section Scenario.
Local Instance z_gob : Gob Z := countable_Gob Z.

Definition elect (ms : list move) : list (rmove Z) := RElect <$> ms.

(** [orderly] without one of its rules: for the order of requests, for
    commands, for replies, and for requests. *)
Definition any_order (p : pending Z) (rf : Raft Z) : Prop :=
  while_leader p rf ∧ sent_in_term p rf ∧ counted_in_term p rf.
Definition any_command (p : pending Z) (rf : Raft Z) : Prop :=
  sent_in_term p rf ∧ cuts_older p rf ∧ counted_in_term p rf.
Definition any_reply (p : pending Z) (rf : Raft Z) : Prop :=
  while_leader p rf ∧ sent_in_term p rf ∧ cuts_older p rf.
Definition any_request (p : pending Z) (rf : Raft Z) : Prop :=
  while_leader p rf ∧ cuts_older p rf ∧ counted_in_term p rf.

#[local] Instance any_order_dec p (rf : Raft Z) : Decision (any_order p rf).
Proof. unfold any_order. apply _. Defined.
#[local] Instance any_command_dec p (rf : Raft Z) : Decision (any_command p rf).
Proof. unfold any_command. apply _. Defined.
#[local] Instance any_reply_dec p (rf : Raft Z) : Decision (any_reply p rf).
Proof. unfold any_reply. apply _. Defined.
#[local] Instance any_request_dec p (rf : Raft Z) : Decision (any_request p rf).
Proof. unfold any_request. apply _. Defined.

(** Whatever is allowed, these are runs of the source. *)
Lemma source_step counts crashes allowed (s s' : rcluster Z) l :
  repl_step counts crashes allowed s l s' → repl_step counts any_crash any_start s l s'.
Proof.
  destruct 1; [apply rs_election; by eapply cluster_step_mono; [..|done]|by econstructor..].
Qed.

Lemma source_run counts crashes allowed (s s' : rcluster Z) tr :
  run (repl_step counts crashes allowed) s tr s' → run (repl_step counts any_crash any_start) s tr s'.
Proof. induction 1; econstructor; eauto using source_step. Qed.

(** Server 0 is elected by 1; a heartbeat to 1 is generated and delayed. *)
Definition delayed_heartbeat : list (rmove Z) :=
  elect [MStart 0; MGen 0; MPersist 0; MRequest 0; MReply 0] ++
  [RHeartbeat 0; RDo 0; RDo 1].

(** Command 7 is started at 0, stored by 1, committed and applied by 0. *)
Definition commit_of_0 : list (rmove Z) :=
  [RCommand 0 7; RDo 2; RDo 2; RHeartbeat 0; RDo 2; RDo 3; RDo 3; RDo 3; RDo 3; RDo 3].

(** The delayed heartbeat arrives; 2 is elected by 1 in term 2, and the same
    happens with command 8. *)
Definition late_arrival : list (rmove Z) := [RDo 1].
Definition second_leader : list (rmove Z) :=
  elect [MStart 2; MGen 2; MPersist 2; MStart 2; MGen 2; MPersist 2; MRequest 4; MReply 0].
Definition commit_of_2 : list (rmove Z) :=
  [RCommand 2 8; RDo 4; RDo 4; RHeartbeat 2; RDo 5; RDo 5; RDo 5; RDo 5; RDo 5; RDo 5].

(** C15. A late [AppendEntries] loses a committed entry: in a cluster of three
    that counts votes in their own term and keeps all other rules, and sees no
    crash and no lost message, server 0 applies command 7 at index 1, and server
    2 applies command 8 at index 1. *)
Theorem reordered_append_loses_commit :
  ∃ (s : rcluster Z) e0 e2,
    run (repl_step same_term no_crash any_order) (repl_init 3)
      [(0, command_msg 1 e0); (2, command_msg 1 e2)] s ∧
    le_Command e0 = Some 7 ∧ le_Command e2 = Some 8.
Proof.
  destruct (rexec_all any_order (delayed_heartbeat ++ commit_of_0 ++ late_arrival ++
              second_leader ++ commit_of_2) (repl_init 3)) as [[tr s]|] eqn:Hr;
    [|by vm_compute in Hr].
  apply rexec_all_sound with (crashes := no_crash) in Hr as Hrun. vm_compute in Hr. injection Hr as <- <-.
  eexists. exists {| le_Term := 1; le_Command := Some 7 |}, {| le_Term := 2; le_Command := Some 8 |}.
  split; [exact Hrun|done].
Qed.

(** Two commands are started at leader 0, one of them only as far as the
    role check; the other one is stored by 1.  Then 2 is elected by 3 and 4,
    and its heartbeat cuts 0's log. *)
Definition started_twice : list (rmove Z) :=
  elect [MStart 0; MGen 0; MPersist 0; MRequest 0; MRequest 0; MReply 0; MReply 0] ++
  [RCommand 0 7; RCommand 0 8; RDo 0; RDo 1; RHeartbeat 0; RDo 1; RDo 4; RDo 4].
Definition stepped_down : list (rmove Z) :=
  elect [MStart 2; MGen 2; MPersist 2; MRequest 4; MRequest 4; MReply 0; MReply 0] ++
  [RHeartbeat 2; RDo 5; RDo 8; RDo 8].

(** [Start] reads the role and appends in two critical sections: in a
    cluster of five that keeps all other rules it appends an entry of term 1
    after the peer has stepped down, and two peers have different commands in an
    entry of the same index and term. *)
Theorem start_after_step_down :
  ∃ (s : rcluster Z) rf0 rf1 e0 e1,
    run (repl_step same_term no_crash any_command) (repl_init 5) [] s ∧
    nodes (base s) !! 0 = Some rf0 ∧ nodes (base s) !! 1 = Some rf1 ∧
    logs rf0 !! 1%nat = Some e0 ∧ logs rf1 !! 1%nat = Some e1 ∧
    le_Term e0 = le_Term e1 ∧ le_Command e0 ≠ le_Command e1 ∧ role rf0 ≠ Leader.
Proof.
  destruct (rexec_all any_command (started_twice ++ stepped_down ++ [RDo 0]) (repl_init 5))
    as [[tr s]|] eqn:Hr; [|by vm_compute in Hr].
  apply rexec_all_sound with (crashes := no_crash) in Hr as Hrun. vm_compute in Hr. injection Hr as <- <-.
  do 5 eexists. split; [exact Hrun|]. vm_compute. by split_and!.
Qed.

(** Command 7 is stored by 1, and 0's next heartbeat begins; before its
    goroutine for 1 runs, the heartbeat of the new leader 2 cuts 0's log. *)
Definition next_heartbeat : list (rmove Z) :=
  elect [MStart 0; MGen 0; MPersist 0; MRequest 0; MRequest 0; MReply 0; MReply 0] ++
  [RCommand 0 7; RDo 0; RDo 0; RHeartbeat 0; RDo 0; RDo 3; RDo 3; RDo 3; RHeartbeat 0].
Definition cut_by_2 : list (rmove Z) :=
  elect [MStart 2; MGen 2; MPersist 2; MRequest 4; MRequest 4; MReply 0; MReply 0] ++
  [RHeartbeat 2; RDo 7; RDo 10; RDo 10].

(** C28. A heartbeat's goroutine generates its arguments before it checks that
    the peer still leads: in an orderly cluster of five without crashes or
    losses there is a run after which such a goroutine of a peer that has stepped down and
    whose log has been cut reads behind the end of the log, and panics. *)
Theorem stale_heartbeat_panics :
  ∃ (s : rcluster Z) rf,
    run (repl_step same_term no_crash orderly) (repl_init 5) [] s ∧
    TGen 0 1 ∈ items s ∧ nodes (base s) !! 0 = Some rf ∧ role rf = Follower ∧
    ∀ now, perform now (TGen 0 1) rf = Panic.
Proof.
  destruct (rexec_all orderly (next_heartbeat ++ cut_by_2) (repl_init 5)) as [[tr s]|] eqn:Hr;
    [|by vm_compute in Hr].
  apply rexec_all_sound with (crashes := no_crash) in Hr as Hrun. vm_compute in Hr. injection Hr as <- <-.
  do 2 eexists. split; [exact Hrun|]. split; [|split; [reflexivity|split; [reflexivity|]]].
  - cbn. do 3 right. left.
  - intros now. vm_compute. reflexivity.
Qed.

(** *** Replies and requests of another term *)

(** 0 is elected in term 1 by 1 and 2, and 1 stores its command 7; the reply is
    delayed.  In term 2, 2 is elected by 3 and 4 and cuts the logs of 1 and 0. *)
Definition reply_delayed : list (rmove Z) :=
  elect [MStart 0; MGen 0; MPersist 0; MRequest 0; MRequest 0; MReply 1; MReply 0] ++
  [RCommand 0 7; RDo 0; RDo 0; RHeartbeat 0; RDo 0; RDo 3; RDo 3].
Definition cut_by_second : list (rmove Z) :=
  elect [MStart 2; MGen 2; MPersist 2; MRequest 4; MRequest 4; MReply 1; MReply 0] ++
  [RHeartbeat 2; RDo 5; RDo 7; RDo 7; RDo 4; RDo 7; RDo 7].

(** In term 3, 0 is elected by 3 and 4, and 3 stores its command 8; the
    delayed reply counts for it, and 0 applies 8. *)
Definition counted_twice : list (rmove Z) :=
  elect [MStart 0; MGen 0; MPersist 0; MRequest 6; MRequest 6; MReply 1; MReply 0] ++
  [RCommand 0 8; RDo 8; RDo 8; RHeartbeat 0; RDo 0; RDo 0; RDo 0; RDo 7; RDo 9; RDo 11] ++
  [RDo 11; RDo 0; RDo 10; RDo 10].

(** In term 4, 4 is elected by 1 and 2, which do not have it, and applies 9. *)
Definition fourth_term : list (rmove Z) :=
  elect [MStart 4; MGen 4; MPersist 4; MRequest 7; MRequest 7; MReply 1; MReply 0] ++
  [RCommand 4 9; RDo 11; RDo 11; RHeartbeat 4; RDo 12; RDo 14; RDo 14; RDo 14] ++
  [RDo 12; RDo 13; RDo 13; RDo 13; RDo 13; RDo 13].

(** C16. [handleAppendEntries] counts a reply in whatever term it arrives: in a
    cluster of five that keeps all other rules, without crashes, a leader counts
    the reply to a request of its earlier term for a log that has been cut
    since, and two servers apply different commands at index 1. *)
Theorem stale_reply_loses_commit :
  ∃ (s : rcluster Z) e0 e4,
    run (repl_step same_term no_crash any_reply) (repl_init 5)
      [(0, command_msg 1 e0); (4, command_msg 1 e4)] s ∧
    le_Command e0 = Some 8 ∧ le_Command e4 = Some 9.
Proof.
  destruct (rexec_all any_reply (reply_delayed ++ cut_by_second ++ counted_twice ++ fourth_term)
              (repl_init 5)) as [[tr s]|] eqn:Hr; [|by vm_compute in Hr].
  apply rexec_all_sound with (crashes := no_crash) in Hr as Hrun. vm_compute in Hr. injection Hr as <- <-.
  eexists. exists {| le_Term := 3; le_Command := Some 8 |}, {| le_Term := 4; le_Command := Some 9 |}.
  split; [exact Hrun|done].
Qed.

(** 0 is elected in term 1, and its heartbeat begins.  In term 2, 2 is elected
    by 1 and 3, they store its command 7, and 2 applies it.  In term 3 it is
    elected again, by 0 as well. *)
Definition heartbeat_begins : list (rmove Z) :=
  elect [MStart 0; MGen 0; MPersist 0; MRequest 0; MRequest 0; MReply 1; MReply 0] ++ [RHeartbeat 0].
Definition stored_by_three : list (rmove Z) :=
  elect [MStart 2; MGen 2; MPersist 2; MRequest 3; MRequest 3; MReply 1; MReply 0] ++
  [RCommand 2 7; RDo 4; RDo 4; RHeartbeat 2; RDo 5; RDo 7; RDo 7; RDo 7] ++
  [RDo 5; RDo 6; RDo 6; RDo 6; RDo 6; RDo 6].
Definition elected_again : list (rmove Z) :=
  elect [MStart 2; MGen 2; MPersist 2; MRequest 4; MRequest 4; MRequest 4; MReply 2; MReply 1; MReply 0].

(** The goroutines of 0's heartbeat generate requests of term 3 for 1 and 3,
    from an empty log.  Then 0 gets command 7, is elected in term 4 by 2 and 4,
    and the requests leave: they cut the logs of 1 and 3. *)
Definition generated_as_follower : list (rmove Z) := [RDo 0; RDo 1].
Definition caught_up : list (rmove Z) :=
  [RHeartbeat 2; RDo 2; RDo 10; RDo 10; RDo 10; RDo 6; RDo 9; RDo 9; RDo 9; RDo 9; RDo 9] ++
  [RHeartbeat 2; RDo 9; RDo 12; RDo 12].
Definition sent_as_leader : list (rmove Z) :=
  elect [MStart 0; MGen 0; MPersist 0; MRequest 6; MRequest 7; MReply 1; MReply 0] ++
  [RDo 4; RDo 13; RDo 4; RDo 13].

(** In term 5, 4 is elected by 1 and 3, and applies command 9. *)
Definition fifth_term : list (rmove Z) :=
  elect [MStart 4; MGen 4; MPersist 4; MRequest 8; MRequest 9; MReply 1; MReply 0] ++
  [RCommand 4 9; RDo 14; RDo 14; RHeartbeat 4; RDo 15; RDo 17; RDo 17; RDo 17] ++
  [RDo 16; RDo 16; RDo 16; RDo 16; RDo 16; RDo 16].

(** C17. A heartbeat's goroutine generates its request before it looks at the
    role, and does not look at the term: in a cluster of five that keeps all
    other rules, without crashes, a request that was generated by a follower
    leaves when the peer leads a later term, is taken for one of that
    follower's leader, and two servers apply different commands at index 1. *)
Theorem stale_request_loses_commit :
  ∃ (s : rcluster Z) e2 e4,
    run (repl_step same_term no_crash any_request) (repl_init 5)
      [(2, command_msg 1 e2); (4, command_msg 1 e4)] s ∧
    le_Command e2 = Some 7 ∧ le_Command e4 = Some 9.
Proof.
  destruct (rexec_all any_request (heartbeat_begins ++ stored_by_three ++ elected_again ++
              generated_as_follower ++ caught_up ++ sent_as_leader ++ fifth_term) (repl_init 5))
    as [[tr s]|] eqn:Hr; [|by vm_compute in Hr].
  apply rexec_all_sound with (crashes := no_crash) in Hr as Hrun. vm_compute in Hr. injection Hr as <- <-.
  eexists. exists {| le_Term := 2; le_Command := Some 7 |}, {| le_Term := 5; le_Command := Some 9 |}.
  split; [exact Hrun|done].
Qed.

(** *** An orderly run *)

(** 0 is elected by 1, which stores command 7; 0 applies it, and after the next
    heartbeat 1 does. *)
Definition orderly_script : list (rmove Z) :=
  elect [MStart 0; MGen 0; MPersist 0; MRequest 0; MReply 0] ++
  [RCommand 0 7; RDo 0; RDo 0; RHeartbeat 0; RDo 0; RDo 1; RDo 1; RDo 1; RDo 1; RDo 1] ++
  [RDo 1; RDo 1; RHeartbeat 0; RDo 1; RDo 2; RDo 2; RDo 3; RDo 3; RDo 3].

Definition entry_7 : LogEntry_ Z := {| le_Term := 1; le_Command := Some 7 |}.

Lemma orderly_run :
  ∃ (s : rcluster Z) rf0,
    run (repl_step same_term saved_crash orderly) (repl_init 3) [(0, command_msg 1 entry_7); (1, command_msg 1 entry_7)] s ∧
    nodes (base s) !! 0 = Some rf0 ∧ role rf0 = Leader ∧
    ∀ k rf, nodes (base s) !! k = Some rf → currentTerm rf ≤ currentTerm rf0 ∧ dead rf = false.
Proof.
  destruct (rexec_all orderly orderly_script (repl_init 3)) as [[tr s]|] eqn:Hr; [|by vm_compute in Hr].
  apply rexec_all_sound with (crashes := saved_crash) in Hr as Hrun.
  assert (bool_decide (map_Forall (λ _ (rf : Raft Z), currentTerm rf ≤ 1 ∧ dead rf = false) (nodes (base s))) = true) as Hmax
    by (vm_compute in Hr; injection Hr as _ <-; by vm_compute).
  apply bool_decide_eq_true_1 in Hmax.
  vm_compute in Hr. injection Hr as <- <-.
  do 2 eexists. split; [exact Hrun|]. split; [reflexivity|]. split; [reflexivity|].
  intros k rf Hk. exact (Hmax k rf Hk).
Qed.

Lemma state_machine_safety_witness :
  ∃ (s : rcluster Z) tr m1 m2, run (repl_step same_term saved_crash orderly) (repl_init 3) tr s ∧
    (0, m1) ∈ tr ∧ (1, m2) ∈ tr ∧ CommandIndex m1 = 1 ∧ Command m1 = Some 7 ∧ Command m1 = Command m2.
Proof.
  destruct orderly_run as (s & rf0 & Hrun & _).
  set (m := command_msg 1 entry_7) in *.
  assert ((0, m) ∈ [(0, m); (1, m)] ∧ (1, m) ∈ [(0, m); (1, m)]) as [H0 H1] by (split; set_solver).
  exists s, [(0, m); (1, m)], m, m. split; [exact Hrun|]. split; [exact H0|]. split; [exact H1|].
  split; [reflexivity|]. split; [reflexivity|].
  exact (state_machine_safety 3 _ s 0 1 m m ltac:(lia) Hrun H0 H1 eq_refl).
Defined.

Lemma two_of_three : quorum 3 [0; 1].
Proof.
  split; [lia|by apply (bool_decide_unpack _); vm_compute| |done].
  intros j [->| ->%list_elem_of_singleton]%elem_of_cons; lia.
Qed.

Lemma leader_completeness_witness :
  ∃ (s : rcluster Z) rf0, nodes (base s) !! 0 = Some rf0 ∧ role rf0 = Leader ∧
    0 ≤ 1 ∧ le_Command <$> logs rf0 !! 1%nat = Some (Some 7).
Proof.
  destruct orderly_run as (s & rf0 & Hrun & H0 & Hr & Hmax).
  exists s, rf0. split; [exact H0|]. split; [exact Hr|].
  exact (leader_completeness 3 _ s [0; 1] 0 rf0 1 (command_msg 1 entry_7) two_of_three Hrun
           ltac:(right; left) H0 Hr (λ k rfk _ Hk, proj1 (Hmax k rfk Hk))).
Defined.

(** [log_matching] on the first run: before the heartbeat arrives, 0 and 1
    have the entry of index 1 in common. *)
Lemma log_matching_witness :
  ∃ (s : rcluster Z) rf0 rf1,
    nodes (base s) !! 0 = Some rf0 ∧ nodes (base s) !! 1 = Some rf1 ∧
    is_Some (logs rf0 !! 1%nat) ∧ take 2 (logs rf0) = take 2 (logs rf1).
Proof.
  destruct (rexec_all while_leader (delayed_heartbeat ++ commit_of_0) (repl_init 3))
    as [[tr s]|] eqn:Hr; [|by vm_compute in Hr].
  apply rexec_all_sound with (crashes := saved_crash) in Hr as Hrun.
  assert (∃ rf0 rf1 e, nodes (base s) !! 0 = Some rf0 ∧ nodes (base s) !! 1 = Some rf1 ∧
    logs rf0 !! 1%nat = Some e ∧ logs rf1 !! 1%nat = Some e) as (rf0 & rf1 & e & H0 & H1 & He0 & He1).
  { vm_compute in Hr. injection Hr as <- <-. do 3 eexists. by split_and!. }
  exists s, rf0, rf1. split; [done|]. split; [done|]. split; [by eexists|].
  exact (log_matching 3 tr s 0 1 rf0 rf1 1 e e Hrun H0 H1 He0 He1 eq_refl).
Defined.
End Scenario.
