(* ===== verification/RaftAvailable.v ===== *)
(** * Raft: a majority that is up recovers

    Safety and liveness together.  [majority_recovers]: from every reachable
    state of an [orderly] cluster, any majority of servers that are up can go
    on, by elections alone, to a leader of theirs that has every command that
    was ever sent to a service, at its index.  The election is [RaftLive]'s,
    what the leader has is leader completeness ([CommitSafety]). *)
From S2P Require Import Prelude GoLib Raft RaftPeer RaftElection ElectionSafety RaftTypes.
From S2P Require Import RaftReplication LogMatching RaftLive CommitWorld CommitPeer CommitElection.
From S2P Require Import CommitInvariant CommitSafety ReplicationRuns.
Local Open Scope Z_scope.

Section Available.
Context {Cmd : Type} `{!Gob Cmd}.
Implicit Types (rf : Raft Cmd) (b : cluster Cmd) (s : rcluster Cmd).

Lemma repl_typed counts crashes allowed n tr s :
  0 ≤ n → run (repl_step counts crashes allowed) (repl_init n) tr s → cluster_typed (base s).
Proof.
  intros Hn Hr. eapply (run_invariant _ (λ s, cluster_typed (base s))); [|exact Hr|by apply cluster_typed_init].
  intros s1 l s2 Hty Hs. destruct (repl_base _ _ _ _ _ _ Hs) as [->|[l' Hb]]; [done|by eapply cluster_typed_step].
Qed.

(** Elections of the cluster are steps of the replicated one. *)
Lemma elections_run counts crashes allowed W b b' s :
  run (elect_step counts W) b [] b' → base s = b →
  run (repl_step counts crashes allowed) s [] {| base := b'; items := items s |}.
Proof.
  intros Hr. remember [] as tr eqn:Htr. revert s Htr.
  induction Hr as [b|b l b1 tr b' [Hs -> _ _] Hr IH]; intros s Htr Hb; cbn in Htr; subst.
  - by destruct s; constructor.
  - eapply run_tau; [apply rs_election; by eapply cluster_step_mono; [..|exact Hs]|]. by apply (IH {| base := b1; items := items s |}).
Qed.

(** Elections do not kill a server. *)
Lemma elected_dead counts crashes b l b' i rf' :
  cluster_step counts crashes no_local b l b' → l = None → nodes b' !! i = Some rf' →
  ∃ rf, nodes b !! i = Some rf ∧ dead rf' = dead rf.
Proof.
  assert (∀ j rf rf1, nodes b !! j = Some rf → dead rf1 = dead rf →
    <[j := rf1]> (nodes b) !! i = Some rf' → ∃ rf, nodes b !! i = Some rf ∧ dead rf' = dead rf) as Hset.
  { intros j rf rf1 Hj Hd [[<- <-]|[_ ?]]%lookup_insert_Some; eauto. }
  intros Hstep. destruct Hstep as
    [s j rf rf1 sp Hj Hph Hst|s j rf args Hj Hph Hgen|s j rf Hj Hph
    |s l1 e j l2 el rf now rf1 reply sp Hrq He Hj Hrv|s l1 m l2 Hrq
    |s l1 e j reply l2 el rf rf1 count sp Hrp He Hl Hj Hcs Hhv|s l1 m l2 Hrp
    |s j rf rf1 Hj []|s j rf now rf1 Hj Hph HM]; intros Hq Hi; try done; try (by exists rf').
  - rewrite startElection_Ok in Hst. injection Hst as <- _. by eapply Hset; [exact Hj| |exact Hi].
  - by eapply Hset; [exact Hj| |exact Hi].
  - apply RequestVote_same in Hrv as (_ & _ & Hd & _). by eapply Hset; [exact Hj| |exact Hi].
  - eapply Hset; [exact Hj| |exact Hi]. revert Hhv. unfold handleVote.
    case_decide; [case_decide|case_decide]; [|by intros [= <- _ _]| |by intros [= <- _ _]];
      intros Hv; apply bind_Ok in Hv as ([rf2 sp2] & Hc & [= <- _ _]).
    + by apply convertRole_same in Hc as (_ & _ & ? & _).
    + by apply step_down_same in Hc as (_ & _ & ? & _).
Qed.

Lemma elections_alive counts W b b' :
  run (elect_step counts W) b [] b' →
  (∀ i rf, i ∈ W → nodes b !! i = Some rf → dead rf = false) →
  ∀ i rf, i ∈ W → nodes b' !! i = Some rf → dead rf = false.
Proof.
  intros Hr. apply (run_invariant (elect_step counts W)
    (λ b, ∀ i rf, i ∈ W → nodes b !! i = Some rf → dead rf = false)) with []; [|done].
  intros b1 l b2 Hall [Hs Hq _ _] i rf Hi Hrf.
  destruct (elected_dead _ _ _ _ _ _ _ Hs Hq Hrf) as (rf0 & Hrf0 & ->). by eapply Hall.
Qed.

(** The election: its leader is up, and not behind the majority. *)
Lemma majority_elects n tr s W :
  2 ≤ n → quorum n W → run (repl_step same_term saved_crash orderly) (repl_init n) tr s →
  (∀ i rf, i ∈ W → nodes (base s) !! i = Some rf → dead rf = false) →
  ∃ s' i rf, run (repl_step same_term saved_crash orderly) s [] s' ∧ i ∈ W ∧
    nodes (base s') !! i = Some rf ∧ role rf = Leader ∧ dead rf = false ∧
    ∀ j rfj, j ∈ W → nodes (base s') !! j = Some rfj → currentTerm rfj ≤ currentTerm rf.
Proof.
  intros Hn HW Hr Hup. pose proof HW as [H0 Hnd Hrange Hmaj].
  destruct (repl_typed _ _ _ _ _ _ H0 Hr) as [_ Hty]. pose proof (size_run _ _ _ _ _ _ Hr) as Hsz. rewrite Hsz in Hty.
  destruct (cinv_run _ _ _ _ _ (cinv_init n H0) Hr) as (G & A & [[Hk _] _] & _).
  destruct (able_elects same_term (λ rf el H, H) W n Hn Hnd Hmaj (λ i, from_option logs [] (nodes (base s) !! i))
              (λ i, from_option lastIncludedIndex 0 (nodes (base s) !! i)) (base s))
    as (b' & c & t & Hrun & Hc & (rf & Hrf & Hl & <-) & Hall).
  { split; [done|]. intros i Hi. split; [by apply Hrange|].
    destruct (inv_total _ (kn_inv _ _ Hk) i) as [rf Hrf]; [rewrite Hsz; by apply Hrange|].
    exists rf. split; [done|]. destruct (Hty i rf Hrf).
    pose proof (branch_nonempty _ _ (item_branch _ _ _ _ Hk Hrf)).
    split; cbn beta; rewrite ?Hrf; try done; [split; congruence || done|by eapply Hup]. }
  eexists _, c, rf. split_and!; [exact (elections_run same_term saved_crash orderly W _ _ s Hrun eq_refl)|done..| |done].
  by eapply elections_alive.
Qed.

(** What was delivered is in the log of a leader that is not behind. *)
Lemma leader_delivered n tr s W i rf j msg :
  quorum n W → run (repl_step same_term saved_crash orderly) (repl_init n) tr s → (j, msg) ∈ tr →
  nodes (base s) !! i = Some rf → role rf = Leader →
  (∀ k rfk, k ∈ W → nodes (base s) !! k = Some rfk → currentTerm rfk ≤ currentTerm rf) →
  has_delivered rf msg.
Proof.
  intros HW Hr Hin Hi Hl Hmax.
  destruct (cinv_run _ _ _ _ _ (cinv_init n (qu_size _ _ HW)) Hr) as (G & A & [Hci _] & Htr).
  rewrite Forall_forall in Htr. eapply leader_has; [done|by apply (Htr _ Hin)| |done..].
  by rewrite (size_run _ _ _ _ _ _ Hr).
Qed.

(** A majority recovers: in every state that a cluster of two or more servers
    reaches that counts votes in their term and is orderly, whatever was lost,
    delayed, crashed or restarted, any majority of servers that are up can get a
    leader of theirs by elections alone, and that leader has in its log every
    command that any server sent to its service, at its index. *)
Theorem majority_recovers n tr s W :
  2 ≤ n → quorum n W → run (repl_step same_term saved_crash orderly) (repl_init n) tr s →
  (∀ i rf, i ∈ W → nodes (base s) !! i = Some rf → dead rf = false) →
  ∃ s' i rf, run (repl_step same_term saved_crash orderly) s [] s' ∧ i ∈ W ∧
    nodes (base s') !! i = Some rf ∧ role rf = Leader ∧ ∀ j msg, (j, msg) ∈ tr → has_delivered rf msg.
Proof.
  intros Hn HW Hr Hup. destruct (majority_elects n tr s W Hn HW Hr Hup) as (s' & c & rf & Hr' & Hc & Hrf & Hl & _ & Hall).
  exists s', c, rf. split_and!; [done..|]. intros j msg Hin.
  eapply leader_delivered; [exact HW| |exact Hin|done..]. rewrite <-(app_nil_r tr). by eapply run_trans.
Qed.
End Available.

(** The orderly run of [ReplicationRuns]: 0 leads and has applied command 7;
    without it, 1 and 2 get a leader that has the command. *)
#[local] Existing Instance z_gob.

Lemma one_and_two : quorum 3 [1; 2].
Proof.
  split; [lia|by apply (bool_decide_unpack _); vm_compute| |done].
  intros j [->| ->%list_elem_of_singleton]%elem_of_cons; lia.
Qed.

Lemma majority_recovers_witness :
  ∃ (s s' : rcluster Z) i rf, run (repl_step same_term saved_crash orderly) s [] s' ∧ i ∈ [1; 2] ∧
    nodes (base s') !! i = Some rf ∧ role rf = Leader ∧ has_delivered rf (command_msg 1 entry_7).
Proof.
  destruct orderly_run as (s & rf0 & Hrun & _ & _ & Hup).
  destruct (majority_recovers 3 _ s [1; 2] ltac:(lia) one_and_two Hrun (λ i rf _ Hi, proj2 (Hup i rf Hi)))
    as (s' & i & rf & Hr & Hi & Hrf & Hl & Hd).
  exists s, s', i, rf. split; [exact Hr|]. split; [exact Hi|]. split; [exact Hrf|]. split; [exact Hl|].
  apply (Hd 0). left.
Defined.
