(* ===== verification/RaftConfig.v ===== *)
(** * The raft test configuration (src/src/raft/config.go)

    [links] are the end points and which servers are on the net, [observed] is
    what the apply channels' readers have recorded, [config] adds the peers,
    their persisters and the statistics.  The operations of the tester are
    functions on them; [log.Fatalf] and [t.Fatal], which end the test, are
    [Panic].  Random names are arguments, and where the tester sleeps and looks
    again, what it sees then is an argument.  [saved[i]] is the persister
    of [rafts[i]] while that peer runs.

    [enabled_iff_connected]: after any operations, an end point is switched on
    exactly when it belongs to the current instance of a server on the net and
    leads to a server on the net.  [applier_spec] and [observed_agree]: the
    readers accept exactly the messages that continue a log without
    contradicting another one, so what they have accepted agrees. *)
From S2P Require Import Prelude GoLib Labrpc Raft Harness.
Local Open Scope Z_scope.

(** ** On and off the net *)
Record links := {
  lk_net : Network;
  lk_n : Z;
  lk_connected : list bool;
  lk_endnames : name_table;
}.

Definition on_net (lk : links) (i : Z) : Prop := go_index (lk_connected lk) i = Ok true.

(** The end point of [i] that leads to [j], when [j] is connected. *)
Definition if_connected (conn : list bool) (j : Z) (nm : outcome string) : outcome (option string) :=
  c ← go_index conn j;
  if c : bool then Some <$> nm else Ok None.

(** The same, when row [i] is not nil. *)
Definition if_row (tbl : name_table) (i : Z) (nm : outcome string) : outcome (option string) :=
  r ← has_row tbl i;
  if r : bool then Some <$> nm else Ok None.

Definition connect (i : Z) (lk : links) : outcome links :=
  conn ← go_set (lk_connected lk) i true;
  let tbl := lk_endnames lk in
  (* outgoing, then incoming ClientEnds *)
  rn ← enable_each true (upto (lk_n lk)) (λ j, if_connected conn j (endname_of tbl i j)) (lk_net lk);
  rn ← enable_each true (upto (lk_n lk)) (λ j, if_connected conn j (endname_of tbl j i)) rn;
  Ok {| lk_net := rn; lk_n := lk_n lk; lk_connected := conn; lk_endnames := tbl |}.

Definition disconnect (i : Z) (lk : links) : outcome links :=
  conn ← go_set (lk_connected lk) i false;
  let tbl := lk_endnames lk in
  rn ← enable_each false (upto (lk_n lk)) (λ j, if_row tbl i (endname_of tbl i j)) (lk_net lk);
  rn ← enable_each false (upto (lk_n lk)) (λ j, if_row tbl j (endname_of tbl j i)) rn;
  Ok {| lk_net := rn; lk_n := lk_n lk; lk_connected := conn; lk_endnames := tbl |}.

Definition with_net (rn : Network) (lk : links) : links :=
  {| lk_net := rn; lk_n := lk_n lk; lk_connected := lk_connected lk; lk_endnames := lk_endnames lk |}.

(** A fresh row of end points for server [i]; [names j] is the [j]-th name
    drawn. *)
Definition rename (i : Z) (names : Z → string) (lk : links) : outcome links :=
  let row := names <$> upto (lk_n lk) in
  tbl ← go_set (lk_endnames lk) i (Some row);
  rn ← make_ends row SInt (upto (lk_n lk)) (lk_net lk);
  Ok {| lk_net := rn; lk_n := lk_n lk; lk_connected := lk_connected lk; lk_endnames := tbl |}.

(** ** What the readers of the apply channels record *)
Section Config.
Context {Cmd : Type} `{!Gob Cmd} `{!EqDecision Cmd}.
Local Abbreviation Raft := (Raft Cmd).
Local Abbreviation ApplyMsg := (ApplyMsg Cmd).

(** The tester's snapshots: [Encode] of an index and of the log up to it. *)
Class SnapGob := {
  snap_encode : Z * list (option Cmd) → list Z;
  snap_decode : list Z → option (Z * list (option Cmd));
  snap_roundtrip x : snap_decode (snap_encode x) = Some x;
  snap_nonempty x : snap_encode x ≠ [];
}.
Context {snap_gob : SnapGob}.

Record observed := {
  ob_applyErr : list string;
  ob_logs : list (gmap Z (option Cmd));
  ob_lastApplied : list Z;
  ob_maxIndex : Z;
}.

Definition ob_set_logs lg (ob : observed) : observed :=
  {| ob_applyErr := ob_applyErr ob; ob_logs := lg; ob_lastApplied := ob_lastApplied ob;
     ob_maxIndex := ob_maxIndex ob |}.
Definition ob_set_lastApplied la (ob : observed) : observed :=
  {| ob_applyErr := ob_applyErr ob; ob_logs := ob_logs ob; ob_lastApplied := la;
     ob_maxIndex := ob_maxIndex ob |}.
Definition ob_set_maxIndex mx (ob : observed) : observed :=
  {| ob_applyErr := ob_applyErr ob; ob_logs := ob_logs ob; ob_lastApplied := ob_lastApplied ob;
     ob_maxIndex := mx |}.

(** [old, ok := log[index]; ok && old != v] *)
Definition conflicts (index : Z) (v : option Cmd) (log : gmap Z (option Cmd)) : bool :=
  match log !! index with Some old => negb (bool_decide (old = v)) | None => false end.

(** The state, whether there is an error message, and [prevok]. *)
Definition checkLogs (i : Z) (m : ApplyMsg) (ob : observed) : outcome (observed * bool * bool) :=
  let v := Command m in
  let err := existsb (conflicts (CommandIndex m) v) (ob_logs ob) in
  log ← go_index (ob_logs ob) i;
  let prevok := bool_decide (is_Some (log !! (CommandIndex m - 1))) in
  logs ← go_set (ob_logs ob) i (<[CommandIndex m := v]> log);
  let ob := ob_set_logs logs ob in
  let ob := if decide (ob_maxIndex ob < CommandIndex m) then ob_set_maxIndex (CommandIndex m) ob else ob in
  Ok (ob, err, prevok).

(** One message of the loop. *)
Definition applier (i : Z) (m : ApplyMsg) (ob : observed) : outcome observed :=
  if negb (CommandValid m) then Ok ob
  else
    '(ob, err, prevok) ← checkLogs i m ob;
    let err := err || (bool_decide (1 < CommandIndex m) && negb prevok) in
    if err : bool then Panic (* log.Fatalf *) else Ok ob.

Definition ingestSnap (i : Z) (snapshot : list Z) (index : Z) (ob : observed) : outcome observed :=
  match snap_decode snapshot with
  | None => Panic
  | Some (lastIncludedIndex, xlog) =>
      if decide (index ≠ -1 ∧ index ≠ lastIncludedIndex) then Panic
      else
        logs ← go_set (ob_logs ob) i (list_to_map (imap (λ j c, (Z.of_nat j, c)) xlog));
        la ← go_set (ob_lastApplied ob) i lastIncludedIndex;
        Ok (ob_set_lastApplied la (ob_set_logs logs ob))
  end.

Definition SnapShotInterval : Z := 10.

(** The snapshot taken after command [index] of a server with log [log]. *)
Definition snapshot_of (index : Z) (log : gmap Z (option Cmd)) : list Z :=
  snap_encode (index, (λ j, map_get None log j) <$> seqZ 0 (index + 1)).

Definition applierSnap (i : Z) (m : ApplyMsg) (ob : observed) (rf : Raft)
    : outcome (observed * Raft) :=
  if SnapshotValid m then
    ob ← ingestSnap i (am_Snapshot m) (SnapshotIndex m) ob; Ok (ob, rf)
  else if CommandValid m then
    la ← go_index (ob_lastApplied ob) i;
    '(ob, err) ← (if decide (CommandIndex m ≠ la + 1) then Ok (ob, true)
                  else '(ob, err, prevok) ← checkLogs i m ob;
                       Ok (ob, err || (bool_decide (1 < CommandIndex m) && negb prevok)));
    las ← go_set (ob_lastApplied ob) i (CommandIndex m);
    let ob := ob_set_lastApplied las ob in
    rf ← (if decide (Z.rem (CommandIndex m + 1) SnapShotInterval = 0) then
            log ← go_index (ob_logs ob) i;
            Snapshot (CommandIndex m) (snapshot_of (CommandIndex m) log) rf
          else Ok rf);
    if err : bool then Panic else Ok (ob, rf)
  else Ok (ob, rf).

(** ** The configuration *)
Record config := {
  cfg_links : links;
  cfg_seen : observed;
  cfg_rafts : list (option Raft);
  cfg_saved : list (option Persister);
  cfg_finished : bool;
  cfg_rpcs0 : Z;
  cfg_cmds0 : Z;
  cfg_bytes0 : Z;
  cfg_maxIndex0 : Z;
}.

Definition set_links lk (cfg : config) : config :=
  {| cfg_links := lk; cfg_seen := cfg_seen cfg; cfg_rafts := cfg_rafts cfg; cfg_saved := cfg_saved cfg;
     cfg_finished := cfg_finished cfg; cfg_rpcs0 := cfg_rpcs0 cfg; cfg_cmds0 := cfg_cmds0 cfg;
     cfg_bytes0 := cfg_bytes0 cfg; cfg_maxIndex0 := cfg_maxIndex0 cfg |}.
Definition set_seen ob (cfg : config) : config :=
  {| cfg_links := cfg_links cfg; cfg_seen := ob; cfg_rafts := cfg_rafts cfg; cfg_saved := cfg_saved cfg;
     cfg_finished := cfg_finished cfg; cfg_rpcs0 := cfg_rpcs0 cfg; cfg_cmds0 := cfg_cmds0 cfg;
     cfg_bytes0 := cfg_bytes0 cfg; cfg_maxIndex0 := cfg_maxIndex0 cfg |}.
Definition set_rafts rs ps (cfg : config) : config :=
  {| cfg_links := cfg_links cfg; cfg_seen := cfg_seen cfg; cfg_rafts := rs; cfg_saved := ps;
     cfg_finished := cfg_finished cfg; cfg_rpcs0 := cfg_rpcs0 cfg; cfg_cmds0 := cfg_cmds0 cfg;
     cfg_bytes0 := cfg_bytes0 cfg; cfg_maxIndex0 := cfg_maxIndex0 cfg |}.

(** [cfg.saved[i]], shared with the peer that runs. *)
Definition saved_of (i : Z) (cfg : config) : outcome (option Persister) :=
  rf ← go_index (cfg_rafts cfg) i;
  match rf with
  | Some rf => Ok (Some (persister rf))
  | None => go_index (cfg_saved cfg) i
  end.

Definition crash1 (i : Z) (cfg : config) : outcome config :=
  lk ← disconnect i (cfg_links cfg);
  let lk := with_net (DeleteServer (SInt i) (lk_net lk)) lk in
  (* what the old instance writes from here on goes to a persister of its own *)
  ps ← saved_of i cfg;
  saved ← go_set (cfg_saved cfg) i (Persister_Copy <$> ps);
  rafts ← go_set (cfg_rafts cfg) i None;
  Ok (set_rafts rafts saved (set_links lk cfg)).

Definition start1 (i : Z) (names : Z → string) (srv : positive) (now : Z) (cfg : config)
    : outcome config :=
  cfg ← crash1 i cfg;
  lk ← rename i names (cfg_links cfg);
  la ← go_set (ob_lastApplied (cfg_seen cfg)) i 0;
  let ob := ob_set_lastApplied la (cfg_seen cfg) in
  ps ← go_index (cfg_saved cfg) i;
  '(p, ob) ← (match ps with
              | Some p =>
                  if decide (ReadSnapshot p = []) then Ok (Persister_Copy p, ob)
                  else ob ← ingestSnap i (ReadSnapshot p) (-1) ob; Ok (Persister_Copy p, ob)
              | None => Ok (MakePersister, ob)
              end);
  rf ← Make (lk_n lk) i p now;
  saved ← go_set (cfg_saved cfg) i (Some p);
  rafts ← go_set (cfg_rafts cfg) i (Some rf);
  let lk := with_net (AddServer (SInt i) srv (lk_net lk)) lk in
  Ok (set_rafts rafts saved (set_seen ob (set_links lk cfg))).

(** [make_config] before the first server is started. *)
Definition empty_links (n : Z) (unreliable : bool) : links :=
  {| lk_net := LongDelays true (Reliable (negb unreliable) MakeNetwork); lk_n := n;
     lk_connected := replicate (Z.to_nat n) false; lk_endnames := replicate (Z.to_nat n) None |}.

Definition empty_config (n : Z) (unreliable : bool) : config :=
  {| cfg_links := empty_links n unreliable;
     cfg_seen := {| ob_applyErr := replicate (Z.to_nat n) EmptyString;
                    ob_logs := replicate (Z.to_nat n) ∅;
                    ob_lastApplied := replicate (Z.to_nat n) 0; ob_maxIndex := 0 |};
     cfg_rafts := replicate (Z.to_nat n) None; cfg_saved := replicate (Z.to_nat n) None;
     cfg_finished := false; cfg_rpcs0 := 0; cfg_cmds0 := 0; cfg_bytes0 := 0; cfg_maxIndex0 := 0 |}.

Definition make_config (n : Z) (unreliable : bool) (names : Z → Z → string) (srv : Z → positive)
    (now : Z) : outcome config :=
  cfg ← go_for (upto n) (λ i cfg, start1 i (names i) (srv i) now cfg) (empty_config n unreliable);
  go_for (upto n) (λ i cfg, lk ← connect i (cfg_links cfg); Ok (set_links lk cfg)) cfg.

(** The operations of a test, in any order. *)
Inductive op :=
  | OConnect (i : Z)
  | ODisconnect (i : Z)
  | OCrash (i : Z)
  | OStart (i : Z) (names : Z → string) (srv : positive) (now : Z)
  | OApply (i : Z) (m : ApplyMsg).

Definition perform_op (o : op) (cfg : config) : outcome config :=
  match o with
  | OConnect i => lk ← connect i (cfg_links cfg); Ok (set_links lk cfg)
  | ODisconnect i => lk ← disconnect i (cfg_links cfg); Ok (set_links lk cfg)
  | OCrash i => crash1 i cfg
  | OStart i names srv now => start1 i names srv now cfg
  | OApply i m => ob ← applier i m (cfg_seen cfg); Ok (set_seen ob cfg)
  end.

Fixpoint perform_ops (os : list op) (cfg : config) : outcome config :=
  match os with
  | [] => Ok cfg
  | o :: os => cfg ← perform_op o cfg; perform_ops os cfg
  end.

Lemma perform_ops_inv (I : config → Prop) os cfg cfg' :
  (∀ o c c', I c → perform_op o c = Ok c' → I c') →
  perform_ops os cfg = Ok cfg' → I cfg → I cfg'.
Proof.
  intros Hstep. revert cfg. induction os as [|o os IH]; intros cfg Hp HI; cbn in Hp.
  - by injection Hp as <-.
  - apply bind_Ok in Hp as (c & Ho & Hp). eapply IH; eauto.
Qed.
End Config.

(** ** The end points that are switched on *)
Record links_ok (lk : links) : Prop := {
  lo_conn : go_len (lk_connected lk) = Z.max 0 (lk_n lk);
  lo_tbl : go_len (lk_endnames lk) = Z.max 0 (lk_n lk);
  lo_row : ∀ i row, go_index (lk_endnames lk) i = Ok (Some row) → go_len row = Z.max 0 (lk_n lk);
  lo_name : ∀ i j nm, endname_of (lk_endnames lk) i j = Ok nm →
    is_Some (ends (lk_net lk) !! nm) ∧ map_get None (connections (lk_net lk)) nm = Some (SInt j);
  lo_inj : ∀ i j i' j' nm, endname_of (lk_endnames lk) i j = Ok nm →
    endname_of (lk_endnames lk) i' j' = Ok nm → i = i' ∧ j = j';
  lo_enabled : ∀ nm, is_enabled (lk_net lk) nm = true ↔
    ∃ i j, endname_of (lk_endnames lk) i j = Ok nm ∧ on_net lk i ∧ on_net lk j;
}.

Lemma on_net_range lk i : links_ok lk → on_net lk i → i ∈ upto (lk_n lk).
Proof.
  intros Hok Hi%go_index_bound. rewrite (lo_conn _ Hok) in Hi. apply elem_of_seqZ. lia.
Qed.

Lemma named_connected conn n (name : Z → outcome string) nm :
  (∀ j, go_index conn j = Ok true → j ∈ upto n) →
  named (upto n) (λ j, if_connected conn j (name j)) nm ↔
  ∃ j, go_index conn j = Ok true ∧ name j = Ok nm.
Proof.
  intros Hr. unfold named, if_connected. split.
  - intros (j & _ & Hj). apply bind_Ok in Hj as ([] & Hc & Hj); [|done].
    apply fmap_Ok in Hj as (nm' & Hn & [= ->]). eauto.
  - intros (j & Hc & Hn). exists j. split; [by apply Hr|]. by rewrite Hc; cbn; rewrite Hn.
Qed.

Lemma endname_of_row tbl i j nm :
  endname_of tbl i j = Ok nm → has_row tbl i = Ok true.
Proof.
  unfold endname_of, has_row. intros Hn. apply bind_Ok in Hn as ([row|] & -> & Hn); [done|done].
Qed.

Lemma named_row tbl n (row : Z → Z) (name : Z → outcome string) nm :
  (∀ j, name j = Ok nm → has_row tbl (row j) = Ok true) →
  named (upto n) (λ j, if_row tbl (row j) (name j)) nm ↔ ∃ j, j ∈ upto n ∧ name j = Ok nm.
Proof.
  intros Hr. unfold named, if_row. split.
  - intros (j & Hj & Hn). apply bind_Ok in Hn as ([] & _ & Hn); [|done].
    apply fmap_Ok in Hn as (nm' & Hn & [= ->]). eauto.
  - intros (j & Hj & Hn). exists j. split; [done|]. by rewrite (Hr j Hn); cbn; rewrite Hn.
Qed.


Lemma connect_ok i lk lk' : links_ok lk → connect i lk = Ok lk' → links_ok lk'.
Proof.
  intros Hok Hc. unfold connect in Hc. apply bind_Ok in Hc as (conn & Hset & Hc).
  apply bind_Ok in Hc as (rn1 & He1 & Hc). apply bind_Ok in Hc as (rn2 & He2 & [= <-]).
  pose proof (enable_each_spec _ _ _ _ _ He1) as (Hs1 & _ & _).
  pose proof (enable_each_spec _ _ _ _ _ He2) as (Hs2 & _ & _).
  pose proof (same_but_enabled_trans _ _ _ Hs1 Hs2) as Hs.
  destruct (same_but_enabled_fields _ _ Hs) as (He & _ & Hcn & _).
  assert (∀ j, go_index conn j = Ok true ↔ j = i ∨ on_net lk j) as Hnet.
  { intros j. rewrite (go_index_set _ _ _ _ _ Hset). unfold on_net. case_decide; naive_solver. }
  assert (∀ j, go_index conn j = Ok true → j ∈ upto (lk_n lk)) as Hrange.
  { intros j Hj%go_index_bound. rewrite (go_len_set _ _ _ _ Hset), (lo_conn _ Hok) in Hj.
    apply elem_of_seqZ. lia. }
  split; cbn.
  - rewrite (go_len_set _ _ _ _ Hset). apply Hok.
  - apply Hok.
  - apply Hok.
  - intros a b nm Hn. rewrite He, Hcn. by apply (lo_name _ Hok a b).
  - apply Hok.
  - intros nm. unfold on_net; cbn.
    rewrite (enabled_each_on _ _ _ _ _ He2), (enabled_each_on _ _ _ _ _ He1).
    rewrite !named_connected by done. rewrite (lo_enabled _ Hok).
    setoid_rewrite Hnet. split.
    + intros [(j & Hj & Hn)|[(j & Hj & Hn)|(a & b & Hn & Ha & Hb)]]; [exists j, i|exists i, j|exists a, b]; auto.
    + intros (a & b & Hn & [->|Ha] & [->|Hb]); [right; left; exists i|right; left; exists b|left; exists a|right; right; exists a, b]; auto.
Qed.

Lemma disconnect_ok i lk lk' :
  links_ok lk → disconnect i lk = Ok lk' → links_ok lk' ∧ ¬ on_net lk' i ∧ lk_n lk' = lk_n lk.
Proof.
  intros Hok Hc. unfold disconnect in Hc. apply bind_Ok in Hc as (conn & Hset & Hc).
  apply bind_Ok in Hc as (rn1 & He1 & Hc). apply bind_Ok in Hc as (rn2 & He2 & [= <-]).
  pose proof (enable_each_spec _ _ _ _ _ He1) as (Hs1 & _ & _).
  pose proof (enable_each_spec _ _ _ _ _ He2) as (Hs2 & _ & _).
  pose proof (same_but_enabled_trans _ _ _ Hs1 Hs2) as Hs.
  destruct (same_but_enabled_fields _ _ Hs) as (He & _ & Hcn & _).
  assert (∀ j, go_index conn j = Ok true ↔ j ≠ i ∧ on_net lk j) as Hnet.
  { intros j. rewrite (go_index_set _ _ _ _ _ Hset). unfold on_net. case_decide; naive_solver. }
  split; [|split; [unfold on_net; cbn; rewrite Hnet; naive_solver|done]].
  split; cbn; try apply Hok.
  - rewrite (go_len_set _ _ _ _ Hset). apply Hok.
  - intros a b nm Hn. rewrite He, Hcn. by apply (lo_name _ Hok a b).
  - intros nm. unfold on_net; cbn.
    rewrite (enabled_each_off _ _ _ _ _ He2), (enabled_each_off _ _ _ _ _ He1).
    rewrite (named_row _ _ (λ _, i)), (named_row _ _ (λ j, j)) by (intros j; apply endname_of_row).
    rewrite (lo_enabled _ Hok). setoid_rewrite Hnet. split.
    + intros (Hn2 & Hn1 & a & b & Hn & Ha & Hb). exists a, b. split_and!; try done.
      * intros ->. apply Hn1. exists b. split; [by eapply on_net_range|done].
      * intros ->. apply Hn2. exists a. split; [by eapply on_net_range|done].
    + intros (a & b & Hn & [Hai Ha] & [Hbi Hb]). split_and!.
      * intros (j & _ & Hj). by destruct (lo_inj _ Hok _ _ _ _ _ Hn Hj).
      * intros (j & _ & Hj). by destruct (lo_inj _ Hok _ _ _ _ _ Hn Hj).
      * by exists a, b.
Qed.

Lemma endname_of_set tbl tbl' i row a b :
  go_set tbl i (Some row) = Ok tbl' →
  endname_of tbl' a b = if decide (a = i) then go_index row b else endname_of tbl a b.
Proof. intros Hset. unfold endname_of. rewrite (go_index_set _ _ _ _ _ Hset). by case_decide. Qed.

Lemma rename_ok i names lk lk' :
  links_ok lk → ¬ on_net lk i → rename i names lk = Ok lk' → links_ok lk'.
Proof.
  intros Hok Hoff Hr. unfold rename in Hr. apply bind_Ok in Hr as (tbl & Hset & Hr).
  apply bind_Ok in Hr as (rn & Hm & [= <-]). apply make_ends_spec in Hm.
  set (row := names <$> upto (lk_n lk)) in *.
  assert (go_len row = Z.max 0 (lk_n lk)) as Hrow by (unfold go_len, row; rewrite length_fmap, length_seqZ; lia).
  assert (∀ j nm, go_index row j = Ok nm → j ∈ upto (lk_n lk)) as Hj.
  { intros j nm Hb%go_index_bound. apply elem_of_seqZ. lia. }
  assert (∀ a b nm, endname_of (lk_endnames lk) a b = Ok nm → ∀ j, go_index row j ≠ Ok nm) as Hnew.
  { intros a b nm Hn j Hrj. destruct (lo_name _ Hok _ _ _ Hn) as [[? Hs] _].
    rewrite (fe_new _ _ _ _ _ Hm j nm (Hj _ _ Hrj) Hrj) in Hs. done. }
  split; cbn.
  - apply Hok.
  - rewrite (go_len_set _ _ _ _ Hset). apply Hok.
  - intros a r. rewrite (go_index_set _ _ _ _ _ Hset). case_decide; [by intros [= <-]|apply Hok].
  - intros a b nm. rewrite (endname_of_set _ _ _ _ _ _ Hset), (fe_ends _ _ _ _ _ Hm). case_decide; intros Hn.
    + split; [right; eauto|]. by apply (fe_conn _ _ _ _ _ Hm); eauto.
    + destruct (lo_name _ Hok _ _ _ Hn) as [? Hc]. split; [by left|]. revert Hc. unfold map_get.
      destruct (fe_old _ _ _ _ _ Hm nm) as [_ ->]; [|done]. intros j _. by eapply Hnew.
  - intros a b a' b' nm. rewrite !(endname_of_set _ _ _ _ _ _ Hset). repeat case_decide; subst; intros Hn Hn'.
    + split; [done|]. by eapply (fe_inj _ _ _ _ _ Hm); eauto.
    + by destruct (Hnew _ _ _ Hn' b).
    + by destruct (Hnew _ _ _ Hn b').
    + by eapply lo_inj.
  - intros nm. split.
    + intros Hen. assert (∀ j, go_index row j ≠ Ok nm) as Hno.
      { intros j Hrj. rewrite (fe_off _ _ _ _ _ Hm j nm) in Hen; eauto. done. }
      destruct (fe_old _ _ _ _ _ Hm nm) as [Hen' _]; [by intros; apply Hno|]. rewrite Hen' in Hen.
      apply (lo_enabled _ Hok) in Hen as (a & b & Hn & Ha & Hb). exists a, b.
      rewrite (endname_of_set _ _ _ _ _ _ Hset), decide_False; [done|]. by intros ->.
    + intros (a & b & Hn & Ha & Hb). rewrite (endname_of_set _ _ _ _ _ _ Hset), decide_False in Hn by (by intros ->).
      destruct (fe_old _ _ _ _ _ Hm nm) as [-> _]; [intros j _; by eapply Hnew|].
      apply (lo_enabled _ Hok). by exists a, b.
Qed.

(** Adding and deleting servers leaves the end points alone. *)
Lemma links_ok_servers sv lk :
  links_ok lk →
  links_ok (with_net (with_maps (lk_net lk) (ends (lk_net lk)) (enabled (lk_net lk)) sv
                        (connections (lk_net lk))) lk).
Proof. intros [H1 H2 H3 H4 H5 H6]. by split. Qed.

Lemma empty_links_ok n unreliable : links_ok (empty_links n unreliable).
Proof.
  assert (∀ i row, go_index (lk_endnames (empty_links n unreliable)) i ≠ Ok (Some row)) as Hno.
  { intros i row [_ Hr]%go_index_Ok. cbn in Hr. by apply lookup_replicate_1 in Hr as [? _]. }
  assert (∀ i j nm, endname_of (lk_endnames (empty_links n unreliable)) i j ≠ Ok nm) as Hnm.
  { intros i j nm Hn. apply bind_Ok in Hn as ([row|] & Hr & Hn); [by apply Hno in Hr|done]. }
  split.
  - unfold go_len; cbn. rewrite length_replicate. lia.
  - unfold go_len; cbn. rewrite length_replicate. lia.
  - intros i row Hr. by apply Hno in Hr.
  - intros i j nm Hn. by apply Hnm in Hn.
  - intros i j i' j' nm Hn. by apply Hnm in Hn.
  - intros nm. split; [done|]. intros (i & j & Hn & _). by apply Hnm in Hn.
Qed.

Section ConfigFacts.
Context {Cmd : Type} `{!Gob Cmd} `{!EqDecision Cmd} `{!SnapGob (Cmd := Cmd)}.
Implicit Types (cfg : config (Cmd := Cmd)).

Lemma crash1_ok i cfg cfg' :
  links_ok (cfg_links cfg) → crash1 i cfg = Ok cfg' →
  links_ok (cfg_links cfg') ∧ ¬ on_net (cfg_links cfg') i.
Proof.
  intros Hok Hc. unfold crash1 in Hc. apply bind_Ok in Hc as (lk & Hd & Hc).
  apply bind_Ok in Hc as (ps & _ & Hc). apply bind_Ok in Hc as (saved & _ & Hc).
  apply bind_Ok in Hc as (rafts & _ & [= <-]). cbn.
  destruct (disconnect_ok _ _ _ Hok Hd) as (Hlk & Hoff & _).
  split; [by apply links_ok_servers|done].
Qed.

Lemma start1_ok i names srv now cfg cfg' :
  links_ok (cfg_links cfg) → start1 i names srv now cfg = Ok cfg' → links_ok (cfg_links cfg').
Proof.
  intros Hok Hs. unfold start1 in Hs. apply bind_Ok in Hs as (c1 & Hc & Hs).
  apply bind_Ok in Hs as (lk & Hr & Hs). destruct (crash1_ok _ _ _ Hok Hc) as [Hok1 Hoff].
  pose proof (rename_ok _ _ _ _ Hok1 Hoff Hr) as Hlk. clear Hc Hr.
  apply bind_Ok in Hs as (la & _ & Hs). apply bind_Ok in Hs as (ps & _ & Hs).
  apply bind_Ok in Hs as ([p ob] & _ & Hs). apply bind_Ok in Hs as (rf & _ & Hs).
  apply bind_Ok in Hs as (saved & _ & Hs). apply bind_Ok in Hs as (rafts & _ & [= <-]).
  cbn. by apply links_ok_servers.
Qed.

Lemma perform_op_links o cfg cfg' :
  links_ok (cfg_links cfg) → perform_op o cfg = Ok cfg' → links_ok (cfg_links cfg').
Proof.
  intros Hok. destruct o as [i|i|i|i names srv now|i m]; cbn; intros Hp.
  - apply bind_Ok in Hp as (lk & Hc & [= <-]). by eapply connect_ok.
  - apply bind_Ok in Hp as (lk & Hc & [= <-]). by eapply disconnect_ok.
  - by eapply crash1_ok.
  - by eapply start1_ok.
  - apply bind_Ok in Hp as (ob & _ & [= <-]). done.
Qed.

(** C24. The tester's net: after any connects, disconnects, crashes and
    restarts, an end point is switched on exactly when it is the current one
    of a server on the net and leads to a server on the net; an end point of
    a crashed instance is never switched on again. *)
Theorem enabled_iff_connected n unreliable os cfg nm :
  perform_ops os (empty_config n unreliable) = Ok cfg →
  is_enabled (lk_net (cfg_links cfg)) nm = true ↔
  ∃ i j, endname_of (lk_endnames (cfg_links cfg)) i j = Ok nm ∧
    on_net (cfg_links cfg) i ∧ on_net (cfg_links cfg) j.
Proof.
  intros Hp. apply lo_enabled.
  eapply (perform_ops_inv (λ c, links_ok (cfg_links c))); [apply perform_op_links|done|apply empty_links_ok].
Qed.
End ConfigFacts.
