(* ===== verification/RaftChecks.v ===== *)
(** * What the raft tests check (src/src/raft/config.go)

    The checks of the tester on the peers and on the recorded logs:
    [checkOneLeader], [checkTerms], [checkNoLeader], [nCommitted], [wait] and
    [one].  A check that sleeps and looks again takes the configurations it
    sees as a list.  [apply_all] is the readers of all apply channels on a
    sequence of messages; [apply_all_accepts] says which sequences they accept.

    The checks meet the protocol here: [checkOneLeader] cannot find two
    leaders of a term in a cluster that counts votes in their own term
    ([one_leader_never_fails]), and the readers refuse the run in which a
    committed entry is lost ([lost_commit_detected]). *)
From S2P Require Import Prelude GoLib Labrpc Raft RaftPeer RaftElection ElectionSafety.
From S2P Require Import RaftTypes RaftReplication LogMatching ReplicationRuns Harness RaftConfig.
Local Open Scope Z_scope.

Section Checks.
Context {Cmd : Type} `{!Gob Cmd} `{!EqDecision Cmd} `{!SnapGob (Cmd := Cmd)}.
Local Abbreviation Raft := (Raft Cmd).
Local Abbreviation ApplyMsg := (ApplyMsg Cmd).
Local Abbreviation config := (config (Cmd := Cmd)).
Local Abbreviation observed := (observed (Cmd := Cmd)).
Implicit Types (cfg : config) (ob : observed).

(** ** Roles and terms *)

(** [cfg.rafts[i].GetState()]: nil panics. *)
Definition state_of (i : Z) cfg : outcome (Z * bool) :=
  rf ← go_index (cfg_rafts cfg) i;
  match rf with Some rf => Ok (GetState rf) | None => Panic end.

(** The body of a loop over the connected servers. *)
Definition on_connected {S} (i : Z) cfg (body : Z * bool → S → outcome S) (s : S) : outcome S :=
  c ← go_index (lk_connected (cfg_links cfg)) i;
  if c : bool then st ← state_of i cfg; body st s else Ok s.

(** [leaders[term]]: the connected servers that say they lead it. *)
Definition leaders_of cfg : outcome (gmap Z (list Z)) :=
  go_for (upto (lk_n (cfg_links cfg)))
    (λ i leaders, on_connected i cfg (λ '(term, leader) leaders,
       Ok (if leader : bool then <[term := map_get [] leaders term ++ [i]]> leaders else leaders)) leaders)
    ∅.

(** One look: the leader of the last term that has one.  The order in which Go
    walks the map does not matter. *)
Definition look_for_leader cfg : outcome (option Z) :=
  leaders ← leaders_of cfg;
  if existsb (λ '(_, ls), bool_decide (1 < go_len ls)) (map_to_list leaders) then Panic
  else
    let lastTermWithLeader := foldr Z.max (-1) (map_to_list leaders).*1 in
    if decide (leaders = ∅) then Ok None
    else l ← go_index (map_get [] leaders lastTermWithLeader) 0; Ok (Some l).

(** [views] are the configurations after each of the ten pauses. *)
Fixpoint checkOneLeader (views : list config) : outcome Z :=
  match views with
  | [] => Panic  (* expected one leader, got none *)
  | cfg :: views =>
      l ← look_for_leader cfg;
      match l with Some l => Ok l | None => checkOneLeader views end
  end.

Definition checkTerms cfg : outcome Z :=
  go_for (upto (lk_n (cfg_links cfg)))
    (λ i term, on_connected i cfg (λ '(xterm, _) term,
       if decide (term = -1) then Ok xterm
       else if decide (term ≠ xterm) then Panic else Ok term) term) (-1).

Definition checkNoLeader cfg : outcome unit :=
  go_for (upto (lk_n (cfg_links cfg)))
    (λ i u, on_connected i cfg (λ '(_, is_leader) u, if is_leader : bool then Panic else Ok u) u) tt.

(** ** Committed entries *)
Definition nCommitted (index : Z) ob : outcome (Z * option Cmd) :=
  go_for (upto (go_len (ob_logs ob)))
    (λ i '(count, cmd),
       err ← go_index (ob_applyErr ob) i;
       if decide (err ≠ EmptyString) then Panic
       else
         log ← go_index (ob_logs ob) i;
         match log !! index with
         | Some cmd1 =>
             if decide (0 < count ∧ cmd ≠ cmd1) then Panic else Ok (count + 1, cmd1)
         | None => Ok (count, cmd)
         end)
    (0, None).

(** What [wait] returns: the command, or -1 when a later term was seen. *)
Inductive waited := Committed (cmd : option Cmd) | MovedOn.

(** Some peer's term is later than [startTerm]. *)
Definition moved_on (startTerm : Z) cfg : outcome bool :=
  go_for (upto (go_len (cfg_rafts cfg)))
    (λ i b, if b : bool then Ok true
            else '(t, _) ← state_of i cfg; Ok (bool_decide (startTerm < t))) false.

(** Each round looks at the logs, sleeps and looks at the terms; [last] is the
    configuration at the end. *)
Fixpoint wait (index n startTerm : Z) (views : list (config * config)) (last : config)
    : outcome waited :=
  let finish :=
    '(nd, cmd) ← nCommitted index (cfg_seen last);
    if decide (nd < n) then Panic else Ok (Committed cmd) in
  match views with
  | [] => finish
  | (before, after) :: views =>
      '(nd, _) ← nCommitted index (cfg_seen before);
      if decide (n ≤ nd) then finish
      else
        moved ← (if decide (-1 < startTerm) then moved_on startTerm after else Ok false);
        if moved : bool then Ok MovedOn else wait index n startTerm views last
  end.

(** One turn of [one] over the servers: the first connected one that accepts
    the command.  [starts] is the rotating counter; [k] servers remain. *)
Fixpoint try_start (k : nat) (cmd : Cmd) (starts : Z) cfg : outcome (config * Z * Z) :=
  match k with
  | O => Ok (cfg, starts, -1)
  | S k =>
      let starts := (starts + 1) `rem` lk_n (cfg_links cfg) in
      c ← go_index (lk_connected (cfg_links cfg)) starts;
      rf ← (if c : bool then go_index (cfg_rafts cfg) starts else Ok None);
      match rf with
      | None => try_start k cmd starts cfg
      | Some rf =>
          let '(rf', (index, _, ok)) := Start cmd rf in
          rafts ← go_set (cfg_rafts cfg) starts (Some rf');
          let cfg := set_rafts rafts (cfg_saved cfg) cfg in
          if ok : bool then Ok (cfg, starts, index) else try_start k cmd starts cfg
      end
  end.

(** The two seconds of polling: [None] when the agreement is not seen. *)
Fixpoint poll (cmd : Cmd) (expectedServers index : Z) (views : list config) : outcome (option Z) :=
  match views with
  | [] => Ok None
  | cfg :: views =>
      '(nd, cmd1) ← nCommitted index (cfg_seen cfg);
      if decide (0 < nd ∧ expectedServers ≤ nd ∧ cmd1 = Some cmd) then Ok (Some index)
      else poll cmd expectedServers index views
  end.

(** [rounds] are the rounds that fit in ten seconds: the configuration at their
    start and what the polls see. *)
Fixpoint one (cmd : Cmd) (expectedServers : Z) (retry : bool) (starts : Z)
    (rounds : list (config * list config)) (finished : bool) : outcome Z :=
  match rounds with
  | [] => if finished then Ok (-1) else Panic
  | (cfg, views) :: rounds =>
      '(_, starts, index) ← try_start (Z.to_nat (lk_n (cfg_links cfg))) cmd starts cfg;
      if decide (index ≠ -1) then
        r ← poll cmd expectedServers index views;
        match r with
        | Some index => Ok index
        | None => if negb retry then Panic else one cmd expectedServers retry starts rounds finished
        end
      else one cmd expectedServers retry starts rounds finished
  end.

(** ** Statistics *)
Definition begin_test cfg : config :=
  {| cfg_links := cfg_links cfg; cfg_seen := cfg_seen cfg; cfg_rafts := cfg_rafts cfg;
     cfg_saved := cfg_saved cfg; cfg_finished := cfg_finished cfg;
     cfg_rpcs0 := rn_count (lk_net (cfg_links cfg)); cfg_cmds0 := 0;
     cfg_bytes0 := rn_bytes (lk_net (cfg_links cfg)); cfg_maxIndex0 := ob_maxIndex (cfg_seen cfg) |}.

(** The peers, messages, bytes and agreements that [end] prints. *)
Definition end_test cfg : Z * Z * Z * Z :=
  (lk_n (cfg_links cfg), rn_count (lk_net (cfg_links cfg)) - cfg_rpcs0 cfg,
   rn_bytes (lk_net (cfg_links cfg)) - cfg_bytes0 cfg, ob_maxIndex (cfg_seen cfg) - cfg_maxIndex0 cfg).

Definition LogSize cfg : outcome Z :=
  go_for (upto (lk_n (cfg_links cfg)))
    (λ i logsize,
       ps ← saved_of i cfg;
       match ps with
       | Some p => Ok (if decide (logsize < RaftStateSize p) then RaftStateSize p else logsize)
       | None => Panic
       end) 0.

(** The statistics and the switches of the tester. *)
Definition checkFinished (cfg : config) : bool := cfg_finished cfg.
Definition rpcCount (server : Z) (count_of : sptr → Z) (cfg : config) : outcome Z :=
  GetCount (SInt server) count_of (lk_net (cfg_links cfg)).
Definition rpcTotal (cfg : config) : Z := GetTotalCount (lk_net (cfg_links cfg)).
Definition bytesTotal (cfg : config) : Z := GetTotalBytes (lk_net (cfg_links cfg)).
Definition setunreliable (unrel : bool) (cfg : config) : config :=
  set_links (with_net (Reliable (negb unrel) (lk_net (cfg_links cfg))) (cfg_links cfg)) cfg.
Definition setlongreordering (longrel : bool) (cfg : config) : config :=
  set_links (with_net (LongReordering longrel (lk_net (cfg_links cfg))) (cfg_links cfg)) cfg.

Definition cleanup cfg : outcome config :=
  rn ← Cleanup (lk_net (cfg_links cfg));
  Ok {| cfg_links := with_net rn (cfg_links cfg); cfg_seen := cfg_seen cfg;
        cfg_rafts := (λ rf : option Raft, Kill <$> rf) <$> cfg_rafts cfg; cfg_saved := cfg_saved cfg;
        cfg_finished := true; cfg_rpcs0 := cfg_rpcs0 cfg; cfg_cmds0 := cfg_cmds0 cfg;
        cfg_bytes0 := cfg_bytes0 cfg; cfg_maxIndex0 := cfg_maxIndex0 cfg |}.

(** ** The readers *)
Fixpoint apply_all (msgs : list (Z * ApplyMsg)) ob : outcome observed :=
  match msgs with
  | [] => Ok ob
  | (i, m) :: msgs => ob ← applier i m ob; apply_all msgs ob
  end.

(** What the readers have recorded, in terms of the messages: an entry for
    each command message. *)
Definition sent (msgs : list (Z * ApplyMsg)) (i k : Z) (v : option Cmd) : Prop :=
  ∃ m, (i, m) ∈ msgs ∧ CommandValid m = true ∧ CommandIndex m = k ∧ Command m = v.

Definition fresh_observed (n : Z) : observed := cfg_seen (empty_config n false).

(** The sequences that are accepted: commands of the same index are equal,
    and each server's commands come in order. *)
Record consistent (n : Z) (msgs : list (Z * ApplyMsg)) : Prop := {
  cn_range : ∀ i k v, sent msgs i k v → 0 ≤ i < n;
  cn_same : ∀ i j k v w, sent msgs i k v → sent msgs j k w → v = w;
  cn_order : ∀ before i m after, msgs = before ++ (i, m) :: after → CommandValid m = true →
    1 < CommandIndex m → ∃ v, sent before i (CommandIndex m - 1) v;
}.

(** The logs hold what was sent. *)
Record recorded (n : Z) (msgs : list (Z * ApplyMsg)) ob : Prop := {
  rc_len : go_len (ob_logs ob) = Z.max 0 n;
  rc_log : ∀ i k v, (∃ log, go_index (ob_logs ob) i = Ok log ∧ log !! k = Some v) ↔ sent msgs i k v;
}.

Lemma sent_snoc msgs i m j k v :
  sent (msgs ++ [(i, m)]) j k v ↔
  sent msgs j k v ∨ j = i ∧ CommandValid m = true ∧ CommandIndex m = k ∧ Command m = v.
Proof.
  unfold sent. setoid_rewrite elem_of_app. setoid_rewrite list_elem_of_singleton. split.
  - intros (m' & [Hin|[= -> ->]] & Hm); [left; eauto|by right].
  - intros [(m' & Hin & Hm)|(-> & Hm)]; eauto.
Qed.

Lemma apply_all_app msgs msgs' ob :
  apply_all (msgs ++ msgs') ob = ob ← apply_all msgs ob; apply_all msgs' ob.
Proof.
  revert ob. induction msgs as [|[i m] msgs IH]; intros ob; [done|]. cbn.
  destruct (applier i m ob); cbn; [apply IH|done].
Qed.

Lemma conflicts_none ob k v :
  existsb (conflicts k v) (ob_logs ob) = false ↔
  ∀ i log w, go_index (ob_logs ob) i = Ok log → log !! k = Some w → w = v.
Proof.
  rewrite <-not_true_iff_false, existsb_exists. unfold conflicts. split.
  - intros Hno i log w [_ Hi]%go_index_Ok Hw. destruct (decide (w = v)) as [|Hne]; [done|].
    destruct Hno. exists log. split; [by eapply list_elem_of_In, list_elem_of_lookup_2|].
    by rewrite Hw, bool_decide_eq_false_2.
  - intros Hall (log & Hin%list_elem_of_In & Hc). destruct (log !! k) as [w|] eqn:Hw; [|done].
    apply list_elem_of_lookup_1 in Hin as (j & Hj).
    assert (w = v) as ->.
    { eapply (Hall (Z.of_nat j)); [|done]. apply go_index_Ok. rewrite Nat2Z.id. split; [lia|done]. }
    by rewrite bool_decide_eq_true_2 in Hc.
Qed.

(** When a message of server [i] may follow [msgs]. *)
Definition follows (n : Z) (msgs : list (Z * ApplyMsg)) (i : Z) (m : ApplyMsg) : Prop :=
  0 ≤ i < n ∧ (∀ j w, sent msgs j (CommandIndex m) w → w = Command m) ∧
  (1 < CommandIndex m → ∃ v, sent msgs i (CommandIndex m - 1) v).

Lemma applier_unfold i m ob log :
  CommandValid m = true → go_index (ob_logs ob) i = Ok log →
  applier i m ob =
    if existsb (conflicts (CommandIndex m) (Command m)) (ob_logs ob)
       || (bool_decide (1 < CommandIndex m) && negb (bool_decide (is_Some (log !! (CommandIndex m - 1)))))
    then Panic
    else
      let ob := ob_set_logs (<[Z.to_nat i := <[CommandIndex m := Command m]> log]> (ob_logs ob)) ob in
      Ok (if decide (ob_maxIndex ob < CommandIndex m) then ob_set_maxIndex (CommandIndex m) ob else ob).
Proof.
  intros Hv Hlog. unfold applier, checkLogs. rewrite Hv; cbn [negb]. rewrite Hlog; cbn.
  apply go_index_bound in Hlog as Hb. unfold go_set. by rewrite decide_True.
Qed.

Lemma recorded_insert n msgs i m ob log mx :
  recorded n msgs ob → CommandValid m = true → follows n msgs i m →
  go_index (ob_logs ob) i = Ok log →
  ob_logs mx = <[Z.to_nat i := <[CommandIndex m := Command m]> log]> (ob_logs ob) →
  recorded n (msgs ++ [(i, m)]) mx.
Proof.
  intros [Hlen Hlog] Hv (Hi & Hsame & _) Hil Hmx.
  assert (go_set (ob_logs ob) i (<[CommandIndex m := Command m]> log) = Ok (ob_logs mx)) as Hset.
  { apply go_set_Ok. split; [|done]. by apply go_index_bound in Hil. }
  split; [by rewrite (go_len_set _ _ _ _ Hset)|].
  intros j k v. rewrite sent_snoc, <-Hlog. setoid_rewrite (go_index_set _ _ _ _ _ Hset).
  case_decide as Hj; [subst j|].
  - split.
    + intros (log' & [= <-] & Hk). apply lookup_insert_Some in Hk as [[<- <-]|[Hne Hk]]; [by right|left; eauto].
    + intros [(log' & Hl' & Hk)|(_ & _ & <- & <-)]; eexists; (split; [done|]).
      * rewrite Hil in Hl'. injection Hl' as <-. destruct (decide (CommandIndex m = k)) as [<-|].
        -- rewrite lookup_insert_eq. f_equal. symmetry. eapply (Hsame i), Hlog. eauto.
        -- by rewrite lookup_insert_ne.
      * by rewrite lookup_insert_eq.
  - naive_solver.
Qed.

(** A command message is accepted exactly when it may follow. *)
Lemma applier_follows n msgs i m ob :
  recorded n msgs ob → CommandValid m = true →
  (∀ ob', applier i m ob = Ok ob' → follows n msgs i m ∧ recorded n (msgs ++ [(i, m)]) ob') ∧
  (follows n msgs i m → ∃ ob', applier i m ob = Ok ob').
Proof.
  intros Hrec Hv. pose proof Hrec as [Hlen Hlog].
  destruct (go_index (ob_logs ob) i) as [log|] eqn:Hil.
  2:{ split.
      - unfold applier, checkLogs. rewrite Hv; cbn [negb]. by rewrite Hil.
      - intros [Hi _]. apply go_index_Panic in Hil. lia. }
  assert (0 ≤ i < n) as Hi by (apply go_index_bound in Hil; lia).
  rewrite (applier_unfold i m ob log Hv Hil).
  assert (existsb (conflicts (CommandIndex m) (Command m)) (ob_logs ob) = false ↔
    ∀ j w, sent msgs j (CommandIndex m) w → w = Command m) as Hcf.
  { rewrite conflicts_none. setoid_rewrite <-Hlog. naive_solver. }
  assert (is_Some (log !! (CommandIndex m - 1)) ↔ ∃ v, sent msgs i (CommandIndex m - 1) v) as Hprev.
  { setoid_rewrite <-Hlog. rewrite Hil. split; [intros [v Hs]; eauto|].
    intros (v & l & [= <-] & Hs). eauto. }
  split.
  - intros ob' Ho. destruct (_ || _) eqn:Hb; [done|]. apply orb_false_iff in Hb as [Hc Ho'].
    assert (follows n msgs i m) as Hf.
    { split; [done|]. split; [by apply Hcf|]. intros Hk. apply Hprev.
      rewrite bool_decide_eq_true_2 in Ho' by done. by apply negb_false_iff, bool_decide_eq_true_1 in Ho'. }
    split; [done|]. cbv zeta in Ho. injection Ho as <-.
    eapply recorded_insert; [done..|]. by destruct (decide _).
  - intros (_ & Hs & Ho). rewrite (proj2 Hcf Hs). cbn [orb].
    destruct (bool_decide (1 < CommandIndex m)) eqn:Hk; cbn [andb]; [|eauto].
    apply bool_decide_eq_true_1 in Hk. rewrite bool_decide_eq_true_2; [cbn; eauto|]. by apply Hprev, Ho.
Qed.

Lemma recorded_fresh n : recorded n [] (fresh_observed n).
Proof.
  split; [unfold go_len; cbn; rewrite length_replicate; lia|].
  intros i k v. split.
  - intros (log & [_ Hl]%go_index_Ok & Hk). cbn in Hl. by apply lookup_replicate_1 in Hl as [-> _].
  - by intros (m & ?%not_elem_of_nil & _).
Qed.

Lemma consistent_snoc n msgs i m :
  consistent n (msgs ++ [(i, m)]) ↔
  consistent n msgs ∧ (CommandValid m = true → follows n msgs i m).
Proof.
  split.
  - intros [Hr Hs Ho]. split.
    + split.
      * intros j k v Hj. apply (Hr j k v), sent_snoc. by left.
      * intros j j' k v w H1 H2. apply (Hs j j' k); apply sent_snoc; by left.
      * intros before j m' after -> Hv Hk. apply (Ho before j m' (after ++ [(i, m)])); [|done..].
        by rewrite <-app_assoc.
    + intros Hv. split; [|split].
      * apply (Hr i (CommandIndex m) (Command m)), sent_snoc. by right.
      * intros j w Hw. apply (Hs j i (CommandIndex m)); apply sent_snoc; [by left|by right].
      * intros Hk. by apply (Ho msgs i m []).
  - intros [[Hr Hs Ho] Hf]. split.
    + intros j k v [Hj|(-> & Hv & _)]%sent_snoc; [by eapply Hr|]. by apply Hf.
    + intros j j' k v w [H1|(-> & Hv & Hk & <-)]%sent_snoc [H2|(-> & Hv' & Hk' & <-)]%sent_snoc.
      * by eapply Hs.
      * subst k. by apply (Hf Hv') in H1.
      * subst k. by apply (Hf Hv) in H2.
      * done.
    + intros before j m' after Heq Hv Hk.
      destruct after as [|a after _] using rev_ind.
      * apply app_inj_tail in Heq as [-> [= -> ->]]. by apply Hf.
      * rewrite app_comm_cons, app_assoc in Heq. apply app_inj_tail in Heq as [-> _].
        by eapply Ho.
Qed.

Lemma applier_other i m ob : CommandValid m = false → applier i m ob = Ok ob.
Proof. unfold applier. by intros ->. Qed.

Lemma recorded_other n msgs i m ob :
  CommandValid m = false → recorded n msgs ob → recorded n (msgs ++ [(i, m)]) ob.
Proof.
  intros Hv [Hl Hr]. split; [done|]. intros j k v. rewrite sent_snoc, Hr. naive_solver congruence.
Qed.

Lemma apply_all_recorded n msgs :
  (∀ ob, apply_all msgs (fresh_observed n) = Ok ob → consistent n msgs ∧ recorded n msgs ob) ∧
  (consistent n msgs → ∃ ob, apply_all msgs (fresh_observed n) = Ok ob).
Proof.
  induction msgs as [|[i m] msgs [IH1 IH2]] using rev_ind.
  { split; [|eauto]. intros ob [= <-]. split; [|apply recorded_fresh].
    split; [by intros i k v (m & ?%not_elem_of_nil & _)|by intros i j k v w (m & ?%not_elem_of_nil & _)|].
    intros before i m after Heq. by destruct before. }
  setoid_rewrite consistent_snoc. setoid_rewrite apply_all_app. split.
  - intros ob' Ha. apply bind_Ok in Ha as (ob & Hob & Ha). destruct (IH1 ob Hob) as [Hc Hr].
    apply bind_Ok in Ha as (ob1 & Ha & [= <-]).
    destruct (CommandValid m) eqn:Hv.
    + destruct (proj1 (applier_follows n msgs i m ob Hr Hv) ob1 Ha) as [Hf Hr1]. split; [|done]. split; [done|by intros _].
    + rewrite applier_other in Ha by done. injection Ha as <-.
      split; [done|]. by apply recorded_other.
  - intros [Hc Hf]. destruct (IH2 Hc) as [ob Hob]. rewrite Hob. cbn.
    destruct (IH1 ob Hob) as [_ Hr]. destruct (CommandValid m) eqn:Hv.
    + destruct (proj2 (applier_follows n msgs i m ob Hr Hv) (Hf eq_refl)) as [ob' ->]. cbn. eauto.
    + rewrite applier_other by done. cbn. eauto.
Qed.

(** C25. The readers of the apply channels accept a sequence of messages of [n]
    servers exactly when commands of the same index are equal, on whatever
    server, and each server's commands come in order: any other sequence ends
    the test. *)
Theorem apply_all_accepts n msgs :
  (∃ ob, apply_all msgs (fresh_observed n) = Ok ob) ↔ consistent n msgs.
Proof.
  split; [|apply apply_all_recorded]. intros [ob Hob]. by apply apply_all_recorded in Hob as [? _].
Qed.

(** *** [nCommitted] and [one] *)

(** The servers whose log has an entry at [index]. *)
Definition holds (index : Z) ob (i : Z) : Prop :=
  match go_index (ob_logs ob) i with Ok log => is_Some (log !! index) | Panic => False end.

#[local] Instance holds_dec index ob i : Decision (holds index ob i).
Proof. unfold holds. destruct (go_index _ _); apply _. Defined.

Definition holders (index : Z) ob : list Z := filter (holds index ob) (upto (go_len (ob_logs ob))).

(** All of them have [cmd] there. *)
Definition agreed (index : Z) ob (cmd : option Cmd) : Prop :=
  ∀ i log, go_index (ob_logs ob) i = Ok log → is_Some (log !! index) → log !! index = Some cmd.

Lemma nCommitted_spec index ob nd cmd :
  nCommitted index ob = Ok (nd, cmd) → nd = go_len (holders index ob) ∧ agreed index ob cmd.
Proof.
  intros Hn.
  apply (go_for_inv (λ ds '(count, cmd), count = go_len (filter (holds index ob) ds) ∧
    ∀ i log, i ∈ ds → go_index (ob_logs ob) i = Ok log → is_Some (log !! index) →
      log !! index = Some cmd)) in Hn.
  - destruct Hn as [-> Hall]. split; [done|]. intros i log Hi Hs. apply (Hall i); [|done..].
    apply go_index_bound in Hi. apply elem_of_seqZ. lia.
  - split; [done|]. by intros i log ?%not_elem_of_nil.
  - clear Hn nd cmd. intros ds i [count cmd] [count' cmd'] [-> Hall] _ Hb.
    apply bind_Ok in Hb as (err & _ & Hb). case_decide; [done|].
    apply bind_Ok in Hb as (log & Hlog & Hb). unfold go_len in *.
    rewrite filter_app, length_app. destruct (log !! index) as [cmd1|] eqn:Hk.
    + case_decide as Hc; [done|]. injection Hb as <- <-.
      assert (holds index ob i) as Hh by (unfold holds; rewrite Hlog; eauto).
      rewrite filter_cons_True by done. cbn. split; [lia|].
      intros j lj [Hj| ->%list_elem_of_singleton]%elem_of_app Hlj Hs; [|congruence].
      rewrite (Hall j lj Hj Hlj Hs). f_equal. destruct (decide (cmd = cmd1)) as [|Hne]; [done|].
      destruct Hc. split; [|done]. assert (j ∈ filter (holds index ob) ds) as Hin.
      { apply list_elem_of_filter. split; [|done]. unfold holds. by rewrite Hlj. }
      destruct (filter (holds index ob) ds); [by apply not_elem_of_nil in Hin|cbn; lia].
    + injection Hb as <- <-. assert (¬ holds index ob i) as Hh.
      { unfold holds. rewrite Hlog, Hk. by intros [? ?]. }
      rewrite filter_cons_False by done. cbn. split; [lia|].
      intros j lj [Hj| ->%list_elem_of_singleton]%elem_of_app Hlj Hs; [by eapply Hall|].
      rewrite Hlog in Hlj. injection Hlj as <-. rewrite Hk in Hs. by destruct Hs.
Qed.

Lemma poll_sound cmd expected index views index' :
  poll cmd expected index views = Ok (Some index') →
  index' = index ∧ ∃ cfg, cfg ∈ views ∧ agreed index (cfg_seen cfg) (Some cmd) ∧
    0 < go_len (holders index (cfg_seen cfg)) ∧ expected ≤ go_len (holders index (cfg_seen cfg)).
Proof.
  induction views as [|cfg views IH]; cbn; [done|]. intros Hp.
  apply bind_Ok in Hp as ([nd cmd1] & Hn & Hp). case_decide as Hd.
  - injection Hp as <-. apply nCommitted_spec in Hn as [-> Ha]. destruct Hd as (H1 & H2 & ->).
    split; [done|]. exists cfg. split_and!; try done. by left.
  - destruct (IH Hp) as [-> (c & Hc & Ha)]. split; [done|]. exists c. split; [by right|done].
Qed.

(** C35. [one] returns an index only after it has seen, in one look at the
    recorded logs, at least [expectedServers] servers, and at least one, with
    the command at that index and no server with another one. *)
Theorem one_agreement cmd expected retry starts rounds finished index :
  one cmd expected retry starts rounds finished = Ok index → index ≠ -1 →
  ∃ cfg views, (∃ cfg0, (cfg0, views) ∈ rounds) ∧ cfg ∈ views ∧
    agreed index (cfg_seen cfg) (Some cmd) ∧
    1 ≤ go_len (holders index (cfg_seen cfg)) ∧ expected ≤ go_len (holders index (cfg_seen cfg)).
Proof.
  revert starts. induction rounds as [|[cfg views] rounds IH]; intros starts; cbn.
  { destruct finished; [by intros [= <-]|done]. }
  intros Ho Hne. apply bind_Ok in Ho as ([[cfg1 starts1] ix] & _ & Ho).
  assert (∀ st, one cmd expected retry st rounds finished = Ok index →
    ∃ cfg0 views0, (∃ cfg1, (cfg1, views0) ∈ (cfg, views) :: rounds) ∧ cfg0 ∈ views0 ∧
      agreed index (cfg_seen cfg0) (Some cmd) ∧
      1 ≤ go_len (holders index (cfg_seen cfg0)) ∧ expected ≤ go_len (holders index (cfg_seen cfg0))) as Hlater.
  { intros st Hst. destruct (IH st Hst Hne) as (c & v & [c0 Hin] & Hrest). exists c, v.
    split; [exists c0; by right|done]. }
  case_decide; [|by eapply Hlater]. apply bind_Ok in Ho as ([ix'|] & Hp & Ho).
  - injection Ho as <-. apply poll_sound in Hp as [-> (c & Hc & Ha & H0 & He)].
    exists c, views. split; [exists cfg; by left|]. split_and!; try done. lia.
  - destruct retry; cbn in Ho; [by eapply Hlater|done].
Qed.

(** *** [checkOneLeader] *)

(** Server [i] is on the net and says it leads term [t]. *)
Definition leads cfg (t i : Z) : Prop :=
  on_net (cfg_links cfg) i ∧ state_of i cfg = Ok (t, true).

#[local] Instance leads_dec cfg t i : Decision (leads cfg t i).
Proof. unfold leads, on_net. apply _. Defined.

(** The servers that lead [t], in order. *)
Definition leading cfg (t : Z) : list Z := filter (leads cfg t) (upto (lk_n (cfg_links cfg))).

Definition leaders_are cfg (ds : list Z) (M : gmap Z (list Z)) : Prop :=
  ∀ t, map_get [] M t = filter (leads cfg t) ds ∧ M !! t ≠ Some [].

Lemma leaders_are_same cfg ds i M :
  (∀ t, ¬ leads cfg t i) → leaders_are cfg ds M → leaders_are cfg (ds ++ [i]) M.
Proof.
  intros Hno HM t. destruct (HM t) as [-> Hne]. split; [|done].
  by rewrite filter_app, (filter_cons_False _ i), app_nil_r by apply Hno.
Qed.

Lemma leaders_are_insert cfg ds i t M :
  leads cfg t i → leaders_are cfg ds M →
  leaders_are cfg (ds ++ [i]) (<[t := map_get [] M t ++ [i]]> M).
Proof.
  intros Hl HM t'. rewrite filter_app. destruct (HM t') as [Ht' Hne]. unfold map_get.
  destruct (decide (t' = t)) as [->|Htt].
  - rewrite lookup_insert_eq, (filter_cons_True _ i) by done. cbn. split.
    + f_equal. exact Ht'.
    + intros [= He]. by destruct (default [] (M !! t)).
  - rewrite lookup_insert_ne, (filter_cons_False _ i), app_nil_r by
      (try done; intros [_ He]; destruct Hl as [_ He']; congruence).
    done.
Qed.

(** One turn of the loop. *)
Lemma leaders_turn cfg i M M' ds :
  leaders_are cfg ds M →
  on_connected i cfg (λ '(term, leader) leaders,
    Ok (if leader : bool then <[term := map_get [] leaders term ++ [i]]> leaders else leaders)) M = Ok M' →
  leaders_are cfg (ds ++ [i]) M'.
Proof.
  intros HM Ho. apply bind_Ok in Ho as (c & Hc & Ho). destruct c.
  - apply bind_Ok in Ho as ([t b] & Hst & [= <-]). destruct b.
    + apply leaders_are_insert; [by split|done].
    + apply leaders_are_same; [|done]. intros t' [_ Hst']. congruence.
  - injection Ho as <-. apply leaders_are_same; [|done]. intros t [Hon _]. unfold on_net in Hon. congruence.
Qed.

Lemma leaders_of_spec cfg M :
  leaders_of cfg = Ok M → leaders_are cfg (upto (lk_n (cfg_links cfg))) M.
Proof.
  intros HM. apply (go_for_inv (leaders_are cfg)) in HM; [done| |].
  - intros t. by rewrite lookup_empty.
  - intros ds i M1 M2 H1 _ Hb. by eapply leaders_turn.
Qed.

Lemma leaders_lookup cfg M t ls :
  leaders_of cfg = Ok M → M !! t = Some ls ↔ ls = leading cfg t ∧ ls ≠ [].
Proof.
  intros HM. destruct (leaders_of_spec cfg M HM t) as [Ht Hne]. unfold map_get in Ht. unfold leading.
  rewrite <-Ht. destruct (M !! t) as [ls'|]; cbn; split.
  - intros [= ->]. split; [done|]. intros ->. done.
  - by intros [-> _].
  - done.
  - by intros [-> ?].
Qed.

Lemma max_term_spec (ts : list Z) t : t ∈ ts → t ≤ foldr Z.max (-1) ts.
Proof. induction ts as [|t' ts IH]; [by intros ?%not_elem_of_nil|]. intros [->|Ht]%elem_of_cons; cbn; [lia|].
  apply IH in Ht. lia. Qed.

Lemma max_term_in (ts : list Z) : ts ≠ [] → (∀ t, t ∈ ts → -1 ≤ t) → foldr Z.max (-1) ts ∈ ts.
Proof.
  induction ts as [|t ts IH]; [done|]. intros _ Hge. cbn.
  destruct ts as [|t' ts]; cbn in *.
  - rewrite Z.max_l; [by left|]. apply Hge. by left.
  - destruct (Z.max_spec t (t' `max` foldr Z.max (-1) ts)) as [[_ ->]|[_ ->]]; [|by left].
    right. apply IH; [done|]. intros t0 Ht0. apply Hge. by right.
Qed.

(** At most one leader per term passes the check. *)
Lemma no_term_twice cfg M :
  leaders_of cfg = Ok M → (∀ t i j, leads cfg t i → leads cfg t j → i = j) →
  existsb (λ '(_, ls), bool_decide (1 < go_len ls)) (map_to_list M) = false.
Proof.
  intros HM Huniq. apply not_true_iff_false. intros Hex.
  apply existsb_exists in Hex as ([t ls] & Hin%list_elem_of_In%elem_of_map_to_list & Hlen%bool_decide_eq_true_1).
  apply (leaders_lookup _ _ _ _ HM) in Hin as [-> _].
  assert (NoDup (leading cfg t)) as Hnd by apply NoDup_filter, NoDup_seqZ.
  assert (∀ i, i ∈ leading cfg t → leads cfg t i) as Hall by (by intros i [? _]%list_elem_of_filter).
  destruct (leading cfg t) as [|i [|j ls]]; [done|done|].
  apply NoDup_cons in Hnd as [Hnot _]. apply Hnot.
  rewrite (Huniq t i j) by (apply Hall; set_solver). by left.
Qed.

(** The last term with a leader has one. *)
Lemma last_leader cfg M :
  leaders_of cfg = Ok M → M ≠ ∅ → (∀ t i, leads cfg t i → -1 ≤ t) →
  ∃ l ls, go_index (map_get [] M (foldr Z.max (-1) (map_to_list M).*1)) 0 = Ok l ∧
    leading cfg (foldr Z.max (-1) (map_to_list M).*1) = l :: ls.
Proof.
  intros HM Hemp Hge. set (t := foldr Z.max (-1) (map_to_list M).*1) in *.
  assert (t ∈ (map_to_list M).*1) as Hin.
  { apply max_term_in.
    - intros He%fmap_nil_inv. apply Hemp. by apply map_to_list_empty_iff.
    - intros t' ([t0 ls] & -> & Hls%elem_of_map_to_list)%list_elem_of_fmap. cbn.
      apply (leaders_lookup _ _ _ _ HM) in Hls as [-> Hne].
      destruct (leading cfg t0) as [|i ls] eqn:Hlead; [done|].
      assert (i ∈ leading cfg t0) as [Hi _]%list_elem_of_filter by (rewrite Hlead; by left).
      by eapply Hge. }
  apply list_elem_of_fmap in Hin as ([t0 ls] & -> & Hls%elem_of_map_to_list). cbn.
  unfold map_get. rewrite Hls. apply (leaders_lookup _ _ _ _ HM) in Hls as [-> Hne].
  destruct (leading cfg t0) as [|l ls]; [done|]. by exists l, ls.
Qed.

(** When a look finds a leader, it is a server on the net that leads a
    term, every leader on the net has that term or an earlier one, and no
    term has two. *)
Theorem look_for_leader_spec cfg l :
  look_for_leader cfg = Ok (Some l) → (∀ t i, leads cfg t i → -1 ≤ t) →
  ∃ t, leads cfg t l ∧ (∀ t' l', l' ∈ leading cfg t' → t' ≤ t) ∧
    ∀ t', go_len (leading cfg t') ≤ 1.
Proof.
  intros Hl Hge. apply bind_Ok in Hl as (M & HM & Hl).
  destruct (existsb _ _) eqn:Hex; [done|]. case_decide as Hemp; [done|].
  destruct (last_leader cfg M HM Hemp Hge) as (l1 & ls & Hix & Hlead). cbv zeta in Hl. rewrite Hix in Hl.
  injection Hl as ->. exists (foldr Z.max (-1) (map_to_list M).*1). split; [|split].
  - assert (l ∈ leading cfg (foldr Z.max (-1) (map_to_list M).*1)) as [Hll _]%list_elem_of_filter
      by (rewrite Hlead; by left).
    done.
  - intros t' l' Hl'. apply max_term_spec, list_elem_of_fmap. exists (t', leading cfg t'). split; [done|].
    apply elem_of_map_to_list, (leaders_lookup _ _ _ _ HM). split; [done|].
    intros He. rewrite He in Hl'. by apply not_elem_of_nil in Hl'.
  - intros t'. destruct (decide (1 < go_len (leading cfg t'))) as [Hgt|]; [|lia].
    apply not_true_iff_false in Hex. destruct Hex. apply existsb_exists.
    exists (t', leading cfg t'). split; [|by apply bool_decide_eq_true_2].
    apply list_elem_of_In, elem_of_map_to_list, (leaders_lookup _ _ _ _ HM). split; [done|].
    intros He. by rewrite He in Hgt.
Qed.

(** A configuration that watches a cluster: the same servers, all running. *)
Record watches cfg (s : cluster Cmd) : Prop := {
  wt_n : lk_n (cfg_links cfg) = size s;
  wt_conn : go_len (lk_connected (cfg_links cfg)) = size s;
  wt_rafts : ∀ i, 0 ≤ i < size s → ∃ rf, nodes s !! i = Some rf ∧ go_index (cfg_rafts cfg) i = Ok (Some rf);
}.

Lemma watches_leads cfg s t i :
  watches cfg s → leads cfg t i →
  ∃ rf, nodes s !! i = Some rf ∧ role rf = Leader ∧ currentTerm rf = t.
Proof.
  intros Hw [Hon Hst]. unfold on_net in Hon. apply go_index_bound in Hon. rewrite (wt_conn _ _ Hw) in Hon.
  destruct (wt_rafts _ _ Hw i Hon) as (rf & Hi & Hrf). exists rf. split; [done|].
  unfold state_of in Hst. rewrite Hrf in Hst. cbn in Hst. injection Hst as <- Hr.
  split; [|done]. by apply bool_decide_eq_true_1 in Hr.
Qed.

Lemma leaders_of_total cfg s : watches cfg s → ∃ M, leaders_of cfg = Ok M.
Proof.
  intros Hw. destruct (go_for_total (λ _ _, True) (upto (lk_n (cfg_links cfg)))
    (λ i leaders, on_connected i cfg (λ '(term, leader) leaders,
       Ok (if leader : bool then <[term := map_get [] leaders term ++ [i]]> leaders else leaders)) leaders) ∅)
    as (M & HM & _); [done| |by exists M].
  intros ds i M _ Hi%elem_of_seqZ. rewrite (wt_n _ _ Hw) in Hi.
  destruct (go_index_in_range (lk_connected (cfg_links cfg)) i) as [c Hc]; [rewrite (wt_conn _ _ Hw); lia|].
  destruct (wt_rafts _ _ Hw i) as (rf & _ & Hrf); [lia|].
  unfold on_connected, state_of. rewrite Hc; cbn. destruct c; [|eauto]. rewrite Hrf; cbn. eauto.
Qed.

(** In a cluster whose peers count votes in the term they were asked for,
    a look of [checkOneLeader] never finds two leaders of a term, and never
    panics, whoever is on the net. *)
Theorem one_leader_never_fails n tr s cfg :
  run (cluster_step same_term saved_crash local_step) (cluster_init n) tr s → watches cfg s →
  ∃ o, look_for_leader cfg = Ok o.
Proof.
  intros Hr Hw. destruct (leaders_of_total cfg s Hw) as [M HM].
  assert (inv s) as Hinv by (eapply (run_invariant _ inv); [apply winv_step|done|apply winv_init]).
  assert (terms_ok s) as Hterms by (eapply (run_invariant _ terms_ok); [apply terms_step|done|apply terms_init]).
  assert (∀ t i j, leads cfg t i → leads cfg t j → i = j) as Huniq.
  { intros t i j Hi Hj. destruct (watches_leads _ _ _ _ Hw Hi) as (rfi & Hni & Hri & <-).
    destruct (watches_leads _ _ _ _ Hw Hj) as (rfj & Hnj & Hrj & Htj).
    eapply won_unique; [done|by apply (inv_leader _ Hinv)|]. rewrite <-Htj. by apply (inv_leader _ Hinv). }
  unfold look_for_leader. rewrite HM; cbn. rewrite (no_term_twice _ _ HM Huniq).
  case_decide as Hemp; [eauto|].
  destruct (last_leader cfg M HM Hemp) as (l & ls & Hix & _); [|rewrite Hix; cbn; eauto].
  intros t i Hl. destruct (watches_leads _ _ _ _ Hw Hl) as (rf & Hi & _ & <-). destruct (Hterms _ _ Hi). lia.
Qed.
End Checks.

(** ** Runs that the checks see *)
Section Scenario.
Local Instance z_gob : Gob Z := countable_Gob Z.

Definition countable_SnapGob : SnapGob (Cmd := Z).
Proof.
  refine {| snap_encode := λ x, [Z.pos (encode x)];
            snap_decode := λ data, match data with [Z.pos p] => decode p | _ => None end |}.
  - intros x. by rewrite decode_encode.
  - done.
Defined.
Local Existing Instance countable_SnapGob.

(** The readers refuse the run in which a committed entry is lost: the
    messages that [reordered_append_loses_commit] sends end the test. *)
Theorem lost_commit_detected :
  ∃ (s : rcluster Z) tr,
    run (repl_step same_term saved_crash while_leader) (repl_init 3) tr s ∧
    apply_all tr (fresh_observed 3) = Panic.
Proof.
  destruct (rexec_all while_leader (delayed_heartbeat ++ commit_of_0 ++ late_arrival ++
              second_leader ++ commit_of_2) (repl_init 3)) as [[tr s]|] eqn:Hr;
    [|by vm_compute in Hr].
  exists s, tr. split; [by eapply rexec_all_sound|]. vm_compute in Hr. injection Hr as <- _. by vm_compute.
Qed.

(** Three servers, all started and connected. *)
Definition three : outcome (config (Cmd := Z)) :=
  make_config 3 false (λ i j, pretty i +:+ "-" +:+ pretty j) (λ i, Z.to_pos (i + 1)) 0.

(** The same by single operations, with server 1 off the net again. *)
Definition three_ops : list (op (Cmd := Z)) :=
  ((λ i, OStart i (λ j, pretty i +:+ "-" +:+ pretty j) (Z.to_pos (i + 1)) 0) <$> seqZ 0 3) ++
  (OConnect <$> seqZ 0 3) ++ [ODisconnect 1].

Lemma enabled_iff_connected_witness :
  ∃ cfg : config (Cmd := Z), perform_ops three_ops (empty_config 3 false) = Ok cfg ∧
    (is_enabled (lk_net (cfg_links cfg)) "0-2" = true ↔
     ∃ i j, endname_of (lk_endnames (cfg_links cfg)) i j = Ok "0-2" ∧
       on_net (cfg_links cfg) i ∧ on_net (cfg_links cfg) j) ∧
    is_enabled (lk_net (cfg_links cfg)) "0-2" = true ∧
    is_enabled (lk_net (cfg_links cfg)) "0-1" = false.
Proof.
  destruct (perform_ops three_ops (empty_config 3 false)) as [cfg|] eqn:Hc; [|by vm_compute in Hc].
  exists cfg. split; [reflexivity|]. split; [exact (enabled_iff_connected 3 false three_ops cfg "0-2" Hc)|].
  vm_compute in Hc. injection Hc as <-. by vm_compute.
Defined.

Definition from_three (f : config (Cmd := Z) → config (Cmd := Z)) : config (Cmd := Z) :=
  match three with Ok cfg => f cfg | Panic => empty_config 0 false end.

(** Server 1 leads; later two servers have recorded command 7 at index 1. *)
Definition leader_1 : config (Cmd := Z) :=
  from_three (λ cfg, set_rafts (match cfg_rafts cfg with
    | [r0; Some r1; r2] => [r0; Some (set_role Leader r1); r2] | rs => rs end) (cfg_saved cfg) cfg).
Definition recorded_7 : config (Cmd := Z) :=
  from_three (λ cfg,
    let m := command_msg 1 {| le_Term := 1; le_Command := Some 7 |} in
    match apply_all [(1, m); (0, m)] (cfg_seen cfg) with Ok ob => set_seen ob cfg | Panic => cfg end).

Lemma one_agreement_witness :
  one 7 2 true 0 [(leader_1, [leader_1; recorded_7])] false = Ok 1 ∧
  ∃ cfg views, (∃ cfg0, (cfg0, views) ∈ [(leader_1, [leader_1; recorded_7])]) ∧ cfg ∈ views ∧
    agreed 1 (cfg_seen cfg) (Some 7) ∧
    1 ≤ go_len (holders 1 (cfg_seen cfg)) ∧ 2 ≤ go_len (holders 1 (cfg_seen cfg)).
Proof.
  split; [by vm_compute|].
  exact (one_agreement 7 2 true 0 [(leader_1, [leader_1; recorded_7])] false 1
           ltac:(by vm_compute) ltac:(discriminate)).
Defined.

(** The tester watches the cluster in which 0 was elected. *)
Definition elected : cluster Z := after elected_once (cluster_init 3).
Definition watching : config (Cmd := Z) :=
  from_three (λ cfg, set_rafts [nodes elected !! 0; nodes elected !! 1; nodes elected !! 2] (cfg_saved cfg) cfg).

Lemma watching_watches : watches watching elected.
Proof.
  split; [by vm_compute|by vm_compute|]. intros i Hi. change (size elected) with 3 in Hi.
  assert (i = 0 ∨ i = 1 ∨ i = 2) as [->|[->| ->]] by lia; eexists; by vm_compute.
Qed.

Lemma one_leader_never_fails_witness : ∃ o, look_for_leader watching = Ok o.
Proof.
  apply (one_leader_never_fails 3 [] elected); [|exact watching_watches].
  apply after_run. vm_compute. by eexists.
Defined.

Lemma watching_terms t i : leads watching t i → -1 ≤ t.
Proof.
  intros Hl. destruct (watches_leads _ _ _ _ watching_watches Hl) as (rf & Hi & _ & <-).
  assert (terms_ok elected) as Hok.
  { eapply (run_invariant _ terms_ok); [apply (terms_step same_term saved_crash)| |apply terms_init].
    apply after_run. vm_compute. by eexists. }
  destruct (Hok i rf Hi). lia.
Qed.

Lemma look_for_leader_spec_witness :
  look_for_leader watching = Ok (Some 0) ∧
  ∃ t, leads watching t 0 ∧ (∀ t' l', l' ∈ leading watching t' → t' ≤ t) ∧
    ∀ t', go_len (leading watching t') ≤ 1.
Proof.
  split; [by vm_compute|].
  exact (look_for_leader_spec watching 0 ltac:(by vm_compute) watching_terms).
Defined.
End Scenario.
