(* ===== verification/RaftAccepted.v ===== *)
(** * Raft: the tester accepts an orderly cluster

    The messages that an [orderly] cluster sends to its services, against the
    readers of src/src/raft/config.go: [readers_accept], in every run the
    readers of [RaftChecks] accept all of them.  That commands of the same
    index agree is state machine safety ([CommitSafety]); that each server's
    commands come in order is the invariant of this file, [in_order]: what a
    peer has applied it has sent, and each of its deliveries, which may overlap,
    goes on from something it has sent. *)
From S2P Require Import Prelude GoLib Labrpc Raft RaftPeer RaftElection ElectionSafety RaftTypes.
From S2P Require Import RaftReplication LogMatching ReplicationRuns.
From S2P Require Import CommitWorld CommitPeer CommitElection CommitInvariant CommitSafety.
From S2P Require Import Harness RaftConfig RaftChecks.
Local Open Scope Z_scope.

Section Accepted.
Context {Cmd : Type} `{!Gob Cmd} `{!EqDecision Cmd} `{!SnapGob (Cmd := Cmd)}.
Local Abbreviation Raft := (Raft Cmd).
Local Abbreviation rcluster := (rcluster Cmd).
Local Abbreviation ApplyMsg := (ApplyMsg Cmd).
Local Abbreviation trace := (list (Z * ApplyMsg)).
Implicit Types (rf : Raft) (s : rcluster) (tr : trace) (msgs : list ApplyMsg).

(** ** What a step does to [lastApplied] *)
Lemma convertRole_applied r rf rf' sp : convertRole r rf = Ok (rf', sp) → lastApplied rf' = lastApplied rf.
Proof. intros Hc. by apply convertRole_log in Hc as (_ & _ & ? & _). Qed.

Lemma append_log_applied args rf rf' reply sp :
  append_log args rf = Ok (rf', reply, sp) → lastApplied rf' = lastApplied rf.
Proof.
  unfold append_log. case_decide; [by intros [= <- <- <-]|].
  clear. intros H. apply bind_Ok in H as ([t|] & _ & H); apply bind_Ok in H as (x & _ & H).
  - by injection H as <- <- <-.
  - case_decide; by injection H as <- <- <-.
Qed.

Lemma AppendEntries_applied now args rf rf' reply sp :
  AppendEntries now args rf = Ok (rf', reply, sp) → lastApplied rf' = lastApplied rf.
Proof.
  unfold AppendEntries. case_decide; [by intros [= <- <- <-]|].
  intros Ha. apply bind_Ok in Ha as ([rf1 sp1] & Hc & Ha).
  apply bind_Ok in Ha as ([[rf2 reply2] sp2] & Happ & [= <- <- <-]).
  apply convertRole_applied in Hc. apply append_log_applied in Happ. cbn. rewrite Happ.
  by case_decide.
Qed.

Lemma Make_applied n i (ps : Persister) now rf' :
  Make n i ps now = Ok rf' → lastIncludedIndex rf' = 0 → lastApplied rf' = 0.
Proof.
  unfold Make, readPersist. case_decide as Hd; intros H.
  - cbn in H. injection H as <-. unfold readSnapshotPersist. by case_decide.
  - destruct (gob_decode _) as [[[[[? ?] ?] ?] ?]|]; [|done]. cbn in H. injection H as <-.
    unfold readSnapshotPersist. by case_decide.
Qed.

(** An item changes it when a message has been taken from the channel. *)
Lemma perform_applied G now p rf rf' ps ev :
  LogMatching.peer_ok G rf → item_ok G p → perform now p rf = Ok (rf', ps, ev) →
  lastApplied rf' = lastApplied rf ∨
  ∃ i msg msgs, p = TApplied i msg msgs ∧ lastApplied rf' = CommandIndex msg.
Proof.
  intros Hok Hp Hpf.
  destruct p as [i j|i j args snap|live i j args|i j args reply|i j|i j args|live i j args|i j args reply
    |i|i|i [|msg msgs]|i msg msgs|i msg|i t c|i]; cbn in Hp, Hpf; try done;
    try (injection Hpf as <- <- <-; by left).
  - apply bind_Ok in Hpf as ([args snap] & _ & [= <- <- <-]). by left.
  - apply bind_Ok in Hpf as ([[rf1 reply] sp] & Ha & [= <- <- <-]). left. by eapply AppendEntries_applied.
  - apply bind_Ok in Hpf as ([rf1 sp] & Ha & [= <- <- <-]). left. by apply handleAppendEntries_log in Ha as [].
  - apply bind_Ok in Hpf as ([[rf1 reply] sp] & Ha & [= <- <- <-]). left.
    apply InstallSnapshot_log in Ha as [[] _]; [done|]. rewrite Hp, (po_index _ _ Hok). lia.
  - apply bind_Ok in Hpf as ([rf1 sp] & Ha & [= <- <- <-]). left. by apply handleInstallSnapshot_log in Ha as [].
  - apply bind_Ok in Hpf as (r & _ & [= <- <- <-]). by left.
  - injection Hpf as <- <- <-. right. eauto.
Qed.

(** ** Deliveries in order *)

(** Commands of consecutive indices from [k] on. *)
Fixpoint in_order (k : Z) msgs : Prop :=
  match msgs with
  | [] => True
  | m :: msgs => CommandValid m = true ∧ CommandIndex m = k ∧ in_order (k + 1) msgs
  end.

(** [i] has sent index [k], or there is nothing before it. *)
Definition reached tr (i k : Z) : Prop := k ≤ 0 ∨ ∃ v, RaftChecks.sent tr i k v.

Definition item_order tr (p : pending Cmd) : Prop :=
  match p with
  | TDeliver i msgs => ∃ k, reached tr i k ∧ in_order (k + 1) msgs
  | TApplied i msg msgs =>
      RaftChecks.sent tr i (CommandIndex msg) (Command msg) ∧ in_order (CommandIndex msg + 1) msgs
  | _ => True
  end.

Record ordered tr s : Prop := {
  or_peer : ∀ i rf, nodes (base s) !! i = Some rf → reached tr i (lastApplied rf);
  or_item : ∀ p, p ∈ items s → item_order tr p;
}.

Lemma reached_app tr tr' i k : reached tr i k → reached (tr ++ tr') i k.
Proof.
  intros [?|(v & m & Hin & Hm)]; [by left|right]. exists v, m. split; [|done]. apply elem_of_app. by left.
Qed.

Lemma item_order_app tr tr' p : item_order tr p → item_order (tr ++ tr') p.
Proof.
  destruct p; cbn; try done.
  - intros (k & Hk & ?). exists k. split; [by apply reached_app|done].
  - intros [(m & Hin & Hm) ?]. split; [|done]. exists m. split; [|done]. apply elem_of_app. by left.
Qed.

Lemma applyLogs_in_order rf msgs :
  applyLogs rf = Ok (Some msgs) → in_order (lastApplied rf + 1) msgs.
Proof.
  unfold applyLogs. case_decide; [done|]. case_decide; [by intros [= <-]|].
  intros Hm. apply bind_Ok in Hm as (msgs' & Hm & [= ->]). apply mapM_Ok_inv in Hm.
  revert Hm. generalize (commitIndex rf - lastApplied rf). generalize (lastApplied rf + 1).
  induction msgs as [|m msgs IH]; intros k c Hm; [done|].
  destruct (decide (0 < c)) as [Hc|]; [|by rewrite seqZ_nil in Hm by lia; inversion Hm].
  rewrite seqZ_cons in Hm by lia. apply Forall2_cons in Hm as [Hf Hm].
  apply fmap_Ok in Hf as (e & _ & <-). cbn. split_and!; [done|done|]. by eapply IH.
Qed.

Lemma spawned_order tr i sp : Forall (item_order tr) (spawned i sp).
Proof. apply Forall_bind, Forall_forall. intros [] _; cbn; by repeat constructor. Qed.

Lemma answered_order tr (live : bool) q i sp :
  item_order tr q → Forall (item_order tr) ((if live then [q] else []) ++ spawned i sp).
Proof. intros Hq. apply Forall_app. split; [destruct live; by repeat constructor|apply spawned_order]. Qed.

(** What an item leaves behind goes on from what has been sent. *)
Lemma perform_order G tr now p rf rf' ps ev :
  LogMatching.peer_ok G rf → item_ok G p →
  reached tr (site p) (lastApplied rf) → item_order tr p → perform now p rf = Ok (rf', ps, ev) →
  Forall (item_order (tr ++ option_list ev)) ps.
Proof.
  intros Hok Hit Hla Hp Hpf.
  destruct p as [i j|i j args snap|live i j args|i j args reply|i j|i j args|live i j args|i j args reply
    |i|i|i [|msg msgs]|i msg msgs|i msg|i t c|i]; cbn in Hit, Hla, Hp, Hpf; try done;
    try (injection Hpf as <- <- <-; repeat case_match; by repeat constructor).
  - apply bind_Ok in Hpf as ([args snap] & _ & [= <- <- <-]). by repeat constructor.
  - apply bind_Ok in Hpf as ([[rf1 reply] sp] & _ & [= <- <- <-]). by apply answered_order.
  - apply bind_Ok in Hpf as ([rf1 sp] & _ & [= <- <- <-]). apply spawned_order.
  - apply bind_Ok in Hpf as ([[rf1 reply] sp] & _ & [= <- <- <-]). by apply answered_order.
  - apply bind_Ok in Hpf as ([rf1 sp] & _ & [= <- <- <-]). apply spawned_order.
  - apply bind_Ok in Hpf as (r & Ha & [= <- <- <-]).
    destruct (applyLogs_items _ _ _ Hok Ha) as (msgs & -> & _). constructor; [|constructor].
    exists (lastApplied rf). split; [by apply reached_app|by apply applyLogs_in_order].
  - injection Hpf as <- <- <-. destruct Hp as (k & _ & Hv & <- & Hm). constructor; [|constructor].
    split; [|done]. exists msg. split; [|done]. apply elem_of_app. right. by left.
  - injection Hpf as <- <- <-. destruct Hp as [Hs Hm]. constructor; [|constructor].
    exists (CommandIndex msg). split; [|done]. apply reached_app. right. eauto.
Qed.

Lemma perform_event now p rf rf' ps i m :
  perform now p rf = Ok (rf', ps, Some (i, m)) →
  i = site p ∧ ((∃ msgs, p = TDeliver i (m :: msgs)) ∨ p = TMsg i m).
Proof.
  destruct p as [| | | | | | | | | |i0 [|msg msgs]| | | |]; cbn; intros Hpf;
    repeat match goal with H : _ ≫= _ = Ok _ |- _ => apply bind_Ok in H as (? & ? & ?) end;
    repeat match goal with x : _ * _ |- _ => destruct x end; simplify_eq; eauto.
Qed.

(** The message is the next one of its server. *)
Definition next_of tr s (ev : option (Z * ApplyMsg)) : Prop :=
  match ev with
  | Some (i, m) => is_Some (nodes (base s) !! i) ∧
      (1 < CommandIndex m → ∃ v, RaftChecks.sent tr i (CommandIndex m - 1) v)
  | None => True
  end.

Lemma ordered_same tr s its :
  ordered tr s → (∀ p, p ∈ its → p ∈ items s ∨ item_order tr p) →
  ordered tr {| base := base s; items := its |}.
Proof. intros [H1 H2] Hits. split; [done|]. intros p [Hp|Hp]%Hits; [by apply H2|done]. Qed.

Lemma ordered_set tr ev s i rf' its :
  ordered tr s → reached (tr ++ option_list ev) i (lastApplied rf') →
  (∀ p, p ∈ its → p ∈ items s ∨ item_order (tr ++ option_list ev) p) →
  ordered (tr ++ option_list ev) {| base := set_node i rf' (base s); items := its |}.
Proof.
  intros [H1 H2] Hr Hits. split; cbn.
  - intros j rfj [[<- <-]|[_ Hj]]%lookup_insert_Some; [done|]. by apply reached_app, H1.
  - intros p [Hp|Hp]%Hits; [by apply item_order_app, H2|done].
Qed.

Lemma ordered_election G tr s l b' :
  known G s → cluster_step same_term saved_crash no_local (base s) l b' → ordered tr s →
  ordered tr {| base := b'; items := match l with Some i => items s ≫= orphan i | None => items s end |}.
Proof.
  intros Hk Hstep [H1 H2]. split; cbn.
  - intros i rf' Hi. destruct (election_peer _ _ _ _ _ _ _ Hstep Hi) as (rf & Hrf & [[Hlf _]|[now HM]]).
    + rewrite (lf_applied _ _ Hlf). by apply H1.
    + left. pose proof (Make_ok _ _ _ _ _ _ (to_root _ _ (kn_tree _ _ Hk)) (item_peer _ _ _ _ Hk Hrf) HM) as [_ Hix _ _].
      by rewrite (Make_applied _ _ _ _ _ HM Hix).
  - destruct l as [i|]; [|done]. intros q (p & Hq & Hp)%list_elem_of_bind. specialize (H2 p Hp).
    destruct p; cbn in Hq; try case_decide; rewrite ?list_elem_of_singleton in Hq; subst; try done;
      by apply not_elem_of_nil in Hq.
Qed.

Lemma ordered_perform G A tr s l1 p l2 now rf rf' ps ev :
  cinv G A s → ordered tr s → items s = l1 ++ p :: l2 → nodes (base s) !! site p = Some rf →
  perform now p rf = Ok (rf', ps, ev) →
  ordered (tr ++ option_list ev)
    {| base := set_node (site p) rf' (base s); items := l1 ++ l2 ++ ps |} ∧ next_of tr s ev.
Proof.
  intros [Hk Hgi] Hord Hp Hi Hpf. assert (p ∈ items s) as Hin by (rewrite Hp; set_solver).
  pose proof (item_peer _ _ _ _ Hk Hi) as Hok. pose proof (to_item _ _ (kn_tree _ _ Hk) _ Hin) as Hit.
  pose proof (or_peer _ _ Hord _ _ Hi) as Hla. pose proof (or_item _ _ Hord _ Hin) as Hpo. split.
  - apply ordered_set; [done| |].
    + destruct (perform_applied _ _ _ _ _ _ _ Hok Hit Hpf) as [->|(i & msg & msgs & -> & ->)].
      * by apply reached_app.
      * destruct Hpo as [Hs _]. apply reached_app. right. eauto.
    + pose proof (perform_order _ _ _ _ _ _ _ _ Hok Hit Hla Hpo Hpf) as Hps.
      intros q [Hq|Hq]%(item_taken s _ _ _ _ _ Hp); [by left|right]. by eapply Forall_forall.
  - destruct ev as [[i m]|]; [|done].
    destruct (perform_event _ _ _ _ _ _ _ Hpf) as [-> [[msgs Heq]| Heq]]; rewrite Heq in *.
    + split; [by eexists|]. destruct Hpo as (k & Hk' & _ & -> & _). intros Hlt.
      destruct Hk' as [?|?]; [lia|]. by replace (k + 1 - 1) with k by lia.
    + by destruct (gi_item _ _ Hgi _ Hin).
Qed.

Lemma ordered_step G A tr s ev s' :
  cinv G A s → repl_step same_term saved_crash orderly s ev s' → ordered tr s →
  ordered (tr ++ option_list ev) s' ∧ next_of tr s ev.
Proof.
  intros Hc Hstep Hord. pose proof Hc as [Hk _].
  destruct Hstep as [s l b' Hb|s i rf servers Hi Hh|s i rf term command Hi Hs
    |s l1 p l2 rf now rf' ps ev Hp Hi Ha Hpf|s l1 p l2 Hp Hcall|s i rf Hi];
    [| | |by eapply ordered_perform| |]; (split; [|done]); rewrite ?app_nil_r.
  - by eapply ordered_election.
  - apply ordered_same; [done|]. intros p [Hp|Hp]%elem_of_app; [by left|right].
    by apply list_elem_of_fmap in Hp as (j & -> & _).
  - apply ordered_same; [done|]. intros p [Hp|Hp]%elem_of_app; [by left|right].
    by apply list_elem_of_singleton in Hp as ->.
  - apply ordered_same; [done|]. intros q Hq. left. rewrite Hp. set_solver.
  - pose proof (ordered_set tr None s i (Kill rf) (items s)) as Hset. cbn in Hset. rewrite app_nil_r in Hset.
    apply Hset; [done|by apply (or_peer _ _ Hord)|by left].
Qed.

(** ** Runs *)
Record accepted n tr s : Prop := {
  ad_size : size (base s) = n;
  ad_ordered : ordered tr s;
  ad_consistent : consistent n tr;
}.

Lemma accepted_step n G A tr s ev s' G' A' :
  cinv G A s → Forall (λ ev, said (world_of (base s) G A) ev.2) tr → accepted n tr s →
  repl_step same_term saved_crash orderly s ev s' → grown G A s G' A' s' →
  match ev with Some (_, msg) => said (world_of (base s') G' A') msg | None => True end →
  accepted n (tr ++ option_list ev) s' ∧
  Forall (λ ev, said (world_of (base s') G' A') ev.2) (tr ++ option_list ev).
Proof.
  intros Hc Hsaid [Hsz Hord Hcon] Hstep [Hc' Hg] Hev.
  assert (Forall (λ ev, said (world_of (base s') G' A') ev.2) (tr ++ option_list ev)) as Hsaid'.
  { apply Forall_app. split.
    - eapply Forall_impl; [done|]. intros. by eapply said_grows.
    - destruct ev as [[i m]|]; by repeat constructor. }
  split; [|done]. destruct (ordered_step _ _ _ _ _ _ Hc Hstep Hord) as [Hord' Hnext]. split.
  - rewrite <-Hsz. apply (gr_size _ _ Hg).
  - done.
  - destruct ev as [[i m]|]; cbn; [|by rewrite app_nil_r]. apply consistent_snoc. split; [done|].
    intros _. destruct Hnext as [[rf Hi] Hnext]. rewrite Forall_forall in Hsaid'. split_and!.
    + apply (inv_node _ (kn_inv _ _ (proj1 Hc)) _ _ Hi).
    + rewrite <-Hsz. apply (inv_node _ (kn_inv _ _ (proj1 Hc)) _ _ Hi).
    + intros j w (m' & Hin & _ & Hk & <-).
      eapply said_unique; [apply Hc'|apply (Hsaid' (j, m')); apply elem_of_app; by left| |done].
      apply (Hsaid' (i, m)). apply elem_of_app. right. by left.
    + done.
Qed.

Lemma accepted_run n G A tr0 s tr s' :
  cinv G A s → Forall (λ ev, said (world_of (base s) G A) ev.2) tr0 → accepted n tr0 s →
  run (repl_step same_term saved_crash orderly) s tr s' → accepted n (tr0 ++ tr) s'.
Proof.
  intros Hc Hsaid Hacc Hr. revert G A tr0 Hc Hsaid Hacc.
  induction Hr as [s|s ev s1 tr s' Hs Hr IH]; intros G A tr0 Hc Hsaid Hacc; [by rewrite app_nil_r|].
  destruct (cinv_step _ _ _ _ _ Hc Hs) as (G1 & A1 & Hg & Hev).
  destruct (accepted_step _ _ _ _ _ _ _ _ _ Hc Hsaid Hacc Hs Hg Hev) as [Hacc' Hsaid'].
  rewrite app_assoc. by eapply IH; [apply Hg|..].
Qed.

Lemma accepted_init n : accepted n [] (repl_init n).
Proof.
  split; [done| |].
  - split; [|by intros p Hp%not_elem_of_nil]. intros i rf Hi. cbn in Hi. rewrite lookup_map_on in Hi.
    case_decide; [|done]. injection Hi as <-. by left.
  - split.
    + by intros i k v (m & Hm%not_elem_of_nil & _).
    + by intros i j k v w (m & Hm%not_elem_of_nil & _).
    + intros before i m after Heq. by destruct before.
Qed.

(** C10. The tester accepts every run of an orderly cluster (votes counted in
    their term, no crash between an election's requests and the save of its term,
    items in the orderly way, no snapshots of the services): the readers of the
    apply channels take all the messages that the peers send, whatever was
    lost, delayed or reordered, and across all other crashes and restarts.  No two
    commands of an index differ, and no server skips an index, although several
    deliveries of a server may be under way at once. *)
Theorem readers_accept n tr s :
  0 ≤ n → run (repl_step same_term saved_crash orderly) (repl_init n) tr s →
  ∃ ob, apply_all tr (fresh_observed n) = Ok ob.
Proof.
  intros Hn Hr. apply (apply_all_recorded n tr).
  apply (accepted_run n _ _ [] _ tr s (cinv_init n Hn)); [constructor|apply accepted_init|done].
Qed.
End Accepted.

(** The orderly run of [ReplicationRuns]. *)
#[local] Existing Instance z_gob.
#[local] Existing Instance countable_SnapGob.

Lemma readers_accept_witness :
  ∃ (s : rcluster Z) tr ob, run (repl_step same_term saved_crash orderly) (repl_init 3) tr s ∧ length tr = 2%nat ∧
    apply_all tr (fresh_observed 3) = Ok ob.
Proof.
  destruct orderly_run as (s & rf0 & Hrun & _).
  destruct (readers_accept 3 _ s ltac:(lia) Hrun) as [ob Hob].
  do 3 eexists. split; [exact Hrun|]. split; [reflexivity|exact Hob].
Defined.
