(* ===== verification/RaftDelivers.v ===== *)
(** * Raft: a majority gets a command through

    Liveness of the whole protocol.  [majority_delivers]: from every reachable
    state of an [orderly] cluster, any majority of servers that are up can go
    on to deliver any further command to a service, at an index behind all that
    were delivered before.  After [majority_recovers]' election the leader takes
    the command; heartbeat by heartbeat, [round], it finds where the log of each
    other server agrees with its own, [replicate], which ends because a refusal
    moves the next index back; the majority's answers commit the command, and
    [applyLogs] delivers it, behind what was missing before it.

    All that is needed of the peers is in [sane]; it holds in every reachable
    state. *)
From S2P Require Import Prelude GoLib Raft RaftPeer RaftElection ElectionSafety RaftTypes.
From S2P Require Import RaftReplication LogMatching RaftLive CommitWorld CommitPeer CommitElection.
From S2P Require Import CommitInvariant CommitSafety RaftNext ReplicationRuns RaftAvailable RaftAccepted.
Local Open Scope Z_scope.

Section Delivers.
Context {Cmd : Type} `{!Gob Cmd}.
Local Abbreviation Raft := (Raft Cmd).
Local Abbreviation rcluster := (rcluster Cmd).
Implicit Types (rf : Raft) (s : rcluster).
Local Abbreviation step := (repl_step same_term saved_crash orderly).

(** ** Reachable states *)
Definition reach (n : Z) s : Prop := ∃ tr, run step (repl_init n) tr s.

Record sane (n i : Z) rf : Prop := {
  sn_ok : RaftPeer.peer_ok rf;
  sn_me : me rf = i;
  sn_npeers : npeers rf = n;
  sn_index : lastIncludedIndex rf = 0;
  sn_range : 0 ≤ i < n;
  sn_length : 0 < go_len (logs rf);
  sn_commit : 0 ≤ commitIndex rf < go_len (logs rf);
  sn_applied : 0 ≤ lastApplied rf;
  sn_next : next_ok rf;
}.

Lemma reach_sane n s i rf : 0 ≤ n → reach n s → nodes (base s) !! i = Some rf → sane n i rf.
Proof.
  intros Hn [tr Hr] Hi. pose proof (size_run _ _ _ _ _ _ Hr) as Hsz.
  destruct (repl_typed _ _ _ _ _ _ Hn Hr) as [_ Hty]. specialize (Hty _ _ Hi). rewrite Hsz in Hty.
  destruct (cinv_run _ _ _ _ _ (cinv_init n Hn) Hr) as (G & A & [[Hk Hgi] _] & _).
  pose proof (item_peer _ _ _ _ Hk Hi) as [Hb Hix Hap _]. pose proof (branch_nonempty _ _ Hb) as Hne.
  assert (0 < go_len (logs rf)) as Hlen by (unfold go_len; destruct (logs rf); [done|cbn; lia]).
  pose proof (gi_peer _ _ Hgi _ _ Hi) as Hp. pose proof (inv_node _ (kn_inv _ _ Hk) _ _ Hi) as Hno.
  rewrite Hsz in Hno. destruct Hty as [Hme Hnp Hnx Hmt Hch]. split; try done.
  - split; [done|congruence|congruence|done].
  - apply Hno.
  - split; [apply Hp|]. destruct (pi_point _ _ _ Hp) as [Hc|(m & u & _ & Hh & Hc)]; [lia|].
    apply holds_lt in Hh. unfold go_len. lia.
  - apply (ni_peer _ (next_run _ _ _ Hn Hr) _ _ Hi).
Qed.

Lemma reach_run n s tr s' : reach n s → run step s tr s' → reach n s'.
Proof. intros [tr0 Hr] Hr'. eexists. by eapply run_trans. Qed.

(** The entries of a leader's term that others have are in its log. *)
Lemma reach_fresh n s c j rf rfj args :
  0 ≤ n → reach n s → nodes (base s) !! c = Some rf → role rf = Leader → nodes (base s) !! j = Some rfj →
  aa_Term args = currentTerm rf → aa_PrevLogIndex args + 1 + go_len (aa_Entries args) = go_len (logs rf) →
  fresh args rfj.
Proof.
  intros Hn [tr Hr] Hc Hl Hj Ht Hlen.
  destruct (cinv_run _ _ _ _ _ (cinv_init n Hn) Hr) as (G & A & [[Hk _] _] & _).
  pose proof (item_peer _ _ _ _ Hk Hj) as [[_ Hb] Hix _ _].
  unfold fresh, convertToStorageIndex. rewrite Hix, Z.sub_0_r, Hlen, Ht. apply Forall_lookup.
  intros k e He Heq. rewrite lookup_drop in He. specialize (Hb _ _ He). rewrite Heq in Hb.
  pose proof (to_leader _ _ (kn_tree _ _ Hk) _ _ _ _ Hc Hl Hb) as Hp%prefix_length.
  rewrite length_take in Hp. apply lookup_lt_Some in He. unfold go_len in *. lia.
Qed.

(** An item takes its step. *)
Lemma do_item s p rf now rf' ps ev :
  p ∈ items s → nodes (base s) !! site p = Some rf → orderly p rf → perform now p rf = Ok (rf', ps, ev) →
  ∃ s', step s ev s' ∧ base s' = set_node (site p) rf' (base s) ∧ (∀ q, q ∈ ps → q ∈ items s') ∧
    ∀ q, q ∈ items s → q ≠ p → q ∈ items s'.
Proof.
  intros (l1 & l2 & Hp)%list_elem_of_split Hi Ho Hpf. eexists. split_and!; [by eapply rs_perform|done| |]; cbn.
  - intros q Hq. set_solver.
  - intros q Hq Hne. rewrite Hp in Hq. set_solver.
Qed.

(** ** A leader at work

    [c] leads term [t] with the log [lg]; the servers of [W] are not ahead.  What
    is committed up to the log's end is about to be applied. *)
Section Leader.
Context (n : Z) (Hn : 2 ≤ n) (W : list Z) (c t la : Z) (lg : list (LogEntry_ Cmd)).
Local Abbreviation last := (go_len lg - 1).

Record leads s rf : Prop := {
  ld_reach : reach n s;
  ld_node : nodes (base s) !! c = Some rf;
  ld_role : role rf = Leader;
  ld_dead : dead rf = false;
  ld_term : currentTerm rf = t;
  ld_logs : logs rf = lg;
  ld_applied : lastApplied rf = la;
  ld_terms i rfi : i ∈ W → nodes (base s) !! i = Some rfi → currentTerm rfi ≤ t;
  ld_apply : commitIndex rf < last ∨ TApply c ∈ items s;
}.

Lemma leads_sane s rf : leads s rf → sane n c rf.
Proof using Hn. intros Hl. apply (reach_sane n s); [lia|apply Hl|apply Hl]. Qed.

(** The leader takes a step and keeps its lead. *)
Lemma at_leader s rf p now rf' ps :
  leads s rf → p ∈ items s → site p = c → orderly p rf → perform now p rf = Ok (rf', ps, None) →
  p ≠ TApply c → role rf' = Leader → dead rf' = dead rf → currentTerm rf' = currentTerm rf →
  logs rf' = logs rf → lastApplied rf' = lastApplied rf →
  (commitIndex rf' = commitIndex rf ∨ TApply c ∈ ps) →
  ∃ s', run step s [] s' ∧ leads s' rf' ∧ (∀ q, q ∈ ps → q ∈ items s') ∧
    nodes (base s') = <[c := rf']> (nodes (base s)).
Proof.
  intros [Hre Hnode Hr Hd Ht Hlg Hla Hts Hap] Hp Hsite Ho Hpf Hne Hr' Hd' Ht' Hlg' Hla' Hc.
  destruct (do_item s p rf now rf' ps None) as (s' & Hs & Hb & Hps & Hits); [done|by rewrite Hsite|done..|].
  rewrite Hsite in Hb. pose proof (run_one _ _ _ _ Hs) as Hrun. exists s'.
  assert (nodes (base s') = <[c := rf']> (nodes (base s))) as Hnodes by (by rewrite Hb).
  split_and!; [exact Hrun| |done|done]. split; try congruence.
  - by eapply reach_run.
  - by rewrite Hnodes, lookup_insert_eq.
  - intros i rfi Hi. rewrite Hnodes. intros [[<- <-]|[_ ?]]%lookup_insert_Some; [lia|by eapply Hts].
  - destruct Hap as [?|?]; [|right; by apply Hits]. destruct Hc as [->|?]; [by left|right; by apply Hps].
Qed.

(** Another server takes a step. *)
Lemma at_server s rf p now j rfj rfj' ps :
  leads s rf → p ∈ items s → site p = j → j ≠ c → nodes (base s) !! j = Some rfj → orderly p rfj →
  perform now p rfj = Ok (rfj', ps, None) → currentTerm rfj' ≤ t →
  ∃ s', run step s [] s' ∧ leads s' rf ∧ (∀ q, q ∈ ps → q ∈ items s') ∧
    nodes (base s') = <[j := rfj']> (nodes (base s)).
Proof.
  intros [Hre Hnode Hr Hd Ht Hlg Hla Hts Hap] Hp Hsite Hj Hrfj Ho Hpf Ht'.
  destruct (do_item s p rfj now rfj' ps None) as (s' & Hs & Hb & Hps & Hits); [done|by rewrite Hsite|done..|].
  rewrite Hsite in Hb. pose proof (run_one _ _ _ _ Hs) as Hrun. exists s'.
  assert (nodes (base s') = <[j := rfj']> (nodes (base s))) as Hnodes by (by rewrite Hb).
  split_and!; [exact Hrun| |done|done]. split; try done.
  - by eapply reach_run.
  - by rewrite Hnodes, lookup_insert_ne.
  - intros i rfi Hi. rewrite Hnodes. intros [[<- <-]|[_ ?]]%lookup_insert_Some; [done|by eapply Hts].
  - destruct Hap as [?|?]; [by left|right]. apply Hits; [done|]. intros <-. by cbn in Hsite.
Qed.

(** ** A heartbeat reaches a server *)
Lemma leads_same s rf s' :
  leads s rf → run step s [] s' → base s' = base s → (∀ q, q ∈ items s → q ∈ items s') → leads s' rf.
Proof.
  intros [Hre Hnode Hr Hd Ht Hlg Hla Hts Hap] Hrun Hb Hits. split; rewrite ?Hb; try done.
  - by eapply reach_run.
  - destruct Hap as [?|?]; [by left|right; by apply Hits].
Qed.

Lemma gen_leader rf j x :
  sane n c rf → role rf = Leader → go_index (nextIndex rf) j = Ok x →
  ∃ args, genAppendEntries j rf = Ok (args, bool_decide (x = 0)).
Proof.
  intros Hsn Hl Hx. pose proof (within_index _ _ _ (sn_next _ _ _ Hsn Hl) Hx).
  unfold genAppendEntries, convertToStorageIndex. rewrite Hx. cbn [mbind outcome_bind].
  rewrite (sn_index _ _ _ Hsn), !Z.sub_0_r. cbv zeta.
  case_decide; [rewrite bool_decide_eq_true_2 by lia; by eexists|]. rewrite bool_decide_eq_false_2 by lia.
  destruct (go_index_in_range (logs rf) (x - 1)) as [e ->]; [lia|]. cbn [mbind outcome_bind].
  unfold go_from. rewrite decide_True by lia. by eexists.
Qed.

(** The goroutine of the heartbeat generates the arguments, finds that the peer
    leads, and calls. *)
Lemma called s rf j x :
  leads s rf → 0 ≤ j < n → j ≠ c → go_index (nextIndex rf) j = Ok x →
  ∃ s' args, run step s [] s' ∧ leads s' rf ∧ nodes (base s') = nodes (base s) ∧
    genAppendEntries j rf = Ok (args, bool_decide (x = 0)) ∧
    (if bool_decide (x = 0) then TInstall c j else MAppend true c j args) ∈ items s'.
Proof using Hn.
  intros Hl Hj Hne Hx. pose proof (leads_sane _ _ Hl) as Hsn. pose proof Hl as [_ Hnode Hr Hd _ _ _ _ _].
  destruct (gen_leader rf j x Hsn Hr Hx) as [args Hgen].
  assert (startHeartbeat rf = Some (filter (λ i, i ≠ me rf) (seqZ 0 (npeers rf)))) as Hhb.
  { unfold startHeartbeat, GetState. rewrite Hd, (ok_chan _ (sn_ok _ _ _ Hsn) Hr), bool_decide_eq_true_2; done. }
  pose proof (run_one _ _ _ _ (rs_heartbeat same_term saved_crash orderly s c rf _ Hnode Hhb)) as Hr1.
  set (s1 := {| base := base s; items := _ |}) in Hr1.
  assert (leads s1 rf) as Hl1.
  { eapply leads_same; [exact Hl|exact Hr1|done|]. intros q Hq. apply elem_of_app. by left. }
  assert (TGen c j ∈ items s1) as Hgen1.
  { apply elem_of_app. right. apply list_elem_of_fmap. exists j. split; [done|]. apply list_elem_of_filter.
    rewrite (sn_me _ _ _ Hsn), (sn_npeers _ _ _ Hsn). split; [done|]. apply elem_of_seqZ. lia. }
  destruct (at_leader s1 rf (TGen c j) 0 rf [TCheck c j args (bool_decide (x = 0))])
    as (s2 & Hr2 & Hl2 & Hits2 & Hnd2); try done; [cbn; by rewrite Hgen|by left|].
  destruct (at_leader s2 rf (TCheck c j args (bool_decide (x = 0))) 0 rf
              [if bool_decide (x = 0) then TInstall c j else MAppend true c j args])
    as (s3 & Hr3 & Hl3 & Hits3 & Hnd3); try done; [apply Hits2; by left| | |by left|].
  - split_and!; try done. cbn. clear - Hgen. unfold genAppendEntries in Hgen. inv_ok.
    case_decide; inv_ok; by simplify_eq.
  - cbn. unfold GetState. rewrite Hr. cbn. by case_bool_decide.
  - exists s3, args. split_and!; [by eauto using run_silent|done| |done|apply Hits3; by left].
    rewrite Hnd3, Hnd2. cbn. rewrite insert_insert_eq. by apply insert_id.
Qed.

(** Behind the log's front there is only the snapshot of index 0: the server
    refuses it, and the leader goes on from index 1. *)
Lemma install_answer now args rf :
  RaftPeer.peer_ok rf → lastIncludedIndex rf = 0 → ia_LastIncludedIndex args = 0 →
  currentTerm rf ≤ ia_Term args → 0 ≤ ia_Term args →
  ∃ rf' reply, InstallSnapshot now args rf = Ok (rf', reply, []) ∧
    currentTerm rf' = ia_Term args ∧ ir_Term reply ≤ ia_Term args.
Proof using.
  intros Hok Hix Ha Ht H0. unfold InstallSnapshot. rewrite decide_False by lia.
  destruct (decide (currentTerm rf < ia_Term args)) as [Hlt|Hge].
  - destruct (convertRole_Ok Follower rf Hok) as (rf1 & sp & Hc & _ & _ & _ & _ & _ & _ & _ & Hix1 & _).
    assert (sp = []) as ->.
    { revert Hc. cbn. case_decide; [destruct (heartChan rf); [done| |done]|]; by intros [= _ <-]. }
    rewrite Hc. cbn [mbind outcome_bind]. rewrite decide_True by (left; cbn; lia).
    do 2 eexists. split_and!; [done..|cbn; lia].
  - cbn [mbind outcome_bind]. rewrite decide_True by (left; lia).
    do 2 eexists. split_and!; [done|cbn; lia|cbn; lia].
Qed.

Lemma round_install s rf j :
  leads s rf → j ∈ W → 0 ≤ j < n → j ≠ c → 0 ≤ t → go_index (nextIndex rf) j = Ok 0 →
  ∃ s' rf', run step s [] s' ∧ leads s' rf' ∧
    (∀ i, 0 ≤ i → i ≠ j → go_index (matchIndex rf') i = go_index (matchIndex rf) i) ∧
    go_index (nextIndex rf') j = Ok 1.
Proof using Hn.
  intros Hl HjW Hj Hne Ht0 Hx.
  destruct (called s rf j 0 Hl Hj Hne Hx) as (s1 & args0 & Hr1 & Hl1 & Hnd1 & _ & Hit1). cbn in Hit1.
  pose proof (leads_sane _ _ Hl1) as Hsn. pose proof (ld_role _ _ Hl1) as Hr.
  set (args := genInstallSnapshot rf).
  destruct (at_leader s1 rf (TInstall c j) 0 rf [TInstallCheck c j args]) as (s2 & Hr2 & Hl2 & Hits2 & _);
    try done; [by left|].
  destruct (at_leader s2 rf (TInstallCheck c j args) 0 rf [MInstall true c j args]) as (s3 & Hr3 & Hl3 & Hits3 & _);
    try done; [apply Hits2; by left|cbn; unfold GetState; by rewrite Hr|by left|].
  assert (0 ≤ n) as Hn0 by lia. pose proof (ld_reach _ _ Hl3) as [tr3 Hre3].
  destruct (cinv_run _ _ _ _ _ (cinv_init n Hn0) Hre3) as (G & A & [[Hk _] _] & _).
  destruct (inv_total _ (kn_inv _ _ Hk) j) as [rfj Hrfj]; [by rewrite (size_run _ _ _ _ _ _ Hre3)|].
  pose proof (reach_sane n s3 j rfj Hn0 (ld_reach _ _ Hl3) Hrfj) as Hsj.
  assert (ia_Term args = t) as Hta by apply Hl3.
  destruct (install_answer 0 args rfj (sn_ok _ _ _ Hsj) (sn_index _ _ _ Hsj)) as (rfj' & reply & Hi & Htj & Hrt);
    [apply Hsn|rewrite Hta; by eapply ld_terms|by rewrite Hta|].
  destruct (at_server s3 rf (MInstall true c j args) 0 j rfj rfj' [MInstalled c j args reply])
    as (s4 & Hr4 & Hl4 & Hits4 & _); try done; [apply Hits3; by left|cbn; by rewrite Hi|lia|].
  pose proof (ok_next _ (sn_ok _ _ _ Hsn)) as Hln. pose proof (ok_match _ (sn_ok _ _ _ Hsn)) as Hlm.
  rewrite (sn_npeers _ _ _ Hsn) in Hln, Hlm.
  assert (ia_LastIncludedIndex args = 0) as Hai by apply Hsn.
  set (rf' := set_matchIndex (<[Z.to_nat j := 0]> (matchIndex rf)) (set_nextIndex (<[Z.to_nat j := 1]> (nextIndex rf)) rf)).
  assert (handleInstallSnapshot 0 j args reply rf = Ok (rf', [])) as Hh.
  { unfold handleInstallSnapshot. rewrite decide_False by (rewrite Hta, (ld_term _ _ Hl4); tauto).
    rewrite decide_False by (rewrite (ld_term _ _ Hl4); lia). rewrite Hx. cbn [mbind outcome_bind].
    rewrite Hai, decide_True by lia. unfold go_set. by rewrite !decide_True by lia. }
  destruct (at_leader s4 rf (MInstalled c j args reply) 0 rf' []) as (s5 & Hr5 & Hl5 & _);
    try done; [apply Hits4; by left|cbn; by rewrite Hh|by left|].
  exists s5, rf'. split_and!; [by eauto 6 using run_silent|done| |].
  - intros i Hi' Hne'. unfold go_index. cbn. rewrite list_lookup_insert_ne by lia. done.
  - apply go_index_Ok. split; [lia|]. cbn. apply list_lookup_insert_eq. unfold go_len in Hln. lia.
Qed.

(** What the leader knows of a server that has its whole log. *)
Definition settled rf j : Prop :=
  go_index (matchIndex rf) j = Ok last ∧ ∀ k, commitIndex rf < k ≤ last → ¬ committable rf k.

(** The server's answer to a request of the leader. *)
Lemma append_answer s rf j x args :
  leads s rf → j ∈ W → 0 ≤ j < n → go_index (nextIndex rf) j = Ok x →
  genAppendEntries j rf = Ok (args, false) →
  ∃ rfj rfj' reply sp, nodes (base s) !! j = Some rfj ∧ orderly (MAppend true c j args) rfj ∧
    AppendEntries 0 args rfj = Ok (rfj', reply, sp) ∧ currentTerm rfj' = t ∧ ar_Term reply = t ∧
    (ar_Success reply = true ∨
     ar_Success reply = false ∧ x ≠ 1 ∧ ar_ConflictIndex reply < x ∧
     (ar_ConflictTerm reply ≠ 0 → ar_ConflictTerm reply ≠ aa_PrevLogTerm args)).
Proof using Hn.
  intros Hl HjW Hj Hx Hgen. assert (0 ≤ n) as Hn0 by lia. pose proof Hl as [[tr Hre] Hnode Hr _ Ht _ _ Hts _].
  destruct (genAppendEntries_Ok _ _ _ Hgen) as (x' & Hx' & Hlo & Hta & Hprev & (e & He & Hpt) & Hents).
  rewrite Hx in Hx'. injection Hx' as <-. pose proof (leads_sane _ _ Hl) as Hsn. rewrite (sn_index _ _ _ Hsn) in *.
  pose proof (within_index _ _ _ (sn_next _ _ _ Hsn Hr) Hx) as Hxr.
  destruct (cinv_run _ _ _ _ _ (cinv_init n Hn0) Hre) as (G & A & [[Hk _] _] & _).
  destruct (inv_total _ (kn_inv _ _ Hk) j) as [rfj Hrfj]; [by rewrite (size_run _ _ _ _ _ _ Hre)|].
  pose proof (reach_sane n s j rfj Hn0 (ld_reach _ _ Hl) Hrfj) as Hsj.
  assert (fresh args rfj) as Hfr.
  { eapply (reach_fresh n s c j rf); try done; [apply Hl|]. rewrite Hprev, Hents at 1.
    apply (f_equal length) in Hents. rewrite length_app, length_take in Hents. unfold go_len in *.
    rewrite length_app, length_take. lia. }
  destruct (AppendEntries_accepted 0 args rfj (sn_ok _ _ _ Hsj)) as
    (rf1 & sp & Hok1 & _ & Ht1 & Hl1 & Hix1 & _ & _ & Heq); [rewrite Hta, Ht; by eapply Hts|].
  assert (lastIncludedIndex rf1 = 0) as Hix by (rewrite Hix1; apply Hsj).
  assert (0 ≤ getLastLogicalIndex rf1) as Hlast.
  { unfold getLastLogicalIndex. rewrite Hl1, Hix. pose proof (sn_length _ _ _ Hsj). lia. }
  exists rfj. destruct (decide (aa_PrevLogIndex args ≤ getLastLogicalIndex rf1 ∧
    (lastIncludedIndex rf1 < aa_PrevLogIndex args →
     le_Term <$> logs rf1 !! Z.to_nat (aa_PrevLogIndex args) = Some (aa_PrevLogTerm args)))) as [[Hm1 Hm2]|Hm].
  - destruct (append_log_success args rf1 Hok1) as (rf2 & sp2 & Ha & _ & Hf2); [lia| |].
    { split; [done|]. intros Hlt. destruct (proj1 (fmap_Some _ _ _) (Hm2 Hlt)) as (e1 & He1 & ->).
      exists e1. split; [|done]. apply go_index_Ok. unfold convertToStorageIndex. rewrite Hix, Z.sub_0_r. split; [lia|done]. }
    rewrite Ha in Heq. cbn in Heq. eexists _, _, _. split_and!; [done|by split_and!|exact Heq| |cbn; lia|by left].
    cbn. rewrite Hf2. cbn. lia.
  - destruct (append_log_refused args rf1 Hok1) as (reply & Ha & Hs & Hrt & Hshort & Hlong); [lia| |].
    { intros [Hm1 Hm2]. apply Hm. split; [done|]. intros Hlt. destruct (Hm2 Hlt) as (e1 & [_ He1]%go_index_Ok & <-).
      unfold convertToStorageIndex in He1. rewrite Hix, Z.sub_0_r in He1. by rewrite He1. }
    rewrite Ha in Heq. cbn in Heq. eexists _, _, _. split_and!; [done|by split_and!|exact Heq|cbn; lia|lia|right].
    split; [done|]. destruct (decide (getLastLogicalIndex rf1 < aa_PrevLogIndex args)) as [Hsh|Hsh].
    + destruct (Hshort Hsh) as [Hci Hct]. split_and!; [lia|lia|done].
    + destruct Hlong as (Hci & (e1 & _ & Hct & Hne) & _); [lia|]. split_and!; [lia|lia|]. by rewrite Hct.
Qed.

(** The leader handles the answer: it knows that the server has its log, or it
    retries further back. *)
Lemma answer_counted rf j args reply :
  sane n c rf → role rf = Leader → 0 ≤ j < n → ar_Success reply = true → ar_Term reply = currentTerm rf →
  aa_PrevLogIndex args + go_len (aa_Entries args) = last → logs rf = lg →
  ∃ rf' sp, handleAppendEntries 0 j args reply rf = Ok (rf', sp) ∧
    role rf' = Leader ∧ dead rf' = dead rf ∧ currentTerm rf' = currentTerm rf ∧ logs rf' = logs rf ∧
    lastApplied rf' = lastApplied rf ∧ (commitIndex rf' = commitIndex rf ∨ SpawnApply ∈ sp) ∧
    (∀ i, 0 ≤ i → i ≠ j → go_index (matchIndex rf') i = go_index (matchIndex rf) i) ∧ settled rf' j.
Proof using Hn.
  intros Hsn Hr Hj Hs Ht Hlen Hlg.
  destruct (handleAppendEntries_counted 0 j args reply rf) as (l & m & k & sp & Heq & _ & Hm & Hcase & Hmax);
    [apply Hsn|rewrite (sn_npeers _ _ _ Hsn); lia|done|by rewrite (sn_npeers _ _ _ Hsn)| |done|lia|].
  { rewrite (sn_index _ _ _ Hsn). apply Hsn. }
  eexists _, sp. split; [exact Heq|]. cbn. split_and!; try done.
  - destruct Hcase as [?|(_ & _ & ->)]; [by left|right; by left].
  - intros i Hi Hne. cbn. rewrite (go_set_at _ _ _ _ i Hm Hi). by rewrite decide_False.
  - split.
    + cbn. rewrite (go_set_at _ _ _ _ j Hm) by lia. rewrite decide_True by done. by rewrite Hlen.
    + intros k' Hk'. cbn in Hk'. apply Hmax. unfold getLastLogicalIndex. rewrite Hlg, (sn_index _ _ _ Hsn). lia.
Qed.

Lemma answer_refused rf j x args reply :
  sane n c rf → role rf = Leader → 0 ≤ j < n → go_index (nextIndex rf) j = Ok x →
  genAppendEntries j rf = Ok (args, false) → ar_Success reply = false → ar_Term reply = currentTerm rf →
  ar_ConflictIndex reply < x → (ar_ConflictTerm reply ≠ 0 → ar_ConflictTerm reply ≠ aa_PrevLogTerm args) →
  ∃ rf' sp x', handleAppendEntries 0 j args reply rf = Ok (rf', sp) ∧
    role rf' = Leader ∧ dead rf' = dead rf ∧ currentTerm rf' = currentTerm rf ∧ logs rf' = logs rf ∧
    lastApplied rf' = lastApplied rf ∧ commitIndex rf' = commitIndex rf ∧
    matchIndex rf' = matchIndex rf ∧ go_index (nextIndex rf') j = Ok x' ∧ x' < x.
Proof using Hn.
  intros Hsn Hr Hj Hx Hgen Hs Ht Hci Hct.
  destruct (genAppendEntries_Ok _ _ _ Hgen) as (x0 & Hx0 & _ & _ & _ & (e & He & Hpt) & _).
  rewrite Hx in Hx0. injection Hx0 as <-.
  assert (∃ l x', append_failed j reply (set_lastUpdate 0 rf) = Ok (set_nextIndex l (set_lastUpdate 0 rf)) ∧
    go_set (nextIndex rf) j x' = Ok l ∧ x' < x) as (l & x' & Hf & Hl & Hlt).
  { destruct (decide (ar_ConflictTerm reply = 0)) as [H0|H0].
    - unfold append_failed. rewrite decide_False by tauto. exists (<[Z.to_nat j := ar_ConflictIndex reply]> (nextIndex rf)).
      exists (ar_ConflictIndex reply). cbn [nextIndex set_lastUpdate]. unfold go_set. apply go_index_bound in Hx.
      by rewrite decide_True.
    - apply (append_failed_back j reply (set_lastUpdate 0 rf) x e); try done; [|lia|].
      + cbn. by rewrite (sn_index _ _ _ Hsn).
      + rewrite <-Hpt. by apply Hct. }
  do 2 eexists. exists x'. split.
  { unfold handleAppendEntries. rewrite decide_False by (cbn; tauto). rewrite decide_False by (cbn; lia).
    rewrite Hs, Hf. done. }
  cbn. split_and!; try done. rewrite (go_set_at _ _ _ _ j Hl) by lia. by rewrite decide_True.
Qed.

Lemma round_append s rf j x :
  leads s rf → j ∈ W → 0 ≤ j < n → j ≠ c → go_index (nextIndex rf) j = Ok x → x ≠ 0 →
  ∃ s' rf', run step s [] s' ∧ leads s' rf' ∧
    (∀ i, 0 ≤ i → i ≠ j → go_index (matchIndex rf') i = go_index (matchIndex rf) i) ∧
    (settled rf' j ∨ x ≠ 1 ∧ ∃ x', go_index (nextIndex rf') j = Ok x' ∧ x' < x).
Proof using Hn.
  intros Hl HjW Hj Hne Hx Hx0.
  destruct (called s rf j x Hl Hj Hne Hx) as (s1 & args & Hr1 & Hl1 & Hnd1 & Hgen & Hit1).
  rewrite (bool_decide_eq_false_2 _ Hx0) in Hgen, Hit1.
  destruct (append_answer s1 rf j x args) as (rfj & rfj' & reply & sp & Hrfj & Hord & Ha & Htj & Hrt & Hres); [done..|].
  destruct (at_server s1 rf (MAppend true c j args) 0 j rfj rfj' (MAppended c j args reply :: spawned j sp))
    as (s2 & Hr2 & Hl2 & Hits2 & _); try done; [cbn; by rewrite Ha|lia|].
  pose proof (leads_sane _ _ Hl2) as Hsn. pose proof (ld_role _ _ Hl2) as Hr. pose proof (ld_term _ _ Hl2) as Ht.
  destruct (genAppendEntries_Ok _ _ _ Hgen) as (x0 & Hx0' & _ & Hta & Hprev & _ & Hents).
  rewrite Hx in Hx0'. injection Hx0' as <-. rewrite (sn_index _ _ _ Hsn), Z.sub_0_r in Hents.
  pose proof (within_index _ _ _ (sn_next _ _ _ Hsn Hr) Hx) as Hxr.
  assert (orderly (MAppended c j args reply) rf) as Hord2 by (by split_and!).
  assert (MAppended c j args reply ∈ items s2) as Hit2 by (apply Hits2; by left).
  destruct Hres as [Hs|(Hs & Hx1 & Hci & Hct)].
  - destruct (answer_counted rf j args reply) as (rf' & sp' & Hh & ? & ? & ? & ? & ? & Hcm & Hma & Hset);
      try done; [congruence| |apply Hl2|].
    { rewrite Hprev, <-(ld_logs _ _ Hl2). apply (f_equal length) in Hents. rewrite length_app, length_take in Hents.
      unfold go_len in *. lia. }
    destruct (at_leader s2 rf (MAppended c j args reply) 0 rf' (spawned c sp')) as (s3 & Hr3 & Hl3 & _);
      try done; [cbn; by rewrite Hh| |].
    { destruct Hcm as [?|Hin]; [by left|right]. apply list_elem_of_bind. exists SpawnApply. split; [by left|done]. }
    exists s3, rf'. split_and!; [by eauto using run_silent|done|done|by left].
  - destruct (answer_refused rf j x args reply) as (rf' & sp' & x' & Hh & ? & ? & ? & ? & ? & ? & Hma & Hnx & Hlt);
      try done; [congruence|].
    destruct (at_leader s2 rf (MAppended c j args reply) 0 rf' (spawned c sp')) as (s3 & Hr3 & Hl3 & _);
      try done; [cbn; by rewrite Hh|by left|].
    exists s3, rf'. split_and!; [by eauto using run_silent|done|by rewrite Hma|right; split; [done|by exists x']].
Qed.

(** The retries end, with the server's log equal to the leader's. *)
Definition replicated s rf j s' rf' : Prop :=
  run step s [] s' ∧ leads s' rf' ∧
  (∀ i, 0 ≤ i → i ≠ j → go_index (matchIndex rf') i = go_index (matchIndex rf) i) ∧ settled rf' j.

Lemma replicated_after s rf j s1 rf1 s' rf' :
  run step s [] s1 → (∀ i, 0 ≤ i → i ≠ j → go_index (matchIndex rf1) i = go_index (matchIndex rf) i) →
  replicated s1 rf1 j s' rf' → replicated s rf j s' rf'.
Proof using.
  intros Hr Hm (Hr' & Hl & Hm' & Hs). split_and!; [by eapply run_silent|done| |done].
  intros i Hi Hne. by rewrite Hm', Hm.
Qed.

Lemma replicate_from x : ∀ s rf j,
  leads s rf → j ∈ W → 0 ≤ j < n → j ≠ c → 0 ≤ t → go_index (nextIndex rf) j = Ok x →
  ∃ s' rf', replicated s rf j s' rf'.
Proof using Hn.
  assert (∀ s rf j, leads s rf → j ∈ W → 0 ≤ j < n → j ≠ c → 0 ≤ t → go_index (nextIndex rf) j = Ok 1 →
    ∃ s' rf', replicated s rf j s' rf') as Hone.
  { intros s rf j Hl HjW Hj Hne Ht Hx. destruct (round_append s rf j 1) as (s' & rf' & ? & ? & ? & [?|[? _]]); try done.
    by exists s', rf'. }
  assert (∀ s rf j, leads s rf → j ∈ W → 0 ≤ j < n → j ≠ c → 0 ≤ t → go_index (nextIndex rf) j = Ok 0 →
    ∃ s' rf', replicated s rf j s' rf') as Hzero.
  { intros s rf j Hl HjW Hj Hne Ht Hx. destruct (round_install s rf j) as (s1 & rf1 & Hr1 & Hl1 & Hm1 & Hx1); try done.
    destruct (Hone s1 rf1 j) as (s' & rf' & Hrep); try done. exists s', rf'. by eapply replicated_after. }
  destruct (decide (0 ≤ x)) as [Hx0|Hx0].
  2: { intros s rf j Hl _ _ _ _ Hx. pose proof (leads_sane _ _ Hl) as Hsn.
       pose proof (within_index _ _ _ (sn_next _ _ _ Hsn (ld_role _ _ Hl)) Hx). lia. }
  induction (Z.lt_wf 0 x) as [x _ IH]. intros s rf j Hl HjW Hj Hne Ht Hx.
  destruct (decide (x = 0)) as [->|Hxz]; [by apply Hzero|].
  destruct (round_append s rf j x) as (s1 & rf1 & Hr1 & Hl1 & Hm1 & [Hset|[_ (x' & Hx' & Hlt)]]); try done.
  { by exists s1, rf1. }
  pose proof (leads_sane _ _ Hl1) as Hsn.
  pose proof (within_index _ _ _ (sn_next _ _ _ Hsn (ld_role _ _ Hl1)) Hx').
  destruct (IH x' ltac:(lia) ltac:(lia) s1 rf1 j) as (s' & rf' & Hrep); try done.
  exists s', rf'. by eapply replicated_after.
Qed.

Lemma replicate s rf j :
  leads s rf → j ∈ W → 0 ≤ j < n → j ≠ c → 0 ≤ t → ∃ s' rf', replicated s rf j s' rf'.
Proof using Hn.
  intros Hl HjW Hj Hne Ht. pose proof (leads_sane _ _ Hl) as Hsn.
  destruct (go_index_in_range (nextIndex rf) j) as [x Hx].
  { rewrite (ok_next _ (sn_ok _ _ _ Hsn)). by rewrite (sn_npeers _ _ _ Hsn). }
  by eapply replicate_from.
Qed.

Lemma replicate_all V : ∀ s rf,
  leads s rf → V ≠ [] → (∀ j, j ∈ V → j ∈ W ∧ 0 ≤ j < n ∧ j ≠ c) → 0 ≤ t →
  ∃ s' rf', run step s [] s' ∧ leads s' rf' ∧ (∀ j, j ∈ V → go_index (matchIndex rf') j = Ok last) ∧
    ∀ k, commitIndex rf' < k ≤ last → ¬ committable rf' k.
Proof using Hn.
  induction V as [|j V IH]; [done|]. intros s rf Hl _ HV Ht. destruct (HV j ltac:(left)) as (HjW & Hj & Hne).
  destruct (decide (V = [])) as [->|HVne].
  - destruct (replicate s rf j) as (s' & rf' & Hr & Hl' & _ & Hm & Hk); try done.
    exists s', rf'. split_and!; try done. by intros j' ->%list_elem_of_singleton.
  - destruct (IH s rf) as (s1 & rf1 & Hr1 & Hl1 & Hm1 & _); try done; [intros; apply HV; by right|].
    destruct (replicate s1 rf1 j) as (s' & rf' & Hr & Hl' & Hkeep & Hm & Hk); try done.
    exists s', rf'. split_and!; [by eapply run_silent|done| |done].
    intros j' [->|Hj']%elem_of_cons; [done|]. destruct (decide (j' = j)) as [->|]; [done|].
    rewrite Hkeep; [by apply Hm1| |done]. apply HV. by right.
Qed.

(** The majority's answers commit the end of the log, if its entry is of the
    leader's term. *)
Lemma commits s rf :
  leads s rf → NoDup W → n `quot` 2 < go_len W → (∀ j, j ∈ W → 0 ≤ j < n) → c ∈ W → 0 ≤ t →
  le_Term <$> lg !! Z.to_nat last = Some t →
  ∃ s' rf', run step s [] s' ∧ leads s' rf' ∧ commitIndex rf' = last ∧ TApply c ∈ items s'.
Proof using Hn.
  intros Hl HW Hmaj Hrange Hc Ht Hend. set (V := filter (λ j, j ≠ c) W).
  assert (W ≡ₚ c :: V) as Hp.
  { apply NoDup_Permutation; [done| |].
    - apply NoDup_cons. split; [|by apply NoDup_filter]. by intros [? _]%list_elem_of_filter.
    - intros j. rewrite elem_of_cons. unfold V. rewrite list_elem_of_filter.
      destruct (decide (j = c)) as [->|]; tauto. }
  assert (go_len W = 1 + go_len V) as Hlen by (unfold go_len; rewrite (Permutation_length Hp); cbn; lia).
  assert (1 ≤ n `quot` 2) as Hq by exact (Z.quot_le_mono 2 n 2 ltac:(lia) Hn).
  destruct (replicate_all V s rf) as (s' & rf' & Hr & Hl' & Hm & Hk); try done.
  { intros HV. rewrite HV in Hlen. unfold go_len in *. cbn in Hlen. lia. }
  { intros j [? ?]%list_elem_of_filter. split_and!; [done|by apply Hrange..|done]. }
  pose proof (leads_sane _ _ Hl') as Hsn. pose proof (sn_commit _ _ _ Hsn) as Hcm. rewrite (ld_logs _ _ Hl') in Hcm.
  assert (commitIndex rf' = last) as Hci.
  { destruct (decide (commitIndex rf' = last)); [done|]. exfalso. apply (Hk last); [lia|].
    destruct (proj1 (fmap_Some _ _ _) Hend) as (e & He & Hte). exists e.
    unfold entry_at, convertToStorageIndex. rewrite (sn_index _ _ _ Hsn), Z.sub_0_r, (ld_logs _ _ Hl'), (ld_term _ _ Hl').
    split_and!; [apply go_index_Ok; split; [lia|done]|done|].
    rewrite (sn_npeers _ _ _ Hsn). unfold acked. rewrite (sn_me _ _ _ Hsn), (sn_npeers _ _ _ Hsn).
    enough (length V ≤ length (filter (λ i, i ≠ c ∧ last ≤ default (-1) (matchIndex rf' !! Z.to_nat i))%Z (seqZ 0 n)))%nat
      by (unfold go_len in *; lia).
    apply submseteq_length, NoDup_submseteq; [by apply NoDup_filter|].
    intros j Hj. pose proof Hj as [Hne HjW]%list_elem_of_filter. apply list_elem_of_filter. split.
    - split; [done|]. destruct (proj1 (go_index_Ok _ _ _) (Hm j Hj)) as [_ ->]. done.
    - apply elem_of_seqZ. specialize (Hrange j HjW). lia. }
  exists s', rf'. split_and!; try done. destruct (ld_apply _ _ Hl') as [?|?]; [lia|done].
Qed.
End Leader.

(** ** The command is taken *)
Lemma takes_command n W s c rf command :
  2 ≤ n → reach n s → nodes (base s) !! c = Some rf → role rf = Leader → dead rf = false →
  (∀ k rfk, k ∈ W → nodes (base s) !! k = Some rfk → currentTerm rfk ≤ currentTerm rf) →
  let e := {| le_Term := currentTerm rf; le_Command := Some command |} in
  ∃ s', run step s [] s' ∧ leads n W c (currentTerm rf) (lastApplied rf) (logs rf ++ [e]) s' (set_logs (logs rf ++ [e]) rf).
Proof.
  intros Hn Hre Hi Hl Hd Hmax e. pose proof (reach_sane n s c rf ltac:(lia) Hre Hi) as Hsn.
  assert (GetState rf = (currentTerm rf, true)) as Hgs by (unfold GetState; by rewrite Hl).
  pose proof (run_one _ _ _ _ (rs_command same_term saved_crash orderly s c rf _ command Hi Hgs)) as Hr1.
  set (s1 := {| base := base s; items := _ |}) in Hr1.
  destruct (do_item s1 (TStart c (currentTerm rf) command) rf 0 (set_logs (logs rf ++ [e]) rf) [TPersist c] None)
    as (s2 & Hs2 & Hb2 & _ & _); [apply elem_of_app; right; by left|done|by split_and!|done|].
  pose proof (run_silent _ _ _ _ Hr1 (run_one _ _ _ _ Hs2)) as Hr2. exists s2. split; [exact Hr2|].
  assert (nodes (base s2) = <[c := set_logs (logs rf ++ [e]) rf]> (nodes (base s))) as Hnd by by rewrite Hb2.
  split; try done.
  - by eapply reach_run.
  - by rewrite Hnd, lookup_insert_eq.
  - intros i rfi HiW. rewrite Hnd. intros [[_ <-]|[_ ?]]%lookup_insert_Some; [done|by eapply Hmax].
  - left. cbn. unfold go_len. rewrite length_app. cbn. pose proof (sn_commit _ _ _ Hsn). unfold go_len in *. lia.
Qed.

(** ** The messages go to the service *)
Lemma deliver_all c msgs : ∀ s rf,
  nodes (base s) !! c = Some rf → TDeliver c msgs ∈ items s → ∃ s', run step s (pair c <$> msgs) s'.
Proof.
  induction msgs as [|msg msgs IH]; intros s rf Hi Hit; [exists s; constructor|].
  destruct (do_item s (TDeliver c (msg :: msgs)) rf 0 rf [TApplied c msg msgs] (Some (c, msg)))
    as (s1 & Hs1 & Hb1 & Hits1 & _); [done|done|by split_and!|done|].
  destruct (do_item s1 (TApplied c msg msgs) rf 0 (applied msg rf) [TDeliver c msgs] None)
    as (s2 & Hs2 & Hb2 & Hits2 & _);
    [apply Hits1; by left|rewrite Hb1; cbn; by rewrite lookup_insert_eq|by split_and!|done|].
  destruct (IH s2 (applied msg rf)) as [s' Hr]; [rewrite Hb2; cbn; by rewrite lookup_insert_eq|apply Hits2; by left|].
  exists s'. rewrite fmap_cons. eapply run_event; [exact Hs1|]. by eapply run_tau.
Qed.

Lemma applies n W c t la lg s rf e :
  2 ≤ n → leads n W c t la lg s rf → commitIndex rf = go_len lg - 1 → TApply c ∈ items s → la < go_len lg - 1 →
  lg !! Z.to_nat (go_len lg - 1) = Some e →
  ∃ s' tr', run step s tr' s' ∧ (c, command_msg (go_len lg - 1) e) ∈ tr'.
Proof.
  intros Hn Hl Hci Hit Hlt He. pose proof (leads_sane n Hn _ _ _ _ _ _ _ Hl) as Hsn.
  pose proof Hl as [_ Hnode _ _ _ Hlg Hla _ _]. pose proof (sn_applied _ _ _ Hsn) as Hap. rewrite Hla in Hap.
  destruct (applyLogs_spec rf (sn_ok _ _ _ Hsn)) as [Hmsgs _]; [rewrite (sn_index _ _ _ Hsn); lia|].
  destruct Hmsgs as (msgs & Ha & Hlen & Hk).
  { unfold getLastLogicalIndex. rewrite (sn_index _ _ _ Hsn), Hlg, Hci. lia. }
  destruct (do_item s (TApply c) rf 0 rf [TDeliver c msgs] None) as (s1 & Hs1 & Hb1 & Hits1 & _);
    [done|done|by split_and!|cbn; by rewrite Ha|].
  destruct (deliver_all c msgs s1 rf) as [s' Hr]; [rewrite Hb1; cbn; by rewrite lookup_insert_eq|apply Hits1; by left|].
  exists s', (pair c <$> msgs). split; [by eapply run_tau|]. apply list_elem_of_fmap. eexists. split; [done|].
  specialize (Hk (go_len lg - 1 - la - 1) e). rewrite Hla, Hci in Hk.
  replace (la + 1 + (go_len lg - 1 - la - 1)) with (go_len lg - 1) in Hk by lia.
  apply list_elem_of_lookup_2 with (Z.to_nat (go_len lg - 1 - la - 1)). apply go_index_Ok, Hk; [lia| |lia].
  unfold entry_at, convertToStorageIndex. rewrite (sn_index _ _ _ Hsn), Z.sub_0_r, Hlg. apply go_index_Ok. split; [lia|done].
Qed.

(** C3. A majority gets a command through: in every state that an orderly cluster of
    two or more servers reaches (votes counted in their term, no crash between an
    election's requests and the save of its term, items in the orderly way, no
    snapshots of the services), whatever else was lost, delayed, crashed or
    restarted, any majority of servers that are up can go on, for any command,
    to the delivery of that command to the service of one of them, at an index
    behind everything that any service was sent before.  No other server needs
    to answer. *)
Theorem majority_delivers n tr s W command :
  2 ≤ n → quorum n W → run (repl_step same_term saved_crash orderly) (repl_init n) tr s →
  (∀ i rf, i ∈ W → nodes (base s) !! i = Some rf → dead rf = false) →
  ∃ s' tr' i msg, run (repl_step same_term saved_crash orderly) s tr' s' ∧ i ∈ W ∧ (i, msg) ∈ tr' ∧
    CommandValid msg = true ∧ Command msg = Some command ∧
    ∀ j msg', (j, msg') ∈ tr → CommandIndex msg' < CommandIndex msg.
Proof.
  intros Hn HW Hr Hup. pose proof HW as [H0 Hnd Hrange Hmaj].
  destruct (majority_elects n tr s W Hn HW Hr Hup) as (s1 & c & rf & Hr1 & Hc & Hrf & Hl & Hd & Hmax).
  pose proof (run_trans _ _ _ _ _ _ Hr Hr1) as Hall. rewrite app_nil_r in Hall.
  assert (∀ j msg, (j, msg) ∈ tr → CommandIndex msg < go_len (logs rf)) as Hold.
  { intros j msg Hin. destruct (leader_delivered n tr s1 W c rf j msg) as [? Hdel]; try done.
    apply fmap_Some in Hdel as (e & He & _). apply lookup_lt_Some in He. unfold go_len. lia. }
  assert (lastApplied rf < go_len (logs rf)) as Hla.
  { pose proof (sn_length _ _ _ (reach_sane n s1 c rf H0 (ex_intro _ tr Hall) Hrf)) as Hlen.
    pose proof (accepted_run n _ _ [] _ tr s1 (cinv_init n H0) ltac:(constructor) (accepted_init n) Hall) as [_ Hord _].
    destruct (or_peer _ _ Hord _ _ Hrf) as [?|(v & m & Hin & _ & <- & _)]; [lia|]. by apply (Hold c). }
  destruct (takes_command n W s1 c rf command Hn (ex_intro _ tr Hall) Hrf Hl Hd Hmax) as (s2 & Hr2 & Hl2).
  set (e := {| le_Term := currentTerm rf; le_Command := Some command |}) in Hl2.
  assert (go_len (logs rf ++ [e]) - 1 = go_len (logs rf)) as Hlast by (unfold go_len; rewrite length_app; cbn; lia).
  assert ((logs rf ++ [e]) !! Z.to_nat (go_len (logs rf ++ [e]) - 1) = Some e) as He.
  { rewrite Hlast. unfold go_len. rewrite Nat2Z.id. by apply list_lookup_middle. }
  assert (0 ≤ currentTerm rf) as Ht0.
  { destruct (cinv_run _ _ _ _ _ (cinv_init n H0) Hall) as (G & A & [[Hk _] _] & _). apply (kn_terms _ _ Hk _ _ Hrf). }
  destruct (commits n Hn W c _ _ _ s2 _ Hl2 Hnd Hmaj Hrange Hc Ht0) as (s3 & rf3 & Hr3 & Hl3 & Hci & Hit);
    [by rewrite He|].
  destruct (applies n W c _ _ _ s3 rf3 e Hn Hl3 Hci Hit) as (s4 & tr4 & Hr4 & Hin); [lia|done|].
  exists s4, tr4, c, (command_msg (go_len (logs rf ++ [e]) - 1) e). split_and!; try done.
  - eapply (run_trans _ _ [] _ tr4); [|exact Hr4]. by eauto using run_silent.
  - intros j msg' Hin'. cbn. rewrite Hlast. by eapply Hold.
Qed.
End Delivers.

(** The orderly run of [ReplicationRuns]: 0 leads and has applied command 7;
    without it, 1 and 2 get command 8 through. *)
#[local] Existing Instance z_gob.

Lemma majority_delivers_witness :
  ∃ (s s' : rcluster Z) tr' i msg, run (repl_step same_term saved_crash orderly) s tr' s' ∧ i ∈ [1; 2] ∧ (i, msg) ∈ tr' ∧
    Command msg = Some 8 ∧ 1 < CommandIndex msg.
Proof.
  destruct orderly_run as (s & rf0 & Hrun & _ & _ & Hup).
  destruct (majority_delivers 3 _ s [1; 2] 8 ltac:(lia) one_and_two Hrun (λ i rf _ Hi, proj2 (Hup i rf Hi)))
    as (s' & tr' & i & msg & Hr & Hi & Hin & _ & Hc & Hnew).
  exists s, s', tr', i, msg. split_and!; [exact Hr|exact Hi|exact Hin|exact Hc|].
  apply (Hnew 0 (command_msg 1 entry_7)). left.
Defined.

Lemma leader_sends_witness :
  ∃ (s : rcluster Z) i rf args isSnapshot, nodes (base s) !! i = Some rf ∧ role rf = Leader ∧
    genAppendEntries 0 rf = Ok (args, isSnapshot).
Proof.
  destruct orderly_run as (s & rf0 & Hrun & _ & _ & Hup).
  destruct (majority_elects 3 _ s [1; 2] ltac:(lia) one_and_two Hrun (λ i rf _ Hi, proj2 (Hup i rf Hi)))
    as (s' & i & rf & Hr & Hi & Hrf & Hl & _).
  destruct (leader_sends 3 _ s' i rf 0 ltac:(lia) (run_trans _ _ _ _ _ _ Hrun Hr) Hrf Hl ltac:(lia)) as (args & sn & Hg).
  by exists s', i, rf, args, sn.
Defined.
