(* ===== verification/KvraftConfig.v ===== *)
(** * The test configuration of the replicated services (src/src/kvraft/config.go)

    kvraft's service is a skeleton: its server wraps a Raft peer and its
    handlers are empty.  Its configuration is not: it starts and stops
    servers, splits the net and connects clerks.  The configuration of
    shardctrler (src/src/shardctrler/config.go) is the same code on another
    server type, so both are instances of the definitions here.

    [make_config_connected]: a new configuration runs every server and links
    every pair.  [partition_splits]: after [partition] the servers of one side
    reach each other, no server reaches one of the other side, and nothing else
    has changed.  [leader_partitioned]: with an odd number of servers
    [make_partition] and [partition] isolate the leader in a minority;
    [make_partition_even]: with an even number there is no such split.
    [random_handles_perm]: a clerk gets its servers in another order. *)
From S2P Require Import Prelude GoLib Labrpc Raft Harness.
Local Open Scope Z_scope.

(** ** Shuffling *)

(** [sa[i], sa[j] = sa[j], sa[i]] *)
Definition swap {A} (i j : Z) (l : list A) : outcome (list A) :=
  x ← go_index l i;
  y ← go_index l j;
  l ← go_set l i y;
  go_set l j x.

(** [draws i] is what [rand.Intn(i + 1)] returns. *)
Definition random_handles {A} (draws : Z → Z) (kvh : list A) : outcome (list A) :=
  go_for (upto (go_len kvh)) (λ i sa, swap i (draws i) sa) kvh.

(** ** Links between servers *)
Definition connectUnlocked (tbl : name_table) (i : Z) (to : list Z) (rn : Network) : outcome Network :=
  rn ← enable_each true to (λ t, Some <$> endname_of tbl i t) rn;
  enable_each true to (λ t, Some <$> endname_of tbl t i) rn.

(** The second loop tests the row of its counter, not that of the server. *)
Definition disconnectUnlocked (tbl : name_table) (i : Z) (from : list Z) (rn : Network) : outcome Network :=
  rn ← enable_each false from
         (λ f, r ← has_row tbl i; if r : bool then Some <$> endname_of tbl i f else Ok None) rn;
  enable_each false (upto (go_len from))
    (λ j, r ← has_row tbl j;
          if r : bool then f ← go_index from j; Some <$> endname_of tbl f i else Ok None) rn.

Definition All (n : Z) : list Z := upto n.

Definition ConnectAll (tbl : name_table) (n : Z) (rn : Network) : outcome Network :=
  go_for (upto n) (λ i rn, connectUnlocked tbl i (All n) rn) rn.

Definition partition (tbl : name_table) (p1 p2 : list Z) (rn : Network) : outcome Network :=
  rn ← go_for p1 (λ i rn, rn ← disconnectUnlocked tbl i p2 rn; connectUnlocked tbl i p1 rn) rn;
  go_for p2 (λ i rn, rn ← disconnectUnlocked tbl i p1 rn; connectUnlocked tbl i p2 rn) rn.

(** [make_partition], [l] being what [Leader] returns. *)
Definition split_step (l len1 : Z) (i : Z) (st : Z * list Z * list Z) : outcome (Z * list Z * list Z) :=
  let '(j, p1, p2) := st in
  if decide (i = l) then Ok st
  else if decide (j < len1) then p1 ← go_set p1 j i; Ok (j + 1, p1, p2)
  else p2 ← go_set p2 (j - len1) i; Ok (j + 1, p1, p2).

Definition make_partition (n l : Z) : outcome (list Z * list Z) :=
  let p1 := replicate (Z.to_nat (n `quot` 2 + 1)) 0 in
  let p2 := replicate (Z.to_nat (n `quot` 2)) 0 in
  '(_, p1, p2) ← go_for (upto n) (split_step l (go_len p1)) (0, p1, p2);
  p2 ← go_set p2 (go_len p2 - 1) l;
  Ok (p1, p2).

(** ** The configuration *)
Section Config.
(** The server type, with the peer it wraps and how it is started. *)
Context {Cmd Srv : Type} `{!Gob Cmd}.
Context (srv_raft : Srv → Raft Cmd)
        (srv_start : Z → Z → Persister → Z → Z → outcome Srv).

Record kconfig := {
  kc_net : Network;
  kc_n : Z;
  kc_servers : list (option Srv);
  kc_saved : list (option Persister);
  kc_endnames : name_table;
  kc_clerks : gmap positive (list string);  (* by the clerk's address *)
  kc_nextClientId : Z;
  kc_maxraftstate : Z;
  kc_rpcs0 : Z;
  kc_ops : Z;
}.

Definition kc_set_net rn (cfg : kconfig) : kconfig :=
  {| kc_net := rn; kc_n := kc_n cfg; kc_servers := kc_servers cfg; kc_saved := kc_saved cfg;
     kc_endnames := kc_endnames cfg; kc_clerks := kc_clerks cfg; kc_nextClientId := kc_nextClientId cfg;
     kc_maxraftstate := kc_maxraftstate cfg; kc_rpcs0 := kc_rpcs0 cfg; kc_ops := kc_ops cfg |}.
Definition kc_set_servers svs sd (cfg : kconfig) : kconfig :=
  {| kc_net := kc_net cfg; kc_n := kc_n cfg; kc_servers := svs; kc_saved := sd;
     kc_endnames := kc_endnames cfg; kc_clerks := kc_clerks cfg; kc_nextClientId := kc_nextClientId cfg;
     kc_maxraftstate := kc_maxraftstate cfg; kc_rpcs0 := kc_rpcs0 cfg; kc_ops := kc_ops cfg |}.
Definition kc_set_endnames tbl (cfg : kconfig) : kconfig :=
  {| kc_net := kc_net cfg; kc_n := kc_n cfg; kc_servers := kc_servers cfg; kc_saved := kc_saved cfg;
     kc_endnames := tbl; kc_clerks := kc_clerks cfg; kc_nextClientId := kc_nextClientId cfg;
     kc_maxraftstate := kc_maxraftstate cfg; kc_rpcs0 := kc_rpcs0 cfg; kc_ops := kc_ops cfg |}.
Definition kc_set_clerks ck next (cfg : kconfig) : kconfig :=
  {| kc_net := kc_net cfg; kc_n := kc_n cfg; kc_servers := kc_servers cfg; kc_saved := kc_saved cfg;
     kc_endnames := kc_endnames cfg; kc_clerks := ck; kc_nextClientId := next;
     kc_maxraftstate := kc_maxraftstate cfg; kc_rpcs0 := kc_rpcs0 cfg; kc_ops := kc_ops cfg |}.

(** [cfg.saved[i]], shared with the server that runs. *)
Definition kc_saved_of (i : Z) (cfg : kconfig) : outcome (option Persister) :=
  sv ← go_index (kc_servers cfg) i;
  match sv with
  | Some sv => Ok (Some (persister (srv_raft sv)))
  | None => go_index (kc_saved cfg) i
  end.

(** The same on the configuration, under its lock. *)
Definition kc_connect (i : Z) (to : list Z) (cfg : kconfig) : outcome kconfig :=
  rn ← connectUnlocked (kc_endnames cfg) i to (kc_net cfg); Ok (kc_set_net rn cfg).
Definition kc_disconnect (i : Z) (from : list Z) (cfg : kconfig) : outcome kconfig :=
  rn ← disconnectUnlocked (kc_endnames cfg) i from (kc_net cfg); Ok (kc_set_net rn cfg).

(** The largest size over all servers: [LogSize] and [SnapshotSize]. *)
Definition max_size (size : Persister → Z) (cfg : kconfig) : outcome Z :=
  go_for (upto (kc_n cfg))
    (λ i m, ps ← kc_saved_of i cfg;
            match ps with
            | Some p => Ok (if decide (m < size p) then size p else m)
            | None => Panic
            end) 0.
Definition kc_LogSize : kconfig → outcome Z := max_size RaftStateSize.
Definition kc_SnapshotSize : kconfig → outcome Z := max_size SnapshotSize.

(** A missing clerk has no end points: a nil slice. *)
Definition client_enable (yes : bool) (ck : positive) (tos : list Z) (cfg : kconfig) : outcome kconfig :=
  let endnames := map_get [] (kc_clerks cfg) ck in
  rn ← enable_each yes tos (λ t, Some <$> go_index endnames t) (kc_net cfg);
  Ok (kc_set_net rn cfg).
Definition ConnectClientUnlocked := client_enable true.
Definition DisconnectClientUnlocked := client_enable false.
Definition kc_ConnectClient := ConnectClientUnlocked.
Definition kc_DisconnectClient := DisconnectClientUnlocked.

(** [ck] is the address of the new clerk, [names] the names drawn; the order
    of its servers is [random_handles]. *)
Definition makeClient (ck : positive) (names : Z → string) (draws : Z → Z) (to : list Z) (cfg : kconfig)
    : outcome (kconfig * list ClientEnd) :=
  let row := names <$> upto (kc_n cfg) in
  rn ← make_ends row SInt (upto (kc_n cfg)) (kc_net cfg);
  handles ← random_handles draws ((λ nm, {| ce_endname := nm |}) <$> row);
  let cfg := kc_set_clerks (<[ck := row]> (kc_clerks cfg)) (kc_nextClientId cfg + 1) (kc_set_net rn cfg) in
  cfg ← ConnectClientUnlocked ck to cfg;
  Ok (cfg, handles).

Definition deleteClient (ck : positive) (cfg : kconfig) : kconfig :=
  kc_set_clerks (delete ck (kc_clerks cfg)) (kc_nextClientId cfg) cfg.

Definition ShutdownServer (i : Z) (cfg : kconfig) : outcome kconfig :=
  rn ← disconnectUnlocked (kc_endnames cfg) i (All (kc_n cfg)) (kc_net cfg);
  let rn := DeleteServer (SInt i) rn in
  ps ← kc_saved_of i cfg;
  saved ← go_set (kc_saved cfg) i (Persister_Copy <$> ps);
  servers ← go_set (kc_servers cfg) i None;
  Ok (kc_set_servers servers saved (kc_set_net rn cfg)).

Definition StartServer (i : Z) (names : Z → string) (srv : positive) (now : Z) (cfg : kconfig)
    : outcome kconfig :=
  let row := names <$> upto (kc_n cfg) in
  tbl ← go_set (kc_endnames cfg) i (Some row);
  rn ← make_ends row SInt (upto (kc_n cfg)) (kc_net cfg);
  ps ← kc_saved_of i cfg;
  let p := match ps with Some p => Persister_Copy p | None => MakePersister end in
  sv ← srv_start (kc_n cfg) i p (kc_maxraftstate cfg) now;
  saved ← go_set (kc_saved cfg) i (Some p);
  servers ← go_set (kc_servers cfg) i (Some sv);
  Ok (kc_set_servers servers saved (kc_set_endnames tbl (kc_set_net (AddServer (SInt i) srv rn) cfg))).

(** The first server that says it leads; a server that is down panics. *)
Fixpoint find_leader (i : Z) (svs : list (option Srv)) : outcome (bool * Z) :=
  match svs with
  | [] => Ok (false, 0)
  | None :: _ => Panic
  | Some sv :: svs => if (GetState (srv_raft sv)).2 then Ok (true, i) else find_leader (i + 1) svs
  end.
Definition kc_Leader (cfg : kconfig) : outcome (bool * Z) := find_leader 0 (kc_servers cfg).

Definition kc_empty (n maxraftstate : Z) : kconfig :=
  {| kc_net := MakeNetwork; kc_n := n; kc_servers := replicate (Z.to_nat n) None;
     kc_saved := replicate (Z.to_nat n) None; kc_endnames := replicate (Z.to_nat n) None;
     kc_clerks := ∅; kc_nextClientId := n + 1000; kc_maxraftstate := maxraftstate;
     kc_rpcs0 := 0; kc_ops := 0 |}.

(** [kill] is the server's own [Kill]. *)
Definition kc_cleanup (kill : Srv → Srv) (cfg : kconfig) : outcome kconfig :=
  rn ← Cleanup (kc_net cfg);
  Ok (kc_set_servers (map (option_map kill) (kc_servers cfg)) (kc_saved cfg) (kc_set_net rn cfg)).

Definition kc_rpcTotal (cfg : kconfig) : Z := rn_count (kc_net cfg).

Definition kc_set_stats rpcs0 ops (cfg : kconfig) : kconfig :=
  {| kc_net := kc_net cfg; kc_n := kc_n cfg; kc_servers := kc_servers cfg; kc_saved := kc_saved cfg;
     kc_endnames := kc_endnames cfg; kc_clerks := kc_clerks cfg; kc_nextClientId := kc_nextClientId cfg;
     kc_maxraftstate := kc_maxraftstate cfg; kc_rpcs0 := rpcs0; kc_ops := ops |}.
Definition kc_begin (cfg : kconfig) : kconfig := kc_set_stats (kc_rpcTotal cfg) 0 cfg.
Definition kc_op (cfg : kconfig) : kconfig := kc_set_stats (kc_rpcs0 cfg) (wrap32 (kc_ops cfg + 1)) cfg.
(** The peers, calls and operations that [end] prints. *)
Definition kc_end (cfg : kconfig) : Z * Z * Z := (kc_n cfg, kc_rpcTotal cfg - kc_rpcs0 cfg, kc_ops cfg).

Definition kc_make_config (n maxraftstate : Z) (unreliable : bool) (names : Z → Z → string)
    (srv : Z → positive) (now : Z) : outcome kconfig :=
  cfg ← go_for (upto n) (λ i cfg, StartServer i (names i) (srv i) now cfg) (kc_empty n maxraftstate);
  rn ← ConnectAll (kc_endnames cfg) (kc_n cfg) (kc_net cfg);
  Ok (kc_set_net (Reliable (negb unreliable) rn) cfg).
End Config.

(** ** kvraft's server *)
Record kvraft_server (Cmd : Type) := {
  kv_me : Z;
  kv_rf : Raft Cmd;
  kv_dead : bool;
  kv_maxraftstate : Z;
}.
Arguments kv_me {_}.
Arguments kv_rf {_}.
Arguments kv_dead {_}.
Arguments kv_maxraftstate {_}.

Definition kvraft_Kill {Cmd} (kv : kvraft_server Cmd) : kvraft_server Cmd :=
  {| kv_me := kv_me kv; kv_rf := Kill (kv_rf kv); kv_dead := true; kv_maxraftstate := kv_maxraftstate kv |}.

Definition kvraft_killed {Cmd} (kv : kvraft_server Cmd) : bool := kv_dead kv.

Definition kvraft_StartKVServer {Cmd} `{!Gob Cmd} (n me_ : Z) (p : Persister) (maxraftstate now : Z)
    : outcome (kvraft_server Cmd) :=
  rf ← Make n me_ p now;
  Ok {| kv_me := me_; kv_rf := rf; kv_dead := false; kv_maxraftstate := maxraftstate |}.

(** ** Shuffling *)
Lemma swap_perm {A} i j (l l' : list A) : swap i j l = Ok l' → l' ≡ₚ l.
Proof.
  unfold swap. intros Hs. apply bind_Ok in Hs as (x & [Hi Hx]%go_index_Ok & Hs).
  apply bind_Ok in Hs as (y & [Hj Hy]%go_index_Ok & Hs).
  apply bind_Ok in Hs as (l1 & [_ ->]%go_set_Ok & [_ ->]%go_set_Ok).
  by apply Permutation_insert_swap.
Qed.

Lemma swap_total {A} i j (l : list A) :
  0 ≤ i < go_len l → 0 ≤ j < go_len l → ∃ l', swap i j l = Ok l'.
Proof.
  intros Hi Hj. unfold swap. destruct (go_index_in_range l i Hi) as [x ->].
  destruct (go_index_in_range l j Hj) as [y ->]. cbn.
  assert (go_set l i y = Ok (<[Z.to_nat i := y]> l)) as Hset by (by apply go_set_Ok). rewrite Hset; cbn.
  exists (<[Z.to_nat j := x]> (<[Z.to_nat i := y]> l)). apply go_set_Ok. unfold go_len in *.
  by rewrite length_insert.
Qed.

(** [random_handles] returns, for every draw in range, the same handles in
    another order. *)
Theorem random_handles_perm {A} draws (kvh : list A) :
  (∀ i, 0 ≤ i < go_len kvh → 0 ≤ draws i ≤ i) →
  ∃ sa, random_handles draws kvh = Ok sa ∧ sa ≡ₚ kvh.
Proof.
  intros Hd. unfold random_handles.
  apply (go_for_total (λ _ sa, sa ≡ₚ kvh) (upto (go_len kvh))); [done|].
  intros ds i sa Hp Hi%elem_of_seqZ.
  assert (go_len sa = go_len kvh) as Hlen by (unfold go_len; by rewrite Hp).
  destruct (Hd i ltac:(lia)) as [? ?].
  destruct (swap_total i (draws i) sa) as [sa' Hsa]; [lia|lia|]. exists sa'. split; [done|].
  by rewrite (swap_perm _ _ _ _ Hsa).
Qed.

(** ** Partitions *)
Record table_ok (tbl : name_table) (n : Z) : Prop := {
  tk_row : ∀ i, i ∈ upto n → ∃ row, go_index tbl i = Ok (Some row) ∧ go_len row = n;
  tk_inj : ∀ a b a' b' nm, endname_of tbl a b = Ok nm → endname_of tbl a' b' = Ok nm → a = a' ∧ b = b';
}.

(** The end point from [a] to [b] is switched on. *)
Definition linked (tbl : name_table) (rn : Network) (a b : Z) : Prop :=
  ∃ nm, endname_of tbl a b = Ok nm ∧ is_enabled rn nm = true.

Lemma endname_of_total tbl n a b :
  table_ok tbl n → a ∈ upto n → b ∈ upto n → ∃ nm, endname_of tbl a b = Ok nm.
Proof.
  intros Hok Ha Hb%elem_of_seqZ. destruct (tk_row _ _ Hok a Ha) as (row & Hr & Hl).
  unfold endname_of. rewrite Hr. apply go_index_in_range. lia.
Qed.

Lemma has_row_true tbl n i : table_ok tbl n → i ∈ upto n → has_row tbl i = Ok true.
Proof. intros Hok Hi. destruct (tk_row _ _ Hok i Hi) as (row & Hr & _). unfold has_row. by rewrite Hr. Qed.

Lemma linked_enabled tbl n rn a b nm :
  table_ok tbl n → endname_of tbl a b = Ok nm → linked tbl rn a b ↔ is_enabled rn nm = true.
Proof.
  intros Hok Hn. split; [intros (nm' & Hn' & He); congruence|]. intros He. by exists nm.
Qed.

(** The names of the pairs [f t], [g t]. *)
Lemma named_pairs tbl n js (f g : Z → Z) (name : Z → outcome (option string)) a b nm :
  table_ok tbl n → endname_of tbl a b = Ok nm →
  (∀ t, t ∈ js → name t = Some <$> endname_of tbl (f t) (g t)) →
  named js name nm ↔ ∃ t, t ∈ js ∧ a = f t ∧ b = g t.
Proof.
  intros Hok Hn Hname. unfold named. split.
  - intros (t & Ht & Hnm). rewrite (Hname t Ht) in Hnm. apply fmap_Ok in Hnm as (nm' & Hn' & [= ->]).
    exists t. split; [done|]. by eapply tk_inj.
  - intros (t & Ht & -> & ->). exists t. split; [done|]. by rewrite (Hname t Ht), Hn.
Qed.

Lemma connect_linked tbl n i to rn rn' a b :
  table_ok tbl n → a ∈ upto n → b ∈ upto n → connectUnlocked tbl i to rn = Ok rn' →
  linked tbl rn' a b ↔ a = i ∧ b ∈ to ∨ b = i ∧ a ∈ to ∨ linked tbl rn a b.
Proof.
  intros Hok Ha Hb Hc. apply bind_Ok in Hc as (rn1 & H1 & H2).
  destruct (endname_of_total tbl n a b Hok Ha Hb) as [nm Hnm].
  rewrite !(linked_enabled tbl n _ a b nm) by done.
  rewrite (enabled_each_on _ _ _ _ nm H2), (enabled_each_on _ _ _ _ nm H1).
  rewrite (named_pairs tbl n _ (λ t, t) (λ _, i) _ a b nm) by done.
  rewrite (named_pairs tbl n _ (λ _, i) (λ t, t) _ a b nm) by done.
  naive_solver.
Qed.

Lemma disconnect_linked tbl n i from rn rn' a b :
  table_ok tbl n → a ∈ upto n → b ∈ upto n → i ∈ upto n → go_len from ≤ n →
  disconnectUnlocked tbl i from rn = Ok rn' →
  linked tbl rn' a b ↔ ¬ (a = i ∧ b ∈ from) ∧ ¬ (b = i ∧ a ∈ from) ∧ linked tbl rn a b.
Proof.
  intros Hok Ha Hb Hi Hlen Hc. apply bind_Ok in Hc as (rn1 & H1 & H2).
  destruct (endname_of_total tbl n a b Hok Ha Hb) as [nm Hnm].
  rewrite !(linked_enabled tbl n _ a b nm) by done.
  rewrite (enabled_each_off _ _ _ _ nm H2), (enabled_each_off _ _ _ _ nm H1).
  rewrite (named_pairs tbl n from (λ _, i) (λ t, t) _ a b nm);
    [|done|done|intros t _; by rewrite (has_row_true tbl n i)].
  rewrite (named_pairs tbl n _ (λ j, nth (Z.to_nat j) from 0) (λ _, i) _ a b nm); [|done|done|].
  2:{ intros j Hj. rewrite (has_row_true tbl n j) by (done || (apply elem_of_seqZ in Hj; apply elem_of_seqZ; lia)).
      apply elem_of_seqZ in Hj. cbn. destruct (go_index_in_range from j) as [f Hf]; [lia|]. rewrite Hf; cbn.
      apply go_index_Ok in Hf as [_ Hf]. by rewrite (nth_lookup_Some _ _ _ _ Hf). }
  assert ((∃ t, t ∈ upto (go_len from) ∧ a = nth (Z.to_nat t) from 0 ∧ b = i) ↔ b = i ∧ a ∈ from) as ->.
  { split.
    - intros (t & Ht%elem_of_seqZ & -> & ->). split; [done|].
      destruct (go_index_in_range from t) as [f Hf]; [lia|]. apply go_index_Ok in Hf as [_ Hf].
      rewrite (nth_lookup_Some _ _ _ _ Hf). by eapply list_elem_of_lookup_2.
    - intros [-> [k Hk]%list_elem_of_lookup_1]. exists (Z.of_nat k). rewrite Nat2Z.id.
      rewrite (nth_lookup_Some _ _ _ _ Hk). apply lookup_lt_Some in Hk. rewrite elem_of_seqZ.
      unfold go_len. split; [lia|done]. }
  naive_solver.
Qed.

Lemma connect_total tbl n i to rn :
  table_ok tbl n → i ∈ upto n → to ⊆ upto n → ∃ rn', connectUnlocked tbl i to rn = Ok rn'.
Proof.
  intros Hok Hi Hto. unfold connectUnlocked.
  destruct (enable_each_total true to (λ t, Some <$> endname_of tbl i t) rn) as [rn1 ->].
  { intros t Ht. destruct (endname_of_total tbl n i t Hok Hi (Hto _ Ht)) as [nm ->]. by eexists. }
  apply enable_each_total. intros t Ht.
  destruct (endname_of_total tbl n t i Hok (Hto _ Ht) Hi) as [nm ->]. by eexists.
Qed.

Lemma disconnect_total tbl n i from rn :
  table_ok tbl n → i ∈ upto n → from ⊆ upto n → go_len from ≤ n →
  ∃ rn', disconnectUnlocked tbl i from rn = Ok rn'.
Proof.
  intros Hok Hi Hfrom Hlen. unfold disconnectUnlocked.
  edestruct (enable_each_total false from) as [rn1 Hrn1]; [|rewrite Hrn1].
  { intros f Hf. cbv beta. rewrite (has_row_true tbl n i) by done. cbn.
    destruct (endname_of_total tbl n i f Hok Hi (Hfrom _ Hf)) as [nm ->]. by eexists. }
  apply enable_each_total. intros j Hj%elem_of_seqZ.
  rewrite (has_row_true tbl n j); [|done|apply elem_of_seqZ; lia]. cbn.
  destruct (go_index_in_range from j) as [f Hf]; [lia|]. rewrite Hf; cbn.
  apply go_index_Ok in Hf as [_ Hf%list_elem_of_lookup_2].
  destruct (endname_of_total tbl n f i Hok (Hfrom _ Hf) Hi) as [nm ->]. by eexists.
Qed.

(** One of the two loops of [partition]: the side's servers leave the other
    side and join each other. *)
Definition joined (side : list Z) (a b : Z) : Prop := a ∈ side ∧ b ∈ side.
Definition across (side other : list Z) (a b : Z) : Prop :=
  a ∈ side ∧ b ∈ other ∨ b ∈ side ∧ a ∈ other.

Lemma half_partition tbl n side other rn :
  table_ok tbl n → side ⊆ upto n → other ⊆ upto n → go_len other ≤ n → side ## other →
  ∃ rn', go_for side (λ i rn, rn ← disconnectUnlocked tbl i other rn; connectUnlocked tbl i side rn) rn
           = Ok rn' ∧
    ∀ a b, a ∈ upto n → b ∈ upto n →
      linked tbl rn' a b ↔ joined side a b ∨ ¬ across side other a b ∧ linked tbl rn a b.
Proof.
  intros Hok Hs Ho Hlen Hdis.
  destruct (go_for_total (λ ds rn1, ds ⊆ side ∧ ∀ a b, a ∈ upto n → b ∈ upto n →
      linked tbl rn1 a b ↔ a ∈ ds ∧ b ∈ side ∨ b ∈ ds ∧ a ∈ side ∨
        ¬ across ds other a b ∧ linked tbl rn a b) side
      (λ i rn, rn ← disconnectUnlocked tbl i other rn; connectUnlocked tbl i side rn) rn)
    as (rn' & Hf & _ & HI).
  - split; [set_solver|]. intros a b _ _. unfold across. set_solver.
  - intros ds i rn1 [Hds HI] Hi.
    destruct (disconnect_total tbl n i other rn1) as [rn2 H2]; [done|by apply Hs|done|done|].
    destruct (connect_total tbl n i side rn2) as [rn3 H3]; [done|by apply Hs|done|].
    exists rn3. rewrite H2; cbn. split; [done|]. split; [set_solver|]. intros a b Ha Hb.
    rewrite (connect_linked tbl n i side rn2 rn3 a b), (disconnect_linked tbl n i other rn1 rn2 a b), HI
      by (done || by apply Hs).
    unfold across. rewrite !elem_of_app, !list_elem_of_singleton.
    assert (a ∈ side → a ∉ other) by set_solver. assert (b ∈ side → b ∉ other) by set_solver.
    assert (a ∈ ds → a ∈ side) by set_solver. assert (b ∈ ds → b ∈ side) by set_solver.
    assert (i ∉ other) by set_solver.
    destruct (decide (a = i)) as [->|], (decide (b = i)) as [->|]; tauto.
  - exists rn'. split; [done|]. intros a b Ha Hb. rewrite HI by done. unfold joined. tauto.
Qed.

(** [partition] of two disjoint sets of servers never fails, and afterwards
    two servers are linked when they are on the same side, or when they were
    and [partition] does not separate them; no link leads from one side to
    the other. *)
Lemma partition_splits tbl n p1 p2 rn :
  table_ok tbl n → p1 ⊆ upto n → p2 ⊆ upto n → go_len p1 ≤ n → go_len p2 ≤ n → p1 ## p2 →
  ∃ rn', partition tbl p1 p2 rn = Ok rn' ∧
    ∀ a b, a ∈ upto n → b ∈ upto n →
      linked tbl rn' a b ↔
        joined p1 a b ∨ joined p2 a b ∨ linked tbl rn a b ∧ ¬ across p1 p2 a b.
Proof.
  intros Hok H1 H2 Hl1 Hl2 Hd.
  destruct (half_partition tbl n p1 p2 rn) as (rn1 & Hf1 & Hr1); [done..|].
  destruct (half_partition tbl n p2 p1 rn1) as (rn2 & Hf2 & Hr2); [done|done|done|done|set_solver|].
  exists rn2. unfold partition. rewrite Hf1; cbn. split; [done|]. intros a b Ha Hb.
  rewrite Hr2, Hr1 by done. unfold joined, across.
  assert (a ∈ p1 → a ∉ p2) by set_solver. assert (b ∈ p1 → b ∉ p2) by set_solver. tauto.
Qed.

(** ** [make_partition] *)
Definition others_than (l : Z) (ds : list Z) : list Z := filter (λ i, i ≠ l) ds.

Lemma others_perm n l : l ∈ upto n → upto n ≡ₚ l :: others_than l (upto n).
Proof.
  intros Hl. apply NoDup_Permutation.
  - apply NoDup_seqZ.
  - apply NoDup_cons. split; [|apply NoDup_filter, NoDup_seqZ].
    by intros [? _]%list_elem_of_filter.
  - intros i. unfold others_than. rewrite elem_of_cons, list_elem_of_filter.
    destruct (decide (i = l)) as [->|]; naive_solver.
Qed.

Lemma others_snoc l ds i :
  others_than l (ds ++ [i]) = if decide (i = l) then others_than l ds else others_than l ds ++ [i].
Proof.
  unfold others_than. rewrite filter_app. case_decide as Hi.
  - rewrite filter_cons_False by (subst; tauto). by rewrite filter_nil, app_nil_r.
  - by rewrite filter_cons_True.
Qed.

(** The first [m] places of a list of zeros are filled with [o]. *)
Definition filled (m : nat) (o : list Z) : list Z := o ++ replicate (m - length o) 0.

Lemma filled_set m o i :
  (length o < m)%nat → go_set (filled m o) (go_len o) i = Ok (filled m (o ++ [i])).
Proof.
  intros Hm. apply go_set_Ok. unfold filled, go_len. rewrite !length_app, length_replicate; cbn. split; [lia|].
  rewrite Nat2Z.id, insert_app_r_alt, Nat.sub_diag by lia.
  destruct (m - length o)%nat as [|k] eqn:Hk; [lia|]. cbn.
  replace (m - (length o + 1))%nat with k by lia. by rewrite <-app_assoc.
Qed.

(** The loop fills [p1] with the first others and [p2] with the rest. *)
Lemma split_loop n l (L1 L2 : nat) :
  l ∈ upto n → (length (others_than l (upto n)) ≤ L1 + L2)%nat →
  go_for (upto n) (split_step l (Z.of_nat L1)) (0, replicate L1 0, replicate L2 0) =
  Ok (go_len (others_than l (upto n)), filled L1 (take L1 (others_than l (upto n))),
      filled L2 (drop L1 (others_than l (upto n)))).
Proof.
  intros Hl Hlen.
  destruct (go_for_prefix (λ ds st, st = (go_len (others_than l ds), filled L1 (take L1 (others_than l ds)),
      filled L2 (drop L1 (others_than l ds)))) (upto n) (split_step l (Z.of_nat L1))
      (0, replicate L1 0, replicate L2 0)) as (st & Hf & ->); [| |done].
  - unfold filled. cbn. by rewrite take_nil, drop_nil, !Nat.sub_0_r.
  - intros ds i rest st Hjs ->. unfold split_step. rewrite others_snoc.
    case_decide as Hi; [eauto|]. set (o := others_than l ds).
    assert (length o < L1 + L2)%nat as Hlt.
    { rewrite Hjs in Hlen. unfold others_than in Hlen. rewrite filter_app, filter_cons_True, length_app in Hlen by done.
      cbn in Hlen. unfold o, others_than. lia. }
    case_decide as Hj; unfold go_len in Hj.
    + rewrite !take_ge, !drop_ge by (rewrite ?length_app; cbn; lia). rewrite filled_set by lia. cbn.
      eexists. split; [done|]. unfold go_len. rewrite length_app. cbn. do 2 f_equal. lia.
    + rewrite !take_app_le, !drop_app_le by lia.
      replace (go_len o - Z.of_nat L1) with (go_len (drop L1 o)) by (unfold go_len; rewrite length_drop; lia).
      rewrite filled_set by (rewrite length_drop; lia). cbn.
      eexists. split; [done|]. unfold go_len. rewrite length_app. cbn. do 2 f_equal. lia.
Qed.

(** For an odd number of servers, at least three, [make_partition] splits
    all of them into a majority and a minority, and the leader is in the
    minority. *)
Lemma make_partition_split n l :
  3 ≤ n → Z.odd n = true → 0 ≤ l < n →
  ∃ p1 p2, make_partition n l = Ok (p1, p2) ∧ p1 ++ p2 ≡ₚ upto n ∧ l ∈ p2 ∧
    go_len p1 = n `quot` 2 + 1 ∧ go_len p2 = n `quot` 2.
Proof.
  intros Hn Hodd Hl. assert (l ∈ upto n) as Hin by (apply elem_of_seqZ; lia).
  apply Z.odd_spec in Hodd as [k ->]. set (K := Z.to_nat k).
  assert ((2 * k + 1) `quot` 2 = k) as Hq by (rewrite Z.quot_div_nonneg by lia; symmetry; apply (Z.div_unique _ 2 k 1); lia).
  pose proof (others_perm _ l Hin) as Hperm. set (o := others_than l (upto (2 * k + 1))) in *.
  assert (length o = (K + K)%nat) as Ho.
  { apply Permutation_length in Hperm. rewrite length_seqZ in Hperm. cbn in Hperm. unfold K. lia. }
  unfold make_partition. rewrite Hq. replace (Z.to_nat (k + 1)) with (S K) by lia. fold K.
  replace (go_len (replicate (S K) 0)) with (Z.of_nat (S K)) by (unfold go_len; by rewrite length_replicate).
  rewrite (split_loop _ l (S K) K) by (done || (fold o; lia)). fold o. cbn [mbind outcome_bind].
  unfold filled at 2 3. rewrite length_drop, Ho. replace (K - (K + K - S K))%nat with 1%nat by lia.
  assert (go_set (drop (S K) o ++ replicate 1 0) (go_len (drop (S K) o ++ replicate 1 0) - 1) l =
    Ok (drop (S K) o ++ [l])) as ->.
  { apply go_set_Ok. unfold go_len. rewrite length_app; cbn. split; [lia|].
    rewrite insert_app_r_alt by lia. f_equal.
    by replace (Z.to_nat _ - _)%nat with 0%nat by lia. }
  cbn. eexists _, _. split; [done|]. unfold filled. rewrite length_take_le, Nat.sub_diag by lia. cbn.
  rewrite app_nil_r, app_assoc, take_drop. split_and!.
  - rewrite Hperm. by rewrite Permutation_app_comm.
  - set_solver.
  - unfold go_len. rewrite length_take_le by lia. lia.
  - unfold go_len. rewrite length_app, length_drop; cbn. lia.
Qed.

(** With an odd number of servers, at least three, splitting the net by
    [make_partition] and [partition] never fails and isolates the leader [l] in
    a minority: whatever was linked before, afterwards two servers are linked
    exactly when they are on the same side. *)
Theorem leader_partitioned tbl n l rn :
  3 ≤ n → Z.odd n = true → 0 ≤ l < n → table_ok tbl n →
  ∃ p1 p2 rn', make_partition n l = Ok (p1, p2) ∧ partition tbl p1 p2 rn = Ok rn' ∧
    p1 ++ p2 ≡ₚ upto n ∧ l ∈ p2 ∧ go_len p1 = n `quot` 2 + 1 ∧
    ∀ a b, a ∈ upto n → b ∈ upto n →
      linked tbl rn' a b ↔ a ∈ p1 ∧ b ∈ p1 ∨ a ∈ p2 ∧ b ∈ p2.
Proof.
  intros Hn Hodd Hl Hok. destruct (make_partition_split n l Hn Hodd Hl) as (p1 & p2 & Hm & Hp & Hin & H1 & H2).
  assert (∀ x, x ∈ upto n ↔ x ∈ p1 ∨ x ∈ p2) as Hel by (intros x; by rewrite <-Hp, elem_of_app).
  assert (p1 ## p2) as Hdis.
  { pose proof (NoDup_seqZ 0 n) as Hnd. rewrite <-Hp in Hnd. apply NoDup_app in Hnd as (_ & Hd & _). exact Hd. }
  assert (n `quot` 2 + 1 ≤ n) as Hle.
  { rewrite Z.quot_div_nonneg by lia. pose proof (Z.div_lt n 2). lia. }
  destruct (partition_splits tbl n p1 p2 rn Hok) as (rn' & Hpart & Hlink);
    [intros x ?; apply Hel; by left|intros x ?; apply Hel; by right|lia|lia|done|].
  exists p1, p2, rn'. split_and!; try done. intros a b Ha Hb. rewrite Hlink by done.
  unfold joined, across. apply Hel in Ha, Hb. set_solver.
Qed.

(** With an even number there is one place too many: the two lists cannot be
    a partition. *)
Lemma make_partition_even n l p1 p2 :
  0 ≤ n → Z.even n = true → make_partition n l = Ok (p1, p2) → go_len p1 + go_len p2 = n + 1.
Proof.
  intros Hn Heven Hm. unfold make_partition in Hm. apply bind_Ok in Hm as ([[j q1] q2] & Hf & Hm).
  apply bind_Ok in Hm as (q2' & Hset & [= <- <-]). rewrite (go_len_set _ _ _ _ Hset). clear Hset q2'.
  apply (go_for_inv (λ _ '(_, r1, r2), go_len r1 = n `quot` 2 + 1 ∧ go_len r2 = n `quot` 2)) in Hf.
  - destruct Hf as [-> ->]. apply Z.even_spec in Heven as [k ->].
    rewrite (Z.mul_comm 2 k), Z.quot_mul by lia. lia.
  - unfold go_len. rewrite !length_replicate. pose proof (Z.quot_pos n 2 Hn ltac:(lia)). lia.
  - intros ds i [[j1 r1] r2] [[j2 r1'] r2'] [H1 H2] _ Hs. unfold split_step in Hs.
    case_decide; [by injection Hs as <- <- <-|]. case_decide.
    + apply bind_Ok in Hs as (r & Hr & [= <- <- <-]). by rewrite (go_len_set _ _ _ _ Hr).
    + apply bind_Ok in Hs as (r & Hr & [= <- <- <-]). by rewrite (go_len_set _ _ _ _ Hr).
Qed.

(** ** A new configuration *)
Lemma connect_same_but_enabled tbl i to rn rn' :
  connectUnlocked tbl i to rn = Ok rn' → same_but_enabled rn rn'.
Proof.
  intros Hc. apply bind_Ok in Hc as (rn1 & [H1 _]%enable_each_spec & [H2 _]%enable_each_spec).
  by eapply same_but_enabled_trans.
Qed.

Lemma ConnectAll_links tbl n rn :
  table_ok tbl n →
  ∃ rn', ConnectAll tbl n rn = Ok rn' ∧ same_but_enabled rn rn' ∧
    ∀ a b, a ∈ upto n → b ∈ upto n → linked tbl rn' a b.
Proof.
  intros Hok. unfold ConnectAll, All.
  destruct (go_for_total (λ ds rn1, same_but_enabled rn rn1 ∧
      ∀ a b, a ∈ upto n → b ∈ upto n → a ∈ ds → linked tbl rn1 a b) (upto n)
      (λ i rn, connectUnlocked tbl i (upto n) rn) rn) as (rn' & Hf & Hs & Hl).
  - split; [apply same_but_enabled_refl|]. by intros a b _ _ ?%not_elem_of_nil.
  - intros ds i rn1 [Hs Hl] Hi. destruct (connect_total tbl n i (upto n) rn1 Hok Hi) as [rn2 H2]; [done|].
    exists rn2. split; [done|]. split.
    + eapply same_but_enabled_trans; [done|]. by eapply connect_same_but_enabled.
    + intros a b Ha Hb Hd. rewrite (connect_linked tbl n i (upto n) rn1 rn2 a b) by done.
      apply elem_of_app in Hd as [Hd| ->%list_elem_of_singleton]; [by right; right; apply Hl|by left].
  - exists rn'. eauto.
Qed.

Section Ready.
Context {Cmd Srv : Type} `{!Gob Cmd}.
Context (srv_raft : Srv → Raft Cmd) (srv_start : Z → Z → Persister → Z → Z → outcome Srv).
Context (n maxraftstate : Z) (names : Z → Z → string) (srv : Z → positive) (now : Z) (sv : Z → Srv).

(** Servers 0 to [n - 1] start, and no name is drawn twice. *)
Hypothesis starts : ∀ i, i ∈ upto n → srv_start n i MakePersister maxraftstate now = Ok (sv i).
Hypothesis distinct : ∀ i j i' j', i ∈ upto n → j ∈ upto n → i' ∈ upto n → j' ∈ upto n →
  names i j = names i' j' → i = i' ∧ j = j'.

Local Abbreviation row i := (names i <$> upto n).

Lemma go_index_row i j nm : go_index (row i) j = Ok nm ↔ j ∈ upto n ∧ nm = names i j.
Proof using Type.
  rewrite go_index_Ok, list_lookup_fmap, fmap_Some, elem_of_seqZ. split.
  - intros [Hj (x & [-> Hx]%lookup_seqZ & ->)]. rewrite Z.add_0_l, Z2Nat.id in * by lia. split; [lia|done].
  - intros [Hj ->]. split; [lia|]. exists j. split; [|done]. apply lookup_seqZ. lia.
Qed.

(** Servers [ds] have been started. *)
Record started (ds : list Z) (cfg : kconfig (Srv := Srv)) : Prop := {
  sd_n : kc_n cfg = n;
  sd_state : kc_maxraftstate cfg = maxraftstate;
  sd_lens : go_len (kc_endnames cfg) = n ∧ go_len (kc_servers cfg) = n ∧ go_len (kc_saved cfg) = n;
  sd_row i : i ∈ upto n → go_index (kc_endnames cfg) i = Ok (if decide (i ∈ ds) then Some (row i) else None);
  sd_server i : i ∈ upto n → go_index (kc_servers cfg) i = Ok (if decide (i ∈ ds) then Some (sv i) else None);
  sd_saved i : i ∈ upto n → i ∉ ds → go_index (kc_saved cfg) i = Ok None;
  sd_ends nm : is_Some (ends (kc_net cfg) !! nm) →
    ∃ i j, i ∈ ds ∧ i ∈ upto n ∧ j ∈ upto n ∧ nm = names i j;
  sd_conn i j : i ∈ ds → j ∈ upto n → map_get None (connections (kc_net cfg)) (names i j) = Some (SInt j);
  sd_reg i : i ∈ ds → map_get None (servers (kc_net cfg)) (SInt i) = Some (srv i);
}.

Lemma started_empty : 0 ≤ n → started [] (kc_empty n maxraftstate).
Proof using Type.
  intros Hn. assert (∀ A, go_len (replicate (Z.to_nat n) (@None A)) = n) as Hlen.
  { intros A. unfold go_len. rewrite length_replicate. lia. }
  assert (∀ A i, i ∈ upto n → go_index (replicate (Z.to_nat n) (@None A)) i = Ok None) as Hnone.
  { intros A i Hi%elem_of_seqZ. apply go_index_Ok. split; [lia|]. apply lookup_replicate. split; [done|lia]. }
  split; cbn; auto; try by intros i ?%not_elem_of_nil.
  - intros nm [? ?]. done.
  - by intros i j ?%not_elem_of_nil.
Qed.

Lemma started_grows ds i cfg :
  started ds cfg → ds ⊆ upto n → i ∈ upto n → i ∉ ds →
  ∃ cfg', StartServer srv_raft srv_start i (names i) (srv i) now cfg = Ok cfg' ∧ started (ds ++ [i]) cfg'.
Proof using starts distinct.
  intros Hst Hds Hi Hd. unfold StartServer. rewrite (sd_n _ _ Hst).
  destruct (sd_lens _ _ Hst) as (Hl1 & Hl2 & Hl3). pose proof Hi as Hr%elem_of_seqZ.
  destruct (go_set (kc_endnames cfg) i (Some (row i))) as [tbl|] eqn:Htbl; [|unfold go_set in Htbl; case_decide; [done|lia]].
  cbn [mbind outcome_bind].
  destruct (make_ends_total (row i) SInt (upto n) (kc_net cfg)) as [rn Hrn].
  { apply NoDup_seqZ. }
  { intros j Hj. exists (names i j). split; [by apply go_index_row|]. apply eq_None_not_Some.
    intros (i' & j' & Hi' & ? & ? & [-> _]%distinct)%(sd_ends _ _ Hst); done. }
  { intros j j' nm ? ? [_ ->]%go_index_row [_ [_ ?]%distinct]%go_index_row; done. }
  rewrite Hrn; cbn [mbind outcome_bind]. pose proof (make_ends_spec _ _ _ _ _ Hrn) as Hfresh.
  unfold kc_saved_of. rewrite (sd_server _ _ Hst) by done. rewrite decide_False by done. cbn [mbind outcome_bind].
  rewrite (sd_saved _ _ Hst) by done. cbn [mbind outcome_bind].
  rewrite (sd_state _ _ Hst), starts by done. cbn [mbind outcome_bind].
  destruct (go_set (kc_saved cfg) i (Some MakePersister)) as [saved|] eqn:Hsaved; [|unfold go_set in Hsaved; case_decide; [done|lia]].
  destruct (go_set (kc_servers cfg) i (Some (sv i))) as [svs|] eqn:Hsvs; [|unfold go_set in Hsvs; case_decide; [done|lia]].
  cbn [mbind outcome_bind]. eexists. split; [done|].
  assert (∀ i' : Z, i' ∈ ds ++ [i] ↔ i' ∈ ds ∨ i' = i) as Hin.
  { intros i'. by rewrite elem_of_app, list_elem_of_singleton. }
  split; cbn.
  - apply Hst.
  - apply Hst.
  - by rewrite (go_len_set _ _ _ _ Htbl), (go_len_set _ _ _ _ Hsaved), (go_len_set _ _ _ _ Hsvs).
  - intros i' Hi'. rewrite (go_index_set _ _ _ _ _ Htbl), (sd_row _ _ Hst) by done.
    repeat case_decide; naive_solver.
  - intros i' Hi'. rewrite (go_index_set _ _ _ _ _ Hsvs), (sd_server _ _ Hst) by done.
    repeat case_decide; naive_solver.
  - intros i' Hi' Hd'. rewrite Hin in Hd'. rewrite (go_index_set _ _ _ _ _ Hsaved), decide_False by naive_solver.
    apply (sd_saved _ _ Hst); naive_solver.
  - intros nm [Hold|(j & Hj & [_ ->]%go_index_row)]%(fe_ends _ _ _ _ _ Hfresh).
    + apply (sd_ends _ _ Hst) in Hold as (i' & j & ? & ? & ? & ->). exists i', j. rewrite Hin. auto.
    + exists i, j. rewrite Hin. auto.
  - intros i' j [Hi'| ->]%Hin Hj.
    + destruct (fe_old _ _ _ _ _ Hfresh (names i' j)) as [_ Hc].
      { intros j' ? [_ [-> _]%distinct]%go_index_row; [done|by apply Hds|done..]. }
      unfold map_get. rewrite Hc. by apply (sd_conn _ _ Hst).
    + by apply (fe_conn _ _ _ _ _ Hfresh); [|apply go_index_row].
  - intros i' Hi'%Hin. unfold map_get. rewrite (fe_servers _ _ _ _ _ Hfresh).
    destruct (decide (i' = i)) as [->|Hne]; [by rewrite lookup_insert_eq|].
    rewrite lookup_insert_ne by congruence. apply (sd_reg _ _ Hst). naive_solver.
Qed.

Lemma started_table cfg : started (upto n) cfg → table_ok (kc_endnames cfg) n.
Proof using starts distinct.
  intros Hst.
  assert (∀ a b nm, endname_of (kc_endnames cfg) a b = Ok nm → a ∈ upto n ∧ b ∈ upto n ∧ nm = names a b) as Hname.
  { intros a b nm Hnm. unfold endname_of in Hnm. apply bind_Ok in Hnm as (r & Hr & Hnm).
    assert (a ∈ upto n) as Ha.
    { pose proof (go_index_bound _ _ _ Hr). destruct (sd_lens _ _ Hst) as (<- & _). by apply elem_of_seqZ. }
    rewrite (sd_row _ _ Hst), decide_True in Hr by done. injection Hr as <-.
    by apply go_index_row in Hnm. }
  split.
  - intros i Hi. exists (row i). rewrite (sd_row _ _ Hst), decide_True by done. split; [done|].
    apply elem_of_seqZ in Hi. unfold go_len. rewrite length_fmap, length_seqZ. lia.
  - intros a b a' b' nm (? & ? & ->)%Hname (? & ? & ?)%Hname. by apply distinct.
Qed.

(** A new configuration of [n] servers, with names that are all different
    and servers that start, runs every server and links every pair: the end
    point that server [i] keeps for server [j] reaches [j]'s handlers. *)
Theorem make_config_connected unreliable :
  0 ≤ n →
  ∃ cfg, kc_make_config srv_raft srv_start n maxraftstate unreliable names srv now = Ok cfg ∧
    reliable (kc_net cfg) = negb unreliable ∧
    ∀ i j, i ∈ upto n → j ∈ upto n →
      go_index (kc_servers cfg) i = Ok (Some (sv i)) ∧
      endname_of (kc_endnames cfg) i j = Ok (names i j) ∧
      connected (names i j) (SInt j) (srv j) (kc_net cfg).
Proof using starts distinct.
  intros Hn. unfold kc_make_config.
  destruct (go_for_prefix started (upto n)
    (λ i cfg, StartServer srv_raft srv_start i (names i) (srv i) now cfg) (kc_empty n maxraftstate))
    as (cfg & Hcfg & Hst).
  { by apply started_empty. }
  { intros ds i rest cfg Hjs Hst. apply started_grows; [done|rewrite Hjs; set_solver..|].
    intros Hin. assert (NoDup (upto n)) as Hnd by apply NoDup_seqZ. rewrite Hjs in Hnd.
    apply NoDup_app in Hnd as (_ & Hd & _). apply (Hd i Hin). by left. }
  rewrite Hcfg; cbn [mbind outcome_bind]. rewrite (sd_n _ _ Hst).
  destruct (ConnectAll_links (kc_endnames cfg) n (kc_net cfg)) as (rn & Hrn & Hsame & Hall);
    [by apply started_table|].
  rewrite Hrn; cbn [mbind outcome_bind]. eexists. split; [done|]. split; [done|]. cbn.
  intros i j Hi Hj. rewrite (sd_server _ _ Hst), decide_True by done. split; [done|].
  assert (endname_of (kc_endnames cfg) i j = Ok (names i j)) as Hname.
  { unfold endname_of. rewrite (sd_row _ _ Hst), decide_True by done. cbn. by apply go_index_row. }
  split; [done|]. destruct (same_but_enabled_fields _ _ Hsame) as (_ & Hsv & Hco & _).
  unfold connected; cbn. rewrite Hsv, Hco. split_and!.
  - destruct (Hall i j Hi Hj) as (nm & Hnm & He). rewrite Hname in Hnm. by injection Hnm as <-.
  - by apply (sd_conn _ _ Hst).
  - by apply (sd_reg _ _ Hst).
Qed.
End Ready.

(** ** Examples *)
Lemma random_handles_perm_witness :
  random_handles (λ i, i `quot` 2) [5; 6; 7; 8] = Ok [6; 8; 5; 7] ∧
  ∃ sa, random_handles (λ i, i `quot` 2) [5; 6; 7; 8] = Ok sa ∧ sa ≡ₚ [5; 6; 7; 8].
Proof.
  split; [by vm_compute|].
  apply (random_handles_perm (λ i, i `quot` 2) [5; 6; 7; 8]).
  intros i Hi. rewrite Z.quot_div_nonneg by lia. pose proof (Z.div_pos i 2). 
  pose proof (Z.div_le_upper_bound i 2 i). lia.
Defined.

(** kvraft's own server, with names made of the two numbers. *)
Definition pair_name (i j : Z) : string := pretty i +:+ "-" +:+ pretty j.

Section Witness.
Local Instance z_gob : Gob Z := countable_Gob Z.

Lemma make_config_connected_witness :
  ∃ cfg, kc_make_config kv_rf (kvraft_StartKVServer (Cmd := Z)) 3 (-1) true pair_name Z.to_pos 7 = Ok cfg ∧
    connected (pair_name 2 1) (SInt 1) (Z.to_pos 1) (kc_net cfg).
Proof.
  assert (∃ sv, ∀ i, kvraft_StartKVServer (Cmd := Z) 3 i MakePersister (-1) 7 = Ok (sv i)) as [sv Hsv]
    by (eexists; intros i; unfold kvraft_StartKVServer, Make; cbn; reflexivity).
  destruct (make_config_connected kv_rf (kvraft_StartKVServer (Cmd := Z)) 3 (-1) pair_name Z.to_pos 7 sv)
    with (unreliable := true) as (cfg & Hcfg & _ & Hall).
  - intros i Hi. apply Hsv.
  - intros i j i' j' Hi%elem_of_seqZ Hj%elem_of_seqZ Hi'%elem_of_seqZ Hj'%elem_of_seqZ Heq.
    apply dash_split in Heq as [?%(inj pretty) ?%(inj pretty)]; [done|apply pretty_no_dash; lia..].
  - lia.
  - exists cfg. split; [exact Hcfg|]. apply (Hall 2 1); apply elem_of_seqZ; lia.
Defined.
End Witness.

(** Three servers, all linked; the leader is server 1. *)
Definition three_row (i : Z) : list string := pair_name i <$> upto 3.
Definition three_table : name_table := (λ i, Some (three_row i)) <$> upto 3.

Lemma three_table_ok : table_ok three_table 3.
Proof.
  assert (∀ a b nm, endname_of three_table a b = Ok nm → a ∈ upto 3 ∧ b ∈ upto 3 ∧ nm = pair_name a b) as Hname.
  { intros a b nm Hnm. unfold endname_of, three_table in Hnm. apply bind_Ok in Hnm as (r & Hr & Hnm).
    apply go_index_Ok in Hr as [Ha Hr]. apply list_lookup_fmap_Some in Hr as (a' & [= ->] & [-> Ha']%lookup_seqZ).
    apply go_index_Ok in Hnm as [Hb Hnm]. apply list_lookup_fmap_Some in Hnm as (b' & -> & [-> Hb']%lookup_seqZ).
    rewrite !elem_of_seqZ. split_and!; [lia..|]. f_equal; lia. }
  split.
  - intros i Hi%elem_of_seqZ. exists (three_row i). split; [|done].
    apply go_index_Ok. split; [lia|]. apply list_lookup_fmap_Some. exists i. split; [done|]. apply lookup_seqZ. lia.
  - intros a b a' b' nm ([? ?]%elem_of_seqZ & [? ?]%elem_of_seqZ & ->)%Hname
      ([? ?]%elem_of_seqZ & [? ?]%elem_of_seqZ & Heq)%Hname.
    apply dash_split in Heq as [?%(inj pretty) ?%(inj pretty)]; [done|apply pretty_no_dash; lia..].
Qed.

Lemma leader_partitioned_witness :
  ∃ p1 p2 rn', make_partition 3 1 = Ok (p1, p2) ∧ partition three_table p1 p2 MakeNetwork = Ok rn' ∧
    p1 = [0; 2] ∧ p2 = [1] ∧ is_enabled rn' (pair_name 0 2) = true ∧ is_enabled rn' (pair_name 0 1) = false.
Proof.
  destruct (leader_partitioned three_table 3 1 MakeNetwork) as (p1 & p2 & rn' & Hm & Hp & _);
    [lia|reflexivity|lia|exact three_table_ok|].
  exists p1, p2, rn'. split; [exact Hm|]. split; [exact Hp|].
  vm_compute in Hm. injection Hm as <- <-. vm_compute in Hp. injection Hp as <-. by vm_compute.
Defined.
