(* ===== verification/ShardClients.v ===== *)
(** * The clients of the sharded service (src/src/shardctrler, src/src/shardkv)

    The servers of both services are skeletons: the handlers are empty.  The
    clerks are not.  A clerk of the controller asks its servers in turn until
    one answers and is the leader; a clerk of the key/value service looks up the
    key's shard in its configuration, asks the servers of that group, and
    fetches a new configuration from the controller when none of them answers.

    The loops have no bound: the model takes fuel, one unit per round, and
    the theorems say how much is enough.  [call k srv args] is what the [k]-th
    call of the clerk returns, [None] when [Call] returns false.
    [Query_first]: the controller's clerk returns the first good answer, and
    asks the servers in order.  [shardkv_Get_sound] and [shardkv_Get_returns]:
    what [Get] returns was answered by a server of the group that owns the
    key's shard in the configuration the clerk ends with, and it does return
    once the controller has told it the group that serves the shard. *)
From Stdlib Require Import Ascii.
From S2P Require Import Prelude GoLib Labrpc Raft.
Local Open Scope Z_scope.

(** ** shardctrler *)
Definition NShards : Z := 10.

Record Config := {
  Num : Z;
  Shards : list Z;               (* [NShards]int *)
  Groups : gmap Z (list string);
}.

Record JoinArgs := { ja_Servers : gmap Z (list string) }.
Record LeaveArgs := { la_GIDs : list Z }.
Record MoveArgs := { ma_Shard : Z; ma_GID : Z }.
Record QueryArgs := { qa_Num : Z }.
(** The replies of [Join], [Leave] and [Move]. *)
Record CtrlReply := { cr_WrongLeader : bool; cr_Err : string }.
Record QueryReply := { qr_WrongLeader : bool; qr_Err : string; qr_Config : Config }.

(** [configs[0]] of a new controller. *)
Definition config_0 : Config := {| Num := 0; Shards := replicate (Z.to_nat NShards) 0; Groups := ∅ |}.

Record ShardCtrler (Cmd : Type) := { sc_me : Z; sc_rf : Raft Cmd; sc_configs : list Config }.
Arguments sc_me {_}.
Arguments sc_rf {_}.
Arguments sc_configs {_}.

Definition ctrler_StartServer {Cmd} `{!Gob Cmd} (n me_ : Z) (p : Persister) (now : Z)
    : outcome (ShardCtrler Cmd) :=
  rf ← Make n me_ p now;
  Ok {| sc_me := me_; sc_rf := rf; sc_configs := [config_0] |}.

Definition ctrler_Kill {Cmd} (sc : ShardCtrler Cmd) : ShardCtrler Cmd :=
  {| sc_me := sc_me sc; sc_rf := Kill (sc_rf sc); sc_configs := sc_configs sc |}.

(** For the tester of shardkv. *)
Definition ctrler_Raft {Cmd} (sc : ShardCtrler Cmd) : Raft Cmd := sc_rf sc.

Section Loop.
Context {Srv Reply : Type} (servers : list Srv).
Context (call : nat → Srv → option Reply) (good : Reply → bool).

(** One round over the servers, starting with call [k]: the good answer, or
    the number of the next call. *)
Fixpoint clerk_round (srvs : list Srv) (k : nat) : Reply + nat :=
  match srvs with
  | [] => inr k
  | srv :: srvs =>
      match call k srv with
      | Some r => if good r then inl r else clerk_round srvs (S k)
      | None => clerk_round srvs (S k)
      end
  end.

Fixpoint clerk_loop (fuel : nat) (k : nat) : option Reply :=
  match fuel with
  | O => None
  | S fuel =>
      match clerk_round servers k with
      | inl r => Some r
      | inr k => clerk_loop fuel k
      end
  end.

(** ** The first good answer *)

(** The [k]-th call goes to server [k mod n]. *)
Definition answers (k : nat) (r : Reply) : Prop :=
  ∃ srv, servers !! (k `mod` length servers)%nat = Some srv ∧ call k srv = Some r ∧ good r = true.

Definition first_answer (k : nat) (r : Reply) : Prop :=
  answers k r ∧ ∀ k' r', (k' < k)%nat → ¬ answers k' r'.

Lemma clerk_round_spec srvs k :
  match clerk_round srvs k with
  | inl r => ∃ d srv, srvs !! d = Some srv ∧ call (k + d) srv = Some r ∧ good r = true ∧
      ∀ d' srv' r', (d' < d)%nat → srvs !! d' = Some srv' → call (k + d') srv' = Some r' → good r' = false
  | inr k' => k' = (k + length srvs)%nat ∧
      ∀ d srv r, srvs !! d = Some srv → call (k + d) srv = Some r → good r = false
  end.
Proof.
  revert k. induction srvs as [|srv srvs IH]; intros k; cbn; [split; [lia|done]|].
  assert ((∀ r, call k srv = Some r → good r = false) → match clerk_round srvs (S k) with
    | inl r => ∃ d srv', (srv :: srvs) !! d = Some srv' ∧ call (k + d) srv' = Some r ∧ good r = true ∧
        ∀ d' srv'' r', (d' < d)%nat → (srv :: srvs) !! d' = Some srv'' → call (k + d') srv'' = Some r' → good r' = false
    | inr k' => k' = (k + S (length srvs))%nat ∧
        ∀ d srv' r, (srv :: srvs) !! d = Some srv' → call (k + d) srv' = Some r → good r = false
    end) as Hnext.
  { intros Hbad. specialize (IH (S k)). destruct (clerk_round srvs (S k)) as [r|k'].
    - destruct IH as (d & srv' & Hd & Hc & Hg & Hall). exists (S d), srv'.
      rewrite Nat.add_succ_r. split_and!; try done.
      intros [|d'] srv'' r' Hlt Hs Hc'; [injection Hs as <-; rewrite Nat.add_0_r in Hc'; by apply Hbad|].
      rewrite Nat.add_succ_r in Hc'. by apply (Hall d' srv''); [lia|..].
    - destruct IH as [-> Hall]. split; [lia|].
      intros [|d] srv' r Hs Hc'; [injection Hs as <-; rewrite Nat.add_0_r in Hc'; by apply Hbad|].
      rewrite Nat.add_succ_r in Hc'. by apply (Hall d srv'). }
  destruct (call k srv) as [r|] eqn:Hc; [|by apply Hnext].
  destruct (good r) eqn:Hg; [|by apply Hnext; intros ? [= <-]].
  exists 0%nat, srv. rewrite Nat.add_0_r. split_and!; try done. intros. lia.
Qed.

(** Round [m] makes the calls [m * n] to [m * n + n - 1]. *)
Lemma answers_round m d r :
  (d < length servers)%nat →
  answers (m * length servers + d) r ↔
  ∃ srv, servers !! d = Some srv ∧ call (m * length servers + d) srv = Some r ∧ good r = true.
Proof.
  intros Hd. unfold answers. rewrite Nat.add_comm, Nat.Div0.mod_add, Nat.mod_small by done. done.
Qed.

Lemma clerk_loop_from fuel m r :
  servers ≠ [] → (∀ k r', (k < m * length servers)%nat → ¬ answers k r') →
  clerk_loop fuel (m * length servers) = Some r ↔
  ∃ k, first_answer k r ∧ (k < (m + fuel) * length servers)%nat.
Proof.
  intros Hne. revert m. induction fuel as [|fuel IH]; intros m Hbefore; cbn.
  { split; [done|]. intros (k & [Hk _] & Hlt). rewrite Nat.add_0_r in Hlt. by apply Hbefore in Hk. }
  pose proof (clerk_round_spec servers (m * length servers)) as Hround.
  destruct (clerk_round servers (m * length servers)) as [r1|k'].
  - destruct Hround as (d & srv & Hd & Hc & Hg & Hall). pose proof (lookup_lt_Some _ _ _ Hd) as Hdn.
    assert (first_answer (m * length servers + d) r1) as Hfirst.
    { split; [apply answers_round; eauto|]. intros k r' Hk Ha.
      destruct (decide (k < m * length servers)%nat) as [Hb|Hb]; [by eapply Hbefore|].
      replace k with (m * length servers + (k - m * length servers))%nat in Ha by lia.
      apply answers_round in Ha as (srv' & Hs' & Hc' & Hg'); [|lia].
      rewrite (Hall (k - m * length servers)%nat srv' r') in Hg'; [done|lia|done..]. }
    split.
    + intros [= <-]. exists (m * length servers + d)%nat. split; [done|]. nia.
    + intros (k & [Hk Hmin] & _). destruct Hfirst as [Hf Hfmin]. f_equal.
      assert (k = m * length servers + d)%nat as ->.
      { destruct (Nat.lt_trichotomy k (m * length servers + d)) as [Hlt|[->|Hgt]]; [|done|].
        - by apply Hfmin in Hk.
        - by apply Hmin in Hf. }
      destruct Hk as (s1 & Hs1 & Hc1 & _), Hf as (s2 & Hs2 & Hc2 & _). congruence.
  - destruct Hround as [-> Hall].
    replace (m * length servers + length servers)%nat with (S m * length servers)%nat by lia.
    rewrite IH.
    + by replace (S m + fuel)%nat with (m + S fuel)%nat by lia.
    + intros k r' Hk Ha. destruct (decide (k < m * length servers)%nat) as [Hb|Hb]; [by eapply Hbefore|].
      replace k with (m * length servers + (k - m * length servers))%nat in Ha by lia.
      apply answers_round in Ha as (srv' & Hs' & Hc' & Hg'); [|lia].
      rewrite (Hall _ _ _ Hs' Hc') in Hg'. done.
Qed.

Lemma clerk_loop_first_iff fuel r :
  servers ≠ [] →
  clerk_loop fuel 0 = Some r ↔ ∃ k, first_answer k r ∧ (k < fuel * length servers)%nat.
Proof. intros Hne. apply (clerk_loop_from fuel 0 r Hne). intros k r' Hk. lia. Qed.
End Loop.

(** ** The controller's clerk *)
Section CtrlClerk.
Context {Srv : Type} (ck_servers : list Srv).

Definition Query (call : nat → Srv → QueryArgs → option QueryReply) (num : Z) (fuel : nat) : option Config :=
  qr_Config <$> clerk_loop ck_servers (λ k srv, call k srv {| qa_Num := num |})
                  (λ r, negb (qr_WrongLeader r)) fuel 0.

Definition acknowledged {A} (call : nat → Srv → A → option CtrlReply) (args : A) (fuel : nat) : bool :=
  bool_decide (is_Some (clerk_loop ck_servers (λ k srv, call k srv args)
                          (λ r, negb (cr_WrongLeader r)) fuel 0)).

(** Whether the call has returned. *)
Definition Join (call : nat → Srv → JoinArgs → option CtrlReply) (servers : gmap Z (list string)) : nat → bool :=
  acknowledged call {| ja_Servers := servers |}.
Definition Leave (call : nat → Srv → LeaveArgs → option CtrlReply) (gids : list Z) : nat → bool :=
  acknowledged call {| la_GIDs := gids |}.
Definition Move (call : nat → Srv → MoveArgs → option CtrlReply) (shard gid : Z) : nat → bool :=
  acknowledged call {| ma_Shard := shard; ma_GID := gid |}.

(** The controller's clerk asks its servers in turn, the [k]-th call going
    to server [k mod n], and [Query] returns the configuration of the first
    answer that does not come from the wrong leader, whenever there is one;
    with no such answer it never returns. *)
Theorem Query_first call num fuel c :
  ck_servers ≠ [] →
  Query call num fuel = Some c ↔
  ∃ k r, qr_Config r = c ∧ (k < fuel * length ck_servers)%nat ∧
    first_answer ck_servers (λ k srv, call k srv {| qa_Num := num |}) (λ r, negb (qr_WrongLeader r)) k r.
Proof.
  intros Hne. unfold Query. rewrite fmap_Some. setoid_rewrite (clerk_loop_first_iff _ _ _ fuel _ Hne).
  naive_solver.
Qed.
End CtrlClerk.

(** Two servers: the first is down or not the leader, the second leads. *)
Definition ctl_example (k srv : nat) (_ : QueryArgs) : option QueryReply :=
  match srv with
  | O => if decide (k = 0%nat) then None else Some {| qr_WrongLeader := true; qr_Err := ""; qr_Config := config_0 |}
  | _ => if decide (k = 3%nat)
         then Some {| qr_WrongLeader := false; qr_Err := "OK"; qr_Config := config_0 |} else None
  end.

Lemma Query_first_witness :
  Query [0%nat; 1%nat] ctl_example (-1) 2 = Some config_0 ∧
  ∃ k r, qr_Config r = config_0 ∧ (k < 2 * 2)%nat ∧
    first_answer [0%nat; 1%nat] (λ k srv, ctl_example k srv {| qa_Num := -1 |}) (λ r, negb (qr_WrongLeader r)) k r.
Proof.
  split; [vm_compute; reflexivity|].
  apply (Query_first [0%nat; 1%nat] ctl_example (-1) 2 config_0); [discriminate|vm_compute; reflexivity].
Defined.

(** ** shardkv *)
Definition Err := string.
Definition OK : Err := "OK".
Definition ErrNoKey : Err := "ErrNoKey".
Definition ErrWrongGroup : Err := "ErrWrongGroup".
Definition ErrWrongLeader : Err := "ErrWrongLeader".

Record ShardGetArgs := { sga_Key : string }.
Record ShardGetReply := { sgr_Err : Err; sgr_Value : string }.
Record ShardPutAppendArgs := { spa_Key : string; spa_Value : string; spa_Op : string }.
Record ShardPutAppendReply := { spr_Err : Err }.

(** The shard of a key: its first byte, modulo the number of shards. *)
Definition key2shard (key : string) : Z :=
  let shard := match key with
               | EmptyString => 0
               | String c _ => Z.of_N (N_of_ascii c)
               end in
  Z.rem shard NShards.

(** Every key has a shard: [config.Shards[shard]] is never out of range. *)
Lemma key2shard_range key : 0 ≤ key2shard key < NShards.
Proof.
  apply Z.rem_bound_pos; [|done]. destruct key as [|c key]; lia.
Qed.

(** The clerk: its configuration, and how many requests it has sent to the
    groups and to the controller, which number the answers it will get. *)
Record ShardClerk := { sk_config : Config; sk_calls : nat; sk_queries : nat }.

Definition shardkv_MakeClerk : ShardClerk :=
  {| sk_config := {| Num := 0; Shards := replicate (Z.to_nat NShards) 0; Groups := ∅ |};
     sk_calls := 0; sk_queries := 0 |}.

Definition shard_gid (c : Config) (key : string) : Z := nth (Z.to_nat (key2shard key)) (Shards c) 0.

Section GroupLoop.
Context {End Reply : Type} (make_end : string → End) (call : nat → End → option Reply).
Context (returns wrong_group : Reply → bool).

(** The servers of a group, in order, until one gives a final answer or says
    it is the wrong group. *)
Fixpoint try_servers (servers : list string) (k : nat) : nat * option Reply :=
  match servers with
  | [] => (k, None)
  | name :: servers =>
      match call k (make_end name) with
      | Some r => if returns r then (S k, Some r)
                  else if wrong_group r then (S k, None)
                  else try_servers servers (S k)
      | None => try_servers servers (S k)
      end
  end.

Definition try_group (c : Config) (key : string) (k : nat) : nat * option Reply :=
  match Groups c !! shard_gid c key with
  | Some servers => try_servers servers k
  | None => (k, None)
  end.

(** [query m] is what the [m]-th [ck.sm.Query(-1)] returns. *)
Context (query : nat → option Config).

Fixpoint group_loop (key : string) (fuel : nat) (ck : ShardClerk) : option (Reply * ShardClerk) :=
  match fuel with
  | O => None
  | S fuel =>
      match try_group (sk_config ck) key (sk_calls ck) with
      | (k, Some r) => Some (r, {| sk_config := sk_config ck; sk_calls := k; sk_queries := sk_queries ck |})
      | (k, None) =>
          match query (sk_queries ck) with
          | Some c => group_loop key fuel {| sk_config := c; sk_calls := k; sk_queries := S (sk_queries ck) |}
          | None => None
          end
      end
  end.

(** Server [name] of the group that owns [key] in [c] gave the final answer
    [r] to the [k]-th request. *)
Definition owner_answers (c : Config) (key : string) (k : nat) (r : Reply) : Prop :=
  ∃ servers name, Groups c !! shard_gid c key = Some servers ∧ name ∈ servers ∧
    call k (make_end name) = Some r ∧ returns r = true.

Lemma try_servers_sound servers k k' r :
  try_servers servers k = (k', Some r) →
  (k < k')%nat ∧ ∃ name, name ∈ servers ∧ call (pred k') (make_end name) = Some r ∧ returns r = true.
Proof.
  revert k. induction servers as [|name servers IH]; intros k; cbn; [done|].
  assert (try_servers servers (S k) = (k', Some r) →
    (k < k')%nat ∧ ∃ name', name' ∈ name :: servers ∧
      call (pred k') (make_end name') = Some r ∧ returns r = true) as Hnext.
  { intros (? & name' & ? & ?)%IH. split; [lia|]. exists name'. split; [by right|done]. }
  destruct (call k (make_end name)) as [r1|] eqn:Hc; [|done].
  destruct (returns r1) eqn:Hr; [|destruct (wrong_group r1); [done|done]].
  intros [= <- <-]. split; [lia|]. exists name. split; [by left|done].
Qed.

Lemma group_loop_sound key fuel ck r ck' :
  group_loop key fuel ck = Some (r, ck') →
  (sk_calls ck < sk_calls ck')%nat ∧
  owner_answers (sk_config ck') key (pred (sk_calls ck')) r ∧
  (sk_queries ck' = sk_queries ck ∧ sk_config ck' = sk_config ck ∨
   (sk_queries ck < sk_queries ck')%nat ∧ query (pred (sk_queries ck')) = Some (sk_config ck')).
Proof.
  revert ck. induction fuel as [|fuel IH]; intros ck; cbn; [done|].
  destruct (try_group (sk_config ck) key (sk_calls ck)) as [k [r1|]] eqn:Htry.
  - intros [= <- <-]. cbn. unfold try_group in Htry.
    destruct (Groups (sk_config ck) !! _) as [servers|] eqn:Hg; [|done].
    apply try_servers_sound in Htry as (Hk & name & ? & ? & ?).
    split_and!; [done| |by left]. exists servers, name. done.
  - assert (sk_calls ck ≤ k)%nat as Hle.
    { unfold try_group in Htry. destruct (Groups (sk_config ck) !! _) as [servers|]; [|injection Htry; lia].
      revert Htry. generalize (sk_calls ck). induction servers as [|name servers IHs]; intros k0; cbn.
      - intros [= ->]. lia.
      - assert (try_servers servers (S k0) = (k, None) → (k0 ≤ k)%nat) by (intros ?%IHs; lia).
        destruct (call k0 (make_end name)) as [r2|]; [|done].
        destruct (returns r2); [done|]. destruct (wrong_group r2); [|done]. intros [= <-]. lia. }
    destruct (query (sk_queries ck)) as [c|] eqn:Hq; [|done].
    intros (Hlt & Hown & Hcfg)%IH. cbn in *. split_and!; [lia|done|]. right.
    destruct Hcfg as [[-> ->]|[? ?]]; [split; [lia|done]|split; [lia|done]].
Qed.

(** A group one of whose servers gives final answers, and none of which
    disowns the shard. *)
Definition serving (c : Config) (key : string) : Prop :=
  ∃ servers, Groups c !! shard_gid c key = Some servers ∧
    (∃ name, name ∈ servers ∧ ∀ k, ∃ r, call k (make_end name) = Some r ∧ returns r = true) ∧
    ∀ name k r, name ∈ servers → call k (make_end name) = Some r → wrong_group r = false.

Lemma try_group_serving c key k :
  serving c key → ∃ k' r, try_group c key k = (k', Some r).
Proof.
  intros (servers & Hg & (name & Hin & Hans) & Hnot). unfold try_group. rewrite Hg. clear Hg. revert k.
  induction servers as [|name' servers IH]; intros k; [by apply elem_of_nil in Hin|]. cbn.
  destruct (call k (make_end name')) as [r|] eqn:Hc.
  - destruct (returns r) eqn:Hr; [eauto|].
    rewrite (Hnot name' k r) by (done || by left).
    apply elem_of_cons in Hin as [->|Hin]; [destruct (Hans k) as (r' & ? & ?); congruence|].
    apply IH; [done|]. intros n1 k1 r1 ?. apply Hnot. by right.
  - apply elem_of_cons in Hin as [->|Hin]; [destruct (Hans k) as (r' & ? & ?); congruence|].
    apply IH; [done|]. intros n1 k1 r1 ?. apply Hnot. by right.
Qed.

Lemma group_loop_returns key c d fuel ck :
  serving c key → (∀ m, is_Some (query m)) →
  (d = 0%nat ∧ sk_config ck = c ∨ ∃ d', d = S d' ∧ query (sk_queries ck + d') = Some c) →
  (d < fuel)%nat → is_Some (group_loop key fuel ck).
Proof.
  intros Hserv Hq. revert d ck. induction fuel as [|fuel IH]; intros d ck Hd Hlt; [lia|]. cbn.
  destruct (try_group (sk_config ck) key (sk_calls ck)) as [k [r|]] eqn:Htry; [done|].
  destruct Hd as [[-> <-]|(d' & -> & Hd')].
  { destruct (try_group_serving _ _ (sk_calls ck) Hserv) as (? & ? & ?). congruence. }
  destruct (Hq (sk_queries ck)) as [c' Hc']. rewrite Hc'.
  apply (IH d'); cbn; [|lia]. destruct d' as [|d']; [left|right].
  - rewrite Nat.add_0_r, Hc' in Hd'. by injection Hd' as ->.
  - exists d'. split; [done|]. by rewrite <- plus_n_Sm in Hd'.
Qed.
End GroupLoop.

Section ShardKVClerk.
Context {CtlSrv End : Type} (ctrlers : list CtlSrv) (make_end : string → End).
(** What the [k]-th call of the [m]-th query to the controller returns. *)
Context (ctl_call : nat → nat → CtlSrv → QueryArgs → option QueryReply) (ctl_fuel : nat).

Definition sm_Query (m : nat) : option Config := Query ctrlers (ctl_call m) (-1) ctl_fuel.

Definition get_returns (r : ShardGetReply) : bool :=
  bool_decide (sgr_Err r = OK) || bool_decide (sgr_Err r = ErrNoKey).

Definition shardkv_Get (call : nat → End → ShardGetArgs → option ShardGetReply)
    (key : string) (fuel : nat) (ck : ShardClerk) : option (string * ShardClerk) :=
  '(r, ck) ← group_loop make_end (λ k srv, call k srv {| sga_Key := key |}) get_returns
               (λ r, bool_decide (sgr_Err r = ErrWrongGroup)) sm_Query key fuel ck;
  Some (sgr_Value r, ck).

Definition shardkv_PutAppend (call : nat → End → ShardPutAppendArgs → option ShardPutAppendReply)
    (key value op : string) (fuel : nat) (ck : ShardClerk) : option ShardClerk :=
  '(_, ck) ← group_loop make_end
               (λ k srv, call k srv {| spa_Key := key; spa_Value := value; spa_Op := op |})
               (λ r, bool_decide (spr_Err r = OK))
               (λ r, bool_decide (spr_Err r = ErrWrongGroup)) sm_Query key fuel ck;
  Some ck.

Definition shardkv_Put call key value := shardkv_PutAppend call key value "Put".
Definition shardkv_Append call key value := shardkv_PutAppend call key value "Append".

(** C36. What the sharded clerk's [Get] returns is the value of a reply [OK] or
    [ErrNoKey] to its last request, made to a server of the group that owns
    the key's shard in the configuration the clerk ends with; that
    configuration is the one it started with or the controller's last answer. *)
Theorem shardkv_Get_sound call key fuel ck v ck' :
  shardkv_Get call key fuel ck = Some (v, ck') →
  (sk_calls ck < sk_calls ck')%nat ∧
  (∃ servers name r, Groups (sk_config ck') !! shard_gid (sk_config ck') key = Some servers ∧
     name ∈ servers ∧ call (pred (sk_calls ck')) (make_end name) {| sga_Key := key |} = Some r ∧
     (sgr_Err r = OK ∨ sgr_Err r = ErrNoKey) ∧ sgr_Value r = v) ∧
  (sk_queries ck' = sk_queries ck ∧ sk_config ck' = sk_config ck ∨
   (sk_queries ck < sk_queries ck')%nat ∧ sm_Query (pred (sk_queries ck')) = Some (sk_config ck')).
Proof.
  unfold shardkv_Get. destruct (group_loop _ _ _ _ _ _ _ _) as [[r ck1]|] eqn:Hloop; [|done].
  cbn. intros [= <- <-].
  apply group_loop_sound in Hloop as (? & (servers & name & ? & ? & ? & Hret) & ?).
  split_and!; [done| |done]. exists servers, name, r. split_and!; try done.
  apply orb_true_iff in Hret as [?%bool_decide_eq_true|?%bool_decide_eq_true]; auto.
Qed.

(** The sharded clerk's [Get] returns: when the controller answers every
    query, and its answer to the query number [n] from now (counted from 0)
    names a group for the key's shard that has a server which always answers
    [OK] or [ErrNoKey] and no server that answers [ErrWrongGroup], then
    [n + 2] rounds are enough. *)
Theorem shardkv_Get_returns call key c n fuel ck :
  serving make_end (λ k srv, call k srv {| sga_Key := key |}) get_returns
    (λ r, bool_decide (sgr_Err r = ErrWrongGroup)) c key →
  (∀ m, is_Some (sm_Query m)) →
  sm_Query (sk_queries ck + n) = Some c →
  (S n < fuel)%nat → is_Some (shardkv_Get call key fuel ck).
Proof.
  intros Hserv Hq Hn Hfuel. unfold shardkv_Get.
  destruct (group_loop_returns make_end (λ k srv, call k srv {| sga_Key := key |}) get_returns
    (λ r, bool_decide (sgr_Err r = ErrWrongGroup)) sm_Query key c (S n) fuel ck) as [[r ck'] Hloop];
    [done|done|right; eauto|done|].
  rewrite Hloop. cbn. done.
Qed.
End ShardKVClerk.

(** The group 100 serves every shard; its server "a" is not the leader. *)
Definition config_1 : Config :=
  {| Num := 1; Shards := replicate (Z.to_nat NShards) 100; Groups := {[ 100 := ["a"%string; "b"%string] ]} |}.

Definition ctl_1 (_ _ _ : nat) (_ : QueryArgs) : option QueryReply :=
  Some {| qr_WrongLeader := false; qr_Err := OK; qr_Config := config_1 |}.

Definition group_100 (_ : nat) (srv : string) (_ : ShardGetArgs) : option ShardGetReply :=
  if decide (srv = "a"%string) then Some {| sgr_Err := ErrWrongLeader; sgr_Value := "" |}
  else Some {| sgr_Err := OK; sgr_Value := "v" |}.

Lemma shardkv_Get_sound_witness :
  ∃ ck', shardkv_Get [0%nat] id ctl_1 1 group_100 "k" 2 shardkv_MakeClerk = Some ("v"%string, ck') ∧
    (0 < sk_calls ck')%nat.
Proof.
  eexists. split; [vm_compute; reflexivity|].
  refine (proj1 (shardkv_Get_sound [0%nat] id ctl_1 1 group_100 "k" 2 shardkv_MakeClerk "v" _ _)).
  vm_compute. reflexivity.
Defined.

Lemma shardkv_Get_returns_witness :
  is_Some (shardkv_Get [0%nat] id ctl_1 1 group_100 "k" 2 shardkv_MakeClerk).
Proof.
  apply (shardkv_Get_returns [0%nat] id ctl_1 1 group_100 "k" config_1 0).
  - exists ["a"%string; "b"%string]. split; [reflexivity|]. split.
    + exists "b"%string. split; [right; left|]. intros k. exists {| sgr_Err := OK; sgr_Value := "v" |}. done.
    + intros name k r _. unfold group_100, id. by case_decide; intros [= <-].
  - intros m. exists config_1. reflexivity.
  - reflexivity.
  - lia.
Defined.

(** ** The servers as they are

    The handlers of the repository's servers are empty: a reply keeps the
    fields it was sent with. *)
Record ShardKV (Cmd : Type) := {
  sk_me : Z; sk_rf : Raft Cmd; sk_gid : Z; sk_maxraftstate : Z;
}.
Arguments sk_me {_}.
Arguments sk_rf {_}.
Arguments sk_gid {_}.
Arguments sk_maxraftstate {_}.

Definition shardkv_StartServer {Cmd} `{!Gob Cmd} (n me_ : Z) (p : Persister) (maxraftstate gid now : Z)
    : outcome (ShardKV Cmd) :=
  rf ← Make n me_ p now;
  Ok {| sk_me := me_; sk_rf := rf; sk_gid := gid; sk_maxraftstate := maxraftstate |}.

Definition shardkv_Kill {Cmd} (kv : ShardKV Cmd) : ShardKV Cmd :=
  {| sk_me := sk_me kv; sk_rf := Kill (sk_rf kv); sk_gid := sk_gid kv;
     sk_maxraftstate := sk_maxraftstate kv |}.

Definition ShardKV_Get (_ : ShardGetArgs) (reply : ShardGetReply) : ShardGetReply := reply.
Definition ShardKV_PutAppend (_ : ShardPutAppendArgs) (reply : ShardPutAppendReply) : ShardPutAppendReply := reply.
Definition ctrler_Query (_ : QueryArgs) (reply : QueryReply) : QueryReply := reply.
Definition ctrler_Update {A} (_ : A) (reply : CtrlReply) : CtrlReply := reply.

(** Against these servers the controller's clerk takes the empty reply for an
    answer, and [Get] finds no group for any key. *)
Lemma skeleton_Get_never_returns {CtlSrv End} (ctrlers : list CtlSrv) (make_end : string → End) ctl_fuel
    call key fuel ck :
  Groups (sk_config ck) = ∅ →
  shardkv_Get ctrlers make_end
    (λ _ _ _ args, Some (ctrler_Query args {| qr_WrongLeader := false; qr_Err := ""; qr_Config := config_0 |}))
    ctl_fuel call key fuel ck = None.
Proof.
  unfold shardkv_Get. revert ck. induction fuel as [|fuel IH]; intros ck Hck; [done|]. cbn.
  unfold try_group. rewrite Hck, lookup_empty.
  destruct (sm_Query _ _ _ _) as [c|] eqn:Hq; [|done]. apply IH. cbn.
  unfold sm_Query, Query in Hq. apply fmap_Some in Hq as (r & Hr & ->).
  destruct (decide (ctrlers = [])) as [->|Hne].
  { exfalso. clear -Hr. revert Hr. generalize 0%nat. induction ctl_fuel as [|f IHf]; intros k; cbn; [done|apply IHf]. }
  apply clerk_loop_first_iff in Hr as (k & [(srv & _ & [= <-] & _) _] & _); done.
Qed.
