(* ===== verification/ServiceConfigs.v ===== *)
(** * The configurations of kvsrv and shardctrler
    (src/src/kvsrv/config.go, src/src/shardctrler/config.go)

    kvsrv has one server and clerks with one end point each.  shardctrler's
    configuration is kvraft's code on another server type ([KvraftConfig]);
    only [Leader] differs: it skips servers that are down.

    [kvsrv_client_lifetime]: a clerk reaches the server from [makeClient] to
    [deleteClient], over whatever the other clerks do in between.
    [sc_Leader_spec]: [Leader] finds the first running server that says it
    leads. *)
From S2P Require Import Prelude GoLib Labrpc KVServer Raft Harness KvraftConfig ShardClients.
Local Open Scope Z_scope.

(** ** kvsrv *)
Definition SERVERID : Z := 0.

Record kvsrv_config := {
  vc_net : Network;
  vc_kvserver : KVServer;
  vc_clerks : gmap positive string;   (* by the clerk's address *)
  vc_nextClientId : Z;
  vc_rpcs0 : Z;
  vc_ops : Z;                         (* int32 *)
}.

Definition vc_set_net rn (cfg : kvsrv_config) : kvsrv_config :=
  {| vc_net := rn; vc_kvserver := vc_kvserver cfg; vc_clerks := vc_clerks cfg;
     vc_nextClientId := vc_nextClientId cfg; vc_rpcs0 := vc_rpcs0 cfg; vc_ops := vc_ops cfg |}.
Definition vc_set_clerks cks next (cfg : kvsrv_config) : kvsrv_config :=
  {| vc_net := vc_net cfg; vc_kvserver := vc_kvserver cfg; vc_clerks := cks;
     vc_nextClientId := next; vc_rpcs0 := vc_rpcs0 cfg; vc_ops := vc_ops cfg |}.
Definition vc_set_stats rpcs0 ops (cfg : kvsrv_config) : kvsrv_config :=
  {| vc_net := vc_net cfg; vc_kvserver := vc_kvserver cfg; vc_clerks := vc_clerks cfg;
     vc_nextClientId := vc_nextClientId cfg; vc_rpcs0 := rpcs0; vc_ops := ops |}.

(** A clerk that is not registered reads as the empty name. *)
Definition kvsrv_ConnectClientUnlocked (ck : positive) (cfg : kvsrv_config) : kvsrv_config :=
  vc_set_net (Enable (map_get EmptyString (vc_clerks cfg) ck) true (vc_net cfg)) cfg.

Definition kvsrv_makeClient (ck : positive) (endname : string) (cfg : kvsrv_config)
    : outcome (kvsrv_config * ClientEnd) :=
  '(rn, e) ← MakeEnd endname (vc_net cfg);
  let rn := Connect endname (SInt SERVERID) rn in
  let cfg := vc_set_clerks (<[ck := endname]> (vc_clerks cfg)) (vc_nextClientId cfg + 1) (vc_set_net rn cfg) in
  Ok (kvsrv_ConnectClientUnlocked ck cfg, e).

Definition kvsrv_deleteClient (ck : positive) (cfg : kvsrv_config) : outcome kvsrv_config :=
  rn ← DeleteEnd (map_get EmptyString (vc_clerks cfg) ck) (vc_net cfg);
  Ok (vc_set_clerks (delete ck (vc_clerks cfg)) (vc_nextClientId cfg) (vc_set_net rn cfg)).

(** [srv] is the address of the new server. *)
Definition kvsrv_StartServer (srv : positive) (cfg : kvsrv_config) : kvsrv_config :=
  {| vc_net := AddServer (SInt 0) srv (vc_net cfg); vc_kvserver := StartKVServer; vc_clerks := vc_clerks cfg;
     vc_nextClientId := vc_nextClientId cfg; vc_rpcs0 := vc_rpcs0 cfg; vc_ops := vc_ops cfg |}.

Definition kvsrv_make_config (unreliable : bool) (srv : positive) : kvsrv_config :=
  let cfg := kvsrv_StartServer srv
    {| vc_net := MakeNetwork; vc_kvserver := StartKVServer; vc_clerks := ∅;
       vc_nextClientId := SERVERID + 1; vc_rpcs0 := 0; vc_ops := 0 |} in
  vc_set_net (Reliable (negb unreliable) (vc_net cfg)) cfg.

(** [rn_count] is what [GetTotalCount] returns. *)
Definition kvsrv_rpcTotal (cfg : kvsrv_config) : Z := rn_count (vc_net cfg).

Definition kvsrv_begin (cfg : kvsrv_config) : kvsrv_config :=
  vc_set_stats (kvsrv_rpcTotal cfg) 0 cfg.

(** [atomic.AddInt32(&cfg.ops, 1)] *)
Definition kvsrv_op (cfg : kvsrv_config) : kvsrv_config :=
  vc_set_stats (vc_rpcs0 cfg) (wrap32 (vc_ops cfg + 1)) cfg.

(** The figures that [end] prints: calls and operations. *)
Definition kvsrv_end (cfg : kvsrv_config) : Z * Z :=
  (kvsrv_rpcTotal cfg - vc_rpcs0 cfg, vc_ops cfg).

Definition kvsrv_cleanup (cfg : kvsrv_config) : outcome kvsrv_config :=
  rn ← Cleanup (vc_net cfg); Ok (vc_set_net rn cfg).

(** What the tests do with the other clerks meanwhile. *)
Inductive client_op :=
  | MakeClient (ck : positive) (endname : string)
  | DeleteClient (ck : positive)
  | ConnectClient (ck : positive)
  | CountOp.

Definition perform_client_op (o : client_op) (cfg : kvsrv_config) : outcome kvsrv_config :=
  match o with
  | MakeClient ck nm => fst <$> kvsrv_makeClient ck nm cfg
  | DeleteClient ck => kvsrv_deleteClient ck cfg
  | ConnectClient ck => Ok (kvsrv_ConnectClientUnlocked ck cfg)
  | CountOp => Ok (kvsrv_op cfg)
  end.

(** A new clerk has an address of its own, and a drawn name is not empty. *)
Fixpoint fresh_clients (os : list client_op) (cfg : kvsrv_config) : Prop :=
  match os with
  | [] => True
  | o :: os =>
      match o with
      | MakeClient ck nm => vc_clerks cfg !! ck = None ∧ nm ≠ EmptyString
      | _ => True
      end ∧ ∀ cfg', perform_client_op o cfg = Ok cfg' → fresh_clients os cfg'
  end.

Fixpoint perform_client_ops (os : list client_op) (cfg : kvsrv_config) : outcome kvsrv_config :=
  match os with
  | [] => Ok cfg
  | o :: os => cfg ← perform_client_op o cfg; perform_client_ops os cfg
  end.

(** Every clerk has an end point of its own, which is connected to the server;
    no end point has the empty name that a missing clerk reads as. *)
Record kvsrv_ok (srv : positive) (cfg : kvsrv_config) : Prop := {
  vo_server : map_get None (servers (vc_net cfg)) (SInt 0) = Some srv;
  vo_clerk ck nm : vc_clerks cfg !! ck = Some nm →
    is_Some (ends (vc_net cfg) !! nm) ∧ map_get None (connections (vc_net cfg)) nm = Some (SInt 0) ∧
    map_get false (enabled (vc_net cfg)) nm = true;
  vo_empty : ends (vc_net cfg) !! EmptyString = None;
  vo_inj ck ck' nm : vc_clerks cfg !! ck = Some nm → vc_clerks cfg !! ck' = Some nm → ck = ck';
}.

Lemma kvsrv_make_config_ok unreliable srv : kvsrv_ok srv (kvsrv_make_config unreliable srv).
Proof.
  split; cbn.
  - unfold map_get. by rewrite lookup_insert_eq.
  - intros ck nm. by rewrite lookup_empty.
  - done.
  - intros ck ck' nm. by rewrite lookup_empty.
Qed.

Lemma kvsrv_makeClient_ok srv ck nm cfg cfg' e :
  kvsrv_ok srv cfg → vc_clerks cfg !! ck = None → nm ≠ EmptyString → kvsrv_makeClient ck nm cfg = Ok (cfg', e) →
  kvsrv_ok srv cfg' ∧ vc_clerks cfg' = <[ck := nm]> (vc_clerks cfg).
Proof.
  intros Hok Hck Hne Hm. unfold kvsrv_makeClient, MakeEnd in Hm.
  destruct (ends (vc_net cfg) !! nm) eqn:Hnm; [done|]. cbn in Hm. injection Hm as <- <-.
  assert (∀ ck', vc_clerks cfg !! ck' ≠ Some nm) as Hnew.
  { intros ck' Hc. apply (vo_clerk _ _ Hok) in Hc as ([? ?] & _). congruence. }
  unfold kvsrv_ConnectClientUnlocked, map_get; cbn. rewrite lookup_insert_eq; cbn. split; [|done].
  split; cbn.
  - apply Hok.
  - intros ck' nm' Hc. unfold map_get. rewrite lookup_insert in Hc. case_decide; simplify_eq.
    + rewrite !lookup_insert_eq. split_and!; eauto.
    + pose proof Hc as (Hs & Hcon & Hen)%(vo_clerk _ _ Hok). unfold map_get in *.
      rewrite !lookup_insert_ne by (intros ->; by eapply Hnew). done.
  - rewrite lookup_insert_ne by done. apply Hok.
  - intros ck1 ck2 nm'. rewrite !lookup_insert. repeat case_decide; intros; simplify_eq; try done.
    + exfalso. by eapply Hnew.
    + exfalso. by eapply Hnew.
    + by eapply (vo_inj _ _ Hok).
Qed.

Lemma kvsrv_deleteClient_ok srv ck cfg cfg' :
  kvsrv_ok srv cfg → kvsrv_deleteClient ck cfg = Ok cfg' →
  kvsrv_ok srv cfg' ∧ vc_clerks cfg' = delete ck (vc_clerks cfg).
Proof.
  intros Hok Hd. unfold kvsrv_deleteClient, DeleteEnd in Hd.
  destruct (ends (vc_net cfg) !! map_get EmptyString (vc_clerks cfg) ck) as [e|] eqn:He; [|done].
  cbn in Hd. injection Hd as <-. split; [|done].
  assert (∃ nm, vc_clerks cfg !! ck = Some nm) as [nm Hnm].
  { unfold map_get in He. destruct (vc_clerks cfg !! ck); [eauto|]. cbn in He. by rewrite (vo_empty _ _ Hok) in He. }
  assert (map_get EmptyString (vc_clerks cfg) ck = nm) as Hget by (unfold map_get; by rewrite Hnm).
  rewrite Hget. split; cbn.
  - apply Hok.
  - intros ck' nm'. rewrite lookup_delete. case_decide; [done|]. intros Hc.
    assert (nm ≠ nm') by (intros ->; by eapply H, (vo_inj _ _ Hok)).
    pose proof Hc as (Hs & Hcon & Hen)%(vo_clerk _ _ Hok). unfold map_get in *.
    by rewrite !lookup_delete_ne by done.
  - rewrite lookup_delete. case_decide; [done|]. apply Hok.
  - intros ck1 ck2 nm'. rewrite !lookup_delete. repeat case_decide; try done. by eapply (vo_inj _ _ Hok).
Qed.

Lemma kvsrv_connect_ok srv ck cfg : kvsrv_ok srv cfg → kvsrv_ok srv (kvsrv_ConnectClientUnlocked ck cfg).
Proof.
  intros Hok. split; cbn; try apply Hok. intros ck' nm Hc.
  pose proof Hc as (Hs & Hcon & Hen)%(vo_clerk _ _ Hok). split_and!; [done..|].
  unfold map_get in *. rewrite lookup_insert. by case_decide.
Qed.

(** No operation but its deletion takes a clerk's registration away. *)
Lemma perform_client_op_ok srv o os cfg cfg' ck nm :
  kvsrv_ok srv cfg → fresh_clients (o :: os) cfg → perform_client_op o cfg = Ok cfg' →
  kvsrv_ok srv cfg' ∧
  (vc_clerks cfg !! ck = Some nm → o ≠ DeleteClient ck → vc_clerks cfg' !! ck = Some nm).
Proof.
  intros Hok [Hf _] Ho. destruct o as [ck' nm'|ck'|ck'|]; cbn in Ho.
  - apply fmap_Ok in Ho as ([cfg1 e] & Hm & <-). destruct Hf as [Hnone Hne].
    destruct (kvsrv_makeClient_ok _ _ _ _ _ _ Hok Hnone Hne Hm) as [? Hck]. cbn. split; [done|].
    intros Hc _. rewrite Hck, lookup_insert_ne; [done|]. intros ->. congruence.
  - destruct (kvsrv_deleteClient_ok _ _ _ _ Hok Ho) as [? Hck]. split; [done|].
    intros Hc Hne. rewrite Hck, lookup_delete_ne; [done|]. intros ->. done.
  - injection Ho as <-. split; [by apply kvsrv_connect_ok|done].
  - injection Ho as <-. split; [|done]. destruct Hok. by split.
Qed.

Lemma perform_client_ops_ok srv os : ∀ cfg cfg' ck nm,
  kvsrv_ok srv cfg → fresh_clients os cfg → perform_client_ops os cfg = Ok cfg' →
  kvsrv_ok srv cfg' ∧
  (vc_clerks cfg !! ck = Some nm → DeleteClient ck ∉ os → vc_clerks cfg' !! ck = Some nm).
Proof.
  induction os as [|o os IH]; intros cfg cfg' ck nm Hok Hf Hp; cbn in Hp; [by injection Hp as <-|].
  apply bind_Ok in Hp as (cfg1 & Ho & Hp).
  destruct (perform_client_op_ok srv o os cfg cfg1 ck nm Hok Hf Ho) as [Hok1 Hreg].
  destruct Hf as [_ Hf]. destruct (IH cfg1 cfg' ck nm Hok1 (Hf _ Ho) Hp) as [Hok' Hreg'].
  split; [done|]. intros Hc Hnot. apply Hreg'; [apply Hreg; [done|]|]; intros Hin; apply Hnot; subst; [by left|by right].
Qed.

(** From [make_config] on, a clerk's end point reaches the server from the
    moment [makeClient] returns until its own [deleteClient], whatever clerks
    are made, connected and deleted before and meanwhile; the deletion then
    succeeds, and the end point reaches nothing. *)
Theorem kvsrv_client_lifetime unreliable srv before ck nm meanwhile cfg :
  let ops := before ++ MakeClient ck nm :: meanwhile in
  fresh_clients ops (kvsrv_make_config unreliable srv) →
  perform_client_ops ops (kvsrv_make_config unreliable srv) = Ok cfg →
  DeleteClient ck ∉ meanwhile →
  connected nm (SInt 0) srv (vc_net cfg) ∧
  ∃ cfg', kvsrv_deleteClient ck cfg = Ok cfg' ∧ ∀ sn rs, ¬ connected nm sn rs (vc_net cfg').
Proof.
  cbn zeta. generalize (kvsrv_make_config unreliable srv), (kvsrv_make_config_ok unreliable srv).
  intros cfg0 Hok0 Hf Hp Hnot.
  assert (∃ cfg1 cfg2, kvsrv_ok srv cfg1 ∧ perform_client_op (MakeClient ck nm) cfg1 = Ok cfg2 ∧
    fresh_clients (MakeClient ck nm :: meanwhile) cfg1 ∧ perform_client_ops meanwhile cfg2 = Ok cfg)
    as (cfg1 & cfg2 & Hok1 & Hmake & Hf1 & Hp2).
  { clear Hnot. revert cfg0 Hok0 Hf Hp. induction before as [|o before IH]; intros cfg0 Hok0 Hf Hp.
    - apply bind_Ok in Hp as (cfg2 & Ho & Hp). by exists cfg0, cfg2.
    - apply bind_Ok in Hp as (cfg1 & Ho & Hp). apply (IH cfg1); [|by apply Hf|done].
      by eapply (perform_client_op_ok srv o _ cfg0 cfg1 ck nm). }
  destruct (perform_client_op_ok srv _ _ _ _ ck nm Hok1 Hf1 Hmake) as [Hok2 _].
  destruct Hf1 as [[Hnone Hne] Hf2]. cbn [perform_client_op] in Hmake.
  apply fmap_Ok in Hmake as ([cfg2' e] & Hm & Heq). cbn in Heq. subst cfg2'.
  destruct (kvsrv_makeClient_ok _ _ _ _ _ _ Hok1 Hnone Hne Hm) as [_ Hreg].
  destruct (perform_client_ops_ok srv meanwhile cfg2 cfg ck nm Hok2) as [Hok Hreg'];
    [apply Hf2; cbn; by rewrite Hm|done|].
  assert (vc_clerks cfg !! ck = Some nm) as Hck by (apply Hreg'; [by rewrite Hreg, lookup_insert_eq|done]).
  destruct (vo_clerk _ _ Hok _ _ Hck) as ([en Hen] & Hc & He). split; [split_and!; [done..|apply Hok]|].
  unfold kvsrv_deleteClient, DeleteEnd.
  assert (map_get EmptyString (vc_clerks cfg) ck = nm) as -> by (unfold map_get; by rewrite Hck).
  rewrite Hen; cbn. eexists. split; [done|]. intros sn rs (Hen' & _). cbn in Hen'.
  unfold map_get in Hen'. by rewrite lookup_delete_eq in Hen'.
Qed.

(** Another clerk comes and goes. *)
Lemma kvsrv_client_lifetime_witness :
  ∃ cfg, perform_client_ops ([MakeClient 1 "a"] ++ MakeClient 2 "b" :: [DeleteClient 1; CountOp])
           (kvsrv_make_config true 9) = Ok cfg ∧ connected "b" (SInt 0) 9 (vc_net cfg).
Proof.
  destruct (perform_client_ops ([MakeClient 1 "a"] ++ MakeClient 2 "b" :: [DeleteClient 1; CountOp])
             (kvsrv_make_config true 9)) as [cfg|] eqn:Hp; [|by vm_compute in Hp].
  exists cfg. split; [reflexivity|].
  refine (proj1 (kvsrv_client_lifetime true 9 [MakeClient 1 "a"] 2 "b" [DeleteClient 1; CountOp] cfg _ Hp _)).
  - cbn. split; [done|]. intros c1 [= <-]. split; [done|]. intros c2 [= <-]. split; [done|].
    intros c3 _. split; [done|]. done.
  - by intros [?|[?|?%not_elem_of_nil]%elem_of_cons]%elem_of_cons.
Defined.

(** ** shardctrler

    The definitions of [KvraftConfig] at shardctrler's server.  The server has
    no bound on its Raft state; [config] has no such field. *)
Section ShardctrlerConfig.
Context {Cmd : Type} `{!Gob Cmd}.
Local Abbreviation Srv := (ShardCtrler Cmd).
Local Abbreviation sc_config := (kconfig (Srv := Srv)).

Definition sc_start (n me_ : Z) (p : Persister) (_ now : Z) : outcome Srv := ctrler_StartServer n me_ p now.

Definition sc_random_handles {A} : (Z → Z) → list A → outcome (list A) := random_handles.
Definition sc_LogSize : sc_config → outcome Z := kc_LogSize sc_rf.
Definition sc_connect : Z → list Z → sc_config → outcome sc_config := kc_connect.
Definition sc_disconnect : Z → list Z → sc_config → outcome sc_config := kc_disconnect.
Definition sc_All (cfg : sc_config) : list Z := All (kc_n cfg).
Definition sc_cleanup : sc_config → outcome sc_config := kc_cleanup ctrler_Kill.
Definition sc_ConnectAll (cfg : sc_config) : outcome sc_config :=
  rn ← ConnectAll (kc_endnames cfg) (kc_n cfg) (kc_net cfg); Ok (kc_set_net rn cfg).
Definition sc_partition (p1 p2 : list Z) (cfg : sc_config) : outcome sc_config :=
  rn ← partition (kc_endnames cfg) p1 p2 (kc_net cfg); Ok (kc_set_net rn cfg).
Definition sc_makeClient : positive → (Z → string) → (Z → Z) → list Z → sc_config →
    outcome (sc_config * list ClientEnd) := makeClient.
Definition sc_deleteClient : positive → sc_config → sc_config := deleteClient.
Definition sc_ConnectClient : positive → list Z → sc_config → outcome sc_config := kc_ConnectClient.
Definition sc_DisconnectClient : positive → list Z → sc_config → outcome sc_config := kc_DisconnectClient.
Definition sc_ShutdownServer : Z → sc_config → outcome sc_config := ShutdownServer sc_rf.
Definition sc_StartServer : Z → (Z → string) → positive → Z → sc_config → outcome sc_config :=
  StartServer sc_rf sc_start.

Fixpoint sc_find_leader (i : Z) (svs : list (option Srv)) : bool * Z :=
  match svs with
  | [] => (false, 0)
  | None :: svs => sc_find_leader (i + 1) svs
  | Some sv :: svs => if (GetState (sc_rf sv)).2 then (true, i) else sc_find_leader (i + 1) svs
  end.
Definition sc_Leader (cfg : sc_config) : bool * Z := sc_find_leader 0 (kc_servers cfg).

Definition sc_make_partition (cfg : sc_config) : outcome (list Z * list Z) :=
  make_partition (kc_n cfg) (sc_Leader cfg).2.

Definition sc_make_config (n : Z) (unreliable : bool) (names : Z → Z → string) (srv : Z → positive) (now : Z)
    : outcome sc_config := kc_make_config sc_rf sc_start n (-1) unreliable names srv now.

(** Server [i] runs and says it leads. *)
Definition leads (cfg : sc_config) (i : nat) : Prop :=
  ∃ sv, kc_servers cfg !! i = Some (Some sv) ∧ (GetState (sc_rf sv)).2 = true.

Lemma sc_find_leader_spec svs : ∀ i,
  match sc_find_leader i svs with
  | (true, l) => ∃ k sv, l = i + Z.of_nat k ∧ svs !! k = Some (Some sv) ∧ (GetState (sc_rf sv)).2 = true ∧
      ∀ k' sv', (k' < k)%nat → svs !! k' = Some (Some sv') → (GetState (sc_rf sv')).2 = false
  | (false, l) => l = 0 ∧ ∀ k sv, svs !! k = Some (Some sv) → (GetState (sc_rf sv)).2 = false
  end.
Proof.
  induction svs as [|o svs IH]; intros i; cbn [sc_find_leader]; [split; [done|]; intros k sv; by rewrite lookup_nil|].
  assert (match o with Some sv => (GetState (sc_rf sv)).2 = false | None => True end →
    match sc_find_leader (i + 1) svs with
    | (true, l) => ∃ k sv, l = i + Z.of_nat k ∧ (o :: svs) !! k = Some (Some sv) ∧ (GetState (sc_rf sv)).2 = true ∧
        ∀ k' sv', (k' < k)%nat → (o :: svs) !! k' = Some (Some sv') → (GetState (sc_rf sv')).2 = false
    | (false, l) => l = 0 ∧ ∀ k sv, (o :: svs) !! k = Some (Some sv) → (GetState (sc_rf sv)).2 = false
    end) as Hnext.
  { intros Ho. specialize (IH (i + 1)). destruct (sc_find_leader (i + 1) svs) as [[] l].
    - destruct IH as (k & sv & -> & Hk & Hl & Hmin). exists (S k), sv. split_and!; [lia|done|done|].
      intros [|k'] sv' Hlt Hs; [by injection Hs as ->|]. apply (Hmin k'); [lia|done].
    - destruct IH as [-> Hno]. split; [done|]. intros [|k] sv Hs; [by injection Hs as ->|by apply (Hno k)]. }
  destruct o as [sv|]; [|by apply Hnext]. destruct (GetState (sc_rf sv)).2 eqn:Hs; [|by apply Hnext].
  exists 0%nat, sv. split_and!; [lia|done|done|]. intros k' sv' Hlt. lia.
Qed.

(** [Leader] answers the first running server that says it leads, and
    false, with server 0, when there is none: servers that are down never stop
    it, unlike kvraft's. *)
Theorem sc_Leader_spec cfg :
  match sc_Leader cfg with
  | (true, l) => ∃ k, l = Z.of_nat k ∧ leads cfg k ∧ ∀ k', (k' < k)%nat → ¬ leads cfg k'
  | (false, l) => l = 0 ∧ ∀ k, ¬ leads cfg k
  end.
Proof.
  unfold sc_Leader, leads. pose proof (sc_find_leader_spec (kc_servers cfg) 0) as Hspec.
  destruct (sc_find_leader 0 (kc_servers cfg)) as [[] l].
  - destruct Hspec as (k & sv & -> & Hk & Hl & Hmin). exists k. split_and!; [lia|eauto|].
    intros k' Hlt (sv' & Hs & Ht). by rewrite (Hmin k' sv' Hlt Hs) in Ht.
  - destruct Hspec as [-> Hno]. split; [done|]. intros k (sv & Hs & Ht). by rewrite (Hno k sv Hs) in Ht.
Qed.
End ShardctrlerConfig.
