(* ===== verification/ShardkvConfig.v ===== *)
(** * The configuration of the sharded service (src/src/shardkv/config.go)

    A controller of three servers, and three groups of [n] key/value servers
    with the group ids 100, 101 and 102; every server of a group keeps end
    points to the servers of its group and to the controller's.

    [servername_inj]: the names of the groups' servers never clash.
    [shutdown_isolates]: after [ShutdownServer] none of the server's own end
    points is switched on and its name leads to no server.
    [only_three_per_group]: a configuration that has been made and has made
    a client has three servers per group, since two tables are allocated with
    the length of another one; [three_per_group_works] is an example that does
    work. *)
From S2P Require Import Prelude GoLib Labrpc Raft Harness KvraftConfig ShardClients.
Local Open Scope Z_scope.

(** A clerk's servers in another order, as in the other configurations. *)
Definition sg_random_handles {A} : (Z → Z) → list A → outcome (list A) := random_handles.

Section Config.
Context {Cmd : Type} `{!Gob Cmd}.

Record group := {
  gg_gid : Z;
  gg_servers : list (option (ShardKV Cmd));
  gg_saved : list (option Persister);
  gg_endnames : name_table;
  gg_mendnames : name_table;
}.

Record ctrler := {
  ctl_n : Z;
  ctl_servers : list (option (ShardCtrler Cmd));
  ctl_names : list string;
  ctl_ck : list ClientEnd;   (* the end points of its clerk *)
}.

Record skconfig := {
  sg_net : Network;
  sg_ctl : ctrler;
  sg_ngroups : Z;
  sg_n : Z;
  sg_groups : list group;
  sg_clerks : gmap positive (list string);
  sg_nextClientId : Z;
  sg_maxraftstate : Z;
}.

Definition sg_set_net rn (cfg : skconfig) : skconfig :=
  {| sg_net := rn; sg_ctl := sg_ctl cfg; sg_ngroups := sg_ngroups cfg; sg_n := sg_n cfg;
     sg_groups := sg_groups cfg; sg_clerks := sg_clerks cfg; sg_nextClientId := sg_nextClientId cfg;
     sg_maxraftstate := sg_maxraftstate cfg |}.
Definition sg_set_ctl ctl (cfg : skconfig) : skconfig :=
  {| sg_net := sg_net cfg; sg_ctl := ctl; sg_ngroups := sg_ngroups cfg; sg_n := sg_n cfg;
     sg_groups := sg_groups cfg; sg_clerks := sg_clerks cfg; sg_nextClientId := sg_nextClientId cfg;
     sg_maxraftstate := sg_maxraftstate cfg |}.
Definition sg_set_groups gs (cfg : skconfig) : skconfig :=
  {| sg_net := sg_net cfg; sg_ctl := sg_ctl cfg; sg_ngroups := sg_ngroups cfg; sg_n := sg_n cfg;
     sg_groups := gs; sg_clerks := sg_clerks cfg; sg_nextClientId := sg_nextClientId cfg;
     sg_maxraftstate := sg_maxraftstate cfg |}.
Definition sg_set_clerks cks next (cfg : skconfig) : skconfig :=
  {| sg_net := sg_net cfg; sg_ctl := sg_ctl cfg; sg_ngroups := sg_ngroups cfg; sg_n := sg_n cfg;
     sg_groups := sg_groups cfg; sg_clerks := cks; sg_nextClientId := next;
     sg_maxraftstate := sg_maxraftstate cfg |}.

Definition ctrlername (ctl : ctrler) (i : Z) : outcome servername := SStr <$> go_index (ctl_names ctl) i.

(** [cfg.servername] *)
Definition server_name (gid i : Z) : string := "server-" +:+ pretty gid +:+ "-" +:+ pretty i.
Definition servername_of (gid i : Z) : servername := SStr (server_name gid i).

(** A new end point that is connected and switched on; [make_end] of a clerk
    or server. *)
Definition dial (name : string) (sn : servername) (rn : Network) : outcome (Network * ClientEnd) :=
  '(rn, e) ← MakeEnd name rn;
  Ok (Enable name true (Connect name sn rn), e).

(** One to each server [j < n]; [names j] is the name drawn. *)
Definition dial_each (names : Z → string) (server : Z → outcome servername) (n : Z) (rn : Network)
    : outcome (Network * list ClientEnd) :=
  go_for (upto n) (λ j '(rn, es), sn ← server j; '(rn, e) ← dial (names j) sn rn; Ok (rn, es ++ [e])) (rn, []).

(** ** Clients *)

(** [endnames] is allocated with length [cfg.n] and indexed up to [ctl.n]. *)
Definition sg_makeClient (ck : positive) (names : Z → string) (ctl : ctrler) (cfg : skconfig)
    : outcome (skconfig * list ClientEnd) :=
  '(rn, endnames, es) ← go_for (upto (ctl_n ctl))
    (λ j '(rn, endnames, es),
        endnames ← go_set endnames j (names j);
        sn ← ctrlername ctl j;
        '(rn, e) ← dial (names j) sn rn;
        Ok (rn, endnames, es ++ [e]))
    (sg_net cfg, replicate (Z.to_nat (sg_n cfg)) EmptyString, []);
  Ok (sg_set_clerks (<[ck := endnames]> (sg_clerks cfg)) (sg_nextClientId cfg + 1) (sg_set_net rn cfg), es).

Definition sg_deleteClient (ck : positive) (cfg : skconfig) : skconfig :=
  sg_set_clerks (delete ck (sg_clerks cfg)) (sg_nextClientId cfg) cfg.

(** ** Servers of a group *)

(** [gg.saved[i]], shared with the server that runs. *)
Definition gg_saved_of (i : Z) (gg : group) : outcome (option Persister) :=
  sv ← go_index (gg_servers gg) i;
  match sv with
  | Some sv => Ok (Some (persister (sk_rf sv)))
  | None => go_index (gg_saved gg) i
  end.

(** [cfg.checklogs]: the test fails ([false]) when a log is too large. *)
Definition log_size_ok (maxraftstate : Z) (p : Persister) : bool :=
  negb (bool_decide (maxraftstate >= 0) && bool_decide (RaftStateSize p > 8 * maxraftstate)) &&
  negb (bool_decide (maxraftstate < 0) && bool_decide (go_len (ReadSnapshot p) > 0)).

Definition sg_checklogs (cfg : skconfig) : outcome bool :=
  go_for (upto (sg_ngroups cfg)) (λ gi b,
    go_for (upto (sg_n cfg)) (λ i b,
      gg ← go_index (sg_groups cfg) gi;
      ps ← gg_saved_of i gg;
      match ps with
      | Some p => Ok (b && log_size_ok (sg_maxraftstate cfg) p)
      | None => Panic
      end) b) true.

Definition sg_ShutdownServer (gi i : Z) (cfg : skconfig) : outcome skconfig :=
  gg ← go_index (sg_groups cfg) gi;
  rn ← enable_each false (upto (go_len (gg_servers gg))) (λ j, Some <$> endname_of (gg_endnames gg) i j) (sg_net cfg);
  mrow ← go_index (gg_mendnames gg) i;
  let m := go_len (default [] mrow) in
  rn ← enable_each false (upto m) (λ j, Some <$> endname_of (gg_mendnames gg) i j) rn;
  let rn := DeleteServer (servername_of (gg_gid gg) i) rn in
  ps ← gg_saved_of i gg;
  saved ← go_set (gg_saved gg) i (Persister_Copy <$> ps);
  servers ← go_set (gg_servers gg) i None;
  groups ← go_set (sg_groups cfg) gi
    {| gg_gid := gg_gid gg; gg_servers := servers; gg_saved := saved;
       gg_endnames := gg_endnames gg; gg_mendnames := gg_mendnames gg |};
  Ok (sg_set_groups groups (sg_set_net rn cfg)).

Definition sg_ShutdownGroup (gi : Z) (cfg : skconfig) : outcome skconfig :=
  go_for (upto (sg_n cfg)) (sg_ShutdownServer gi) cfg.

(** [names] and [mnames] are the names drawn for the end points to the group
    and to the controller. *)
Definition sg_StartServer (gi i : Z) (names mnames : Z → string) (srv : positive) (now : Z) (cfg : skconfig)
    : outcome skconfig :=
  gg ← go_index (sg_groups cfg) gi;
  endnames ← go_set (gg_endnames gg) i (Some (names <$> upto (sg_n cfg)));
  '(rn, _) ← dial_each names (λ j, Ok (servername_of (gg_gid gg) j)) (sg_n cfg) (sg_net cfg);
  mendnames ← go_set (gg_mendnames gg) i (Some (mnames <$> upto (ctl_n (sg_ctl cfg))));
  '(rn, _) ← dial_each mnames (ctrlername (sg_ctl cfg)) (ctl_n (sg_ctl cfg)) rn;
  ps ← gg_saved_of i gg;
  let p := match ps with Some p => Persister_Copy p | None => MakePersister end in
  saved ← go_set (gg_saved gg) i (Some p);
  sv ← shardkv_StartServer (sg_n cfg) i p (sg_maxraftstate cfg) (gg_gid gg) now;
  servers ← go_set (gg_servers gg) i (Some sv);
  groups ← go_set (sg_groups cfg) gi
    {| gg_gid := gg_gid gg; gg_servers := servers; gg_saved := saved;
       gg_endnames := endnames; gg_mendnames := mendnames |};
  Ok (sg_set_groups groups (sg_set_net (AddServer (servername_of (gg_gid gg) i) srv rn) cfg)).

Definition sg_StartGroup (gi : Z) (names mnames : Z → Z → string) (srv : Z → positive) (now : Z) (cfg : skconfig)
    : outcome skconfig :=
  go_for (upto (sg_n cfg)) (λ i, sg_StartServer gi i (names i) (mnames i) (srv i) now) cfg.

(** ** The controller *)
Definition sg_StartCtrlerServer (i : Z) (names : Z → string) (srv : positive) (now : Z)
    (st : ctrler * Network) : outcome (ctrler * Network) :=
  let '(ctl, rn) := st in
  '(rn, _) ← dial_each names (ctrlername ctl) (ctl_n ctl) rn;
  sc ← ctrler_StartServer (ctl_n ctl) i MakePersister now;
  servers ← go_set (ctl_servers ctl) i (Some sc);
  sn ← ctrlername ctl i;
  Ok ({| ctl_n := ctl_n ctl; ctl_servers := servers; ctl_names := ctl_names ctl; ctl_ck := ctl_ck ctl |},
      AddServer sn srv rn).

Definition sg_ctrlerclerk (names : Z → string) (ctl : ctrler) (rn : Network)
    : outcome (Network * list ClientEnd) :=
  dial_each names (ctrlername ctl) (ctl_n ctl) rn.

(** [tags] is what is drawn for the servers' names. *)
Definition sg_StartCtrlerService (tags : Z → string) (names : Z → Z → string) (cknames : Z → string)
    (srv : Z → positive) (now : Z) (rn : Network) : outcome (ctrler * Network) :=
  let ctl := {| ctl_n := 3; ctl_servers := replicate 3 None;
                ctl_names := (λ i, "ctlr-" +:+ tags i) <$> upto 3; ctl_ck := [] |} in
  '(ctl, rn) ← go_for (upto 3) (λ i, sg_StartCtrlerServer i (names i) (srv i) now) (ctl, rn);
  '(rn, es) ← sg_ctrlerclerk cknames ctl rn;
  Ok ({| ctl_n := ctl_n ctl; ctl_servers := ctl_servers ctl; ctl_names := ctl_names ctl; ctl_ck := es |}, rn).

(** What [joinm] tells the controller: the servers of each group. *)
Definition joinm_args (gis : list Z) (cfg : skconfig) : outcome (gmap Z (list string)) :=
  go_for gis (λ g m, gg ← go_index (sg_groups cfg) g;
                     Ok (<[gg_gid gg := server_name (gg_gid gg) <$> upto (sg_n cfg)]> m)) ∅.

(** What [leavem] tells it: the group ids. *)
Definition leavem_args (gis : list Z) (cfg : skconfig) : outcome (list Z) :=
  go_for gis (λ g gids, gg ← go_index (sg_groups cfg) g; Ok (gids ++ [gg_gid gg])) [].

(** The calls of the controller's clerk. *)
Definition sg_joinm (call : nat → ClientEnd → JoinArgs → option CtrlReply) (gis : list Z) (ctl : ctrler)
    (cfg : skconfig) (fuel : nat) : outcome bool :=
  m ← joinm_args gis cfg; Ok (Join (ctl_ck ctl) call m fuel).
Definition sg_leavem (call : nat → ClientEnd → LeaveArgs → option CtrlReply) (gis : list Z)
    (cfg : skconfig) (fuel : nat) : outcome bool :=
  gids ← leavem_args gis cfg; Ok (Leave (ctl_ck (sg_ctl cfg)) call gids fuel).

(** ** The whole configuration *)
Definition new_group (gid n m : Z) : group :=
  {| gg_gid := gid; gg_servers := replicate (Z.to_nat n) None; gg_saved := replicate (Z.to_nat n) None;
     gg_endnames := replicate (Z.to_nat n) None; gg_mendnames := replicate (Z.to_nat m) None |}.

(** The strings and addresses drawn while the configuration is made. *)
Record draws := {
  dr_tags : Z → string;
  dr_ctl : Z → Z → string;
  dr_ck : Z → string;
  dr_ctlsrv : Z → positive;
  dr_ends : Z → Z → Z → string;
  dr_mends : Z → Z → Z → string;
  dr_srv : Z → Z → positive;
}.

Definition sg_make_config (n : Z) (unreliable : bool) (maxraftstate : Z) (dr : draws) (now : Z)
    : outcome skconfig :=
  '(ctl, rn) ← sg_StartCtrlerService (dr_tags dr) (dr_ctl dr) (dr_ck dr) (dr_ctlsrv dr) now MakeNetwork;
  let cfg := {| sg_net := rn; sg_ctl := ctl; sg_ngroups := 3; sg_n := n; sg_groups := [];
                sg_clerks := ∅; sg_nextClientId := 0; sg_maxraftstate := maxraftstate |} in
  cfg ← go_for (upto 3) (λ gi cfg,
      (* [cfg.groups[gi] = gg]; the later groups are still nil *)
      let cfg := sg_set_groups (sg_groups cfg ++ [new_group (100 + gi) n (ctl_n (sg_ctl cfg))]) cfg in
      sg_StartGroup gi (dr_ends dr gi) (dr_mends dr gi) (dr_srv dr gi) now cfg) cfg;
  let cfg := sg_set_clerks ∅ (n + 1000) cfg in
  Ok (sg_set_net (Reliable (negb unreliable) (sg_net cfg)) cfg).

Definition sg_cleanup (cfg : skconfig) : outcome skconfig :=
  cfg ← go_for (upto (sg_ngroups cfg)) sg_ShutdownGroup cfg;
  servers ← go_for (upto (ctl_n (sg_ctl cfg)))
    (λ i svs, sc ← go_index svs i;
              match sc with Some sc => go_set svs i (Some (ctrler_Kill sc)) | None => Panic end)
    (ctl_servers (sg_ctl cfg));
  rn ← Cleanup (sg_net cfg);
  Ok (sg_set_net rn (sg_set_ctl {| ctl_n := ctl_n (sg_ctl cfg); ctl_servers := servers;
    ctl_names := ctl_names (sg_ctl cfg); ctl_ck := ctl_ck (sg_ctl cfg) |} cfg)).

(** ** Names *)

(** The names of the groups' servers, and with them the network's server
    table, tell groups and servers apart. *)
Theorem servername_inj gid i gid' i' :
  0 ≤ i → 0 ≤ i' → servername_of gid i = servername_of gid' i' → gid = gid' ∧ i = i'.
Proof using Type.
  unfold servername_of, server_name. intros Hi Hi' [= Heq].
  apply (dash_split (pretty gid) (pretty i) (pretty gid') (pretty i')) in Heq as [?%(inj pretty) ?%(inj pretty)];
    [done|by apply pretty_no_dash..].
Qed.

(** ** The sizes of the tables *)
Definition mend_len (gi : Z) (cfg : skconfig) (m : Z) : Prop :=
  ∃ gg, go_index (sg_groups cfg) gi = Ok gg ∧ go_len (gg_mendnames gg) = m.

Lemma StartServer_sizes gi i names mnames srv now cfg cfg' :
  sg_StartServer gi i names mnames srv now cfg = Ok cfg' →
  sg_n cfg' = sg_n cfg ∧ sg_ctl cfg' = sg_ctl cfg ∧
  ∃ m, i < m ∧ mend_len gi cfg m ∧ mend_len gi cfg' m.
Proof using Type.
  intros Hs. unfold sg_StartServer in Hs. apply bind_Ok in Hs as (gg & Hgg & Hs).
  apply bind_Ok in Hs as (ens & _ & Hs). apply bind_Ok in Hs as ([rn1 es1] & _ & Hs).
  apply bind_Ok in Hs as (mens & Hmens & Hs). apply bind_Ok in Hs as ([rn2 es2] & _ & Hs).
  apply bind_Ok in Hs as (ps & _ & Hs). apply bind_Ok in Hs as (saved & _ & Hs).
  apply bind_Ok in Hs as (sv & _ & Hs). apply bind_Ok in Hs as (svs & _ & Hs).
  apply bind_Ok in Hs as (groups & Hgroups & [= <-]). split_and!; [done..|].
  exists (go_len (gg_mendnames gg)). pose proof Hmens as [Hi _]%go_set_Ok.
  split; [unfold go_len in *; lia|]. split; [by exists gg|].
  eexists. cbn [sg_set_groups sg_groups]. rewrite (go_index_set _ _ _ _ _ Hgroups), decide_True by done.
  split; [done|]. cbn. by rewrite (go_len_set _ _ _ _ Hmens).
Qed.

Lemma StartGroup_sizes gi names mnames srv now cfg cfg' :
  sg_StartGroup gi names mnames srv now cfg = Ok cfg' →
  sg_n cfg' = sg_n cfg ∧ sg_ctl cfg' = sg_ctl cfg ∧
  ∀ m, mend_len gi cfg m → ∀ i, i ∈ upto (sg_n cfg) → i < m.
Proof using Type.
  intros Hs. unfold sg_StartGroup in Hs.
  apply (go_for_inv (λ ds c, sg_n c = sg_n cfg ∧ sg_ctl c = sg_ctl cfg ∧
    ∀ m, mend_len gi cfg m → mend_len gi c m ∧ ∀ i, i ∈ ds → i < m)) in Hs as (? & ? & Hall).
  - split_and!; [done..|]. intros m Hm. by apply Hall.
  - split_and!; [done..|]. intros m Hm. split; [done|]. by intros i ?%not_elem_of_nil.
  - intros ds i c1 c2 (Hn & Hctl & Hds) _ Hs1.
    destruct (StartServer_sizes _ _ _ _ _ _ _ _ Hs1) as (Hn2 & Hctl2 & m' & Hi & (g1 & Hg1 & Hm1) & H2).
    split_and!; [congruence..|]. intros m Hm. destruct (Hds m Hm) as [(g & Hg & Hgm) Hlt].
    assert (m' = m) as -> by congruence. split; [done|].
    intros j [Hj|Hj%list_elem_of_singleton]%elem_of_app; [by apply Hlt|by subst].
Qed.

Lemma StartCtrlerService_n tags names cknames srv now rn ctl rn' :
  sg_StartCtrlerService tags names cknames srv now rn = Ok (ctl, rn') → ctl_n ctl = 3.
Proof using Type.
  intros Hs. unfold sg_StartCtrlerService in Hs. apply bind_Ok in Hs as ([ctl1 rn1] & Hloop & Hs).
  apply bind_Ok in Hs as ([rn2 es] & _ & [= <- <-]). cbn.
  apply (go_for_inv (λ _ '(c, _), ctl_n c = 3)) in Hloop; [done|done|].
  intros ds i [c r] [c' r'] Hc _ Hstep. unfold sg_StartCtrlerServer in Hstep.
  apply bind_Ok in Hstep as ([r1 e1] & _ & Hstep). apply bind_Ok in Hstep as (sc & _ & Hstep).
  apply bind_Ok in Hstep as (svs & _ & Hstep). apply bind_Ok in Hstep as (sn & _ & [= <- <-]). done.
Qed.

Lemma new_group_mends gid n m : 0 ≤ m → go_len (gg_mendnames (new_group gid n m)) = m.
Proof using Type. intros Hm. cbn. unfold go_len. rewrite length_replicate. lia. Qed.

(** The third server is the last for which a group has a row. *)
Lemma make_config_sizes n unreliable maxraftstate dr now cfg :
  sg_make_config n unreliable maxraftstate dr now = Ok cfg →
  n ≤ 3 ∧ sg_n cfg = n ∧ ctl_n (sg_ctl cfg) = 3.
Proof using Type.
  intros Hs. unfold sg_make_config in Hs. apply bind_Ok in Hs as ([ctl rn] & Hctl%StartCtrlerService_n & Hs).
  apply bind_Ok in Hs as (cfg3 & Hloop & [= <-]). change (upto 3) with [0; 1; 2] in Hloop. cbn [go_for] in Hloop.
  apply bind_Ok in Hloop as (cfg1 & (Hn1 & Hc1 & Hlt)%StartGroup_sizes & Hloop).
  apply bind_Ok in Hloop as (cfg2 & (Hn2 & Hc2 & _)%StartGroup_sizes & Hloop).
  apply bind_Ok in Hloop as (cfg3' & (Hn3 & Hc3 & _)%StartGroup_sizes & [= <-]).
  cbn in *. split_and!; [|congruence|congruence].
  destruct (decide (3 < n)) as [Hgt|]; [|lia]. specialize (Hlt 3). cbn in Hlt.
  enough (3 < 3) by lia. apply Hlt; [|apply elem_of_seqZ; lia].
  eexists. split; [reflexivity|]. rewrite Hctl. done.
Qed.

(** C40. The test configuration of the sharded service works for groups of three
    servers only: when [make_config] and then [makeClient] return, [n] is 3.
    With fewer, [makeClient] indexes a table of [n] names by the controller's
    servers; with more, [StartServer] indexes a table of the controller's
    size by the group's servers. *)
Theorem only_three_per_group n unreliable maxraftstate dr now cfg ck names r :
  sg_make_config n unreliable maxraftstate dr now = Ok cfg →
  sg_makeClient ck names (sg_ctl cfg) cfg = Ok r → n = 3.
Proof using Type.
  intros (Hle & Hn & Hctl)%make_config_sizes Hm. unfold sg_makeClient in Hm. rewrite Hctl in Hm.
  apply bind_Ok in Hm as ([[rn ens] es] & Hloop & _).
  apply (go_for_inv (λ ds '(_, ens, _), go_len ens = Z.max 0 n ∧ ∀ j, j ∈ ds → j < Z.max 0 n)) in Hloop as [_ Hall].
  - assert (2 < Z.max 0 n) by (apply Hall; apply elem_of_seqZ; lia). lia.
  - split; [unfold go_len; rewrite length_replicate; lia|by intros j ?%not_elem_of_nil].
  - intros ds j [[rn1 ens1] es1] [[rn2 ens2] es2] [Hlen Hds] _ Hstep.
    apply bind_Ok in Hstep as (ens' & Hset & Hstep). apply bind_Ok in Hstep as (sn & _ & Hstep).
    apply bind_Ok in Hstep as ([rn3 e] & _ & [= <- <- <-]).
    split; [by rewrite (go_len_set _ _ _ _ Hset)|]. apply go_set_Ok in Hset as [Hj _].
    intros j' [Hj'|Hj'%list_elem_of_singleton]%elem_of_app; [by apply Hds|subst; lia].
Qed.

(** ** Shutting a server down *)

(** [ShutdownServer] cuts a server off: none of its own end points, to its
    group or to the controller, stays switched on, its name leads to no server
    any more, and it is gone from its group with its persisted state kept. *)
Theorem shutdown_isolates gi i cfg cfg' gg :
  sg_ShutdownServer gi i cfg = Ok cfg' → go_index (sg_groups cfg) gi = Ok gg →
  (∀ j nm, j ∈ upto (go_len (gg_servers gg)) → endname_of (gg_endnames gg) i j = Ok nm →
     is_enabled (sg_net cfg') nm = false) ∧
  (∀ j nm, endname_of (gg_mendnames gg) i j = Ok nm → is_enabled (sg_net cfg') nm = false) ∧
  map_get None (servers (sg_net cfg')) (servername_of (gg_gid gg) i) = None ∧
  ∃ gg' p, go_index (sg_groups cfg') gi = Ok gg' ∧ go_index (gg_servers gg') i = Ok None ∧
    gg_saved_of i gg = Ok p ∧ gg_saved_of i gg' = Ok (Persister_Copy <$> p).
Proof using Type.
  intros Hs Hgg. unfold sg_ShutdownServer in Hs. rewrite Hgg in Hs. cbn [mbind outcome_bind] in Hs.
  apply bind_Ok in Hs as (rn1 & H1 & Hs). apply bind_Ok in Hs as (mrow & Hmrow & Hs).
  apply bind_Ok in Hs as (rn2 & H2 & Hs). apply bind_Ok in Hs as (p & Hp & Hs).
  apply bind_Ok in Hs as (saved & Hsaved & Hs). apply bind_Ok in Hs as (svs & Hsvs & Hs).
  apply bind_Ok in Hs as (groups & Hgroups & [= <-]). cbn [sg_net sg_set_groups sg_set_net sg_groups].
  assert (∀ nm, is_enabled (DeleteServer (servername_of (gg_gid gg) i) rn2) nm = is_enabled rn2 nm) as Hdel by done.
  split_and!.
  - intros j nm Hj Hnm. rewrite Hdel. apply not_true_is_false.
    rewrite (enabled_each_off _ _ _ _ nm H2), (enabled_each_off _ _ _ _ nm H1).
    intros (_ & Hno & _). apply Hno. exists j. split; [done|]. by rewrite Hnm.
  - intros j nm Hnm. rewrite Hdel. apply not_true_is_false.
    rewrite (enabled_each_off _ _ _ _ nm H2). intros [Hno _]. apply Hno. exists j. rewrite Hnm. split; [|done].
    unfold endname_of in Hnm. rewrite Hmrow in Hnm. cbn in Hnm. destruct mrow as [row|]; [|done].
    apply go_index_bound in Hnm. apply elem_of_seqZ. cbn. lia.
  - unfold map_get, DeleteServer, with_maps; cbn. by rewrite lookup_insert_eq.
  - eexists _, p. rewrite (go_index_set _ _ _ _ _ Hgroups), decide_True by done. split; [done|]. cbn.
    unfold gg_saved_of; cbn. rewrite (go_index_set _ _ _ _ _ Hsvs), decide_True by done. cbn.
    split_and!; [done|done|]. by rewrite (go_index_set _ _ _ _ _ Hsaved), decide_True.
Qed.
End Config.
Arguments group : clear implicits.
Arguments ctrler : clear implicits.
Arguments skconfig : clear implicits.

(** ** Three servers per group *)
Section Example.
Local Instance z_gob : Gob Z := countable_Gob Z.

Definition some_draws : draws := {|
  dr_tags := pretty;
  dr_ctl := λ i j, "c" +:+ pair_name i j;
  dr_ck := λ j, "k" +:+ pretty j;
  dr_ctlsrv := λ i, Z.to_pos (i + 1);
  dr_ends := λ g i j, "e" +:+ pretty g +:+ pair_name i j;
  dr_mends := λ g i j, "m" +:+ pretty g +:+ pair_name i j;
  dr_srv := λ g i, Z.to_pos (10 * (g + 1) + i);
|}.

Definition three_config : outcome (skconfig Z) := sg_make_config 3 true 1000 some_draws 0.

Lemma three_per_group_works :
  (match three_config with
   | Ok cfg => match sg_makeClient 1%positive pretty (sg_ctl cfg) cfg with Ok _ => true | Panic => false end
   | Panic => false
   end) = true.
Proof. vm_compute. reflexivity. Qed.

Lemma only_three_per_group_witness :
  ∃ cfg r, three_config = Ok cfg ∧ sg_makeClient 1%positive pretty (sg_ctl cfg) cfg = Ok r ∧ 3 = 3.
Proof.
  pose proof three_per_group_works as Hok.
  destruct three_config as [cfg|] eqn:Hcfg; [|discriminate Hok].
  destruct (sg_makeClient 1%positive pretty (sg_ctl cfg) cfg) as [r|] eqn:Hr; [|discriminate Hok].
  exists cfg, r. split; [reflexivity|]. split; [exact Hr|]. unfold three_config in Hcfg.
  exact (only_three_per_group 3 true 1000 some_draws 0 cfg 1%positive pretty r Hcfg Hr).
Defined.

Lemma shutdown_works :
  (match three_config with
   | Ok cfg => match sg_ShutdownServer 1 2 cfg, go_index (sg_groups cfg) 1 with
               | Ok _, Ok _ => true
               | _, _ => false
               end
   | Panic => false
   end) = true.
Proof. vm_compute. reflexivity. Qed.

Lemma shutdown_isolates_witness :
  ∃ cfg cfg', three_config = Ok cfg ∧ sg_ShutdownServer 1 2 cfg = Ok cfg' ∧
    ∃ gg, go_index (sg_groups cfg) 1 = Ok gg ∧
      map_get None (servers (sg_net cfg')) (servername_of (gg_gid gg) 2) = None.
Proof.
  pose proof shutdown_works as Hok.
  destruct three_config as [cfg|] eqn:Hcfg; [|discriminate Hok].
  destruct (sg_ShutdownServer 1 2 cfg) as [cfg'|] eqn:Hs; [|discriminate Hok].
  destruct (go_index (sg_groups cfg) 1) as [gg|] eqn:Hg; [|discriminate Hok].
  exists cfg, cfg'. split; [reflexivity|]. split; [exact Hs|]. exists gg. split; [exact Hg|].
  exact (proj1 (proj2 (proj2 (shutdown_isolates 1 2 cfg cfg' gg Hs Hg)))).
Defined.

Lemma servername_inj_witness : servername_of 101 2 = servername_of 101 2 ∧ 101 = 101 ∧ 2 = 2.
Proof. split; [reflexivity|]. apply (servername_inj 101 2 101 2); [lia|lia|reflexivity]. Defined.
End Example.
